(* ===== verification/_CoqProject ===== *)
-Q . S2P
Prelude.v
World.v
Checks.v
Sockets.v
Sendfile.v
Connect.v
Server.v
Attach.v
Listen.v
Datagram.v
Pipes.v
Process.v
Reaper.v
Signals.v
Wakeup.v
Flow.v
ServerSpec.v
Lifecycle.v
Handlers.v
Subprocess.v
Queue.v
Clock.v
Heap.v
Scheduler.v
SchedInv.v
SchedLive.v
SchedCalls.v
ThreadHandle.v
Stream.v
StreamInv.v
StreamRun.v
StreamEnd.v
Poller.v
Scripts.v
