(* ===== verification/Prelude.v ===== *)
(** * A verification development for zuvloop

    zuvloop is an asyncio event loop on top of libuv.  Its native core is Zig (src/zig: the
    scheduler, handles, timers, the descriptor poller, stream, pipe and datagram transports);
    the rest of asyncio's loop interface is Python (src/zuvloop), a set of mixins over the
    native loop.  This development models the Python layer, the native scheduler with its
    queues, timers and handles, the descriptor poller and the stream transport, and of the rest
    of the native core what the Python layer builds on.

    ** The program and the files

    A statement of the sources is a function of the monad [M] (this file): it takes a state
    and gives [Ok] or [Raise] together with the state it leaves.  [try], [except], [finally]
    and [for] are combinators of it, and [wp m Q E w] says that from [w] the statement [m]
    returns with [Q] or raises with [E].  Whatever the code asks of a kernel, of libuv, of
    other threads or of the application is a class of questions - [Kernel], [SigEnv],
    [LifeEnv], [ProcEnv], [SubEnv], [Outside], [LoopEnv], [TransportEnv], [PollEnv] - each asked
    with a counter, so that the same call may answer differently every time; every system call may raise, and at every
    suspension everybody else runs ([intf], [life_intf]).

    - Prelude (this file): Python's exception classes, the monad, its weakest preconditions
      ([wp_step], [wp_go]), the relational invariants [stable] and [raises] with their hint
      databases, and lemmas on lists and options.
    - World: the state the connection layer shares - socket objects, open descriptors and
      who owns each (this code, a native transport, somebody else), futures, the poller's
      registrations (zig/poller.zig), transports, servers, a trace of what was done - with
      the system calls, and [owns]: which descriptors and socket objects a computation has
      opened and not yet disposed of.
    - Checks: every [_check_*] helper of _connect.py, _sendfile.py and _loop.py.
    - Sockets: _sockets.py.  Every [sock_*] operation tries its system call and, when it
      would block, registers with the poller and waits.
    - Connect: _connect.py, name resolution, [_connect_one] and [_connect_tcp].
    - Server: _server.py, the class [Server], and [step], its atomic steps from any task.
    - ServerSpec: the contract of [asyncio.Server] as an abstract machine.
    - Attach: _connect.py, from a connected socket to a transport with or without TLS:
      [create_connection], [create_unix_connection], [connect_accepted_socket],
      [start_tls] and the accept path of servers, with the adoption of the descriptor by
      zig/transport.zig.
    - Listen, Datagram, Pipes: _connect.py, [create_server] and [create_unix_server],
      [create_datagram_endpoint], [connect_read_pipe] and [connect_write_pipe].
    - Sendfile, Flow: _sendfile.py.  Sendfile sends to a socket; Flow through a transport,
      where [_SendfileProtocol] takes the place of the application's protocol and the flow
      control of zig/transport.zig is a step relation.
    - Process, Reaper, Subprocess: _process.py and the subprocess part of _connect.py.
      Process has [Popen]'s checks and the descriptors of a spawn; Reaper the process-wide
      thread that waits for children, one step at a time among registrations, exits and the
      system's reuse of process numbers; Subprocess the transport, and in its [Module Race]
      a loop's signals among the reaper's steps.
    - Signals, Wakeup: _base.py and _loop.py, the signal handlers and the wakeup descriptor.
      Signals has the state and the operations, Wakeup what may happen in between and the
      invariant.
    - Lifecycle: _base.py, running and closing a loop, executors, asynchronous generators,
      with [_run] and [call_soon_threadsafe] of zig/loop.zig as far as they are relied on.
    - Handlers: the exception handlers of _base.py and _instrumentation.py.
    - Queue, Heap: zig/collections.zig.  [Module Ready] is the ring of callbacks ready to run,
      [Module Timers] the heap of timers, over a sifting that is generic in the order; each
      with the abstract queue it is.
    - Clock: deadlines as binary64 numbers, the clock, and the conversion of a delay to
      libuv's milliseconds (zig/loop.zig).
    - Scheduler: zig/loop.zig with zig/handle.zig and zig/timer.zig: [call_soon],
      [call_soon_threadsafe], [call_later], [call_at], [cancel], [stop], the libuv callbacks
      [onIdle], [onTimer] and [onWake], running and closing.  What a callback does is the
      environment's ([body]): any list of operations on the loop, and how it ends.  SchedInv
      has the invariant and [reachable], every state such operations and turns lead to;
      SchedCalls that what leaves the queue is called; SchedLive what a turn of each handle
      does, and that every handle that is needed is active.
    - ThreadHandle: zig/tshandle.zig, the handles any thread may cancel, as steps of threads
      with their stacks of native calls.  Scheduler has the same handles as its own thread
      sees them: [h_pending] is the state PENDING.
    - Stream: zig/transport.zig with the flush list of zig/loop.zig, the native stream
      transport: writes, the batch they gather in, libuv's queue, the marks, half-closing and
      closing, and the callbacks of reading; Python code called from inside an operation may
      call the transport again.  StreamInv has the invariant [inv] and what every operation
      keeps, StreamRun the steps and [reachable], StreamEnd the theorems and the runs that
      show where reentrant calls go wrong.  Flow's transport, in which a whole write is one
      step, is what _sendfile.py sees of it.
    - Poller: zig/poller.zig, the readers and writers of a descriptor over its one libuv poll
      handle.  World's table of watchers is its specification.
    - Scripts: the computing parts of src/scripts: [Module Sbom], [Module Conformance],
      [Module Soak].

    Components meet at interfaces.  The accept path is [Acceptor] to Server and is
    implemented in Attach; [Resolver] and [Connector] stand between Connect and its clients;
    [KernelOk] (everybody else leaves this code's own descriptors alone), [Plumbing],
    [SendOk], [WatchOk], [Clean], [SendfileOk], [StreamEnv] and [SigOk] state what proofs may
    assume of an environment; the witnesses instantiate them with concrete environments.
    For the scheduler these are [Sane] (the clock is not negative and deadlines are numbers)
    and [Plenty] (there is memory).

    ** What is shown

    - Descriptors.  Whatever fails and wherever a task is cancelled, an operation hands its
      descriptor to exactly one new owner or leaves none open: connecting
      ([connect_tcp_no_leak], [create_connection_no_leak]), listening
      ([create_server_no_leak], [create_unix_server_no_leak]), datagrams, pipes and spawns.
      Where the code does leak, the statement names the exception that does it, and the
      manifest has a finding.
    - Data.  [sock_sendall] and the three ways of sending a file send exactly the bytes asked
      for, once and in order ([sock_sendall_exact], [sock_sendfile_exact],
      [native_sendfile_ordered], [fallback_sendfile_exact]); a wait leaves no watcher behind
      ([wait_ready_cleans]).
    - Servers.  In every reachable state the active count is the number of live connections
      ([active_exact]) and nobody waits for a server that is closed and idle
      ([no_lost_wakeup]); the server simulates the contract ([server_refines]).
    - Children.  A registered child is reported exactly once with its own status, and in the
      end is reported ([reaper_exactly_once], [reaper_reports], [reaper_pass_ends]); a signal
      reaches the child it is meant for, and one interleaving where it does not is exhibited
      ([signals_own_child]); a failed setup ends the child ([make_transport_settles]).
    - Signals.  At the end of every operation of the main thread, under any interleaving with
      loops closed elsewhere and deferred cleanups, the installed wakeup descriptor is open
      and belongs to its owner ([wakeup_fd_open]); a failed installation is undone
      ([add_signal_spec]), adding and removing is a round trip ([signal_roundtrip]).
    - Loops.  However it ends, running gives the thread its running loop and its generator
      hooks back ([run_forever_unwinds]); [run_until_complete] returns or raises what its
      future says; a finalized loop is closed; a shut down executor takes no more work.
    - Scheduling.  The ring of ready callbacks is a queue ([ready_refines_fifo]) and the heap a
      priority queue, first in first out among equal deadlines ([timers_refine_pqueue]).
      Callbacks run once and in the order they were scheduled, from whichever thread, and not
      after they were cancelled ([callbacks_in_order]); one that leaves the queue is called
      ([leaving_is_calling]); a turn runs all that was ready ([ready_runs_in_turn]) and ends
      ([turn_bounded]); the timer takes exactly what is due ([due_timers_ready]), no timer is
      lost ([timers_accounted]), and whatever is scheduled has a libuv handle on its way to it
      ([nothing_stranded]): turns of the active handles alone bring it to its call, unless it
      is cancelled ([scheduled_is_called]).
    - Streams.  Whatever the protocol calls back, and however little the socket takes, what was
      written is sent in order and once ([stream_in_order]), before the stream is shut down or
      closed and with nothing after ([end_after_data]); nothing waits without somebody to go
      on with it ([nothing_waits]), a closing transport gets to [connection_lost]
      ([close_completes]), and libuv's handle is left alone inside its allocation callback
      ([handle_used_safely]).  [pause_writing] and [resume_writing] alternate, and
      [connection_lost] comes once, from a closed handle ([callbacks_in_turn]); marks and sizes are in bounds
      ([limits_sound], [sizes_bounded]).  Where a callback made in the middle of an operation
      breaks the operation's promise, a run shows it: [write_eof_gives_up],
      [close_loses_write], [resume_is_forgotten], [writelines_is_split],
      [writelines_fails_midway].
    - Polling.  libuv polls every descriptor for just what is registered for it
      ([registered_is_polled]), an event schedules just the handles registered for it
      ([events_schedule]), what was removed is never scheduled again
      ([cancelled_not_scheduled]), and the poller is the table of watchers the connection
      layer uses ([poller_refines_watchers]) - unless libuv refuses to poll
      ([refused_add_is_kept]).
    - Threads.  When [cancel] has returned on another thread the callback does not run and
      never will ([cancel_is_final]); every waiter is released ([waiters_released]); a waiter
      that waits for its own thread, which the code does not rule out, waits for ever
      ([self_wait_for_ever]).
    - Reports.  Nothing but SystemExit and KeyboardInterrupt gets out of the exception
      handlers ([exception_handler_contains]), and what they log is complete and bounded.

    ** Bounds

    Loops the sources write with [for] are recursive on their list.  The others have fuel or
    run down the environment's list of wakeups, and the theorems show that it is enough:
    [sendall_loop] gets the length of its data, since an accepted send takes a byte
    ([SendOk]); the file loops get one more than the length of the file, since each round
    ends or moves ahead in the file; interleaving gets the length of the longest family
    ([interleave_permutes]: no address is lost).  A sending loop that runs out raises
    [ModelFuel], which is no Python exception, and the theorems on these loops exclude it.
    A wait ([await_cb], [await_waiter]) is woken once per entry of [wakes] and is cancelled
    when they end; [await_future] stops with [ModelFuel] at a future nobody
    settles, which is a caller still blocked.  A pass of the reaper takes at most three steps
    for each child of its copy of the table, and one to start.  A ring doubles at most once
    per missing slot ([double_until]); sifting a heap ends within its length, and so do the
    loops that pop its timers; a turn of the idle handle has at most 256 batches, and
    [drain_loop] one round more.  Python code that a stream transport calls may call it back,
    which calls Python again: [levels n] lets that go [n] deep, at the last level the code does
    nothing, and the theorems are about every [n]; [make_room], which flushes until there is
    room, uses one level a round.  Numbers of the sources are
    Python's unbounded integers, so they are [Z] or [nat]; texts are [string], or lists of
    code points where their length matters ([safe_repr_bounded]).  The native core's 64-bit
    counters are [nat], which the sizes of memory and the lifetime of a process bound;
    deadlines are floats of 53 bits, and a timer's milliseconds are shown to fit 64 bits
    ([timer_ms_in_range]).

    ** Simplifications

    - The main thread is interrupted by other threads and deferred cleanups only at calls
      and suspensions, not between two assignments (Signals, Wakeup, Lifecycle).
    - The attempts of a connection race run one after the other in starting order, with
      everybody else in between, rather than in each other's suspensions; how many start, and
      that the later ones are cancelled, is the environment's and the model's ([race]).
    - The tables of signal handlers and of the reaper's children are walked in the order of
      [map_to_list], not of insertion.
    - A read of a file in an executor that is cancelled is taken to have completed, and files
      are unbuffered, so a position is where the last read ended.
    - A [connection_lost] that reaches one [_SendfileProtocol] inside another is not
      forwarded to the inner one.
    - Where a message shows the [repr] of an object, the model keeps the text around it.
    - The application's own exception handler does not change which handler is set.
    - In Scheduler a handle is a number and lives for ever: contexts, reference counts and
      garbage collection are left out, and with them the code a finalizer may run inside an
      operation.  Other threads schedule between operations and while callbacks run.  A slow
      callback is reported without its CPU time.
    - In Stream the protocol has all its methods and its kind does not change, contexts,
      reference counts and finalizers are left out, and so is the limit of 4 GiB on a buffer on
      Windows.  libuv is taken to send its queue in order, to complete every request before the
      callback of closing, and the closing of the loop is one step.
    - In Poller a finalizer that releasing a handle runs makes no calls, an argument is a
      descriptor already, and the ready queue is what events put there since the last turn.
    - In ThreadHandle the part of a call that a handle's critical section covers without
      letting go is one step.
    - The scripts' arguments, printing and files are parameters, and their texts are ASCII.

    ** Not modelled

    - The rest of the native core: name resolution (zig/dns.zig), the data path of datagrams
      (zig/datagram.zig), contexts and process handles, beyond ownership of descriptors and the
      flags and sizes Python sees.  libuv's own loop decides which active handle is called back
      next.  In the components of the Python layer callbacks, [_run] and what it waits for are
      the environment's; they are not composed with Scheduler.  The closing of the pipe object
      a native pipe transport has adopted is not modelled either.
    - The standard library's classes the sources build on - [BaseSubprocessTransport],
      [subprocess.Popen], [SSLProtocol], executors, threads, futures - are modelled as far as
      the sources rely on them, and logging, OpenTelemetry, [repr] and traceback formatting
      are calls out that may raise (Handlers).
    - _runner.py and __init__.py, which re-export and call [asyncio.run], scripts/build.py,
      which runs the compiler, and the benchmarks and tests around the package. *)
From stdpp Require Export base gmap sets list strings.
From Stdlib Require Export ZArith Lia DecimalString Ascii.

Declare Scope py_scope.
Delimit Scope py_scope with py.
Open Scope Z_scope.

(** ** Exceptions

    The classes of the exceptions the sources raise, catch or let through, with
    CPython's inheritance between them. *)
Module Exc.

Inductive cls :=
  | BaseException | Exception_
  | CancelledError | SystemExit | KeyboardInterrupt
  | ValueError | TypeError | AttributeError | IndexError | KeyError | AssertionError
  | RuntimeError | NotImplementedError | InvalidStateError | SendfileNotAvailableError
  | ExceptionGroup | MemoryError | OverflowError
  | OSError | BlockingIOError | InterruptedError | FileNotFoundError | FileExistsError
  | ProcessLookupError | TimeoutError | ConnectionError | BrokenPipeError
  | ModelFuel.

#[export] Instance cls_eq_dec : EqDecision cls.
Proof. solve_decision. Defined.

(** The direct base class; [BaseException] has none.  [ModelFuel] is no Python class:
    it marks a bounded loop of the model that ran out of its bound, and the theorems
    show it never appears. *)
Definition parent (c : cls) : option cls :=
  match c with
  | BaseException | ModelFuel => None
  | Exception_ | CancelledError | SystemExit | KeyboardInterrupt => Some BaseException
  | NotImplementedError | SendfileNotAvailableError => Some RuntimeError
  | BlockingIOError | InterruptedError | FileNotFoundError | FileExistsError
  | ProcessLookupError | TimeoutError | ConnectionError => Some OSError
  | BrokenPipeError => Some ConnectionError
  | _ => Some Exception_
  end.

Fixpoint subclass_fuel (n : nat) (c d : cls) : bool :=
  if decide (c = d) then true else
  match n, parent c with
  | S n', Some p => subclass_fuel n' p d
  | _, _ => false
  end.

(** The hierarchy is at most five classes deep. *)
Definition subclass (c d : cls) : bool := subclass_fuel 5 c d.

(** An exception value: its class, its [errno] if it has one, its message and, for an
    [ExceptionGroup], the exceptions it groups. *)
Inductive exn := Exn (c : cls) (errno : option Z) (msg : string) (group : list exn).

Definition exn_cls (e : exn) : cls := let 'Exn c _ _ _ := e in c.
Definition exn_errno (e : exn) : option Z := let 'Exn _ n _ _ := e in n.
Definition exn_msg (e : exn) : string := let 'Exn _ _ m _ := e in m.
Definition exn_group (e : exn) : list exn := let 'Exn _ _ _ g := e in g.

Definition isinstance (e : exn) (c : cls) : bool := subclass (exn_cls e) c.

Definition mk (c : cls) (m : string) : exn := Exn c None m [].
Definition oserror (n : Z) (m : string) : exn := Exn OSError (Some n) m [].

Definition string_of_Z (z : Z) : string := NilEmpty.string_of_int (Z.to_int z).

(** [str(exc)]: an [OSError] built from a number and a text prints both. *)
Definition str (e : exn) : string :=
  match exn_errno e with
  | Some n => ("[Errno " ++ string_of_Z n ++ "] " ++ exn_msg e)%string
  | None => exn_msg e
  end.

Lemma isinstance_BaseException e :
  exn_cls e ≠ ModelFuel → isinstance e BaseException = true.
Proof. destruct e as [c n m g]; by destruct c. Qed.

Lemma subclass_trans c d f : subclass c d = true → subclass d f = true → subclass c f = true.
Proof. by destruct c, d, f. Qed.

End Exc.
Export Exc.

(** ** Statements

    A Python statement or coroutine body over a state [W]: it returns or raises, and the
    state it leaves behind is kept in both cases. *)
Inductive res (A : Type) := Ok (a : A) | Raise (e : exn).
Arguments Ok {A} a.
Arguments Raise {A} e.

Definition M (W A : Type) : Type := W → res A * W.

Section monad.
Context {W : Type}.

Definition ret {A} (a : A) : M W A := λ w, (Ok a, w).
Definition raise {A} (e : exn) : M W A := λ w, (Raise e, w).
Definition bind {A B} (m : M W A) (k : A → M W B) : M W B := λ w,
  match m w with (Ok a, w') => k a w' | (Raise e, w') => (Raise e, w') end.
Definition gets {A} (f : W → A) : M W A := λ w, (Ok (f w), w).
Definition modify (f : W → W) : M W unit := λ w, (Ok tt, f w).
Definition of_res {A} (r : res A) : M W A := λ w, (r, w).

(** [try: m except e: h e]; a handler that does not match re-raises. *)
Definition catch {A} (m : M W A) (h : exn → M W A) : M W A := λ w,
  match m w with (Ok a, w') => (Ok a, w') | (Raise e, w') => h e w' end.

(** [try: m except c: h]. *)
Definition catch_cls {A} (m : M W A) (c : cls) (h : exn → M W A) : M W A :=
  catch m (λ e, if isinstance e c then h e else raise e).

(** [try: m except e: h e else: k], where the [else] branch is not protected. *)
Definition catch_else {A B} (m : M W A) (h : exn → M W B) (k : A → M W B) : M W B := λ w,
  match m w with (Ok a, w') => k a w' | (Raise e, w') => h e w' end.

(** [try: m finally: f]: an exception of [f] replaces the outcome of [m]. *)
Definition finally {A} (m : M W A) (f : M W unit) : M W A := λ w,
  let '(r, w') := m w in
  match f w' with (Ok _, w'') => (r, w'') | (Raise e, w'') => (Raise e, w'') end.

(** How a statement ended, as a value: what a [finally] block sees. *)
Definition capture {A} (m : M W A) : M W (res A) := λ w, let '(r, w') := m w in (Ok r, w').

(** [for x in l: body x]. *)
Fixpoint for_each {A} (l : list A) (body : A → M W unit) : M W unit :=
  match l with
  | [] => ret tt
  | x :: l' => bind (body x) (λ _, for_each l' body)
  end.

(** [for x in l: ... break ... else: ...]: [body] returns [Some b] to break. *)
Fixpoint for_break {A B} (l : list A) (body : A → M W (option B)) : M W (option B) :=
  match l with
  | [] => ret None
  | x :: l' => bind (body x) (λ o, match o with Some b => ret (Some b) | None => for_break l' body end)
  end.

Definition when_ (b : bool) (m : M W unit) : M W unit := if b then m else ret tt.
End monad.

Notation "x <- m ;; k" := (bind m (λ x, k))
  (at level 100, m at next level, right associativity) : py_scope.
Notation "m ;; k" := (bind m (λ _, k)) (at level 100, right associativity) : py_scope.
Open Scope py_scope.

(** ** Weakest preconditions *)
Section wp.
Context {W : Type}.

(** From [w], [m] returns with [Q] or raises with [E]. *)
Definition wp {A} (m : M W A) (Q : A → W → Prop) (E : exn → W → Prop) (w : W) : Prop :=
  match m w with (Ok a, w') => Q a w' | (Raise e, w') => E e w' end.

Lemma wp_ret {A} (a : A) Q E w : Q a w → wp (ret a) Q E w.
Proof. done. Qed.
Lemma wp_raise {A} e (Q : A → W → Prop) E w : E e w → wp (raise e) Q E w.
Proof. done. Qed.
Lemma wp_bind {A B} (m : M W A) (k : A → M W B) Q E w :
  wp m (λ a, wp (k a) Q E) E w → wp (bind m k) Q E w.
Proof. unfold wp, bind. by destruct (m w) as [[a|e] w']. Qed.
Lemma wp_gets {A} (f : W → A) Q E w : Q (f w) w → wp (gets f) Q E w.
Proof. done. Qed.
Lemma wp_modify f Q (E : exn → W → Prop) w : Q tt (f w) → wp (modify f) Q E w.
Proof. done. Qed.
Lemma wp_of_res {A} (r : res A) Q E w :
  (∀ a, r = Ok a → Q a w) → (∀ e, r = Raise e → E e w) → wp (of_res r) Q E w.
Proof. unfold wp, of_res. destruct r; eauto. Qed.
Lemma wp_catch {A} (m : M W A) h Q E w :
  wp m Q (λ e, wp (h e) Q E) w → wp (catch m h) Q E w.
Proof. unfold wp, catch. by destruct (m w) as [[a|e] w']. Qed.
Lemma wp_catch_cls {A} (m : M W A) c h Q E w :
  wp m Q (λ e w', (isinstance e c = true → wp (h e) Q E w') ∧
                  (isinstance e c = false → E e w')) w →
  wp (catch_cls m c h) Q E w.
Proof.
  intros H. apply wp_catch. revert H. unfold wp. destruct (m w) as [[a|e] w']; [done|].
  intros [H1 H2]. destruct (isinstance e c); [by apply H1|by apply H2].
Qed.
Lemma wp_catch_else {A B} (m : M W A) h (k : A → M W B) Q E w :
  wp m (λ a, wp (k a) Q E) (λ e, wp (h e) Q E) w → wp (catch_else m h k) Q E w.
Proof. unfold wp, catch_else. by destruct (m w) as [[a|e] w']. Qed.
Lemma wp_finally {A} (m : M W A) f Q E w :
  wp m (λ a, wp f (λ _, Q a) E) (λ e, wp f (λ _, E e) E) w → wp (finally m f) Q E w.
Proof.
  unfold wp, finally. destruct (m w) as [[a|e] w'];
    by destruct (f w') as [[[]|e'] w''].
Qed.
Lemma wp_capture {A} (m : M W A) Q E w :
  wp m (λ a, Q (Ok a)) (λ e, Q (Raise e)) w → wp (capture m) Q E w.
Proof. unfold wp, capture. by destruct (m w) as [[a|e] w']. Qed.
Lemma wp_when (b : bool) m Q E w :
  (b = true → wp m Q E w) → (b = false → Q tt w) → wp (when_ b m) Q E w.
Proof. destruct b; [intros H _; by apply H|intros _ H; by apply H]. Qed.

Lemma wp_mono {A} (m : M W A) (Q Q' : A → W → Prop) (E E' : exn → W → Prop) w :
  wp m Q E w → (∀ a w', Q a w' → Q' a w') → (∀ e w', E e w' → E' e w') → wp m Q' E' w.
Proof. unfold wp. destruct (m w) as [[a|e] w']; eauto. Qed.

(** The loop rules: an invariant over what is left of the list. *)
Lemma wp_for_each {A} (I : list A → W → Prop) (body : A → M W unit) Q E l w :
  I l w →
  (∀ x l' w', I (x :: l') w' → wp (body x) (λ _, I l') E w') →
  (∀ w', I [] w' → Q tt w') →
  wp (for_each l body) Q E w.
Proof.
  intros HI Hb HQ. revert w HI. induction l as [|x l IH]; intros w HI.
  - by apply HQ.
  - apply wp_bind. eapply wp_mono; [by apply Hb| |done]. intros [] w' HI'. by apply IH.
Qed.

Lemma wp_for_break {A B} (I : list A → W → Prop) (body : A → M W (option B)) Q E l w :
  I l w →
  (∀ x l' w', I (x :: l') w' →
     wp (body x) (λ o w'', match o with Some b => Q (Some b) w'' | None => I l' w'' end) E w') →
  (∀ w', I [] w' → Q None w') →
  wp (for_break l body) Q E w.
Proof.
  intros HI Hb HQ. revert w HI. induction l as [|x l IH]; intros w HI.
  - by apply HQ.
  - apply wp_bind. eapply wp_mono; [by apply Hb| |done].
    intros [b|] w' HI'; [done|by apply IH].
Qed.

(** Reading a run off a precondition. *)
Lemma wp_run {A} (m : M W A) Q E w : wp m Q E w →
  ∀ r w', m w = (r, w') → match r with Ok a => Q a w' | Raise e => E e w' end.
Proof. unfold wp. by intros H r w' Hm; rewrite Hm in H; destruct r. Qed.

Lemma run_wp {A} (m : M W A) Q E w :
  (∀ r w', m w = (r, w') → match r with Ok a => Q a w' | Raise e => E e w' end) → wp m Q E w.
Proof. unfold wp. intros H. destruct (m w) as [r w'] eqn:Hm. specialize (H r w' eq_refl). by destruct r. Qed.
End wp.

(** Statements equal on every state; the monad operations respect it. *)
Definition meq {W A} (m1 m2 : M W A) : Prop := ∀ w, m1 w = m2 w.
#[export] Instance meq_equivalence {W A} : Equivalence (@meq W A).
Proof. split; [by intros m w|by intros m m' H w|by intros m1 m2 m3 H H' w; rewrite H, H']. Qed.
#[export] Instance bind_proper {W A B} :
  Proper (meq ==> pointwise_relation A meq ==> meq) (@bind W A B).
Proof.
  intros m m' Hm k k' Hk w. unfold bind. rewrite (Hm w).
  destruct (m' w) as [[a|e] w']; [apply Hk|done].
Qed.
#[export] Instance finally_proper {W A} : Proper (meq ==> meq ==> meq) (@finally W A).
Proof.
  intros m m' Hm f f' Hf w. unfold finally. rewrite (Hm w). destruct (m' w) as [r w'].
  by rewrite (Hf w').
Qed.
#[export] Instance wp_proper {W A} :
  Proper (meq ==> eq ==> eq ==> eq ==> iff) (@wp W A).
Proof. intros m m' Hm Q ? <- E ? <- w ? <-. unfold wp. by rewrite (Hm w). Qed.

Lemma bind_ret_l {W A B} (a : A) (k : A → M W B) : meq (bind (ret a) k) (k a).
Proof. done. Qed.
Lemma bind_raise {W A B} e (k : A → M W B) : meq (bind (raise e) k) (raise e).
Proof. done. Qed.
Lemma bind_assoc {W A B C} (m : M W A) (k : A → M W B) (h : B → M W C) :
  meq (bind (bind m k) h) (bind m (λ a, bind (k a) h)).
Proof. intros w. unfold bind. by destruct (m w) as [[a|e] w']. Qed.
Lemma finally_ret {W A} (m : M W A) : meq (finally m (ret tt)) m.
Proof. intros w. unfold finally, ret. by destruct (m w). Qed.

Create HintDb py.
#[export] Hint Resolve wp_ret wp_raise wp_gets wp_modify : py.

(** One structural step of a weakest precondition; [wp_go] takes all it can. *)
Ltac wp_step :=
  lazymatch goal with
  | |- wp (bind _ _) _ _ _ => apply wp_bind
  | |- wp (ret _) _ _ _ => apply wp_ret
  | |- wp (raise _) _ _ _ => apply wp_raise
  | |- wp (gets _) _ _ _ => apply wp_gets
  | |- wp (modify _) _ _ _ => apply wp_modify
  | |- wp (of_res _) _ _ _ => apply wp_of_res; intros
  | |- wp (catch_cls _ _ _) _ _ _ => apply wp_catch_cls
  | |- wp (catch_else _ _ _) _ _ _ => apply wp_catch_else
  | |- wp (catch _ _) _ _ _ => apply wp_catch
  | |- wp (finally _ _) _ _ _ => apply wp_finally
  | |- wp (capture _) _ _ _ => apply wp_capture
  | |- wp (when_ _ _) _ _ _ => apply wp_when; intros
  | |- wp (if ?b then _ else _) _ _ _ => destruct b eqn:?
  | |- wp (match ?x with _ => _ end) _ _ _ => destruct x eqn:?
  | |- wp (let '(_, _) := ?x in _) _ _ _ => destruct x eqn:?
  end.
Ltac wp_go := repeat (wp_step; cbn beta iota zeta).

(** ** Statements that stay within a relation

    [stable R m]: whatever the outcome of [m], the state it leaves is related by the
    preorder [R] to the state it started from. *)
Definition stable {W A} (R : relation W) (m : M W A) : Prop :=
  ∀ w, wp m (λ _, R w) (λ _, R w) w.

Section stable.
Context {W : Type} (R : relation W) `{HR : !PreOrder R}.

Lemma stable_ret {A} (a : A) : stable R (ret a).
Proof. intros w. by apply wp_ret. Qed.
Lemma stable_raise {A} e : stable R (raise (A:=A) e).
Proof. intros w. by apply wp_raise. Qed.
Lemma stable_of_res {A} (r : res A) : stable R (of_res r).
Proof. intros w. by apply wp_of_res. Qed.
Lemma stable_gets {A} (f : W → A) : stable R (gets f).
Proof. intros w. by apply wp_gets. Qed.
Lemma stable_modify f : (∀ w, R w (f w)) → stable R (modify f).
Proof. intros H w. by apply wp_modify. Qed.
(** A stable statement can stand in front of anything that only needs the relation. *)
Lemma wp_stable {A} (m : M W A) Q E w :
  stable R m → (∀ a w', R w w' → Q a w') → (∀ e w', R w w' → E e w') → wp m Q E w.
Proof. intros H HQ HE. eapply wp_mono; [apply H|done|done]. Qed.
Lemma stable_bind {A B} (m : M W A) (k : A → M W B) :
  stable R m → (∀ a, stable R (k a)) → stable R (bind m k).
Proof.
  intros Hm Hk w. apply wp_bind, wp_stable; [done| |done]. intros a w' H.
  apply wp_stable; [apply Hk|intros; by etrans..].
Qed.
Lemma stable_catch {A} (m : M W A) h :
  stable R m → (∀ e, stable R (h e)) → stable R (catch m h).
Proof.
  intros Hm Hh w. apply wp_catch, wp_stable; [done|done|]. intros e w' H.
  apply wp_stable; [apply Hh|intros; by etrans..].
Qed.
Lemma stable_catch_cls {A} (m : M W A) c h :
  stable R m → (∀ e, stable R (h e)) → stable R (catch_cls m c h).
Proof.
  intros Hm Hh. apply stable_catch; [done|]. intros e.
  destruct (isinstance e c); [apply Hh|apply stable_raise].
Qed.
Lemma stable_catch_else {A B} (m : M W A) h (k : A → M W B) :
  stable R m → (∀ e, stable R (h e)) → (∀ a, stable R (k a)) → stable R (catch_else m h k).
Proof.
  intros Hm Hh Hk w. apply wp_catch_else, wp_stable; [done|intros a w' H|intros e w' H];
    (apply wp_stable; [done|intros; by etrans..]).
Qed.
Lemma stable_finally {A} (m : M W A) f :
  stable R m → stable R f → stable R (finally m f).
Proof.
  intros Hm Hf w. apply wp_finally, wp_stable; [done|intros a w' H|intros e w' H];
    (apply wp_stable; [done|intros; by etrans..]).
Qed.
Lemma stable_capture {A} (m : M W A) : stable R m → stable R (capture m).
Proof. intros Hm w. by apply wp_capture, wp_stable. Qed.
Lemma stable_when (b : bool) m : stable R m → stable R (when_ b m).
Proof. intros H. destruct b; [done|intros w; by apply wp_ret]. Qed.
Lemma stable_for_each {A} (l : list A) body :
  (∀ x, stable R (body x)) → stable R (for_each l body).
Proof.
  intros H w. apply (wp_for_each (λ _ w', R w w')); [done| |done]. intros x l' w' Hw.
  apply wp_stable; [apply H|intros; by etrans..].
Qed.
Lemma stable_for_break {A B} (l : list A) (body : A → M W (option B)) :
  (∀ x, stable R (body x)) → stable R (for_break l body).
Proof.
  intros H w. apply (wp_for_break (λ _ w', R w w')); [done| |done]. intros x l' w' Hw.
  apply wp_stable; [apply H|intros [b|] w'' H'; by etrans|intros; by etrans].
Qed.
End stable.

Create HintDb stable.
#[export] Hint Resolve stable_ret stable_raise stable_of_res stable_gets : stable.

(** Proves [stable R m] by the structure of [m]; what is left are the relation's own
    obligations. *)
Ltac stable_step :=
  lazymatch goal with
  | |- stable _ (match ?x with _ => _ end) => destruct x
  | |- stable _ (if ?x then _ else _) => destruct x
  | |- stable _ (let '(_, _) := ?x in _) => destruct x
  | |- stable _ (bind _ _) => apply stable_bind; [try apply _| |]
  | |- stable _ (modify _) => apply stable_modify
  | |- stable _ (catch_else _ _ _) => apply stable_catch_else; [try apply _| | |]
  | |- stable _ (catch_cls _ _ _) => apply stable_catch_cls; [try apply _| |]
  | |- stable _ (catch _ _) => apply stable_catch; [try apply _| |]
  | |- stable _ (finally _ _) => apply stable_finally; [try apply _| |]
  | |- stable _ (capture _) => apply stable_capture
  | |- stable _ (when_ _ _) => apply stable_when; [try apply _|]
  | |- stable _ (for_each _ _) => apply stable_for_each; [try apply _|]
  | |- stable _ (for_break _ _) => apply stable_for_break; [try apply _|]
  | |- ∀ _, _ => intro
  | |- stable _ _ => solve [eauto 3 with stable typeclass_instances]
  | |- _ => solve [eauto 3 with stable]
  end.
Ltac solve_stable := repeat (stable_step; cbn beta iota).

(** ** Statements that raise only some exceptions

    [raises P m]: from any state, [m] returns or raises an exception in [P]; with the empty
    [P] it never raises. *)
Definition raises {W A} (P : exn → Prop) (m : M W A) : Prop :=
  ∀ w, wp m (λ _ _, True) (λ e _, P e) w.
Abbreviation total := (raises (λ _, False)).

Lemma wp_and {W A} (m : M W A) Q Q' (E E' : exn → W → Prop) w :
  wp m Q E w → wp m Q' E' w → wp m (λ a w, Q a w ∧ Q' a w) (λ e w, E e w ∧ E' e w) w.
Proof. unfold wp. by destruct (m w) as [[a|e] w']. Qed.

Section raises.
Context {W : Type} (P : exn → Prop).
Lemma raises_ret {A} (a : A) : raises (W:=W) P (ret a).
Proof. intros w. by apply wp_ret. Qed.
Lemma raises_raise {A} e : P e → raises (W:=W) P (raise (A:=A) e).
Proof. intros H w. by apply wp_raise. Qed.
Lemma raises_gets {A} (f : W → A) : raises P (gets f).
Proof. intros w. by apply wp_gets. Qed.
Lemma raises_modify (f : W → W) : raises P (modify f).
Proof. intros w. by apply wp_modify. Qed.
Lemma raises_bind {A B} (m : M W A) (k : A → M W B) :
  raises P m → (∀ a, raises P (k a)) → raises P (bind m k).
Proof. intros Hm Hk w. apply wp_bind. eapply wp_mono; [apply Hm|intros a w' _; apply Hk|done]. Qed.
Lemma raises_catch {A} (m : M W A) h (P' : exn → Prop) :
  raises P' m → (∀ e, P' e → raises P (h e)) → raises P (catch m h).
Proof.
  intros Hm Hh w. apply wp_catch. eapply wp_mono; [apply Hm|done|intros e w' He; by apply Hh].
Qed.
Lemma raises_finally {A} (m : M W A) f : raises P m → raises P f → raises P (finally m f).
Proof.
  intros Hm Hf w. apply wp_finally. eapply wp_mono; [apply Hm|intros a w' _|intros e w' He];
    (eapply wp_mono; [apply Hf|done|done]).
Qed.
Lemma raises_capture {A} (m : M W A) : raises P m → raises P (capture m).
Proof. intros Hm w. apply wp_capture. eapply wp_mono; [apply Hm|done|done]. Qed.
Lemma raises_when (b : bool) m : raises (W:=W) P m → raises P (when_ b m).
Proof. intros H. destruct b; [done|apply raises_ret]. Qed.
Lemma raises_for_each {A} (l : list A) (body : A → M W unit) :
  (∀ x, raises P (body x)) → raises P (for_each l body).
Proof. intros H. induction l; [apply raises_ret|]. by apply raises_bind. Qed.
End raises.

Lemma wp_stable_total {W A} (R : relation W) `{!PreOrder R} (m : M W A) Q E w :
  stable R m → total m → (∀ a w', R w w' → Q a w') → wp m Q E w.
Proof.
  intros H1 H2 HQ. eapply wp_mono; [apply (wp_and _ _ _ _ _ _ (H1 w) (H2 w))| |];
    [intros a w' [? _]; auto|by intros e w' [_ []]].
Qed.

Create HintDb raises.
#[export] Hint Resolve raises_ret raises_gets raises_modify : raises.
Ltac raises_step :=
  lazymatch goal with
  | |- raises _ (match ?x with _ => _ end) => destruct x
  | |- raises _ (if ?x then _ else _) => destruct x
  | |- raises _ (bind _ _) => apply raises_bind
  | |- raises _ (finally _ _) => apply raises_finally
  | |- raises _ (capture _) => apply raises_capture
  | |- raises _ (when_ _ _) => apply raises_when
  | |- raises _ (for_each _ _) => apply raises_for_each
  | |- ∀ _, _ => intro
  | |- raises _ _ => solve [eauto 3 with raises]
  end.
Ltac solve_raises := repeat (raises_step; cbn beta iota).

(** ** Lists *)
Lemma take_min_length {A} k (l : list A) : take (Nat.min k (length l)) l = take k l.
Proof.
  destruct (decide (k ≤ length l)%nat); [by rewrite Nat.min_l|].
  rewrite Nat.min_r by lia. by rewrite !take_ge by lia.
Qed.
Lemma take_length_take {A} (n : nat) (l : list A) : take (length (take n l)) l = take n l.
Proof. rewrite length_take. apply take_min_length. Qed.
Lemma drop_take_app {A} (n k : nat) (l : list A) : take n l ++ take k (drop n l) = take (n + k) l.
Proof. revert n. induction l as [|x l IH]; intros [|n]; cbn; rewrite ?take_nil; [done..|]. by rewrite IH. Qed.
