(* ===== verification/World.v ===== *)
(** * The state the connection layer works on

    Socket objects, descriptors and who is responsible for closing them, the native
    loop's descriptor watchers (zig/poller.zig), transports handed to libuv, and the
    kernel that answers system calls.  The kernel and the rest of the program are the
    environment: [Kernel] is their interface, [KernelOk] what they promise. *)
From S2P Require Import Prelude.

(** ** Platforms and the constants that depend on them *)
Inductive platform := Linux | Darwin | SunOS | Aix | Win32.
#[export] Instance platform_eq_dec : EqDecision platform.
Proof. solve_decision. Defined.

Definition is_win32 (p : platform) : bool := bool_decide (p = Win32).
Definition os_name_posix (p : platform) : bool := negb (is_win32 p).
Definition AF_INET : Z := 2.
Definition AF_INET6 (p : platform) : Z :=
  match p with Linux => 10 | Darwin => 30 | SunOS => 26 | Aix => 24 | Win32 => 23 end.
(** [_AF_UNIX]: a value no family equals where the socket module has none. *)
Definition AF_UNIX_ (p : platform) : Z := if is_win32 p then -1 else 1.
Definition SOCK_STREAM : Z := 1.
Definition SOCK_DGRAM : Z := 2.
Definition AI_PASSIVE : Z := 1.
Definition EADDRINUSE (p : platform) : Z :=
  match p with Linux => 98 | Darwin => 48 | SunOS => 125 | Aix => 67 | Win32 => 10048 end.

Definition ENOBUFS (p : platform) : Z :=
  match p with Linux => 105 | Darwin => 55 | SunOS => 132 | Aix => 74 | Win32 => 10055 end.

(** [OSError(errno, ...)] makes the subclass its number stands for. *)
Definition errno_classes (p : platform) : list (Z * cls) :=
  let same := [(4, InterruptedError); (17, FileExistsError); (2, FileNotFoundError);
               (32, BrokenPipeError); (3, ProcessLookupError)] in
  let mk_ again progress already shutdown aborted refused reset timedout :=
    [(again, BlockingIOError); (progress, BlockingIOError); (already, BlockingIOError);
     (shutdown, BrokenPipeError); (aborted, ConnectionError); (refused, ConnectionError);
     (reset, ConnectionError); (timedout, TimeoutError)] ++ same in
  match p with
  | Linux => mk_ 11 115 114 108 103 111 104 110
  | Darwin => mk_ 35 36 37 58 53 61 54 60
  | SunOS => mk_ 11 150 149 143 130 146 131 145
  | Aix => mk_ 11 55 56 77 72 79 73 78
  | Win32 => mk_ 10035 10036 10037 10058 10053 10061 10054 10060
  end.
Definition errno_class (p : platform) (n : Z) : cls :=
  match find (λ q, q.1 =? n) (errno_classes p) with Some q => q.2 | None => OSError end.
Definition new_OSError (p : platform) (n : option Z) (m : string) : exn :=
  Exn (match n with Some n => errno_class p n | None => OSError end) n m [].
Lemma new_OSError_isinstance p n m : isinstance (new_OSError p n m) OSError = true.
Proof.
  unfold new_OSError, isinstance, errno_class. cbn [exn_cls]. destruct n as [n|]; [|done].
  destruct (find _ _) as [q|] eqn:H; [|done]. apply find_some in H as [H _].
  destruct p; cbn in H; repeat (destruct H as [<-|H]; [done|]); done.
Qed.

(** ** Addresses *)
Inductive aitem := IText (s : string) | IInt (z : Z) | IOther.
#[export] Instance aitem_eq_dec : EqDecision aitem.
Proof. solve_decision. Defined.
(** A Python value in address position: a tuple, a path or text, or anything else. *)
Inductive pyaddr := ATuple (items : list aitem) | AText (s : string) | AOther.
#[export] Instance pyaddr_eq_dec : EqDecision pyaddr.
Proof. solve_decision. Defined.

Record addrinfo := AddrInfo {
  ai_family : Z; ai_type : Z; ai_proto : Z; ai_canon : string; ai_addr : pyaddr }.
#[export] Instance addrinfo_eq_dec : EqDecision addrinfo.
Proof. solve_decision. Defined.

(** ** Sockets, descriptors and transports *)
Abbreviation fd := nat (only parsing).
Abbreviation oid := nat (only parsing).

(** Who closes an open descriptor: the code under study, a native transport that
    adopted it, or somebody else in the program. *)
Inductive owner := Mine | Native (transport : oid) | Foreign.
#[export] Instance owner_eq_dec : EqDecision owner.
Proof. solve_decision. Defined.

(** A [socket.socket]; [ps_fd] is [None] once closed or detached ([fileno() == -1]). *)
Record psock := PSock {
  ps_fd : option fd; ps_family : Z; ps_type : Z; ps_proto : Z; ps_blocking : bool }.

(** What a stream transport answers [get_extra_info] with. *)
Record extra := Extra {
  ex_sockname : option pyaddr; ex_peername : option pyaddr;
  ex_family : Z; ex_type : Z; ex_proto : Z; ex_socket : option oid }.

Inductive kind := KIND_TCP | KIND_PIPE | KIND_PIPE_READ | KIND_PIPE_WRITE | KIND_UDP (connected : bool).
#[export] Instance kind_eq_dec : EqDecision kind.
Proof. solve_decision. Defined.

(** [tr_open] and [tr_closing] are the flags [OPEN] and [CLOSING], [tr_wbuf] is
    [write_buffer_size] and [tr_view] is [socket_view]. *)
Record transport := Transport {
  tr_fd : fd; tr_kind : kind; tr_open : bool; tr_closing : bool; tr_wbuf : nat;
  tr_view : option oid; tr_extra : extra; tr_server : option oid }.

Definition with_open (f : bool → bool) (t : transport) : transport :=
  Transport (tr_fd t) (tr_kind t) (f (tr_open t)) (tr_closing t) (tr_wbuf t) (tr_view t) (tr_extra t) (tr_server t).
Definition with_closing (f : bool → bool) (t : transport) : transport :=
  Transport (tr_fd t) (tr_kind t) (tr_open t) (f (tr_closing t)) (tr_wbuf t) (tr_view t) (tr_extra t) (tr_server t).
Definition with_view (f : option oid → option oid) (t : transport) : transport :=
  Transport (tr_fd t) (tr_kind t) (tr_open t) (tr_closing t) (tr_wbuf t) (f (tr_view t)) (tr_extra t) (tr_server t).

(** [_SSLArg]: an [SSLContext], a bool or [None]. *)
Inductive sslarg := SSLNone | SSLBool (b : bool) | SSLCtx (c : nat).
#[export] Instance sslarg_eq_dec : EqDecision sslarg.
Proof. solve_decision. Defined.

(** A [Future] that carries no value. *)
Inductive fut := Pending | Resolved | Cancelled | Failed (e : exn).
#[export] Instance is_pending_dec (x : option fut) : Decision (x = Some Pending).
Proof. destruct x as [[]|]; (left; done) || (right; done). Defined.

(** The attributes of a [Server] (zuvloop/_server.py); durations are whole units. *)
Record server := Server {
  _sockets : option (list oid);
  _ssl : sslarg;
  _backlog : nat;
  _ssl_handshake_timeout : option Z;
  _ssl_shutdown_timeout : option Z;
  _active : Z;
  _transports : list oid;
  _serving : bool;
  _waiters : option (list oid);
  _serving_forever : option oid;
  _cleanup_path : option string;
  _cleanup_identity : option (Z * Z) }.

(** The protocol a stream transport calls: the application's, or a [_SendfileProtocol]. *)
Inductive proto := PApp | PSend (sp : oid).
#[export] Instance proto_eq_dec : EqDecision proto.
Proof. solve_decision. Defined.

(** Flow control of a stream transport: its protocol, whether it reads, [PROTOCOL_PAUSED],
    the marks, what [write] accepted and the socket has not taken, and what the application's
    protocol was last told ([true]: to pause writing). *)
Record flow := Flow {
  fl_protocol : proto; fl_reading : bool; fl_paused : bool; fl_low : nat; fl_high : nat;
  fl_buf : list Byte.byte; fl_told : bool }.

(** [_SendfileProtocol] (zuvloop/_sendfile.py). *)
Record sendproto := SendProto {
  sp_transport : oid; sp_protocol : proto;
  _should_resume_reading : bool; _should_resume_writing : bool; sp_waiter : option oid }.

Inductive event :=
  | EvSocket (family kind proto : Z)
  | EvSockOpt (sock : oid) (opt : string)
  | EvBind (sock : oid) (a : pyaddr)
  | EvConnect (sock : oid) (a : pyaddr)
  | EvSend (sock : oid) (data : list Byte.byte)
  | EvHandler (message : string) (e : exn)
  | EvListen (sock : oid) (backlog : nat)
  | EvAccept (conn server : oid)              (* [_accept] counted a connection *)
  | EvReady (t : oid) (waiter : option oid)   (* [connection_made] and the waiter are queued *)
  | EvAdopt (t : oid) (server : option oid)   (* libuv adopted a descriptor *)
  | EvTask (conn server : oid)                (* [_accept_tls] was scheduled *)
  | EvDetach (server : oid)                   (* [Server._detach] ran *)
  | EvPipe (t pipe : oid) (watched : bool)    (* [_adopt_pipe] of the pipe, or of its watch *)
  | EvLost (t : oid) (e : option exn)         (* [_force_close] *)
  | EvUnlink (path : string)
  | EvLater (server : oid)                    (* [call_later(..., server._start_serving)] *)
  | EvOther (what : string).

Record world := World {
  w_tick : nat;                            (* environment questions asked so far *)
  w_next : oid;                            (* next object identity *)
  w_fds : gmap nat owner;                  (* open descriptors *)
  w_socks : gmap nat psock;                (* socket objects *)
  w_readers : gmap nat oid;                (* poller.zig: [Poller.reader] by descriptor *)
  w_writers : gmap nat oid;                (* poller.zig: [Poller.writer] by descriptor *)
  w_watchers : gmap (nat * bool) oid;      (* [LoopBase._sock_watchers] *)
  w_trans : gmap nat transport;            (* native transports *)
  w_errs : list (list exn);                (* [_connect_tcp]'s [errors], one slot per attempt *)
  w_futs : gmap nat fut;                   (* futures *)
  w_servers : gmap nat server;             (* servers *)
  w_pos : gmap nat nat;                    (* positions of open files *)
  w_flows : gmap nat flow;                 (* write sides of stream transports *)
  w_sps : gmap nat sendproto;              (* [_SendfileProtocol] objects *)
  w_log : list event }.                  (* what has been done, oldest first *)

Definition set_tick (f : nat → nat) (w : world) : world :=
  World (f (w_tick w)) (w_next w) (w_fds w) (w_socks w) (w_readers w) (w_writers w) (w_watchers w) (w_trans w) (w_errs w) (w_futs w) (w_servers w) (w_pos w) (w_flows w) (w_sps w) (w_log w).
Definition set_next (f : oid → oid) (w : world) : world :=
  World (w_tick w) (f (w_next w)) (w_fds w) (w_socks w) (w_readers w) (w_writers w) (w_watchers w) (w_trans w) (w_errs w) (w_futs w) (w_servers w) (w_pos w) (w_flows w) (w_sps w) (w_log w).
Definition set_fds (f : gmap nat owner → gmap nat owner) (w : world) : world :=
  World (w_tick w) (w_next w) (f (w_fds w)) (w_socks w) (w_readers w) (w_writers w) (w_watchers w) (w_trans w) (w_errs w) (w_futs w) (w_servers w) (w_pos w) (w_flows w) (w_sps w) (w_log w).
Definition set_socks (f : gmap nat psock → gmap nat psock) (w : world) : world :=
  World (w_tick w) (w_next w) (w_fds w) (f (w_socks w)) (w_readers w) (w_writers w) (w_watchers w) (w_trans w) (w_errs w) (w_futs w) (w_servers w) (w_pos w) (w_flows w) (w_sps w) (w_log w).
Definition set_readers (f : gmap nat oid → gmap nat oid) (w : world) : world :=
  World (w_tick w) (w_next w) (w_fds w) (w_socks w) (f (w_readers w)) (w_writers w) (w_watchers w) (w_trans w) (w_errs w) (w_futs w) (w_servers w) (w_pos w) (w_flows w) (w_sps w) (w_log w).
Definition set_writers (f : gmap nat oid → gmap nat oid) (w : world) : world :=
  World (w_tick w) (w_next w) (w_fds w) (w_socks w) (w_readers w) (f (w_writers w)) (w_watchers w) (w_trans w) (w_errs w) (w_futs w) (w_servers w) (w_pos w) (w_flows w) (w_sps w) (w_log w).
Definition set_watchers (f : gmap (nat * bool) oid → gmap (nat * bool) oid) (w : world) : world :=
  World (w_tick w) (w_next w) (w_fds w) (w_socks w) (w_readers w) (w_writers w) (f (w_watchers w)) (w_trans w) (w_errs w) (w_futs w) (w_servers w) (w_pos w) (w_flows w) (w_sps w) (w_log w).
Definition set_trans (f : gmap nat transport → gmap nat transport) (w : world) : world :=
  World (w_tick w) (w_next w) (w_fds w) (w_socks w) (w_readers w) (w_writers w) (w_watchers w) (f (w_trans w)) (w_errs w) (w_futs w) (w_servers w) (w_pos w) (w_flows w) (w_sps w) (w_log w).
Definition set_errs (f : list (list exn) → list (list exn)) (w : world) : world :=
  World (w_tick w) (w_next w) (w_fds w) (w_socks w) (w_readers w) (w_writers w) (w_watchers w) (w_trans w) (f (w_errs w)) (w_futs w) (w_servers w) (w_pos w) (w_flows w) (w_sps w) (w_log w).
Definition set_futs (f : gmap nat fut → gmap nat fut) (w : world) : world :=
  World (w_tick w) (w_next w) (w_fds w) (w_socks w) (w_readers w) (w_writers w) (w_watchers w) (w_trans w) (w_errs w) (f (w_futs w)) (w_servers w) (w_pos w) (w_flows w) (w_sps w) (w_log w).
Definition set_servers (f : gmap nat server → gmap nat server) (w : world) : world :=
  World (w_tick w) (w_next w) (w_fds w) (w_socks w) (w_readers w) (w_writers w) (w_watchers w) (w_trans w) (w_errs w) (w_futs w) (f (w_servers w)) (w_pos w) (w_flows w) (w_sps w) (w_log w).
Definition set_pos (f : gmap nat nat → gmap nat nat) (w : world) : world :=
  World (w_tick w) (w_next w) (w_fds w) (w_socks w) (w_readers w) (w_writers w) (w_watchers w) (w_trans w) (w_errs w) (w_futs w) (w_servers w) (f (w_pos w)) (w_flows w) (w_sps w) (w_log w).
Definition set_flows (f : gmap nat flow → gmap nat flow) (w : world) : world :=
  World (w_tick w) (w_next w) (w_fds w) (w_socks w) (w_readers w) (w_writers w) (w_watchers w) (w_trans w) (w_errs w) (w_futs w) (w_servers w) (w_pos w) (f (w_flows w)) (w_sps w) (w_log w).
Definition set_sps (f : gmap nat sendproto → gmap nat sendproto) (w : world) : world :=
  World (w_tick w) (w_next w) (w_fds w) (w_socks w) (w_readers w) (w_writers w) (w_watchers w) (w_trans w) (w_errs w) (w_futs w) (w_servers w) (w_pos w) (w_flows w) (f (w_sps w)) (w_log w).
Definition log_event (e : event) (w : world) : world :=
  World (w_tick w) (w_next w) (w_fds w) (w_socks w) (w_readers w) (w_writers w) (w_watchers w) (w_trans w) (w_errs w) (w_futs w) (w_servers w) (w_pos w) (w_flows w) (w_sps w) (w_log w ++ [e]).

(** A world with nothing in it but what the arguments give. *)
Definition world0 : world := World 0 0 ∅ ∅ ∅ ∅ ∅ ∅ [] ∅ ∅ ∅ ∅ ∅ [].

(** ** Descriptors this code must still close *)
Definition mine (w : world) : gset nat := dom (filter (λ p, p.2 = Mine) (w_fds w)).

(** Socket object [o] is live on descriptor [f], which is ours. *)
Definition holds (w : world) (o : oid) (f : fd) : Prop :=
  ∃ s, w_socks w !! o = Some s ∧ ps_fd s = Some f ∧ w_fds w !! f = Some Mine ∧ (o < w_next w)%nat.

Lemma elem_of_mine w f : f ∈ mine w ↔ w_fds w !! f = Some Mine.
Proof.
  unfold mine. rewrite elem_of_dom. split.
  - intros [o H]. apply map_lookup_filter_Some in H as [H E]. simpl in E. by subst.
  - intros H. exists Mine. by apply map_lookup_filter_Some.
Qed.

Lemma holds_mine w o f : holds w o f → f ∈ mine w.
Proof. intros (s & _ & _ & H & _). by apply elem_of_mine. Qed.

(** Transports stay, on their descriptor; one that is closing goes on closing. *)
Definition trans_grow (m m' : gmap nat transport) : Prop :=
  ∀ t tr, m !! t = Some tr →
    ∃ tr', m' !! t = Some tr' ∧ tr_fd tr' = tr_fd tr ∧ (tr_closing tr = true → tr_closing tr' = true).
#[export] Instance trans_grow_preorder : PreOrder trans_grow.
Proof.
  split; [by intros m t tr H; exists tr|]. intros m1 m2 m3 H H' t tr Ht.
  destruct (H t tr Ht) as (tr2 & H2 & E2 & C2). destruct (H' t tr2 H2) as (tr3 & H3 & E3 & C3).
  exists tr3. split; [done|]. split; [congruence|auto].
Qed.

(** Every open transport owns its descriptor, and its socket view, while armed, is on it. *)
Definition native_ok (w : world) : Prop :=
  ∀ t tr, w_trans w !! t = Some tr → tr_open tr = true →
    w_fds w !! tr_fd tr = Some (Native t) ∧
    ∀ o, tr_view tr = Some o → (o < w_next w)%nat ∧
      ∀ g, w_socks w !! o ≫= ps_fd = Some g → g = tr_fd tr.

(** What the code under study may rely on across a step it does not control: no
    descriptor of ours appears or disappears, our socket objects stay as they are, and
    transports only move towards closing. *)
Record keeps_own (w w' : world) : Prop := {
  keeps_next : (w_next w ≤ w_next w')%nat;
  keeps_mine : mine w' = mine w;
  keeps_trans : trans_grow (w_trans w) (w_trans w');
  keeps_native : native_ok w → native_ok w';
  keeps_socks : ∀ o f, holds w o f → w_socks w' !! o = w_socks w !! o }.

(** The same, and the error slots of the connection attempt are untouched too. *)
Record keeps (w w' : world) : Prop := {
  keeps_owned : keeps_own w w';
  keeps_errs : w_errs w' = w_errs w }.

Lemma keeps_holds w w' o f : keeps_own w w' → holds w o f → holds w' o f.
Proof.
  intros K H. pose proof (keeps_socks _ _ K _ _ H) as Hs. destruct H as (s & H1 & H2 & H3 & H4).
  exists s. rewrite Hs. repeat split; try done.
  - apply elem_of_mine. rewrite (keeps_mine _ _ K). by apply elem_of_mine.
  - pose proof (keeps_next _ _ K). lia.
Qed.

#[export] Instance keeps_own_preorder : PreOrder keeps_own.
Proof.
  split.
  - intros w. by split.
  - intros w1 w2 w3 K1 K2. split; try (intros H0; apply (keeps_native _ _ K2), (keeps_native _ _ K1), H0).
    + etrans; [apply (keeps_next _ _ K1)|apply (keeps_next _ _ K2)].
    + rewrite (keeps_mine _ _ K2). apply (keeps_mine _ _ K1).
    + etrans; [apply (keeps_trans _ _ K1)|apply (keeps_trans _ _ K2)].
    + intros o f H. rewrite (keeps_socks _ _ K2 o f) by eauto using keeps_holds.
      by apply (keeps_socks _ _ K1 o f).
Qed.
#[export] Instance keeps_preorder : PreOrder keeps.
Proof.
  split; [by split|]. intros w1 w2 w3 [K1 E1] [K2 E2]. split; [by etrans|congruence].
Qed.

(** A step that leaves descriptors and socket objects alone. *)
Lemma keeps_own_frame w w' :
  w_next w' = w_next w → w_fds w' = w_fds w → w_socks w' = w_socks w → w_trans w' = w_trans w →
  keeps_own w w'.
Proof.
  intros H1 H2 H3 H4. split; [lia| |by rewrite H4| |by rewrite H3].
  - unfold mine. by rewrite H2.
  - unfold native_ok. by rewrite H1, H2, H3, H4.
Qed.
Lemma keeps_frame w w' :
  w_next w' = w_next w → w_fds w' = w_fds w → w_errs w' = w_errs w → w_socks w' = w_socks w →
  w_trans w' = w_trans w → keeps w w'.
Proof. intros H1 H2 H3 H4 H5. split; [by apply keeps_own_frame|done]. Qed.
Lemma keeps_alloc w : keeps w (set_next S w).
Proof.
  split; [split; [simpl; lia|done|done| |done]|done]. intros H t tr Ht Ho.
  destruct (H t tr Ht Ho) as [H1 H2]. split; [done|]. intros o Hv. destruct (H2 o Hv).
  split; [cbn; lia|done].
Qed.

(** [stable keeps] is the stronger statement. *)
Lemma stable_keeps_own {A} (m : M world A) : stable keeps m → stable keeps_own m.
Proof. intros H w. eapply wp_mono; [apply H|intros; by apply keeps_owned..]. Qed.

Lemma mine_open w f : mine (set_fds (<[f := Mine]>) w) = {[f]} ∪ mine w.
Proof.
  apply set_eq; intros g. rewrite elem_of_union, elem_of_singleton, !elem_of_mine. simpl.
  rewrite lookup_insert. case_decide as Hc; [subst; split; auto|].
  split; [by right|by intros [->|]].
Qed.
Lemma mine_close w f : mine (set_fds (delete f) w) = mine w ∖ {[f]}.
Proof.
  apply set_eq; intros g. rewrite elem_of_difference, elem_of_singleton, !elem_of_mine. simpl.
  rewrite lookup_delete. case_decide as Hc; [subst; split; [done|by intros [_ []]]|].
  split; [by split|by intros [? _]].
Qed.
Lemma mine_adopt w f t : mine (set_fds (<[f := Native t]>) w) = mine w ∖ {[f]}.
Proof.
  apply set_eq; intros g. rewrite elem_of_difference, elem_of_singleton, !elem_of_mine. simpl.
  rewrite lookup_insert. case_decide as Hc; [subst; split; [done|by intros [_ []]]|].
  split; [by split|by intros [? _]].
Qed.

(** ** The environment *)

(** What happens while a coroutine waits for a descriptor: it reports ready, or the
    waiting task is cancelled. *)
Inductive wake := WReady | WCancel.

(** The kernel and the rest of the program.  Every question is asked with the current
    tick, so two identical calls may have different answers. *)
Class Kernel := {
  plat : platform;
  fails : nat → option exn;             (* the exception a system call raises, if any *)
  intf : nat → world → world;           (* what everybody else does during a suspension *)
  wakes : nat → list wake;              (* what a waiting coroutine sees, oldest first *)
  (** libuv's resolver: host, port, family, type, protocol, flags *)
  resolve : nat → option string → option aitem → Z → Z → Z → Z → list addrinfo;
  idna_encode : string → res string;    (* the [idna] codec *)
  addr_of : nat → pyaddr;               (* [getsockname], [getpeername] *)
  repr_item : option aitem → string;    (* [repr] of the values messages show *)
  repr_addr : pyaddr → string }.

(** A system call never raises the model's own marker. *)
Class KernelReal (K : Kernel) := {
  fails_real : ∀ t e, fails t = Some e → exn_cls e ≠ ModelFuel }.

(** What the environment promises: everybody else leaves this code's descriptors and
    socket objects alone, and the trace is this code's own. *)
Class KernelOk (K : Kernel) := {
  intf_keeps : ∀ t w, keeps w (intf t w);
  intf_log : ∀ t w, w_log (intf t w) = w_log w;
  kernel_real :: KernelReal K }.

Section ops.
Context `{K : Kernel}.

Definition tick : M world nat := t <- gets w_tick ;; modify (set_tick S) ;; ret t.
Definition alloc : M world oid := o <- gets w_next ;; modify (set_next S) ;; ret o.
Definition log (e : event) : M world unit := modify (log_event e).

(** A system call: the environment decides whether it raises. *)
Definition sys : M world unit :=
  t <- tick ;; match fails t with Some e => raise e | None => ret tt end.

(** A suspension point: everybody else moves. *)
Definition yield_ : M world unit := t <- tick ;; modify (intf t).

(** [await asyncio.sleep(0)] and the like: the task may be cancelled instead. *)
Definition cancelled : exn := mk CancelledError "".
Definition await_ : M world unit :=
  yield_ ;; t <- tick ;; match wakes t with WCancel :: _ => raise cancelled | _ => ret tt end.

(** ** The socket module *)
Definition get_sock (o : oid) : M world psock :=
  s <- gets (λ w, w_socks w !! o) ;;
  match s with Some s => ret s | None => raise (mk AttributeError "no such object") end.

(** [sock.fileno()], [None] standing for -1. *)
Definition fileno (o : oid) : M world (option fd) := gets (λ w, w_socks w !! o ≫= ps_fd).

(** The descriptor a system call on [o] works on; a closed socket raises [EBADF]. *)
Definition need_fd (o : oid) : M world fd :=
  f <- fileno o ;; match f with Some f => ret f | None => raise (oserror 9 "Bad file descriptor") end.

(** A new blocking socket object on a new descriptor. *)
Definition open_sock (family kind proto : Z) : M world oid :=
  o <- alloc ;;
  f <- gets (λ w, fresh (dom (w_fds w))) ;;
  modify (set_fds (<[f := Mine]>)) ;;
  modify (set_socks (<[o := PSock (Some f) family kind proto true]>)) ;;
  ret o.

(** [socket.socket(family, kind, proto)]. *)
Definition socket_new (family kind proto : Z) : M world oid :=
  log (EvSocket family kind proto) ;; sys ;; open_sock family kind proto.

(** [sock.accept()]: the new socket object is blocking. *)
Definition accept_sys (o : oid) : M world oid :=
  need_fd o ;; sys ;; s <- get_sock o ;; open_sock (ps_family s) (ps_type s) (ps_proto s).

Definition sock_listen (o : oid) (backlog : nat) : M world unit :=
  need_fd o ;; log (EvListen o backlog) ;; sys.

Definition setblocking (o : oid) (b : bool) : M world unit :=
  f <- need_fd o ;; sys ;;
  modify (set_socks (alter (λ s, PSock (ps_fd s) (ps_family s) (ps_type s) (ps_proto s) b) o)).

Definition setsockopt (o : oid) (opt : string) : M world unit :=
  f <- need_fd o ;; log (EvSockOpt o opt) ;; sys.

Definition sock_bind (o : oid) (a : pyaddr) : M world unit :=
  f <- need_fd o ;; log (EvBind o a) ;; sys.

(** [sock.close()]: closes the descriptor once; closing again does nothing. *)
Definition sock_close (o : oid) : M world unit :=
  f <- fileno o ;;
  match f with
  | Some f => modify (set_fds (delete f)) ;;
              modify (set_socks (alter (λ s, PSock None (ps_family s) (ps_type s) (ps_proto s) (ps_blocking s)) o))
  | None => ret tt
  end.

(** [sock.detach()]: the object forgets the descriptor, which stays open. *)
Definition sock_detach (o : oid) : M world unit :=
  modify (set_socks (alter (λ s, PSock None (ps_family s) (ps_type s) (ps_proto s) (ps_blocking s)) o)).

(** ** The native loop's descriptor watchers (zig/poller.zig) *)
Definition slot (write : bool) (w : world) : gmap nat oid :=
  if write then w_writers w else w_readers w.
Definition set_slot (write : bool) (f : gmap nat oid → gmap nat oid) (w : world) : world :=
  if write then set_writers f w else set_readers f w.

(** [add_reader] / [add_writer]: libuv may refuse the descriptor; otherwise the new
    registration supersedes the old one. *)
Definition add_watch (f : fd) (write : bool) (cb : oid) : M world unit :=
  sys ;; modify (set_slot write (<[f := cb]>)).
(** [remove_reader] / [remove_writer]: whether there was a registration. *)
Definition remove_watch (f : fd) (write : bool) : M world bool :=
  present <- gets (λ w, bool_decide (is_Some (slot write w !! f))) ;;
  modify (set_slot write (delete f)) ;; ret present.

(** ** Code of the application, called synchronously: it may do what everybody else does,
    and raise. *)
Definition user_call : M world unit := yield_ ;; sys.

(** ** Transports (zig/transport.zig) *)

Definition upd_trans (t : oid) (f : transport → transport) : M world unit :=
  modify (set_trans (alter f t)).
Definition get_trans (t : oid) : M world transport :=
  tr <- gets (λ w, w_trans w !! t) ;;
  match tr with Some tr => ret tr | None => raise (mk AttributeError "no such transport") end.

(** [releaseSocketView]: the socket object is detached. *)
Definition release_socket_view (t : oid) : M world unit :=
  tr <- get_trans t ;;
  match tr_view tr with
  | Some o => upd_trans t (with_view (λ _, None)) ;; sock_detach o
  | None => ret tt
  end.

(** [shutdownAndClose]: the view is released first, then [uv_close] closes the
    descriptor; [onClosed] runs from the loop later. *)
Definition shutdown_and_close (t : oid) : M world unit :=
  tr <- get_trans t ;;
  when_ (tr_open tr)
    (upd_trans t (with_open (λ _, false)) ;; release_socket_view t ;;
     modify (set_fds (delete (tr_fd tr)))).

(** [close]: what is still buffered is written first. *)
Definition transport_close (t : oid) : M world unit :=
  tr <- get_trans t ;;
  when_ (negb (tr_closing tr))
    (upd_trans t (with_closing (λ _, true)) ;;
     when_ (Nat.eqb (tr_wbuf tr) 0) (shutdown_and_close t)).

(** [abort] ([forceClose]): what is still buffered is dropped. *)
Definition transport_abort (t : oid) : M world unit :=
  upd_trans t (with_closing (λ _, true)) ;; shutdown_and_close t.

Definition adopt_socket_view (t : oid) (o : oid) : M world unit :=
  sys ;; upd_trans t (with_view (λ _, Some o)).

(** [makeTransport]: everything that can fail comes before the descriptor is adopted. *)
Definition adopt_fd (f : fd) (k : kind) (ex : extra) (server : option oid) : M world oid :=
  sys ;;
  t <- gets (λ w, fresh (dom (w_trans w))) ;;
  modify (λ w, set_fds (<[f := Native t]>)
                 (set_trans (<[t := Transport f k true false 0 None ex server]>) w)) ;;
  log (EvAdopt t server) ;; ret t.
Definition make_transport (f : fd) (k : kind) (waiter : option oid) (ex : extra)
    (server : option oid) : M world oid :=
  t <- adopt_fd f k ex server ;; log (EvReady t waiter) ;; ret t.
(** [makeDatagram]. *)
Definition make_datagram_transport (f : fd) (connected : bool) (ex : extra) : M world oid :=
  adopt_fd f (KIND_UDP connected) ex None.

(** ** Name resolution: [LoopBase._getaddrinfo], one suspension. *)
Definition native_getaddrinfo (host : option string) (port : option aitem)
    (family kind proto flags : Z) : M world (list addrinfo) :=
  await_ ;; sys ;; t <- tick ;; ret (resolve t host port family kind proto flags).
End ops.

(** ** Quiet statements: those that leave what we own as it was, whatever the outcome. *)
Abbreviation quiet := (stable keeps).

#[export] Hint Resolve keeps_alloc : stable.
#[export] Hint Extern 2 (keeps _ _) => (by apply keeps_frame) : stable.

Section ops_quiet.
Context `{KOk : KernelOk}.

Lemma tick_quiet : quiet tick.
Proof. unfold tick. solve_stable. Qed.
Lemma alloc_quiet : quiet alloc.
Proof. unfold alloc. solve_stable. Qed.
Lemma log_quiet e : quiet (log e).
Proof. unfold log. solve_stable. Qed.
#[local] Hint Resolve tick_quiet alloc_quiet log_quiet : stable.
Lemma sys_quiet : quiet sys.
Proof. unfold sys. solve_stable. Qed.
Lemma yield_quiet : quiet yield_.
Proof. unfold yield_. solve_stable. apply intf_keeps. Qed.
#[local] Hint Resolve sys_quiet yield_quiet : stable.
Lemma await_quiet : quiet await_.
Proof. unfold await_. solve_stable. Qed.
Lemma get_sock_quiet o : quiet (get_sock o).
Proof. unfold get_sock. solve_stable. Qed.
#[local] Hint Resolve await_quiet get_sock_quiet : stable.
Lemma fileno_quiet o : quiet (fileno o).
Proof. unfold fileno. solve_stable. Qed.
#[local] Hint Resolve fileno_quiet : stable.
Lemma need_fd_quiet o : quiet (need_fd o).
Proof. unfold need_fd. solve_stable. Qed.
#[local] Hint Resolve need_fd_quiet : stable.
Lemma setsockopt_quiet o s : quiet (setsockopt o s).
Proof. unfold setsockopt. solve_stable. Qed.
Lemma sock_bind_quiet o a : quiet (sock_bind o a).
Proof. unfold sock_bind. solve_stable. Qed.
Lemma set_slot_keeps wr f w : keeps w (set_slot wr f w).
Proof. destruct wr; by apply keeps_frame. Qed.
Lemma add_watch_quiet f wr cb : quiet (add_watch f wr cb).
Proof. unfold add_watch. solve_stable. apply set_slot_keeps. Qed.
Lemma remove_watch_quiet f wr : quiet (remove_watch f wr).
Proof. unfold remove_watch. solve_stable. apply set_slot_keeps. Qed.
Lemma sock_listen_quiet o b : quiet (sock_listen o b).
Proof. unfold sock_listen. solve_stable. Qed.
Lemma user_call_quiet : quiet user_call.
Proof. unfold user_call. solve_stable. Qed.
Lemma native_getaddrinfo_quiet h p a b c d : quiet (native_getaddrinfo h p a b c d).
Proof. unfold native_getaddrinfo. solve_stable. Qed.
End ops_quiet.

#[export] Hint Resolve tick_quiet alloc_quiet log_quiet sys_quiet yield_quiet await_quiet
  get_sock_quiet fileno_quiet need_fd_quiet setsockopt_quiet sock_bind_quiet add_watch_quiet
  remove_watch_quiet native_getaddrinfo_quiet sock_listen_quiet user_call_quiet : stable.

(** ** What has been opened since a given state

    [owns w0 l w]: between [w0] and [w] the code opened exactly the sockets [l] and still
    owes closing them; everything it owned in [w0] is as it was. *)
Record owns (w0 : world) (l : list (oid * fd)) (w : world) : Prop := {
  own_next : (w_next w0 ≤ w_next w)%nat;
  own_mine : mine w = list_to_set (snd <$> l) ∪ mine w0;
  own_trans : trans_grow (w_trans w0) (w_trans w);
  own_native : native_ok w0 → native_ok w;
  own_fresh : ∀ f, f ∈ snd <$> l → f ∉ mine w0;
  own_nodup : NoDup (snd <$> l);
  own_holds : ∀ o f, (o, f) ∈ l → holds w o f;
  own_old : ∀ o f, holds w0 o f → w_socks w !! o = w_socks w0 !! o }.

Lemma owns_refl w : owns w [] w.
Proof. split; [done|set_solver|done|done|set_solver|constructor|set_solver|done]. Qed.

Lemma owns_old_holds w0 l w o f : owns w0 l w → holds w0 o f → holds w o f.
Proof.
  intros H Ho. pose proof (own_old _ _ _ H _ _ Ho) as Hs. pose proof (holds_mine _ _ _ Ho) as Hm.
  destruct Ho as (s & H1 & H2 & H3 & H4). exists s. rewrite Hs. repeat split; try done.
  - apply elem_of_mine. rewrite (own_mine _ _ _ H). set_solver.
  - pose proof (own_next _ _ _ H). lia.
Qed.

Lemma owns_keeps w0 l w w' : owns w0 l w → keeps_own w w' → owns w0 l w'.
Proof.
  intros H K. split.
  - pose proof (own_next _ _ _ H). pose proof (keeps_next _ _ K). lia.
  - rewrite (keeps_mine _ _ K). apply (own_mine _ _ _ H).
  - etrans; [apply (own_trans _ _ _ H)|apply (keeps_trans _ _ K)].
  - intros H0. by apply (keeps_native _ _ K), (own_native _ _ _ H).
  - apply (own_fresh _ _ _ H).
  - apply (own_nodup _ _ _ H).
  - intros o f Ho. eapply keeps_holds; [done|]. by apply (own_holds _ _ _ H).
  - intros o f Ho. rewrite (keeps_socks _ _ K o f); [by apply (own_old _ _ _ H o f)|].
    by eapply owns_old_holds.
Qed.

(** A statement that is quiet may stand anywhere in an [owns] argument. *)
Lemma wp_owns_quiet {A} (m : M world A) w0 l (Q : A → world → Prop) E w :
  quiet m → owns w0 l w →
  (∀ a w', keeps w w' → owns w0 l w' → Q a w') →
  (∀ e w', keeps w w' → owns w0 l w' → E e w') → wp m Q E w.
Proof.
  intros Hq Ho HQ HE.
  apply (wp_stable keeps); [done|intros; eauto using owns_keeps, keeps_owned..].
Qed.

Lemma holds_fd w o f g : holds w o f → holds w o g → f = g.
Proof. intros (s & H1 & H2 & _) (s' & H1' & H2' & _). congruence. Qed.

(** Opening: a fresh object on a fresh descriptor. *)
Definition open_world (o : oid) (f : fd) (s : psock) (w : world) : world :=
  set_socks (<[o := s]>) (set_fds (<[f := Mine]>) (set_next S w)).

Lemma owns_open w0 l w f fam ty pr b :
  owns w0 l w → w_fds w !! f = None →
  owns w0 ((w_next w, f) :: l) (open_world (w_next w) f (PSock (Some f) fam ty pr b) w).
Proof.
  intros H Hf. set (s := PSock _ _ _ _ _). set (w' := open_world _ _ _ _).
  assert (Hm : mine w' = {[f]} ∪ mine w) by (apply (mine_open (set_next S w))).
  assert (Hn : f ∉ mine w) by (rewrite elem_of_mine; congruence).
  assert (Hold : ∀ o g, holds w o g → holds w' o g ∧ w_socks w' !! o = w_socks w !! o).
  { intros o g (s' & H1 & H2 & H3 & H4). subst w'. cbn.
    assert (Hs : (<[w_next w:=s]> (w_socks w)) !! o = w_socks w !! o)
      by (apply lookup_insert_ne; lia).
    split; [|done]. exists s'. cbn. rewrite Hs. repeat split; [done..| |lia].
    apply lookup_insert_Some. right. split; [congruence|done]. }
  split.
  - pose proof (own_next _ _ _ H). subst w'. cbn. lia.
  - rewrite Hm, (own_mine _ _ _ H). cbn. set_solver.
  - apply (own_trans _ _ _ H).
  - intros H0 t tr Ht Ho. destruct (own_native _ _ _ H H0 t tr Ht Ho) as [H1 H2].
    split; [cbn; rewrite lookup_insert_ne; [done|congruence]|]. intros o Hv.
    destruct (H2 o Hv). split; [cbn; lia|]. cbn. rewrite lookup_insert_ne by lia. done.
  - cbn. intros g [->|Hg]%elem_of_cons; [|by apply (own_fresh _ _ _ H)].
    rewrite (own_mine _ _ _ H) in Hn. set_solver.
  - cbn. constructor; [|apply (own_nodup _ _ _ H)]. intros Hin.
    rewrite (own_mine _ _ _ H) in Hn. set_solver.
  - intros o g [[= -> ->]|Hin]%elem_of_cons; [|by apply Hold, (own_holds _ _ _ H)].
    exists s. subst w'. cbn. rewrite !lookup_insert_eq. repeat split; [done..|lia].
  - intros o g Ho. pose proof (owns_old_holds _ _ _ _ _ H Ho) as Hw.
    destruct (Hold o g Hw) as [_ ->]. by apply (own_old _ _ _ H o g).
Qed.

(** Giving a descriptor up: it is closed, or it is adopted by a transport; either way the
    socket object is disarmed. *)
Definition disarm (o : oid) (w : world) : world :=
  set_socks (alter (λ s, PSock None (ps_family s) (ps_type s) (ps_proto s) (ps_blocking s)) o) w.

Lemma owns_release w0 l1 o f l2 w w' :
  owns w0 (l1 ++ (o, f) :: l2) w →
  (w_next w ≤ w_next w')%nat → mine w' = mine w ∖ {[f]} → trans_grow (w_trans w) (w_trans w') →
  (native_ok w → native_ok w') →
  (∀ o' g, o' ≠ o → holds w o' g → w_socks w' !! o' = w_socks w !! o') →
  owns w0 (l1 ++ l2) w'.
Proof.
  intros H Hnx Hm Ht Hnat Hs.
  pose proof (own_nodup _ _ _ H) as Hnd. rewrite fmap_app, fmap_cons in Hnd. cbn in Hnd.
  apply NoDup_app in Hnd as (Hnd1 & Hdisj & Hnd2). apply NoDup_cons in Hnd2 as [Hf2 Hnd2].
  assert (Hf1 : f ∉ snd <$> l1) by (intros Hin; apply (Hdisj f Hin); left).
  assert (Hf0 : f ∉ mine w0)
    by (apply (own_fresh _ _ _ H); rewrite fmap_app; cbn; set_solver).
  assert (Hoo : holds w o f) by (apply (own_holds _ _ _ H); set_solver).
  assert (Hold : ∀ o' g, holds w o' g → g ≠ f → holds w' o' g ∧ w_socks w' !! o' = w_socks w !! o').
  { intros o' g Hg Hne. assert (o' ≠ o) by (intros ->; apply Hne; by eapply holds_fd).
    pose proof (Hs o' g ltac:(done) Hg) as Hs'. split; [|done].
    destruct Hg as (s & H1 & H2 & H3 & H4). exists s. rewrite Hs'. repeat split; [done..| |lia].
    apply elem_of_mine. rewrite Hm. apply elem_of_difference. split; [by apply elem_of_mine|set_solver]. }
  split.
  - pose proof (own_next _ _ _ H). lia.
  - rewrite Hm, (own_mine _ _ _ H), !fmap_app. cbn. rewrite !list_to_set_app_L. cbn.
    apply set_eq. intros x. rewrite elem_of_difference, !elem_of_union, !elem_of_list_to_set, elem_of_singleton.
    destruct (decide (x = f)) as [->|]; [set_solver|set_solver].
  - etrans; [apply (own_trans _ _ _ H)|done].
  - intros H0. by apply Hnat, (own_native _ _ _ H).
  - intros g Hg. apply (own_fresh _ _ _ H). rewrite fmap_app in *. cbn. set_solver.
  - rewrite fmap_app. apply NoDup_app. repeat split; [done| |done]. intros x Hx Hx2.
    apply (Hdisj x Hx). by right.
  - intros o' g Hin. apply Hold.
    + apply (own_holds _ _ _ H). set_solver.
    + intros ->. apply elem_of_app in Hin as [Hin|Hin].
      * apply Hf1. apply list_elem_of_fmap. by exists (o', f).
      * apply Hf2. apply list_elem_of_fmap. by exists (o', f).
  - intros o' g Ho'. pose proof (owns_old_holds _ _ _ _ _ H Ho') as Hw.
    destruct (decide (g = f)) as [->|Hne]; [by apply holds_mine in Ho'|].
    destruct (Hold o' g Hw Hne) as [_ ->]. by apply (own_old _ _ _ H o' g).
Qed.

Lemma mine_disarm o w : mine (disarm o w) = mine w.
Proof. done. Qed.

Lemma owns_close w0 l1 o f l2 w :
  owns w0 (l1 ++ (o, f) :: l2) w →
  owns w0 (l1 ++ l2) (disarm o (set_fds (delete f) w)).
Proof.
  intros H. assert (Hh : holds w o f) by (apply (own_holds _ _ _ H); set_solver).
  eapply owns_release; [done|done| |done| |].
  - rewrite mine_disarm. apply mine_close.
  - destruct Hh as (s & Hs & Hf & Hfd & _). intros H0 t tr Ht Ho.
    destruct (H0 t tr Ht Ho) as [H1 H2]. split; [cbn; rewrite lookup_delete_ne; congruence|].
    intros o' Hv. destruct (H2 o' Hv) as [H3 H4]. split; [done|]. cbn.
    destruct (decide (o = o')) as [<-|Hne]; [by rewrite lookup_alter_eq, Hs|by rewrite lookup_alter_ne].
  - intros o' g Hne _. cbn. by apply lookup_alter_ne.
Qed.

(** A new transport adopts the descriptor; the socket object stays armed as its view. *)
Definition adopt_world (t : oid) (tr : transport) (w : world) : world :=
  set_fds (<[tr_fd tr := Native t]>) (set_trans (<[t := tr]>) w).
Lemma owns_adopt w0 l1 o f l2 w t tr :
  owns w0 (l1 ++ (o, f) :: l2) w → tr_fd tr = f → w_trans w !! t = None → tr_view tr = None →
  owns w0 (l1 ++ l2) (adopt_world t tr w).
Proof.
  intros H <- Ht Hv0. assert (Hh : holds w o (tr_fd tr)) by (apply (own_holds _ _ _ H); set_solver).
  eapply owns_release; [done|done|apply (mine_adopt (set_trans _ w))| | |done].
  - intros t' tr' Ht'. exists tr'. cbn. by rewrite lookup_insert_ne by congruence.
  - destruct Hh as (s & Hs & Hf & Hfd & _). intros H0 t' tr' Ht' Ho. cbn in Ht'.
    apply lookup_insert_Some in Ht' as [[<- <-]|[Hne Ht']].
    + split; [cbn; apply lookup_insert_eq|]. intros o' Hv. congruence.
    + destruct (H0 t' tr' Ht' Ho) as [H1 H2]. split; [cbn; rewrite lookup_insert_ne; congruence|done].
Qed.

(** A socket the caller handed over is owed as if it had been opened here. *)
Lemma owns_given w o f : holds w o f → owns (set_fds (delete f) w) [(o, f)] w.
Proof.
  intros H. pose proof (holds_mine _ _ _ H) as Hf.
  split; [done| |done| | |apply NoDup_singleton| |done].
  - cbn. rewrite mine_close. apply set_eq. intros x.
    destruct (decide (x = f)) as [->|]; set_solver.
  - intros H0 t tr Ht Ho. destruct (H0 t tr Ht Ho) as [H1 H2]. split; [|done].
    cbn in H1. rewrite lookup_delete in H1. by case_decide.
  - cbn. rewrite mine_close. set_solver.
  - intros o' f' [[= -> ->]|Hin]%elem_of_cons; [done|by apply elem_of_nil in Hin].
Qed.

(** ** Specifications of the socket operations that change ownership *)
Section socket_specs.
Context `{KOk : KernelOk}.

Lemma wp_open_sock w0 l fam ty pr (Q : oid → world → Prop) E w :
  owns w0 l w →
  (∀ o f w', owns w0 ((o, f) :: l) w' →
     w_socks w' !! o = Some (PSock (Some f) fam ty pr true) →
     w_errs w' = w_errs w → w_log w' = w_log w → Q o w') →
  wp (open_sock fam ty pr) Q E w.
Proof.
  intros Ho HQ. unfold open_sock, alloc. wp_go. eapply (HQ _ (fresh (dom (w_fds w)))); [| |done..].
  - eapply owns_open; [done|]. apply not_elem_of_dom, is_fresh.
  - cbn. by rewrite lookup_insert_eq.
Qed.

Lemma wp_socket_new w0 l fam ty pr (Q : oid → world → Prop) E w :
  owns w0 l w →
  (∀ o f w', owns w0 ((o, f) :: l) w' →
     w_socks w' !! o = Some (PSock (Some f) fam ty pr true) →
     w_errs w' = w_errs w → Q o w') →
  (∀ e w', keeps w w' → owns w0 l w' → E e w') →
  wp (socket_new fam ty pr) Q E w.
Proof.
  intros Ho HQ HE. unfold socket_new. apply wp_bind.
  eapply wp_owns_quiet; [apply log_quiet|done| |by eauto]. intros _ w1 K1 Ho1. apply wp_bind.
  eapply wp_owns_quiet; [apply sys_quiet|done| |].
  2:{ intros e w2 K2 Ho2. apply HE; [by etrans|done]. }
  intros _ w2 K2 Ho2. eapply wp_open_sock; [done|]. intros o f w3 Ho3 Hs He _.
  eapply HQ; [done..|]. rewrite He, (keeps_errs _ _ K2). apply (keeps_errs _ _ K1).
Qed.

Lemma wp_get_sock o s (Q : psock → world → Prop) E w :
  w_socks w !! o = Some s → Q s w → wp (get_sock o) Q E w.
Proof. intros H HQ. unfold get_sock. wp_go; congruence. Qed.

Lemma wp_fileno o f (Q : option fd → world → Prop) E w :
  holds w o f → Q (Some f) w → wp (fileno o) Q E w.
Proof.
  intros (s & H1 & H2 & _) HQ. unfold fileno. apply wp_gets. by rewrite H1; cbn; rewrite H2.
Qed.

Lemma wp_need_fd o f (Q : fd → world → Prop) E w :
  holds w o f → Q f w → wp (need_fd o) Q E w.
Proof.
  intros H HQ. unfold need_fd. apply wp_bind. eapply wp_fileno; [done|]. by apply wp_ret.
Qed.

(** Closing one of the sockets we owe. *)
Lemma wp_sock_close w0 l1 o f l2 (Q : unit → world → Prop) E w :
  owns w0 (l1 ++ (o, f) :: l2) w →
  (∀ w', owns w0 (l1 ++ l2) w' → w_errs w' = w_errs w ∧ w_log w' = w_log w → Q tt w') →
  wp (sock_close o) Q E w.
Proof.
  intros Ho HQ. assert (Hh : holds w o f) by (apply (own_holds _ _ _ Ho); set_solver).
  unfold sock_close. apply wp_bind. eapply wp_fileno; [done|]. wp_go. apply HQ; [|done].
  by apply owns_close.
Qed.

(** Closing never raises. *)
Lemma wp_sock_close_total o (R : relation world) (Q : unit → world → Prop) E w :
  stable R (sock_close o) → (∀ w', R w w' → Q tt w') → wp (sock_close o) Q E w.
Proof.
  intros H HQ. specialize (H w). revert H. unfold sock_close, fileno, wp, bind, gets, modify, ret.
  destruct (w_socks w !! o ≫= ps_fd); cbn; intros H. all: by apply HQ.
Qed.

Lemma alter_blocking_owns w0 l w o b :
  owns w0 l w → o ∈ l.*1 →
  owns w0 l (set_socks (alter (λ s, PSock (ps_fd s) (ps_family s) (ps_type s) (ps_proto s) b) o) w).
Proof.
  intros H Hin. split; try apply H.
  - intros H0 t tr Ht Ho. destruct (own_native _ _ _ H H0 t tr Ht Ho) as [H1 H2]. split; [done|].
    intros o' Hv. destruct (H2 o' Hv) as [H3 H4]. split; [done|]. cbn.
    destruct (decide (o = o')) as [<-|Hne]; [rewrite lookup_alter_eq|by rewrite lookup_alter_ne].
    revert H4. by destruct (w_socks w !! o).
  - intros o' g Hin'. destruct (own_holds _ _ _ H _ _ Hin') as (s & H1 & H2 & H3 & H4).
    destruct (decide (o = o')) as [<-|Hne].
    + eexists. cbn. rewrite lookup_alter_eq, H1. repeat split; [done..|lia].
    + exists s. cbn. rewrite lookup_alter_ne by done. repeat split; [done..|lia].
  - intros o' g Ho'. cbn. rewrite lookup_alter_ne; [by apply (own_old _ _ _ H o' g)|].
    intros <-. apply list_elem_of_fmap in Hin as [[o1 f1] [E1 Hin]]. cbn in E1. subst o1.
    pose proof (own_holds _ _ _ H _ _ Hin) as Hn.
    pose proof (owns_old_holds _ _ _ _ _ H Ho') as Ho.
    assert (g = f1) by (by eapply holds_fd). subst.
    apply (own_fresh _ _ _ H f1); [by apply list_elem_of_fmap; exists (o, f1)|].
    by eapply holds_mine.
Qed.

(** Switching one of our sockets to non-blocking mode, or failing to. *)
Lemma wp_setblocking w0 l o f b s (Q : unit → world → Prop) E w :
  owns w0 l w → (o, f) ∈ l → w_socks w !! o = Some s →
  (∀ w', owns w0 l w' →
     w_socks w' !! o = Some (PSock (ps_fd s) (ps_family s) (ps_type s) (ps_proto s) b) →
     w_errs w' = w_errs w → Q tt w') →
  (∀ e w', keeps w w' → owns w0 l w' → E e w') →
  wp (setblocking o b) Q E w.
Proof.
  intros Ho Hin Hs HQ HE. pose proof (own_holds _ _ _ Ho _ _ Hin) as Hh.
  unfold setblocking. apply wp_bind. eapply wp_need_fd; [done|]. apply wp_bind.
  eapply wp_owns_quiet; [apply sys_quiet|done| |done]. intros _ w1 K1 Ho1. apply wp_modify.
  apply HQ.
  - apply alter_blocking_owns; [done|]. apply list_elem_of_fmap. by exists (o, f).
  - cbn. by rewrite lookup_alter_eq, (keeps_socks _ _ (keeps_owned _ _ K1) o f Hh), Hs.
  - cbn. apply (keeps_errs _ _ K1).
Qed.
End socket_specs.

(** ** Specifications of closing a transport *)
Section transport_specs.
Context `{K : Kernel}.

(** Flags alone: descriptors and socket objects are not involved. *)
Lemma alter_flags_keeps (f : transport → transport) t w :
  (∀ tr, tr_fd (f tr) = tr_fd tr ∧ (tr_closing tr = true → tr_closing (f tr) = true) ∧
         (tr_open (f tr) = true → tr_open tr = true ∧ tr_view (f tr) = tr_view tr)) →
  keeps w (set_trans (alter f t) w).
Proof.
  intros H. split; [split; [done|done| | |done]|done].
  - intros t' tr Ht. cbn. destruct (decide (t = t')) as [<-|Hne].
    + exists (f tr). rewrite lookup_alter_eq, Ht. destruct (H tr) as (? & ? & _). done.
    + exists tr. by rewrite lookup_alter_ne.
  - intros H0 t' tr Ht Ho. cbn in Ht. destruct (decide (t = t')) as [<-|Hne].
    + rewrite lookup_alter_eq in Ht. destruct (w_trans w !! t) as [tr0|] eqn:Ht0; [|done].
      cbn in Ht. injection Ht as <-. destruct (H tr0) as (E1 & _ & E2).
      destruct (E2 Ho) as [Ho0 Ev]. rewrite E1, Ev. by apply H0.
    + rewrite lookup_alter_ne in Ht by done. by apply H0.
Qed.

(** What [uv_close] leaves behind: the view disarmed, the descriptor closed. *)
Definition shut_world (t : oid) (tr : transport) (w : world) : world :=
  set_fds (delete (tr_fd tr))
    ((match tr_view tr with Some o => disarm o | None => id end)
       (set_trans (<[t := with_view (λ _, None) (with_open (λ _, false) tr)]>) w)).

Lemma shut_keeps t tr w :
  native_ok w → w_trans w !! t = Some tr → tr_open tr = true → keeps_own w (shut_world t tr w).
Proof.
  intros H0 Ht Ho. destruct (H0 t tr Ht Ho) as [Hf Hv].
  assert (Hsk : ∀ o, tr_view tr ≠ Some o → w_socks (shut_world t tr w) !! o = w_socks w !! o).
  { intros o Hno. unfold shut_world. destruct (tr_view tr) as [v|] eqn:Ev; [|done]. cbn.
    apply lookup_alter_ne. congruence. }
  assert (Hn : w_next (shut_world t tr w) = w_next w) by (unfold shut_world; by destruct (tr_view tr)).
  assert (Htr : w_trans (shut_world t tr w) =
    <[t := with_view (λ _, None) (with_open (λ _, false) tr)]> (w_trans w))
    by (unfold shut_world; by destruct (tr_view tr)).
  assert (Hfd : w_fds (shut_world t tr w) = delete (tr_fd tr) (w_fds w))
    by (unfold shut_world; by destruct (tr_view tr)).
  split.
  - lia.
  - unfold mine. rewrite Hfd. apply set_eq. intros g. rewrite !elem_of_dom.
    unfold is_Some. setoid_rewrite map_lookup_filter_Some. setoid_rewrite lookup_delete_Some.
    split; [naive_solver|]. intros (x & Hx & Hx'). exists x. cbn in *. subst x.
    split; [split; [congruence|done]|done].
  - intros t' tr' Ht'. rewrite Htr. destruct (decide (t = t')) as [<-|Hne].
    + rewrite lookup_insert_eq. eexists. split; [done|]. by assert (tr' = tr) as -> by congruence.
    + rewrite lookup_insert_ne by done. by exists tr'.
  - intros _ t' tr' Ht' Ho'. rewrite Htr in Ht'. apply lookup_insert_Some in Ht' as [[<- <-]|[Hne Ht']]; [done|].
    destruct (H0 t' tr' Ht' Ho') as [Hf' Hv'].
    assert (tr_fd tr ≠ tr_fd tr') by congruence. split; [rewrite Hfd; by rewrite lookup_delete_ne|].
    intros o Hov. destruct (Hv' o Hov) as [? Hs]. split; [lia|].
    destruct (decide (tr_view tr = Some o)) as [Ev|Ev]; [|by rewrite Hsk].
    unfold shut_world. rewrite Ev. cbn. rewrite lookup_alter_eq. by destruct (w_socks w !! o).
  - intros o g (s & Hs & Hg & Hm & _). apply Hsk. intros Ev. destruct (Hv o Ev) as [_ Hg'].
    rewrite Hs in Hg'. specialize (Hg' g Hg). congruence.
Qed.

Lemma wp_shutdown t tr (Q : unit → world → Prop) E w :
  native_ok w → w_trans w !! t = Some tr →
  (∀ w' tr', keeps_own w w' → w_trans w' !! t = Some tr' → tr_open tr' = false →
     tr_closing tr' = tr_closing tr → w_futs w' = w_futs w → w_servers w' = w_servers w →
     w_log w' = w_log w ∧ w_readers w' = w_readers w →
     (∀ o, w_socks w !! o ≫= ps_fd = None → w_socks w' !! o ≫= ps_fd = None) →
     (tr_open tr = true → ∀ o, tr_view tr = Some o → w_socks w' !! o ≫= ps_fd = None) → Q tt w') →
  wp (shutdown_and_close t) Q E w.
Proof.
  intros H0 Ht HQ. unfold shutdown_and_close, get_trans, upd_trans, release_socket_view, get_trans,
    upd_trans, sock_detach. wp_step. wp_step. wp_step. rewrite Ht. wp_step. wp_step.
  - assert (Hk := shut_keeps t tr w H0 Ht ltac:(done)).
    do 6 wp_step. cbn [w_trans set_trans]. rewrite lookup_alter_eq, Ht. cbn [fmap option_fmap option_map].
    wp_step. cbn [tr_view with_open]. unfold shut_world in Hk. destruct (tr_view tr) as [o|] eqn:Ev.
    + wp_go.
      replace (set_trans _ _) with (set_trans (<[t := with_view (λ _, None) (with_open (λ _, false) tr)]>) w).
      2:{ unfold set_trans. cbn. f_equal. apply map_eq. intros t'.
          destruct (decide (t = t')) as [<-|Hne].
          - by rewrite lookup_insert_eq, !lookup_alter_eq, Ht.
          - by rewrite lookup_insert_ne, !lookup_alter_ne. }
      eapply HQ; [exact Hk|cbn; apply lookup_insert_eq|done..| |].
      { intros o' Hn. cbn. destruct (decide (o = o')) as [<-|Hne]; [|by rewrite lookup_alter_ne].
        rewrite lookup_alter_eq. by destruct (w_socks w !! o). }
      intros _ o' [= <-]. cbn. rewrite lookup_alter_eq. by destruct (w_socks w !! o).
    + wp_go.
      replace (set_trans _ _) with (set_trans (<[t := with_view (λ _, None) (with_open (λ _, false) tr)]>) w).
      2:{ unfold set_trans. cbn. f_equal. apply map_eq. intros t'.
          destruct (decide (t = t')) as [<-|Hne].
          - rewrite lookup_insert_eq, lookup_alter_eq, Ht. unfold with_open, with_view. cbn. by rewrite Ev.
          - by rewrite lookup_insert_ne, lookup_alter_ne. }
      eapply HQ; [exact Hk|cbn; apply lookup_insert_eq|done..].
  - eapply (HQ _ tr); [done|done|done|done|done|done|done|done|]. congruence.
Qed.
End transport_specs.

(** Disarming a socket object that is not ours to close. *)
Lemma disarm_keeps w o : (∀ f, ¬ holds w o f) → keeps_own w (disarm o w).
Proof.
  intros Hno. split; [done|done|done| |].
  - intros H0 t tr Ht Ho. destruct (H0 t tr Ht Ho) as [H1 H2]. split; [done|].
    intros o' Hv. destruct (H2 o' Hv) as [H3 H4]. split; [done|]. cbn.
    destruct (decide (o = o')) as [<-|Hne]; [|by rewrite lookup_alter_ne].
    rewrite lookup_alter_eq. by destruct (w_socks w !! o).
  - intros o' g Hh. cbn. apply lookup_alter_ne. intros <-. by apply (Hno g).
Qed.

(** ** Interfaces between components *)

(** What the connection code promises the socket code: name resolution that touches
    nothing the caller owns. *)
Class Resolver := {
  getaddrinfo : option string → option aitem → Z → Z → Z → Z → M world (list addrinfo);
  getaddrinfo_quiet : ∀ h p f k pr fl, quiet (getaddrinfo h p f k pr fl) }.

(** What the socket code promises the connection code: connecting a socket, over as many
    suspensions as it takes, leaves ownership alone. *)
Class Connector := {
  sock_connect : oid → pyaddr → M world unit;
  sock_connect_quiet : ∀ o a, quiet (sock_connect o a) }.
#[export] Hint Resolve @getaddrinfo_quiet @sock_connect_quiet : stable.

(** Owing nothing new is the same as having kept everything. *)
Lemma owns_nil w w' : owns w [] w' ↔ keeps_own w w'.
Proof.
  split; intros H.
  - split; [apply H| |apply H|apply H|apply H]. rewrite (own_mine _ _ _ H). cbn. set_solver.
  - by apply (owns_keeps _ _ w); [apply owns_refl|].
Qed.

(** What was opened in two consecutive stretches is owed together. *)
Lemma owns_trans w0 l w l' w' : owns w0 l w → owns w l' w' → owns w0 (l' ++ l) w'.
Proof.
  intros H H'.
  assert (Hsub : ∀ f, f ∈ mine w0 → f ∈ mine w) by (intros f; rewrite (own_mine _ _ _ H); set_solver).
  assert (Hl : ∀ f, f ∈ l.*2 → f ∈ mine w) by (intros f; rewrite (own_mine _ _ _ H); set_solver).
  split.
  - pose proof (own_next _ _ _ H). pose proof (own_next _ _ _ H'). lia.
  - rewrite (own_mine _ _ _ H'), (own_mine _ _ _ H), fmap_app, list_to_set_app_L. set_solver.
  - etrans; [apply (own_trans _ _ _ H)|apply (own_trans _ _ _ H')].
  - intros H0. by apply (own_native _ _ _ H'), (own_native _ _ _ H).
  - intros f. rewrite fmap_app. intros [Hf|Hf]%elem_of_app; [|by apply (own_fresh _ _ _ H)].
    intros Hf'. by apply (own_fresh _ _ _ H' f Hf), Hsub.
  - rewrite fmap_app. apply NoDup_app. repeat split; [apply H'| |apply H].
    intros f Hf Hf'. by apply (own_fresh _ _ _ H' f Hf), Hl.
  - intros o f [Hin|Hin]%elem_of_app; [by apply (own_holds _ _ _ H')|].
    eapply owns_old_holds; [done|]. by apply (own_holds _ _ _ H).
  - intros o f Ho. rewrite (own_old _ _ _ H' o f) by by eapply owns_old_holds.
    by apply (own_old _ _ _ H o f).
Qed.

(** ** Concrete environments

    A kernel given by its failures, what the others do, what waiting tasks see and what the
    resolver knows; for running the definitions on concrete inputs. *)
Definition scenario (errors : nat → option exn) (others : world → world) (ws : list wake)
    (infos : list addrinfo) : Kernel := {|
  plat := Linux;
  fails := errors;
  intf := λ _, others;
  wakes := λ _, ws;
  resolve := λ _ _ _ _ _ _ _, infos;
  idna_encode := λ h, Ok h;
  addr_of := λ _, ATuple [IText "127.0.0.1"; IInt 80];
  repr_item := λ _, "x"%string;
  repr_addr := λ _, "x"%string |}.

(** Nothing fails and nobody interferes. *)
Definition steady (ws : list wake) (infos : list addrinfo) : Kernel :=
  scenario (λ _, None) (λ w, w) ws infos.
#[export] Instance steady_ok ws infos : KernelOk (steady ws infos).
Proof. split; [done|done|by split]. Qed.

(** One listening or connected socket of ours: object 0 on descriptor 3. *)
Definition one_socket (fam : Z) (blocking : bool) : world :=
  set_next (λ _, 10%nat)
    (set_fds (<[3%nat := Mine]>) (set_socks (<[0%nat := PSock (Some 3%nat) fam SOCK_STREAM 0 blocking]>) world0)).
Lemma one_socket_holds fam b : holds (one_socket fam b) 0 3.
Proof. eexists. repeat split. cbn. lia. Qed.
Lemma one_socket_native fam b : native_ok (one_socket fam b).
Proof. intros t tr Ht. cbn in Ht. by rewrite lookup_empty in Ht. Qed.
