(* ===== verification/Checks.v ===== *)
(** * Argument validation

    The [_check_*] helpers of zuvloop/_connect.py, zuvloop/_sendfile.py and
    zuvloop/_loop.py: pure functions from the arguments to a result or the exception they
    raise.  Where a message embeds the [repr] of an object, only the text around it is kept. *)
From S2P Require Import Prelude World.

(** ** TLS arguments (zuvloop/_connect.py) *)

Definition ssl_truthy (s : sslarg) : bool :=
  match s with SSLNone => false | SSLBool b => b | SSLCtx _ => true end.
Definition is_context (s : sslarg) : bool := match s with SSLCtx _ => true | _ => false end.

Definition _check_ssl_timeouts {T} (ssl : sslarg) (handshake shutdown : option T) : res unit :=
  if bool_decide (handshake ≠ None) && negb (ssl_truthy ssl) then
    Raise (mk ValueError "ssl_handshake_timeout is only meaningful with ssl")
  else if bool_decide (shutdown ≠ None) && negb (ssl_truthy ssl) then
    Raise (mk ValueError "ssl_shutdown_timeout is only meaningful with ssl")
  else Ok tt.

(** Python's [not host] for a [str | None]. *)
Definition str_falsy (s : option string) : bool :=
  match s with None => true | Some s => bool_decide (s = ""%string) end.

Definition _check_ssl_args (ssl : sslarg) (server_hostname host : option string)
    : res (option string) :=
  if bool_decide (server_hostname ≠ None) && negb (ssl_truthy ssl) then
    Raise (mk ValueError "server_hostname is only meaningful with ssl")
  else if ssl_truthy ssl && bool_decide (server_hostname = None) then
    if str_falsy host then
      Raise (mk ValueError "You must set server_hostname when using ssl without a host")
    else Ok host
  else Ok server_hostname.

(** [default] is what [ssl.create_default_context()] makes. *)
Definition _resolve_context (default : nat) (ssl : sslarg) (server_side : bool) : nat :=
  match ssl with SSLCtx c => c | _ => default end.

Definition _check_server_ssl (ssl : sslarg) : res unit :=
  if ssl_truthy ssl && negb (is_context ssl) then
    Raise (mk ValueError "Server side ssl needs an SSLContext, not a bool")
  else Ok tt.

(** ** Sockets (zuvloop/_connect.py) *)
Definition socket_expected (n : Z) : exn :=
  mk ValueError ("A " ++ string_of_Z n ++ " socket was expected, got ")%string.

Definition _check_socket (sock : psock) (kind : Z) (family : option Z) : res unit :=
  if negb (ps_type sock =? kind) then Raise (socket_expected kind)
  else match family with
       | Some f => if negb (ps_family sock =? f) then Raise (socket_expected f) else Ok tt
       | None => Ok tt
       end.

Definition _check_non_blocking (sock : psock) : res unit :=
  if ps_blocking sock then Raise (mk ValueError "the socket must be non-blocking") else Ok tt.

Section reuse_port.
Context `{K : Kernel}.
(** [_set_reuse_port]: Windows' socket module has no [SO_REUSEPORT]. *)
Definition _set_reuse_port (o : oid) : M world unit :=
  if is_win32 plat then raise (mk ValueError "reuse_port not supported by socket module")
  else setsockopt o "SO_REUSEPORT".
End reuse_port.

(** [_safe_addr]: a getter's address, or [None] when it raises [OSError]. *)
Definition _safe_addr {W A} (getter : M W A) : M W (option A) :=
  catch_cls (a <- getter ;; ret (Some a)) OSError (λ _, ret None).

(** ** Subprocess text arguments (zuvloop/_connect.py) *)
Definition _check_subprocess_text (universal_newlines shell : bool) (bufsize : Z)
    (encoding errors : option string) (text : option bool) (expect_shell : bool) : res unit :=
  if universal_newlines then Raise (mk ValueError "universal_newlines must be False")
  else if negb (Bool.eqb shell expect_shell) then
    Raise (mk ValueError ("shell must be " ++ (if expect_shell then "True" else "False")))
  else if negb (bufsize =? 0) then Raise (mk ValueError "bufsize must be 0")
  else if default false text then Raise (mk ValueError "text must be False")
  else if bool_decide (encoding ≠ None) then Raise (mk ValueError "encoding must be None")
  else if bool_decide (errors ≠ None) then Raise (mk ValueError "errors must be None")
  else Ok tt.

(** ** Sendfile arguments (zuvloop/_sendfile.py) *)

(** A Python value where an [int] is expected. *)
Inductive pynum := PInt (z : Z) | PNotInt.

Fixpoint has_b (s : string) : bool :=
  match s with
  | EmptyString => false
  | String c s' => if Ascii.eqb c "b"%char then true else has_b s'
  end.

(** [mode] is the source's [mode] attribute, if it has one. *)
Definition _check_file_params (mode : option string) (offset : pynum) (count : option pynum)
    : res unit :=
  if negb (has_b (default "b"%string mode)) then
    Raise (mk ValueError "file should be opened in binary mode")
  else match count with
  | Some PNotInt => Raise (mk TypeError "count must be a positive integer")
  | Some (PInt c) =>
      if c <=? 0 then Raise (mk ValueError "count must be a positive integer")
      else match offset with
           | PNotInt => Raise (mk TypeError "offset must be a non-negative integer")
           | PInt o => if o <? 0 then Raise (mk ValueError "offset must be a non-negative integer") else Ok tt
           end
  | None => match offset with
            | PNotInt => Raise (mk TypeError "offset must be a non-negative integer")
            | PInt o => if o <? 0 then Raise (mk ValueError "offset must be a non-negative integer") else Ok tt
            end
  end.

Definition _check_sendfile_params (is_ssl : bool) (sock : psock) (mode : option string)
    (offset : pynum) (count : option pynum) : res unit :=
  if is_ssl then Raise (mk TypeError "Socket cannot be of type SSLSocket")
  else if negb (ps_type sock =? SOCK_STREAM) then
    Raise (mk ValueError "only SOCK_STREAM type sockets are supported")
  else _check_file_params mode offset count.

(** ** Signal numbers (zuvloop/_loop.py); [valid] is [signal.valid_signals()]. *)
Definition _check_signal (valid : gset Z) (sig : pynum) : res Z :=
  match sig with
  | PNotInt => Raise (mk TypeError "sig must be an int")
  | PInt s => if bool_decide (s ∈ valid) then Ok s
              else Raise (mk ValueError ("invalid signal number " ++ string_of_Z s))
  end.

(** ** What the checks let through *)

Lemma check_ssl_args_cases ssl sh host r :
  _check_ssl_args ssl sh host = Ok r ↔
  if ssl_truthy ssl then
    match sh with Some n => r = Some n | None => r = host ∧ str_falsy host = false end
  else sh = None ∧ r = None.
Proof.
  unfold _check_ssl_args. destruct (ssl_truthy ssl), sh as [n|]; cbn; try case_match; naive_solver.
Qed.

Lemma check_file_params_cases mode offset count :
  _check_file_params mode offset count = Ok tt ↔
  has_b (default "b"%string mode) = true ∧
  (∃ o, offset = PInt o ∧ 0 ≤ o) ∧
  (∀ c, count = Some c → ∃ n, c = PInt n ∧ 0 < n).
Proof.
  unfold _check_file_params. destruct (has_b _); cbn; [|naive_solver].
  destruct count as [[c|]|], offset as [o|]; cbn;
    repeat (case_match; cbn); rewrite ?Z.leb_le, ?Z.leb_gt, ?Z.ltb_lt, ?Z.ltb_ge in *;
    split; try naive_solver lia.
Qed.

(** [sendfile] goes on exactly with a plain stream socket, a source that is opened in binary
    mode if it says how it was opened, a non-negative [int] as offset and, if it is given, a
    positive [int] as count. *)
Theorem sendfile_params_accepts is_ssl sock mode offset count :
  _check_sendfile_params is_ssl sock mode offset count = Ok tt ↔
  is_ssl = false ∧ ps_type sock = SOCK_STREAM ∧ has_b (default "b"%string mode) = true ∧
  (∃ o, offset = PInt o ∧ 0 ≤ o) ∧ (∀ c, count = Some c → ∃ n, c = PInt n ∧ 0 < n).
Proof.
  rewrite <-check_file_params_cases. unfold _check_sendfile_params.
  destruct is_ssl; [naive_solver|]. destruct (Z.eqb_spec (ps_type sock) SOCK_STREAM); cbn [negb]; naive_solver.
Qed.
