(* ===== verification/Sockets.v ===== *)
(** * The [sock_*] operations (zuvloop/_sockets.py)

    Each operation tries its system call, and when the call would block waits for the
    descriptor through the loop's reader or writer registration, retrying on every wakeup.
    [_sock_watchers] remembers which operation owns the registration. *)
From S2P Require Import Prelude World Checks.

(** The data side of the kernel: what receives return, how much a send takes, the pending
    error of a socket. *)
Class SockIO := {
  rx : nat → list Byte.byte;
  rx_addr : nat → pyaddr;
  tx : nat → list Byte.byte → nat;
  so_error : nat → Z }.

Section sockets.
Context `{K : Kernel} `{IO : SockIO} `{R : Resolver}.

(** [_watch]: the token is recorded before the registration is made. *)
Definition _watch (f : fd) (write : bool) : M world oid :=
  token <- alloc ;;
  modify (set_watchers (<[(f, write) := token]>)) ;;
  add_watch f write token ;;
  ret token.

(** [_unwatch]: only the registration [token] installed is removed. *)
Definition _unwatch (f : fd) (write : bool) (token : oid) : M world unit :=
  cur <- gets (λ w, w_watchers w !! (f, write)) ;;
  if decide (cur = Some token) then
    modify (set_watchers (delete (f, write))) ;; remove_watch f write ;; ret tt
  else ret tt.

(** [_attempt]: [None] means "not ready yet"; an outcome settles the future.  Anything
    but an [OSError] escapes to whoever called. *)
Definition _attempt {A} (op : M world A) : M world (option (res A)) :=
  catch_else op
    (λ e, if isinstance e BlockingIOError || isinstance e InterruptedError then ret None
          else if isinstance e OSError then ret (Some (Raise e)) else raise e)
    (λ a, ret (Some (Ok a))).

(** A registered callback: the loop reports what escapes from it and goes on. *)
Definition run_callback {A} (cb : M world (option (res A))) : M world (option (res A)) :=
  catch cb (λ e,
    (if isinstance e SystemExit || isinstance e KeyboardInterrupt
     then log (EvOther "fatal") else log (EvHandler "Exception in callback" e)) ;;
    ret None).

(** [await future] while [cb] is registered on the descriptor.  Between wakeups everybody
    else runs; the callback fires only while its registration is the current one; once
    settled, the coroutine resumes a turn later and may be cancelled before it does. *)
Fixpoint await_cb {A} (f : fd) (write : bool) (token : oid) (cb : M world (option (res A)))
    (ws : list wake) : M world A :=
  match ws with
  | [] | WCancel :: _ => yield_ ;; raise cancelled
  | WReady :: ws' =>
      yield_ ;;
      cur <- gets (λ w, slot write w !! f) ;;
      if decide (cur = Some token) then
        r <- run_callback cb ;;
        match r with
        | Some r => await_ ;; of_res r
        | None => await_cb f write token cb ws'
        end
      else await_cb f write token cb ws'
  end.

(** [try: return await future finally: self._unwatch(fd, write, token)]. *)
Definition wait_ready {A} (f : fd) (write : bool) (token : oid)
    (cb : M world (option (res A))) : M world A :=
  t <- tick ;;
  finally (await_cb f write token cb (wakes t)) (_unwatch f write token).

Definition _retry_ready {A} (f : fd) (write : bool) (op : M world A) : M world A :=
  r <- _attempt op ;;
  match r with
  | Some r => of_res r
  | None => token <- _watch f write ;; wait_ready f write token (_attempt op)
  end.

Definition check_non_blocking (o : oid) : M world unit :=
  s <- get_sock o ;; of_res (_check_non_blocking s).

(** A closed socket has no descriptor to watch: libuv refuses -1. *)
Definition refuse_fd {A} : M world A := raise (oserror 9 "Bad file descriptor").

Definition _retry_until_ready {A} (o : oid) (write : bool) (op : M world A) : M world A :=
  check_non_blocking o ;; f <- fileno o ;;
  match f with
  | Some f => _retry_ready f write op
  | None => r <- _attempt op ;; match r with Some r => of_res r | None => refuse_fd end
  end.

(** ** Receiving *)
Definition recv_sys (o : oid) (nbytes : nat) : M world (list Byte.byte) :=
  need_fd o ;; sys ;; t <- tick ;; ret (take nbytes (rx t)).
Definition sock_recv (o : oid) (nbytes : nat) : M world (list Byte.byte) :=
  _retry_until_ready o false (recv_sys o nbytes).

(** Writing into a caller's buffer: the count and the buffer afterwards. *)
Definition into (buf data : list Byte.byte) : nat * list Byte.byte :=
  (length data, data ++ drop (length data) buf).
Definition sock_recv_into (o : oid) (buf : list Byte.byte) : M world (nat * list Byte.byte) :=
  _retry_until_ready o false (d <- recv_sys o (length buf) ;; ret (into buf d)).

Definition recvfrom_sys (o : oid) (bufsize : nat) : M world (list Byte.byte * pyaddr) :=
  need_fd o ;; sys ;; t <- tick ;; ret (take bufsize (rx t), rx_addr t).
Definition sock_recvfrom (o : oid) (bufsize : nat) : M world (list Byte.byte * pyaddr) :=
  _retry_until_ready o false (recvfrom_sys o bufsize).
(** [nbytes = 0] asks for as much as the buffer holds; more than it holds is an error. *)
Definition recvfrom_into_sys (o : oid) (buf : list Byte.byte) (nbytes : nat)
    : M world ((nat * list Byte.byte) * pyaddr) :=
  if Nat.ltb (length buf) nbytes then raise (mk ValueError "nbytes is greater than the length of the buffer")
  else r <- recvfrom_sys o (if Nat.eqb nbytes 0 then length buf else nbytes) ;;
       ret (into buf r.1, r.2).
Definition sock_recvfrom_into (o : oid) (buf : list Byte.byte) (nbytes : nat)
    : M world ((nat * list Byte.byte) * pyaddr) :=
  _retry_until_ready o false (recvfrom_into_sys o buf nbytes).

(** ** Accepting: the new socket is made non-blocking. *)
Definition accept_op (o : oid) : M world (oid * pyaddr) :=
  conn <- accept_sys o ;; t <- tick ;; ret (conn, addr_of t).
Definition sock_accept (o : oid) : M world (oid * pyaddr) :=
  c <- _retry_until_ready o false (accept_op o) ;; setblocking c.1 false ;; ret c.

(** ** Sending *)
Definition send_sys (o : oid) (data : list Byte.byte) : M world nat :=
  need_fd o ;; sys ;; t <- tick ;;
  log (EvSend o (take (tx t data) data)) ;; ret (length (take (tx t data) data)).
Definition sock_sendto (o : oid) (data : list Byte.byte) (a : pyaddr) : M world nat :=
  _retry_until_ready o true (send_sys o data).

(** [sock_sendall]: the loop [while sent < len(view)], on the part still to send.  Every
    round sends at least one byte, so the length bounds the rounds. *)
Fixpoint sendall_loop (fuel : nat) (o : oid) (view : list Byte.byte) : M world unit :=
  match view, fuel with
  | [], _ => ret tt
  | _, 0%nat => raise (mk ModelFuel "")
  | _, S fuel' =>
      n <- _retry_until_ready o true (send_sys o view) ;; sendall_loop fuel' o (drop n view)
  end.
Definition sock_sendall (o : oid) (data : list Byte.byte) : M world unit :=
  sendall_loop (length data) o data.

(** ** Connecting *)

(** The address of an internet socket is a tuple whose host and port have usable types. *)
Definition check_inet_address (a : pyaddr) : res (option string * option aitem) :=
  match a with
  | ATuple (h :: p :: _) =>
      match h, p with
      | IText h', IText _ | IText h', IInt _ => Ok (Some h', Some p)
      | _, _ => Raise (mk TypeError "an internet socket address must contain a host and port")
      end
  | _ => Raise (mk TypeError "an internet socket address must be a tuple")
  end.

Definition resolve_address (s : psock) (a : pyaddr) : M world pyaddr :=
  if (ps_family s =? AF_INET) || (ps_family s =? AF_INET6 plat) then
    hp <- of_res (check_inet_address a) ;;
    resolved <- getaddrinfo hp.1 hp.2 (ps_family s) (ps_type s) (ps_proto s) 0 ;;
    match resolved with
    | i :: _ => ret (ai_addr i)
    | [] => raise (mk IndexError "list index out of range")
    end
  else ret a.

(** The callback [check]: [SO_ERROR] decides, and everything but an exit settles. *)
Definition connect_check (o : oid) (a : pyaddr) : M world (option (res unit)) :=
  catch_else
    (need_fd o ;; sys ;; t <- tick ;;
     if so_error t =? 0 then ret tt
     else raise (new_OSError plat (Some (so_error t)) ("Connect call failed " ++ repr_addr a)))
    (λ e, if isinstance e BlockingIOError || isinstance e InterruptedError then ret None
          else if isinstance e SystemExit || isinstance e KeyboardInterrupt then raise e
          else ret (Some (Raise e)))
    (λ _, ret (Some (Ok tt))).

Definition connect_sys (o : oid) (a : pyaddr) : M world unit :=
  need_fd o ;; log (EvConnect o a) ;; sys.

Definition sock_connect_ (o : oid) (address : pyaddr) : M world unit :=
  check_non_blocking o ;;
  s <- get_sock o ;;
  address <- resolve_address s address ;;
  done_ <- catch_else (connect_sys o address)
    (λ e, if isinstance e BlockingIOError || isinstance e InterruptedError then ret false else raise e)
    (λ _, ret true) ;;
  if (done_ : bool) then ret tt else
    f <- fileno o ;;
    match f with
    | Some f => token <- _watch f true ;; wait_ready f true token (connect_check o address)
    | None => refuse_fd
    end.
End sockets.

(** ** None of it changes who owns what *)
Section quiet_sockets.
Context `{KOk : KernelOk} `{IO : SockIO} `{R : Resolver}.

Lemma watch_quiet f wr : quiet (_watch f wr).
Proof. unfold _watch. solve_stable. Qed.
Lemma unwatch_quiet f wr tok : quiet (_unwatch f wr tok).
Proof. unfold _unwatch. solve_stable. Qed.
Lemma attempt_quiet {A} (op : M world A) : quiet op → quiet (_attempt op).
Proof. intros H. unfold _attempt. solve_stable. Qed.
Lemma run_callback_quiet {A} (cb : M world (option (res A))) : quiet cb → quiet (run_callback cb).
Proof. intros H. unfold run_callback. solve_stable. Qed.
#[local] Hint Resolve watch_quiet unwatch_quiet attempt_quiet run_callback_quiet : stable.
Lemma await_cb_quiet {A} f wr tok (cb : M world (option (res A))) ws :
  quiet cb → quiet (await_cb f wr tok cb ws).
Proof. intros H. induction ws as [|[] ws IH]; cbn; solve_stable. Qed.
#[local] Hint Resolve await_cb_quiet : stable.
Lemma wait_ready_quiet {A} f wr tok (cb : M world (option (res A))) :
  quiet cb → quiet (wait_ready f wr tok cb).
Proof. intros H. unfold wait_ready. solve_stable. Qed.
#[local] Hint Resolve wait_ready_quiet : stable.
Lemma connect_check_quiet o a : quiet (connect_check o a).
Proof. unfold connect_check. solve_stable. Qed.
Lemma connect_sys_quiet o a : quiet (connect_sys o a).
Proof. unfold connect_sys. solve_stable. Qed.
Lemma resolve_address_quiet s a : quiet (resolve_address s a).
Proof. unfold resolve_address. solve_stable. Qed.
Lemma check_non_blocking_quiet o : quiet (check_non_blocking o).
Proof. unfold check_non_blocking. solve_stable. Qed.
#[local] Hint Resolve connect_check_quiet connect_sys_quiet resolve_address_quiet
  check_non_blocking_quiet : stable.
Lemma sock_connect__quiet o a : quiet (sock_connect_ o a).
Proof. unfold sock_connect_, refuse_fd. solve_stable. Qed.
End quiet_sockets.

(** The socket code implements the interface the connection code uses. *)
#[export] Instance sockets_connector `{KOk : KernelOk} `{IO : SockIO} `{R : Resolver} : Connector := {
  sock_connect := sock_connect_;
  sock_connect_quiet := sock_connect__quiet }.

(** ** A rule for operations that retry

    [Plumbing Rl]: the bookkeeping of a retry (ticks, tokens, registrations, reports) and
    everybody else's steps stay within [Rl]. *)
Class Plumbing `{K : Kernel} (Rl : relation world) := {
  plumb_preorder :: PreOrder Rl;
  plumb_tick : ∀ f w, Rl w (set_tick f w);
  plumb_next : ∀ w, Rl w (set_next S w);
  plumb_watchers : ∀ f w, Rl w (set_watchers f w);
  plumb_slot : ∀ b f w, Rl w (set_slot b f w);
  plumb_handler : ∀ s e w, Rl w (log_event (EvHandler s e) w);
  plumb_fatal : ∀ s w, Rl w (log_event (EvOther s) w);
  plumb_intf : ∀ t w, Rl w (intf t w) }.

Section retry.
Context `{K : Kernel} (Rl : relation world) `{PL : !Plumbing Rl}.
#[local] Hint Extern 1 (Rl _ _) =>
  first [ apply plumb_tick | apply plumb_next | apply plumb_watchers | apply plumb_slot
        | apply plumb_handler | apply plumb_fatal | apply plumb_intf ] : stable.

Lemma plumb_tick_stable : stable Rl tick.
Proof. unfold tick. solve_stable. Qed.
#[local] Hint Resolve plumb_tick_stable : stable.
Lemma plumb_sys_stable : stable Rl sys.
Proof. unfold sys. solve_stable. Qed.
Lemma plumb_yield_stable : stable Rl yield_.
Proof. unfold yield_. solve_stable. Qed.
#[local] Hint Resolve plumb_sys_stable plumb_yield_stable : stable.
Lemma plumb_await_stable : stable Rl await_.
Proof. unfold await_. solve_stable. Qed.
Lemma plumb_need_fd_stable o : stable Rl (need_fd o).
Proof. unfold need_fd, fileno, get_sock. solve_stable. Qed.
Lemma plumb_watch_stable f wr : stable Rl (_watch f wr).
Proof. unfold _watch, add_watch, alloc. solve_stable. Qed.
Lemma plumb_unwatch_stable f wr tok : stable Rl (_unwatch f wr tok).
Proof. unfold _unwatch, remove_watch. solve_stable. Qed.
Lemma plumb_nonblock_stable o : stable Rl (check_non_blocking o).
Proof. unfold check_non_blocking, get_sock. solve_stable. Qed.

(** A suspension raises nothing but the cancellation of the task. *)
Lemma await_cancels : raises (λ e, e = cancelled) await_.
Proof. intros w. unfold await_, yield_, tick. wp_go; done. Qed.

Lemma unwatch_total f wr tok : total (_unwatch f wr tok).
Proof. unfold _unwatch, remove_watch. solve_raises. Qed.

(** [P] is the state before the operation took effect, [D a] the one after it took
    effect with result [a]; both survive the plumbing.  Then a retried operation that
    returns has taken effect, and one that raises (by cancellation, say) has taken effect
    at most once. *)
Context {A : Type} (P : world → Prop) (D : A → world → Prop) (op : M world A).
Hypothesis Hop : ∀ w, P w → wp op D (λ _, P) w.
Hypothesis HP : ∀ w w', Rl w w' → P w → P w'.
Hypothesis HD : ∀ a w w', Rl w w' → D a w → D a w'.

Definition settled (r : res A) (w : world) : Prop :=
  match r with Ok a => D a w | Raise _ => P w end.

Lemma wp_attempt w : P w →
  wp (_attempt op) (λ o, match o with Some r => settled r | None => P end) (λ _, P) w.
Proof.
  intros Hw. unfold _attempt. apply wp_catch_else. eapply wp_mono; [by apply Hop|..].
  - intros a w' Ha. by apply wp_ret.
  - intros e w' He. wp_go; done.
Qed.

Lemma wp_run_attempt w : P w →
  wp (run_callback (_attempt op)) (λ o, match o with Some r => settled r | None => P end)
     (λ _ _, False) w.
Proof.
  intros Hw. unfold run_callback. apply wp_catch. eapply wp_mono; [by apply wp_attempt|done|].
  intros e w' He. unfold log. wp_go; eapply HP; [|done|..|done]; eauto with stable.
Qed.

Lemma wp_resume r w : settled r w →
  wp (await_ ;; of_res r) D (λ e w', P w' ∨ e = cancelled ∧ ∃ a, D a w') w.
Proof.
  intros Hs. apply wp_bind.
  eapply wp_mono; [apply wp_and; [apply plumb_await_stable|apply await_cancels]|..].
  - intros _ w' [H _]. apply wp_of_res; intros x ->; cbn in Hs; [|left]; eauto.
  - intros e w' [H He]. destruct r; cbn in Hs; [right|left]; eauto.
Qed.

Lemma wp_await_cb f wr tok ws w : P w →
  wp (await_cb f wr tok (_attempt op) ws) D (λ e w', P w' ∨ e = cancelled ∧ ∃ a, D a w') w.
Proof.
  revert w. induction ws as [|[] ws IH]; intros w Hw; cbn [await_cb];
    (apply wp_bind, (wp_stable Rl); [apply plumb_yield_stable| |left; by eauto]);
    intros _ w1 H1; assert (P w1) by eauto.
  - apply wp_raise. by left.
  - apply wp_bind, wp_gets. case_decide; [|by apply IH].
    apply wp_bind. eapply wp_mono; [by apply wp_run_attempt| |done].
    intros [r|] w2 H2; [by apply wp_resume|by apply IH].
  - apply wp_raise. by left.
Qed.

Lemma wp_wait_ready f wr tok w : P w →
  wp (wait_ready f wr tok (_attempt op)) D (λ e w', P w' ∨ e = cancelled ∧ ∃ a, D a w') w.
Proof.
  intros Hw. unfold wait_ready. apply wp_bind, (wp_stable Rl); [apply plumb_tick_stable| |by eauto].
  intros t w1 H1. apply wp_finally. eapply wp_mono; [apply wp_await_cb; by eauto|..].
  - intros a w2 H2. apply (wp_stable_total Rl); [apply plumb_unwatch_stable|apply unwatch_total|eauto].
  - intros e w2 H2. apply (wp_stable_total Rl); [apply plumb_unwatch_stable|apply unwatch_total|].
    intros _ w3 H3. destruct H2 as [H2|(-> & a & H2)]; [left|right]; eauto.
Qed.

Lemma wp_retry_ready f wr w : P w →
  wp (_retry_ready f wr op) D (λ e w', P w' ∨ e = cancelled ∧ ∃ a, D a w') w.
Proof.
  intros Hw. unfold _retry_ready. apply wp_bind. eapply wp_mono; [by apply wp_attempt|..].
  - intros [r|] w1 H1.
    + apply wp_of_res; intros x ->; cbn in H1; by eauto.
    + apply wp_bind, (wp_stable Rl); [apply plumb_watch_stable| |by eauto].
      intros tok w2 H2. apply wp_wait_ready. by eauto.
  - by eauto.
Qed.

Lemma wp_retry_closed w : P w →
  wp (r <- _attempt op ;; match r with Some r => of_res r | None => refuse_fd end)
     D (λ e w', P w' ∨ e = cancelled ∧ ∃ a, D a w') w.
Proof.
  intros Hw. apply wp_bind. eapply wp_mono; [by apply wp_attempt| |by eauto].
  intros [r|] w1 H1; [|by apply wp_raise; left]. apply wp_of_res; intros x ->; cbn in H1; by eauto.
Qed.

Lemma wp_retry_until_ready o wr w : P w →
  wp (_retry_until_ready o wr op) D (λ e w', P w' ∨ e = cancelled ∧ ∃ a, D a w') w.
Proof.
  intros Hw. unfold _retry_until_ready.
  apply wp_bind, (wp_stable Rl); [apply plumb_nonblock_stable| |by eauto].
  intros _ w1 H1. apply wp_bind, (wp_stable Rl); [unfold fileno, get_sock; solve_stable| |by eauto].
  intros [f|] w2 H2; [by apply wp_retry_ready; eauto|]. apply wp_retry_closed. by eauto.
Qed.
End retry.

(** Retrying a statement that stays within the relation stays within it. *)
Lemma retry_until_ready_stable `{K : Kernel} (Rl : relation world) `{PL : !Plumbing Rl} {A}
    (op : M world A) o wr : stable Rl op → stable Rl (_retry_until_ready o wr op).
Proof.
  intros Hop w. eapply wp_mono;
    [apply (wp_retry_until_ready Rl (Rl w) (λ _, Rl w))|done|by intros e w' [?|(_ & _ & ?)]].
  - intros w1 H1. apply (wp_stable Rl); [done|intros a w2 H2; by etrans..].
  - intros w1 w2 H1 H2. by etrans.
  - intros _ w1 w2 H1 H2. by etrans.
  - done.
Qed.

(** ** Accepting one connection *)
Definition silent_io : SockIO := {|
  rx := λ _, []; rx_addr := λ _, AOther; tx := λ _ _, 1%nat; so_error := λ _, 0 |}.
#[export] Instance keeps_plumbing `{KOk : KernelOk} : Plumbing keeps.
Proof.
  split; try apply _; try (intros; by apply keeps_frame); [|by intros []; intros; apply keeps_frame|apply intf_keeps].
  apply keeps_alloc.
Qed.

Section accept.
Context `{KOk : KernelOk} `{IO : SockIO}.

(** Since [w0], exactly the socket [c] has been opened, and it is in blocking mode or not. *)
Definition accepted (w0 : world) (blocking : bool) (c : oid) (w : world) : Prop :=
  ∃ f s, owns w0 [(c, f)] w ∧ w_socks w !! c = Some s ∧ ps_blocking s = blocking.

Lemma accepted_keeps w0 b c w w' : keeps w w' → accepted w0 b c w → accepted w0 b c w'.
Proof.
  intros Hk (f & s & Ho & Hs & Hb). exists f, s. split; [by eapply owns_keeps; [|apply Hk]|].
  rewrite (keeps_socks _ _ (keeps_owned _ _ Hk) c f); [done|]. apply (own_holds _ _ _ Ho). set_solver.
Qed.

Lemma wp_accept_op w0 o w : owns w0 [] w →
  wp (accept_op o) (λ c, accepted w0 true c.1) (λ _, owns w0 []) w.
Proof.
  intros Ho. unfold accept_op, accept_sys. apply wp_bind, wp_bind.
  eapply wp_owns_quiet; [apply need_fd_quiet|done| |done]. intros _ w1 _ Ho1. apply wp_bind.
  eapply wp_owns_quiet; [apply sys_quiet|done| |done]. intros _ w2 _ Ho2. apply wp_bind.
  eapply wp_owns_quiet; [apply get_sock_quiet|done| |done]. intros s w3 _ Ho3.
  eapply wp_open_sock; [done|]. intros c f w4 Ho4 Hs _ _. unfold tick. wp_go. cbn.
  exists f. eexists. split; [|split; [exact Hs|done]]. eapply owns_keeps; [done|]. by apply keeps_frame.
Qed.

Lemma wp_sock_accept w0 o w : owns w0 [] w →
  wp (sock_accept o) (λ c, accepted w0 false c.1)
     (λ e w', owns w0 [] w' ∨ ∃ c, accepted w0 true c w') w.
Proof.
  intros Ho. unfold sock_accept. apply wp_bind. eapply wp_mono.
  - apply (wp_retry_until_ready keeps (owns w0 []) (λ c, accepted w0 true c.1)); [|..|done].
    + intros w1 H1. by apply wp_accept_op.
    + intros w1 w2 Hk H1. by eapply owns_keeps; [|apply Hk].
    + intros c w1 w2 Hk H1. by eapply accepted_keeps.
  - intros [c a] w1 (f & s & H1 & Hs & Hb). apply wp_bind.
    eapply (wp_setblocking _ _ _ f); [exact H1|set_solver|exact Hs|..].
    + intros w2 H2 Hs2 _. apply wp_ret. by exists f; eexists.
    + intros e w2 Hk H2. right. exists c. eapply accepted_keeps; [done|by exists f, s].
  - intros e w1 [H1|(_ & c & H1)]; eauto.
Qed.
End accept.

(** [sock_accept] returns one new connection in non-blocking mode and opens nothing else; when
    it raises, nothing is open, or the one connection that was accepted before the task was
    cancelled (or before [setblocking] failed) is. *)
Theorem sock_accept_owns `{KOk : KernelOk} `{IO : SockIO} o w :
  wp (sock_accept o) (λ c, accepted w false c.1)
     (λ e w', owns w [] w' ∨ ∃ c, accepted w true c w') w.
Proof. apply wp_sock_accept, owns_refl. Qed.
Lemma sock_accept_owns_witness :
  let w := one_socket AF_INET false in
  wp (sock_accept (K := steady [] []) 0) (λ c, accepted w false c.1)
    (λ e w', owns w [] w' ∨ ∃ c, accepted w true c w') w.
Proof. apply (sock_accept_owns (KOk := steady_ok [] []) (IO := silent_io)). Defined.

(** ** Sending a whole buffer *)

(** The bytes the kernel has taken on socket [o], in order. *)
Definition sent_of (o : oid) (e : event) : list Byte.byte :=
  match e with EvSend o' d => if decide (o' = o) then d else [] | _ => [] end.
Definition sent (o : oid) (w : world) : list Byte.byte := mbind (sent_of o) (w_log w).

Lemma sent_log o e w : sent o (log_event e w) = sent o w ++ sent_of o e.
Proof. unfold sent. cbn. rewrite bind_app. cbn. by rewrite app_nil_r. Qed.

Definition sent_same (o : oid) (w w' : world) : Prop := sent o w' = sent o w.
#[export] Instance sent_same_preorder o : PreOrder (sent_same o).
Proof. split; [done|]. intros x y z H1 H2. red in H1, H2 |- *. congruence. Qed.

(** Nobody else sends on [o], and a send that does not block takes something. *)
Class SendOk `{K : Kernel} `{IO : SockIO} (o : oid) := {
  send_private : ∀ t w, sent_same o w (intf t w);
  tx_progress : ∀ t d, d ≠ [] → (0 < tx t d)%nat }.

#[export] Instance sent_same_plumbing `{SO : SendOk o} : Plumbing (sent_same o).
Proof.
  split; try done; try apply _.
  - by intros [] f w.
  - intros s e w. red. rewrite sent_log. cbn. apply app_nil_r.
  - intros s w. red. rewrite sent_log. cbn. apply app_nil_r.
  - apply send_private.
Qed.

(** What a wait with token [tok] leaves on the descriptor: the dictionary and the loop
    agree, and neither still has the token. *)
Definition agree (f : fd) (wr : bool) (w : world) : Prop :=
  w_watchers w !! (f, wr) = slot wr w !! f.
Definition gone (f : fd) (wr : bool) (tok : oid) (w : world) : Prop :=
  agree f wr w ∧ w_watchers w !! (f, wr) ≠ Some tok.

(** Everybody else keeps the dictionary and the loop in agreement about the descriptor. *)
Definition watch_rely (f : fd) (wr : bool) (w w' : world) : Prop := agree f wr w → agree f wr w'.
#[export] Instance watch_rely_preorder f wr : PreOrder (watch_rely f wr).
Proof. split; unfold watch_rely; [by intros w|by auto]. Qed.

Class WatchOk `{K : Kernel} (f : fd) (wr : bool) := {
  intf_watch : ∀ t w, watch_rely f wr w (intf t w) }.

Section watch_props.
Context `{K : Kernel} (f : fd) (wr : bool) `{WO : !WatchOk f wr}.

(** A step that does not touch the registrations. *)
Lemma watch_rely_frame w w' :
  w_watchers w' = w_watchers w → w_readers w' = w_readers w → w_writers w' = w_writers w →
  watch_rely f wr w w'.
Proof. intros H1 H2 H3. unfold watch_rely, agree, slot. by rewrite H1, H2, H3. Qed.
#[local] Hint Extern 2 (watch_rely _ _ _ _) => (by apply watch_rely_frame) : stable.
#[local] Hint Resolve intf_watch : stable.

Lemma watch_tick_stable : stable (watch_rely f wr) tick.
Proof. unfold tick. solve_stable. Qed.
#[local] Hint Resolve watch_tick_stable : stable.
Lemma watch_yield_stable : stable (watch_rely f wr) yield_.
Proof. unfold yield_. solve_stable. Qed.
#[local] Hint Resolve watch_yield_stable : stable.
Lemma watch_sys_stable : stable (watch_rely f wr) sys.
Proof. unfold sys. solve_stable. Qed.
#[local] Hint Resolve watch_sys_stable : stable.
Lemma watch_await_stable : stable (watch_rely f wr) await_.
Proof. unfold await_. solve_stable. Qed.
Lemma watch_need_fd_stable o : stable (watch_rely f wr) (need_fd o).
Proof. unfold need_fd, fileno, get_sock. solve_stable. Qed.
#[local] Hint Resolve watch_await_stable watch_need_fd_stable : stable.

(** The system calls that are retried do not touch the registrations. *)
Lemma attempt_watch_stable {A} (op : M world A) :
  stable (watch_rely f wr) op → stable (watch_rely f wr) (_attempt op).
Proof. intros H. unfold _attempt. solve_stable. Qed.
Lemma recv_watch_stable `{IO : SockIO} o n : stable (watch_rely f wr) (_attempt (recv_sys o n)).
Proof. apply attempt_watch_stable. unfold recv_sys. solve_stable. Qed.
Lemma send_watch_stable `{IO : SockIO} o d : stable (watch_rely f wr) (_attempt (send_sys o d)).
Proof. apply attempt_watch_stable. unfold send_sys, log. solve_stable. Qed.
Lemma connect_watch_stable `{IO : SockIO} o a : stable (watch_rely f wr) (connect_check o a).
Proof. unfold connect_check. solve_stable. Qed.

Lemma await_watch_stable {A} tok (cb : M world (option (res A))) ws :
  stable (watch_rely f wr) cb → stable (watch_rely f wr) (await_cb f wr tok cb ws).
Proof.
  intros H. induction ws as [|[] ws IH]; cbn; unfold run_callback, log; solve_stable.
Qed.

Lemma unwatch_gone tok w : agree f wr w →
  wp (_unwatch f wr tok) (λ _, gone f wr tok) (λ _ _, False) w.
Proof.
  intros Ha. unfold _unwatch, remove_watch. wp_go; [|by split].
  split; cbn; [|by destruct wr; cbn; rewrite lookup_delete_eq].
  unfold agree. destruct wr; cbn; by rewrite !lookup_delete_eq.
Qed.
End watch_props.

(** A registration takes over the descriptor: the cleanup of any earlier token then does
    nothing, so the later operation keeps its wakeups. *)
Theorem watch_supersedes `{K : Kernel} f wr w :
  wp (_watch f wr)
    (λ tok w', agree f wr w' ∧ slot wr w' !! f = Some tok ∧
       ∀ old, (old < w_next w)%nat → _unwatch f wr old w' = (Ok tt, w'))
    (λ _ w', slot wr w' !! f = slot wr w !! f) w.
Proof.
  unfold _watch, add_watch, alloc, sys, tick. wp_go.
  - by destruct wr.
  - assert (Hs : ∀ g v, slot wr (set_slot wr g v) = g (slot wr v)) by (by destruct wr).
    assert (Hw : ∀ g v, w_watchers (set_slot wr g v) = w_watchers v) by (by destruct wr).
    unfold agree. rewrite Hs, Hw. cbn. rewrite !lookup_insert_eq. repeat split.
    intros old Hold. unfold _unwatch, bind, gets. rewrite Hw. cbn. rewrite lookup_insert_eq.
    rewrite decide_False; [done|]. intros [= Heq]. lia.
Qed.

(** However a wait ends - result, error or cancellation - its own registration is gone, and
    the dictionary and the loop still agree about whoever is registered now. *)
Theorem wait_ready_cleans {A} `{K : Kernel} f wr `{WO : !WatchOk f wr} tok
    (cb : M world (option (res A))) w :
  stable (watch_rely f wr) cb → agree f wr w →
  wp (wait_ready f wr tok cb) (λ _, gone f wr tok) (λ _, gone f wr tok) w.
Proof.
  intros Hcb Ha. unfold wait_ready, tick. wp_go.
  apply (wp_stable (watch_rely f wr)); [by apply await_watch_stable|..];
    intros ? w2 H2; (eapply wp_mono; [apply unwatch_gone; [apply _|by apply H2]|done|done]).
Qed.

Section sendall.
Context `{K : Kernel} `{IO : SockIO} (o : oid) `{SO : !SendOk o}.

Lemma wp_send_sys d s0 w : d ≠ [] → sent o w = s0 →
  wp (send_sys o d) (λ n w', (0 < n)%nat ∧ sent o w' = s0 ++ take n d) (λ _ w', sent o w' = s0) w.
Proof.
  intros Hd Hs. unfold send_sys.
  assert (Hr : ∀ w', sent_same o w w' → sent o w' = s0) by (intros w' H; red in H; congruence).
  apply wp_bind, (wp_stable (sent_same o)); [apply plumb_need_fd_stable; apply _| |by auto].
  intros _ w1 H1. apply wp_bind, (wp_stable (sent_same o)); [apply plumb_sys_stable; apply _|..].
  2:{ intros e w2 H2. apply Hr. by etrans. }
  intros _ w2 H2. unfold tick, log. wp_go. pose proof (tx_progress (w_tick w2) d Hd) as Hp.
  rewrite sent_log. unfold sent_of. rewrite decide_True by done. split.
  - destruct d; [done|]. rewrite length_take. cbn. lia.
  - change (sent o (set_tick S w2)) with (sent o w2). rewrite (Hr w2) by (by etrans). f_equal. symmetry. apply take_length_take.
Qed.

Lemma wp_sendall_loop fuel d s0 w :
  (length d ≤ fuel)%nat → sent o w = s0 →
  wp (sendall_loop fuel o d) (λ _ w', sent o w' = s0 ++ d)
     (λ e w', ∃ n, (n ≤ length d)%nat ∧ sent o w' = s0 ++ take n d) w.
Proof.
  revert d s0 w. induction fuel as [|fuel IH]; intros d s0 w Hl Hs.
  { destruct d; [|cbn in Hl; lia]. apply wp_ret. by rewrite app_nil_r. }
  destruct d as [|b d']; [apply wp_ret; by rewrite app_nil_r|]. set (d := b :: d') in *.
  cbn [sendall_loop]. change (match d with [] => _ | _ :: _ => ?x end) with x.
  apply wp_bind. eapply wp_mono.
  - apply (wp_retry_until_ready (sent_same o) (λ w, sent o w = s0)
      (λ n w, (0 < n)%nat ∧ sent o w = s0 ++ take n d)); [|..|done].
    + intros w1 H1. by apply wp_send_sys.
    + intros w1 w2 H12 H1. red in H12. congruence.
    + intros n w1 w2 H12 [Hn H1]. red in H12. split; [done|congruence].
  - intros n w1 [Hn H1]. eapply wp_mono; [apply (IH (drop n d) (s0 ++ take n d) w1); [|done]|..].
    + rewrite length_drop. lia.
    + cbn. intros _ w2 H2. by rewrite H2, <-app_assoc, take_drop.
    + cbn. intros e w2 (k & Hk & H2). rewrite length_drop in Hk.
      rewrite <-app_assoc, drop_take_app in H2. destruct (decide (n + k ≤ length d)%nat).
      * by exists (n + k)%nat.
      * exists (length d). split; [done|]. rewrite H2. by rewrite !take_ge by lia.
  - intros e w1 [H1|(_ & n & _ & H1)].
    + exists 0%nat. rewrite take_0, app_nil_r. split; [lia|done].
    + destruct (decide (n ≤ length d)%nat); [by exists n|].
      exists (length d). split; [done|]. rewrite H1. by rewrite !take_ge by lia.
Qed.
End sendall.

(** ** Neither the retries nor the bounded send loop run out *)

(** A set of exceptions that holds those of the system calls and the few the socket code makes
    itself. *)
Class Clean `{K : Kernel} (P : exn → Prop) := {
  clean_sys : ∀ t e, fails t = Some e → P e;
  clean_own : ∀ e, exn_cls e ∈ [OSError; CancelledError; ValueError; AttributeError] → P e }.

(** An exception of the program, not the model's marker. *)
Definition real (e : exn) : Prop := exn_cls e ≠ ModelFuel.
#[export] Instance real_clean `{KR : KernelReal} : Clean real.
Proof. split; [apply fails_real|]. intros [c n m g] H. unfold real. cbn in *. set_solver. Qed.

Section clean.
Context `{K : Kernel} `{IO : SockIO} (P : exn → Prop) `{CP : !Clean P}.

#[local] Ltac own := apply clean_own; cbn; set_solver.
#[local] Hint Extern 1 (P _) => own : raises.
#[local] Hint Extern 2 (raises P (raise _)) => (apply raises_raise; own) : raises.
Lemma tick_total : total tick.
Proof. unfold tick. solve_raises. Qed.
Lemma total_raises {A} P' (m : M world A) : total m → raises P' m.
Proof. intros H w. eapply wp_mono; [apply H|done|done]. Qed.
#[local] Hint Resolve tick_total total_raises : raises.
Lemma sys_clean : raises P sys.
Proof.
  unfold sys. apply raises_bind; [auto with raises|]. intros t.
  destruct (fails t) eqn:Hf; [apply raises_raise; by eapply clean_sys|solve_raises].
Qed.
Lemma yield_total : total yield_.
Proof. unfold yield_. apply raises_bind; [apply tick_total|]. solve_raises. Qed.
#[local] Hint Resolve sys_clean yield_total : raises.
Lemma of_res_clean {A} (r : res A) : (∀ e, r = Raise e → P e) → raises (W:=world) P (of_res r).
Proof. intros H w. by apply wp_of_res. Qed.
Lemma await_clean : raises P await_.
Proof. unfold await_. solve_raises. Qed.
Lemma need_fd_clean o : raises P (need_fd o).
Proof. unfold need_fd, fileno. solve_raises. Qed.
Lemma send_sys_clean o d : raises P (send_sys o d).
Proof.
  pose proof need_fd_clean. unfold send_sys, log. solve_raises.
Qed.
Lemma check_non_blocking_clean o : raises P (check_non_blocking o).
Proof.
  unfold check_non_blocking, get_sock, _check_non_blocking. apply raises_bind; [solve_raises|].
  intros s. apply of_res_clean. destruct (ps_blocking s); intros e [= <-]. own.
Qed.

Context {A : Type} (op : M world A) (Hop : raises P op).
Definition settled_clean (r : option (res A)) : Prop := ∀ e, r = Some (Raise e) → P e.
Lemma attempt_clean w :
  wp (_attempt op) (λ r _, settled_clean r) (λ e _, P e) w.
Proof.
  unfold _attempt. apply wp_catch_else. eapply wp_mono; [apply Hop|by intros a w' _ |].
  intros e w' He. destruct (_ || _); [by apply wp_ret|].
  destruct (isinstance e OSError); [apply wp_ret; by intros ? [= <-]|by apply wp_raise].
Qed.
Lemma await_cb_clean f wr tok ws w :
  wp (await_cb f wr tok (_attempt op) ws) (λ _ _, True) (λ e _, P e) w.
Proof.
  revert w. induction ws as [|[] ws IH]; intros w; cbn [await_cb]; apply wp_bind;
    (eapply wp_mono; [apply yield_total|intros _ w1 _|done]); try (apply wp_raise; own).
  apply wp_bind, wp_gets. case_decide; [|apply IH]. apply wp_bind. unfold run_callback. apply wp_catch.
  eapply wp_mono; [apply attempt_clean| |].
  - intros [r|] w2 Hr; [|apply IH]. apply wp_bind. eapply wp_mono; [apply await_clean|intros _ w3 _|done].
    apply wp_of_res; [done|intros e ->; by apply Hr].
  - intros e w2 _. apply wp_bind. destruct (_ || _); apply wp_modify, wp_ret, IH.
Qed.
Lemma retry_ready_clean f wr : raises P (_retry_ready f wr op).
Proof.
  intros w. unfold _retry_ready. apply wp_bind. eapply wp_mono; [apply attempt_clean| |done].
  intros [r|] w2 Hr; [apply wp_of_res; [done|intros e ->; by apply Hr]|]. apply wp_bind.
  assert (Hw : raises P (_watch f wr)).
  { unfold _watch, alloc, add_watch. solve_raises. }
  eapply wp_mono; [apply Hw|intros tok w3 _|done]. unfold wait_ready. apply wp_bind.
  eapply wp_mono; [apply tick_total|intros t w4 _|done]. apply wp_finally.
  pose proof (unwatch_total f wr tok) as Hu.
  eapply wp_mono; [apply await_cb_clean|intros ? w5 He..]; (eapply wp_mono; [apply Hu|done|done]).
Qed.
(** The same operation where there is no descriptor to watch. *)
Lemma retry_closed_clean :
  raises P (r <- _attempt op ;; match r with Some r => of_res r | None => refuse_fd end).
Proof.
  intros w. apply wp_bind. eapply wp_mono; [apply attempt_clean| |done].
  intros [r|] w2 Hr; [apply wp_of_res; [done|intros e ->; by apply Hr]|apply wp_raise; own].
Qed.
Lemma retry_until_ready_clean o wr : raises P (_retry_until_ready o wr op).
Proof.
  intros w. unfold _retry_until_ready. apply wp_bind.
  eapply wp_mono; [apply check_non_blocking_clean|intros _ w1 _|done]. apply wp_bind, wp_gets.
  destruct (w_socks w1 !! o ≫= ps_fd) as [f|]; [apply retry_ready_clean|apply retry_closed_clean].
Qed.
End clean.

Section sendall_real.
Context `{KR : KernelReal} `{IO : SockIO} (o : oid) `{SO : !SendOk o}.
Lemma sendall_loop_real fuel d : (length d ≤ fuel)%nat → raises real (sendall_loop fuel o d).
Proof.
  revert d. induction fuel as [|fuel IH]; intros d Hl w.
  { destruct d; [by apply wp_ret|cbn in Hl; lia]. }
  destruct d as [|b d']; [by apply wp_ret|]. cbn [sendall_loop]. apply wp_bind.
  pose proof (wp_retry_until_ready (sent_same o) (λ w', sent o w' = sent o w)
    (λ n w', (0 < n)%nat ∧ sent o w' = sent o w ++ take n (b :: d')) (send_sys o (b :: d'))) as Hr.
  eapply wp_mono; [apply wp_and; [apply Hr|apply (retry_until_ready_clean real _ (send_sys_clean real o (b :: d')) o true)]|..].
  - intros w1 H1. by apply wp_send_sys.
  - intros w1 w2 H12 H1. red in H12. congruence.
  - intros n w1 w2 H12 [Hn H1]. red in H12. split; [done|congruence].
  - done.
  - intros n w1 [[Hn _] _]. apply IH. rewrite length_drop. cbn in *. lia.
  - by intros e w1 [_ He].
Qed.
End sendall_real.

(** C13: [sock_sendall] hands the kernel exactly the buffer, in order, whatever the sizes of the
    partial sends and however often it waits; when it fails, what was sent is a prefix and
    the exception is one of the program's: the loop never exhausts its bound. *)
Theorem sock_sendall_exact `{KR : KernelReal} `{IO : SockIO} o `{SO : !SendOk o} data w :
  wp (sock_sendall o data) (λ _ w', sent o w' = sent o w ++ data)
     (λ e w', (∃ n, (n ≤ length data)%nat ∧ sent o w' = sent o w ++ take n data) ∧ exn_cls e ≠ ModelFuel) w.
Proof.
  eapply wp_mono; [apply wp_and; [by apply wp_sendall_loop|by apply sendall_loop_real]| |done].
  by intros a w' [H _].
Qed.

(** ** The theorems above at concrete inputs *)
Definition byte_io : SockIO := {|
  rx := λ _, []; rx_addr := λ _, AOther; tx := λ _ _, 2%nat; so_error := λ _, 0 |}.
Lemma steady_send ws infos o : SendOk (K := steady ws infos) (IO := byte_io) o.
Proof. split; [done|]. intros t d _. cbn. lia. Qed.
Lemma steady_watch ws infos f wr : WatchOk (K := steady ws infos) f wr.
Proof. split. by intros t w H. Qed.

Lemma sock_sendall_exact_witness :
  let data := [Byte.x61; Byte.x62; Byte.x63] in
  wp (sock_sendall (K := steady [] []) (IO := byte_io) 0 data)
    (λ _ w', sent 0 w' = sent 0 (one_socket AF_INET false) ++ data)
    (λ e w', (∃ n, (n ≤ 3)%nat ∧ sent 0 w' = sent 0 (one_socket AF_INET false) ++ take n data) ∧
             exn_cls e ≠ ModelFuel) (one_socket AF_INET false).
Proof.
  apply (sock_sendall_exact (KR := kernel_real (K := steady [] [])) 0 (SO := steady_send [] [] 0)).
Defined.

Lemma wait_ready_cleans_witness :
  wp (wait_ready (K := steady [WReady] []) 3 false 7 (ret (Some (Ok tt))))
    (λ _, gone 3 false 7) (λ _, gone 3 false 7) (one_socket AF_INET false).
Proof.
  apply (wait_ready_cleans (K := steady [WReady] []) 3 false (WO := steady_watch [WReady] [] 3 false)).
  - intros w. apply wp_ret. by intros H.
  - reflexivity.
Defined.
