(* ===== verification/Sendfile.v ===== *)
(** * Sending files (zuvloop/_sendfile.py)

    [sock_sendfile] and what it is made of: [os.sendfile] straight to the descriptor, and
    reads copied through [sock_sendall] where that is not available.  Proved: which bytes of
    the file reach the socket, the count returned, and where the file's position ends. *)
From S2P Require Import Prelude World Checks Sockets.

Definition _SOCKET_CHUNK : nat := N.to_nat (256 * 1024).
Definition _TRANSPORT_CHUNK : nat := N.to_nat (16 * 1024).

Definition ENOTCONN (p : platform) : Z :=
  match p with Linux => 107 | Darwin => 57 | SunOS => 134 | Aix => 76 | Win32 => 10057 end.

(** ** Sources *)

(** What the [fileno] attribute of a source is or does. *)
Inductive fileno_attr := NoFileno | FilenoRaises (e : exn) | FilenoNotInt | Fileno.

(** A source: [src_id] identifies the open file its position belongs to, [src_bytes] is
    what the file holds and [src_size] what [fstat] says of it. *)
Record source := Source {
  src_id : nat; src_mode : option string; src_fileno : fileno_attr; src_seekable : bool;
  src_bytes : list Byte.byte; src_size : nat }.

(** How much one [read] of a source returns when more is there. *)
Class FileIO := { rd : nat → nat → nat }.

Definition unavailable (m : string) : exn := mk SendfileNotAvailableError m.

Section sendfile.
Context `{K : Kernel} `{IO : SockIO} `{FIO : FileIO}.

Definition pos (src : source) (w : world) : nat := default 0%nat (w_pos w !! src_id src).
Definition move (src : source) (n : nat) : M world unit := modify (set_pos (<[src_id src := n]>)).
(** [os.lseek] and [file.seek]. *)
Definition seek (src : source) (n : nat) : M world unit := sys ;; move src n.

(** [file.read(n)]. *)
Definition file_read (src : source) (n : nat) : M world (list Byte.byte) :=
  sys ;; t <- tick ;; p <- gets (pos src) ;;
  let d := take (rd t n) (take n (drop p (src_bytes src))) in
  move src (p + length d)%nat ;; ret d.

(** [await self.run_in_executor(None, f)]: [f] runs while everybody else does, and how it
    ended is the future's outcome - unless the task is cancelled meanwhile. *)
Definition in_executor {A} (f : M world A) : M world A :=
  sys ;; yield_ ;; r <- capture f ;; await_ ;; of_res r.

Definition _regular_fileno (src : source) : M world unit :=
  catch (match src_fileno src with
         | NoFileno => raise (mk AttributeError "sendfile source has no file descriptor")
         | FilenoRaises e => raise e
         | FilenoNotInt => raise (mk TypeError "sendfile source returned a non-integer file descriptor")
         | Fileno => sys
         end)
    (λ e, if isinstance e AttributeError || isinstance e OSError
          then raise (unavailable "not a regular file") else raise e).

(** [os.sendfile(fd, fileno, offset, blocksize)], where [fd] names the socket [o]; [None]
    stands for -1. *)
Definition os_sendfile (o : oid) (fd_ : option fd) (src : source) (offset blocksize : nat) : M world nat :=
  match fd_ with
  | None => raise (oserror 9 "Bad file descriptor")
  | Some _ =>
      sys ;; t <- tick ;;
      let chunk := take blocksize (drop offset (src_bytes src)) in
      let d := take (tx t chunk) chunk in
      log (EvSend o d) ;; ret (length d)
  end.

(** [_retry_ready(fd, True, op)] where -1 cannot be watched. *)
Definition retry_on {A} (fd_ : option fd) (op : M world A) : M world A :=
  match fd_ with
  | Some f => _retry_ready f true op
  | None => r <- _attempt op ;; match r with Some r => of_res r | None => refuse_fd end
  end.

(** What a failed [os.sendfile] raises once [total] bytes are out. *)
Definition sendfile_failed (total : nat) (e : exn) : exn :=
  if isinstance e OSError then
    if Nat.eqb total 0 then unavailable "os.sendfile call failed"
    else if bool_decide (exn_errno e = Some (ENOTCONN plat)) && negb (isinstance e ConnectionError)
         then mk ConnectionError "socket is not connected"
    else e
  else e.

(** The loop [while blocksize > 0]: how it ended, with [offset] and [total_sent] then. *)
Fixpoint sendfile_loop (fuel : nat) (o : oid) (fd_ : option fd) (src : source) (count : option nat)
    (offset total blocksize : nat) : M world (res unit * (nat * nat)) :=
  match blocksize, fuel with
  | O, _ => ret (Ok tt, (offset, total))
  | _, O => ret (Raise (mk ModelFuel ""), (offset, total))
  | _, S fuel' =>
      r <- capture (retry_on fd_ (os_sendfile o fd_ src offset blocksize)) ;;
      match r with
      | Raise e => ret (Raise (sendfile_failed total e), (offset, total))
      | Ok O => ret (Ok tt, (offset, total))
      | Ok sent =>
          sendfile_loop fuel' o fd_ src count (offset + sent) (total + sent)
            (match count with Some c => c - (total + sent) | None => blocksize end)
      end
  end%nat.

(** Every round but the last sends at least one byte of the file. *)
Definition sendfile_fuel (src : source) : nat := S (length (src_bytes src)).

Definition _sendfile_to_fd (o : oid) (fd_ : option fd) (src : source) (offset : nat)
    (count : option nat) (checked : bool) : M world nat :=
  when_ (negb checked) (_regular_fileno src) ;;
  if is_win32 plat then raise (unavailable "os.sendfile is not available on Windows") else
  blocksize <- match count with Some c => ret c | None => sys ;; ret (src_size src) end ;;
  r <- sendfile_loop (sendfile_fuel src) o fd_ src count offset 0 blocksize ;;
  let '(r, (offset, total)) := r in
  when_ (Nat.ltb 0 total) (seek src offset) ;;
  match r with Ok _ => ret total | Raise e => raise e end.

(** [if offset: ...]: the source must be seekable when there is somewhere to go. *)
Definition seek_start (src : source) (offset : nat) : M world unit :=
  when_ (negb (Nat.eqb offset 0))
    (if src_seekable src then seek src offset
     else raise (mk AttributeError "sendfile source does not support seek")).

(** [blocksize] of the copying loops. *)
Definition copy_block (chunk : nat) (count : option nat) (total : nat) : nat :=
  match count with Some c => Nat.min (c - total) chunk | None => chunk end.

(** The copying loop of both fallbacks, where [put] hands over what was read: how it ended,
    with [total_sent] then. *)
Fixpoint copy_loop (fuel : nat) (put : list Byte.byte → M world unit) (src : source)
    (chunk : nat) (count : option nat) (total : nat) : M world (res unit * nat) :=
  match copy_block chunk count total, fuel with
  | O, _ => ret (Ok tt, total)
  | _, O => ret (Raise (mk ModelFuel ""), total)
  | blocksize, S fuel' =>
      r <- capture (in_executor (file_read src blocksize)) ;;
      match r with
      | Raise e => ret (Raise e, total)
      | Ok [] => ret (Ok tt, total)
      | Ok data =>
          r <- capture (put data) ;;
          match r with
          | Raise e => ret (Raise e, total)
          | Ok _ => copy_loop fuel' put src chunk count (total + length data)
          end
      end
  end%nat.

(** The [finally] of both fallbacks, as far as the file goes. *)
Definition seek_end (src : source) (offset total : nat) : M world unit :=
  when_ (Nat.ltb 0 total && src_seekable src) (seek src (offset + total)).

Definition _sock_sendfile_fallback (o : oid) (src : source) (offset : nat) (count : option nat)
    : M world nat :=
  seek_start src offset ;;
  r <- copy_loop (sendfile_fuel src) (sock_sendall o) src _SOCKET_CHUNK count 0 ;;
  let '(r, total) := r in
  seek_end src offset total ;;
  match r with Ok _ => ret total | Raise e => raise e end.

Definition pynum_nat (n : pynum) : nat := match n with PInt z => Z.to_nat z | PNotInt => 0%nat end.

Definition sock_sendfile (is_ssl : bool) (o : oid) (src : source) (offset : pynum)
    (count : option pynum) (fallback : bool) : M world nat :=
  check_non_blocking o ;; s <- get_sock o ;;
  of_res (_check_sendfile_params is_ssl s (src_mode src) offset count) ;;
  f <- fileno o ;;
  let off := pynum_nat offset in let cnt := pynum_nat <$> count in
  r <- catch (n <- _sendfile_to_fd o f src off cnt false ;; ret (Some n))
         (λ e, if isinstance e SendfileNotAvailableError then
                 if fallback then ret None else raise e
               else raise e) ;;
  match r with
  | Some n => ret n
  | None => _sock_sendfile_fallback o src off cnt
  end.
End sendfile.

(** ** What may be relied on *)

(** While [G] holds, nobody else sends on the socket or moves the file, and [G] goes on holding;
    it does not depend on what the socket code keeps.  A read or a send that has something to
    pass on makes progress, and no system call raises asyncio's own exception. *)
Class SendfileOk `{K : Kernel} `{IO : SockIO} `{FIO : FileIO} (o : oid) (src : source)
    (G : world → Prop) := {
  fileno_real : ∀ e, src_fileno src = FilenoRaises e → exn_cls e ≠ ModelFuel;
  still_private : ∀ t w, G w → G (intf t w) ∧ sent o (intf t w) = sent o w ∧ pos src (intf t w) = pos src w;
  guard_frame : ∀ w w', w_flows w' = w_flows w → w_trans w' = w_trans w → w_sps w' = w_sps w →
    w_futs w' = w_futs w → (w_next w ≤ w_next w')%nat → G w → G w';
  send_progress : ∀ t d, d ≠ [] → (0 < tx t d)%nat;
  rd_progress : ∀ t n, (0 < rd t n)%nat;
  fails_native : ∀ t e, fails t = Some e → exn_cls e ≠ SendfileNotAvailableError }.

(** Neither the model's marker nor the request to fall back. *)
Definition plain (e : exn) : Prop := real e ∧ exn_cls e ≠ SendfileNotAvailableError.

Section rely.
Context `{K : Kernel} `{IO : SockIO} `{FIO : FileIO} (o : oid) (src : source) (G : world → Prop).

(** Neither the socket nor the file is touched. *)
Definition still (w w' : world) : Prop :=
  G w → G w' ∧ sent o w' = sent o w ∧ pos src w' = pos src w.
#[export] Instance still_preorder : PreOrder still.
Proof.
  split; [done|]. intros x y z H1 H2 Hx. destruct (H1 Hx) as (Hy & H3 & H4).
  destruct (H2 Hy) as (Hz & H5 & H6). split; [done|]. split; congruence.
Qed.

Context `{SO : !SendfileOk o src G}.
Lemma still_frame w w' : w_flows w' = w_flows w → w_trans w' = w_trans w → w_sps w' = w_sps w →
  w_futs w' = w_futs w → (w_next w ≤ w_next w')%nat → w_pos w' = w_pos w → sent o w' = sent o w →
  still w w'.
Proof.
  intros H1 H2 H3 H4 Hn H5 H6 Hw. split; [by eapply guard_frame|]. split; [done|]. unfold pos. by rewrite H5.
Qed.
#[export] Instance still_plumbing : Plumbing still.
Proof.
  split; try (intros; by (apply still_frame; try done; cbn; lia)); try apply _.
  - intros [] f w; by apply still_frame.
  - intros s e w. apply still_frame; try done. rewrite sent_log. cbn. apply app_nil_r.
  - intros s w. apply still_frame; try done. rewrite sent_log. cbn. apply app_nil_r.
  - intros t w Hw. by apply still_private.
Qed.

Context `{KR : !KernelReal K}.
Lemma plain_clean : Clean plain.
Proof.
  split.
  - intros t e H. split; [by eapply fails_real|by eapply (fails_native (o:=o) (src:=src) (G:=G))].
  - intros [c n m g] H. unfold plain, real. cbn in *. set_solver.
Qed.
End rely.

Section sendfile_proofs.
Context `{KR : KernelReal} `{IO : SockIO} `{FIO : FileIO} (o : oid) (src : source)
  (G : world → Prop) `{SO : !SendfileOk o src G}.
Abbreviation bytes := (src_bytes src).

(** The guard holds, the socket has been sent [s], and the file is at [p]. *)
Definition at_ (s : list Byte.byte) (p : nat) (w : world) : Prop := G w ∧ sent o w = s ∧ pos src w = p.

Lemma at_still s p w w' : still o src G w w' → at_ s p w → at_ s p w'.
Proof. intros H (Hg & <- & <-). by destruct (H Hg). Qed.

Lemma wp_os_sendfile fd_ offset n s p w : at_ s p w →
  wp (os_sendfile o fd_ src offset n)
    (λ k w', at_ (s ++ take k (drop offset bytes)) p w' ∧ (k ≤ n)%nat ∧
       (k ≤ length bytes - offset)%nat ∧ (0 < n → offset < length bytes → 0 < k)%nat)
    (λ _, at_ s p) w.
Proof.
  intros Hw. unfold os_sendfile. destruct fd_ as [f|]; [|by apply wp_raise].
  apply wp_bind, (wp_stable (still o src G)); [apply plumb_sys_stable; apply _| |by eauto using at_still].
  intros _ w1 H1. pose proof (at_still _ _ _ _ H1 Hw) as Hw1. unfold tick, log. wp_go.
  set (chunk := take n (drop offset bytes)). pose proof (send_progress (o:=o) (src:=src) (G:=G) (w_tick w1) chunk) as Hp.
  assert (Hlen : length (take (tx (w_tick w1) chunk) chunk) = Nat.min (tx (w_tick w1) chunk) (Nat.min n (length bytes - offset))).
  { by rewrite length_take; unfold chunk; rewrite length_take, length_drop. }
  rewrite !Hlen. destruct Hw1 as (Hg & Hs & Hps). repeat split; [| | |lia..|].
  - by eapply guard_frame; [..|exact Hg].
  - rewrite sent_log. unfold sent_of. rewrite decide_True by done.
    change (sent o (set_tick S w1)) with (sent o w1). rewrite Hs. f_equal.
    unfold chunk. rewrite take_take, Nat.min_assoc, <-length_drop. symmetry. apply take_min_length.
  - done.
  - intros Hn Ho. assert (Hc : chunk ≠ []).
    { intros Hc. assert (length chunk = 0%nat) by (by rewrite Hc).
      unfold chunk in *. rewrite length_take, length_drop in *. lia. }
    specialize (Hp Hc). lia.
Qed.

(** ** What is due *)

(** The part of the file from [offset] on that a call for [count] bytes has still to send
    when [total] are out. *)
Definition limit (count : option nat) (total : nat) : nat :=
  match count with Some c => c - total | None => length bytes end%nat.
Definition due (count : option nat) (offset total : nat) : list Byte.byte :=
  take (limit count total) (drop offset bytes).

Lemma due_length count offset total :
  length (due count offset total) = Nat.min (limit count total) (length bytes - offset).
Proof. unfold due. by rewrite length_take, length_drop. Qed.

Lemma due_step count offset total k :
  (k ≤ limit count total)%nat →
  take k (drop offset bytes) ++ due count (offset + k) (total + k) = due count offset total.
Proof.
  intros H. unfold due, limit in *. rewrite <-drop_drop. destruct count as [c|].
  - rewrite drop_take_app. f_equal. lia.
  - rewrite (take_ge (drop k _)) by (rewrite !length_drop; lia). rewrite take_drop.
    by rewrite take_ge by (rewrite length_drop; lia).
Qed.

Lemma due_nil count offset total : (length bytes ≤ offset)%nat → due count offset total = [].
Proof. intros H. unfold due. by rewrite drop_ge, take_nil by done. Qed.

(** A first part [m] of what is due at [offset + k], after the [k] bytes before it. *)
Lemma due_take count offset total k m :
  (k ≤ limit count total)%nat → (k ≤ length bytes - offset)%nat →
  take k (drop offset bytes) ++ take m (due count (offset + k) (total + k)) =
  take (k + m) (due count offset total).
Proof.
  intros H1 H2. rewrite <-(due_step _ _ _ k H1).
  assert (Hl : length (take k (drop offset bytes)) = k) by (rewrite length_take, length_drop; lia).
  rewrite take_app, (take_ge (take k _)) by (rewrite Hl; lia). rewrite Hl. do 2 f_equal. lia.
Qed.

(** ** [os.sendfile] to the descriptor *)
Lemma os_sendfile_clean fd_ offset n : raises plain (os_sendfile o fd_ src offset n).
Proof.
  pose proof (plain_clean o src G). unfold os_sendfile. destruct fd_ as [f|].
  - apply raises_bind; [by apply sys_clean|]. unfold log, tick. solve_raises.
  - apply raises_raise, clean_own. cbn. set_solver.
Qed.

Lemma wp_retry_on fd_ offset n s p w : at_ s p w →
  wp (retry_on fd_ (os_sendfile o fd_ src offset n))
    (λ k w', at_ (s ++ take k (drop offset bytes)) p w' ∧ (k ≤ n)%nat ∧
       (k ≤ length bytes - offset)%nat ∧ (0 < n → offset < length bytes → 0 < k)%nat)
    (λ e w', plain e ∧ (at_ s p w' ∨ e = cancelled ∧ ∃ k,
       at_ (s ++ take k (drop offset bytes)) p w' ∧ (k ≤ n)%nat ∧ (k ≤ length bytes - offset)%nat)) w.
Proof.
  intros Hw. pose proof (plain_clean o src G) as Hc. pose proof (os_sendfile_clean fd_ offset n) as Hr.
  set (D := λ k w', at_ (s ++ take k (drop offset bytes)) p w' ∧ (k ≤ n)%nat ∧
    (k ≤ length bytes - offset)%nat ∧ (0 < n → offset < length bytes → 0 < k)%nat).
  assert (wp (retry_on fd_ (os_sendfile o fd_ src offset n)) (λ k w', D k w' ∧ True)
    (λ e w', (at_ s p w' ∨ e = cancelled ∧ ∃ a, D a w') ∧ plain e) w) as H.
  { apply wp_and.
    - assert (H1 : ∀ w', at_ s p w' → wp (os_sendfile o fd_ src offset n) D (λ _, at_ s p) w')
        by (intros; by apply wp_os_sendfile).
      assert (H2 : ∀ a w1 w2, still o src G w1 w2 → D a w1 → D a w2).
      { intros a w1 w2 H12 [Ha Hb]. split; [by eapply at_still|done]. }
      assert (H3 : ∀ w1 w2, still o src G w1 w2 → at_ s p w1 → at_ s p w2) by (intros; by eapply at_still).
      unfold retry_on. destruct fd_ as [f|];
        [by apply (wp_retry_ready (still o src G))|by apply (wp_retry_closed (at_ s p) D)].
    - unfold retry_on. destruct fd_ as [f|]; [by apply retry_ready_clean|by apply retry_closed_clean]. }
  eapply wp_mono; [exact H|by intros a w' [? _]|].
  intros e w' [[H1|(-> & k & H1 & H2 & H3 & _)] H4]; eauto 10.
Qed.

Lemma sendfile_failed_spec total e : plain e →
  real (sendfile_failed total e) ∧
  (exn_cls (sendfile_failed total e) = SendfileNotAvailableError → total = 0%nat ∧ e ≠ cancelled).
Proof.
  intros [H1 H2]. unfold sendfile_failed. destruct (isinstance e OSError) eqn:He; [|by split].
  destruct (Nat.eqb_spec total 0); [split; [done|]; intros _; split; [done|by intros ->]|].
  destruct (_ && _); by split.
Qed.

Definition block_ok (count : option nat) (total blocksize : nat) : Prop :=
  match count with Some c => blocksize = (c - total)%nat | None => (0 < blocksize)%nat end.
Lemma block_limit count total bs k :
  block_ok count total bs → (k ≤ bs)%nat → (k ≤ length bytes)%nat → (k ≤ limit count total)%nat.
Proof. unfold block_ok, limit. destruct count; lia. Qed.

Lemma wp_sendfile_loop count p fuel fd_ offset total bs s w :
  (length bytes - offset < fuel)%nat → block_ok count total bs → at_ s p w →
  wp (sendfile_loop fuel o fd_ src count offset total bs)
    (λ r w', ∃ k, r.2 = (offset + k, total + k)%nat ∧
      match r.1 with
      | Ok _ => k = length (due count offset total) ∧ at_ (s ++ due count offset total) p w'
      | Raise e => real e ∧ ∃ m, (k ≤ m ≤ length (due count offset total))%nat ∧
          at_ (s ++ take m (due count offset total)) p w' ∧
          (exn_cls e = SendfileNotAvailableError → m = 0%nat ∧ total = 0%nat)
      end) (λ _ _, False) w.
Proof.
  revert offset total bs s w. induction fuel as [|fuel IH]; intros offset total bs s w Hf Hb Hw; [lia|].
  destruct bs as [|bs0]; [|set (bs := S bs0) in *]; cbn [sendfile_loop].
  { apply wp_ret. exists 0%nat. rewrite !Nat.add_0_r. split; [done|]. cbn.
    assert (due count offset total = []) as ->; [|by rewrite app_nil_r].
    unfold due, limit. destruct count as [c|]; cbn in Hb; [by rewrite <-Hb|lia]. }
  change (match bs with O => _ | S _ => ?x end) with x. apply wp_bind, wp_capture.
  eapply wp_mono; [by apply wp_retry_on|..].
  - intros k w1 (H1 & Hk1 & Hk2 & Hk3). destruct (decide (k = 0)%nat) as [->|Hk].
    { apply wp_ret. exists 0%nat. rewrite !Nat.add_0_r. split; [done|]. cbn.
      rewrite due_nil by lia. done. }
    assert (Hl : (k ≤ limit count total)%nat) by (eapply block_limit; [done..|lia]).
    destruct k as [|k0]; [done|set (k := S k0) in *]. change (match k with O => _ | S _ => ?x end) with x.
    eapply wp_mono; [eapply (IH (offset + k)%nat (total + k)%nat); [lia| |exact H1]|..|done].
    { destruct count; cbn in *; [done|lia]. }
    intros [r [off' tot']] w2 (j & [= -> ->] & H2). exists (k + j)%nat. cbn [fst snd] in *.
    split; [f_equal; lia|]. pose proof (due_length count offset total) as Hd.
    pose proof (due_length count (offset + k) (total + k)) as Hd'.
    assert (length (due count offset total) = (k + length (due count (offset + k) (total + k)))%nat) as Hdd.
    { rewrite <-(due_step _ _ _ _ Hl), length_app, length_take, length_drop. lia. }
    destruct r as [u|e]; cbn in *.
    + destruct H2 as [-> H2]. rewrite <-app_assoc, due_step in H2 by done. split; [lia|done].
    + destruct H2 as (Hr & m & Hm & H2 & H3). split; [done|]. exists (k + m)%nat.
      rewrite <-app_assoc, due_take in H2 by lia. split; [lia|]. split; [done|].
      intros He. destruct (H3 He). lia.
  - intros e w1 [Hp H1]. apply wp_ret. exists 0%nat. rewrite !Nat.add_0_r. split; [done|]. cbn.
    destruct (sendfile_failed_spec total e Hp) as [Hr Hs]. split; [done|].
    destruct H1 as [H1|(-> & k & H1 & Hk1 & Hk2)].
    + exists 0%nat. rewrite take_0, app_nil_r. split; [lia|]. split; [done|]. intros He. by destruct (Hs He).
    + assert (Hl : (k ≤ limit count total)%nat) by (eapply block_limit; [done..|lia]).
      exists k. split; [rewrite due_length; lia|]. split; [|intros He; by destruct (Hs He)].
      unfold due. rewrite take_take, Nat.min_l by done. done.
Qed.

(** A step that leaves the socket and the file alone, in front of the rest. *)
Lemma wp_quiet {A} (m : M world A) s p (Q : A → world → Prop) E w :
  stable (still o src G) m → raises plain m → at_ s p w →
  (∀ a w', at_ s p w' → Q a w') → (∀ e w', plain e → at_ s p w' → E e w') → wp m Q E w.
Proof.
  intros H1 H2 Hw HQ HE. eapply wp_mono; [apply (wp_and _ _ _ _ _ _ (H1 w) (H2 w))|..];
    [intros a w' [? _]|intros e w' [? ?]]; eauto using at_still.
Qed.

Lemma sys_plain : raises plain sys.
Proof. pose proof (plain_clean o src G). by apply sys_clean. Qed.

Lemma wp_still_sys s p (Q : unit → world → Prop) E w : at_ s p w →
  (∀ w', at_ s p w' → Q tt w') → (∀ e w', plain e → at_ s p w' → E e w') → wp sys Q E w.
Proof.
  intros Hw HQ HE. eapply wp_quiet; [apply plumb_sys_stable; apply _|apply sys_plain|done| |done].
  by intros [].
Qed.

(** Moving the file, or failing to. *)
Lemma wp_seek n s p (Q : unit → world → Prop) E w : at_ s p w →
  (∀ w', at_ s n w' → Q tt w') → (∀ e w', plain e → at_ s p w' → E e w') → wp (seek src n) Q E w.
Proof.
  intros Hw HQ HE. unfold seek, move. apply wp_bind. eapply wp_still_sys; [done| |done].
  intros w1 (H0 & H1 & _). apply wp_modify, HQ. split; [by eapply guard_frame; [..|exact H0]|].
  split; [done|]. unfold pos. cbn. by rewrite lookup_insert_eq.
Qed.

Lemma wp_regular_fileno s p (Q : unit → world → Prop) E w : at_ s p w →
  (∀ w', at_ s p w' → Q tt w') → (∀ e w', real e → at_ s p w' → E e w') →
  wp (_regular_fileno src) Q E w.
Proof.
  intros Hw HQ HE. unfold _regular_fileno. apply wp_catch.
  assert (Hh : ∀ e w', real e → at_ s p w' →
    wp (if isinstance e AttributeError || isinstance e OSError
        then raise (unavailable "not a regular file") else raise e) Q E w').
  { intros e w' He Hw'. destruct (_ || _); apply wp_raise; by apply HE. }
  destruct (src_fileno src) as [|e| |] eqn:Hf; try (apply wp_raise, Hh; [|done]; try done).
  - by apply fileno_real.
  - eapply wp_still_sys; [done|done|]. intros e w' [He _]. by apply Hh.
Qed.

(** The descriptor path: all that is due is sent and the file is left behind it, or a first
    part is and the exception says so; asking to fall back, nothing has been sent. *)
Lemma wp_sendfile_to_fd fd_ offset count checked s p w :
  (count = None → src_size src = length bytes) → at_ s p w →
  wp (_sendfile_to_fd o fd_ src offset count checked)
    (λ n w', let d := due count offset 0 in
       n = length d ∧ at_ (s ++ d) (if Nat.ltb 0 n then offset + n else p)%nat w')
    (λ e w', real e ∧ (exn_cls e = SendfileNotAvailableError → at_ s p w') ∧
       ∃ m q, (m ≤ length (due count offset 0))%nat ∧ at_ (s ++ take m (due count offset 0)) q w') w.
Proof.
  intros Hsz Hw. unfold _sendfile_to_fd.
  assert (HE : ∀ e w', real e → at_ s p w' → real e ∧ (exn_cls e = SendfileNotAvailableError → at_ s p w') ∧
    ∃ m q, (m ≤ length (due count offset 0))%nat ∧ at_ (s ++ take m (due count offset 0)) q w').
  { intros e w' He Hw'. split; [done|]. split; [done|]. exists 0%nat, p. rewrite take_0, app_nil_r.
    split; [lia|apply Hw']. }
  apply wp_bind. eapply (wp_mono _ (λ _, at_ s p) _ (λ e w', real e ∧ at_ s p w'));
    [|intros _ w1 Hw1|intros e w1 [He Hw1]; by apply HE].
  { destruct checked; [by apply wp_ret|]. by apply (wp_regular_fileno s p). }
  destruct (is_win32 plat); [apply wp_raise; by apply HE|]. apply wp_bind.
  eapply (wp_mono _ (λ bs w', at_ s p w' ∧ (block_ok count 0 bs ∨ bs = 0%nat ∧ due count offset 0 = [])) _
    (λ e w', real e ∧ at_ s p w')); [|intros bs w2 [Hw2 Hbs]|intros e w2 [He Hw2]; by apply HE].
  { destruct count as [c|]; [apply wp_ret; split; [done|]; left; cbn; lia|]. apply wp_bind.
    eapply wp_still_sys; [done| |by intros e w' [He _] Hw'].
    intros w2 Hw2. apply wp_ret. split; [done|]. rewrite Hsz by done.
    destruct bytes eqn:Hd; [right; split; [done|]|left; cbn; lia].
    apply due_nil. rewrite Hd. cbn. lia. }
  apply wp_bind.
  apply (wp_mono _ (λ r w', ∃ k, r.2 = (offset + k, k)%nat ∧
      match r.1 with
      | Ok _ => k = length (due count offset 0) ∧ at_ (s ++ due count offset 0) p w'
      | Raise e => real e ∧ ∃ m, (k ≤ m ≤ length (due count offset 0))%nat ∧
          at_ (s ++ take m (due count offset 0)) p w' ∧
          (exn_cls e = SendfileNotAvailableError → m = 0%nat ∧ 0%nat = 0%nat)
      end) _ (λ _ _, False)); [|intros [r [off tot]] w3 (k & [= -> ->] & H3)|done].
  { destruct Hbs as [Hbs|[-> Hd]].
    - apply (wp_sendfile_loop count p); [unfold sendfile_fuel; lia|done|done].
    - apply wp_ret. exists 0%nat. cbn. rewrite Nat.add_0_r, Hd, app_nil_r. done. }
  cbn [fst snd] in H3. apply wp_bind, wp_when.
  - intros Hk%Nat.ltb_lt. destruct r as [[]|e].
    + destruct H3 as [Hk' H3]. eapply wp_seek; [done| |].
      * intros w4 H4. apply wp_ret. split; [done|]. by rewrite (proj2 (Nat.ltb_lt 0 k) Hk).
      * intros e w4 [He Hs] H4. split; [done|]. split; [done|].
        exists k, p. split; [lia|]. rewrite take_ge by lia. apply H4.
    + destruct H3 as (He & m & Hm & H3 & Hf). eapply wp_seek; [done|intros w4 H4; apply wp_raise|].
      * split; [done|]. split; [intros Hc; destruct (Hf Hc); lia|]. eexists m, _. split; [lia|apply H4].
      * intros e' w4 [He' Hs] H4. split; [done|]. split; [done|]. eexists m, _. split; [lia|apply H4].
  - intros Hk%Nat.ltb_ge. assert (k = 0%nat) as -> by lia. destruct r as [[]|e].
    + destruct H3 as [Hk' H3]. by apply wp_ret.
    + destruct H3 as (He & m & Hm & H3 & Hf). apply wp_raise. split; [done|]. split.
      * intros Hc. destruct (Hf Hc) as [-> _]. by rewrite take_0, app_nil_r in H3.
      * exists m, p. split; [lia|apply H3].
Qed.
End sendfile_proofs.

(** ** Copying what is read

    [out] is what has been handed over so far, [put] hands over one more piece: it passes all
    of it on and leaves the file alone, or fails with a first part passed on. *)
Section copy.
Context `{KR : KernelReal} `{IO : SockIO} `{FIO : FileIO} (src : source)
  (rd_pos : ∀ t n, (0 < rd t n)%nat)
  (G : world → Prop) (out : world → list Byte.byte) (put : list Byte.byte → M world unit)
  (Rl : relation world) `{PL : !Plumbing Rl}.
Abbreviation bytes := (src_bytes src).

Definition out_at (s : list Byte.byte) (p : nat) (w : world) : Prop :=
  G w ∧ out w = s ∧ pos src w = p.
Hypothesis Rl_out : ∀ s p w w', Rl w w' → out_at s p w → out_at s p w'.
Hypothesis out_move : ∀ f w, G w → G (set_pos f w) ∧ out (set_pos f w) = out w.
Hypothesis put_spec : ∀ d s p w, out_at s p w →
  wp (put d) (λ _, out_at (s ++ d) p)
     (λ e w', real e ∧ ∃ m q, (m ≤ length d)%nat ∧ out_at (s ++ take m d) q w') w.

(** A step of the plumbing that raises nothing odd. *)
Lemma wp_plumb {A} (m : M world A) s p (Q : A → world → Prop) E w :
  stable Rl m → raises real m → out_at s p w →
  (∀ a w', out_at s p w' → Q a w') → (∀ e w', real e → out_at s p w' → E e w') → wp m Q E w.
Proof.
  intros H1 H2 Hw HQ HE. eapply wp_mono; [apply (wp_and _ _ _ _ _ _ (H1 w) (H2 w))|..];
    [intros a w' [? _]|intros e w' [? ?]]; eauto.
Qed.

Lemma wp_move_to n s p (Q : unit → world → Prop) E w :
  out_at s p w → (∀ w', out_at s n w' → Q tt w') → wp (move src n) Q E w.
Proof.
  intros (Hg & Hs & _) HQ. unfold move. apply wp_modify, HQ.
  destruct (out_move (<[src_id src := n]>) w Hg) as [Hg' Ho]. split; [done|]. split; [by rewrite Ho|].
  unfold pos. cbn. by rewrite lookup_insert_eq.
Qed.

Lemma wp_seek_to n s p (Q : unit → world → Prop) E w : out_at s p w →
  (∀ w', out_at s n w' → Q tt w') → (∀ e w', real e → out_at s p w' → E e w') → wp (seek src n) Q E w.
Proof.
  intros Hw HQ HE. unfold seek. apply wp_bind.
  eapply wp_plumb; [apply (plumb_sys_stable Rl)|apply sys_clean, _|done| |done].
  intros _ w1 H1. by eapply wp_move_to.
Qed.

(** The piece of [n] bytes or fewer a read from [p] finds: something, unless at the end. *)
Definition piece (p n : nat) (d : list Byte.byte) : Prop :=
  d = take (length d) (drop p bytes) ∧ (length d ≤ n)%nat ∧ (length d ≤ length bytes - p)%nat ∧
  (0 < n → p < length bytes → 0 < length d)%nat.

Lemma wp_file_read n s p w : out_at s p w →
  wp (file_read src n) (λ d w', piece p n d ∧ out_at s (p + length d) w')
     (λ e w', real e ∧ ∃ q, out_at s q w') w.
Proof.
  intros Hw. unfold file_read. apply wp_bind.
  eapply wp_plumb; [apply (plumb_sys_stable Rl)|apply sys_clean, _|done| |by eauto].
  intros _ w1 H1. apply wp_bind.
  eapply wp_plumb; [apply (plumb_tick_stable Rl)|apply total_raises, tick_total|done| |by eauto].
  intros t w2 H2. apply wp_bind, wp_gets. destruct H2 as (Hg & Hs & Hp). rewrite Hp.
  set (d := take (rd t n) _). apply wp_bind. eapply wp_move_to; [done|]. intros w3 H3.
  apply wp_ret. split; [|done]. pose proof (rd_pos t n) as Hr.
  assert (Hl : length d = Nat.min (rd t n) (Nat.min n (length bytes - p))).
  { unfold d. by rewrite !length_take, length_drop. }
  repeat split; [|lia..]. rewrite Hl. unfold d.
  by rewrite Nat.min_assoc, <-length_drop, take_min_length, take_take.
Qed.

Lemma wp_in_executor_read n s p w : out_at s p w →
  wp (in_executor (file_read src n)) (λ d w', piece p n d ∧ out_at s (p + length d) w')
     (λ e w', real e ∧ ∃ q, out_at s q w') w.
Proof.
  intros Hw. unfold in_executor. apply wp_bind.
  eapply wp_plumb; [apply (plumb_sys_stable Rl)|apply sys_clean, _|done| |by eauto].
  intros _ w1 H1. apply wp_bind.
  eapply wp_plumb; [apply (plumb_yield_stable Rl)|apply total_raises, yield_total|done| |by eauto].
  intros _ w2 H2. apply wp_bind, wp_capture. eapply wp_mono; [by apply wp_file_read|..].
  - intros d w3 [Hd H3]. apply wp_bind.
    eapply wp_plumb; [apply (plumb_await_stable Rl)|by apply (await_clean real)|done| |by eauto].
    intros _ w4 H4. by apply wp_of_res; intros ? [= <-].
  - intros e w3 (He & q & H3). apply wp_bind.
    eapply wp_plumb; [apply (plumb_await_stable Rl)|by apply (await_clean real)|exact H3| |by eauto].
    intros _ w4 H4. apply wp_of_res; [done|intros ? [= <-]; by eauto].
Qed.

Lemma wp_copy_loop count chunk fuel total s p w :
  (0 < chunk)%nat → (length bytes - p < fuel)%nat → out_at s p w →
  wp (copy_loop fuel put src chunk count total)
    (λ r w', ∃ k, r.2 = (total + k)%nat ∧
      match r.1 with
      | Ok _ => k = length (due src count p total) ∧ out_at (s ++ due src count p total) (p + k) w'
      | Raise e => real e ∧ ∃ m q, (m ≤ length (due src count p total))%nat ∧
          out_at (s ++ take m (due src count p total)) q w'
      end) (λ _ _, False) w.
Proof.
  intros Hc. revert total s p w. induction fuel as [|fuel IH]; intros total s p w Hf Hw; [lia|].
  cbn [copy_loop]. destruct (copy_block chunk count total) as [|n0] eqn:Hn; [|set (n := S n0) in *].
  { apply wp_ret. exists 0%nat. rewrite !Nat.add_0_r. split; [done|]. cbn.
    assert (due src count p total = []) as ->; [|by rewrite app_nil_r].
    unfold due, limit, copy_block in *. destruct count as [c|]; [|lia].
    by replace (c - total)%nat with 0%nat by lia. }
  apply wp_bind, wp_capture. eapply wp_mono; [by apply wp_in_executor_read|..].
  2:{ intros e w1 (He & q & H1). apply wp_ret. exists 0%nat. split; [cbn; lia|]. cbn. split; [done|].
      exists 0%nat, q. rewrite take_0, app_nil_r. split; [lia|done]. }
  intros d w1 [(Hd & Hd1 & Hd2 & Hd3) H1]. destruct (decide (d = [])) as [->|Hne].
  { apply wp_ret. exists 0%nat. cbn [length] in *. unfold n in *.
    rewrite due_nil by lia. cbn. rewrite !Nat.add_0_r, app_nil_r in *. done. }
  assert (Hk : (0 < length d)%nat) by (destruct d; [done|cbn; lia]).
  assert (Hl : (length d ≤ limit src count total)%nat).
  { unfold limit, copy_block in *. destruct count; lia. }
  assert (Happ : d ++ due src count (p + length d) (total + length d) = due src count p total).
  { etrans; [|by apply (due_step src count p total (length d))]. by rewrite <-Hd. }
  assert (Hdd : length (due src count p total) = (length d + length (due src count (p + length d) (total + length d)))%nat).
  { by rewrite <-Happ, length_app. }
  assert (Htk : ∀ m, take (length d + m) (due src count p total) = d ++ take m (due src count (p + length d) (total + length d))).
  { intros m. rewrite <-Happ, take_app, take_ge by lia. do 2 f_equal. lia. }
  clear Hd. replace (match d with [] => _ | _ :: _ => _ end) with
    (r <- capture (put d) ;; match r with
       | Ok _ => copy_loop fuel put src chunk count (total + length d)
       | Raise e => ret (Raise e, total) end) by (by destruct d).
  apply wp_bind, wp_capture. eapply wp_mono; [by apply put_spec|..].
  - intros u w2 H2. eapply wp_mono; [eapply IH; [|exact H2]; lia| |done].
    intros [r tot'] w3 (k & Ht & H3). cbn [fst snd] in *. exists (length d + k)%nat. split; [lia|].
    destruct r as [[]|e].
    + destruct H3 as [-> H3]. rewrite <-app_assoc, Happ in H3. split; [lia|]. by rewrite Nat.add_assoc.
    + destruct H3 as (He & m & q & Hm & H3). split; [done|]. exists (length d + m)%nat, q. split; [lia|].
      by rewrite Htk, app_assoc.
  - intros e w2 (He & m & q & Hm & H2). apply wp_ret. exists 0%nat. split; [cbn; lia|]. cbn. split; [done|].
    exists m, q. split; [lia|]. by rewrite <-Happ, take_app_le by done.
Qed.

(** Where a fallback starts to read: it seeks only to an offset other than zero. *)
Definition starts_at (offset p : nat) : nat := if Nat.eqb offset 0 then p else offset.

Lemma wp_seek_start offset s p w : out_at s p w →
  wp (seek_start src offset) (λ _, out_at s (starts_at offset p))
    (λ e w', real e ∧ ∃ q, out_at s q w') w.
Proof.
  intros Hw. unfold seek_start, starts_at.
  destruct (Nat.eqb_spec offset 0); (apply wp_when; [intros Hb|intros Hb; by try exact Hw]); [done|].
  destruct (src_seekable src); [|apply wp_raise; split; [done|by eauto]].
  eapply wp_seek_to; [exact Hw|done|by eauto].
Qed.

(** What a copy leaves behind, seen by what runs after its last seek. *)
Definition copy_end (offset : nat) (count : option nat) (st : nat) (s : list Byte.byte)
    (r : res unit) (total : nat) (w : world) : Prop :=
  let d := due src count st 0 in
  match r with
  | Ok _ => total = length d ∧
      out_at (s ++ d) (if Nat.ltb 0 total && src_seekable src then offset + total else st + total)%nat w
  | Raise e => real e ∧ ∃ m q, (m ≤ length d)%nat ∧ out_at (s ++ take m d) q w
  end.
Definition copy_failed (count : option nat) (st : nat) (s : list Byte.byte) (e : exn) (w : world) : Prop :=
  let d := due src count st 0 in real e ∧ ∃ m q, (m ≤ length d)%nat ∧ out_at (s ++ take m d) q w.

Lemma wp_copy {A} offset chunk count s st (k : res unit → nat → M world A) Q (E : exn → world → Prop) w :
  (0 < chunk)%nat → out_at s st w →
  (∀ r total w', copy_end offset count st s r total w' → wp (k r total) Q E w') →
  (∀ e w', src_seekable src = true → copy_failed count st s e w' → E e w') →
  wp (r <- copy_loop (sendfile_fuel src) put src chunk count 0 ;;
      let '(r, total) := r in seek_end src offset total ;; k r total) Q E w.
Proof.
  intros Hc Hw Hk HE. set (d := due src count st 0). apply wp_bind. eapply wp_mono.
  { apply (wp_copy_loop count chunk (sendfile_fuel src) 0 s st); [done|unfold sendfile_fuel; lia|exact Hw]. }
  2: done.
  intros [r k'] w2 (n & Hn & H2). cbn [fst snd] in *. subst k'. fold d in H2. apply wp_bind.
  unfold seek_end. change (0 + n)%nat with n. destruct r as [[]|e].
  - destruct H2 as [-> H2]. destruct (Nat.ltb 0 (length d) && src_seekable src) eqn:Hb; cbn [when_].
    + apply andb_true_iff in Hb as Hsk. eapply wp_seek_to; [exact H2| |].
      * intros w3 H3. apply Hk. split; [done|]. fold d. by rewrite Hb.
      * intros e w3 He H3. apply HE; [apply Hsk|]. split; [done|]. eexists (length d), _. fold d.
        rewrite take_ge by done. split; [done|exact H3].
    + apply wp_ret, Hk. split; [done|]. fold d. by rewrite Hb.
  - destruct H2 as (He & m & q & Hm & H2). apply wp_when; [intros Hb|intros _; apply Hk; cbn; by eauto 6].
    eapply wp_seek_to; [exact H2| |].
    + intros w3 H3. apply Hk. split; [done|]. by eauto.
    + intros e' w3 He' H3. apply HE; [by apply andb_true_iff in Hb as [_ ?]|]. split; [done|]. by eauto.
Qed.
End copy.

(** ** The socket fallback *)
Section sock_fallback.
Context `{KR : KernelReal} `{IO : SockIO} `{FIO : FileIO} (o : oid) (src : source)
  `{SN : !SendOk o} `{SO : !SendfileOk o src (λ _, True)}.

Definition pos_same (w w' : world) : Prop := pos src w' = pos src w.
#[export] Instance pos_same_preorder : PreOrder pos_same.
Proof. split; [done|]. intros x y z H1 H2. red in H1, H2 |- *. congruence. Qed.
#[export] Instance pos_same_plumbing : Plumbing pos_same.
Proof. split; try done; try apply _; [by intros []|]. intros t w. by apply (still_private (o:=o) (G:=λ _, True)). Qed.

Lemma sendall_pos fuel d : stable pos_same (sendall_loop fuel o d).
Proof.
  assert (∀ d, stable pos_same (send_sys o d)) as Hs.
  { intros d'. unfold send_sys, log. pose proof (plumb_need_fd_stable pos_same o).
    pose proof (plumb_sys_stable pos_same). pose proof (plumb_tick_stable pos_same). solve_stable. done. }
  revert d. induction fuel as [|fuel IH]; intros [|b d]; cbn [sendall_loop];
    try (apply stable_ret || apply stable_raise; apply _).
  apply stable_bind; [apply _|apply retry_until_ready_stable; [apply _|apply Hs]|done].
Qed.

Lemma still_out s p w w' : still o src (λ _, True) w w' →
  out_at src (λ _, True) (sent o) s p w → out_at src (λ _, True) (sent o) s p w'.
Proof. intros H (_ & <- & <-). by apply H. Qed.

Lemma sendall_put d s p w : out_at src (λ _, True) (sent o) s p w →
  wp (sock_sendall o d) (λ _, out_at src (λ _, True) (sent o) (s ++ d) p)
     (λ e w', real e ∧ ∃ m q, (m ≤ length d)%nat ∧ out_at src (λ _, True) (sent o) (s ++ take m d) q w') w.
Proof.
  intros (_ & Hs & Hp). unfold sock_sendall. eapply wp_mono.
  - apply wp_and; [by apply (wp_sendall_loop o (length d) d s)|apply wp_and].
    + by apply (sendall_loop_real o).
    + apply (sendall_pos (length d) d).
  - intros [] w' (H1 & _ & H2). repeat split; [done|]. red in H2. congruence.
  - intros e w' ((m & Hm & H1) & H2 & H3). split; [done|]. exists m, p. repeat split; [done..|].
    red in H3. congruence.
Qed.

Lemma wp_sock_fallback offset count s p w : out_at src (λ _, True) (sent o) s p w →
  wp (_sock_sendfile_fallback o src offset count)
    (λ n w', copy_end src (λ _, True) (sent o) offset count (starts_at offset p) s (Ok tt) n w')
    (copy_failed src (λ _, True) (sent o) count (starts_at offset p) s) w.
Proof.
  intros Hw. set (st := starts_at offset p). unfold _sock_sendfile_fallback. apply wp_bind. eapply wp_mono.
  - apply (wp_seek_start src (λ _, True) (sent o) (still o src (λ _, True)) still_out (λ _ _ _, conj I eq_refl)), Hw.
  - intros u w1 H1. eapply (wp_copy src (rd_progress (o:=o) (G:=λ _, True)) (λ _, True) (sent o)
      (sock_sendall o) (still o src (λ _, True)) still_out (λ _ _ _, conj I eq_refl) sendall_put);
      [unfold _SOCKET_CHUNK; lia|exact H1| |done].
    intros [[]|e] n w2 H2; [by apply wp_ret|by apply wp_raise].
  - intros e w1 (He & q & H1). split; [done|]. exists 0%nat, q. rewrite take_0, app_nil_r. split; [lia|done].
Qed.
End sock_fallback.

(** C24: [sock_sendfile] from a regular file, from an offset or from a file still at its start: on
    return exactly the requested bytes - up to [count], or to the end - have reached the
    socket once each and in order, whichever path sent them, the result is their number, and
    the file is left behind them.  When it raises, a first part of them has been sent. *)
Theorem sock_sendfile_exact `{KR : KernelReal} `{IO : SockIO} `{FIO : FileIO} o src
    `{SN : !SendOk o} `{SO : !SendfileOk o src (λ _, True)} is_ssl offset count fallback w :
  src_size src = length (src_bytes src) → (pynum_nat offset = 0%nat → pos src w = 0%nat) →
  let d := due src (pynum_nat <$> count) (pynum_nat offset) 0 in
  wp (sock_sendfile is_ssl o src offset count fallback)
    (λ n w', n = length d ∧ sent o w' = sent o w ++ d ∧
       (0 < n → pos src w' = pynum_nat offset + n)%nat)
    (λ e w', real e ∧ ∃ m, (m ≤ length d)%nat ∧ sent o w' = sent o w ++ take m d) w.
Proof.
  intros Hsz Hst d. set (off := pynum_nat offset) in *. set (cnt := pynum_nat <$> count) in *.
  assert (Hw : at_ o src (λ _, True) (sent o w) (pos src w) w) by done. revert Hw Hst.
  generalize (sent o w) (pos src w). intros s p Hw Hst.
  assert (HE : ∀ e w', plain e → at_ o src (λ _, True) s p w' →
    real e ∧ ∃ m, (m ≤ length d)%nat ∧ sent o w' = s ++ take m d).
  { intros e w' [He _] (_ & H1 & _). split; [done|]. exists 0%nat. rewrite take_0, app_nil_r. split; [lia|done]. }
  pose proof (plain_clean o src (λ _, True)) as HC. unfold sock_sendfile. apply wp_bind.
  eapply (wp_quiet o src (λ _, True)); [apply plumb_nonblock_stable, _|by apply check_non_blocking_clean|done| |by eauto].
  intros _ w1 H1. apply wp_bind.
  eapply (wp_quiet o src (λ _, True)); [unfold get_sock; solve_stable| |done| |by eauto].
  { unfold get_sock. apply raises_bind; [apply raises_gets|]. intros [?|]; [apply raises_ret|].
    apply raises_raise, clean_own. cbn. set_solver. }
  intros sk w2 H2. apply wp_bind, wp_of_res.
  2:{ intros e He. apply HE; [|done]. split; intros Hc; revert He Hc;
      unfold _check_sendfile_params, _check_file_params; repeat case_match; intros [= <-]; done. }
  intros [] _. apply wp_bind, wp_gets, wp_bind, wp_catch, wp_bind.
  eapply wp_mono; [apply (wp_sendfile_to_fd o src (λ _, True)); [done|exact H2]|..].
  - intros n w3 [-> (_ & H3 & Hp)]. apply wp_ret, wp_ret. split; [done|]. split; [done|].
    intros Hn. by rewrite Hp, (proj2 (Nat.ltb_lt _ _) Hn).
  - intros e w3 (He & Hf & m & q & Hm & _ & H3 & _).
    assert (Hx : real e ∧ ∃ m, (m ≤ length d)%nat ∧ sent o w3 = s ++ take m d) by eauto.
    destruct (isinstance e SendfileNotAvailableError) eqn:Hi; [|by apply wp_raise].
    destruct fallback; [|by apply wp_raise]. apply wp_ret.
    assert (Hsf : exn_cls e = SendfileNotAvailableError).
    { destruct e as [c ? ? ?]. by destruct c. }
    assert (Heq : starts_at off p = off).
    { unfold starts_at. destruct (Nat.eqb_spec off 0); [|done]. rewrite Hst by done. by symmetry. }
    assert (Hfb := wp_sock_fallback o src off cnt s p w3 (Hf Hsf)). rewrite Heq in Hfb.
    eapply wp_mono; [exact Hfb|intros n w4 [-> (_ & H4 & Hp)]|intros e' w4 (He' & m' & q' & Hm' & _ & H4 & _)].
    + split; [done|]. split; [done|]. intros Hn. rewrite Hp. by destruct (_ && _).
    + by eauto.
Qed.

(** The fallback seeks only to an offset other than zero: for offset zero it sends what comes
    after the file's current position, wherever that is, and then leaves the file at the
    number of bytes sent, as if it had started from the beginning. *)
Theorem fallback_ignores_zero_offset `{KR : KernelReal} `{IO : SockIO} `{FIO : FileIO} o src
    `{SN : !SendOk o} `{SO : !SendfileOk o src (λ _, True)} count w :
  wp (_sock_sendfile_fallback o src 0 count)
    (λ n w', let d := due src count (pos src w) 0 in
       n = length d ∧ sent o w' = sent o w ++ d ∧
       (0 < n → src_seekable src = true → pos src w' = n)%nat)
    (λ e w', real e) w.
Proof.
  eapply wp_mono; [by apply (wp_sock_fallback o src 0 count (sent o w) (pos src w))| |by intros e w' [He _]].
  intros n w' [-> (_ & H1 & H2)]. split; [done|]. split; [done|]. intros Hn Hs.
  by rewrite H2, Hs, (proj2 (Nat.ltb_lt _ _) Hn).
Qed.

(** ** The theorems above at concrete inputs *)
Definition two_bytes : FileIO := {| rd := λ _ _, 2%nat |}.
Definition small_file : source :=
  Source 0 None Fileno true [Byte.x61; Byte.x62; Byte.x63; Byte.x64; Byte.x65] 5.
Definition at_three : world := set_pos (<[0%nat := 3%nat]>) (one_socket AF_INET false).
Lemma steady_sendfile G : (∀ w w', w_flows w' = w_flows w → w_trans w' = w_trans w → w_sps w' = w_sps w →
    w_futs w' = w_futs w → (w_next w ≤ w_next w')%nat → G w → G w') →
  SendfileOk (K := steady [] []) (IO := byte_io) (FIO := two_bytes) 0 small_file G.
Proof. intros HG. split; [done|done|exact HG|cbn; lia|cbn; lia|done]. Qed.

(** The file is sent from its second byte on, four bytes of it. *)
Example sendfile_small :
  (sock_sendfile (K := steady [] []) (IO := byte_io) (FIO := two_bytes) false 0 small_file (PInt 1)
     (Some (PInt 4)) true (one_socket AF_INET false)).1 = Ok 4%nat.
Proof. vm_compute. reflexivity. Qed.

Lemma sock_sendfile_exact_witness :
  let w := one_socket AF_INET false in
  wp (sock_sendfile (K := steady [] []) (IO := byte_io) (FIO := two_bytes) false 0 small_file
        (PInt 1) (Some (PInt 3)) true)
    (λ n w', n = 3%nat ∧ sent 0 w' = sent 0 w ++ [Byte.x62; Byte.x63; Byte.x64] ∧
       (0 < n → pos small_file w' = 1 + n)%nat)
    (λ e w', real e ∧ ∃ m, (m ≤ 3)%nat ∧ sent 0 w' = sent 0 w ++ take m [Byte.x62; Byte.x63; Byte.x64]) w.
Proof.
  apply (sock_sendfile_exact (KR := kernel_real (K := steady [] [])) 0 small_file (SN := steady_send [] [] 0)
    (SO := steady_sendfile (λ _, True) (λ _ _ _ _ _ _ _ _, I))
    false (PInt 1) (Some (PInt 3)) true (one_socket AF_INET false)); reflexivity.
Defined.

Lemma fallback_ignores_zero_offset_witness :
  wp (_sock_sendfile_fallback (K := steady [] []) (IO := byte_io) (FIO := two_bytes) 0 small_file 0 None)
    (λ n w', n = 2%nat ∧ sent 0 w' = sent 0 at_three ++ [Byte.x64; Byte.x65] ∧
       (0 < n → src_seekable small_file = true → pos small_file w' = n)%nat)
    (λ e w', real e) at_three.
Proof.
  apply (fallback_ignores_zero_offset (KR := kernel_real (K := steady [] [])) 0 small_file (SN := steady_send [] [] 0)
    (SO := steady_sendfile (λ _, True) (λ _ _ _ _ _ _ _ _, I))
    None at_three).
Defined.
