(* ===== verification/Connect.v ===== *)
(** * Establishing TCP connections (zuvloop/_connect.py)

    Name resolution, one connection attempt, trying the addresses in order or racing them,
    and the report when all of them fail. *)
From S2P Require Import Prelude World Checks.

(** ** Name resolution *)
Fixpoint isascii (s : string) : bool :=
  match s with
  | EmptyString => true
  | String c s' => Nat.ltb (nat_of_ascii c) 128 && isascii s'
  end.

Definition getaddrinfo_ `{K : Kernel} (host : option string) (port : option aitem)
    (family kind proto flags : Z) : M world (list addrinfo) :=
  host <- (match host with
           | Some h => if isascii h then ret host else h' <- of_res (idna_encode h) ;; ret (Some h')
           | None => ret None
           end) ;;
  native_getaddrinfo host port family kind proto flags.

Lemma getaddrinfo__quiet `{KOk : KernelOk} h p a b c d : quiet (getaddrinfo_ h p a b c d).
Proof. unfold getaddrinfo_. solve_stable. Qed.

#[export] Instance connect_resolver `{KOk : KernelOk} : Resolver := {
  getaddrinfo := getaddrinfo_;
  getaddrinfo_quiet := getaddrinfo__quiet }.

(** ** Interleaving address families ([asyncio.base_events._interleave_addrinfos]) *)

(** The families in the order they first appear. *)
Fixpoint families (l : list addrinfo) : list Z :=
  match l with
  | [] => []
  | i :: l' => ai_family i :: filter (λ f, f ≠ ai_family i) (families l')
  end.
Definition by_family (l : list addrinfo) : list (list addrinfo) :=
  (λ f, filter (λ i, ai_family i = f) l) <$> families l.

(** One element from each list in turn, the exhausted ones dropping out. *)
Fixpoint round_robin {A} (fuel : nat) (ls : list (list A)) : list A :=
  match fuel with
  | 0%nat => []
  | S fuel' => omap head ls ++ round_robin fuel' (tail <$> ls)
  end.
Definition zip_longest {A} (ls : list (list A)) : list A :=
  round_robin (foldr max 0%nat (length <$> ls)) ls.

Definition interleave_addrinfos (l : list addrinfo) (first_count : Z) : list addrinfo :=
  let ls := by_family l in
  let n := Z.to_nat (first_count - 1) in
  match ls with
  | g :: ls' => take n g ++ zip_longest (drop n g :: ls')
  | [] => []
  end.

(** ** Reporting ([_connect_tcp]'s tail) *)
Fixpoint join (sep : string) (l : list string) : string :=
  match l with
  | [] => ""
  | [s] => s
  | s :: l' => (s ++ sep ++ join sep l')%string
  end.

Definition report (all_errors : bool) (flattened : list exn) : exn :=
  if all_errors then
    match flattened with
    | [] => mk ValueError "second argument (exceptions) must be a non-empty sequence"
    | _ => Exn ExceptionGroup None "create_connection failed" flattened
    end
  else match flattened with
  | [] => mk OSError "Multiple exceptions: (no error was recorded)"
  | [e] => e
  | e :: _ =>
      if forallb (λ x, bool_decide (str x = str e)) flattened then e
      else mk OSError ("Multiple exceptions: " ++ join ", " (str <$> flattened))
  end.

Definition lower_ascii (c : ascii) : ascii :=
  let n := nat_of_ascii c in
  if Nat.leb 65 n && Nat.leb n 90 then ascii_of_nat (n + 32) else c.
Fixpoint lower (s : string) : string :=
  match s with EmptyString => EmptyString | String c s' => String (lower_ascii c) (lower s') end.

Section connect.
Context `{K : Kernel} `{C : Connector} `{R : Resolver}.
(** [asyncio.base_events._ipaddr_info]: the address information of a literal. *)
Context (ipaddr_info : list aitem → Z → Z → Z → option addrinfo).
(** How many attempts [staggered_race] starts before it is decided. *)
Context (race_started : nat → nat).

(** ** One attempt *)
Definition slot_append (i : nat) (e : exn) : M world unit :=
  modify (set_errs (alter (λ l, l ++ [e]) i)).

Definition bind_message (a : pyaddr) (e : exn) : exn :=
  new_OSError plat (exn_errno e)
    ("error while attempting to bind on address " ++ repr_addr a ++ ": " ++ lower (str e)).

(** The [for]/[else] over the local addresses. *)
Definition bind_local (i : nat) (sock : oid) (af : Z) (local_infos : list addrinfo) : M world unit :=
  bound <- for_break local_infos (λ info,
    if ai_family info =? af then
      catch_else (sock_bind sock (ai_addr info))
        (λ e, if isinstance e OSError then slot_append i (bind_message (ai_addr info) e) ;; ret None else raise e)
        (λ _, ret (Some tt))
    else ret None) ;;
  match bound with
  | Some _ => ret tt
  | None =>
      mine <- gets (λ w, default [] (w_errs w !! i)) ;;
      match last mine with
      | Some e => modify (set_errs (alter (λ l, take (length l - 1) l) i)) ;; raise e
      | None => raise (mk OSError ("no matching local address with family=" ++ string_of_Z af ++ " found"))
      end
  end.

(** [_connect_one].  [lost] is set for an attempt of a race that has been decided: its
    suspended connect receives [CancelledError]. *)
Definition _connect_one (lost : bool) (info : addrinfo) (local_infos : option (list addrinfo))
    : M world oid :=
  i <- gets (λ w, length (w_errs w)) ;;
  modify (set_errs (λ l, l ++ [[]])) ;;
  sock <- catch_cls (socket_new (ai_family info) (ai_type info) (ai_proto info)) OSError
            (λ e, slot_append i e ;; raise e) ;;
  catch
    (setblocking sock false ;;
     match local_infos with
     | Some ls => bind_local i sock (ai_family info) ls
     | None => ret tt
     end ;;
     sock_connect sock (ai_addr info) ;;
     when_ lost (raise cancelled))
    (λ e, if isinstance e OSError then sock_close sock ;; slot_append i e ;; raise e
          else sock_close sock ;; raise e) ;;
  ret sock.

(** [_attempt]: an attempt bound to its address, for the race to start when it likes. *)
Definition _attempt_ (local_infos : option (list addrinfo)) (info : addrinfo) (lost : bool)
    : M world oid :=
  _connect_one lost info local_infos.

(** ** All the addresses *)
Definition try_in_order (infos : list addrinfo) (local_infos : option (list addrinfo))
    : M world (option oid) :=
  for_break infos (λ info,
    catch_cls (o <- _connect_one false info local_infos ;; ret (Some o)) OSError (λ _, ret None)).

(** [asyncio.staggered.staggered_race], its attempts taken in starting order: the first
    success wins, the attempts still running are cancelled, failures are set aside. *)
Fixpoint race (attempts : list (bool → M world oid)) (winner : option oid) : M world (option oid) :=
  match attempts with
  | [] => ret winner
  | a :: rest =>
      match winner with
      | None =>
          w <- catch (o <- a false ;; ret (Some o))
            (λ e, if isinstance e SystemExit || isinstance e KeyboardInterrupt then raise e else ret None) ;;
          race rest w
      | Some o => catch (a true ;; ret tt) (λ _, ret tt) ;; race rest (Some o)
      end
  end.
Definition staggered_race (attempts : list (bool → M world oid)) : M world (option oid) :=
  t <- tick ;; race (take (race_started t) attempts) None.

Definition resolve_local (local_addr : option (list aitem)) (family proto flags : Z)
    : M world (option (list addrinfo)) :=
  match local_addr with
  | None => ret None
  | Some items =>
      local_infos <-
        (match ipaddr_info items family SOCK_STREAM proto with
         | Some i => ret [i]
         | None =>
             getaddrinfo (match items with IText h :: _ => Some h | _ => None end)
               (nth_error items 1) family SOCK_STREAM proto flags
         end) ;;
      match local_infos with
      | [] => raise (mk OSError "getaddrinfo() returned empty list")
      | _ => ret (Some local_infos)
      end
  end.

Definition truthy (z : option Z) : bool := match z with Some z => negb (z =? 0) | None => false end.

(** [happy_eyeballs] is whether a delay was given. *)
Definition _connect_tcp (host : option string) (port : option aitem) (family proto flags : Z)
    (local_addr : option (list aitem)) (happy_eyeballs : bool) (interleave : option Z)
    (all_errors : bool) : M world oid :=
  infos <- getaddrinfo host port family SOCK_STREAM proto flags ;;
  match infos with
  | [] => raise (mk OSError ("getaddrinfo(" ++ repr_item (IText <$> host) ++ ", " ++ repr_item port ++
                                ") returned no addresses"))
  | _ =>
      local_infos <- resolve_local local_addr family proto flags ;;
      let infos := if truthy interleave then interleave_addrinfos infos (default 0 interleave) else infos in
      modify (set_errs (λ _, [])) ;;
      winner <- (if happy_eyeballs then staggered_race (_attempt_ local_infos <$> infos)
                 else try_in_order infos local_infos) ;;
      match winner with
      | Some o => ret o
      | None => flattened <- gets (λ w, concat (w_errs w)) ;; raise (report all_errors flattened)
      end
  end.
End connect.

(** ** No descriptor outlives a failed attempt *)
Lemma owns_errs w0 l f w : owns w0 l w → owns w0 l (set_errs f w).
Proof. intros H. by apply (owns_keeps _ _ w), keeps_own_frame. Qed.

(** [o] is the one socket opened since [w0]; it is live and non-blocking. *)
Definition connected (w0 : world) (o : oid) (w : world) : Prop :=
  ∃ f s, owns w0 [(o, f)] w ∧ w_socks w !! o = Some s ∧ ps_fd s = Some f ∧ ps_blocking s = false.

Lemma connected_keeps_l w0 w o w' : keeps_own w0 w → connected w o w' → connected w0 o w'.
Proof.
  intros K (f & s & Ho & Hs). exists f, s. split; [|done].
  by apply (owns_trans w0 [] w [(o, f)]); [apply owns_nil|].
Qed.
Lemma connected_keeps_r w0 w o w' : connected w0 o w → keeps_own w w' → connected w0 o w'.
Proof.
  intros (f & s & Ho & Hs & Hr) K. exists f, s. split; [by eapply owns_keeps|].
  rewrite (keeps_socks _ _ K o f); [done|]. apply (own_holds _ _ _ Ho). left.
Qed.

Section connect_proofs.
Context `{KOk : KernelOk} `{C : Connector} `{R : Resolver}.

#[local] Hint Extern 2 (keeps_own _ _) => (by apply keeps_own_frame) : stable.
#[local] Hint Resolve stable_keeps_own : stable.

Lemma slot_append_owned i e : stable keeps_own (slot_append i e).
Proof. unfold slot_append. solve_stable. Qed.
#[local] Hint Resolve slot_append_owned : stable.
Lemma bind_local_owned i sock af ls : stable keeps_own (bind_local i sock af ls).
Proof. unfold bind_local. solve_stable. Qed.

(** The [except] clauses of an attempt close its socket. *)
Lemma wp_attempt_failed w0 o f i e w :
  owns w0 [(o, f)] w →
  wp (if isinstance e OSError then sock_close o ;; slot_append i e ;; raise (A:=unit) e
      else sock_close o ;; raise e) (λ _ _, False) (λ _, keeps_own w0) w.
Proof.
  intros Ho. destruct (isinstance e OSError); apply wp_bind;
    (eapply (wp_sock_close _ []); [exact Ho|]); intros w3 Ho3%owns_nil _.
  - apply wp_bind, (wp_stable keeps_own); [apply slot_append_owned| |];
      [intros _|intros e']; intros w4 K4; [apply wp_raise|]; by etrans.
  - by apply wp_raise.
Qed.

Lemma wp_connect_one lost info ls w :
  wp (_connect_one lost info ls) (λ o w', lost = false ∧ connected w o w')
     (λ _ w', keeps_own w w') w.
Proof.
  unfold _connect_one. wp_step. wp_step. wp_step. wp_step.
  set (i := length _). set (w1 := set_errs _ w).
  assert (Ho : owns w [] w1) by (apply owns_nil; by apply keeps_own_frame).
  apply wp_bind, wp_catch_cls. eapply wp_socket_new; [done| |].
  2:{ intros e w2 _ Ho2%owns_nil. split; intros _; [|done].
      apply wp_bind, (wp_stable keeps_own); [apply slot_append_owned| |];
        [intros _|intros e']; intros w4 K4; [apply wp_raise|]; by etrans. }
  intros o f w2 Ho2 Hs2 _. apply wp_bind, wp_catch, wp_bind.
  eapply (wp_setblocking _ _ o f); [done|left|done| |].
  2:{ intros e w3 _ Ho3. eapply wp_mono; [by eapply wp_attempt_failed|done|done]. }
  intros w3 Ho3 Hs3 _. assert (Hc : connected w o w3) by (exists f; eexists; split; [done|]; split; [exact Hs3|]; by cbn).
  assert (Hfail : ∀ e w', keeps_own w3 w' →
    wp (if isinstance e OSError then sock_close o ;; slot_append i e ;; raise (A:=unit) e
        else sock_close o ;; raise e) (λ _ w', wp (ret o) (λ o w', lost = false ∧ connected w o w') (λ _ w', keeps_own w w') w')
      (λ _, keeps_own w) w').
  { intros e w' HK. eapply wp_mono; [by eapply wp_attempt_failed, owns_keeps|done|done]. }
  apply wp_bind, (wp_stable keeps_own); [|intros _|]; [|intros w4 K4..].
  { destruct ls; [apply bind_local_owned|apply stable_ret, _]. }
  2:{ by apply Hfail. }
  apply wp_bind, (wp_stable keeps); [apply sock_connect_quiet| |].
  2:{ intros e w5 [K5 _]. apply Hfail. by etrans. }
  intros _ w5 [K5 _]. apply wp_when; intros ->.
  { apply wp_raise, Hfail. by etrans. }
  apply wp_ret. split; [done|]. eapply connected_keeps_r; [done|]. by etrans.
Qed.

(** The outcome of trying several addresses. *)
Definition tried (w : world) (r : option oid) (w' : world) : Prop :=
  match r with Some o => connected w o w' | None => keeps_own w w' end.

Lemma wp_try_in_order infos ls w :
  wp (try_in_order infos ls) (tried w) (λ _, keeps_own w) w.
Proof.
  unfold try_in_order. apply (wp_for_break (λ _, keeps_own w)); [done| |done].
  intros info rest w1 Ho1. apply wp_catch_cls, wp_bind. eapply wp_mono; [apply wp_connect_one|..].
  - intros o w2 [_ H]. apply wp_ret. by eapply connected_keeps_l.
  - intros e w2 H. split; [intros _; apply wp_ret|intros _]; by etrans.
Qed.

Lemma wp_race ls infos winner w0 w : tried w0 winner w →
  wp (race (_attempt_ ls <$> infos) winner) (tried w0) (λ _, keeps_own w0) w.
Proof.
  revert winner w. induction infos as [|info infos IH]; intros winner w Hw; [by apply wp_ret|].
  cbn [fmap list_fmap race]. unfold _attempt_ at 1 3. destruct winner as [o|].
  - apply wp_bind, wp_catch, wp_bind. eapply wp_mono; [apply wp_connect_one|by intros o' w1 [? _]|].
    intros e w1 HK. apply wp_ret, IH. by eapply connected_keeps_r.
  - apply wp_bind, wp_catch, wp_bind. eapply wp_mono; [apply wp_connect_one|..].
    + intros o w1 [_ H]. apply wp_ret, IH. by eapply connected_keeps_l.
    + intros e w1 HK. wp_go; [by etrans|apply IH; cbn; by etrans].
Qed.
End connect_proofs.

Lemma wp_connect_tcp `{KOk : KernelOk} `{C : Connector} `{R : Resolver}
    ipaddr_info race_started host port family proto flags local_addr happy_eyeballs interleave
    all_errors w :
  wp (_connect_tcp ipaddr_info race_started host port family proto flags local_addr
        happy_eyeballs interleave all_errors)
     (λ o w', connected w o w') (λ _, keeps_own w) w.
Proof.
  unfold _connect_tcp. apply wp_bind, (wp_stable keeps); [apply getaddrinfo_quiet| |].
  2:{ by intros e w1 [HK _]. }
  intros [|info0 infos0] w1 [K1 _]; [by apply wp_raise|].
  apply wp_bind, (wp_stable keeps); [unfold resolve_local; solve_stable| |].
  2:{ intros e w2 [HK _]. by etrans. }
  intros ls w2 [K2 _]. generalize (if truthy interleave
    then interleave_addrinfos (info0 :: infos0) (default 0 interleave) else info0 :: infos0).
  intros infos. wp_step. wp_step. apply wp_bind. set (w3 := set_errs _ w2).
  assert (K3 : keeps_own w w3) by (etrans; [done|]; etrans; [done|]; by apply keeps_own_frame).
  assert (Hend : ∀ r w', tried w3 r w' →
    wp (match r with Some o => ret o
        | None => flattened <- gets (λ w, concat (w_errs w)) ;; raise (report all_errors flattened) end)
      (λ o w', connected w o w') (λ _, keeps_own w) w').
  { intros [o|] w' Ht; cbn in Ht; [apply wp_ret; by eapply connected_keeps_l|].
    wp_go. by etrans. }
  destruct happy_eyeballs.
  - unfold staggered_race, tick. wp_go. rewrite <-fmap_take. eapply wp_mono; [apply wp_race|apply Hend|].
    + cbn. by apply keeps_own_frame.
    + intros e w' HK. by etrans.
  - eapply wp_mono; [apply wp_try_in_order|apply Hend|]. intros e w' HK. by etrans.
Qed.

(** Whichever way [_connect_tcp] goes - addresses tried in order or raced, local addresses
    bound, cancellation at any suspension - it returns one live non-blocking socket and has
    opened nothing else, or it raises and every socket it opened is closed. *)
Theorem connect_tcp_no_leak `{KOk : KernelOk} `{C : Connector} `{R : Resolver}
    ipaddr_info race_started host port family proto flags local_addr happy_eyeballs interleave
    all_errors w :
  wp (_connect_tcp ipaddr_info race_started host port family proto flags local_addr
        happy_eyeballs interleave all_errors)
     (λ o w', connected w o w') (λ _ w', mine w' = mine w) w.
Proof. eapply wp_mono; [apply wp_connect_tcp|done|by intros e w' [_ Hm]]. Qed.

(** ** Every attempt records its failure *)
Definition only_slot (i : nat) (w w' : world) : Prop :=
  length (w_errs w') = length (w_errs w) ∧ ∀ j, j ≠ i → w_errs w' !! j = w_errs w !! j.
#[export] Instance only_slot_preorder i : PreOrder (only_slot i).
Proof.
  split; [done|]. intros x y z [H1 H2] [H3 H4]. split; [congruence|].
  intros j Hj. rewrite H4, H2; done.
Qed.
Lemma only_slot_errs i w w' : w_errs w' = w_errs w → only_slot i w w'.
Proof. intros H. split; intros; by rewrite H. Qed.
Lemma quiet_only_slot {A} i (m : M world A) : quiet m → stable (only_slot i) m.
Proof. intros H w. eapply wp_mono; [apply H|..]; intros ? ? [_ E]; by apply only_slot_errs. Qed.

(** The last slot of [errs w ++ [s]] is the attempt's own. *)
Lemma only_slot_last l s w' w :
  w_errs w = l ++ [s] → only_slot (length l) w w' → ∃ s', w_errs w' = l ++ [s'].
Proof.
  intros Hw [Hlen Hj]. rewrite Hw, length_app in Hlen. cbn in Hlen.
  destruct (w_errs w' !! length l) as [s'|] eqn:E; [|apply lookup_ge_None in E; lia].
  exists s'. apply list_eq. intros j. destruct (decide (j = length l)) as [->|Hne].
  - by rewrite E, lookup_app_r, Nat.sub_diag by lia.
  - rewrite Hj, Hw by done. destruct (decide (j < length l)%nat); [by rewrite !lookup_app_l by lia|].
    by rewrite !lookup_ge_None_2 by (rewrite length_app; cbn; lia).
Qed.

Section recorded.
Context `{KOk : KernelOk} `{C : Connector} `{R : Resolver}.

#[local] Hint Resolve quiet_only_slot : stable.
#[local] Hint Extern 2 (only_slot _ _ _) => (by apply only_slot_errs) : stable.
Lemma alter_only_slot i f w : only_slot i w (set_errs (alter f i) w).
Proof. split; cbn; [by rewrite length_alter|]. intros j Hj. by apply list_lookup_alter_ne. Qed.
#[local] Hint Resolve alter_only_slot : stable.
Lemma slot_append_only i e : stable (only_slot i) (slot_append i e).
Proof. unfold slot_append. solve_stable. Qed.
#[local] Hint Resolve slot_append_only : stable.
Lemma bind_local_only i sock af ls : stable (only_slot i) (bind_local i sock af ls).
Proof. unfold bind_local. solve_stable. Qed.
Lemma sock_close_only i o : stable (only_slot i) (sock_close o).
Proof. unfold sock_close. solve_stable. Qed.
Lemma socket_new_only i a b c : stable (only_slot i) (socket_new a b c).
Proof. unfold socket_new, open_sock. solve_stable. Qed.
Lemma setblocking_only i o b : stable (only_slot i) (setblocking o b).
Proof. unfold setblocking. solve_stable. Qed.

(** [errs] has grown by one slot, which is not empty when [full]. *)
Definition grown (full : bool) (l : list (list exn)) (w : world) : Prop :=
  ∃ s, w_errs w = l ++ [s] ∧ (full = true → s ≠ []).

Lemma wp_slot_append l e w Q :
  grown false l w → (∀ w', grown true l w' → Q w') →
  wp (slot_append (length l) e) (λ _, Q) (λ _ _, False) w.
Proof.
  intros (s & Hs & _) HQ. unfold slot_append. wp_step. apply HQ. exists (s ++ [e]). cbn.
  rewrite Hs. split; [|by destruct s]. rewrite alter_app_r_alt by lia. by rewrite Nat.sub_diag.
Qed.

Lemma wp_connect_one_recorded lost info ls w :
  wp (_connect_one lost info ls) (λ _, grown false (w_errs w))
     (λ e, grown (isinstance e OSError) (w_errs w)) w.
Proof.
  unfold _connect_one. wp_step. wp_step. wp_step. wp_step. set (i := length _).
  set (w1 := set_errs _ w). assert (H1 : grown false (w_errs w) w1) by by exists [].
  assert (Hon : ∀ w2 w3, grown false (w_errs w) w2 → only_slot i w2 w3 → grown false (w_errs w) w3).
  { intros w2 w3 (s & Hs & _) Ho. destruct (only_slot_last _ _ _ _ Hs Ho) as [s' Hs']. by exists s'. }
  apply wp_bind, wp_catch_cls, (wp_stable (only_slot i)); [apply socket_new_only|..].
  2:{ intros e w2 H2. split; intros He; [|rewrite He; by eapply Hon].
      apply wp_bind. eapply wp_mono; [apply (wp_slot_append _ _ _ (grown true (w_errs w)))|..].
      - by eapply Hon.
      - done.
      - intros [] w3 H3. apply wp_raise. by rewrite He.
      - done. }
  intros o w2 H2. apply (Hon _ _ H1) in H2. apply wp_bind, wp_catch.
  apply (wp_stable (only_slot i)).
  - solve_stable; try apply setblocking_only; apply bind_local_only.
  - intros _ w3 H3. apply wp_ret. by eapply Hon.
  - intros e w3 H3. apply (Hon _ _ H2) in H3. destruct (isinstance e OSError) eqn:He; apply wp_bind;
      (eapply wp_sock_close_total; [apply (sock_close_only i)|intros w4 H4]).
    + apply wp_bind. eapply wp_mono; [apply (wp_slot_append _ _ _ (grown true (w_errs w)))|..].
      * by eapply Hon.
      * done.
      * intros [] w5 H5. apply wp_raise. by rewrite He.
      * done.
    + apply wp_raise. rewrite He. by eapply Hon.
Qed.
End recorded.

(** When every address has been tried in order and none connected, there is one slot per
    address and none of them is empty: the final report always has something to say. *)
Theorem attempts_recorded `{KOk : KernelOk} `{C : Connector} infos ls w :
  wp (try_in_order infos ls)
     (λ r w', r = None → ∃ slots, w_errs w' = w_errs w ++ slots ∧
        length slots = length infos ∧ Forall (λ s, s ≠ []) slots)
     (λ _ _, True) w.
Proof.
  unfold try_in_order.
  apply (wp_for_break (λ rest w', ∃ slots, w_errs w' = w_errs w ++ slots ∧
    (length slots + length rest = length infos)%nat ∧ Forall (λ s, s ≠ []) slots)).
  - exists []. by rewrite app_nil_r.
  - intros info rest w1 (slots & H1 & H2 & H3). apply wp_catch_cls, wp_bind.
    eapply wp_mono; [apply wp_connect_one_recorded|by intros o w2 _; apply wp_ret|].
    intros e w2 (s & Hs & Hne). split; intros He; [|done]. apply wp_ret. rewrite He in Hne.
    exists (slots ++ [s]). rewrite Hs, H1, <-app_assoc. split; [done|].
    rewrite length_app. cbn in *. split; [lia|]. apply Forall_app. split; [done|].
    constructor; [by apply Hne|constructor].
  - intros w1 (slots & H1 & H2 & H3) _. exists slots. cbn in H2. rewrite Nat.add_0_r in H2. done.
Qed.

(** ** Interleaving loses no address *)
Lemma elem_of_families l i : i ∈ l → ai_family i ∈ families l.
Proof.
  induction l as [|j l IH]; cbn; [by intros ?%elem_of_nil|]. intros [->|H]%elem_of_cons; [left|].
  destruct (decide (ai_family i = ai_family j)) as [->|Hne]; [left|right].
  apply list_elem_of_filter. auto.
Qed.
Lemma families_NoDup l : NoDup (families l).
Proof.
  induction l as [|i l IH]; cbn; constructor; [|by apply NoDup_filter].
  intros [[] _]%list_elem_of_filter. done.
Qed.

(** Splitting a list by a key that takes its values in [ks]. *)
Lemma split_by_key fs (l : list addrinfo) :
  NoDup fs → (∀ i, i ∈ l → ai_family i ∈ fs) →
  concat ((λ f, filter (λ i, ai_family i = f) l) <$> fs) ≡ₚ l.
Proof.
  revert l. induction fs as [|f fs IH]; intros l Hnd Hin.
  - destruct l as [|i l]; [done|]. exfalso. by apply (not_elem_of_nil (ai_family i)), Hin; left.
  - apply NoDup_cons in Hnd as [Hf Hnd]. cbn.
    rewrite <-(filter_app_complement (λ i, ai_family i = f) l) at 2. apply Permutation_app; [done|].
    rewrite <-(IH (filter (λ i, ¬ ai_family i = f) l)); [|done|].
    + apply reflexive_eq. f_equal. apply list_fmap_ext. intros k g Hk.
      rewrite list_filter_filter. apply list_filter_iff. intros i.
      apply list_elem_of_lookup_2 in Hk. split; [intros <-; split; [done|by intros <-]|by intros [? _]].
    + intros i [Hne Hi]%list_elem_of_filter. specialize (Hin i Hi).
      apply elem_of_cons in Hin as [?|?]; done.
Qed.
Lemma by_family_perm l : concat (by_family l) ≡ₚ l.
Proof. apply split_by_key; [apply families_NoDup|]. intros i. apply elem_of_families. Qed.

Lemma heads_tails {A} (ls : list (list A)) : omap head ls ++ concat (tail <$> ls) ≡ₚ concat ls.
Proof.
  induction ls as [|[|x l] ls IH]; cbn; [done|done|].
  constructor. rewrite Permutation_app_swap_app. by apply Permutation_app_head.
Qed.
Lemma round_robin_perm {A} n (ls : list (list A)) :
  (∀ l, l ∈ ls → (length l ≤ n)%nat) → round_robin n ls ≡ₚ concat ls.
Proof.
  revert ls. induction n as [|n IH]; intros ls Hlen; cbn.
  - induction ls as [|l ls IHl]; [done|]. cbn. rewrite <-IHl by (intros; apply Hlen; by right).
    specialize (Hlen l). destruct l; [done|]. cbn in Hlen. specialize (Hlen ltac:(left)). lia.
  - rewrite IH; [apply heads_tails|]. intros l (l' & -> & Hl)%list_elem_of_fmap.
    specialize (Hlen l' Hl). destruct l'; cbn in *; lia.
Qed.
Lemma zip_longest_perm {A} (ls : list (list A)) : zip_longest ls ≡ₚ concat ls.
Proof.
  apply round_robin_perm. intros l Hl. induction ls as [|l' ls IH]; [by apply elem_of_nil in Hl|].
  cbn. apply elem_of_cons in Hl as [->|Hl]; [lia|]. specialize (IH Hl). cbn in IH. lia.
Qed.


(** What [_connect_tcp] raises after failures: with [all_errors] a group of exactly the
    recorded exceptions in order; without, a recorded exception when one message covers
    them all, else an [OSError] that names every message.  Always an [OSError] unless a
    group was asked for. *)
Theorem report_spec (all_errors : bool) (flattened : list exn) :
  flattened ≠ [] → Forall (λ e, isinstance e OSError = true) flattened →
  if all_errors then
    exn_cls (report true flattened) = ExceptionGroup ∧ exn_group (report true flattened) = flattened
  else
    isinstance (report false flattened) OSError = true ∧
    (if forallb (λ x, bool_decide (str x = str (hd cancelled flattened))) flattened
     then head flattened = Some (report false flattened)
     else exn_msg (report false flattened) = "Multiple exceptions: " ++ join ", " (str <$> flattened))%string.
Proof.
  intros Hne Hall. destruct all_errors, flattened as [|e [|e' l]]; try done; cbn [report].
  - split; [by inversion Hall|]. cbn. by rewrite bool_decide_eq_true_2.
  - cbn [hd]. destruct (forallb (λ x, bool_decide (str x = str e)) (e :: e' :: l)); split; try done.
    by inversion Hall.
Qed.

(** ** The theorems above at concrete inputs *)
Definition info4 : addrinfo := AddrInfo AF_INET SOCK_STREAM 6 "" (ATuple [IText "127.0.0.1"; IInt 80]).
Definition info6 : addrinfo := AddrInfo 10 SOCK_STREAM 6 "" (ATuple [IText "::1"; IInt 80]).
Definition refusing : Connector := {|
  sock_connect := λ _ _, raise (oserror 111 "Connection refused");
  sock_connect_quiet := λ _ _, stable_raise keeps _ |}.

Lemma connect_tcp_no_leak_witness :
  wp (_connect_tcp (K := steady [] [info6; info4]) (C := refusing)
        (R := connect_resolver (KOk := steady_ok [] [info6; info4]))
        (λ _ _ _ _, None) (λ n, n) (Some "localhost"%string) (Some (IInt 80)) 0 0 0 None true (Some 1) false)
     (λ o w', connected world0 o w') (λ _ w', mine w' = mine world0) world0.
Proof. apply (connect_tcp_no_leak (KOk := steady_ok [] [info6; info4])). Defined.

Lemma attempts_recorded_witness :
  wp (try_in_order (K := steady [] []) (C := refusing) [info6; info4] None)
     (λ r w', r = None → ∃ slots, w_errs w' = w_errs world0 ++ slots ∧
        length slots = 2%nat ∧ Forall (λ s, s ≠ []) slots)
     (λ _ _, True) world0.
Proof. apply (attempts_recorded (KOk := steady_ok [] []) [info6; info4] None world0). Defined.

Lemma report_spec_witness :
  let l := [oserror 111 "Connection refused"; oserror 101 "Network is unreachable"] in
  isinstance (report false l) OSError = true ∧
  exn_msg (report false l) = "Multiple exceptions: [Errno 111] Connection refused, [Errno 101] Network is unreachable"%string.
Proof.
  apply (report_spec false [oserror 111 "Connection refused"; oserror 101 "Network is unreachable"]).
  - done.
  - repeat constructor.
Defined.
