(* ===== verification/Server.v ===== *)
(** * Servers (zuvloop/_server.py)

    A [Server] owns listening sockets, accepts from the loop's reader callbacks, counts the
    connections it has accepted and wakes [wait_closed] once it is closed and the last of
    them has gone. *)
From S2P Require Import Prelude World.

(** ** The attributes, one update each *)
Definition with_sockets (f : option (list oid) → option (list oid)) (s : server) : server :=
  Server (f (_sockets s)) (_ssl s) (_backlog s) (_ssl_handshake_timeout s) (_ssl_shutdown_timeout s) (_active s) (_transports s) (_serving s) (_waiters s) (_serving_forever s) (_cleanup_path s) (_cleanup_identity s).
Definition with_active (f : Z → Z) (s : server) : server :=
  Server (_sockets s) (_ssl s) (_backlog s) (_ssl_handshake_timeout s) (_ssl_shutdown_timeout s) (f (_active s)) (_transports s) (_serving s) (_waiters s) (_serving_forever s) (_cleanup_path s) (_cleanup_identity s).
Definition with_transports (f : list oid → list oid) (s : server) : server :=
  Server (_sockets s) (_ssl s) (_backlog s) (_ssl_handshake_timeout s) (_ssl_shutdown_timeout s) (_active s) (f (_transports s)) (_serving s) (_waiters s) (_serving_forever s) (_cleanup_path s) (_cleanup_identity s).
Definition with_serving (f : bool → bool) (s : server) : server :=
  Server (_sockets s) (_ssl s) (_backlog s) (_ssl_handshake_timeout s) (_ssl_shutdown_timeout s) (_active s) (_transports s) (f (_serving s)) (_waiters s) (_serving_forever s) (_cleanup_path s) (_cleanup_identity s).
Definition with_waiters (f : option (list oid) → option (list oid)) (s : server) : server :=
  Server (_sockets s) (_ssl s) (_backlog s) (_ssl_handshake_timeout s) (_ssl_shutdown_timeout s) (_active s) (_transports s) (_serving s) (f (_waiters s)) (_serving_forever s) (_cleanup_path s) (_cleanup_identity s).
Definition with_serving_forever (f : option oid → option oid) (s : server) : server :=
  Server (_sockets s) (_ssl s) (_backlog s) (_ssl_handshake_timeout s) (_ssl_shutdown_timeout s) (_active s) (_transports s) (_serving s) (_waiters s) (f (_serving_forever s)) (_cleanup_path s) (_cleanup_identity s).
Definition with_cleanup_path (f : option string → option string) (s : server) : server :=
  Server (_sockets s) (_ssl s) (_backlog s) (_ssl_handshake_timeout s) (_ssl_shutdown_timeout s) (_active s) (_transports s) (_serving s) (_waiters s) (_serving_forever s) (f (_cleanup_path s)) (_cleanup_identity s).
Definition with_cleanup_identity (f : option (Z * Z) → option (Z * Z)) (s : server) : server :=
  Server (_sockets s) (_ssl s) (_backlog s) (_ssl_handshake_timeout s) (_ssl_shutdown_timeout s) (_active s) (_transports s) (_serving s) (_waiters s) (_serving_forever s) (_cleanup_path s) (f (_cleanup_identity s)).

(** [list.remove]: the list without the first occurrence, if there is one. *)
Fixpoint list_remove (x : oid) (l : list oid) : option (list oid) :=
  match l with
  | [] => None
  | y :: l' => if decide (x = y) then Some l' else (λ r, y :: r) <$> list_remove x l'
  end.

(** ** Interfaces *)

(** What a server needs of the connection code: [ConnectionOperations._accept_connection]. *)
Class Acceptor := { _accept_connection : oid → oid → M world unit }.

(** The file system's answer to [os.stat]: device and inode. *)
Class FileSystem := { stat_identity : nat → string → Z * Z }.

Section server.
Context `{K : Kernel} `{FS : FileSystem}.

(** ** Futures *)
Definition create_future : M world oid :=
  f <- alloc ;; modify (set_futs (<[f := Pending]>)) ;; ret f.
Definition fut_done (f : oid) : M world bool :=
  gets (λ w, negb (bool_decide (w_futs w !! f = Some Pending))).
Definition fut_settle (f : oid) (s : fut) : M world unit :=
  modify (set_futs (<[f := s]>)).
Definition set_result (f : oid) : M world unit :=
  d <- fut_done f ;; if (d : bool) then raise (mk InvalidStateError "invalid state") else fut_settle f Resolved.
Definition fut_cancel (f : oid) : M world unit :=
  d <- fut_done f ;; when_ (negb d) (fut_settle f Cancelled).

(** [await f]: resumed when [f] is done or the task cancelled, which cancels [f].  The
    model stops here, with its own marker, if [f] is still pending. *)
Definition await_future (f : oid) : M world unit :=
  yield_ ;; t <- tick ;;
  match wakes t with WCancel :: _ => fut_cancel f | _ => ret tt end ;;
  s <- gets (λ w, w_futs w !! f) ;;
  match s with
  | Some Resolved => ret tt
  | Some Cancelled => raise cancelled
  | _ => raise (mk ModelFuel "still waiting")
  end.

(** ** Bookkeeping *)
Definition get_server (sid : oid) : M world server :=
  s <- gets (λ w, w_servers w !! sid) ;;
  match s with Some s => ret s | None => raise (mk AttributeError "no such server") end.
Definition upd_server (sid : oid) (f : server → server) : M world unit :=
  modify (set_servers (alter f sid)).

Definition new_server (sockets : list oid) (ssl : sslarg) (backlog : nat)
    (handshake shutdown : option Z) : M world oid :=
  sid <- alloc ;;
  modify (set_servers (<[sid := Server (Some sockets) ssl backlog handshake shutdown 0 [] false
                                  (Some []) None None None]>)) ;;
  ret sid.

Definition _wakeup (sid : oid) : M world unit :=
  s <- get_server sid ;;
  upd_server sid (with_waiters (λ _, None)) ;;
  for_each (default [] (_waiters s)) (λ waiter,
    d <- fut_done waiter ;; when_ (negb d) (set_result waiter)).

(** A set: adding a member changes nothing. *)
Definition _attach (sid t : oid) : M world unit :=
  sys ;; upd_server sid (with_transports (λ l, if decide (t ∈ l) then l else l ++ [t])).

Definition _detach (sid : oid) (t : option oid) : M world unit :=
  log (EvDetach sid) ;;
  match t with
  | Some t => upd_server sid (with_transports (filter (λ x, x ≠ t)))
  | None => ret tt
  end ;;
  upd_server sid (with_active (λ n, n - 1)) ;;
  s <- get_server sid ;;
  when_ ((_active s =? 0) && bool_decide (_sockets s = None)) (_wakeup sid).

(** ** Serving *)
Definition _start_serving (sid : oid) : M world unit :=
  s <- get_server sid ;;
  match _sockets s with
  | None => ret tt
  | Some sockets =>
      when_ (negb (_serving s))
        (upd_server sid (with_serving (λ _, true)) ;;
         for_each sockets (λ sock, sock_listen sock (_backlog s))) ;;
      for_each sockets (λ sock, f <- need_fd sock ;; add_watch f false sock)
  end.

Definition start_serving (sid : oid) : M world unit :=
  s <- get_server sid ;; when_ (negb (_serving s)) (_start_serving sid) ;; await_.

(** ** Closing *)
Definition close_sockets (sockets : list oid) : M world unit :=
  for_each sockets (λ sock,
    f <- fileno sock ;;
    match f with Some f => remove_watch f false ;; ret tt | None => ret tt end ;;
    sock_close sock).

(** The listening path goes only if it is still the one this server bound. *)
Definition unlink_path (path : option string) (identity : option (Z * Z)) : M world unit :=
  catch
    (match path, identity with
     | Some path, Some identity =>
         sys ;; t <- tick ;;
         when_ (bool_decide (stat_identity t path = identity)) (log (EvUnlink path) ;; sys)
     | _, _ => ret tt
     end)
    (λ e, if isinstance e FileNotFoundError then ret tt
          else if isinstance e OSError then log (EvOther "Unable to clean up listening UNIX socket")
          else raise e).

Definition close (sid : oid) : M world unit :=
  s <- get_server sid ;;
  match _serving_forever s with
  | Some f =>
      d <- fut_done f ;;
      when_ (negb d) (upd_server sid (with_serving_forever (λ _, None)) ;; fut_cancel f)
  | None => ret tt
  end ;;
  match _sockets s with
  | None => ret tt
  | Some sockets =>
      upd_server sid (with_sockets (λ _, None)) ;;
      upd_server sid (with_serving (λ _, false)) ;;
      close_sockets sockets ;;
      upd_server sid (with_cleanup_path (λ _, None)) ;;
      upd_server sid (with_cleanup_identity (λ _, None)) ;;
      finally (unlink_path (_cleanup_path s) (_cleanup_identity s))
        (s <- get_server sid ;; when_ (_active s =? 0) (_wakeup sid))
  end.

Definition close_clients (sid : oid) : M world unit :=
  s <- get_server sid ;; for_each (_transports s) transport_close.
Definition abort_clients (sid : oid) : M world unit :=
  s <- get_server sid ;; for_each (_transports s) transport_abort.

(** ** Waiting.  The parts before and after the suspension are named: the loop runs each
    of them without interruption. *)
Definition wait_closed_enter (sid : oid) : M world (option oid) :=
  s <- get_server sid ;;
  match _waiters s with
  | None => ret None
  | Some _ =>
      if bool_decide (_sockets s = None) && (_active s =? 0) then ret None
      else
        waiter <- create_future ;;
        upd_server sid (with_waiters (fmap (λ l, l ++ [waiter]))) ;; ret (Some waiter)
  end.

Definition wait_closed_exit (sid waiter : oid) : M world unit :=
  s <- get_server sid ;;
  match _waiters s with
  | None => ret tt
  | Some l =>
      match list_remove waiter l with
      | Some l' => upd_server sid (with_waiters (λ _, Some l'))
      | None => raise (mk ValueError "list.remove(x): x not in list")
      end
  end.

Definition wait_closed (sid : oid) : M world unit :=
  r <- wait_closed_enter sid ;;
  match r with
  | None => ret tt
  | Some waiter => finally (await_future waiter) (wait_closed_exit sid waiter)
  end.

Definition serve_forever (sid : oid) : M world unit :=
  s <- get_server sid ;;
  if bool_decide (_serving_forever s ≠ None) then
    raise (mk RuntimeError "server is already being awaited on serve_forever()")
  else if bool_decide (_sockets s = None) then raise (mk RuntimeError "server is closed")
  else
    when_ (negb (_serving s)) (_start_serving sid) ;;
    f <- create_future ;;
    upd_server sid (with_serving_forever (λ _, Some f)) ;;
    finally
      (catch_cls (await_future f) CancelledError
         (λ e, finally (close sid ;; wait_closed sid) (raise e)))
      (upd_server sid (with_serving_forever (λ _, None))).

Definition __aexit__ (sid : oid) : M world unit := close sid ;; wait_closed sid.

(** ** Accepting *)
Definition out_of_resources (e : exn) : bool :=
  match exn_errno e with
  | Some n => bool_decide (n ∈ [24; 23; ENOBUFS plat; 12])
  | None => false
  end.

(** The [except] clauses around [sock.accept()]: the listener is paused when the process
    or the system is out of resources. *)
Definition accept_refused (sid sock : oid) (e : exn) : M world (option oid) :=
  if isinstance e BlockingIOError || isinstance e InterruptedError then ret None
  else if isinstance e OSError then
    (if out_of_resources e then
       f <- fileno sock ;;
       match f with Some f => remove_watch f false ;; ret tt | None => ret tt end ;;
       log (EvHandler "socket.accept() out of system resource" e) ;; log (EvLater sid)
     else log (EvHandler "Error accepting a connection" e)) ;;
    ret None
  else raise e.

(** The [except] clause around [_accept_connection]. *)
Definition accept_failed (sid conn : oid) (e : exn) : M world unit :=
  f <- fileno conn ;;
  when_ (bool_decide (is_Some f)) (sock_close conn ;; _detach sid None) ;;
  raise e.

Definition _accept `{A : Acceptor} (sid sock : oid) : M world unit :=
  s <- get_server sid ;;
  for_break (seq 0 (_backlog s)) (λ _,
    conn <- catch (c <- accept_sys sock ;; ret (Some c)) (accept_refused sid sock) ;;
    match conn with
    | None => ret (Some tt)
    | Some conn =>
        setblocking conn false ;;
        upd_server sid (with_active (λ n, n + 1)) ;; log (EvAccept conn sid) ;;
        catch (_accept_connection conn sid) (accept_failed sid conn) ;;
        ret None
    end) ;;
  ret tt.
End server.

(** ** Which of these leave descriptors alone *)
Section quiet_server.
Context `{KOk : KernelOk} `{FS : FileSystem}.

Lemma create_future_quiet : quiet create_future.
Proof. unfold create_future. solve_stable. Qed.
Lemma fut_settle_quiet f s : quiet (fut_settle f s).
Proof. unfold fut_settle. solve_stable. Qed.
Lemma fut_done_quiet f : quiet (fut_done f).
Proof. unfold fut_done. solve_stable. Qed.
#[local] Hint Resolve create_future_quiet fut_settle_quiet fut_done_quiet : stable.
Lemma set_result_quiet f : quiet (set_result f).
Proof. unfold set_result. solve_stable. Qed.
Lemma fut_cancel_quiet f : quiet (fut_cancel f).
Proof. unfold fut_cancel. solve_stable. Qed.
#[local] Hint Resolve set_result_quiet fut_cancel_quiet : stable.
Lemma await_future_quiet f : quiet (await_future f).
Proof. unfold await_future. solve_stable. Qed.
Lemma get_server_quiet sid : quiet (get_server sid).
Proof. unfold get_server. solve_stable. Qed.
Lemma upd_server_quiet sid f : quiet (upd_server sid f).
Proof. unfold upd_server. solve_stable. Qed.
#[local] Hint Resolve await_future_quiet get_server_quiet upd_server_quiet : stable.
Lemma new_server_quiet a b c d e : quiet (new_server a b c d e).
Proof. unfold new_server. solve_stable. Qed.
Lemma wakeup_quiet sid : quiet (_wakeup sid).
Proof. unfold _wakeup. solve_stable. Qed.
#[local] Hint Resolve wakeup_quiet : stable.
Lemma server_attach_quiet sid t : quiet (_attach sid t).
Proof. unfold _attach. solve_stable. Qed.
Lemma server_detach_quiet sid t : quiet (_detach sid t).
Proof. unfold _detach. solve_stable. Qed.
Lemma start_serving__quiet sid : quiet (_start_serving sid).
Proof. unfold _start_serving. solve_stable. Qed.
Lemma unlink_path_quiet p i : quiet (unlink_path p i).
Proof. unfold unlink_path. solve_stable. Qed.
End quiet_server.
#[export] Hint Resolve create_future_quiet fut_settle_quiet fut_done_quiet set_result_quiet
  fut_cancel_quiet await_future_quiet get_server_quiet upd_server_quiet new_server_quiet
  wakeup_quiet server_attach_quiet server_detach_quiet start_serving__quiet
  unlink_path_quiet : stable.

(** ** The server as a state machine

    Between suspensions the loop runs one of the operations above to its end.  A state is
    the world, the futures the suspended [wait_closed] calls wait on, and the number of
    accepted connections not yet gone. *)
Record state := State { st_world : world; st_waiting : gset oid; st_live : Z }.

Section machine.
Context `{K : Kernel} `{FS : FileSystem} (sid : oid).

(** What the rest of the program may do to the world in the meantime. *)
Definition others (G : gset oid) (w w' : world) : Prop :=
  w_servers w' !! sid = w_servers w !! sid ∧ (w_next w ≤ w_next w')%nat ∧
  ∀ f, f ∈ G → w_futs w' !! f = w_futs w !! f.

Inductive step : state → state → Prop :=
  | step_others w w' G n : others G w w' → step (State w G n) (State w' G n)
  | step_accepted w s G n :
      w_servers w !! sid = Some s → _sockets s ≠ None →
      step (State w G n) (State (upd_server sid (with_active (λ k, k + 1)) w).2 G (n + 1))
  | step_attach w G n t : step (State w G n) (State (_attach sid t w).2 G n)
  | step_detach w G n t : 0 < n → step (State w G n) (State (_detach sid t w).2 G (n - 1))
  | step_start w G n : step (State w G n) (State (_start_serving sid w).2 G n)
  | step_close w G n : step (State w G n) (State (close sid w).2 G n)
  | step_wait w G n r w' :
      wait_closed_enter sid w = (Ok r, w') →
      step (State w G n) (State w' (match r with Some f => {[f]} ∪ G | None => G end) n)
  | step_cancel w G n f : f ∈ G → step (State w G n) (State (fut_cancel f w).2 G n)
  | step_resume w G n f :
      f ∈ G → w_futs w !! f ≠ Some Pending →
      step (State w G n) (State (wait_closed_exit sid f w).2 (G ∖ {[f]}) n)
  | step_serve w G n :
      step (State w G n)
        (State ((f <- create_future ;; upd_server sid (with_serving_forever (λ _, Some f))) w).2 G n)
  | step_served w G n :
      step (State w G n) (State (upd_server sid (with_serving_forever (λ _, None)) w).2 G n).

(** A server as its constructor makes it, nobody waiting. *)
Inductive initial : state → Prop :=
  | initial_intro w sockets ssl backlog h d sid' w' :
      new_server sockets ssl backlog h d w = (Ok sid', w') → sid' = sid →
      initial (State w' ∅ 0).

(** The waiters are the suspended calls; once the list is gone so is every wait. *)
Definition waiting_ok (s : server) (G : gset oid) (futs : gmap nat fut) : Prop :=
  match _waiters s with
  | Some l => NoDup l ∧ list_to_set l = G
  | None => _sockets s = None ∧ ∀ f, f ∈ G → futs !! f ≠ Some Pending
  end.

Record inv0 (G : gset oid) (n : Z) (s : server) (w : world) : Prop := {
  inv_server : w_servers w !! sid = Some s;
  inv_active : _active s = n;
  inv_waiting : waiting_ok s G (w_futs w);
  inv_below : ∀ f, f ∈ G → (f < w_next w)%nat }.

Definition drained (n : Z) (s : server) : Prop :=
  _sockets s = None → n = 0 → _waiters s = None.

Definition inv (st : state) : Prop :=
  0 ≤ st_live st ∧
  ∃ s, inv0 (st_waiting st) (st_live st) s (st_world st) ∧ drained (st_live st) s.
End machine.

(** ** The invariant *)

(** A step that leaves the server's sockets, waiters and count alone and revives no future. *)
Record benign (sid : oid) (w w' : world) : Prop := {
  ben_next : (w_next w ≤ w_next w')%nat;
  ben_server : ∀ s, w_servers w !! sid = Some s → ∃ s', w_servers w' !! sid = Some s' ∧
    _sockets s' = _sockets s ∧ _active s' = _active s ∧ _waiters s' = _waiters s;
  ben_futs : ∀ f, (f < w_next w)%nat → w_futs w !! f ≠ Some Pending → w_futs w' !! f ≠ Some Pending }.
#[export] Instance benign_preorder sid : PreOrder (benign sid).
Proof.
  split.
  - intros w. split; [done|intros s H; by exists s|done].
  - intros w1 w2 w3 [N1 S1 F1] [N2 S2 F2]. split; [lia| |].
    + intros s Hs. destruct (S1 s Hs) as (s2 & H2 & A2 & B2 & C2).
      destruct (S2 s2 H2) as (s3 & H3 & A3 & B3 & C3). exists s3.
      rewrite A3, B3, C3, A2, B2, C2. done.
    + intros f Hf Hp. apply F2; [lia|by apply F1].
Qed.

Section invariant.
Context `{K : Kernel} `{FS : FileSystem} (sid : oid).

Lemma benign_frame w w' :
  (w_next w ≤ w_next w')%nat → w_servers w' = w_servers w → w_futs w' = w_futs w → benign sid w w'.
Proof. intros H1 H2 H3. split; [done|rewrite H2; by eauto|by rewrite H3]. Qed.
Lemma benign_frame_eq w w' :
  w_next w' = w_next w → w_servers w' = w_servers w → w_futs w' = w_futs w → benign sid w w'.
Proof. intros H. apply benign_frame. by rewrite H. Qed.
#[local] Hint Extern 2 (benign _ _ _) => (by apply benign_frame_eq) : stable.
Lemma benign_alloc w : benign sid w (set_next S w).
Proof. apply benign_frame; [cbn; lia|done..]. Qed.
Lemma benign_upd f w :
  (∀ s, _sockets (f s) = _sockets s ∧ _active (f s) = _active s ∧ _waiters (f s) = _waiters s) →
  benign sid w (set_servers (alter f sid) w).
Proof.
  intros H. split; [done| |done]. intros s Hs. cbn. exists (f s). by rewrite lookup_alter_eq, Hs.
Qed.
Lemma upd_benign f :
  (∀ s, _sockets (f s) = _sockets s ∧ _active (f s) = _active s ∧ _waiters (f s) = _waiters s) →
  stable (benign sid) (upd_server sid f).
Proof. intros H. unfold upd_server. solve_stable. by apply benign_upd. Qed.
#[local] Hint Extern 3 (stable (benign _) (upd_server _ _)) => (by apply upd_benign) : stable.
#[local] Hint Resolve benign_alloc : stable.
Lemma settle_benign f st : st ≠ Pending → stable (benign sid) (fut_settle f st).
Proof.
  intros Hst. unfold fut_settle. solve_stable. split; [done|by eauto|]. intros g _ Hg. cbn.
  destruct (decide (f = g)) as [<-|Hne]; [rewrite lookup_insert_eq|by rewrite lookup_insert_ne].
  congruence.
Qed.
#[local] Hint Extern 3 (stable (benign _) (fut_settle _ _)) => (by apply settle_benign) : stable.
Lemma tick_benign : stable (benign sid) tick.
Proof. unfold tick. solve_stable. Qed.
#[local] Hint Resolve tick_benign : stable.
Lemma sys_benign : stable (benign sid) sys.
Proof. unfold sys. solve_stable. Qed.
#[local] Hint Resolve sys_benign : stable.
Lemma get_server_benign : stable (benign sid) (get_server sid).
Proof. unfold get_server. solve_stable. Qed.
#[local] Hint Resolve get_server_benign : stable.
Lemma need_fd_benign o : stable (benign sid) (need_fd o).
Proof. unfold need_fd, fileno. solve_stable. Qed.
#[local] Hint Resolve need_fd_benign : stable.
Lemma watch_benign f b cb : stable (benign sid) (add_watch f b cb).
Proof. unfold add_watch, set_slot. destruct b; solve_stable. Qed.
#[local] Hint Resolve watch_benign : stable.
Lemma fut_cancel_benign f : stable (benign sid) (fut_cancel f).
Proof. unfold fut_cancel, fut_done. solve_stable. Qed.
#[local] Hint Resolve fut_cancel_benign : stable.
Lemma attach_benign t : stable (benign sid) (_attach sid t).
Proof. unfold _attach. solve_stable. Qed.
Lemma start_benign : stable (benign sid) (_start_serving sid).
Proof. unfold _start_serving, sock_listen, log. solve_stable. Qed.
Lemma close_sockets_benign l : stable (benign sid) (close_sockets l).
Proof. unfold close_sockets, fileno, remove_watch, set_slot, sock_close, fileno. solve_stable. Qed.
Lemma unlink_benign p i : stable (benign sid) (unlink_path p i).
Proof. unfold unlink_path, log. solve_stable. Qed.
Lemma create_future_benign : stable (benign sid) create_future.
Proof.
  intros w. unfold create_future, alloc. wp_go. split; [cbn; lia|by eauto|].
  intros f Hf Hp. cbn. by rewrite lookup_insert_ne by lia.
Qed.
Lemma serve_benign :
  stable (benign sid) (f <- create_future ;; upd_server sid (with_serving_forever (λ _, Some f))).
Proof. apply stable_bind; [apply _|apply create_future_benign|]. intros f. by apply upd_benign. Qed.

Lemma benign_inv0 G n s w w' : benign sid w w' → inv0 sid G n s w →
  ∃ s', inv0 sid G n s' w' ∧ _sockets s' = _sockets s ∧ _waiters s' = _waiters s.
Proof.
  intros B [H1 H2 H3 H4]. destruct (ben_server _ _ _ B s H1) as (s' & Hs & A & C & D).
  exists s'. split; [split; [done|congruence| |]|done].
  - unfold waiting_ok in *. rewrite D, A. destruct (_waiters s); [done|].
    destruct H3 as [H3 H5]. split; [done|]. intros f Hf. apply (ben_futs _ _ _ B); auto.
  - intros f Hf. specialize (H4 f Hf). pose proof (ben_next _ _ _ B). lia.
Qed.

(** A benign operation preserves the invariant, whatever its outcome. *)
Lemma benign_inv {A} (m : M world A) w G n :
  stable (benign sid) m → inv sid (State w G n) → inv sid (State (m w).2 G n).
Proof.
  intros Hm [Hn (s & H & Hd)]. specialize (Hm w). revert Hm. unfold wp. cbn in *.
  destruct (m w) as [[a|e] w']; cbn; intros Hb;
    (split; [done|]; destruct (benign_inv0 _ _ _ _ _ Hb H) as (s' & H' & E1 & E2);
     exists s'; split; [done|]; unfold drained; rewrite E1, E2; done).
Qed.
End invariant.

Section wakeups.
Context `{K : Kernel} `{FS : FileSystem} (sid : oid).

Lemma wp_get_server s (Q : server → world → Prop) E w :
  w_servers w !! sid = Some s → Q s w → wp (get_server sid) Q E w.
Proof. intros H HQ. unfold get_server. wp_go; congruence. Qed.

Lemma wp_upd_server s f (Q : unit → world → Prop) E w :
  w_servers w !! sid = Some s →
  (∀ w', w_servers w' !! sid = Some (f s) → w_next w' = w_next w → w_futs w' = w_futs w → Q tt w') →
  wp (upd_server sid f) Q E w.
Proof. intros H HQ. unfold upd_server. wp_step. apply HQ; [|done..]. cbn. by rewrite lookup_alter_eq, H. Qed.

(** Resolving the pending ones of [l] leaves none of them pending and raises nothing. *)
Lemma wp_resolve_all l w :
  wp (for_each l (λ waiter, d <- fut_done waiter ;; when_ (negb d) (set_result waiter)))
    (λ _ w', w_servers w' = w_servers w ∧ w_next w' = w_next w ∧
       (∀ f, w_futs w !! f ≠ Some Pending → w_futs w' !! f ≠ Some Pending) ∧
       (∀ f, f ∈ l → w_futs w' !! f ≠ Some Pending))
    (λ _ _, False) w.
Proof.
  apply (wp_for_each (λ rest w', w_servers w' = w_servers w ∧ w_next w' = w_next w ∧
    (∀ f, w_futs w !! f ≠ Some Pending → w_futs w' !! f ≠ Some Pending) ∧
    (∀ f, f ∈ l → f ∉ rest → w_futs w' !! f ≠ Some Pending))).
  - repeat split; done.
  - intros f rest w1 (H1 & H2 & H3 & H4). unfold set_result, fut_done, fut_settle.
    wp_go; rewrite ?negb_true_iff, ?negb_false_iff in *; simplify_eq; try done.
    + repeat split; [done..| |]; intros g; cbn.
      * intros Hg. destruct (decide (f = g)) as [<-|Hne]; [rewrite lookup_insert_eq; congruence|].
        rewrite lookup_insert_ne by done. auto.
      * intros Hg Hr. destruct (decide (f = g)) as [<-|Hne]; [rewrite lookup_insert_eq; congruence|].
        rewrite lookup_insert_ne by done. apply H4; [done|]. set_solver.
    + repeat split; [done..|]. intros g Hg Hr. destruct (decide (f = g)) as [<-|Hne].
      { match goal with H : negb _ = true |- _ => by apply negb_true_iff, bool_decide_eq_false in H end. }
      apply H4; [done|]. set_solver.
  - intros w1 (H1 & H2 & H3 & H4). repeat split; [done..|]. intros f Hf. apply H4; [done|].
    apply not_elem_of_nil.
Qed.

(** The wakeup of a closed server: the invariant holds afterwards and it is drained. *)
Lemma wp_wakeup G n s w :
  inv0 sid G n s w → _sockets s = None →
  wp (_wakeup sid) (λ _ w', ∃ s', inv0 sid G n s' w' ∧ _waiters s' = None ∧ _sockets s' = None)
     (λ _ _, False) w.
Proof.
  intros [H1 H2 H3 H4] Hs. unfold _wakeup. apply wp_bind, (wp_get_server s); [done|].
  apply wp_bind, (wp_upd_server s); [done|]. intros w1 S1 N1 F1.
  eapply wp_mono; [apply wp_resolve_all| |done]. intros [] w2 (S2 & N2 & F2 & L2).
  exists (with_waiters (λ _, None) s). split; [|done]. split; [by rewrite S2|done| |].
  - unfold waiting_ok in *. cbn. split; [done|]. intros f Hf.
    destruct (_waiters s) as [l|]; cbn in L2.
    + apply L2. destruct H3 as [_ <-]. by apply elem_of_list_to_set in Hf.
    + apply F2. rewrite F1. by apply H3.
  - intros f Hf. rewrite N2, N1. auto.
Qed.

Lemma wp_wakeup_when G n s w :
  inv0 sid G n s w → _sockets s = None →
  wp (when_ (_active s =? 0) (_wakeup sid))
     (λ _ w', ∃ s', inv0 sid G n s' w' ∧ drained n s') (λ _ _, False) w.
Proof.
  intros H Hs. apply wp_when; intros Ha.
  - eapply wp_mono; [by eapply wp_wakeup| |done]. intros [] w' (s' & H' & ? & _). exists s'. split; [done|by intros _ _].
  - exists s. split; [done|]. intros _ ->. apply Z.eqb_neq in Ha. by destruct Ha, H.
Qed.

Lemma inv0_with G n n' s f w w' :
  inv0 sid G n s w → w_servers w' !! sid = Some (f s) → w_next w' = w_next w → w_futs w' = w_futs w →
  _active (f s) = n' → _waiters (f s) = _waiters s →
  (_sockets s = None → _sockets (f s) = None) → inv0 sid G n' (f s) w'.
Proof.
  intros [H1 H2 H3 H4] E1 E2 E3 E4 E5 E6. split; [done|done| |by rewrite E2].
  unfold waiting_ok in *. rewrite E5, E3. destruct (_waiters s); [done|]. naive_solver.
Qed.

(** [_detach] and [close] leave the server drained. *)
Lemma wp_server_detach G n s t w :
  inv0 sid G n s w →
  wp (_detach sid t) (λ _ w', ∃ s', inv0 sid G (n - 1) s' w' ∧ drained (n - 1) s') (λ _ _, False) w.
Proof.
  intros H. unfold _detach. apply wp_bind. unfold log. wp_step.
  assert (H0 : inv0 sid G n s (log_event (EvDetach sid) w)) by (destruct H; by split).
  apply wp_bind. assert (wp (match t with
    | Some t => upd_server sid (with_transports (filter (λ x, x ≠ t))) | None => ret tt end)
    (λ _ w', ∃ s', inv0 sid G n s' w') (λ _ _, False) (log_event (EvDetach sid) w)) as Hw.
  { destruct t as [t|]; [|apply wp_ret; by exists s]. apply (wp_upd_server s); [apply H0|].
    intros w1 S1 N1 F1. eexists. eapply inv0_with; [exact H0|done..|apply H0|done|done]. }
  eapply wp_mono; [exact Hw| |done]. intros [] w1 (s1 & H1).
  apply wp_bind, (wp_upd_server s1); [apply H1|]. intros w2 S2 N2 F2.
  assert (H2 : inv0 sid G (n - 1) (with_active (λ n, n - 1) s1) w2).
  { eapply inv0_with; [exact H1|done..| |done|done]. cbn. f_equal. apply H1. }
  apply wp_bind, (wp_get_server (with_active (λ n, n - 1) s1)); [apply H2|].
  destruct (bool_decide_reflect (_sockets (with_active (λ n, n - 1) s1) = None)) as [Hs|Hs].
  - rewrite andb_true_r. by apply wp_wakeup_when.
  - rewrite andb_false_r. eexists. split; [exact H2|]. by intros ?.
Qed.
End wakeups.

Section preservation.
Context `{K : Kernel} `{FS : FileSystem} (sid : oid).

(** A benign statement in front of an argument about the invariant. *)
Lemma wp_benign {A} (m : M world A) G n s (Q : A → world → Prop) (E : exn → world → Prop) w :
  stable (benign sid) m → inv0 sid G n s w →
  (∀ a s' w', inv0 sid G n s' w' → _sockets s' = _sockets s → _waiters s' = _waiters s → Q a w') →
  (∀ e s' w', inv0 sid G n s' w' → _sockets s' = _sockets s → _waiters s' = _waiters s → E e w') →
  wp m Q E w.
Proof.
  intros Hm H HQ HE. apply (wp_stable (benign sid)); [done|intros a w' B..];
    destruct (benign_inv0 _ _ _ _ _ _ B H) as (s' & H' & E1 & E2); eauto.
Qed.

Lemma close_sockets_total l : total (close_sockets l).
Proof. unfold close_sockets, fileno, remove_watch, sock_close, fileno. solve_raises. Qed.

Definition settled (G : gset oid) (n : Z) (w : world) : Prop :=
  ∃ s, inv0 sid G n s w ∧ drained n s.

Lemma wp_close_inv G n s w :
  inv0 sid G n s w → drained n s → wp (close sid) (λ _, settled G n) (λ _, settled G n) w.
Proof.
  intros H Hd. unfold close. apply wp_bind, (wp_get_server sid s); [apply H|]. apply wp_bind.
  eapply wp_benign; [|exact H| |].
  { destruct (_serving_forever s); [|apply stable_ret, _]. unfold fut_done. solve_stable.
    - by apply upd_benign.
    - apply fut_cancel_benign. }
  2:{ intros e s1 w1 H1 E1 E2. exists s1. split; [done|]. unfold drained. by rewrite E1, E2. }
  intros _ s1 w1 H1 E1 E2. destruct (_sockets s) as [socks|] eqn:Es.
  2:{ apply wp_ret. exists s1. split; [done|]. unfold drained. rewrite E2. intros _ Hn. by apply Hd. }
  apply wp_bind, (wp_upd_server sid s1); [apply H1|]. intros w2 S2 N2 F2.
  set (s2 := with_sockets (λ _, None) s1).
  assert (H2 : inv0 sid G n s2 w2) by (eapply inv0_with; [exact H1|done..|apply H1|done|done]).
  assert (Hf : ∀ A (m : M world A) w3 s3, stable (benign sid) m → inv0 sid G n s3 w3 →
    _sockets s3 = None →
    wp (finally m (s <- get_server sid ;; when_ (_active s =? 0) (_wakeup sid)))
      (λ _, settled G n) (λ _, settled G n) w3).
  { intros A m w3 s3 Hm H3 E3. apply wp_finally. eapply wp_benign; [done|exact H3|intros a s4 w4 H4 E4 _..];
      (apply wp_bind, (wp_get_server sid s4); [apply H4|];
       eapply wp_mono; [apply wp_wakeup_when; [exact H4|congruence]|done|done]). }
  apply wp_bind, (wp_upd_server sid s2); [apply H2|]. intros w3 S3 N3 F3.
  assert (H3 : inv0 sid G n (with_serving (λ _, false) s2) w3)
    by (eapply inv0_with; [exact H2|done..|apply H2|done|done]).
  apply wp_bind, (wp_stable_total (benign sid)); [apply close_sockets_benign|apply close_sockets_total|].
  intros _ w4 B4. destruct (benign_inv0 _ _ _ _ _ _ B4 H3) as (s4 & H4 & E4 & _).
  apply wp_bind, (wp_upd_server sid s4); [apply H4|]. intros w5 S5 N5 F5.
  set (s5 := with_cleanup_path (λ _, None) s4).
  assert (H5 : inv0 sid G n s5 w5) by (eapply inv0_with; [exact H4|done..|apply H4|done|done]).
  apply wp_bind, (wp_upd_server sid s5); [apply H5|]. intros w6 S6 N6 F6.
  eapply Hf; [apply unlink_benign| |].
  - eapply inv0_with; [exact H5|exact S6|done|done|apply H5|done|done].
  - cbn. by rewrite E4.
Qed.
End preservation.

Lemma list_remove_spec x l : NoDup l → x ∈ l →
  ∃ l', list_remove x l = Some l' ∧ NoDup l' ∧ ∀ y, y ∈ l' ↔ y ∈ l ∧ y ≠ x.
Proof.
  induction l as [|z l IH]; intros Hnd Hx; [by apply elem_of_nil in Hx|].
  apply NoDup_cons in Hnd as [Hz Hnd]. cbn. case_decide as Hd.
  - subst z. exists l. split; [done|]. split; [done|]. intros y. rewrite elem_of_cons. naive_solver.
  - apply elem_of_cons in Hx as [?|Hx]; [done|]. destruct (IH Hnd Hx) as (l' & -> & Hnd' & Hl').
    exists (z :: l'). split; [done|]. split.
    + apply NoDup_cons. split; [by rewrite Hl'; intros []|done].
    + intros y. rewrite !elem_of_cons, Hl'. naive_solver.
Qed.

Section machine_invariant.
Context `{K : Kernel} `{FS : FileSystem} (sid : oid).

Lemma wp_wait_closed_enter G n s w :
  inv0 sid G n s w → drained n s →
  wp (wait_closed_enter sid)
     (λ r, settled sid (match r with Some f => {[f]} ∪ G | None => G end) n) (λ _ _, False) w.
Proof.
  intros H Hd. unfold wait_closed_enter. apply wp_bind, (wp_get_server sid s); [apply H|].
  destruct (_waiters s) as [l|] eqn:El; [|apply wp_ret; by exists s].
  destruct (_ && _) eqn:Hc; [apply wp_ret; by exists s|].
  pose proof H as [H1 H2 H3 H4]. unfold waiting_ok in H3. rewrite El in H3. destruct H3 as [Hnd <-].
  unfold create_future, alloc. apply wp_bind. wp_step. wp_step. wp_step. wp_step. wp_step. wp_step. wp_step. wp_step.
  assert (Hn : w_next w ∉ l) by (intros Hin; specialize (H4 (w_next w)); rewrite elem_of_list_to_set in H4; specialize (H4 Hin); lia).
  apply wp_bind, (wp_upd_server sid s); [done|]. intros w' S' N' F'. apply wp_ret.
  exists (with_waiters (fmap (λ l, l ++ [w_next w])) s). split; [split; [done|done| |]|].
  - unfold waiting_ok. cbn. rewrite El. cbn. split; [apply NoDup_app; repeat split; [done| |apply NoDup_singleton]; set_solver|].
    rewrite list_to_set_app_L. set_solver.
  - intros f Hf. rewrite N'. cbn. apply elem_of_union in Hf as [->%elem_of_singleton|Hf]; [lia|].
    specialize (H4 f Hf). lia.
  - unfold drained. cbn. intros Hs Hn0. by rewrite (Hd Hs Hn0) in El.
Qed.

Lemma wp_wait_closed_exit G n s f w :
  inv0 sid G n s w → drained n s → f ∈ G →
  wp (wait_closed_exit sid f) (λ _, settled sid (G ∖ {[f]}) n) (λ _ _, False) w.
Proof.
  intros H Hd Hf. unfold wait_closed_exit. apply wp_bind, (wp_get_server sid s); [apply H|].
  pose proof H as [H1 H2 H3 H4]. unfold waiting_ok in H3. destruct (_waiters s) as [l|] eqn:El.
  - destruct H3 as [Hnd <-]. apply elem_of_list_to_set in Hf.
    destruct (list_remove_spec f l Hnd Hf) as (l' & -> & Hnd' & Hl').
    apply (wp_upd_server sid s); [done|]. intros w' S' N' F'.
    exists (with_waiters (λ _, Some l') s). split; [split; [done|done| |]|].
    + unfold waiting_ok. cbn. split; [done|]. apply set_eq. intros g.
      rewrite elem_of_difference, !elem_of_list_to_set, elem_of_singleton. apply Hl'.
    + intros g [Hg _]%elem_of_difference. rewrite N'. by apply H4.
    + unfold drained. cbn. intros Hs Hn0. by rewrite (Hd Hs Hn0) in El.
  - apply wp_ret. exists s. split; [split; [done|done| |]|done].
    + unfold waiting_ok. rewrite El. destruct H3 as [Hs H3]. split; [done|].
      intros g [Hg _]%elem_of_difference. by apply H3.
    + intros g [Hg _]%elem_of_difference. by apply H4.
Qed.

Lemma wp_settled {A} (m : M world A) G n w :
  wp m (λ _, settled sid G n) (λ _, settled sid G n) w → settled sid G n (m w).2.
Proof. unfold wp. by destruct (m w) as [[a|e] w']. Qed.

Lemma initial_inv st : initial sid st → inv sid st.
Proof.
  intros [w sockets ssl backlog h d sid' w' Hn ->]. split; [done|].
  unfold new_server, alloc, bind, gets, modify, ret in Hn. cbn in Hn. injection Hn as <- <-.
  eexists. split; [split|].
  - cbn. apply lookup_insert_eq.
  - done.
  - split; [constructor|done].
  - intros f Hf. set_solver.
  - done.
Qed.

Lemma step_inv st st' : step sid st st' → inv sid st → inv sid st'.
Proof.
  intros Hstep Hinv. destruct Hstep as
    [w w' G n Ho|w s G n Hs Hk|w G n t|w G n t Hn|w G n|w G n|w G n r w' Hr|w G n f Hf|w G n f Hf Hd|w G n|w G n].
  - destruct Ho as (E1 & E2 & E3). destruct Hinv as [Hn (s & [H1 H2 H3 H4] & Hd)]. split; [done|].
    exists s. split; [|done]. cbn in *. split; [congruence|done| |].
    + unfold waiting_ok in *. destruct (_waiters s); [done|]. destruct H3. split; [done|].
      intros f Hf. rewrite E3 by done. auto.
    + intros f Hf. specialize (H4 f Hf). lia.
  - destruct Hinv as [Hn (s' & H & Hd)]. cbn in *. pose proof (inv_server _ _ _ _ _ H) as Hs'.
    assert (s' = s) as -> by congruence. split; [cbn; lia|]. cbn. eexists. split.
    + eapply inv0_with; [exact H|cbn; by rewrite lookup_alter_eq, Hs|done|done| |done|done].
      cbn. f_equal. apply H.
    + intros Hs0. done.
  - apply benign_inv; [|done]. apply attach_benign.
  - destruct Hinv as [_ (s & H & Hd)]. cbn in *. split; [cbn; lia|]. apply wp_settled.
    eapply wp_mono; [by apply (wp_server_detach sid G n s)|done|by intros ? ? []].
  - apply benign_inv; [|done]. apply start_benign.
  - destruct Hinv as [Hn (s & H & Hd)]. cbn in *. split; [done|]. apply wp_settled. by eapply (wp_close_inv sid G n s).
  - destruct Hinv as [Hn (s & H & Hd)]. cbn in *. split; [done|].
    pose proof (wp_wait_closed_enter _ _ _ _ H Hd) as Hw. unfold wp in Hw. by rewrite Hr in Hw.
  - apply benign_inv; [|done]. apply fut_cancel_benign.
  - destruct Hinv as [Hn (s & H & Hd')]. cbn in *. split; [done|]. apply wp_settled.
    eapply wp_mono; [by eapply wp_wait_closed_exit|done|by intros ? ? []].
  - apply benign_inv; [|done]. apply serve_benign.
  - apply benign_inv; [|done]. by apply upd_benign.
Qed.

Lemma reachable_inv st st' : initial sid st → rtc (step sid) st st' → inv sid st'.
Proof.
  intros Hi. apply (rtc_ind_r (λ st', inv sid st') st); [by apply initial_inv|].
  intros y z _ Hs Hy. by eapply step_inv.
Qed.
End machine_invariant.

(** C7: No wakeup is lost: in every state a server can reach - connections accepted, attached
    and detached, [close] called any number of times, [wait_closed] entered, cancelled and
    left in any order - once it is closed and its last connection is gone, no suspended
    [wait_closed] still waits, and a later one returns without waiting. *)
Theorem no_lost_wakeup `{K : Kernel} `{FS : FileSystem} sid st0 w G n s :
  initial sid st0 → rtc (step sid) st0 (State w G n) →
  w_servers w !! sid = Some s → _sockets s = None → _active s = 0 →
  (∀ f, f ∈ G → w_futs w !! f ≠ Some Pending) ∧ wait_closed_enter sid w = (Ok None, w).
Proof.
  intros Hi Hr Hs Hc Ha. destruct (reachable_inv _ _ _ Hi Hr) as [_ (s' & [H1 H2 H3 _] & Hd)].
  cbn in *. assert (s' = s) as -> by congruence.
  assert (Hw : _waiters s = None) by (apply Hd; congruence).
  unfold waiting_ok in H3. rewrite Hw in H3. split; [apply H3|].
  unfold wait_closed_enter, get_server, bind, gets. rewrite Hs. cbn. by rewrite Hw.
Qed.


(** ** What closing releases *)
Record tail_step (w w' : world) : Prop := {
  tail_keeps : keeps w w'; tail_readers : w_readers w' = w_readers w }.
#[export] Instance tail_preorder : PreOrder tail_step.
Proof. split; [by split|]. intros x y z [H1 H2] [H3 H4]. split; [by etrans|congruence]. Qed.

Section closing.
Context `{KOk : KernelOk} `{FS : FileSystem} (sid : oid).

#[local] Hint Extern 2 (tail_step _ _) => (by split; [apply keeps_frame|]) : stable.
Lemma sys_tail : stable tail_step sys.
Proof. unfold sys, tick. solve_stable. Qed.
Lemma get_server_tail : stable tail_step (get_server sid).
Proof. unfold get_server. solve_stable. Qed.
Lemma upd_server_tail f : stable tail_step (upd_server sid f).
Proof. unfold upd_server. solve_stable. Qed.
#[local] Hint Resolve sys_tail get_server_tail upd_server_tail : stable.
Lemma unlink_tail p i : stable tail_step (unlink_path p i).
Proof. unfold unlink_path, tick, log. solve_stable. Qed.
Lemma wakeup_tail : stable tail_step (_wakeup sid).
Proof. unfold _wakeup, set_result, fut_done, fut_settle. solve_stable. Qed.
Lemma fut_cancel_tail f : stable tail_step (fut_cancel f).
Proof. unfold fut_cancel, fut_done, fut_settle. solve_stable. Qed.
#[local] Hint Resolve unlink_tail wakeup_tail fut_cancel_tail : stable.

(** The loop over the listening sockets. *)
Lemma wp_close_sockets w0 l w :
  owns w0 l w →
  wp (close_sockets l.*1)
    (λ _ w', owns w0 [] w' ∧ ∀ f, f ∈ l.*2 → w_readers w' !! f = None) (λ _ _, False) w.
Proof.
  intros Ho. unfold close_sockets.
  apply (wp_for_each (λ rest w', ∃ l2, rest = l2.*1 ∧ owns w0 l2 w' ∧
    ∀ f, f ∈ l.*2 → f ∉ l2.*2 → w_readers w' !! f = None)).
  - by exists l.
  - intros o rest w1 (l2 & E & Ho1 & Hr). destruct l2 as [|[o' f] l2]; [done|].
    injection E as -> ->. assert (Hh : holds w1 o' f) by (apply (own_holds _ _ _ Ho1); left).
    apply wp_bind. eapply wp_fileno; [done|]. unfold remove_watch. wp_go. set (w2 := set_slot _ _ w1).
    assert (Ho2 : owns w0 ((o', f) :: l2) w2) by (by eapply owns_keeps, keeps_own_frame).
    unfold sock_close. apply wp_bind. eapply wp_fileno; [apply (own_holds _ _ _ Ho2); left|]. wp_go.
    exists l2. split; [done|]. split; [by apply (owns_close w0 [] o' f l2)|].
    intros g Hg Hn. cbn. destruct (decide (g = f)) as [->|Hne]; [by rewrite lookup_delete_eq|].
    rewrite lookup_delete_ne by done. apply Hr; [done|]. cbn. set_solver.
  - intros w1 (l2 & E & Ho1 & Hr). destruct l2; [|done]. split; [done|]. intros f Hf. apply Hr; [done|].
    apply not_elem_of_nil.
Qed.

Lemma wp_close_releases w0 l s w :
  w_servers w !! sid = Some s → _sockets s = Some l.*1 → owns w0 l w →
  let released w' := owns w0 [] w' ∧ ∀ f, f ∈ l.*2 → w_readers w' !! f = None in
  wp (close sid) (λ _, released) (λ _, released) w.
Proof.
  intros Hs Hl Ho released.
  assert (Htail : ∀ A (m : M world A) w', stable tail_step m → released w' →
    wp m (λ _, released) (λ _, released) w').
  { intros A m w' Hm [H1 H2]. apply (wp_stable tail_step); [done|..]; intros ? w'' [HK HR];
      (split; [by eapply owns_keeps, keeps_owned|rewrite HR; auto]). }
  assert (Hown : ∀ A (m : M world A) (Q : A → world → Prop) w', total m → quiet m → owns w0 l w' →
    (∀ a w'', owns w0 l w'' → Q a w'') → wp m Q (λ _, released) w').
  { intros A m Q w' Ht Hq Ho' HQ. apply (wp_stable_total keeps); [done|done|]. intros a w'' [HK _].
    apply HQ. by eapply owns_keeps. }
  unfold close. apply wp_bind, (wp_get_server sid s); [done|]. rewrite Hl.
  apply wp_bind, Hown; [|solve_stable|done|intros _ w1 Ho1].
  { destruct (_serving_forever s); unfold fut_done, upd_server, fut_cancel, fut_done, fut_settle; solve_raises. }
  apply wp_bind, Hown; [unfold upd_server; solve_raises|solve_stable|done|intros _ w2 Ho2].
  apply wp_bind, Hown; [unfold upd_server; solve_raises|solve_stable|done|intros _ w3 Ho3].
  apply wp_bind. eapply wp_mono; [by apply wp_close_sockets| |done]. intros [] w4 Hr.
  apply Htail; [solve_stable|done].
Qed.
End closing.

(** Closing a server closes every listening socket it still has and removes its reader
    registration, whatever the clean-up of the path does; nothing else that is owned
    changes hands. *)
Theorem server_close_releases `{KOk : KernelOk} `{FS : FileSystem} sid w0 l s w :
  w_servers w !! sid = Some s → _sockets s = Some l.*1 → owns w0 l w →
  let released w' := mine w' = mine w ∖ list_to_set l.*2 ∧ ∀ f, f ∈ l.*2 → w_readers w' !! f = None in
  wp (close sid) (λ _, released) (λ _, released) w.
Proof.
  intros Hs Hl Ho released.
  assert (Hr : ∀ w', owns w0 [] w' ∧ (∀ f, f ∈ l.*2 → w_readers w' !! f = None) → released w').
  { intros w' [Ho' Hf]. split; [|done]. rewrite (own_mine _ _ _ Ho'), (own_mine _ _ _ Ho). cbn.
    pose proof (own_fresh _ _ _ Ho). apply set_eq. intros x. set_unfold. naive_solver. }
  eapply wp_mono; [by eapply wp_close_releases|by auto..].
Qed.

(** The path of a UNIX listener is removed only when it still has the identity recorded at
    bind time: a path that another process has since replaced is left alone. *)
Theorem unlink_only_own `{K : Kernel} `{FS : FileSystem} path identity w :
  let only_own w' := ∀ p, EvUnlink p ∈ w_log w' → EvUnlink p ∈ w_log w ∨
    (path = Some p ∧ ∃ t, identity = Some (stat_identity t p)) in
  wp (unlink_path path identity) (λ _, only_own) (λ _, only_own) w.
Proof.
  intros only_own. assert (Hsys : ∀ w1, only_own w1 → wp sys (λ _, only_own) (λ _, only_own) w1).
  { intros w1 H1. unfold sys, tick. by wp_go. }
  assert (Hw : only_own w) by (intros p Hp; by left).
  assert (Hh : ∀ e w1, only_own w1 →
    wp (if isinstance e FileNotFoundError then ret tt
        else if isinstance e OSError then log (EvOther "Unable to clean up listening UNIX socket")
        else raise e) (λ _, only_own) (λ _, only_own) w1).
  { intros e w1 H1. wp_go; [done| |done]. apply wp_modify. intros p Hp. cbn in Hp.
    apply elem_of_app in Hp as [Hp|Hp]; [by apply H1|]. by apply list_elem_of_singleton in Hp. }
  unfold unlink_path. apply wp_catch. destruct path as [p|], identity as [i|]; try (by apply wp_ret).
  apply wp_bind. eapply wp_mono; [by apply Hsys| |auto]. intros [] w1 H1. unfold tick. wp_go; [|done].
  apply bool_decide_eq_true in H as Hi. unfold log. wp_step.
  eapply wp_mono; [apply Hsys|done|auto]. intros p' Hp. cbn in Hp.
  apply elem_of_app in Hp as [Hp|Hp]; [by apply H1|]. apply list_elem_of_singleton in Hp as [= ->].
  right. split; [done|]. by eexists; rewrite Hi.
Qed.

(** ** The theorems above at concrete inputs *)
Definition no_disk : FileSystem := {| stat_identity := λ _ _, (0, 0) |}.
Definition fresh_server : world := (new_server [0%nat] SSLNone 100 None None world0).2.
Definition closed_server : world := (close (K := steady [] []) (FS := no_disk) 0 fresh_server).2.

Lemma fresh_initial : initial 0 (State fresh_server ∅ 0).
Proof. by eapply (initial_intro 0 world0 [0%nat] SSLNone 100 None None 0). Qed.

Lemma no_lost_wakeup_witness :
  (∀ f, f ∈ (∅ : gset oid) → w_futs closed_server !! f ≠ Some Pending) ∧
  wait_closed_enter 0 closed_server = (Ok None, closed_server).
Proof.
  apply (no_lost_wakeup (K := steady [] []) (FS := no_disk) 0 (State fresh_server ∅ 0) closed_server ∅ 0
           (Server None SSLNone 100 None None 0 [] false None None None None)).
  - apply fresh_initial.
  - apply rtc_once, (step_close (K := steady [] []) (FS := no_disk)).
  - vm_compute. reflexivity.
  - reflexivity.
  - reflexivity.
Defined.

(** A waiter suspended before anything closes. *)
Definition awaited_server : world := (wait_closed_enter 0 fresh_server).2.

Definition listening : world :=
  set_servers (<[1%nat := Server (Some [0%nat]) SSLNone 100 None None 0 [] true (Some []) None None None]>)
    (set_readers (<[3%nat := 0%nat]>) (one_socket AF_INET false)).
Lemma server_close_releases_witness :
  let w := listening in
  let released w' := mine w' = mine w ∖ list_to_set [3%nat] ∧ ∀ f, f ∈ [3%nat] → w_readers w' !! f = None in
  wp (close (K := steady [] []) (FS := no_disk) 1) (λ _, released) (λ _, released) w.
Proof.
  apply (server_close_releases (KOk := steady_ok [] []) (FS := no_disk) 1
           (set_fds (delete 3%nat) listening) [(0%nat, 3%nat)]
           (Server (Some [0%nat]) SSLNone 100 None None 0 [] true (Some []) None None None)).
  - reflexivity.
  - reflexivity.
  - apply owns_given, (one_socket_holds AF_INET false).
Defined.
