(* ===== verification/Attach.v ===== *)
(** * From a socket to a transport (zuvloop/_connect.py)

    Attaching a connected socket to a native transport, with the TLS handshake where one is
    asked for, and the operations built on it: [create_connection],
    [create_unix_connection], [connect_accepted_socket], the accept path of servers and
    [start_tls].  The question throughout is who closes the descriptor when a step fails. *)
From S2P Require Import Prelude World Checks Server Connect.

(** What the TLS driver of the standard library and the default context answer:
    [driver_ready] is whether the driver has its application transport. *)
Class TlsDriver := { driver_ready : nat → bool; default_context : nat }.

(** What [create_connection] and the like return: the transport itself, or the
    application side of a TLS driver on top of it. *)
Inductive wrapped :=
  | Plain (t : oid)
  | OverTls (t : oid) (context : nat) (server_side : bool) (server_hostname : option string).
Definition native_transport (r : wrapped) : oid :=
  match r with Plain t | OverTls t _ _ _ => t end.

Section attach.
Context `{K : Kernel} `{TD : TlsDriver}.

(** [sock.getsockname] and [sock.getpeername]. *)
Definition socket_address (o : oid) : M world pyaddr :=
  need_fd o ;; sys ;; t <- tick ;; ret (addr_of t).

Definition _attach_transport (sock : oid) (waiter server : option oid) : M world oid :=
  sockname <- _safe_addr (socket_address sock) ;;
  peername <- _safe_addr (socket_address sock) ;;
  s <- get_sock sock ;;
  let kind := if ps_family s =? AF_UNIX_ plat then KIND_PIPE else KIND_TCP in
  let extra := Extra sockname peername (ps_family s) (ps_type s) (ps_proto s) (Some sock) in
  fd <- need_fd sock ;;
  transport <- make_transport fd kind waiter extra server ;;
  catch
    (adopt_socket_view transport sock ;;
     match server with Some sid => _attach sid transport | None => ret tt end)
    (λ e, sock_detach sock ;; transport_abort transport ;; raise e) ;;
  ret transport.

(** The first [try] of [_wrap_socket]: the protocol, the waiter and the transport. *)
Definition wrap_setup (sock : oid) (ssl : sslarg) (server_side : bool) (server : option oid)
    : M world (oid * oid) :=
  user_call ;;
  waiter <- create_future ;;
  if ssl_truthy ssl then
    sys ;; transport <- _attach_transport sock None server ;; ret (transport, waiter)
  else transport <- _attach_transport sock (Some waiter) server ;; ret (transport, waiter).

Definition _wrap_socket (sock : oid) (ssl : sslarg) (server_hostname : option string)
    (server_side : bool) (handshake shutdown : option Z) (server : option oid)
    : M world wrapped :=
  tw <- catch (wrap_setup sock ssl server_side server)
    (λ e,
      f <- fileno sock ;;
      when_ (bool_decide (server = None) && bool_decide (is_Some f)) (sock_close sock) ;;
      raise e) ;;
  catch (await_future tw.2) (λ e, transport_close tw.1 ;; raise e) ;;
  if ssl_truthy ssl then
    t <- tick ;;
    if driver_ready t
    then ret (OverTls tw.1 (_resolve_context default_context ssl server_side) server_side server_hostname)
    else raise (mk RuntimeError "TLS setup did not create an application transport")
  else ret (Plain tw.1).

(** ** Accepting *)
Definition _accept_connection_ (conn sid : oid) : M world unit :=
  s <- get_server sid ;;
  match _ssl s with
  | SSLNone => user_call ;; _attach_transport conn None (Some sid) ;; ret tt
  | _ =>
      (* [create_task(self._accept_tls(...))]: the descriptor is the task's from here *)
      sys ;; f <- need_fd conn ;; modify (set_fds (<[f := Foreign]>)) ;; log (EvTask conn sid)
  end.

Definition _accept_tls (conn sid : oid) : M world unit :=
  s <- get_server sid ;;
  catch
    (_wrap_socket conn (_ssl s) None true (_ssl_handshake_timeout s) (_ssl_shutdown_timeout s)
       (Some sid) ;; ret tt)
    (λ e,
      f <- fileno conn ;;
      quiet_ <- (if bool_decide (is_Some f) then sock_close conn ;; _detach sid None ;; ret false
                 else ret (isinstance e ConnectionError || isinstance e TimeoutError)) ;;
      if (quiet_ : bool) then ret tt
      else if isinstance e Exception_ then log (EvHandler "Error completing a TLS handshake" e)
      else raise e).
End attach.

(** ** Upgrading a connection *)

(** The part of a [StreamReader] that [start_tls] moves. *)
Record stream_reader := StreamReader { _buffer : list Byte.byte; _paused : bool }.

(** Bytes the peer sent before the upgrade are the driver's to read: the reader's buffer is
    emptied into the incoming BIO. *)
Definition transfer_buffer (server_side : bool) (reader : option stream_reader)
    (incoming : list Byte.byte) : option stream_reader * list Byte.byte :=
  match reader with
  | Some r =>
      if server_side && negb (Nat.eqb (length (_buffer r)) 0)
      then (Some (StreamReader [] false), incoming ++ _buffer r)
      else (Some r, incoming)
  | None => (None, incoming)
  end.

Section start_tls.
Context `{K : Kernel} `{TD : TlsDriver}.

(** A scheduled callback: pending until it runs or is cancelled. *)
Definition call_soon : M world oid := sys ;; create_future.

(** [sslcontext] is [None] when the argument is no [SSLContext], [transport] when it is no
    [asyncio.Transport]; [reader] is the protocol's stream reader if it has one. *)
Definition start_tls (transport : option oid) (sslcontext : option nat) (server_side : bool)
    (server_hostname : option string) (reader : option stream_reader)
    : M world (wrapped * (option stream_reader * list Byte.byte)) :=
  match sslcontext, transport with
  | None, _ => raise (mk TypeError "sslcontext is expected to be an instance of ssl.SSLContext")
  | _, None => raise (mk TypeError "transport must support both reading and writing")
  | Some context, Some stream =>
      waiter <- create_future ;;
      sys ;; sys ;;                 (* the driver; [stream.pause_reading()] *)
      let moved := transfer_buffer server_side reader [] in
      sys ;;                        (* [stream.set_protocol(ssl_protocol)] *)
      connection_made_handle <- call_soon ;;
      resume_reading_handle <- call_soon ;;
      catch (await_future waiter)
        (λ e, fut_cancel connection_made_handle ;; fut_cancel resume_reading_handle ;;
              transport_close stream ;; raise e) ;;
      t <- tick ;;
      if driver_ready t then ret (OverTls stream context server_side server_hostname, moved)
      else raise (mk RuntimeError "TLS setup did not create an application transport")
  end.
End start_tls.

#[export] Instance connect_acceptor `{K : Kernel} `{TD : TlsDriver} : Acceptor := {
  _accept_connection := _accept_connection_ }.

(** ** Clients *)
Section clients.
Context `{K : Kernel} `{TD : TlsDriver} `{C : Connector} `{R : Resolver}.
Context (ipaddr_info : list aitem → Z → Z → Z → option addrinfo) (race_started : nat → nat).

Record tcp_options := TcpOptions {
  o_host : option string; o_port : option aitem; o_ssl : sslarg;
  o_family : Z; o_proto : Z; o_flags : Z; o_sock : option oid;
  o_local_addr : option (list aitem); o_server_hostname : option string;
  o_handshake : option Z; o_shutdown : option Z;
  o_happy_eyeballs_delay : option Z; o_interleave : option Z; o_all_errors : bool }.

Definition create_connection (p : tcp_options) : M world wrapped :=
  server_hostname <- of_res (_check_ssl_args (o_ssl p) (o_server_hostname p) (o_host p)) ;;
  of_res (_check_ssl_timeouts (o_ssl p) (o_handshake p) (o_shutdown p)) ;;
  let happy := bool_decide (o_happy_eyeballs_delay p ≠ None) in
  let interleave :=
    if happy && bool_decide (o_interleave p = None) then Some 1 else o_interleave p in
  sock <-
    (if bool_decide (o_host p ≠ None) || bool_decide (o_port p ≠ None) then
       match o_sock p with
       | Some _ => raise (mk ValueError "host/port and sock can not be specified at the same time")
       | None =>
           _connect_tcp ipaddr_info race_started (o_host p) (o_port p) (o_family p) (o_proto p)
             (o_flags p) (o_local_addr p) happy interleave (o_all_errors p)
       end
     else match o_sock p with
     | None => raise (mk ValueError "host and port was not specified and no sock specified")
     | Some sock =>
         s <- get_sock sock ;; of_res (_check_socket s SOCK_STREAM None) ;;
         setblocking sock false ;; ret sock
     end) ;;
  _wrap_socket sock (o_ssl p) server_hostname false (o_handshake p) (o_shutdown p) None.

Definition create_unix_connection (path : option string) (ssl : sslarg) (sock : option oid)
    (server_hostname : option string) (handshake shutdown : option Z) : M world wrapped :=
  if is_win32 plat then
    raise (mk NotImplementedError "create_unix_connection() is not supported on Windows")
  else if bool_decide (ssl = SSLNone) && bool_decide (server_hostname ≠ None) then
    raise (mk ValueError "server_hostname is only meaningful with ssl")
  else
    of_res (_check_ssl_timeouts ssl handshake shutdown) ;;
    sock <-
      match path, sock with
      | Some _, Some _ => raise (mk ValueError "path and sock can not be specified at the same time")
      | Some path, None =>
          sock <- socket_new (AF_UNIX_ plat) SOCK_STREAM 0 ;;
          setblocking sock false ;;
          catch (sock_connect sock (AText path)) (λ e, sock_close sock ;; raise e) ;;
          ret sock
      | None, None => raise (mk ValueError "no path and sock were specified")
      | None, Some sock =>
          s <- get_sock sock ;; of_res (_check_socket s SOCK_STREAM (Some (AF_UNIX_ plat))) ;;
          setblocking sock false ;; ret sock
      end ;;
    _wrap_socket sock ssl server_hostname false handshake shutdown None.

Definition connect_accepted_socket (sock : oid) (ssl : sslarg) (handshake shutdown : option Z)
    : M world wrapped :=
  of_res (_check_ssl_timeouts ssl handshake shutdown) ;;
  s <- get_sock sock ;; of_res (_check_socket s SOCK_STREAM None) ;;
  setblocking sock false ;;
  _wrap_socket sock ssl None true handshake shutdown None.
End clients.

(** ** Statements that touch neither what we own nor the trace *)
Record calm (w w' : world) : Prop := { calm_keeps : keeps w w'; calm_log : w_log w' = w_log w }.
#[export] Instance calm_preorder : PreOrder calm.
Proof.
  split; [by split|]. intros x y z [H1 H2] [H3 H4]. split; [by etrans|congruence].
Qed.
Lemma calm_frame w w' :
  w_next w' = w_next w → w_fds w' = w_fds w → w_errs w' = w_errs w → w_socks w' = w_socks w →
  w_trans w' = w_trans w → w_log w' = w_log w → calm w w'.
Proof. intros. split; [by apply keeps_frame|done]. Qed.
#[export] Hint Extern 2 (calm _ _) => (by apply calm_frame) : stable.

Section calm.
Context `{KOk : KernelOk}.
Lemma tick_calm : stable calm tick.
Proof. unfold tick. solve_stable. Qed.
#[local] Hint Resolve tick_calm : stable.
Lemma alloc_calm : stable calm alloc.
Proof. unfold alloc. solve_stable. split; [apply keeps_alloc|done]. Qed.
Lemma sys_calm : stable calm sys.
Proof. unfold sys. solve_stable. Qed.
Lemma yield_calm : stable calm yield_.
Proof. unfold yield_. solve_stable. split; [apply intf_keeps|apply intf_log]. Qed.
#[local] Hint Resolve alloc_calm sys_calm yield_calm : stable.
Lemma get_sock_calm o : stable calm (get_sock o).
Proof. unfold get_sock. solve_stable. Qed.
Lemma fileno_calm o : stable calm (fileno o).
Proof. unfold fileno. solve_stable. Qed.
#[local] Hint Resolve get_sock_calm fileno_calm : stable.
Lemma need_fd_calm o : stable calm (need_fd o).
Proof. unfold need_fd. solve_stable. Qed.
Lemma user_call_calm : stable calm user_call.
Proof. unfold user_call. solve_stable. Qed.
Lemma create_future_calm : stable calm create_future.
Proof. unfold create_future. solve_stable. Qed.
Lemma fut_cancel_calm f : stable calm (fut_cancel f).
Proof. unfold fut_cancel, fut_done, fut_settle. solve_stable. Qed.
#[local] Hint Resolve need_fd_calm user_call_calm create_future_calm fut_cancel_calm : stable.
Lemma await_future_calm f : stable calm (await_future f).
Proof. unfold await_future. solve_stable. Qed.
Lemma get_server_calm sid : stable calm (get_server sid).
Proof. unfold get_server. solve_stable. Qed.
Lemma upd_server_calm sid f : stable calm (upd_server sid f).
Proof. unfold upd_server. solve_stable. Qed.
#[local] Hint Resolve await_future_calm get_server_calm upd_server_calm : stable.
Lemma attach_calm sid t : stable calm (_attach sid t).
Proof. unfold _attach. solve_stable. Qed.
Context `{TD : TlsDriver}.
Lemma socket_address_calm o : stable calm (socket_address o).
Proof. unfold socket_address. solve_stable. Qed.
#[local] Hint Resolve socket_address_calm : stable.
Lemma safe_address_calm o : stable calm (_safe_addr (socket_address o)).
Proof. unfold _safe_addr. solve_stable. Qed.
End calm.
#[export] Hint Resolve tick_calm alloc_calm sys_calm yield_calm get_sock_calm fileno_calm
  need_fd_calm user_call_calm create_future_calm fut_cancel_calm await_future_calm
  get_server_calm upd_server_calm attach_calm socket_address_calm safe_address_calm : stable.

Lemma wp_owns_calm {A} (m : M world A) w0 l (Q : A → world → Prop) E w :
  stable calm m → owns w0 l w →
  (∀ a w', w_log w' = w_log w → owns w0 l w' → Q a w') →
  (∀ e w', w_log w' = w_log w → owns w0 l w' → E e w') → wp m Q E w.
Proof.
  intros Hq Ho HQ HE.
  apply (wp_stable calm); [done|intros ?? [? ?]; eauto using owns_keeps, keeps_owned..].
Qed.

(** ** Attaching *)

(** Descriptor [f] belongs to the open transport [t]. *)
Definition adopted (t : oid) (f : fd) (w : world) : Prop :=
  ∃ tr, w_trans w !! t = Some tr ∧ tr_fd tr = f.
(** ... and [t] is on its way out: closed, or flushing what it still has to write. *)
Definition abandoned (f : fd) (w : world) : Prop :=
  ∃ t tr, w_trans w !! t = Some tr ∧ tr_fd tr = f ∧ tr_closing tr = true ∧
    (tr_open tr = false ∨ tr_wbuf tr ≠ 0%nat).

Definition weight (sid : oid) (e : event) : Z :=
  match e with
  | EvAccept _ s => if decide (s = sid) then 1 else 0
  | EvAdopt _ (Some s) | EvTask _ s | EvDetach s => if decide (s = sid) then -1 else 0
  | _ => 0
  end.
(** Connections the server [sid] has counted, less those handed on or given up. *)
Definition ledger (sid : oid) (w : world) : Z := foldr (λ e n, weight sid e + n) 0 (w_log w).

Lemma ledger_log sid e w : ledger sid (log_event e w) = ledger sid w + weight sid e.
Proof.
  unfold ledger. cbn. rewrite foldr_app. cbn. induction (w_log w) as [|x l IH]; cbn; lia.
Qed.
Lemma ledger_eq sid w w' : w_log w' = w_log w → ledger sid w' = ledger sid w.
Proof. intros H. unfold ledger. by rewrite H. Qed.

Section attach_proofs.
Context `{KOk : KernelOk} `{TD : TlsDriver}.

Lemma wp_transport_close t tr (Q : unit → world → Prop) E w :
  native_ok w → w_trans w !! t = Some tr →
  (∀ w', keeps_own w w' → w_log w' = w_log w → w_servers w' = w_servers w →
     (∃ tr', w_trans w' !! t = Some tr' ∧ tr_fd tr' = tr_fd tr ∧ tr_closing tr' = true) →
     (∀ o, w_socks w !! o ≫= ps_fd = None → w_socks w' !! o ≫= ps_fd = None) →
     (tr_wbuf tr = 0%nat → tr_closing tr = false → tr_open tr = true →
      ∀ o, tr_view tr = Some o → w_socks w' !! o ≫= ps_fd = None) →
     Q tt w') →
  wp (transport_close t) Q E w.
Proof.
  intros H0 Ht HQ. unfold transport_close, get_trans. apply wp_bind. apply wp_bind. apply wp_gets.
  rewrite Ht. apply wp_ret. apply wp_when; intros Hc.
  2:{ apply negb_false_iff in Hc. apply HQ; [done|done|done|by exists tr|done|congruence]. }
  apply negb_true_iff in Hc. apply wp_bind, wp_modify. set (w1 := set_trans _ w).
  assert (K1 : keeps_own w w1) by (apply keeps_owned, alter_flags_keeps; done).
  assert (Ht1 : w_trans w1 !! t = Some (with_closing (λ _, true) tr))
    by (cbn; by rewrite lookup_alter_eq, Ht).
  apply wp_when; intros Hb.
  - eapply wp_shutdown; [by apply (keeps_native _ _ K1)|exact Ht1|].
    intros w' tr' K2 Ht' Ho' Hc' Hf' Hs' [Hl' Hr'] Hd' Hv'. destruct (keeps_trans _ _ K2 _ _ Ht1) as (tr2 & E2 & E3 & E4).
    apply HQ; [by etrans|done|done| |done|].
    + exists tr2. split; [done|]. split; [done|by apply E4].
    + intros _ _ Hop o Ho. by apply Hv'.
  - apply HQ; [done|done|done|by eexists|done|]. intros Hz. by rewrite Hz in Hb.
Qed.

Lemma wp_transport_abort t tr (Q : unit → world → Prop) E w :
  native_ok w → w_trans w !! t = Some tr →
  (∀ w', keeps_own w w' → w_log w' = w_log w → w_readers w' = w_readers w →
     (∃ tr', w_trans w' !! t = Some tr' ∧ tr_fd tr' = tr_fd tr ∧ tr_closing tr' = true ∧
             tr_open tr' = false) →
     (∀ o, w_socks w !! o ≫= ps_fd = None → w_socks w' !! o ≫= ps_fd = None) → Q tt w') →
  wp (transport_abort t) Q E w.
Proof.
  intros H0 Ht HQ. unfold transport_abort. apply wp_bind, wp_modify. set (w1 := set_trans _ w).
  assert (K1 : keeps_own w w1) by (apply keeps_owned, alter_flags_keeps; done).
  assert (Ht1 : w_trans w1 !! t = Some (with_closing (λ _, true) tr))
    by (cbn; by rewrite lookup_alter_eq, Ht).
  eapply wp_shutdown; [by apply (keeps_native _ _ K1)|exact Ht1|].
  intros w' tr' K2 Ht' Ho' Hc' Hf' Hs' [Hl' Hr'] Hd' Hv'. destruct (keeps_trans _ _ K2 _ _ Ht1) as (tr2 & E2 & E3 & E4).
  apply HQ; [by etrans|done|done| |done]. assert (tr2 = tr') as -> by congruence.
  exists tr'. split; [done|]. split; [done|]. split; [by apply E4|done].
Qed.
End attach_proofs.

Section attach_spec.
Context `{KOk : KernelOk} `{TD : TlsDriver}.

Lemma view_keeps w t tr o :
  w_trans w !! t = Some tr → (o < w_next w)%nat →
  (∀ g, w_socks w !! o ≫= ps_fd = Some g → g = tr_fd tr) →
  keeps_own w (set_trans (alter (with_view (λ _, Some o)) t) w).
Proof.
  intros Ht Hlt Ho. split; [done|done| | |done].
  - intros t' tr' Ht'. cbn. destruct (decide (t = t')) as [<-|Hne].
    + rewrite lookup_alter_eq, Ht'. by eexists.
    + rewrite lookup_alter_ne by done. by exists tr'.
  - intros H0 t' tr' Ht' Hop. cbn in Ht'. destruct (decide (t = t')) as [<-|Hne].
    + rewrite lookup_alter_eq, Ht in Ht'. injection Ht' as <-.
      destruct (H0 t tr Ht Hop) as [H1 _]. split; [done|]. intros o' [= <-]. done.
    + rewrite lookup_alter_ne in Ht' by done. by apply H0.
Qed.

Lemma wp_sys (Q : unit → world → Prop) (E : exn → world → Prop) w :
  Q tt (set_tick S w) → (∀ e, E e (set_tick S w)) → wp sys Q E w.
Proof. intros HQ HE. unfold sys, tick. wp_go; auto. Qed.

(** A descriptor that a transport holds is not ours. *)
Lemma native_not_held w t tr o :
  native_ok w → w_trans w !! t = Some tr → tr_open tr = true →
  (∀ g, w_socks w !! o ≫= ps_fd = Some g → g = tr_fd tr) → ∀ g, ¬ holds w o g.
Proof.
  intros H0 Ht Hop Ho g (s & Hs & Hg & Hm & _). destruct (H0 t tr Ht Hop) as [Hf _].
  rewrite Hs in Ho. rewrite (Ho g Hg) in Hm. congruence.
Qed.

Definition settles (server : option oid) (sid : oid) : Z :=
  match server with Some s => if decide (s = sid) then 1 else 0 | None => 0 end.

(** The descriptor [f] of [o] has just been adopted by [t], the view not recorded yet. *)
Record just_adopted (w0 : world) (l : list (oid * fd)) (o : oid) (f : fd) (t : oid)
    (server : option oid) (w : world) : Prop := {
  ja_owns : owns w0 l w;
  ja_below : (o < w_next w)%nat;
  ja_armed : w_socks w !! o ≫= ps_fd = Some f;
  ja_trans : ∃ tr, w_trans w !! t = Some tr ∧ tr_fd tr = f ∧ tr_open tr = true ∧
    tr_closing tr = false ∧ tr_wbuf tr = 0%nat ∧ tr_server tr = server }.

Lemma wp_adopt_fd w0 l1 o f l2 w k ex server (Q : oid → world → Prop) (E : exn → world → Prop) :
  owns w0 (l1 ++ (o, f) :: l2) w →
  (∀ t w', just_adopted w0 (l1 ++ l2) o f t server w' →
     (∀ sid, ledger sid w' = ledger sid w - settles server sid) → Q t w') →
  (∀ e w', owns w0 (l1 ++ (o, f) :: l2) w' → w_log w' = w_log w → E e w') →
  wp (adopt_fd f k ex server) Q E w.
Proof.
  intros Ho HQ HE. unfold adopt_fd.
  apply wp_bind. eapply wp_owns_calm; [apply sys_calm|done| |by auto].
  intros _ w4 L4 Ho4. apply wp_bind, wp_gets. set (t := fresh _).
  assert (Hfr : w_trans w4 !! t = None) by apply not_elem_of_dom, is_fresh.
  apply wp_bind, wp_modify. apply wp_bind, wp_modify. apply wp_ret.
  set (tr := Transport f k true false 0 None ex server).
  destruct (own_holds _ _ _ Ho4 o f ltac:(set_solver)) as (s4 & E1 & E2 & _ & E4).
  apply HQ.
  - split.
    + eapply owns_keeps; [by apply (owns_adopt w0 l1 o f l2 w4 t tr)|by apply keeps_own_frame].
    + done.
    + cbn. by rewrite E1.
    + exists tr. split; [cbn; apply lookup_insert_eq|done].
  - intros sid. rewrite ledger_log. cbn [weight]. rewrite (ledger_eq sid w) by (cbn; congruence).
    destruct server as [s'|]; cbn; [case_decide; lia|lia].
Qed.

(** Recording the view and what follows it; any failure detaches the socket and aborts. *)
Lemma wp_view_phase w0 l o f t server (after : M world unit) w (Q : oid → world → Prop) (E : exn → world → Prop) :
  native_ok w0 → just_adopted w0 l o f t server w →
  (∀ w1, wp after (λ _ w2, calm w1 w2 ∧ w_trans w2 = w_trans w1)
                  (λ _ w2, calm w1 w2 ∧ w_trans w2 = w_trans w1 ∧ w_socks w2 = w_socks w1) w1) →
  (∀ w', owns w0 l w' → w_log w' = w_log w →
     (∃ tr, w_trans w' !! t = Some tr ∧ tr_fd tr = f ∧ tr_open tr = true ∧ tr_closing tr = false ∧
            tr_wbuf tr = 0%nat ∧ tr_view tr = Some o ∧ tr_server tr = server) → Q t w') →
  (∀ e w', owns w0 l w' → w_log w' = w_log w → w_socks w' !! o ≫= ps_fd = None → abandoned f w' → E e w') →
  wp (catch (adopt_socket_view t o ;; after)
        (λ e, sock_detach o ;; transport_abort t ;; raise e) ;; ret t) Q E w.
Proof.
  intros H0 [Ho5 Hlt Hs5 (tr & Ht5 & Hf5 & Hop5 & Hc5 & Hb5 & Hsv5)] Hafter HQ HE.
  pose proof (own_native _ _ _ Ho5 H0) as N5.
  assert (Hfail : ∀ (e : exn) w' tr', keeps_own w w' → w_log w' = w_log w → w_trans w' !! t = Some tr' → tr_open tr' = true →
    tr_fd tr' = f → w_socks w' !! o = w_socks w !! o →
    wp (sock_detach o ;; transport_abort t ;; raise (A:=unit) e) (λ _ _, False)
      E w').
  { intros e w' tr' K' L' Ht' Hop' Hfd' Hs'. apply wp_bind, wp_modify.
    change (set_socks _ w') with (disarm o w').
    assert (Kd : keeps_own w' (disarm o w')).
    { apply disarm_keeps. apply (native_not_held w' t tr'); [by apply (keeps_native _ _ K')|done|done|].
      intros g. rewrite Hs', Hs5. congruence. }
    apply wp_bind. eapply wp_transport_abort; [by apply (keeps_native _ _ Kd), (keeps_native _ _ K')|exact Ht'|].
    intros w'' Ka La Sa (tr'' & Ta & Fa & Ca & Oa) Da. apply wp_raise, HE.
    - eapply owns_keeps; [done|]. etrans; [done|]. by etrans.
    - cbn in La. congruence.
    - apply Da. cbn. rewrite lookup_alter_eq. by destruct (w_socks w' !! o).
    - exists t, tr''. repeat split; [done|congruence|done|by left]. }
  apply wp_bind, wp_catch. apply wp_bind. unfold adopt_socket_view, upd_trans. apply wp_bind, wp_sys.
  2:{ intros e. eapply wp_mono; [eapply (Hfail _ _ tr); [by apply keeps_own_frame|done..]|done|done]. }
  apply wp_modify. set (w6 := set_trans _ _).
  assert (Ht6 : w_trans w6 !! t = Some (with_view (λ _, Some o) tr)).
  { cbn. by rewrite lookup_alter_eq, Ht5. }
  assert (K6 : keeps_own w w6).
  { etrans; [|eapply (view_keeps (set_tick S w) t tr o); [done|done|]].
    - by apply keeps_own_frame.
    - intros g. cbn. rewrite Hs5. cbn. congruence. }
  eapply wp_mono; [apply Hafter|intros [] w7 [[[K7 _] L7] T7]|intros e w7 [[[K7 _] L7] [T7 S7]]].
  - apply wp_ret. assert (Ht7 : w_trans w7 !! t = Some (with_view (λ _, Some o) tr)) by congruence.
    apply HQ; [eapply owns_keeps; [done|by etrans]|done|]. eexists. split; [exact Ht7|done].
  - eapply wp_mono; [eapply (Hfail _ _ (with_view (λ _, Some o) tr))|done|done]; try done.
    + by etrans.
    + congruence.
    + by rewrite S7.
Qed.

(** [_attach_transport]: on success the descriptor is the new transport's, its view is the
    socket.  A failure before adoption leaves the socket as it was; a later one leaves it
    detached and the transport closed. *)
Lemma wp_attach_transport w0 l1 o f l2 w waiter server (Q : oid → world → Prop) (E : exn → world → Prop) :
  owns w0 (l1 ++ (o, f) :: l2) w → native_ok w0 →
  (∀ t w', owns w0 (l1 ++ l2) w' → adopted t f w' →
     (∃ tr, w_trans w' !! t = Some tr ∧ tr_open tr = true ∧ tr_closing tr = false ∧ tr_wbuf tr = 0%nat ∧
            tr_view tr = Some o ∧ tr_server tr = server) →
     (∀ sid, ledger sid w' = ledger sid w - settles server sid) → Q t w') →
  (∀ e w', owns w0 (l1 ++ (o, f) :: l2) w' → w_log w' = w_log w → E e w') →
  (∀ e w', owns w0 (l1 ++ l2) w' → w_socks w' !! o ≫= ps_fd = None → abandoned f w' →
     (∀ sid, ledger sid w' = ledger sid w - settles server sid) → E e w') →
  wp (_attach_transport o waiter server) Q E w.
Proof.
  intros Ho H0 HQ HE1 HE2. unfold _attach_transport.
  apply wp_bind. eapply wp_owns_calm; [apply safe_address_calm|done| |by eauto]. intros sn w1 L1 Ho1.
  apply wp_bind. eapply wp_owns_calm; [apply safe_address_calm|done| |intros; apply HE1; [done|congruence]].
  intros pn w2 L2 Ho2.
  apply wp_bind. eapply wp_owns_calm; [apply get_sock_calm|done| |intros; apply HE1; [done|congruence]].
  intros s w3 L3 Ho3. cbv zeta. apply wp_bind.
  apply (wp_need_fd o f); [apply (own_holds _ _ _ Ho3); set_solver|]. apply wp_bind. unfold make_transport.
  apply wp_bind. eapply wp_adopt_fd; [exact Ho3| |intros; apply HE1; [done|congruence]].
  intros t w4 [A1 A2 A3 A4] L4. apply wp_bind, wp_modify, wp_ret. set (w5 := log_event _ w4).
  assert (L5 : ∀ sid, ledger sid w5 = ledger sid w - settles server sid).
  { intros sid. unfold w5. rewrite ledger_log, L4. cbn. rewrite (ledger_eq sid w) by congruence. lia. }
  eapply (wp_view_phase w0 (l1 ++ l2) o f t server); [done| | | |].
  - split; [by eapply owns_keeps, keeps_own_frame|done..].
  - intros w6. destruct server as [sid|]; [|by apply wp_ret]. unfold _attach, upd_server.
    apply wp_bind, wp_sys; [apply wp_modify|intros e]; split; [by apply calm_frame|done|by apply calm_frame|done].
  - intros w6 Ho6 L6 (tr & Ht & Hf & Hr). apply HQ; [done|by exists tr|by exists tr|].
    intros sid. rewrite <-L5. by apply ledger_eq.
  - intros e w6 Ho6 L6 Hn Ha. apply HE2; [done|done|done|]. intros sid. rewrite <-L5. by apply ledger_eq.
Qed.
End attach_spec.

(** What the standard library's TLS driver promises: once its waiter is resolved it has an
    application transport. *)
Class TlsDriverOk `{TD : TlsDriver} := driver_ready_ok : ∀ t, driver_ready t = true.

(** Transport [t] is open with [o] as its view and nothing left to write, or it has let go
    of [o]. *)
Definition unbuffered (t o : oid) (w : world) : Prop :=
  (∃ tr, w_trans w !! t = Some tr ∧ tr_open tr = true ∧ tr_closing tr = false ∧
         tr_wbuf tr = 0%nat ∧ tr_view tr = Some o) ∨
  w_socks w !! o ≫= ps_fd = None.
(** The kernel takes what a handshake writes at once, so nothing stays buffered. *)
Definition writes_drain `{K : Kernel} : Prop :=
  ∀ i w t o, unbuffered t o w → unbuffered t o (intf i w).

Section wrap_spec.
Context `{KOk : KernelOk} `{TD : TlsDriver} `{TOk : !TlsDriverOk}.

Definition stays_unbuffered (t o : oid) : relation world := λ w w', unbuffered t o w → unbuffered t o w'.
#[local] Instance stays_unbuffered_preorder t o : PreOrder (stays_unbuffered t o).
Proof. split; [by intros w H|by intros x y z H1 H2 H; apply H2, H1]. Qed.
#[local] Hint Extern 2 (stays_unbuffered _ _ _ _) => (by intros ?) : stable.
Lemma await_unbuffered t o fu : writes_drain → stable (stays_unbuffered t o) (await_future fu).
Proof.
  intros Hd. unfold await_future, yield_, tick, fut_cancel, fut_done, fut_settle. solve_stable.
  intros H. by apply Hd.
Qed.

Lemma wp_wrap_setup w0 l1 o f l2 w ssl side server (Q : oid * oid → world → Prop) E :
  owns w0 (l1 ++ (o, f) :: l2) w → native_ok w0 →
  (∀ t wt w', owns w0 (l1 ++ l2) w' → adopted t f w' → unbuffered t o w' →
     (∃ tr, w_trans w' !! t = Some tr ∧ tr_open tr = true) →
     (∀ sid, ledger sid w' = ledger sid w - settles server sid) → Q (t, wt) w') →
  (∀ e w', owns w0 (l1 ++ (o, f) :: l2) w' → w_log w' = w_log w → E e w') →
  (∀ e w', owns w0 (l1 ++ l2) w' → w_socks w' !! o ≫= ps_fd = None → abandoned f w' →
     (∀ sid, ledger sid w' = ledger sid w - settles server sid) → E e w') →
  wp (wrap_setup o ssl side server) Q E w.
Proof.
  intros Ho H0 HQ HE1 HE2. unfold wrap_setup.
  apply wp_bind. eapply wp_owns_calm; [apply user_call_calm|done| |by eauto]. intros _ w1 L1 Ho1.
  apply wp_bind. eapply wp_owns_calm; [apply create_future_calm|done| |intros; apply HE1; [done|congruence]].
  intros wt w2 L2 Ho2.
  assert (Hend : ∀ waiter w3, owns w0 (l1 ++ (o, f) :: l2) w3 → w_log w3 = w_log w →
    wp (transport <- _attach_transport o waiter server ;; ret (transport, wt)) Q E w3).
  { intros waiter w3 Ho3 L3. apply wp_bind. eapply wp_attach_transport; [done|done| | |].
    - intros t w' Ho' Ha (tr & Ht & Hop & Hc & Hb & Hv & Hs) HL. apply wp_ret. apply HQ; [done|done| | |].
      + left. by exists tr.
      + by exists tr.
      + intros sid. rewrite HL. by rewrite (ledger_eq sid w w3).
    - intros e w' Ho' L'. apply HE1; [done|congruence].
    - intros e w' Ho' Hs Ha HL. apply HE2; [done|done|done|]. intros sid. rewrite HL. by rewrite (ledger_eq sid w w3). }
  destruct (ssl_truthy ssl); [|apply Hend; [done|congruence]].
  apply wp_bind. eapply wp_owns_calm; [apply sys_calm|done| |intros; apply HE1; [done|congruence]].
  intros _ w3 L3 Ho3. apply Hend; [done|congruence].
Qed.

(** [_wrap_socket].  Before adoption a failure closes the socket, unless a server has to
    release it; after adoption it leaves the transport closing. *)
Lemma wp_wrap_socket w0 l1 o f l2 w ssl sh side h d server (Q : wrapped → world → Prop) (E : exn → world → Prop) :
  owns w0 (l1 ++ (o, f) :: l2) w → native_ok w0 →
  (∀ r w', owns w0 (l1 ++ l2) w' → adopted (native_transport r) f w' →
     (∀ sid, ledger sid w' = ledger sid w - settles server sid) → Q r w') →
  (∀ e w', server = None → owns w0 (l1 ++ l2) w' → w_log w' = w_log w → E e w') →
  (∀ e w', server ≠ None → owns w0 (l1 ++ (o, f) :: l2) w' → w_log w' = w_log w → E e w') →
  (∀ e w', owns w0 (l1 ++ l2) w' → (∃ t tr, w_trans w' !! t = Some tr ∧ tr_fd tr = f ∧ tr_closing tr = true) →
     (writes_drain → w_socks w' !! o ≫= ps_fd = None) →
     (∀ sid, ledger sid w' = ledger sid w - settles server sid) → E e w') →
  wp (_wrap_socket o ssl sh side h d server) Q E w.
Proof.
  intros Ho H0 HQ HE1 HE2 HE3. unfold _wrap_socket. apply wp_bind, wp_catch.
  eapply wp_wrap_setup; [done|done| | |].
  - intros t wt w1 Ho1 Ha Hu (tr & Ht & Hop) L1. apply wp_bind, wp_catch. cbn [fst snd].
    assert (Hst : wp (await_future wt) (λ _ w2, calm w1 w2 ∧ (writes_drain → unbuffered t o w2))
      (λ _ w2, calm w1 w2 ∧ (writes_drain → unbuffered t o w2)) w1).
    { pose proof (await_future_calm wt w1) as Hc. unfold wp in *.
      destruct (await_future wt w1) as [r w2] eqn:Hr. assert (Hc' : calm w1 w2) by (by destruct r).
      assert (Hu2 : writes_drain → unbuffered t o w2).
      { intros Hd. pose proof (await_unbuffered t o wt Hd w1) as Hs. unfold wp in Hs.
        rewrite Hr in Hs. destruct r; by apply Hs. }
      by destruct r. }
    destruct Ha as (tr' & Ht' & Hf). assert (tr' = tr) as -> by congruence.
    eapply wp_mono; [exact Hst|intros [] w2 [[K2 L2] _]|intros e w2 [[K2 L2] Hu2]].
    + destruct (keeps_trans _ _ (keeps_owned _ _ K2) _ _ Ht) as (tr2 & Ht2 & Hf2 & _).
      assert (Ho2 : owns w0 (l1 ++ l2) w2) by (by eapply owns_keeps, keeps_owned).
      destruct (ssl_truthy ssl).
      * unfold tick. wp_step. wp_step. wp_step. wp_step. wp_step. wp_step. rewrite driver_ready_ok.
        apply wp_ret, HQ; [by eapply owns_keeps, keeps_own_frame|exists tr2; split; [done|cbn; congruence]|].
        intros sid. rewrite <-L1. by apply ledger_eq.
      * apply wp_ret, HQ; [done|exists tr2; split; [done|cbn; congruence]|].
        intros sid. rewrite <-L1. by apply ledger_eq.
    + destruct (keeps_trans _ _ (keeps_owned _ _ K2) _ _ Ht) as (tr2 & Ht2 & Hf2 & _).
      assert (Ho2 : owns w0 (l1 ++ l2) w2) by (by eapply owns_keeps, keeps_owned).
      apply wp_bind. eapply wp_transport_close; [by apply (own_native _ _ _ Ho2)|done|].
      intros w3 K3 L3 S3 (tr3 & Ht3 & Hf3 & Hc3) Hn3 Hv3. apply wp_raise, HE3.
      * by eapply owns_keeps.
      * exists t, tr3. split; [done|]. split; [congruence|done].
      * intros Hd. destruct (Hu2 Hd) as [(tr4 & Ht4 & Hop4 & Hc4 & Hb4 & Hv4)|Hn4]; [|by apply Hn3].
        assert (tr4 = tr2) as -> by congruence. by apply Hv3.
      * intros sid. rewrite <-L1. apply ledger_eq. congruence.
  - intros e w1 Ho1 L1. assert (Hh : holds w1 o f) by (apply (own_holds _ _ _ Ho1); set_solver).
    apply wp_bind. eapply wp_fileno; [done|]. apply wp_bind.
    rewrite (bool_decide_eq_true_2 (is_Some (Some f))) by eauto. rewrite andb_true_r.
    apply wp_when; intros Hs.
    + apply bool_decide_eq_true in Hs. unfold sock_close. apply wp_bind. eapply wp_fileno; [done|].
      wp_go. apply HE1; [done| |done]. by eapply owns_close.
    + apply bool_decide_eq_false in Hs. apply wp_raise. by apply HE2.
  - intros e w1 Ho1 Hn (t & tr & Ht & Hf & Hc & Hop) L1. apply wp_bind. unfold fileno. apply wp_gets. rewrite Hn.
    apply wp_bind. rewrite (bool_decide_eq_false_2 (is_Some None)) by (by intros [? ?]).
    rewrite andb_false_r. apply wp_ret, wp_raise, HE3; [done|by exists t, tr|done|done].
Qed.
End wrap_spec.

(** ** Clients never leak a descriptor *)
Lemma native_ok_without w o f : holds w o f → native_ok w → native_ok (set_fds (delete f) w).
Proof.
  intros (s & _ & _ & Hm & _) H0 t tr Ht Ho. destruct (H0 t tr Ht Ho) as [H1 H2].
  split; [|done]. cbn. rewrite lookup_delete_ne; [done|]. congruence.
Qed.

Section client_proofs.
Context `{KOk : KernelOk} `{TD : TlsDriver} `{TOk : !TlsDriverOk} `{C : Connector} `{R : Resolver}.

(** From a socket opened since [w0]. *)
Lemma wp_wrap_opened w0 o f w ssl sh side h d :
  owns w0 [(o, f)] w → native_ok w0 →
  wp (_wrap_socket o ssl sh side h d None)
    (λ r w', keeps_own w0 w' ∧ adopted (native_transport r) f w') (λ _, keeps_own w0) w.
Proof.
  intros Ho H0. apply (wp_wrap_socket w0 [] o f []); try done; intros; try (by apply owns_nil).
  split; [by apply owns_nil|done].
Qed.

(** From a socket the caller handed over: after the checks it is consumed. *)
Definition consumed (w : world) (f : fd) (w' : world) : Prop := mine w' = mine w ∖ {[f]}.

Lemma wp_wrap_given o f w kind fam ssl sh side h d :
  holds w o f → native_ok w →
  wp (s <- get_sock o ;; of_res (_check_socket s kind fam) ;; setblocking o false ;;
      _wrap_socket o ssl sh side h d None)
    (λ r w', consumed w f w' ∧ adopted (native_transport r) f w')
    (λ _ w', mine w' = mine w ∨ consumed w f w') w.
Proof.
  intros Hh H0. set (w0 := set_fds (delete f) w).
  assert (Ho : owns w0 [(o, f)] w) by (by apply owns_given).
  assert (Hw0 : mine w0 = mine w ∖ {[f]}) by apply mine_close.
  assert (Hm : ∀ w', owns w0 [(o, f)] w' → mine w' = mine w).
  { intros w' Ho'. rewrite (own_mine _ _ _ Ho'), <-(own_mine _ _ _ Ho). done. }
  destruct Hh as (s & Hs & Hrest). apply wp_bind. eapply wp_get_sock; [done|].
  apply wp_bind, wp_of_res; [intros _ _|intros e _; by left].
  apply wp_bind. eapply (wp_setblocking w0 _ o f); [done|left|done| |].
  2:{ intros e w1 _ Ho1. left. by apply Hm. }
  intros w1 Ho1 _ _. eapply wp_mono; [eapply wp_wrap_opened; [done|]| |].
  - apply (native_ok_without _ o); [by exists s|done].
  - intros r w' [Hk Ha]. split; [|done]. unfold consumed. rewrite (keeps_mine _ _ Hk). done.
  - intros e w' Hk. right. unfold consumed. rewrite (keeps_mine _ _ Hk). done.
Qed.
End client_proofs.

(** C1: [create_connection] to a host: whatever happens - resolution, any attempt, the protocol
    factory, TLS set-up, the handshake, cancellation - it hands its one descriptor to the
    transport it returns, or no descriptor it opened stays open in its care. *)
Theorem create_connection_no_leak `{KOk : KernelOk} `{TD : TlsDriver} `{TOk : !TlsDriverOk}
    `{C : Connector} `{R : Resolver} ipaddr_info race_started p w :
  native_ok w → o_sock p = None →
  wp (create_connection ipaddr_info race_started p)
    (λ r w', mine w' = mine w ∧ ∃ f, (f ∉ mine w) ∧ adopted (native_transport r) f w')
    (λ _ w', mine w' = mine w) w.
Proof.
  intros H0 Hs. unfold create_connection. rewrite Hs.
  apply wp_bind, wp_of_res; [intros sh _|done]. apply wp_bind, wp_of_res; [intros [] _|done].
  cbv zeta. apply wp_bind. destruct (_ || _); [|by apply wp_raise].
  eapply wp_mono; [apply wp_connect_tcp| |by intros e w' [_ Hm]].
  intros o w1 (f & s & Ho & _). eapply wp_mono; [by eapply wp_wrap_opened| |by intros e w' [_ Hm]].
  intros r w' [Hk Ha]. split; [apply (keeps_mine _ _ Hk)|]. exists f. split; [|done].
  apply (own_fresh _ _ _ Ho). left.
Qed.

(** [connect_accepted_socket] takes responsibility for the caller's socket: it is left
    alone when an argument is refused, and otherwise it ends up owned by the returned
    transport or given up - never still ours after the handshake phase began. *)
Theorem accepted_socket_consumed `{KOk : KernelOk} `{TD : TlsDriver} `{TOk : !TlsDriverOk}
    sock f ssl handshake shutdown w :
  native_ok w → holds w sock f →
  wp (connect_accepted_socket sock ssl handshake shutdown)
    (λ r w', consumed w f w' ∧ adopted (native_transport r) f w')
    (λ _ w', mine w' = mine w ∨ consumed w f w') w.
Proof.
  intros H0 Hh. unfold connect_accepted_socket.
  apply wp_bind, wp_of_res; [intros [] _; by apply wp_wrap_given|intros e _; by left].
Qed.

(** [create_unix_connection] by path: one descriptor, adopted on success and closed on
    failure - unless [setblocking] itself is what failed, outside every [try]. *)
Theorem unix_connection_no_leak `{KOk : KernelOk} `{TD : TlsDriver} `{TOk : !TlsDriverOk}
    `{C : Connector} path ssl server_hostname handshake shutdown w :
  native_ok w →
  wp (create_unix_connection (Some path) ssl None server_hostname handshake shutdown)
    (λ r w', mine w' = mine w ∧ ∃ f, (f ∉ mine w) ∧ adopted (native_transport r) f w')
    (λ _ w', mine w' = mine w ∨
       ∃ o f s, owns w [(o, f)] w' ∧ w_socks w' !! o = Some s ∧ ps_blocking s = true) w.
Proof.
  intros H0. unfold create_unix_connection. destruct (is_win32 plat); [apply wp_raise; by left|].
  destruct (_ && _); [apply wp_raise; by left|].
  apply wp_bind, wp_of_res; [intros [] _|intros e _; by left].
  apply wp_bind, wp_bind. eapply wp_socket_new; [apply owns_refl| |].
  2:{ intros e w1 [K1 _] _. left. apply (keeps_mine _ _ K1). }
  intros o f w1 Ho1 Hs1 _. apply wp_bind.
  eapply (wp_setblocking w _ o f); [done|left|done| |].
  2:{ intros e w2 [K2 _] Ho2. right. exists o, f. eexists. split; [done|].
      rewrite (keeps_socks _ _ K2 o f); [done|]. apply (own_holds _ _ _ Ho1). left. }
  intros w2 Ho2 _ _. apply wp_bind, wp_catch.
  eapply wp_owns_quiet; [apply sock_connect_quiet|exact Ho2| |].
  - intros _ w3 _ Ho3. apply wp_ret. eapply wp_mono; [by eapply wp_wrap_opened| |].
    + intros r w' [Hk Ha]. split; [apply (keeps_mine _ _ Hk)|]. exists f. split; [|done].
      apply (own_fresh _ _ _ Ho3). left.
    + intros e w' Hk. left. apply (keeps_mine _ _ Hk).
  - intros e w3 _ Ho3. apply wp_bind. eapply (wp_sock_close w [] o f []); [exact Ho3|].
    intros w4 Ho4%owns_nil _. apply wp_raise. left. apply (keeps_mine _ _ Ho4).
Qed.

(** ** The accept path *)
Section accept_proofs.
Context `{KOk : KernelOk} `{FS : FileSystem} `{TD : TlsDriver} `{TOk : !TlsDriverOk}.

Lemma wakeup_calm sid : stable calm (_wakeup sid).
Proof. unfold _wakeup, set_result, fut_done, fut_settle. solve_stable. Qed.
#[local] Hint Resolve wakeup_calm : stable.

Lemma wp_detach w0 l sid t (Q : unit → world → Prop) (E : exn → world → Prop) w :
  owns w0 l w →
  (∀ w', owns w0 l w' → (∀ s, ledger s w' = ledger s w + weight s (EvDetach sid)) → Q tt w') →
  (∀ e w', owns w0 l w' → (∀ s, ledger s w' = ledger s w + weight s (EvDetach sid)) → E e w') →
  wp (_detach sid t) Q E w.
Proof.
  intros Ho HQ HE. unfold _detach. apply wp_bind, wp_modify. set (w1 := log_event _ w).
  assert (Ho1 : owns w0 l w1) by (by eapply owns_keeps, keeps_own_frame).
  assert (L1 : ∀ s, ledger s w1 = ledger s w + weight s (EvDetach sid)) by (intros s; apply ledger_log).
  clearbody w1. eapply wp_owns_calm; [|done|intros [] w2 L2 Ho2|intros e w2 L2 Ho2].
  - solve_stable.
  - apply HQ; [done|]. intros s. rewrite <-L1. by apply ledger_eq.
  - apply HE; [done|]. intros s. rewrite <-L1. by apply ledger_eq.
Qed.

(** Giving a descriptor to a task. *)
Lemma owns_handed w0 l1 o f l2 w :
  owns w0 (l1 ++ (o, f) :: l2) w → owns w0 (l1 ++ l2) (set_fds (<[f := Foreign]>) w).
Proof.
  intros H. assert (Hh : holds w o f) by (apply (own_holds _ _ _ H); set_solver).
  eapply owns_release; [done|done| |done| |done].
  - apply set_eq; intros g. rewrite elem_of_difference, elem_of_singleton, !elem_of_mine. cbn.
    rewrite lookup_insert. case_decide; naive_solver.
  - destruct Hh as (s & _ & _ & Hm & _). intros H0 t tr Ht Ho. destruct (H0 t tr Ht Ho) as [H1 H2].
    split; [|done]. cbn. rewrite lookup_insert_ne; [done|congruence].
Qed.

Lemma wp_accept_connection w0 l1 o f l2 w sid (Q : unit → world → Prop) (E : exn → world → Prop) :
  owns w0 (l1 ++ (o, f) :: l2) w → native_ok w0 →
  (∀ w', owns w0 (l1 ++ l2) w' → ledger sid w' = ledger sid w - 1 → Q tt w') →
  (∀ e w', owns w0 (l1 ++ (o, f) :: l2) w' → w_log w' = w_log w → E e w') →
  (∀ e w', owns w0 (l1 ++ l2) w' → w_socks w' !! o ≫= ps_fd = None →
     ledger sid w' = ledger sid w - 1 → E e w') →
  wp (_accept_connection_ o sid) Q E w.
Proof.
  intros Ho H0 HQ HE1 HE2. unfold _accept_connection_.
  apply wp_bind. eapply wp_owns_calm; [apply get_server_calm|done| |by eauto]. intros s w1 L1 Ho1.
  assert (Hone : settles (Some sid) sid = 1) by (cbn; by rewrite decide_True).
  assert (Htask : wp (sys ;; f <- need_fd o ;; modify (set_fds (<[f := Foreign]>)) ;; log (EvTask o sid)) Q E w1).
  { apply wp_bind. eapply wp_owns_calm; [apply sys_calm|done| |intros; apply HE1; [done|congruence]].
    intros _ w2 L2 Ho2. apply wp_bind. apply (wp_need_fd o f); [apply (own_holds _ _ _ Ho2); set_solver|].
    apply wp_bind, wp_modify, wp_modify, HQ.
    - eapply owns_keeps; [by apply (owns_handed w0 l1 o f l2)|by apply keeps_own_frame].
    - rewrite ledger_log, (ledger_eq sid w) by (cbn; congruence). cbn. by rewrite decide_True. }
  destruct (_ssl s); [|done..]. apply wp_bind.
  eapply wp_owns_calm; [apply user_call_calm|done| |intros; apply HE1; [done|congruence]].
  intros _ w2 L2 Ho2. apply wp_bind. eapply wp_attach_transport; [done|done| | |].
  - intros t w' Ho' _ _ HL. apply wp_ret, HQ; [done|]. rewrite HL, Hone, (ledger_eq sid w); [done|congruence].
  - intros e w' Ho' L'. apply HE1; [done|congruence].
  - intros e w' Ho' Hn _ HL. apply HE2; [done|done|]. rewrite HL, Hone, (ledger_eq sid w); [done|congruence].
Qed.

(** The failure clause of [_accept]: a live descriptor is closed and uncounted. *)
Lemma wp_accept_failed w0 o f sid e (Q : unit → world → Prop) (E : exn → world → Prop) w :
  owns w0 [(o, f)] w →
  (∀ e' w', owns w0 [] w' → ledger sid w' = ledger sid w - 1 → E e' w') →
  wp (accept_failed sid o e) Q E w.
Proof.
  intros Ho HE. unfold accept_failed. assert (Hh : holds w o f) by (apply (own_holds _ _ _ Ho); left).
  apply wp_bind. eapply wp_fileno; [done|]. apply wp_bind, wp_when; [intros _|by intros []%bool_decide_eq_false].
  apply wp_bind. unfold sock_close. apply wp_bind. eapply wp_fileno; [done|]. wp_go.
  set (w1 := set_socks _ _). assert (Ho1 : owns w0 [] w1) by (by apply (owns_close w0 [] o f [])).
  assert (Hw : weight sid (EvDetach sid) = -1) by (cbn; by rewrite decide_True).
  assert (L1 : ledger sid w1 = ledger sid w) by by apply ledger_eq.
  eapply wp_detach; [exact Ho1|intros w2 Ho2 L2; apply wp_raise|intros e' w2 Ho2 L2];
    (apply HE; [done|rewrite L2, Hw, L1; lia]).
Qed.
End accept_proofs.

Section accept_loop.
Context `{KOk : KernelOk} `{FS : FileSystem} `{TD : TlsDriver} `{TOk : !TlsDriverOk}.

(** The books balance: nothing owed, every counted connection accounted for. *)
Definition balanced (sid : oid) (w w' : world) : Prop :=
  keeps_own w w' ∧ ledger sid w' = ledger sid w.
#[export] Instance balanced_preorder sid : PreOrder (balanced sid).
Proof. split; [by split|]. intros x y z [H1 H2] [H3 H4]. split; [by etrans|congruence]. Qed.
Lemma calm_balanced {A} sid (m : M world A) : stable calm m → stable (balanced sid) m.
Proof.
  intros H w. eapply wp_mono; [apply H|intros ?? [[? _] ?]..]; (split; [done|by apply ledger_eq]).
Qed.
Lemma log_balanced sid e : weight sid e = 0 → stable (balanced sid) (log e).
Proof.
  intros He w. apply wp_modify. split; [by apply keeps_own_frame|]. rewrite ledger_log. lia.
Qed.
#[local] Hint Resolve calm_balanced : stable.
#[local] Hint Extern 3 (stable (balanced _) (log _)) => (by apply log_balanced) : stable.
Lemma remove_watch_calm f b : stable calm (remove_watch f b).
Proof. unfold remove_watch, set_slot. destruct b; solve_stable. Qed.
#[local] Hint Resolve remove_watch_calm : stable.

(** A connection that could not be switched to non-blocking mode is left behind. *)
Definition stranded (sid : oid) (w w' : world) : Prop :=
  ∃ c f s, owns w [(c, f)] w' ∧ w_socks w' !! c = Some s ∧ ps_blocking s = true ∧
    ledger sid w' = ledger sid w.

Lemma wp_accept_sys w0 sid sock w (Q : oid → world → Prop) (E : exn → world → Prop) :
  balanced sid w0 w →
  (∀ c f s w', owns w0 [(c, f)] w' → w_socks w' !! c = Some s → ps_blocking s = true →
     ledger sid w' = ledger sid w0 → Q c w') →
  (∀ e w', balanced sid w0 w' → E e w') → wp (accept_sys sock) Q E w.
Proof.
  intros HB HQ HE. unfold accept_sys.
  apply wp_bind, (wp_stable (balanced sid)); [auto with stable| |intros; apply HE; by etrans].
  intros _ w1 B1. apply wp_bind, (wp_stable (balanced sid)); [auto with stable| |intros; apply HE; by do 2 etrans].
  intros _ w2 B2. apply wp_bind, (wp_stable (balanced sid)); [auto with stable| |intros; apply HE; by do 3 etrans].
  intros s w3 B3. assert (B : balanced sid w0 w3) by (by do 3 etrans).
  eapply (wp_open_sock w0 []); [apply owns_nil, B|]. intros c f w4 Ho Hs _ L.
  eapply HQ; [done|done|done|]. rewrite (ledger_eq sid w3) by done. apply B.
Qed.

Lemma accept_refused_balanced sid sock e w :
  wp (accept_refused sid sock e) (λ r w', r = None ∧ balanced sid w w') (λ _, balanced sid w) w.
Proof.
  unfold accept_refused. destruct (_ || _); [by apply wp_ret|].
  destruct (isinstance e OSError); [|by apply wp_raise]. apply wp_bind, (wp_stable (balanced sid)).
  - solve_stable.
  - intros [] w' B. by apply wp_ret.
  - done.
Qed.

(** One turn of the accept loop. *)
Lemma wp_accepted sid c f s w0 w (Q : unit → world → Prop) (E : exn → world → Prop) :
  native_ok w0 → owns w0 [(c, f)] w → w_socks w !! c = Some s → ps_blocking s = true →
  ledger sid w = ledger sid w0 →
  (∀ w', balanced sid w0 w' → Q tt w') → (∀ e w', balanced sid w0 w' ∨ stranded sid w0 w' → E e w') →
  wp (setblocking c false ;; upd_server sid (with_active (λ n, n + 1)) ;; log (EvAccept c sid) ;;
      catch (_accept_connection_ c sid) (accept_failed sid c)) Q E w.
Proof.
  intros H0 Ho Hs Hb HL HQ HE. apply wp_bind. unfold setblocking at 1.
  assert (Hh : holds w c f) by (apply (own_holds _ _ _ Ho); left).
  apply wp_bind. eapply wp_need_fd; [done|]. apply wp_bind.
  apply (wp_stable calm); [apply sys_calm| |].
  2:{ intros e w1 [[K1 _] L1]. apply HE. right. exists c, f, s. split; [by eapply owns_keeps|].
      rewrite (keeps_socks _ _ K1 c f) by done. split; [done|]. split; [done|].
      rewrite <-HL. by apply ledger_eq. }
  intros _ w1 [[K1 _] L1]. apply wp_modify. set (w2 := set_socks _ w1).
  assert (Ho2 : owns w0 [(c, f)] w2) by (apply alter_blocking_owns; [by eapply owns_keeps|left]).
  assert (L2 : ledger sid w2 = ledger sid w0) by (rewrite <-HL; by apply ledger_eq).
  clearbody w2. unfold upd_server. apply wp_bind, wp_modify, wp_bind, wp_modify. set (w3 := log_event _ _).
  assert (Ho3 : owns w0 [(c, f)] w3) by (by eapply owns_keeps, keeps_own_frame).
  assert (L3 : ledger sid w3 = ledger sid w0 + 1).
  { unfold w3. rewrite ledger_log, (ledger_eq sid w2), L2 by done. cbn. rewrite decide_True by done. lia. }
  clearbody w3. apply wp_catch. eapply (wp_accept_connection w0 [] c f []); [exact Ho3|done| | |].
  - intros w4 Ho4 L4. apply HQ. split; [by apply owns_nil|lia].
  - intros e w4 Ho4 L4. eapply wp_accept_failed; [exact Ho4|]. intros e' w5 Ho5 L5. apply HE. left.
    split; [by apply owns_nil|]. rewrite L5, (ledger_eq sid w3 w4 L4). lia.
  - intros e w4 Ho4 Hn L4. unfold accept_failed, fileno. apply wp_bind, wp_gets. rewrite Hn.
    apply wp_bind, wp_when; [by intros [? ?]%bool_decide_eq_true|intros _]. apply wp_raise, HE. left.
    split; [by apply owns_nil|lia].
Qed.
End accept_loop.

(** C29: The accept loop keeps the books: every connection it counts is adopted by a transport,
    handed to a TLS task, or closed and uncounted again, whatever raises in between; the one
    descriptor it can leave behind is one whose [setblocking] failed before it was counted. *)
Theorem accept_balanced `{KOk : KernelOk} `{FS : FileSystem} `{TD : TlsDriver} `{TOk : !TlsDriverOk}
    sid sock w :
  native_ok w →
  wp (_accept sid sock) (λ _, balanced sid w) (λ _ w', balanced sid w w' ∨ stranded sid w w') w.
Proof.
  intros H0. unfold _accept.
  apply wp_bind, (wp_stable (balanced sid)); [apply calm_balanced; auto with stable| |by left].
  intros s w1 B1. apply wp_bind.
  apply (wp_for_break (λ _ w', balanced sid w w')); [done| |by intros; apply wp_ret].
  intros _ _ w2 B2. apply wp_bind, wp_catch, wp_bind. eapply wp_accept_sys; [exact B2| |].
  - intros c f s' w3 Ho3 Hs3 Hb3 L3. apply wp_ret. cbn [_accept_connection connect_acceptor].
    assert (Hw : meq (setblocking c false ;; upd_server sid (with_active (λ n, n + 1)) ;;
        log (EvAccept c sid) ;; catch (_accept_connection_ c sid) (accept_failed sid c) ;; ret (@None unit))
      ((setblocking c false ;; upd_server sid (with_active (λ n, n + 1)) ;;
        log (EvAccept c sid) ;; catch (_accept_connection_ c sid) (accept_failed sid c)) ;; ret None)).
    { by rewrite !bind_assoc. }
    rewrite Hw. apply wp_bind. eapply wp_accepted; [exact H0|done..| |auto].
    intros w4 B4. by apply wp_ret.
  - intros e w3 B3. eapply wp_mono; [apply accept_refused_balanced| |].
    + intros r w4 [-> B4]. apply wp_ret, wp_ret. by etrans.
    + intros e' w4 B4. left. by etrans.
Qed.

(** A TLS accept settles the one connection it was given exactly once, on every outcome -
    refused before adoption, handshake failed or cancelled, established: the descriptor is
    no longer ours, the server's count is released either here or by the transport, and no
    descriptor is closed under an open transport.  This relies on handshake writes not
    being left in the transport's buffer. *)
Theorem accept_tls_settles `{KOk : KernelOk} `{FS : FileSystem} `{TD : TlsDriver}
    `{TOk : !TlsDriverOk} conn f sid s w :
  native_ok w → writes_drain → holds w conn f → w_servers w !! sid = Some s →
  let settled_once w' :=
    mine w' = mine w ∖ {[f]} ∧ ledger sid w' = ledger sid w - 1 ∧ native_ok w' in
  wp (_accept_tls conn sid) (λ _, settled_once) (λ _, settled_once) w.
Proof.
  intros H0 Hd Hh Hs settled_once. set (w0 := set_fds (delete f) w).
  assert (N0 : native_ok w0) by (by eapply native_ok_without).
  assert (Hone : settles (Some sid) sid = 1) by (cbn; by rewrite decide_True).
  assert (Hend : ∀ w', owns w0 [] w' → ledger sid w' = ledger sid w - 1 → settled_once w').
  { intros w' Ho HL. split; [|split; [done|by apply (own_native _ _ _ Ho)]].
    rewrite (own_mine _ _ _ Ho), <-(mine_close w f). fold w0. cbn. set_solver. }
  unfold _accept_tls. apply wp_bind. eapply wp_get_server; [exact Hs|].
  apply wp_catch, wp_bind. apply (wp_wrap_socket w0 [] conn f []); [by apply owns_given|done| |done| |].
  - intros r w' Ho _ HL. apply wp_ret, Hend; [done|]. by rewrite HL, Hone.
  - intros e w1 _ Ho L1. apply wp_bind. eapply wp_fileno; [apply (own_holds _ _ _ Ho); left|].
    rewrite bool_decide_eq_true_2 by eauto. apply wp_bind, wp_bind.
    eapply (wp_sock_close w0 [] conn f []); [exact Ho|]. intros w2 Ho2 [_ L2]. 
    assert (L2' : ledger sid w2 = ledger sid w) by (apply ledger_eq; congruence).
    assert (Hw : weight sid (EvDetach sid) = -1) by (cbn; by rewrite decide_True).
    apply wp_bind. eapply wp_detach; [exact Ho2| |].
    + intros w3 Ho3 L3. specialize (L3 sid). apply wp_ret. cbn beta iota.
      destruct (isinstance e Exception_).
      * apply wp_modify, Hend; [by eapply owns_keeps, keeps_own_frame|]. rewrite ledger_log. cbn. lia.
      * apply wp_raise, Hend; [done|lia].
    + intros e' w3 Ho3 L3. specialize (L3 sid). apply Hend; [done|lia].
  - intros e w1 Ho _ Hn HL. apply wp_bind. unfold fileno. apply wp_gets. rewrite Hn by done.
    rewrite bool_decide_eq_false_2 by by intros [? ?]. apply wp_bind, wp_ret.
    specialize (HL sid). rewrite Hone in HL.
    destruct (_ || _); [by apply wp_ret, Hend|]. destruct (isinstance e Exception_).
    + apply wp_modify, Hend; [by eapply owns_keeps, keeps_own_frame|]. rewrite ledger_log. cbn. lia.
    + by apply wp_raise, Hend.
Qed.

(** The upgrade loses no byte the peer has already sent. *)
Theorem transfer_buffer_complete server_side r incoming :
  let '(r', incoming') := transfer_buffer server_side (Some r) incoming in
  ∃ left, r' = Some left ∧ incoming' ++ _buffer left = incoming ++ _buffer r ∧
    (server_side = true → _buffer left = []).
Proof.
  unfold transfer_buffer. destruct (_ && _) eqn:H.
  - eexists. split; [done|]. cbn. by rewrite app_nil_r.
  - exists r. split; [done|]. split; [done|]. intros ->. cbn in H.
    apply negb_false_iff, Nat.eqb_eq in H. by destruct (_buffer r).
Qed.

(** ** Where the write buffer matters

    Everybody else's turn leaves data in every transport's buffer. *)
Definition buffering (w : world) : world :=
  set_trans (fmap (λ tr, Transport (tr_fd tr) (tr_kind tr) (tr_open tr) (tr_closing tr) 1 (tr_view tr)
                           (tr_extra tr) (tr_server tr))) w.
Definition congested : Kernel := scenario (λ _, None) buffering [WCancel] [].
Definition tls_driver : TlsDriver := {| driver_ready := λ _, true; default_context := 0 |}.
Definition tls_server : world :=
  set_servers (<[1%nat := Server None (SSLCtx 7) 100 None None 1 [] false (Some []) None None None]>)
    (one_socket AF_INET false).

#[export] Instance congested_ok : KernelOk congested.
Proof.
  split; [|done|by split]. intros t0 w. split; [split; [done|done| | |done]|done].
  - intros t tr Ht. cbn. rewrite lookup_fmap, Ht. by eexists.
  - intros H0 t tr Ht Ho. cbn in Ht. rewrite lookup_fmap_Some in Ht. destruct Ht as (tr' & <- & Ht).
    by apply (H0 t tr').
Qed.

(** When a TLS accept is cancelled while its transport still has data to write, closing the
    transport does not release the socket view: the accept then closes the descriptor under
    the open transport and uncounts the connection that the transport will uncount again. *)
Theorem accept_tls_double_release :
  let w' := (_accept_tls (K := congested)
               (TD := tls_driver) 0 1 tls_server).2 in
  ¬ native_ok w' ∧ ledger 1 w' = ledger 1 tls_server - 2.
Proof.
  intros w'. split; [|by vm_compute]. intros H.
  assert (Hw : tr_fd <$> w_trans w' !! 0%nat = Some 3%nat ∧ tr_open <$> w_trans w' !! 0%nat = Some true ∧
               w_fds w' !! 3%nat = None) by (vm_compute; done).
  destruct Hw as (Hf & Ho & Hn). destruct (w_trans w' !! 0%nat) as [tr|] eqn:Ht; [|done].
  injection Hf as Hf. injection Ho as Ho. destruct (H 0%nat tr Ht Ho) as [H1 _].
  rewrite Hf, Hn in H1. done.
Qed.

(** ** The theorems above at concrete inputs *)
Definition no_files : FileSystem := {| stat_identity := λ _ _, (0, 0) |}.
#[export] Instance tls_driver_ok : TlsDriverOk (TD := tls_driver).
Proof. done. Qed.
Definition no_resolver : Resolver := {|
  getaddrinfo := λ _ _ _ _ _ _, ret [AddrInfo AF_INET SOCK_STREAM 6 "" (ATuple [IText "127.0.0.1"; IInt 80])];
  getaddrinfo_quiet := λ _ _ _ _ _ _, stable_ret keeps _ |}.
Definition instant_connector : Connector := {|
  sock_connect := λ _ _, ret tt; sock_connect_quiet := λ _ _, stable_ret keeps _ |}.
Definition to_host : tcp_options :=
  TcpOptions (Some "localhost"%string) (Some (IInt 80)) SSLNone 0 0 0 None None None None None None None false.

Lemma create_connection_no_leak_witness :
  let K := steady [WReady] [] in
  wp (create_connection (K := K) (TD := tls_driver) (C := instant_connector) (R := no_resolver)
        (λ _ _ _ _, None) (λ n, n) to_host)
    (λ r w', mine w' = mine (one_socket AF_INET false) ∧
             ∃ f, (f ∉ mine (one_socket AF_INET false)) ∧ adopted (native_transport r) f w')
    (λ _ w', mine w' = mine (one_socket AF_INET false)) (one_socket AF_INET false).
Proof.
  intros K. apply (create_connection_no_leak (KOk := steady_ok [WReady] []) (TOk := tls_driver_ok)).
  - apply one_socket_native.
  - reflexivity.
Defined.

Lemma accepted_socket_consumed_witness :
  wp (connect_accepted_socket (K := steady [WReady] []) (TD := tls_driver) 0 SSLNone None None)
    (λ r w', consumed (one_socket AF_INET true) 3 w' ∧ adopted (native_transport r) 3 w')
    (λ _ w', mine w' = mine (one_socket AF_INET true) ∨ consumed (one_socket AF_INET true) 3 w')
    (one_socket AF_INET true).
Proof.
  apply (accepted_socket_consumed (KOk := steady_ok [WReady] []) (TOk := tls_driver_ok)).
  - apply one_socket_native.
  - apply one_socket_holds.
Defined.

Lemma unix_connection_no_leak_witness :
  wp (create_unix_connection (K := steady [WReady] []) (TD := tls_driver) (C := instant_connector)
        (Some "/run/app.sock"%string) SSLNone None None None None)
    (λ r w', mine w' = mine (one_socket AF_INET true) ∧
             ∃ f, (f ∉ mine (one_socket AF_INET true)) ∧ adopted (native_transport r) f w')
    (λ _ w', mine w' = mine (one_socket AF_INET true) ∨
       ∃ o f s, owns (one_socket AF_INET true) [(o, f)] w' ∧ w_socks w' !! o = Some s ∧ ps_blocking s = true)
    (one_socket AF_INET true).
Proof.
  apply (unix_connection_no_leak (KOk := steady_ok [WReady] []) (TOk := tls_driver_ok)).
  apply one_socket_native.
Defined.

Lemma accept_balanced_witness :
  wp (_accept (K := steady [] []) (A := connect_acceptor (K := steady [] []) (TD := tls_driver)) 1 0)
    (λ _, balanced 1 tls_server)
    (λ _ w', balanced 1 tls_server w' ∨ stranded 1 tls_server w') tls_server.
Proof.
  apply (accept_balanced (KOk := steady_ok [] []) (FS := no_files) (TOk := tls_driver_ok)).
  apply one_socket_native.
Defined.

Lemma accept_tls_settles_witness :
  let w := tls_server in
  let settled_once w' := mine w' = mine w ∖ {[3%nat]} ∧ ledger 1 w' = ledger 1 w - 1 ∧ native_ok w' in
  wp (_accept_tls (K := steady [WCancel] []) (TD := tls_driver) 0 1)
    (λ _, settled_once) (λ _, settled_once) w.
Proof.
  apply (accept_tls_settles (KOk := steady_ok [WCancel] []) (FS := no_files) (TOk := tls_driver_ok)
           0 3 1 (Server None (SSLCtx 7) 100 None None 1 [] false (Some []) None None None)).
  - apply one_socket_native.
  - by intros i w t o.
  - apply one_socket_holds.
  - reflexivity.
Defined.
