(* ===== verification/Listen.v ===== *)
(** * Listening sockets (zuvloop/_connect.py)

    [create_server], [create_unix_server] and [_bind_tcp]: binding every resolved address,
    handing the sockets to a [Server], and closing them when something fails on the way. *)
From S2P Require Import Prelude World Checks Connect Server.

(** ** [dict.fromkeys]: the first occurrence of each element, in order. *)
Fixpoint fromkeys_seen {A} `{EqDecision A} (seen l : list A) : list A :=
  match l with
  | [] => []
  | x :: l' => if decide (x ∈ seen) then fromkeys_seen seen l' else x :: fromkeys_seen (x :: seen) l'
  end.
Definition fromkeys {A} `{EqDecision A} (l : list A) : list A := fromkeys_seen [] l.

(** The [host] argument: [None], one name, or several. *)
Inductive hosts_arg := NoHost | OneHost (h : string) | ManyHosts (l : list string).
(** [host or None]: an empty name is no name. *)
Definition or_none (h : string) : option string := if decide (h = EmptyString) then None else Some h.
Definition host_list (h : hosts_arg) : list (option string) :=
  match h with
  | NoHost => [None]
  | OneHost h => [or_none h]
  | ManyHosts l => or_none <$> l
  end.

(** A path whose first character is NUL names an abstract socket. *)
Definition is_abstract (path : string) : bool :=
  match path with String c _ => bool_decide (c = "000"%char) | EmptyString => false end.

Section listen.
Context `{K : Kernel} `{R : Resolver} `{FS : FileSystem}.

(** ** Binding *)
Definition close_all (socks : list oid) : M world unit := for_each socks sock_close.

Definition prepare_listener (sock : oid) (i : addrinfo)
    (reuse_address reuse_port keep_alive : bool) : M world unit :=
  when_ reuse_address (setsockopt sock "SO_REUSEADDR") ;;
  when_ reuse_port (_set_reuse_port sock) ;;
  when_ keep_alive (setsockopt sock "SO_KEEPALIVE") ;;
  when_ (ai_family i =? AF_INET6 plat) (setsockopt sock "IPV6_V6ONLY") ;;
  setblocking sock false ;;
  sock_bind sock (ai_addr i).

(** The [try] around the loop: [sockets] is what has been created so far. *)
Fixpoint bind_each (reuse_address reuse_port keep_alive : bool) (infos : list addrinfo)
    (sockets : list oid) : M world (list oid) :=
  match infos with
  | [] => ret sockets
  | i :: infos' =>
      sock <- catch (socket_new (ai_family i) (ai_type i) (ai_proto i))
                (λ e, close_all sockets ;; raise e) ;;
      catch (prepare_listener sock i reuse_address reuse_port keep_alive)
        (λ e, close_all (sockets ++ [sock]) ;; raise e) ;;
      bind_each reuse_address reuse_port keep_alive infos' (sockets ++ [sock])
  end.

Fixpoint resolve_hosts (hosts : list (option string)) (port : option aitem) (family flags : Z)
    (resolved : list addrinfo) : M world (list addrinfo) :=
  match hosts with
  | [] => ret resolved
  | entry :: hosts' =>
      infos <- getaddrinfo entry port family SOCK_STREAM 0 flags ;;
      resolve_hosts hosts' port family flags (resolved ++ infos)
  end.

Definition _bind_tcp (host : hosts_arg) (port : option aitem) (family flags : Z)
    (reuse_address reuse_port keep_alive : option bool) : M world (list oid) :=
  let reuse_address := default (os_name_posix plat) reuse_address in
  resolved <- resolve_hosts (host_list host) port family flags [] ;;
  bind_each reuse_address (default false reuse_port) (default false keep_alive)
    (fromkeys resolved) [].

(** ** Servers *)
Record server_options := ServerOptions {
  s_host : hosts_arg; s_port : option aitem; s_family : Z; s_flags : Z; s_sock : option oid;
  s_backlog : nat; s_ssl : sslarg; s_reuse_address : option bool; s_reuse_port : option bool;
  s_keep_alive : option bool; s_handshake : option Z; s_shutdown : option Z; s_start : bool }.

Definition no_host (h : hosts_arg) : bool := match h with NoHost => true | _ => false end.

Definition create_server (p : server_options) : M world oid :=
  of_res (_check_server_ssl (s_ssl p)) ;;
  of_res (_check_ssl_timeouts (s_ssl p) (s_handshake p) (s_shutdown p)) ;;
  sockets <-
    (if negb (no_host (s_host p)) || bool_decide (s_port p ≠ None) then
       match s_sock p with
       | Some _ => raise (mk ValueError "host/port and sock can not be specified at the same time")
       | None => _bind_tcp (s_host p) (s_port p) (s_family p) (s_flags p) (s_reuse_address p)
                   (s_reuse_port p) (s_keep_alive p)
       end
     else match s_sock p with
     | None => raise (mk ValueError "Neither host/port nor sock were specified")
     | Some sock =>
         s <- get_sock sock ;; of_res (_check_socket s SOCK_STREAM None) ;;
         setblocking sock false ;; ret [sock]
     end) ;;
  server <- new_server sockets (s_ssl p) (s_backlog p) (s_handshake p) (s_shutdown p) ;;
  when_ (s_start p) (catch (start_serving server) (λ e, close server ;; raise e)) ;;
  ret server.

(** [create_unix_server]: binding the path. *)
Definition bind_unix (path : string) : M world oid :=
  sock <- socket_new (AF_UNIX_ plat) SOCK_STREAM 0 ;;
  catch_cls (sock_bind sock (AText path)) OSError
    (λ e,
      sock_close sock ;;
      if bool_decide (exn_errno e = Some (EADDRINUSE plat)) || isinstance e FileExistsError
      then raise (new_OSError plat (exn_errno e)
                    ("Address " ++ repr_addr (AText path) ++ " is already in use"))
      else raise e) ;;
  setblocking sock false ;;
  ret sock.

(** Recording the identity of what was bound, for [Server.close] to compare. *)
Definition record_cleanup (server : oid) (cleanup_socket : bool) (path : option string) : M world unit :=
  match path with
  | Some path =>
      when_ (cleanup_socket && negb (is_abstract path))
        (catch_else (sys ;; t <- tick ;; ret (stat_identity t path))
           (λ e, if isinstance e FileNotFoundError then ret tt else raise e)
           (λ bound,
             upd_server server (with_cleanup_path (λ _, Some path)) ;;
             upd_server server (with_cleanup_identity (λ _, Some bound))))
  | None => ret tt
  end.

Definition create_unix_server (path : option string) (sock : option oid) (backlog : nat)
    (ssl : sslarg) (handshake shutdown : option Z) (start cleanup_socket : bool) : M world oid :=
  if is_win32 plat then
    raise (mk NotImplementedError "create_unix_server() is not supported on Windows")
  else
    of_res (_check_server_ssl ssl) ;;
    of_res (_check_ssl_timeouts ssl handshake shutdown) ;;
    sock <-
      match path, sock with
      | Some _, Some _ => raise (mk ValueError "path and sock can not be specified at the same time")
      | Some path, None => bind_unix path
      | None, None => raise (mk ValueError "path was not specified, and no sock specified")
      | None, Some sock =>
          s <- get_sock sock ;; of_res (_check_socket s SOCK_STREAM (Some (AF_UNIX_ plat))) ;;
          setblocking sock false ;; ret sock
      end ;;
    server <- new_server [sock] ssl backlog handshake shutdown ;;
    catch
      (record_cleanup server cleanup_socket path ;; when_ start (start_serving server))
      (λ e, close server ;; raise e) ;;
    ret server.
End listen.

(** ** [dict.fromkeys] is the set of its argument without repetition *)
Lemma fromkeys_seen_spec {A} `{EqDecision A} (l seen : list A) :
  NoDup (fromkeys_seen seen l) ∧ ∀ x, x ∈ fromkeys_seen seen l ↔ x ∈ l ∧ x ∉ seen.
Proof.
  revert seen. induction l as [|y l IH]; intros seen; cbn.
  - split; [constructor|]. intros x. rewrite elem_of_nil. naive_solver.
  - case_decide as Hy; [destruct (IH seen) as [H1 H2]|destruct (IH (y :: seen)) as [H1 H2]].
    + split; [done|]. intros x. rewrite H2, elem_of_cons. naive_solver.
    + split.
      * constructor; [|done]. rewrite H2. set_solver.
      * intros x. rewrite !elem_of_cons, H2, elem_of_cons. split; [naive_solver|].
        intros [[->|Hx] Hs]; [by left|]. destruct (decide (x = y)); [by left|right]. naive_solver.
Qed.
Lemma fromkeys_spec {A} `{EqDecision A} (l : list A) :
  NoDup (fromkeys l) ∧ ∀ x, x ∈ fromkeys l ↔ x ∈ l.
Proof. destruct (fromkeys_seen_spec l []) as [H1 H2]. split; [done|]. intros x. rewrite H2. set_solver. Qed.

(** ** Everything opened on the way to a failure is closed *)
Lemma owns_perm w0 l l' w : l ≡ₚ l' → owns w0 l w → owns w0 l' w.
Proof.
  intros Hp H. assert (Hp2 : l.*2 ≡ₚ l'.*2) by (by rewrite Hp). split.
  - apply H.
  - rewrite (own_mine _ _ _ H). apply set_eq. intros x. rewrite !elem_of_union, !elem_of_list_to_set. by rewrite Hp2.
  - apply (own_trans _ _ _ H).
  - apply (own_native _ _ _ H).
  - intros f. rewrite <-Hp2. apply (own_fresh _ _ _ H).
  - rewrite <-Hp2. apply (own_nodup _ _ _ H).
  - intros o f. rewrite <-Hp. apply (own_holds _ _ _ H).
  - apply (own_old _ _ _ H).
Qed.

Section listen_proofs.
Context `{KOk : KernelOk} `{R : Resolver} `{FS : FileSystem}.

Lemma wp_close_all w0 l w :
  owns w0 l w → wp (close_all l.*1) (λ _, owns w0 []) (λ _ _, False) w.
Proof.
  intros Ho. unfold close_all.
  apply (wp_for_each (λ rest w', ∃ l2, rest = l2.*1 ∧ owns w0 l2 w')); [by exists l| |].
  - intros o rest w1 (l2 & E & Ho1). destruct l2 as [|[o' f] l2]; [done|]. injection E as -> ->.
    eapply (wp_sock_close w0 [] o' f l2); [exact Ho1|]. intros w2 Ho2 _. by exists l2.
  - intros w1 (l2 & E & Ho1). by destruct l2.
Qed.

(** The clean-up clause of the loop. *)
Lemma wp_cleanup w0 l (e : exn) w {A} (Q : A → world → Prop) :
  owns w0 l w → wp (close_all l.*1 ;; raise e) Q (λ _, keeps_own w0) w.
Proof.
  intros Ho. apply wp_bind. eapply wp_mono; [by apply wp_close_all| |done].
  intros [] w1 Ho1. apply wp_raise. by apply owns_nil.
Qed.

Lemma set_reuse_port_quiet o : quiet (_set_reuse_port o).
Proof. unfold _set_reuse_port. solve_stable. Qed.
#[local] Hint Resolve set_reuse_port_quiet : stable.

Lemma wp_prepare w0 l o f i a b c w :
  owns w0 l w → (o, f) ∈ l →
  wp (prepare_listener o i a b c) (λ _, owns w0 l) (λ _, owns w0 l) w.
Proof.
  intros Ho Hin.
  assert (Hq : ∀ (m k : M world unit) w', quiet m → owns w0 l w' →
    (∀ w'', owns w0 l w'' → wp k (λ _, owns w0 l) (λ _, owns w0 l) w'') →
    wp (m ;; k) (λ _, owns w0 l) (λ _, owns w0 l) w').
  { intros m k w' Hm Ho' Hk. apply wp_bind. by eapply wp_owns_quiet; [done|done|auto|auto]. }
  unfold prepare_listener.
  apply Hq; [solve_stable|done|intros w1 Ho1]. apply Hq; [solve_stable|done|intros w2 Ho2].
  apply Hq; [solve_stable|done|intros w3 Ho3]. apply Hq; [solve_stable|done|intros w4 Ho4].
  destruct (own_holds _ _ _ Ho4 o f Hin) as (s & Hs & _). apply wp_bind.
  eapply (wp_setblocking w0 l o f); [done|done|done| |by auto]. intros w5 Ho5 _ _.
  eapply wp_owns_quiet; [apply sock_bind_quiet|done|auto..].
Qed.

Lemma wp_bind_each w0 a b c infos l w :
  owns w0 l w →
  wp (bind_each a b c infos l.*1)
    (λ socks w', ∃ l', socks = (l ++ l').*1 ∧ owns w0 (l ++ l') w' ∧ length l' = length infos)
    (λ _, keeps_own w0) w.
Proof.
  revert l w. induction infos as [|i infos IH]; intros l w Ho.
  { apply wp_ret. exists []. by rewrite app_nil_r. }
  cbn [bind_each]. apply wp_bind, wp_catch. eapply wp_socket_new; [exact Ho| |].
  2:{ intros e w1 _ Ho1. by apply wp_cleanup. }
  intros o f w1 Ho1 _ _.
  assert (Hp : (o, f) :: l ≡ₚ l ++ [(o, f)]) by (by rewrite Permutation_app_comm).
  apply (owns_perm _ _ _ _ Hp) in Ho1.
  replace (l.*1 ++ [o]) with ((l ++ [(o, f)]).*1) by (by rewrite fmap_app).
  apply wp_bind, wp_catch. eapply wp_mono; [eapply (wp_prepare w0 _ o f); [exact Ho1|set_solver]| |].
  - intros [] w2 Ho2. eapply wp_mono; [by apply IH| |done]. intros socks w3 (l' & -> & Ho3 & Hlen).
    exists ((o, f) :: l'). rewrite <-app_assoc in *. split; [done|]. split; [done|]. cbn. lia.
  - intros e w2 Ho2. by apply wp_cleanup.
Qed.

Lemma resolve_hosts_quiet hosts port fam fl acc : quiet (resolve_hosts hosts port fam fl acc).
Proof. revert acc. induction hosts as [|h hosts IH]; intros acc; cbn; solve_stable. Qed.

Lemma wp_bind_tcp host port fam fl a b c w :
  wp (_bind_tcp host port fam fl a b c)
    (λ socks w', ∃ l, socks = l.*1 ∧ owns w l w') (λ _, keeps_own w) w.
Proof.
  unfold _bind_tcp. cbv zeta. apply wp_bind, (wp_stable keeps); [apply resolve_hosts_quiet| |by intros e w' [? _]].
  intros infos w1 [K1 _]. eapply wp_mono; [apply (wp_bind_each w1 _ _ _ _ [] w1), owns_refl| |].
  - intros socks w2 (l' & -> & Ho & _). exists l'. split; [done|]. cbn in Ho.
    rewrite <-(app_nil_r l'). by eapply owns_trans; [apply owns_nil|].
  - intros e w2 K2. by etrans.
Qed.

(** While a server is being set up nobody else has it to close. *)
Definition server_private (sid : oid) (w w' : world) : Prop :=
  ∀ s, w_servers w !! sid = Some s → ∃ s', w_servers w' !! sid = Some s' ∧ _sockets s' = _sockets s.
#[export] Instance server_private_preorder sid : PreOrder (server_private sid).
Proof.
  split; [intros w s H; by exists s|]. intros x y z H1 H2 s Hs.
  destruct (H1 s Hs) as (s2 & Hs2 & E2). destruct (H2 s2 Hs2) as (s3 & Hs3 & E3).
  exists s3. split; [done|congruence].
Qed.
Lemma private_frame sid w w' : w_servers w' = w_servers w → server_private sid w w'.
Proof. intros H s Hs. exists s. by rewrite H. Qed.
Lemma benign_private {A} sid (m : M world A) : stable (benign sid) m → stable (server_private sid) m.
Proof.
  intros H w. eapply wp_mono; [apply H|intros ? w' B..]; intros s Hs;
    destruct (ben_server _ _ _ B s Hs) as (s' & ? & ? & _); by exists s'.
Qed.

Class ServersPrivate := intf_private : ∀ sid i w, server_private sid w (intf i w).
Context `{SP : ServersPrivate}.

Lemma start_serving_private sid : stable (server_private sid) (start_serving sid).
Proof.
  unfold start_serving. apply stable_bind; [apply _|apply benign_private, get_server_benign|]. intros s.
  apply stable_bind; [apply _|apply stable_when, benign_private, start_benign; apply _|]. intros [].
  unfold await_. apply stable_bind; [apply _| |].
  { unfold yield_. apply stable_bind; [apply _|apply benign_private, tick_benign|]. intros t.
    apply stable_modify. intros w. apply intf_private. }
  intros []. apply stable_bind; [apply _|apply benign_private, tick_benign|]. intros t. solve_stable.
Qed.
Lemma start_serving_quiet sid : quiet (start_serving sid).
Proof. unfold start_serving. solve_stable. Qed.

(** The server in charge of the sockets [l], which are all it owes. *)
Definition in_charge (w0 : world) (sid : oid) (l : list (oid * fd)) (w : world) : Prop :=
  owns w0 l w ∧ ∃ s, w_servers w !! sid = Some s ∧ _sockets s = Some l.*1.

Lemma in_charge_step {A} (m : M world A) w0 sid l (Q : A → world → Prop) (E : exn → world → Prop) w :
  quiet m → stable (server_private sid) m → in_charge w0 sid l w →
  (∀ a w', in_charge w0 sid l w' → Q a w') → (∀ e w', in_charge w0 sid l w' → E e w') → wp m Q E w.
Proof.
  intros Hq Hp [Ho (s & Hs & Hl)] HQ HE.
  eapply wp_mono; [apply wp_and; [apply Hq|apply Hp]| |]; intros ? w' [[K1 _] P1];
    [apply HQ|apply HE]; (split; [by eapply owns_keeps|];
    destruct (P1 s Hs) as (s' & Hs' & E'); exists s'; split; [done|congruence]).
Qed.

Lemma wp_new_server w0 l ssl backlog h d w (Q : oid → world → Prop) E :
  owns w0 l w → (∀ sid w', in_charge w0 sid l w' → Q sid w') →
  wp (new_server l.*1 ssl backlog h d) Q E w.
Proof.
  intros Ho HQ. unfold new_server, alloc. wp_go. apply HQ. split.
  - eapply owns_keeps; [exact Ho|]. etrans; [apply keeps_owned, keeps_alloc|by apply keeps_own_frame].
  - eexists. split; [apply lookup_insert_eq|done].
Qed.

(** [except BaseException: server.close(); raise]. *)
Lemma wp_server_abandoned w0 sid l (e : exn) w :
  in_charge w0 sid l w → wp (close sid ;; raise (A:=unit) e) (λ _ _, False) (λ _, keeps_own w0) w.
Proof.
  intros [Ho (s & Hs & Hl)]. apply wp_bind.
  eapply wp_mono; [by eapply wp_close_releases|intros [] w' [H _]|intros e' w' [H _]];
    [apply wp_raise|]; by apply owns_nil.
Qed.
End listen_proofs.

(** [create_server] on host and port: every socket it bound belongs to the server it
    returns; when anything fails - a later address, an option, serving, cancellation - all
    of them have been closed. *)
Theorem create_server_no_leak `{KOk : KernelOk} `{R : Resolver} `{FS : FileSystem}
    `{SP : !ServersPrivate} p w :
  s_sock p = None →
  wp (create_server p) (λ sid w', ∃ l, in_charge w sid l w') (λ _ w', mine w' = mine w) w.
Proof.
  intros Hs. unfold create_server. rewrite Hs.
  apply wp_bind, wp_of_res; [intros [] _|done]. apply wp_bind, wp_of_res; [intros [] _|done].
  apply wp_bind. destruct (_ || _); [|by apply wp_raise].
  eapply wp_mono; [apply wp_bind_tcp| |by intros e w' [_ Hm]].
  intros socks w1 (l & -> & Ho1). apply wp_bind. eapply wp_new_server; [exact Ho1|].
  intros sid w2 H2. apply wp_bind, wp_when; intros _; [|apply wp_ret; by exists l].
  apply wp_catch. eapply in_charge_step; [apply start_serving_quiet|apply start_serving_private|exact H2| |].
  - intros [] w3 H3. apply wp_ret. by exists l.
  - intros e w3 H3. eapply wp_mono; [by eapply wp_server_abandoned|done|by intros e' w' [_ Hm]].
Qed.

(** [create_unix_server] by path: once the listening socket is non-blocking the server or
    its failure path closes it, even when recording the path's identity is what fails.
    Before that, [bind] raising something other than [OSError], or [setblocking] failing,
    leaves the socket behind. *)
Theorem create_unix_server_no_leak `{KOk : KernelOk} `{R : Resolver} `{FS : FileSystem}
    `{SP : !ServersPrivate} path backlog ssl handshake shutdown start cleanup w :
  wp (create_unix_server (Some path) None backlog ssl handshake shutdown start cleanup)
    (λ sid w', ∃ l, in_charge w sid l w')
    (λ _ w', mine w' = mine w ∨
       ∃ o f s, owns w [(o, f)] w' ∧ w_socks w' !! o = Some s ∧ ps_blocking s = true) w.
Proof.
  unfold create_unix_server. destruct (is_win32 plat); [apply wp_raise; by left|].
  apply wp_bind, wp_of_res; [intros [] _|intros ? _; by left]. apply wp_bind, wp_of_res; [intros [] _|intros ? _; by left].
  apply wp_bind. unfold bind_unix. apply wp_bind. eapply wp_socket_new; [apply owns_refl| |].
  2:{ intros e w1 [K1 _] _. left. apply (keeps_mine _ _ K1). }
  intros o f w1 Ho1 Hs1 _.
  assert (Hblk : ∀ w2, keeps w1 w2 → owns w [(o, f)] w2 → ∃ o f s, owns w [(o, f)] w2 ∧ w_socks w2 !! o = Some s ∧ ps_blocking s = true).
  { intros w2 [K2 _] Ho2. exists o, f. eexists. split; [done|].
    rewrite (keeps_socks _ _ K2 o f); [done|]. apply (own_holds _ _ _ Ho1). left. }
  apply wp_bind, wp_catch_cls. eapply wp_owns_quiet; [apply sock_bind_quiet|exact Ho1| |].
  2:{ intros e w2 K2 Ho2. split; intros He; [|right; by apply Hblk].
      apply wp_bind. eapply (wp_sock_close w [] o f []); [exact Ho2|]. intros w3 Ho3%owns_nil _.
      destruct (_ || _); apply wp_raise; left; apply (keeps_mine _ _ Ho3). }
  intros _ w2 K2 Ho2. apply wp_bind.
  assert (Hs2 : w_socks w2 !! o = Some (PSock (Some f) (AF_UNIX_ plat) SOCK_STREAM 0 true)).
  { rewrite (keeps_socks _ _ (keeps_owned _ _ K2) o f); [done|]. apply (own_holds _ _ _ Ho1). left. }
  eapply (wp_setblocking w _ o f); [exact Ho2|left|exact Hs2| |].
  2:{ intros e w3 K3 Ho3. right. apply Hblk; [by etrans|done]. }
  intros w3 Ho3 _ _. apply wp_ret, wp_bind.
  eapply (wp_new_server w [(o, f)]); [exact Ho3|]. intros sid w4 H4. apply wp_bind, wp_catch.
  assert (Hfail : ∀ e w', in_charge w sid [(o, f)] w' →
    wp (close sid ;; raise (A:=unit) e) (λ _ _, False)
      (λ _ w', mine w' = mine w ∨
         ∃ o f s, owns w [(o, f)] w' ∧ w_socks w' !! o = Some s ∧ ps_blocking s = true) w').
  { intros e w' H'. eapply wp_mono; [by eapply wp_server_abandoned|done|].
    intros e' w'' Hk. left. apply (keeps_mine _ _ Hk). }
  apply wp_bind. eapply in_charge_step; [| |exact H4| |].
  - unfold record_cleanup. solve_stable.
  - apply benign_private. unfold record_cleanup.
    assert (stable (benign sid) tick) by apply tick_benign.
    assert (stable (benign sid) sys) by apply sys_benign.
    assert (∀ x, stable (benign sid) (upd_server sid (with_cleanup_path x))) by (intros; by apply upd_benign).
    assert (∀ x, stable (benign sid) (upd_server sid (with_cleanup_identity x))) by (intros; by apply upd_benign).
    solve_stable.
  - intros [] w5 H5. apply wp_when; intros _; [|apply wp_ret; by exists [(o, f)]].
    eapply in_charge_step; [apply start_serving_quiet|apply start_serving_private|exact H5| |].
    + intros [] w6 H6. apply wp_ret. by exists [(o, f)].
    + intros e w6 H6. eapply wp_mono; [by apply Hfail|done|done].
  - intros e w5 H5. eapply wp_mono; [by apply Hfail|done|done].
Qed.

(** ** The theorems above at concrete inputs *)
Lemma steady_private ws infos : ServersPrivate (K := steady ws infos).
Proof. intros sid i w s Hs. by exists s. Qed.
Definition any_host : server_options :=
  ServerOptions NoHost (Some (IInt 80)) 0 AI_PASSIVE None 100 SSLNone None None None None None true.

Lemma create_server_no_leak_witness :
  wp (create_server (K := steady [WReady] [info6; info4; info6])
        (R := connect_resolver (KOk := steady_ok [WReady] [info6; info4; info6])) (FS := no_disk) any_host)
     (λ sid w', ∃ l, in_charge world0 sid l w') (λ _ w', mine w' = mine world0) world0.
Proof.
  apply (create_server_no_leak (KOk := steady_ok [WReady] [info6; info4; info6])
           (SP := steady_private [WReady] [info6; info4; info6])).
  reflexivity.
Defined.

Lemma create_unix_server_no_leak_witness :
  wp (create_unix_server (K := steady [WReady] []) (FS := no_disk) (Some "/run/app.sock"%string) None 100
        SSLNone None None true true)
    (λ sid w', ∃ l, in_charge world0 sid l w')
    (λ _ w', mine w' = mine world0 ∨
       ∃ o f s, owns world0 [(o, f)] w' ∧ w_socks w' !! o = Some s ∧ ps_blocking s = true) world0.
Proof.
  apply (create_unix_server_no_leak (KOk := steady_ok [WReady] []) (R := connect_resolver (KOk := steady_ok [WReady] []))
           (SP := steady_private [WReady] [])).
Defined.
