(* ===== verification/Datagram.v ===== *)
(** * Datagram endpoints (zuvloop/_connect.py)

    [create_datagram_endpoint]: resolving the two addresses, binding and connecting the
    socket, and handing it to the native datagram transport. *)
From S2P Require Import Prelude World Checks Server Connect Attach.

(** The text a resolver gets for a host: text as it is, an integer in decimal. *)
Definition host_text (h : aitem) : res (option string) :=
  match h with
  | IText s => Ok (Some s)
  | IInt n => Ok (Some (string_of_Z n))
  | IOther => Raise (mk TypeError "host must be str, bytes, int or None")
  end.

Record datagram_options := DatagramOptions {
  d_local : option pyaddr; d_remote : option pyaddr; d_family : Z; d_proto : Z; d_flags : Z;
  d_reuse_port : option bool; d_broadcast : option bool; d_sock : option oid }.

Section datagram.
Context `{K : Kernel} `{C : Connector} `{R : Resolver}.

Definition _resolve_datagram (address : option pyaddr) (family proto flags : Z)
    : M world (option addrinfo) :=
  match address with
  | None => ret None
  | Some address =>
      if family =? AF_UNIX_ plat then ret (Some (AddrInfo family SOCK_DGRAM proto "" address))
      else match address with
      | ATuple (h :: p :: _) =>
          host <- of_res (host_text h) ;;
          infos <- getaddrinfo host (Some p) family SOCK_DGRAM proto flags ;;
          match infos with
          | [] => raise (mk OSError "getaddrinfo() returned empty list")
          | i :: _ => ret (Some i)
          end
      | _ => raise (mk TypeError "string or tuple of (host, port) expected")
      end
  end.

(** The part of [_bind_datagram] that works on the new socket. *)
Definition prepare_datagram (sock : oid) (reuse_port broadcast : bool)
    (resolved_local resolved_remote : option addrinfo) : M world unit :=
  when_ reuse_port (_set_reuse_port sock) ;;
  when_ broadcast (setsockopt sock "SO_BROADCAST") ;;
  setblocking sock false ;;
  match resolved_local with Some i => sock_bind sock (ai_addr i) | None => ret tt end ;;
  match resolved_remote with Some i => sock_connect sock (ai_addr i) | None => ret tt end.

Definition _bind_datagram (p : datagram_options) : M world (oid * bool) :=
  r <- (match d_local p, d_remote p with
        | None, None =>
            if d_family p =? 0 then raise (mk ValueError "unexpected address family")
            else ret (None, None, d_family p, d_proto p)
        | _, _ =>
            local <- _resolve_datagram (d_local p) (d_family p) (d_proto p) (Z.lor (d_flags p) AI_PASSIVE) ;;
            remote <- _resolve_datagram (d_remote p) (d_family p) (d_proto p) (d_flags p) ;;
            match (match local with Some i => Some i | None => remote end) with
            | None => raise (mk AssertionError "")
            | Some probe => ret (local, remote, ai_family probe, ai_proto probe)
            end
        end) ;;
  let '(local, remote, family, proto) := r in
  sock <- socket_new family SOCK_DGRAM proto ;;
  catch (prepare_datagram sock (default false (d_reuse_port p)) (default false (d_broadcast p)) local remote)
    (λ e, sock_close sock ;; raise e) ;;
  ret (sock, bool_decide (is_Some remote)).

Definition _attach_datagram (sock : oid) (connected : bool) : M world oid :=
  sockname <- _safe_addr (socket_address sock) ;;
  peername <- _safe_addr (socket_address sock) ;;
  s <- get_sock sock ;;
  let extra := Extra sockname peername (ps_family s) (ps_type s) (ps_proto s) (Some sock) in
  fd <- need_fd sock ;;
  transport <- make_datagram_transport fd connected extra ;;
  catch (adopt_socket_view transport sock)
    (λ e, sock_detach sock ;; transport_abort transport ;; raise e) ;;
  ret transport.

Definition create_datagram_endpoint (p : datagram_options) : M world oid :=
  sc <-
    match d_sock p with
    | Some sock =>
        if bool_decide (d_local p ≠ None) || bool_decide (d_remote p ≠ None) || negb (d_family p =? 0)
           || negb (d_proto p =? 0) || negb (d_flags p =? 0) || default false (d_reuse_port p)
        then raise (mk ValueError "socket modifier keyword arguments can not be used when sock is specified")
        else
          s <- get_sock sock ;; of_res (_check_socket s SOCK_DGRAM None) ;;
          setblocking sock false ;;
          peer <- _safe_addr (socket_address sock) ;; ret (sock, bool_decide (is_Some peer))
    | None => _bind_datagram p
    end ;;
  tw <- catch
    (user_call ;; waiter <- create_future ;;
     transport <- _attach_datagram sc.1 sc.2 ;; ret (transport, waiter))
    (λ e, sock_close sc.1 ;; raise e) ;;
  (* [call_soon] of [connection_made], [_start_receiving] and the waiter *)
  sys ;; log (EvReady tw.1 (Some tw.2)) ;;
  catch (await_future tw.2) (λ e, transport_close tw.1 ;; raise e) ;;
  ret tw.1.
End datagram.

Section datagram_proofs.
Context `{KOk : KernelOk} `{TD : TlsDriver} `{C : Connector} `{R : Resolver}.

Lemma resolve_datagram_quiet a f p fl : quiet (_resolve_datagram a f p fl).
Proof. unfold _resolve_datagram. solve_stable. Qed.
Lemma set_reuse_port_quiet_ o : quiet (_set_reuse_port o).
Proof. unfold _set_reuse_port. solve_stable. Qed.
#[local] Hint Resolve resolve_datagram_quiet set_reuse_port_quiet_ : stable.

Lemma wp_prepare_datagram w0 o f a b l r w :
  owns w0 [(o, f)] w →
  wp (prepare_datagram o a b l r) (λ _, owns w0 [(o, f)]) (λ _, owns w0 [(o, f)]) w.
Proof.
  intros Ho. unfold prepare_datagram.
  apply wp_bind. eapply wp_owns_quiet; [|exact Ho|intros _ w1 _ Ho1|by auto]; [solve_stable|].
  apply wp_bind. eapply wp_owns_quiet; [|exact Ho1|intros _ w2 _ Ho2|by auto]; [solve_stable|].
  destruct (own_holds _ _ _ Ho2 o f ltac:(left)) as (s & Hs & _).
  apply wp_bind. eapply (wp_setblocking w0 _ o f); [done|left|done| |by auto]. intros w3 Ho3 _ _.
  apply wp_bind. eapply wp_owns_quiet; [|exact Ho3|intros _ w4 _ Ho4|by auto]; [solve_stable|].
  eapply wp_owns_quiet; [|exact Ho4|auto..]. solve_stable.
Qed.

Lemma wp_bind_datagram p w :
  wp (_bind_datagram p) (λ r w', ∃ f, owns w [(r.1, f)] w') (λ _, keeps_own w) w.
Proof.
  unfold _bind_datagram. apply wp_bind, (wp_stable keeps); [solve_stable| |by intros e w' [? _]].
  intros [[[local remote] family] proto] w1 [K1 _]. apply wp_bind.
  eapply wp_socket_new; [by apply owns_nil| |by intros e w2 _ Ho2%owns_nil].
  intros o f w2 Ho2 _ _. apply wp_bind, wp_catch. eapply wp_mono; [by apply wp_prepare_datagram| |].
  - intros [] w3 Ho3. apply wp_ret. by exists f.
  - intros e w3 Ho3. apply wp_bind. eapply (wp_sock_close w [] o f []); [exact Ho3|].
    intros w4 Ho4%owns_nil _. by apply wp_raise.
Qed.

Lemma wp_attach_datagram w0 o f connected w (Q : oid → world → Prop) (E : exn → world → Prop) :
  owns w0 [(o, f)] w → native_ok w0 →
  (∀ t w', owns w0 [] w' → adopted t f w' → Q t w') →
  (∀ e w', owns w0 [(o, f)] w' → E e w') →
  (∀ e w', owns w0 [] w' → w_socks w' !! o ≫= ps_fd = None → E e w') →
  wp (_attach_datagram o connected) Q E w.
Proof.
  intros Ho H0 HQ HE1 HE2. unfold _attach_datagram.
  apply wp_bind. eapply wp_owns_calm; [apply safe_address_calm|done| |by eauto]. intros sn w1 L1 Ho1.
  apply wp_bind. eapply wp_owns_calm; [apply safe_address_calm|done| |by eauto]. intros pn w2 L2 Ho2.
  apply wp_bind. eapply wp_owns_calm; [apply get_sock_calm|done| |by eauto]. intros s w3 L3 Ho3.
  cbv zeta. apply wp_bind. apply (wp_need_fd o f); [apply (own_holds _ _ _ Ho3); left|]. apply wp_bind.
  eapply (wp_adopt_fd w0 [] o f []); [exact Ho3| |by eauto]. intros t w4 Ha _.
  assert (Hm : meq (catch (adopt_socket_view t o) (λ e, sock_detach o ;; transport_abort t ;; raise e) ;; ret t)
    (catch (adopt_socket_view t o ;; ret tt) (λ e, sock_detach o ;; transport_abort t ;; raise e) ;; ret t)).
  { intros w'. unfold bind, catch, ret. by destruct (adopt_socket_view t o w') as [[[]|e] w'']. }
  rewrite Hm. eapply (wp_view_phase w0 [] o f t None); [done|exact Ha| | |by auto].
  - intros w5. by apply wp_ret.
  - intros w5 Ho5 _ (tr & Ht & Hf & _). apply HQ; [done|by exists tr].
Qed.
End datagram_proofs.

(** [create_datagram_endpoint] without a socket of the caller's: one descriptor, handed to
    the transport on success; whatever fails before that - resolution, binding, connecting,
    the protocol factory, adoption - it is closed. *)
Theorem create_datagram_no_leak `{KOk : KernelOk} `{C : Connector} `{R : Resolver} p w :
  native_ok w → d_sock p = None →
  wp (create_datagram_endpoint p)
    (λ t w', mine w' = mine w ∧ ∃ f, (f ∉ mine w) ∧ adopted t f w')
    (λ _ w', mine w' = mine w) w.
Proof.
  intros H0 Hs. unfold create_datagram_endpoint. rewrite Hs. apply wp_bind.
  eapply wp_mono; [apply wp_bind_datagram| |by intros e w' [_ Hm]].
  intros [o connected] w1 (f & Ho1). cbn [fst snd] in *. apply wp_bind, wp_catch.
  assert (Hfail : ∀ (e : exn) w', owns w [(o, f)] w' ∨ (owns w [] w' ∧ w_socks w' !! o ≫= ps_fd = None) →
    wp (sock_close o ;; raise (A:=oid * oid) e) (λ _ _, False) (λ _ w', mine w' = mine w) w').
  { intros e w' [Ho'|[Ho' Hn]]; apply wp_bind.
    - eapply (wp_sock_close w [] o f []); [exact Ho'|]. intros w2 [_ Hm]%owns_nil _. by apply wp_raise.
    - unfold sock_close, fileno. apply wp_bind, wp_gets. rewrite Hn. apply wp_ret, wp_raise.
      by apply owns_nil in Ho' as [_ Hm]. }
  apply wp_bind. eapply wp_owns_quiet; [apply user_call_quiet|exact Ho1| |].
  2:{ intros e w2 _ Ho2. eapply wp_mono; [apply Hfail; by left|done|done]. }
  intros _ w2 _ Ho2. apply wp_bind. eapply wp_owns_quiet; [apply create_future_quiet|exact Ho2| |].
  2:{ intros e w3 _ Ho3. eapply wp_mono; [apply Hfail; by left|done|done]. }
  intros wt w3 _ Ho3. apply wp_bind. eapply wp_attach_datagram; [exact Ho3|done| | |].
  2:{ intros e w4 Ho4. eapply wp_mono; [apply Hfail; by left|done|done]. }
  2:{ intros e w4 Ho4 Hn. eapply wp_mono; [apply Hfail; by right|done|done]. }
  intros t w4 Ho4%owns_nil (tr & Ht & Hf). apply wp_ret. cbn [fst snd].
  assert (Hf0 : f ∉ mine w) by (apply (own_fresh _ _ _ Ho1); left).
  apply wp_bind, (wp_stable keeps); [apply sys_quiet| |intros e w5 [K5 _]].
  2:{ rewrite (keeps_mine _ _ K5). apply (keeps_mine _ _ Ho4). }
  intros _ w5 [K5 _]. apply wp_bind, wp_modify. set (w6 := log_event _ w5).
  assert (K6 : keeps_own w w6) by (do 2 (etrans; [done|]); by apply keeps_own_frame).
  assert (Ht6 : ∃ tr', w_trans w6 !! t = Some tr' ∧ tr_fd tr' = f).
  { destruct (keeps_trans _ _ K5 t tr Ht) as (tr' & Ht' & Hf' & _). exists tr'. cbn. split; [done|congruence]. }
  destruct Ht6 as (tr6 & Ht6 & Hf6).
  apply wp_bind, wp_catch, (wp_stable keeps); [apply await_future_quiet|intros _ w7 [K7 _]|intros e w7 [K7 _]];
    destruct (keeps_trans _ _ K7 t tr6 Ht6) as (tr7 & Ht7 & Hf7 & _).
  - apply wp_ret. assert (K70 : keeps_own w w7) by by etrans. split; [apply (keeps_mine _ _ K70)|].
    exists f. split; [done|]. exists tr7. split; [done|congruence].
  - apply wp_bind. eapply wp_transport_close; [by apply (keeps_native _ _ K7), (keeps_native _ _ K6)|exact Ht7|].
    intros w8 K8 _ _ _ _ _. apply wp_raise.
    rewrite (keeps_mine _ _ K8), (keeps_mine _ _ K7). apply (keeps_mine _ _ K6).
Qed.

(** ** The theorem above at a concrete input *)
Definition one_address : datagram_options :=
  DatagramOptions (Some (ATuple [IText "127.0.0.1"; IInt 0])) None 0 0 0 None None None.
Lemma create_datagram_no_leak_witness :
  wp (create_datagram_endpoint (K := steady [WReady] []) (C := instant_connector) (R := no_resolver) one_address)
    (λ t w', mine w' = mine world0 ∧ ∃ f, (f ∉ mine world0) ∧ adopted t f w')
    (λ _ w', mine w' = mine world0) world0.
Proof.
  apply (create_datagram_no_leak (KOk := steady_ok [WReady] [])).
  - intros t tr Ht. cbn in Ht. rewrite lookup_empty in Ht. discriminate Ht.
  - reflexivity.
Defined.
