(* ===== verification/Pipes.v ===== *)
(** * Pipe transports (zuvloop/_connect.py)

    [connect_read_pipe] and [connect_write_pipe]: the descriptor is duplicated for libuv,
    and on the platforms where it works a watch reports the reader of a FIFO going away. *)
From S2P Require Import Prelude World Server Attach.

(** What [os.fstat] says of a descriptor. *)
Record file_status := FileStatus { st_isfifo : bool; st_issock : bool; st_ischr : bool; st_nlink : Z }.
Class Descriptors := { fstat_of : nat → file_status }.

Section pipes.
Context `{K : Kernel} `{D : Descriptors}.

(** [os.dup] and [os.close] on plain descriptors. *)
Definition os_dup (f : fd) : M world fd :=
  sys ;; d <- gets (λ w, fresh (dom (w_fds w))) ;; modify (set_fds (<[d := Mine]>)) ;; ret d.
Definition os_close (f : fd) : M world unit := modify (set_fds (delete f)).

(** ** [_HangupWatch] *)
Definition watch_arm (fd : nat) (cb : oid) : M world unit := add_watch fd false cb.
Definition watch_close (pipe : oid) (fd : nat) : M world unit :=
  remove_watch fd false ;; sock_close pipe.
Definition force_close (t : oid) (e : option exn) : M world unit :=
  log (EvLost t e) ;; transport_abort t.
Definition hangup (fd : nat) (t : oid) : M world unit :=
  remove_watch fd false ;;
  tr <- get_trans t ;;
  force_close t (if Nat.eqb (tr_wbuf tr) 0 then None else Some (mk BrokenPipeError "")).

(** The platforms whose named FIFOs cannot report a hangup; iOS and its relatives count as
    Darwin. *)
Definition named_fifo_without_close_event (s : file_status) : bool :=
  bool_decide (plat ∈ [Darwin; SunOS]) && (0 <? st_nlink s).
Definition wants_watch (k : kind) (s : file_status) : bool :=
  bool_decide (k = KIND_PIPE_WRITE) && st_isfifo s && negb (bool_decide (plat = Aix)) &&
  negb (named_fifo_without_close_event s).

Definition _connect_pipe (pipe : oid) (k : kind) : M world oid :=
  fd <- need_fd pipe ;;
  sys ;; t <- tick ;; let pipe_stat := fstat_of t in
  if negb (st_isfifo pipe_stat || st_issock pipe_stat || st_ischr pipe_stat) then
    raise (mk ValueError "Pipe transport is only for pipes, sockets and character devices")
  else
    sys ;;                                    (* [os.set_blocking(fd, False)] *)
    user_call ;;
    waiter <- create_future ;;
    duplicate <- os_dup fd ;;
    transport <- catch (make_transport duplicate k (Some waiter) (Extra None None 0 0 0 None) None)
                   (λ e, os_close duplicate ;; raise e) ;;
    log (EvPipe transport pipe false) ;;
    catch
      (when_ (wants_watch k pipe_stat)
         (watch <- alloc ;; log (EvPipe transport pipe true) ;; watch_arm fd watch) ;;
       await_future waiter)
      (λ e, transport_close transport ;; raise e) ;;
    ret transport.

Definition connect_read_pipe (pipe : oid) : M world oid := _connect_pipe pipe KIND_PIPE.
Definition connect_write_pipe (pipe : oid) : M world oid := _connect_pipe pipe KIND_PIPE_WRITE.
End pipes.

Section pipe_proofs.
Context `{KOk : KernelOk} `{D : Descriptors}.

(** A descriptor opened and then given up - closed, or adopted - leaves nothing behind. *)
Lemma dup_closed w d : w_fds w !! d = None → keeps_own w (set_fds (delete d) (set_fds (<[d:=Mine]>) w)).
Proof.
  intros Hd. assert (E : delete d (<[d:=Mine]> (w_fds w)) = w_fds w) by (by apply delete_insert_id).
  split; cbn; [done| | | |done].
  - unfold mine. cbn. by rewrite E.
  - done.
  - intros H0 t tr Ht Ho. destruct (H0 t tr Ht Ho). cbn. by rewrite E.
Qed.
Lemma dup_adopted w d t tr :
  w_fds w !! d = None → w_trans w !! t = None → tr_fd tr = d → tr_view tr = None →
  keeps_own w (set_fds (<[d:=Native t]>) (set_trans (<[t:=tr]>) (set_fds (<[d:=Mine]>) w))).
Proof.
  intros Hd Ht Hf Hv. split; cbn; [done| | | |done].
  - apply set_eq. intros x. rewrite !elem_of_mine. cbn. rewrite insert_insert_eq, lookup_insert.
    case_decide; [subst; split; congruence|done].
  - intros t' tr' Ht'. exists tr'. rewrite lookup_insert_ne by congruence. done.
  - intros H0 t' tr' Ht' Ho. cbn in *. rewrite insert_insert_eq.
    apply lookup_insert_Some in Ht' as [[<- <-]|[Hne Ht']].
    + rewrite Hf, lookup_insert_eq. split; [done|]. intros o Ho'. congruence.
    + destruct (H0 t' tr' Ht' Ho) as [H1 H2]. split; [|done]. rewrite lookup_insert_ne; [done|congruence].
Qed.

Lemma watch_part_quiet k s t p f : quiet (when_ (wants_watch k s) (watch <- alloc ;; log (EvPipe t p true) ;; watch_arm f watch)).
Proof. unfold watch_arm. solve_stable. Qed.
End pipe_proofs.

(** A pipe transport owns the duplicate of the caller's descriptor and nothing else: on
    every outcome the descriptors in our care are what they were; a failure either comes
    before anything was adopted or leaves the adopted transport closing. *)
Theorem connect_pipe_no_leak `{KOk : KernelOk} `{D : Descriptors} pipe k w :
  native_ok w →
  wp (_connect_pipe pipe k)
    (λ t w', mine w' = mine w ∧ is_Some (w_trans w' !! t))
    (λ _ w', mine w' = mine w ∧
       (w_log w' = w_log w ∨ ∃ t tr, w_trans w' !! t = Some tr ∧ tr_closing tr = true)) w.
Proof.
  intros H0. unfold _connect_pipe.
  assert (Hpre : ∀ A (m : M world A) B (k : A → M world B) Q w1, stable calm m → calm w w1 →
    (∀ a w2, calm w w2 → wp (k a) Q (λ _ w', mine w' = mine w ∧
       (w_log w' = w_log w ∨ ∃ t tr, w_trans w' !! t = Some tr ∧ tr_closing tr = true)) w2) →
    wp (bind m k) Q (λ _ w', mine w' = mine w ∧
       (w_log w' = w_log w ∨ ∃ t tr, w_trans w' !! t = Some tr ∧ tr_closing tr = true)) w1).
  { intros A m B k' Q w1 Hm C1 Hk. apply wp_bind, (wp_stable calm); [done| |]; intros ? w2 C2.
    - apply Hk. by etrans.
    - assert (C : calm w w2) by by etrans. split; [apply (keeps_mine _ _ (keeps_owned _ _ (calm_keeps _ _ C)))|].
      left. apply (calm_log _ _ C). }
  apply Hpre; [auto with stable|done|intros f w1 C1]. apply Hpre; [auto with stable|done|intros _ w2 C2].
  apply Hpre; [auto with stable|done|intros tk w3 C3]. cbv zeta. destruct (negb _).
  { apply wp_raise. split; [apply (keeps_mine _ _ (keeps_owned _ _ (calm_keeps _ _ C3)))|].
    left. apply (calm_log _ _ C3). }
  apply Hpre; [auto with stable|done|intros _ w4 C4]. apply Hpre; [auto with stable|done|intros _ w5 C5].
  apply Hpre; [auto with stable|done|intros wt w6 C6]. unfold os_dup. rewrite !bind_assoc.
  apply Hpre; [auto with stable|done|intros _ w7 C7]. rewrite bind_assoc. apply wp_bind, wp_gets.
  set (d := fresh _). assert (Hd : w_fds w7 !! d = None) by apply not_elem_of_dom, is_fresh. clearbody d.
  rewrite bind_assoc. apply wp_bind, wp_modify. rewrite bind_ret_l.
  pose proof (keeps_owned _ _ (calm_keeps _ _ C7)) as K7.
  apply wp_bind, wp_catch. unfold make_transport, adopt_fd. rewrite bind_assoc. apply wp_bind.
  apply wp_sys.
  2:{ intros e. unfold os_close. wp_go. split.
      - rewrite <-(keeps_mine _ _ K7). apply (keeps_mine _ _ (dup_closed w7 d Hd)).
      - left. apply (calm_log _ _ C7). }
  rewrite bind_assoc. apply wp_bind, wp_gets. set (t := fresh _).
  assert (Ht : w_trans w7 !! t = None) by (apply (not_elem_of_dom (w_trans w7)), is_fresh). clearbody t.
  rewrite bind_assoc. apply wp_bind, wp_modify. rewrite bind_assoc. apply wp_bind, wp_modify.
  rewrite bind_ret_l. apply wp_bind, wp_modify, wp_ret, wp_bind, wp_modify.
  set (tr := Transport d k true false 0 None _ None). set (w8 := log_event _ _).
  assert (K8 : keeps_own w w8).
  { etrans; [exact K7|]. etrans; [by apply (dup_adopted w7 d t tr)|by apply keeps_own_frame]. }
  assert (Ht8 : w_trans w8 !! t = Some tr) by (cbn; apply lookup_insert_eq). clearbody w8.
  apply wp_bind, wp_catch, (wp_stable keeps).
  - apply stable_bind; [apply _|apply watch_part_quiet|]. intros []. auto with stable.
  - intros [] w9 [K9 _]. apply wp_ret. destruct (keeps_trans _ _ K9 t tr Ht8) as (tr9 & Ht9 & _).
    split; [|by eexists]. rewrite (keeps_mine _ _ K9). apply (keeps_mine _ _ K8).
  - intros e w9 [K9 _]. destruct (keeps_trans _ _ K9 t tr Ht8) as (tr9 & Ht9 & _). apply wp_bind.
    eapply wp_transport_close; [by apply (keeps_native _ _ K9), (keeps_native _ _ K8)|exact Ht9|].
    intros w10 K10 _ _ (tr10 & Ht10 & _ & Hc10) _ _. apply wp_raise. split.
    + rewrite (keeps_mine _ _ K10), (keeps_mine _ _ K9). apply (keeps_mine _ _ K8).
    + right. by exists t, tr10.
Qed.

(** The peer hanging up: the poll is dropped first, then the transport is closed at once,
    reporting a broken pipe exactly when there was something left to write. *)
Theorem hangup_reports f t tr w :
  native_ok w → w_trans w !! t = Some tr →
  wp (hangup f t)
    (λ _ w', w_readers w' !! f = None ∧
       (∃ tr', w_trans w' !! t = Some tr' ∧ tr_closing tr' = true ∧ tr_open tr' = false) ∧
       ∃ e, w_log w' = w_log w ++ [EvLost t e] ∧ (is_Some e ↔ tr_wbuf tr ≠ 0%nat))
    (λ _ _, False) w.
Proof.
  intros H0 Ht. unfold hangup, remove_watch, get_trans, force_close, log.
  do 6 wp_step. rewrite bind_assoc. apply wp_bind, wp_gets. cbn [set_slot w_trans set_readers].
  rewrite Ht, bind_ret_l. apply wp_bind, wp_modify. set (e := if Nat.eqb _ _ then _ else _).
  set (w1 := log_event _ _). eapply (wp_transport_abort t tr).
  - intros t' tr' Ht' Ho. by apply H0.
  - done.
  - intros w' K' L' R' (tr' & Ht' & _ & Hc' & Ho') _. rewrite L', R'. split; [cbn; apply lookup_delete_eq|].
    split; [by exists tr'|]. exists e. split; [done|]. subst e.
    destruct (Nat.eqb_spec (tr_wbuf tr) 0) as [Hz|Hz]; split; try done; try (by intros [? ?]); by eexists.
Qed.

(** ** The theorems above at concrete inputs *)
Definition fifos : Descriptors := {| fstat_of := λ _, FileStatus true false false 0 |}.
Lemma connect_pipe_no_leak_witness :
  wp (_connect_pipe (K := steady [WReady] []) (D := fifos) 0 KIND_PIPE_WRITE)
    (λ t w', mine w' = mine (one_socket AF_INET true) ∧ is_Some (w_trans w' !! t))
    (λ _ w', mine w' = mine (one_socket AF_INET true) ∧
       (w_log w' = w_log (one_socket AF_INET true) ∨
        ∃ t tr, w_trans w' !! t = Some tr ∧ tr_closing tr = true)) (one_socket AF_INET true).
Proof.
  apply (connect_pipe_no_leak (KOk := steady_ok [WReady] [])). apply one_socket_native.
Defined.

Definition pipe_transport : world :=
  set_trans (<[0%nat := Transport 4 KIND_PIPE_WRITE true false 5 None (Extra None None 0 0 0 None) None]>)
    (set_fds (<[4%nat := Native 0]>) world0).
Lemma hangup_reports_witness :
  wp (hangup 3 0)
    (λ _ w', w_readers w' !! 3%nat = None ∧
       (∃ tr', w_trans w' !! 0%nat = Some tr' ∧ tr_closing tr' = true ∧ tr_open tr' = false) ∧
       ∃ e, w_log w' = w_log pipe_transport ++ [EvLost 0 e] ∧ (is_Some e ↔ 5%nat ≠ 0%nat))
    (λ _ _, False) pipe_transport.
Proof.
  apply (hangup_reports 3 0
           (Transport 4 KIND_PIPE_WRITE true false 5 None (Extra None None 0 0 0 None) None)).
  - intros t tr Ht _. cbn in Ht. apply lookup_insert_Some in Ht as [[<- <-]|[_ Ht]].
    + split; [reflexivity|discriminate].
    + cbn in Ht. rewrite lookup_empty in Ht. discriminate Ht.
  - reflexivity.
Defined.
