(* ===== verification/Process.v ===== *)
(** * Spawning children (zuvloop/_process.py)

    [Popen]'s argument checks and the descriptors [spawn_libuv] opens for the child and
    closes again; proved: which calls are accepted, and that a spawn keeps our ends of the
    requested pipes and nothing else. *)
From S2P Require Import Prelude World.

(** ** Argument checks of [Popen.__init__] *)
Fixpoint has_nul (s : string) : bool :=
  match s with
  | EmptyString => false
  | String c s' => bool_decide (c = "000"%char) || has_nul s'
  end.

(** A text argument: [str], or [bytes]. *)
Inductive ptext := PStr (s : string) | PBytes (s : string).

Record popen_args := PopenArgs {
  p_args : list ptext; p_executable : option ptext; p_env : option (list (string * string));
  p_cwd : option string; p_startupinfo : bool; p_creationflags : Z; p_pass_fds : list Z;
  p_unsupported : list string }.

Definition truthy_text (s : option ptext) : option ptext :=
  match s with Some (PStr EmptyString) | Some (PBytes EmptyString) => None | _ => s end.

(** [executable or args[0]]. *)
Definition popen_file (p : popen_args) : res ptext :=
  match truthy_text (p_executable p), p_args p with
  | Some f, _ => Ok f
  | None, a :: _ => Ok a
  | None, [] => Raise (mk IndexError "list index out of range")
  end.

Definition env_items (p : popen_args) : option (list string) :=
  option_map (map (λ kv : string * string, (kv.1 ++ "=" ++ kv.2)%string)) (p_env p).

Definition popen_texts (file : ptext) (p : popen_args) : list ptext :=
  file :: p_args p ++ map PStr (match p_cwd p with Some c => [c] | None => [] end ++ default [] (env_items p)).

(** [if "\0" in value: raise ...], one value after the other; looking for a [str] in [bytes]
    is a [TypeError]. *)
Fixpoint nul_check (l : list ptext) : option exn :=
  match l with
  | [] => None
  | PBytes _ :: _ => Some (mk TypeError "a bytes-like object is required, not 'str'")
  | PStr s :: l' => if has_nul s then Some (mk ValueError "embedded null byte") else nul_check l'
  end.

(** Each descriptor to pass on must be non-negative and open; [fstat] is what [os.fstat]
    raises. *)
Fixpoint check_pass_fds (fstat : Z → option exn) (fds : list Z) : option exn :=
  match fds with
  | [] => None
  | fd :: fds' =>
      if fd <? 0 then Some (mk ValueError "bad value(s) in pass_fds")
      else match fstat fd with Some e => Some e | None => check_pass_fds fstat fds' end
  end.

Definition popen_check (fstat : Z → option exn) (p : popen_args) : res ptext :=
  if p_startupinfo p then
    Raise (mk ValueError "startupinfo is not supported by zuvloop's subprocess transport")
  else if negb (p_creationflags p =? 0) then
    Raise (mk ValueError "creationflags is not supported by zuvloop's subprocess transport")
  else match p_unsupported p with
  | name :: _ => Raise (mk ValueError (name ++ " is not supported by zuvloop's subprocess transport"))
  | [] =>
      match popen_file p with
      | Raise e => Raise e
      | Ok file =>
          match nul_check (popen_texts file p) with
          | Some e => Raise e
          | None => match check_pass_fds fstat (p_pass_fds p) with
                    | Some e => Raise e
                    | None => Ok file
                    end
          end
      end
  end.

(** Which of the two spawns is used: libuv cannot close other descriptors on Linux, nor
    pass any on. *)
Definition uses_stdlib (p : platform) (a : popen_args) : bool :=
  bool_decide (p = Linux) || negb (Nat.eqb (length (p_pass_fds a)) 0).

(** ** The child's descriptors *)
Class ProcEnv := { p_fails : nat → option exn }.

Record pstate := PState {
  pr_tick : nat;
  pr_open : gmap nat bool;              (* open descriptors: is it inheritable? *)
  pr_files : list (nat * nat);          (* [self.stdin] ...: stream index, our descriptor *)
  pr_child : list (option nat);         (* [child_fds]; [None] is -1 *)
  pr_spawned : option (list (option nat)) }.

(** A request for one of the three streams: [None], a number, or a file object. *)
Inductive request := RNone | RInt (z : Z) | RFile (fd : nat).
Definition PIPE : Z := -1.
Definition STDOUT : Z := -2.
Definition DEVNULL : Z := -3.

Definition is_pipe (r : request) : bool :=
  match r with RInt z => negb (z =? DEVNULL) && (z =? PIPE) | _ => false end.

Section spawn.
Context `{E : ProcEnv}.

Definition p_sys : M pstate unit :=
  t <- gets pr_tick ;;
  modify (λ s, PState (S (pr_tick s)) (pr_open s) (pr_files s) (pr_child s) (pr_spawned s)) ;;
  match p_fails t with Some e => raise e | None => ret tt end.
Definition upd_open (f : gmap nat bool → gmap nat bool) : M pstate unit :=
  modify (λ s, PState (pr_tick s) (f (pr_open s)) (pr_files s) (pr_child s) (pr_spawned s)).
Definition upd_files (f : list (nat * nat) → list (nat * nat)) : M pstate unit :=
  modify (λ s, PState (pr_tick s) (pr_open s) (f (pr_files s)) (pr_child s) (pr_spawned s)).
Definition upd_child (f : list (option nat) → list (option nat)) : M pstate unit :=
  modify (λ s, PState (pr_tick s) (pr_open s) (pr_files s) (f (pr_child s)) (pr_spawned s)).

(** A new descriptor; Python opens them non-inheritable. *)
Definition new_fd : M pstate nat :=
  d <- gets (λ s, fresh (dom (pr_open s))) ;; upd_open (<[d := false]>) ;; ret d.
Definition dup (f : Z) : M pstate nat :=
  if f <? 0 then raise (oserror 9 "Bad file descriptor") else p_sys ;; new_fd.
Definition p_close (f : nat) : M pstate unit := upd_open (delete f).

(** [os.pipe()] makes both ends or neither. *)
Definition os_pipe : M pstate (nat * nat) := p_sys ;; r <- new_fd ;; w <- new_fd ;; ret (r, w).

Definition open_stream (index : nat) (req : request) (child_fds : list (option nat))
    : M pstate (option nat * option nat) :=
  match req with
  | RNone =>
      if Nat.eqb index 0 then ret (None, None) else d <- dup (Z.of_nat index) ;; ret (Some d, None)
  | RFile f => d <- dup (Z.of_nat f) ;; ret (Some d, None)
  | RInt z =>
      if z =? DEVNULL then d <- (p_sys ;; new_fd) ;; ret (Some d, None)
      else if z =? PIPE then
        rw <- os_pipe ;;
        let child_fd := if Nat.eqb index 0 then rw.1 else rw.2 in
        let our_fd := if Nat.eqb index 0 then rw.2 else rw.1 in
        p_sys ;; upd_open (<[child_fd := true]>) ;;          (* [os.set_inheritable] *)
        ret (Some child_fd, Some our_fd)
      else if z =? STDOUT then
        match nth_error child_fds 1 with
        | None => raise (mk IndexError "list index out of range")
        | Some f => d <- dup (match f with Some f => Z.of_nat f | None => -1 end) ;; ret (Some d, None)
        end
      else d <- dup z ;; ret (Some d, None)
  end.

(** One turn of the loop: the child's end is recorded before ours is wrapped. *)
Definition open_one (ir : nat * request) : M pstate unit :=
  child_fds <- gets pr_child ;;
  cm <- open_stream ir.1 ir.2 child_fds ;;
  upd_child (λ l, l ++ [cm.1]) ;;
  match cm.2 with
  | Some mine => p_sys ;; upd_files (λ l, l ++ [(ir.1, mine)])
  | None => ret tt
  end.

Definition close_files : M pstate unit :=
  files <- gets pr_files ;; for_each files (λ x, p_close x.2) ;; upd_files (λ _, []).
Definition close_children : M pstate unit :=
  child_fds <- gets pr_child ;;
  for_each child_fds (λ f, match f with Some f => p_close f | None => ret tt end).

Definition spawn_libuv (stdin stdout stderr : request) : M pstate unit :=
  upd_child (λ _, []) ;;
  finally
    (catch
       (for_each [(0%nat, stdin); (1%nat, stdout); (2%nat, stderr)] open_one ;;
        p_sys ;;
        modify (λ s, PState (pr_tick s) (pr_open s) (pr_files s) (pr_child s) (Some (pr_child s))))
       (λ e, close_files ;; raise e))
    close_children.
End spawn.

(** ** What [Popen] accepts *)
Definition plain (t : ptext) : Prop := ∃ s, t = PStr s ∧ has_nul s = false.
Lemma nul_check_None l : nul_check l = None ↔ Forall plain l.
Proof.
  unfold plain. induction l as [|[s|s] l IH]; cbn; [split; [constructor|done]|..].
  - rewrite Forall_cons, <-IH. destruct (has_nul s) eqn:Hs.
    + split; [discriminate|]. intros [(s' & [= <-] & ?) _]. congruence.
    + split; [intros H; split; [by exists s|done]|by intros [_ ?]].
  - rewrite Forall_cons. split; [discriminate|]. by intros [(s' & ? & _) _].
Qed.
Lemma check_pass_fds_None fstat fds :
  check_pass_fds fstat fds = None ↔ Forall (λ fd, 0 ≤ fd ∧ fstat fd = None) fds.
Proof.
  induction fds as [|fd fds IH]; cbn; [split; [constructor|done]|].
  rewrite Forall_cons, <-IH. destruct (Z.ltb_spec fd 0), (fstat fd); naive_solver lia.
Qed.

(** [Popen] goes on to spawn exactly when no unsupported argument is given, there is a
    program, every text it hands to the system is a [str] without a NUL, and every descriptor
    to pass on is open; nothing has been opened by then. *)
Theorem popen_accepts fstat p file :
  popen_check fstat p = Ok file ↔
  p_startupinfo p = false ∧ p_creationflags p = 0 ∧ p_unsupported p = [] ∧
  popen_file p = Ok file ∧ Forall plain (popen_texts file p) ∧
  Forall (λ fd, 0 ≤ fd ∧ fstat fd = None) (p_pass_fds p).
Proof.
  rewrite <-nul_check_None, <-check_pass_fds_None. unfold popen_check.
  destruct (p_startupinfo p); [naive_solver|].
  destruct (Z.eqb_spec (p_creationflags p) 0); cbn [negb]; [|naive_solver].
  destruct (p_unsupported p); [|naive_solver].
  destruct (popen_file p) as [f|err]; [|naive_solver].
  destruct (nul_check (popen_texts f p)) eqn:H1; [split; [discriminate|intros (_ & _ & _ & [= <-] & ? & _); congruence]|].
  destruct (check_pass_fds fstat (p_pass_fds p)); naive_solver.
Qed.

(** ** The descriptors of a spawn *)

(** What the spawn has open: the ends recorded for the child and our ends of the pipes,
    all different from what was open before.  [extra] are descriptors in neither list. *)
Record spawning (D0 : gset nat) (extra : list nat) (s : pstate) : Prop := {
  sp_nodup : NoDup (extra ++ omap id (pr_child s) ++ (pr_files s).*2);
  sp_new : ∀ f, f ∈ extra ++ omap id (pr_child s) ++ (pr_files s).*2 → f ∉ D0;
  sp_open : dom (pr_open s) = D0 ∪ list_to_set (extra ++ omap id (pr_child s) ++ (pr_files s).*2);
  sp_ours : ∀ i f, (i, f) ∈ pr_files s → pr_open s !! f = Some false }.

Section spawn_proofs.
Context `{E : ProcEnv} (D0 : gset nat).

Lemma spawning_tick ex s f :
  spawning D0 ex s → spawning D0 ex (PState (f (pr_tick s)) (pr_open s) (pr_files s) (pr_child s) (pr_spawned s)).
Proof. intros [H1 H2 H3 H4]. by split. Qed.

Lemma wp_p_sys ex s (Q : unit → pstate → Prop) (Ex : exn → pstate → Prop) :
  spawning D0 ex s →
  (∀ s', spawning D0 ex s' → pr_child s' = pr_child s → pr_files s' = pr_files s → pr_open s' = pr_open s → Q tt s') →
  (∀ e s', spawning D0 ex s' → pr_child s' = pr_child s → pr_files s' = pr_files s → Ex e s') → wp p_sys Q Ex s.
Proof. intros H HQ HE. unfold p_sys. wp_go; [apply HE|apply HQ]; try done; by apply (spawning_tick ex s S). Qed.

Lemma wp_new_fd ex s (Q : nat → pstate → Prop) Ex :
  spawning D0 ex s →
  (∀ d s', spawning D0 (d :: ex) s' → pr_child s' = pr_child s → pr_files s' = pr_files s →
     pr_open s' !! d = Some false →
     (∀ f v, pr_open s !! f = Some v → pr_open s' !! f = Some v) → Q d s') → wp new_fd Q Ex s.
Proof.
  intros [H1 H2 H3 H4] HQ. unfold new_fd, upd_open. wp_go. set (d := fresh _).
  assert (Hd : d ∉ dom (pr_open s)) by apply is_fresh. clearbody d.
  apply HQ; [|done|done|apply lookup_insert_eq|].
  2:{ intros f v Hf. cbn. rewrite lookup_insert_ne; [done|]. intros <-. apply Hd, elem_of_dom. by eexists. }
  rewrite H3 in Hd. split; cbn.
  - constructor; [|done]. intros Hin. apply Hd, elem_of_union_r, elem_of_list_to_set, Hin.
  - intros f [->|Hf]%elem_of_cons; [|by apply H2]. set_solver.
  - rewrite dom_insert_L, H3. set_solver.
  - intros i f Hf. rewrite lookup_insert_ne; [by apply (H4 i)|]. intros <-. apply Hd.
    apply elem_of_union_r, elem_of_list_to_set. rewrite !elem_of_app. right. right.
    apply list_elem_of_fmap. by exists (i, d).
Qed.
Lemma spawning_perm ex ex' s : ex ≡ₚ ex' → spawning D0 ex s → spawning D0 ex' s.
Proof.
  intros Hp [H1 H2 H3 H4]. assert (Hq : ex ++ omap id (pr_child s) ++ (pr_files s).*2 ≡ₚ
    ex' ++ omap id (pr_child s) ++ (pr_files s).*2) by (by rewrite Hp).
  split; [by rewrite <-Hq|intros f; by rewrite <-Hq; apply H2| |done].
  rewrite H3. apply set_eq. intros x. rewrite !elem_of_union, !elem_of_list_to_set. by rewrite Hq.
Qed.

Lemma spawning_inherit c ex s :
  spawning D0 (c :: ex) s →
  spawning D0 (c :: ex) (PState (pr_tick s) (<[c := true]> (pr_open s)) (pr_files s) (pr_child s) (pr_spawned s)).
Proof.
  intros [H1 H2 H3 H4]. split; cbn; [done|done| |].
  - rewrite dom_insert_L, H3. set_solver.
  - intros i f Hf. rewrite lookup_insert_ne; [by apply (H4 i)|]. intros <-.
    cbn in H1. apply NoDup_cons in H1 as [H1 _]. apply H1. rewrite !elem_of_app. right. right.
    apply list_elem_of_fmap. by exists (i, c).
Qed.

(** The outcome of opening one stream: at most two new descriptors, recorded nowhere yet. *)
Definition fresh_ends (r : option nat * option nat) : list nat := omap id [r.1; r.2].
Definition same_books (s s' : pstate) : Prop :=
  pr_child s' = pr_child s ∧ pr_files s' = pr_files s.
Definition loose (req : request) (s s' : pstate) : Prop :=
  ∃ ex, (length ex ≤ if is_pipe req then 2 else 0)%nat ∧ spawning D0 ex s' ∧ same_books s s'.
Definition streamed (req : request) (s : pstate) (r : option nat * option nat) (s' : pstate) : Prop :=
  spawning D0 (fresh_ends r) s' ∧ same_books s s' ∧ bool_decide (is_Some r.2) = is_pipe req ∧
  ∀ mine, r.2 = Some mine → pr_open s' !! mine = Some false.

Lemma wp_single req (m : M pstate nat) s :
  is_pipe req = false →
  (∀ (Q : nat → pstate → Prop) (Ex : exn → pstate → Prop),
     (∀ d s', spawning D0 [d] s' → same_books s s' → Q d s') →
     (∀ e s', spawning D0 [] s' → same_books s s' → Ex e s') → wp m Q Ex s) →
  wp (d <- m ;; ret (Some d, None)) (streamed req s) (λ _, loose req s) s.
Proof.
  intros Hr Hm. apply wp_bind, Hm.
  - intros d s' H Hb. apply wp_ret. unfold streamed. by rewrite Hr.
  - intros e s' H Hb. exists []. by split; [cbn; lia|].
Qed.

Lemma wp_open_new s (Q : nat → pstate → Prop) (Ex : exn → pstate → Prop) :
  spawning D0 [] s →
  (∀ d s', spawning D0 [d] s' → same_books s s' → Q d s') →
  (∀ e s', spawning D0 [] s' → same_books s s' → Ex e s') → wp (p_sys ;; new_fd) Q Ex s.
Proof.
  intros H HQ HE. apply wp_bind. unfold p_sys. wp_go; [apply HE; [by apply (spawning_tick [] s S)|done]|].
  eapply wp_new_fd; [by apply (spawning_tick [] s S)|]. intros d s' H' Hc Hf _ _. by apply HQ.
Qed.

Lemma wp_dup f s (Q : nat → pstate → Prop) (Ex : exn → pstate → Prop) :
  spawning D0 [] s →
  (∀ d s', spawning D0 [d] s' → same_books s s' → Q d s') →
  (∀ e s', spawning D0 [] s' → same_books s s' → Ex e s') → wp (dup f) Q Ex s.
Proof.
  intros H HQ HE. unfold dup. destruct (f <? 0); [apply wp_raise; by apply HE|by apply wp_open_new].
Qed.

Lemma wp_open_pipe (idx : nat) s :
  spawning D0 [] s →
  wp (rw <- os_pipe ;;
      let child_fd := if Nat.eqb idx 0 then rw.1 else rw.2 in
      let our_fd := if Nat.eqb idx 0 then rw.2 else rw.1 in
      p_sys ;; upd_open (<[child_fd := true]>) ;; ret (Some child_fd, Some our_fd))
    (streamed (RInt PIPE) s) (λ _, loose (RInt PIPE) s) s.
Proof.
  intros H. unfold os_pipe. apply wp_bind, wp_bind. apply (wp_p_sys []); [done| |].
  2:{ intros e s0 H0 C0 F0. exists []. by split; [cbn; lia|]. }
  intros s0 H0 C0 F0 _. apply wp_bind. eapply wp_new_fd; [exact H0|]. intros r s1 H1 C1 F1 O1 _.
  apply wp_bind. eapply wp_new_fd; [exact H1|]. intros w s2 H2 C2 F2 O2 P2. apply wp_ret. cbv zeta.
  cbn [fst snd]. set (c := if Nat.eqb idx 0 then r else w). set (o := if Nat.eqb idx 0 then w else r).
  assert (Hb : same_books s s2) by (cbn in *; split; congruence).
  assert (Hp : [w; r] ≡ₚ [c; o]).
  { subst c o. destruct (Nat.eqb idx 0); [by constructor|done]. }
  apply (spawning_perm _ _ _ Hp) in H2.
  apply wp_bind. apply (wp_p_sys [c; o]); [exact H2| |].
  2:{ intros e s3 H3 C3 F3. exists [c; o]. split; [done|]. split; [done|].
      destruct Hb. split; congruence. }
  intros s3 H3 C3 F3 O3. apply wp_bind. unfold upd_open. wp_step. apply wp_ret.
  split; [by apply spawning_inherit|]. split; [destruct Hb; split; cbn; congruence|split; [done|]].
  intros m [= <-]. cbn. rewrite lookup_insert_ne, O3.
  - subst o. destruct (Nat.eqb idx 0); [done|by apply P2].
  - intros ->. destruct H3 as [Hnd _ _ _]. cbn in Hnd. apply NoDup_cons in Hnd as [Hnd _]. apply Hnd. left.
Qed.

Lemma wp_open_stream idx req child s :
  spawning D0 [] s → wp (open_stream idx req child) (streamed req s) (λ _, loose req s) s.
Proof.
  intros H. unfold open_stream. destruct req as [|z|f].
  - destruct (Nat.eqb idx 0); [by apply wp_ret|]. apply wp_single; [done|]. intros. by apply wp_dup.
  - destruct (z =? DEVNULL) eqn:Hd.
    { apply wp_single; [by cbn; rewrite Hd|]. intros. by apply wp_open_new. }
    destruct (z =? PIPE) eqn:Hp; [apply Z.eqb_eq in Hp as ->; by apply wp_open_pipe|].
    assert (Hr : is_pipe (RInt z) = false) by (cbn; by rewrite Hd, Hp).
    destruct (z =? STDOUT); [|apply wp_single; [done|]; intros; by apply wp_dup].
    destruct (nth_error child 1) as [f|]; [|apply wp_raise; exists []; by split; [cbn; lia|]].
    apply wp_single; [done|]. intros. by apply wp_dup.
  - apply wp_single; [done|]. intros. by apply wp_dup.
Qed.

Lemma spawning_record r s :
  spawning D0 (fresh_ends r) s →
  spawning D0 (omap id [r.2]) (PState (pr_tick s) (pr_open s) (pr_files s) (pr_child s ++ [r.1]) (pr_spawned s)).
Proof.
  destruct r as [c o]. intros [H1 H2 H3 H4].
  assert (Hp : omap id [o] ++ omap id (pr_child s ++ [c]) ++ (pr_files s).*2 ≡ₚ
    fresh_ends (c, o) ++ omap id (pr_child s) ++ (pr_files s).*2).
  { unfold fresh_ends. cbn [fst snd]. rewrite omap_app. change [c; o] with ([c] ++ [o]). rewrite omap_app. solve_Permutation. }
  split; cbn [pr_open pr_files pr_child]; [by rewrite Hp|intros f; by rewrite Hp; apply H2| |done].
  rewrite H3. apply set_eq. intros x. rewrite !elem_of_union, !elem_of_list_to_set. by rewrite Hp.
Qed.

(** Taking the wrapped end of a pipe into our files. *)
Lemma spawning_wrap idx mine s :
  spawning D0 [mine] s → pr_open s !! mine = Some false →
  spawning D0 [] (PState (pr_tick s) (pr_open s) (pr_files s ++ [(idx, mine)]) (pr_child s) (pr_spawned s)).
Proof.
  intros [H1 H2 H3 H4] Ho.
  assert (Hp : omap id (pr_child s) ++ (pr_files s ++ [(idx, mine)]).*2 ≡ₚ
    [mine] ++ omap id (pr_child s) ++ (pr_files s).*2).
  { rewrite fmap_app. cbn. solve_Permutation. }
  split; cbn [pr_open pr_files pr_child app]; [by rewrite Hp|intros f; by rewrite Hp; apply H2| |].
  - rewrite H3. apply set_eq. intros x. rewrite !elem_of_union, !elem_of_list_to_set. by rewrite Hp.
  - intros i f [Hin|[= -> ->]%list_elem_of_singleton]%elem_of_app; [by apply (H4 i)|done].
Qed.

(** How far the spawn has come: the streams opened and which of them are pipes to us. *)
Definition opened (rs : list (nat * request)) (s : pstate) : Prop :=
  spawning D0 [] s ∧ length (pr_child s) = length rs ∧
  (pr_files s).*1 = (filter (λ ir : nat * request, is_pipe ir.2) rs).*1.

(** What a failing stream can leave: the ends of the pipe it was making. *)
Definition stranded (rs : list request) (s : pstate) : Prop :=
  ∃ ex, (length ex ≤ if existsb is_pipe rs then 2 else 0)%nat ∧ spawning D0 ex s.

Lemma wp_open_one rs ir s :
  opened rs s → wp (open_one ir) (λ _, opened (rs ++ [ir])) (λ _, stranded [ir.2]) s.
Proof.
  intros (H & Hl & Hf). unfold open_one. wp_step. wp_step. wp_step.
  eapply wp_mono; [by apply wp_open_stream| |].
  2:{ intros e s' (ex & He & H' & _). exists ex. split; [|done]. cbn. by rewrite orb_false_r. }
  intros [c o] s1 (H1 & [B1 B2] & Hp & Ho). cbn in Hp. unfold upd_child. wp_step. wp_step.
  assert (H2 := spawning_record _ _ H1). cbn [fst snd] in *.
  destruct o as [mine|].
  - assert (Hp' : is_pipe ir.2 = true) by (rewrite <-Hp; by apply bool_decide_eq_true_2).
    wp_step. apply (wp_p_sys [mine]); [exact H2| |].
    + intros s3 H3 C3 F3 O3. unfold upd_files. wp_step. split; [|split]; cbn.
      * apply spawning_wrap; [done|]. rewrite O3. by apply Ho.
      * rewrite C3. cbn. rewrite B1, !length_app, Hl. done.
      * rewrite F3. cbn. rewrite B2, !filter_app, !fmap_app, Hf. cbn. by rewrite Hp'.
    + intros e s3 H3 _ _. exists [mine]. split; [|done]. cbn. rewrite Hp'. cbn. lia.
  - wp_step. split; [done|split]; cbn.
    + by rewrite B1, !length_app, Hl.
    + rewrite B2, filter_app, fmap_app, Hf. cbn. by rewrite <-Hp, app_nil_r.
Qed.

Lemma wp_open_all rs done_ s :
  opened done_ s →
  wp (for_each rs open_one) (λ _, opened (done_ ++ rs)) (λ _, stranded rs.*2) s.
Proof.
  revert done_ s. induction rs as [|ir rs IH]; intros done_ s H.
  - rewrite app_nil_r. by apply wp_ret.
  - apply wp_bind. eapply wp_mono; [by apply wp_open_one| |].
    + intros [] s1 H1. eapply wp_mono; [by apply IH| |].
      * intros [] s2. by rewrite <-app_assoc.
      * intros _ s2 (ex & He & H2). exists ex. split; [|done]. cbn. destruct (is_pipe ir.2); [|done].
        destruct (existsb is_pipe rs.*2); cbn; lia.
    + intros _ s1 (ex & He & H1). exists ex. split; [|done]. cbn in *.
      destruct (is_pipe ir.2); cbn in *; [done|]. etrans; [exact He|]. lia.
Qed.
End spawn_proofs.

(** Closing a list of descriptors. *)
Definition shut (l : list nat) (s : pstate) : pstate :=
  PState (pr_tick s) (filter (λ kv, kv.1 ∉ l) (pr_open s)) (pr_files s) (pr_child s) (pr_spawned s).

Lemma close_each {A} (body : A → M pstate unit) (fds : A → list nat) l s :
  (∀ x s, body x s = (Ok tt, shut (fds x) s)) →
  for_each l body s = (Ok tt, shut (concat (map fds l)) s).
Proof.
  intros Hb. revert s. induction l as [|x l IH]; intros s; cbn.
  - unfold ret, shut. rewrite map_filter_id; [by destruct s|]. intros k v _. apply not_elem_of_nil.
  - unfold bind. rewrite Hb, IH. f_equal. unfold shut. cbn. f_equal.
    rewrite map_filter_filter. apply map_filter_ext. intros k v _. cbn. rewrite elem_of_app. tauto.
Qed.
Lemma p_close_shut f s : p_close f s = (Ok tt, shut [f] s).
Proof.
  unfold p_close, upd_open, modify, shut. f_equal. f_equal. apply map_eq. intros k.
  apply option_eq. intros v. rewrite lookup_delete_Some, map_lookup_filter_Some. cbn.
  rewrite list_elem_of_singleton. naive_solver.
Qed.
Lemma close_children_eq s : close_children s = (Ok tt, shut (omap id (pr_child s)) s).
Proof.
  unfold close_children, bind, gets.
  rewrite (close_each _ (λ f, match f with Some f => [f] | None => [] end)).
  - do 3 f_equal. induction (pr_child s) as [|[f|] l IH]; cbn; by rewrite ?IH.
  - intros [f|] s'; [by rewrite p_close_shut|]. unfold ret, shut.
    rewrite map_filter_id; [by destruct s'|]. intros k v _. apply not_elem_of_nil.
Qed.
Lemma close_files_eq s :
  close_files s = (Ok tt, PState (pr_tick s) (filter (λ kv, kv.1 ∉ (pr_files s).*2) (pr_open s)) []
                                 (pr_child s) (pr_spawned s)).
Proof.
  unfold close_files, bind, gets.
  rewrite (close_each _ (λ x : nat * nat, [x.2])); [|intros x s'; by rewrite p_close_shut].
  unfold upd_files, modify, shut. cbn. do 2 f_equal. f_equal.
  induction (pr_files s) as [|x l IH]; cbn; [done|]. apply map_filter_ext. intros k v _. cbn.
  assert (concat (map (λ x, [x.2]) l) = l.*2) as -> by (clear; induction l; cbn; by f_equal). done.
Qed.
Lemma dom_shut l (m : gmap nat bool) D : dom m = D → dom (filter (λ kv, kv.1 ∉ l) m) = D ∖ list_to_set l.
Proof.
  intros <-. apply set_eq. intros k. rewrite elem_of_difference, elem_of_list_to_set, !elem_of_dom.
  unfold is_Some. setoid_rewrite map_lookup_filter_Some. naive_solver.
Qed.

(** Releasing what a spawn holds for the child, and on failure its own ends too. *)
Lemma spawning_close_children D0 s :
  spawning D0 [] s →
  dom (filter (λ kv : nat * bool, kv.1 ∉ omap id (pr_child s)) (pr_open s)) = D0 ∪ list_to_set (pr_files s).*2.
Proof.
  intros [H1 H2 H3 _]. rewrite (dom_shut _ _ _ H3). cbn [app] in H1. apply NoDup_app in H1 as (_ & H1 & _).
  apply set_eq. intros x. specialize (H2 x). specialize (H1 x).
  rewrite elem_of_difference, !elem_of_union, !elem_of_list_to_set. cbn [app] in *.
  rewrite elem_of_app in H2 |- *. tauto.
Qed.
Lemma spawning_close_all D0 ex s :
  spawning D0 ex s →
  dom (filter (λ kv : nat * bool, kv.1 ∉ omap id (pr_child s))
        (filter (λ kv : nat * bool, kv.1 ∉ (pr_files s).*2) (pr_open s))) = D0 ∪ list_to_set ex.
Proof.
  intros [H1 H2 H3 _]. rewrite (dom_shut _ _ _ (dom_shut _ _ _ H3)). apply NoDup_app in H1 as (_ & H1 & _).
  apply set_eq. intros x. specialize (H2 x). specialize (H1 x).
  rewrite !elem_of_difference, !elem_of_union, !elem_of_list_to_set.
  rewrite !elem_of_app in H1. repeat rewrite elem_of_app in H2. repeat rewrite elem_of_app. tauto.
Qed.

(** The [except] and [finally] of a failed spawn. *)
Lemma wp_spawn_failed `{E : ProcEnv} D0 rs err s :
  stranded D0 rs s →
  wp (close_files ;; raise (A:=unit) err) (λ _ _, False)
    (λ _, wp close_children (λ _ s', ∃ ex, (length ex ≤ if existsb is_pipe rs then 2 else 0)%nat ∧
       dom (pr_open s') = D0 ∪ list_to_set ex ∧ pr_files s' = []) (λ _ _, False)) s.
Proof.
  intros (ex & He & H). apply wp_bind. unfold wp at 1. rewrite close_files_eq. apply wp_raise.
  unfold wp. rewrite close_children_eq. cbn. exists ex. split; [done|]. split; [|done].
  by apply spawning_close_all.
Qed.

(** [spawn_libuv] leaves open, besides what was open before, exactly our end of each
    requested pipe, none of them inheritable, with the three descriptors it opened for the
    child handed over and closed here; when it fails, at most the two ends of one pipe it was
    still making are left, and none when no pipe was asked for. *)
Theorem spawn_no_leak `{E : ProcEnv} s r s' i o e :
  pr_files s = [] →
  spawn_libuv i o e s = (r, s') →
  match r with
  | Ok _ =>
      dom (pr_open s') = dom (pr_open s) ∪ list_to_set (pr_files s').*2 ∧
      (∃ child, pr_spawned s' = Some child ∧ length child = 3%nat) ∧
      (pr_files s').*1 = (filter (λ ir : nat * request, is_pipe ir.2)
        [(0%nat, i); (1%nat, o); (2%nat, e)]).*1 ∧
      (∀ k f, (k, f) ∈ pr_files s' → (f ∉ dom (pr_open s)) ∧ pr_open s' !! f = Some false)
  | Raise _ => ∃ ex, (length ex ≤ (if existsb is_pipe [i; o; e] then 2 else 0))%nat ∧
      dom (pr_open s') = dom (pr_open s) ∪ list_to_set ex ∧ pr_files s' = []
  end.
Proof.
  intros Hf. revert r s'. apply wp_run. set (D0 := dom (pr_open s)).
  unfold spawn_libuv, upd_child. apply wp_bind, wp_modify, wp_finally, wp_catch, wp_bind.
  eapply wp_mono; [apply (wp_open_all D0 _ [])| |].
  - split; [|split]; cbn; [|done|by rewrite Hf]. split; cbn; rewrite ?Hf; cbn.
    + constructor.
    + intros f Hin. by apply elem_of_nil in Hin.
    + subst D0. set_solver.
    + intros k f Hin. by apply elem_of_nil in Hin.
  - intros [] s1 (H1 & Hl & Hk). apply wp_bind. apply (wp_p_sys D0 []); [done| |].
    + intros s2 H2 C2 F2 _. apply wp_modify. unfold wp. rewrite close_children_eq. cbn.
      split; [by apply (spawning_close_children D0)|]. rewrite F2, C2.
      split; [by exists (pr_child s1)|]. split; [done|]. intros k f Hin. rewrite <-F2 in Hin.
      destruct H2 as [N2 D2 _ O2].
      assert (Hin' : f ∈ (pr_files s2).*2) by (apply list_elem_of_fmap; by exists (k, f)).
      split; [apply D2; cbn; apply elem_of_app; by right|].
      apply map_lookup_filter_Some. split; [by apply (O2 k)|]. cbn. intros Hc. cbn in N2.
      apply NoDup_app in N2 as (_ & N2 & _). rewrite <-C2 in Hc. by apply (N2 f).
    + intros err s2 H2 _ _. eapply wp_mono; [apply (wp_spawn_failed D0 [i; o; e])| |]; [exists []; split; [cbn; lia|done]|done|].
      intros ? ? Hc. eapply wp_mono; [exact Hc|done|done].
  - intros err s1 H1. eapply wp_mono; [by apply (wp_spawn_failed D0 [i; o; e])|done|].
    intros ? ? Hc. eapply wp_mono; [exact Hc|done|done].
Qed.

#[local] Instance no_failures : ProcEnv := {| p_fails := λ _, None |}.
Definition three_open : pstate := PState 0 {[0%nat := true; 1%nat := true; 2%nat := true]} [] [] None.
Lemma spawn_no_leak_witness :
  ∃ s', spawn_libuv (RInt PIPE) (RInt PIPE) (RInt STDOUT) three_open = (Ok tt, s') ∧
    (pr_files s').*1 = [0%nat; 1%nat] ∧
    dom (pr_open s') = dom (pr_open three_open) ∪ list_to_set (pr_files s').*2.
Proof.
  set (s' := (spawn_libuv (RInt PIPE) (RInt PIPE) (RInt STDOUT) three_open).2).
  assert (Hs : spawn_libuv (RInt PIPE) (RInt PIPE) (RInt STDOUT) three_open = (Ok tt, s'))
    by (vm_compute; reflexivity).
  exists s'. split; [exact Hs|].
  destruct (spawn_no_leak three_open (Ok tt) s' (RInt PIPE) (RInt PIPE) (RInt STDOUT) eq_refl Hs)
    as (H1 & _ & H3 & _).
  split; [exact H3|exact H1].
Defined.
