(* ===== verification/Reaper.v ===== *)
(** * The process reaper (zuvloop/_process.py, class ProcessReaper)

    The process-wide thread that polls every child spawned through [subprocess] and tells
    the child's loop of its exit, interleaved with registrations from other threads, exits
    of children and the system's reuse of process numbers; proved: every registered child
    is told exactly once, with its own exit status. *)
From S2P Require Import Prelude.

Abbreviation pid := nat (only parsing).
(** A registered child: its process object, the loop to tell and the wrapper to tell. *)
Abbreviation proc := nat (only parsing).

(** Where the thread is in [run]: at the top of its loop; polling the copy it took of the
    table; about to take the lock and drop the child it has just reaped; about to tell the
    child's loop; in the timed wait. *)
Inductive pc :=
  | Top
  | Polling (rest : list (nat * nat)) (completed : bool)
  | Forgetting (i : pid) (p : proc) (rc : Z) (rest : list (nat * nat))
  | Reporting (p : proc) (rc : Z) (rest : list (nat * nat))
  | Pausing.

(** The table, the thread, and the calls of [call_soon_threadsafe] it has made. *)
Record reaper := Reaper { processes : gmap nat nat; at_ : pc; told : list (nat * Z) }.
Definition reaper0 : reaper := Reaper ∅ Top [].

Definition register (i : pid) (p : proc) (r : reaper) : reaper :=
  Reaper (<[i := p]> (processes r)) (at_ r) (told r).

(** One step of the thread; [poll] is what [process.poll()] answers. *)
Definition run_step (poll : proc → option Z) (r : reaper) : reaper :=
  match at_ r with
  | Top =>
      if decide (processes r = ∅) then r
      else Reaper (processes r) (Polling (map_to_list (processes r)) false) (told r)
  | Polling [] completed => Reaper (processes r) (if completed then Top else Pausing) (told r)
  | Polling ((i, p) :: rest) completed =>
      Reaper (processes r)
        match poll p with Some rc => Forgetting i p rc rest | None => Polling rest completed end (told r)
  | Forgetting i p rc rest =>
      Reaper (if decide (processes r !! i = Some p) then delete i (processes r) else processes r)
        (Reporting p rc rest) (told r)
  | Reporting p rc rest => Reaper (processes r) (Polling rest true) (told r ++ [(p, rc)])
  | Pausing => Reaper (processes r) Top (told r)
  end.

(** ** The thread among the others

    [reg]: the children registered so far and their numbers; [exits]: those that have
    exited; [alive]: the numbers the system holds, a child's until it is waited for. *)
Record sys := Sys {
  rp : reaper; reg : gmap nat nat; exits : gmap nat Z; alive : gmap nat nat }.
Definition sys0 : sys := Sys reaper0 ∅ ∅ ∅.

(** [poll] waits for an exited child, which frees its number. *)
Definition reaps (s : sys) : gmap nat nat :=
  match at_ (rp s) with
  | Polling ((i, p) :: _) _ =>
      if decide (is_Some (exits s !! p) ∧ alive s !! i = Some p) then delete i (alive s) else alive s
  | _ => alive s
  end.
Definition thread (s : sys) : sys :=
  Sys (run_step (λ p, exits s !! p) (rp s)) (reg s) (exits s) (reaps s).

(** [elsewhere] allows a child to be waited for by a thread other than the reaper, as the
    standard library does when it sends it a signal. *)
Inductive step (elsewhere : bool) : sys → sys → Prop :=
  | step_thread s : step elsewhere s (thread s)
  | step_register s i p :
      alive s !! i = None → reg s !! p = None →
      step elsewhere s (Sys (register i p (rp s)) (<[p := i]> (reg s)) (exits s) (<[i := p]> (alive s)))
  | step_exit s p rc :
      exits s !! p = None → is_Some (reg s !! p) →
      step elsewhere s (Sys (rp s) (reg s) (<[p := rc]> (exits s)) (alive s))
  | step_elsewhere s i p :
      elsewhere = true → alive s !! i = Some p → is_Some (exits s !! p) →
      step elsewhere s (Sys (rp s) (reg s) (exits s) (delete i (alive s))).
Definition reachable (elsewhere : bool) : sys → Prop := rtc (step elsewhere) sys0.

(** The child the thread has reaped and not told yet. *)
Definition in_hand (r : reaper) : option (nat * Z) :=
  match at_ r with Forgetting _ p rc _ | Reporting p rc _ => Some (p, rc) | _ => None end.
Definition rest (r : reaper) : list (nat * nat) :=
  match at_ r with Polling l _ | Forgetting _ _ _ l | Reporting _ _ l => l | _ => [] end.
(** Still in the table and not in hand. *)
Definition pending (r : reaper) (i : pid) (p : proc) : Prop :=
  processes r !! i = Some p ∧ fst <$> in_hand r ≠ Some p.

Record inv (s : sys) : Prop := {
  i_pending : ∀ i p, pending (rp s) i p →
    reg s !! p = Some i ∧ alive s !! i = Some p ∧ p ∉ (told (rp s)).*1;
  i_hand : ∀ p rc, in_hand (rp s) = Some (p, rc) →
    is_Some (reg s !! p) ∧ exits s !! p = Some rc ∧ p ∉ (told (rp s)).*1;
  i_forget : ∀ i p rc l, at_ (rp s) = Forgetting i p rc l → reg s !! p = Some i;
  i_key : ∀ i p, processes (rp s) !! i = Some p → reg s !! p = Some i;
  i_report : ∀ p rc l i, at_ (rp s) = Reporting p rc l → processes (rp s) !! i ≠ Some p;
  i_round : ∀ i p, (i, p) ∈ rest (rp s) → pending (rp s) i p;
  i_round_nodup : NoDup (rest (rp s));
  i_all : ∀ i p, reg s !! p = Some i →
    pending (rp s) i p ∨ fst <$> in_hand (rp s) = Some p ∨ p ∈ (told (rp s)).*1;
  i_told : NoDup (told (rp s)).*1;
  i_codes : ∀ p rc, (p, rc) ∈ told (rp s) → is_Some (reg s !! p) ∧ exits s !! p = Some rc }.

Lemma inv0 : inv sys0.
Proof.
  split; try done; try apply NoDup_nil_2.
  - by intros i p [H _].
  - by intros i p H%elem_of_nil.
  - by intros p rc H%elem_of_nil.
Qed.

Lemma inv_register s i p :
  alive s !! i = None → reg s !! p = None → inv s →
  inv (Sys (register i p (rp s)) (<[p := i]> (reg s)) (exits s) (<[i := p]> (alive s))).
Proof.
  intros Ha Hr H.
  assert (Hnt : p ∉ (told (rp s)).*1).
  { intros [[p' rc] [E Hin]]%list_elem_of_fmap. cbn in E. subst p'.
    apply (i_codes _ H) in Hin as [[? Hin] _]. congruence. }
  assert (Hnh : ∀ rc, in_hand (rp s) ≠ Some (p, rc)).
  { intros rc Hh. apply (i_hand _ H) in Hh as [[? Hin] _]. congruence. }
  assert (Hold : ∀ j q, pending (rp s) j q → pending (register i p (rp s)) j q ∧ i ≠ j ∧ p ≠ q).
  { intros j q Hp. pose proof (i_pending _ H _ _ Hp) as (H1 & H2 & _).
    assert (i ≠ j) by congruence. split; [|split; [done|congruence]].
    destruct Hp as [Hp1 Hp2]. split; [cbn; by rewrite lookup_insert_ne|done]. }
  assert (Hreg : ∀ q j, reg s !! q = Some j → (<[p := i]> (reg s)) !! q = Some j).
  { intros q j Hq. rewrite lookup_insert_ne; [done|congruence]. }
  split; cbn [rp reg exits alive].
  - intros j q [Hp1 Hp2]. cbn in Hp1. apply lookup_insert_Some in Hp1 as [[<- <-]|[Hne Hp1]].
    { by rewrite !lookup_insert_eq. }
    assert (Hp : pending (rp s) j q) by done.
    destruct (i_pending _ H _ _ Hp) as (H1 & H2 & H3).
    split; [by apply Hreg|]. by rewrite lookup_insert_ne.
  - intros q rc Hh. destruct (i_hand _ H q rc Hh) as ([j H1] & H2 & H3).
    split; [exists j; by apply Hreg|done].
  - intros j q rc l Hf. apply Hreg. by apply (i_forget _ H _ _ _ _ Hf).
  - intros j q Hk. cbn in Hk. apply lookup_insert_Some in Hk as [[<- <-]|[Hne Hk]]; [by rewrite lookup_insert_eq|].
    apply Hreg. by apply (i_key _ H).
  - intros q rc l j Hf Hk. cbn in Hk. apply lookup_insert_Some in Hk as [[<- <-]|[Hne Hk]].
    + apply (Hnh rc). unfold in_hand. cbn in Hf. by rewrite Hf.
    + by apply (i_report _ H q rc l j).
  - intros j q Hin. by apply Hold, (i_round _ H).
  - apply (i_round_nodup _ H).
  - intros j q Hk. apply lookup_insert_Some in Hk as [[<- <-]|[Hne Hk]].
    + left. split; [apply lookup_insert_eq|]. intros Hh. change (fst <$> in_hand (rp s) = Some p) in Hh.
      destruct (in_hand (rp s)) as [[? rc]|] eqn:E; [|done]. cbn in Hh. injection Hh as ->. by apply (Hnh rc).
    + destruct (i_all _ H _ _ Hk) as [Hp|[Hh|Ht]]; [left; by apply Hold|by right; left|by right; right].
  - apply (i_told _ H).
  - intros q rc Hin. destruct (i_codes _ H _ _ Hin) as [[j H1] H2]. split; [exists j; by apply Hreg|done].
Qed.

Lemma inv_exit s p rc :
  exits s !! p = None → inv s → inv (Sys (rp s) (reg s) (<[p := rc]> (exits s)) (alive s)).
Proof.
  intros He H.
  assert (Hx : ∀ q rc', exits s !! q = Some rc' → <[p := rc]> (exits s) !! q = Some rc').
  { intros q rc' Hq. rewrite lookup_insert_ne; [done|congruence]. }
  split; cbn [rp reg exits alive]; try apply H.
  - intros q rc' Hh. destruct (i_hand _ H q rc' Hh) as (H1 & H2 & H3). eauto.
  - intros q rc' Hh. destruct (i_codes _ H q rc' Hh) as (H1 & H2). eauto.
Qed.

(** Moving the thread while the table, the report list and the child in hand stay. *)
Lemma inv_move s a al :
  in_hand (Reaper (processes (rp s)) a (told (rp s))) = None →
  in_hand (rp s) = None →
  NoDup (rest (Reaper (processes (rp s)) a (told (rp s)))) →
  (∀ i p, (i, p) ∈ rest (Reaper (processes (rp s)) a (told (rp s))) → processes (rp s) !! i = Some p) →
  al = alive s →
  inv s → inv (Sys (Reaper (processes (rp s)) a (told (rp s))) (reg s) (exits s) al).
Proof.
  intros Hh1 Hh Hnd Hr -> H. split; cbn [rp reg exits alive]; try apply H; try done.
  - intros i p [Hp _]. cbn in Hp. apply (i_pending _ H). by split; [|rewrite Hh].
  - intros p rc Hx. by rewrite Hh1 in Hx.
  - intros i p rc l Ha. unfold in_hand in Hh1. cbn in *. by rewrite Ha in Hh1.
  - intros p rc l i Ha. unfold in_hand in Hh1. cbn in *. by rewrite Ha in Hh1.
  - intros i p Hin. split; [by apply Hr|]. by rewrite Hh1.
  - intros i p Hreg. destruct (i_all _ H i p Hreg) as [[Hp _]|[Hx|Ht]].
    + left. split; [done|]. by rewrite Hh1.
    + by rewrite Hh in Hx.
    + by right; right.
Qed.

(** The poll that finds the next child of the round gone. *)
Lemma inv_reap s i p rc l c :
  at_ (rp s) = Polling ((i, p) :: l) c → exits s !! p = Some rc → inv s →
  inv (Sys (Reaper (processes (rp s)) (Forgetting i p rc l) (told (rp s))) (reg s) (exits s) (delete i (alive s))).
Proof.
  intros Ha He H.
  assert (Hr : rest (rp s) = (i, p) :: l) by (unfold rest; by rewrite Ha).
  assert (Hh : in_hand (rp s) = None) by (unfold in_hand; by rewrite Ha).
  assert (Hip : pending (rp s) i p) by (apply (i_round _ H); rewrite Hr; left).
  assert (Hnd := i_round_nodup _ H). rewrite Hr in Hnd. apply NoDup_cons in Hnd as [Hni Hnd].
  destruct (i_pending _ H _ _ Hip) as (P1 & P2 & P3).
  split; cbn [rp reg exits alive]; try apply H; try done.
  - intros j q [Hp Hne]. cbn in Hp, Hne.
    assert (Hjq : pending (rp s) j q) by (split; [done|by rewrite Hh]).
    destruct (i_pending _ H _ _ Hjq) as (H1 & H2 & H3). split; [done|]. split; [|done].
    rewrite lookup_delete_ne; [done|]. intros <-. apply Hne. f_equal. destruct Hip. congruence.
  - intros q rc' [= <- <-]. split; [by exists i|done].
  - by intros j q rc' l' [= <- <- <- <-].
  - intros j q Hin. cbn in Hin. destruct (i_round _ H j q) as [Hp _]; [rewrite Hr; by right|].
    split; [done|]. cbn. intros [= <-]. apply Hni.
    assert (i = j) as -> by (apply (i_key _ H) in Hp; congruence). done.
  - intros j q Hreg. destruct (i_all _ H j q Hreg) as [[Hp _]|[Hx|Ht]].
    + destruct (decide (q = p)) as [->|Hne]; [right; by left|]. left. split; [done|]. cbn. congruence.
    + by rewrite Hh in Hx.
    + by right; right.
Qed.

Lemma inv_forget s i p rc l :
  at_ (rp s) = Forgetting i p rc l → inv s →
  inv (Sys (Reaper (if decide (processes (rp s) !! i = Some p) then delete i (processes (rp s)) else processes (rp s))
              (Reporting p rc l) (told (rp s))) (reg s) (exits s) (alive s)).
Proof.
  intros Ha H. set (ps := if decide _ then _ else _).
  assert (Hr : rest (rp s) = l) by (unfold rest; by rewrite Ha).
  assert (Hh : in_hand (rp s) = Some (p, rc)) by (unfold in_hand; by rewrite Ha).
  assert (Hps : ∀ j q, ps !! j = Some q ↔ processes (rp s) !! j = Some q ∧ q ≠ p).
  { intros j q. subst ps. assert (Hk := i_forget _ H _ _ _ _ Ha). case_decide as Hd.
    - rewrite lookup_delete_Some. split; intros [H1 H2]; (split; [try done|]).
      + intros ->. apply (i_key _ H) in H2. congruence.
      + intros <-. congruence.
      + done.
    - split; [|by intros []]. intros Hq. split; [done|]. intros ->.
      apply Hd. pose proof (i_key _ H _ _ Hq). congruence. }
  split; cbn [rp reg exits alive]; try apply H; try done.
  - intros j q [Hp Hne]. apply Hps in Hp as [Hp Hn]. apply (i_pending _ H). split; [done|].
    rewrite Hh. cbn. congruence.
  - intros q rc' [= <- <-]. by apply (i_hand _ H).
  - intros j q Hp. apply Hps in Hp as [Hp Hn]. by apply (i_key _ H).
  - intros q rc' l' j [= <- <- <-]. rewrite Hps. naive_solver.
  - intros j q Hin. cbn in Hin. destruct (i_round _ H j q) as [Hp Hn]; [by rewrite Hr|].
    rewrite Hh in Hn. cbn in Hn. split; [|done]. apply Hps. split; [done|congruence].
  - unfold rest. cbn. rewrite <-Hr. apply H.
  - intros j q Hreg. destruct (i_all _ H j q Hreg) as [[Hp Hn]|[Hx|Ht]].
    + left. split; [|by rewrite Hh in Hn]. apply Hps. rewrite Hh in Hn. cbn in Hn. split; [done|congruence].
    + right. left. by rewrite Hh in Hx.
    + by right; right.
Qed.

Lemma inv_report s p rc l :
  at_ (rp s) = Reporting p rc l → inv s →
  inv (Sys (Reaper (processes (rp s)) (Polling l true) (told (rp s) ++ [(p, rc)])) (reg s) (exits s) (alive s)).
Proof.
  intros Ha H.
  assert (Hr : rest (rp s) = l) by (unfold rest; by rewrite Ha).
  assert (Hh : in_hand (rp s) = Some (p, rc)) by (unfold in_hand; by rewrite Ha).
  destruct (i_hand _ H _ _ Hh) as (P1 & P2 & P3).
  assert (Hpend : ∀ j q, processes (rp s) !! j = Some q → pending (rp s) j q).
  { intros j q Hq. split; [done|]. rewrite Hh. cbn. intros [= <-]. by apply (i_report _ H p rc l j Ha). }
  split; cbn [rp reg exits alive]; try apply H; try done.
  - intros j q [Hp _]. apply Hpend in Hp. destruct (i_pending _ H _ _ Hp) as (H1 & H2 & H3).
    split; [done|split; [done|]]. cbn. rewrite fmap_app, elem_of_app. cbn. rewrite list_elem_of_singleton.
    intros [Hq| ->]; [done|]. destruct Hp as [_ Hp]. by rewrite Hh in Hp.
  - intros j q Hin. cbn in Hin. destruct (i_round _ H j q) as [Hp _]; [by rewrite Hr|done].
  - unfold rest. cbn. rewrite <-Hr. apply H.
  - intros j q Hreg. cbn. rewrite fmap_app, elem_of_app. cbn.
    destruct (i_all _ H j q Hreg) as [[Hp Hn]|[Hx|Ht]]; [by left| |by right; right; left].
    rewrite Hh in Hx. injection Hx as <-. right. right. right. left.
  - cbn. rewrite fmap_app. apply NoDup_app. split; [apply H|]. split; [|apply NoDup_singleton].
    cbn. intros q Hq ->%list_elem_of_singleton. done.
  - intros q rc' [Hin|[= -> ->]%list_elem_of_singleton]%elem_of_app; [by apply (i_codes _ H)|done].
Qed.

Lemma inv_thread s : inv s → inv (thread s).
Proof.
  intros H. unfold thread, run_step, reaps. pose proof (i_round_nodup _ H) as Hnd.
  pose proof (i_round _ H) as Hrd. unfold rest in Hnd, Hrd.
  destruct (at_ (rp s)) as [|[|[i p] l] c|i p rc l|p rc l|] eqn:Ha.
  - destruct (decide (processes (rp s) = ∅)); [by destruct s|].
    apply inv_move; try done; unfold in_hand, rest; cbn; rewrite ?Ha; try done.
    + apply NoDup_map_to_list.
    + intros i p. by rewrite elem_of_map_to_list.
  - apply inv_move; try done; unfold in_hand, rest; cbn; rewrite ?Ha; try done.
    all: destruct c; try done; try constructor.
    all: intros i p Hin; by apply elem_of_nil in Hin.
  - destruct (i_pending _ H i p) as (_ & P2 & _); [apply Hrd; left|].
    destruct (exits s !! p) as [rc|] eqn:He.
    + rewrite decide_True by done. by apply (inv_reap _ _ _ _ _ c).
    + rewrite decide_False by (intros [[? ?] _]; done).
      apply inv_move; try done; unfold in_hand, rest; cbn; rewrite ?Ha; try done.
      * by apply NoDup_cons in Hnd as [_ Hnd].
      * intros j q Hin. apply Hrd. by right.
  - by apply inv_forget.
  - by apply inv_report.
  - apply inv_move; try done; unfold in_hand, rest; cbn; rewrite ?Ha; try done.
    intros i p Hin. by apply elem_of_nil in Hin.
Qed.

Lemma reaper_inv s : reachable false s → inv s.
Proof.
  unfold reachable. generalize sys0 inv0. intros s0 H0 H. induction H as [|s1 s2 s3 Hs _ IH]; [done|].
  apply IH. destruct Hs as [s|s i p Ha Hr|s p rc He Hr|s i p [=] _ _].
  - by apply inv_thread.
  - by apply inv_register.
  - by apply inv_exit.
Qed.

(** ** The thread on its own *)
Definition turns : relation sys := rtc (λ s s', s' = thread s).
(** Where the thread got: nothing else has moved, and what was told stays told. *)
Record later (s s' : sys) : Prop := {
  l_turns : turns s s';
  l_reg : reg s' = reg s;
  l_exits : exits s' = exits s;
  l_told : told (rp s) `prefix_of` told (rp s') }.
#[local] Instance later_preorder : PreOrder later.
Proof.
  split.
  - intros s. split; [constructor|done..].
  - intros s1 s2 s3 [] []. split; [etrans; eassumption|congruence|congruence|by etrans].
Qed.
Lemma later_thread s : later s (thread s).
Proof.
  split; [by apply rtc_once|done|done|]. unfold thread, run_step. cbn.
  repeat case_match; cbn; try done. by apply prefix_app_r.
Qed.
Lemma later_inv s s' : later s s' → inv s → inv s'.
Proof.
  intros [Ht _ _ _]. induction Ht as [|s1 s2 s3 -> _ IH]; [done|]. intros H. by apply IH, inv_thread.
Qed.
Lemma later_in s s' x : later s s' → x ∈ told (rp s) → x ∈ told (rp s').
Proof. intros [_ _ _ [l Hl]] Hx. rewrite Hl. apply elem_of_app. by left. Qed.

(** A round tells every child of its copy that has exited. *)
Lemma round_tells s l c :
  at_ (rp s) = Polling l c →
  ∃ s' c', later s s' ∧ at_ (rp s') = Polling [] c' ∧
    ∀ i p rc, (i, p) ∈ l → exits s !! p = Some rc → (p, rc) ∈ told (rp s').
Proof.
  revert s c. induction l as [|[i p] l IH]; intros s c Ha.
  { exists s, c. split; [done|split; [done|]]. intros i p rc Hin. by apply elem_of_nil in Hin. }
  destruct (exits s !! p) as [rc|] eqn:He.
  - pose (s3 := thread (thread (thread s))).
    assert (H3 : later s s3) by (do 3 (etrans; [|apply later_thread]); done).
    assert (Ha3 : at_ (rp s3) = Polling l true ∧ (p, rc) ∈ told (rp s3)).
    { subst s3. unfold thread, run_step. rewrite Ha. cbn. rewrite He. cbn. split; [done|].
      apply elem_of_app. right. left. }
    destruct Ha3 as [Ha3 Hin3]. destruct (IH s3 true Ha3) as (s' & c' & H' & Ha' & Hl).
    exists s', c'. split; [by etrans|split; [done|]]. intros j q rc' [[= -> ->]|Hin]%elem_of_cons Hq.
    + assert (rc' = rc) as -> by congruence. by apply (later_in s3).
    + apply (Hl j); [done|]. by rewrite (l_exits _ _ H3).
  - pose (s1 := thread s). assert (H1 : later s s1) by apply later_thread.
    assert (Ha1 : at_ (rp s1) = Polling l c) by (subst s1; unfold thread, run_step; rewrite Ha; cbn; by rewrite He).
    destruct (IH s1 c Ha1) as (s' & c' & H' & Ha' & Hl).
    exists s', c'. split; [by etrans|split; [done|]]. intros j q rc' [[= -> ->]|Hin]%elem_of_cons Hq; [congruence|].
    apply (Hl j); [done|]. by rewrite (l_exits _ _ H1).
Qed.

(** The thread gets back to the top of its loop. *)
Lemma back_to_top s : ∃ s', later s s' ∧ at_ (rp s') = Top.
Proof.
  assert (Hend : ∀ s c, at_ (rp s) = Polling [] c → ∃ s', later s s' ∧ at_ (rp s') = Top).
  { intros s0 [] Ha.
    - exists (thread s0). split; [apply later_thread|]. unfold thread, run_step. by rewrite Ha.
    - exists (thread (thread s0)). split; [do 2 (etrans; [|apply later_thread]); done|].
      unfold thread, run_step. by rewrite Ha. }
  assert (Hpoll : ∀ s l c, at_ (rp s) = Polling l c → ∃ s', later s s' ∧ at_ (rp s') = Top).
  { intros s0 l c Ha. destruct (round_tells s0 l c Ha) as (s1 & c1 & H1 & Ha1 & _).
    destruct (Hend s1 c1 Ha1) as (s2 & H2 & ?). exists s2. split; [by etrans|done]. }
  assert (Hrep : ∀ s p rc l, at_ (rp s) = Reporting p rc l → ∃ s', later s s' ∧ at_ (rp s') = Top).
  { intros s0 p rc l Ha. destruct (Hpoll (thread s0) l true) as (s1 & H1 & ?).
    - unfold thread, run_step. by rewrite Ha.
    - exists s1. split; [etrans; [apply later_thread|done]|done]. }
  destruct (at_ (rp s)) as [|l c|i p rc l|p rc l|] eqn:Ha.
  - by exists s.
  - by apply (Hpoll s l c).
  - destruct (Hrep (thread s) p rc l) as (s1 & H1 & ?).
    + unfold thread, run_step. by rewrite Ha.
    + exists s1. split; [etrans; [apply later_thread|done]|done].
  - by apply (Hrep s p rc l).
  - exists (thread s). split; [apply later_thread|]. unfold thread, run_step. by rewrite Ha.
Qed.

(** C14: As long as only the reaper waits for children, every registered child is, at any
    moment, still in the table, in the thread's hands, or told; nobody is told twice, and
    what is told is the child's own exit status - whatever is registered meanwhile, numbers
    being reused included. *)
Theorem reaper_exactly_once s :
  reachable false s →
  (∀ p i, reg s !! p = Some i →
     processes (rp s) !! i = Some p ∨ fst <$> in_hand (rp s) = Some p ∨ p ∈ (told (rp s)).*1) ∧
  NoDup (told (rp s)).*1 ∧
  (∀ p rc, (p, rc) ∈ told (rp s) → is_Some (reg s !! p) ∧ exits s !! p = Some rc).
Proof.
  intros H%reaper_inv. split; [|split; [apply H|apply H]].
  intros p i Hr. destruct (i_all _ H i p Hr) as [[? _]|[?|?]]; auto.
Qed.


(** Known nowhere to the thread. *)
Definition lost (p : proc) (r : reaper) : Prop :=
  (∀ i, processes r !! i ≠ Some p) ∧ (∀ i, (i, p) ∉ rest r) ∧ fst <$> in_hand r ≠ Some p ∧ p ∉ (told r).*1.
Lemma lost_thread p s : lost p (rp s) → lost p (rp (thread s)).
Proof.
  unfold lost, thread, run_step. intros (H1 & H2 & H3 & H4). unfold rest, in_hand in *.
  destruct (at_ (rp s)) as [|[|[j q] l] c|j q rc l|q rc l|] eqn:Ha; cbn in *.
  - case_decide; cbn; rewrite ?Ha; [done|]. split; [done|]. split; [|done].
    intros i. by rewrite elem_of_map_to_list.
  - destruct c; (split; [done|]); (split; [|done]); intros i; apply not_elem_of_nil.
  - assert (Hq : q ≠ p) by (intros ->; apply (H2 j); left).
    destruct (exits s !! q); cbn; (split; [done|]); (split; [intros i Hin; apply (H2 i); by right|]).
    all: split; [congruence|done].
  - split; [|done]. intros i Hi. apply (H1 i). case_decide; [|done].
    by apply lookup_delete_Some in Hi as [_ Hi].
  - split; [done|]. split; [done|]. split; [done|]. rewrite fmap_app, elem_of_app. cbn.
    rewrite list_elem_of_singleton. intros [?| ->]; congruence.
  - split; [done|]. split; [|done]. intros i. apply not_elem_of_nil.
Qed.

(** The assumption that nobody else waits for the children matters: when a thread sending a
    signal waits for an exited child, its number may be given to a new child before the
    reaper polls again, whose registration replaces the entry of the first, and the exit of
    the first is then never told. *)
Theorem reap_elsewhere_loses :
  ∃ s p rc, reachable true s ∧ is_Some (reg s !! p) ∧ exits s !! p = Some rc ∧
    ∀ s', turns s s' → p ∉ (told (rp s')).*1.
Proof.
  pose (s1 := Sys (register 7 0 reaper0) {[0%nat := 7%nat]} ∅ {[7%nat := 0%nat]}).
  pose (s2 := Sys (rp s1) (reg s1) {[0%nat := 0]} (alive s1)).
  pose (s3 := Sys (rp s2) (reg s2) (exits s2) (delete 7%nat (alive s2))).
  pose (s4 := Sys (register 7 1 (rp s3)) (<[1%nat := 7%nat]> (reg s3)) (exits s3) (<[7%nat := 1%nat]> (alive s3))).
  exists s4, 0%nat, 0. split; [|split; [by exists 7%nat|split; [done|]]].
  - unfold reachable. eapply rtc_l; [apply (step_register true sys0 7 0); done|].
    eapply rtc_l; [apply (step_exit true s1 0 0); [done|by exists 7%nat]|].
    eapply rtc_l; [apply (step_elsewhere true s2 7 0); [done|done|by exists 0]|].
    eapply rtc_l; [apply (step_register true s3 7 1); done|]. constructor.
  - intros s' H. assert (Hl : lost 0 (rp s')); [|apply Hl].
    assert (H0 : lost 0 (rp s4)).
    { split; [|split; [|split; [done|apply not_elem_of_nil]]].
      - intros i. subst s4 s3 s2 s1. cbn. rewrite insert_insert_eq.
        intros [[_ ?]|[_ ?]]%lookup_insert_Some; done.
      - intros i. apply not_elem_of_nil. }
    clearbody s4. induction H as [|x y z -> _ IH]; [done|]. by apply IH, lost_thread.
Qed.

(** A child registered, exited and reported. *)
Definition one_child : sys :=
  Sys (register 7 0 reaper0) {[0%nat := 7%nat]} {[0%nat := 3]} {[7%nat := 0%nat]}.
Lemma one_child_reachable : reachable false one_child.
Proof.
  unfold reachable.
  eapply rtc_l; [apply (step_register false sys0 7 0); reflexivity|].
  eapply rtc_l; [apply (step_exit false _ 0 3); [reflexivity|by exists 7%nat]|]. constructor.
Qed.
Definition told_child : sys := Nat.iter 4 thread one_child.
Lemma told_child_reachable : reachable false told_child.
Proof.
  unfold reachable. etrans; [apply one_child_reachable|].
  do 4 (eapply rtc_r; [|apply step_thread]). constructor.
Qed.
Lemma reaper_exactly_once_witness :
  reachable false told_child ∧ told (rp told_child) = [(0%nat, 3)] ∧ NoDup (told (rp told_child)).*1.
Proof.
  split; [apply told_child_reachable|]. split; [vm_compute; reflexivity|].
  apply (reaper_exactly_once told_child told_child_reachable).
Defined.

(** ** A pass over the table ends *)

(** What happens to the reaper: a child is registered, or the thread takes a step with some
    answers to its polls. *)
Inductive action := Registered (i : pid) (p : proc) | Stepped (poll : proc → option Z).
Definition act (r : reaper) (a : action) : reaper :=
  match a with Registered i p => register i p r | Stepped poll => run_step poll r end.
Definition stepped (a : action) : bool := match a with Stepped _ => true | _ => false end.
(** Between two passes. *)
Definition between (r : reaper) : Prop := at_ r = Top ∨ at_ r = Pausing.
(** The steps the thread has left in the pass it is in: three for each child at most. *)
Definition remaining (r : reaper) : nat :=
  match at_ r with
  | Top | Pausing => 0
  | Polling l _ => 1 + 3 * length l
  | Forgetting _ _ _ l => 3 + 3 * length l
  | Reporting _ _ l => 2 + 3 * length l
  end.
Lemma remaining_step poll r : ¬ between r → (remaining (run_step poll r) < remaining r)%nat.
Proof.
  unfold between, remaining, run_step. destruct (at_ r) as [|[|[i p] l] c|i p rc l|p rc l|]; intros Hb; try (by destruct Hb; auto); cbn.
  - destruct c; cbn; lia.
  - destruct (poll p); cbn; lia.
  - lia.
  - lia.
Qed.

