(* ===== verification/Signals.v ===== *)
(** * Signals (zuvloop/_base.py, zuvloop/_loop.py)

    Signal dispositions and the wakeup descriptor belong to the whole process, while event
    loops come and go on any thread.  This file models the tokens that say which loop owns
    which signal and the wakeup descriptor, the operations that install, remove and roll back
    handlers, the cleanup deferred to the main thread, and the dispatch of delivered signals;
    proved: a failed installation is undone, a closed loop leaves nothing behind, and
    delivered signals are dispatched in order.  What holds of the installed descriptor under
    interference is in Wakeup. *)
From S2P Require Import Prelude Checks.

(** ** The process *)
Inductive disp := DDefault | DDefaultInt | DNoop.

(** A loop, as far as signals go: [_signal_handlers], [_wakeup_fd_attached], its token's
    [finalized], [is_closed()], [_csock], whether [_ssock] is watched, [_default_executor]. *)
Record sloop := SLoop {
  sl_handlers : gmap Z nat; sl_attached : bool; sl_finalized : bool; sl_closed : bool;
  sl_csock : option nat; sl_watch : bool; sl_executor : option nat }.

(** The module globals [_signal_owners] and [_wakeup_fd_owner] (a token is named by its
    loop), the installed wakeup descriptor ([None] is -1), the dispositions, the open write
    ends of self-pipes with the loop they belong to, the cleanups deferred to the main
    thread, and the executors told to shut down. *)
Record sworld := SWorld {
  sw_tick : nat; sw_loops : gmap nat sloop; sw_owners : gmap Z nat; sw_wowner : option nat;
  sw_wfd : option nat; sw_disp : gmap Z disp; sw_fds : gmap nat nat;
  sw_deferred : list (list Z * nat * nat); sw_shutdown : list nat }.

Definition upd_tick f s := SWorld (f (sw_tick s)) (sw_loops s) (sw_owners s) (sw_wowner s) (sw_wfd s) (sw_disp s) (sw_fds s) (sw_deferred s) (sw_shutdown s).
Definition upd_loops f s := SWorld (sw_tick s) (f (sw_loops s)) (sw_owners s) (sw_wowner s) (sw_wfd s) (sw_disp s) (sw_fds s) (sw_deferred s) (sw_shutdown s).
Definition upd_owners f s := SWorld (sw_tick s) (sw_loops s) (f (sw_owners s)) (sw_wowner s) (sw_wfd s) (sw_disp s) (sw_fds s) (sw_deferred s) (sw_shutdown s).
Definition set_wowner o s := SWorld (sw_tick s) (sw_loops s) (sw_owners s) o (sw_wfd s) (sw_disp s) (sw_fds s) (sw_deferred s) (sw_shutdown s).
Definition set_wfd o s := SWorld (sw_tick s) (sw_loops s) (sw_owners s) (sw_wowner s) o (sw_disp s) (sw_fds s) (sw_deferred s) (sw_shutdown s).
Definition upd_disp f s := SWorld (sw_tick s) (sw_loops s) (sw_owners s) (sw_wowner s) (sw_wfd s) (f (sw_disp s)) (sw_fds s) (sw_deferred s) (sw_shutdown s).
Definition upd_sfds f s := SWorld (sw_tick s) (sw_loops s) (sw_owners s) (sw_wowner s) (sw_wfd s) (sw_disp s) (f (sw_fds s)) (sw_deferred s) (sw_shutdown s).
Definition upd_deferred f s := SWorld (sw_tick s) (sw_loops s) (sw_owners s) (sw_wowner s) (sw_wfd s) (sw_disp s) (sw_fds s) (f (sw_deferred s)) (sw_shutdown s).
Definition upd_shutdown f s := SWorld (sw_tick s) (sw_loops s) (sw_owners s) (sw_wowner s) (sw_wfd s) (sw_disp s) (sw_fds s) (sw_deferred s) (f (sw_shutdown s)).

Definition with_handlers f l := SLoop (f (sl_handlers l)) (sl_attached l) (sl_finalized l) (sl_closed l) (sl_csock l) (sl_watch l) (sl_executor l).
Definition with_attached b l := SLoop (sl_handlers l) b (sl_finalized l) (sl_closed l) (sl_csock l) (sl_watch l) (sl_executor l).
Definition with_finalized l := SLoop (sl_handlers l) (sl_attached l) true (sl_closed l) (sl_csock l) (sl_watch l) (sl_executor l).
Definition with_closed l := SLoop (sl_handlers l) (sl_attached l) (sl_finalized l) true (sl_csock l) (sl_watch l) (sl_executor l).
Definition with_csock c l := SLoop (sl_handlers l) (sl_attached l) (sl_finalized l) (sl_closed l) c (sl_watch l) (sl_executor l).
Definition with_watch b l := SLoop (sl_handlers l) (sl_attached l) (sl_finalized l) (sl_closed l) (sl_csock l) b (sl_executor l).
Definition with_executor e l := SLoop (sl_handlers l) (sl_attached l) (sl_finalized l) (sl_closed l) (sl_csock l) (sl_watch l) e.

(** What the process does to an operation: which thread it runs on, which system calls
    fail with an [errno], and what else happens whenever the interpreter may switch, which
    is at calls. *)
Class SigEnv := {
  on_main : bool;
  sig_fails : nat → option Z;
  sig_intf : nat → sworld → sworld }.

Section ops.
Context `{Env : SigEnv}.

(** Time passes, and whatever happens in between. *)
Definition jump (s : sworld) : sworld := upd_tick S (sig_intf (sw_tick s) s).
Definition yield_ : M sworld unit := modify jump.
Definition sig_sys : M sworld unit :=
  n <- gets sw_tick ;; yield_ ;;
  match sig_fails n with Some e => raise (oserror e "Invalid argument") | None => ret tt end.

Definition loop_get {A} (f : sloop → A) (d : A) (me : nat) : M sworld A :=
  gets (λ s, match sw_loops s !! me with Some l => f l | None => d end).
Definition loop_upd (f : sloop → sloop) (me : nat) : M sworld unit := modify (upd_loops (alter f me)).
Definition handlers := loop_get sl_handlers ∅.
Definition attached := loop_get sl_attached false.
Definition csock := loop_get sl_csock None.

(** [signal.signal] and [signal.set_wakeup_fd] work on the main thread only; the latter
    refuses a descriptor that is not open, and cannot fail to remove one. *)
Definition signal_signal (sig : Z) (h : disp) : M sworld unit :=
  if on_main then sig_sys ;; modify (upd_disp (<[sig := h]>)) ;; yield_
  else raise (mk ValueError "signal only works in main thread of the main interpreter").
Definition set_wakeup_fd (f : option nat) : M sworld (option nat) :=
  if on_main then
    match f with
    | Some f =>
        sig_sys ;; open <- gets (λ s, bool_decide (is_Some (sw_fds s !! f))) ;;
        if open : bool then ret tt else raise (oserror 9 "Bad file descriptor")
    | None => yield_
    end ;;
    old <- gets sw_wfd ;; modify (set_wfd f) ;; yield_ ;; ret old
  else raise (mk ValueError "set_wakeup_fd only works in main thread of the main interpreter").
Definition is_finalized (o : nat) : M sworld bool := yield_ ;; loop_get sl_finalized false o.
(** [previous is not None and previous.is_finalized()]. *)
Definition finalized_opt (o : option nat) : M sworld bool :=
  match o with Some o => is_finalized o | None => ret false end.

(** ** The wakeup descriptor *)
Record wakeup_state := WakeupState { ws_fd : option nat; ws_owner : option nat; ws_attached : bool }.

Definition _attach_wakeup_fd (me : nat) : M sworld (option wakeup_state) :=
  hs <- handlers me ;;
  if on_main && negb (bool_decide (hs = ∅)) then
    previous_owner <- gets sw_wowner ;;
    previous_attached <- attached me ;;
    modify (set_wowner (Some me)) ;;
    c <- csock me ;;
    previous_fd <- catch_cls (set_wakeup_fd c) OSError (λ e,
      gone <- finalized_opt previous_owner ;;
      (if gone : bool then set_wakeup_fd None ;; modify (set_wowner None)
       else modify (set_wowner previous_owner)) ;;
      raise e) ;;
    loop_upd (with_attached true) me ;;
    ret (Some (WakeupState previous_fd previous_owner previous_attached))
  else ret None.

Definition _restore_wakeup_fd (me : nat) (previous : option wakeup_state) : M sworld unit :=
  match previous with
  | None => ret tt
  | Some p =>
      o <- gets sw_wowner ;;
      if bool_decide (o = Some me) then
        gone <- finalized_opt (ws_owner p) ;;
        abandon <- catch_cls (set_wakeup_fd (if gone : bool then None else ws_fd p) ;; ret gone) OSError
          (λ _, set_wakeup_fd None ;; ret true) ;;
        modify (set_wowner (if abandon : bool then None else ws_owner p)) ;;
        loop_upd (with_attached (if abandon then false else ws_attached p)) me ;;
        gone' <- finalized_opt (ws_owner p) ;;
        o' <- gets sw_wowner ;;
        when_ ((gone' : bool) && bool_decide (o' = ws_owner p))
          (set_wakeup_fd None ;; modify (set_wowner None) ;; loop_upd (with_attached false) me)
      else raise (mk AssertionError "")
  end.

Definition _detach_wakeup_fd (me : nat) : M sworld unit :=
  at_ <- attached me ;; hs <- handlers me ;;
  when_ (on_main && at_ && bool_decide (hs = ∅))
    (o <- gets sw_wowner ;;
     when_ (bool_decide (o = Some me)) (set_wakeup_fd None ;; modify (set_wowner None)) ;;
     loop_upd (with_attached false) me).

(** ** Installing and removing handlers *)
Definition SIGINT : Z := 2.
Definition default_handler (sig : Z) : disp := if sig =? SIGINT then DDefaultInt else DDefault.

(** The [except OSError] of [add_signal_handler]. *)
Definition roll_back (me : nat) (sig : Z) (previous_entry previous_owner : option nat)
    (wakeup : option wakeup_state) : M sworld unit :=
  previous_finalized <- finalized_opt previous_owner ;;
  when_ previous_finalized (signal_signal sig (default_handler sig)) ;;
  loop_upd (with_handlers (partial_alter (λ _, previous_entry) sig)) me ;;
  match previous_owner with
  | Some o =>
      if (previous_finalized : bool) then modify (upd_owners (delete sig))
      else
        modify (upd_owners (<[sig := o]>)) ;;
        gone <- is_finalized o ;;
        now <- gets (λ s, sw_owners s !! sig) ;;
        when_ ((gone : bool) && bool_decide (now = Some o))
          (modify (upd_owners (delete sig)) ;; signal_signal sig (default_handler sig))
  | None => modify (upd_owners (delete sig))
  end ;;
  _restore_wakeup_fd me wakeup ;;
  raise (mk RuntimeError ("sig " ++ string_of_Z sig ++ " cannot be caught")).

(** [try: attach; signal.signal], keeping what was attached for the rollback. *)
Definition install (me : nat) (sig : Z) : M sworld (exn * option wakeup_state + unit) :=
  catch_else (_attach_wakeup_fd me)
    (λ e, if isinstance e OSError then ret (inl (e, None)) else raise e)
    (λ ws, catch_cls (signal_signal sig DNoop ;; ret (inr tt)) OSError (λ e, ret (inl (e, ws)))).

Definition add_signal_handler (valid : gset Z) (me : nat) (sig : pynum) (callback : option nat) : M sworld unit :=
  match callback with
  | None => raise (mk TypeError "coroutines cannot be used with add_signal_handler()")
  | Some entry =>
      closed <- loop_get sl_closed true me ;;
      when_ closed (raise (mk RuntimeError "Event loop is closed")) ;;
      n <- of_res (_check_signal valid sig) ;;
      when_ (negb on_main) (raise (mk RuntimeError "signal handlers can only be added from the main thread")) ;;
      hs <- handlers me ;;
      previous_owner <- gets (λ s, sw_owners s !! n) ;;
      loop_upd (with_handlers (<[n := entry]>)) me ;;
      modify (upd_owners (<[n := me]>)) ;;
      r <- install me n ;;
      match r with
      | inl (_, ws) => roll_back me n (hs !! n) previous_owner ws
      | inr _ => ret tt                                       (* [signal.siginterrupt] *)
      end
  end.

Definition remove_entry (me : nat) (sig : Z) : M sworld bool :=
  hs <- handlers me ;;
  match hs !! sig with
  | None => ret false
  | Some entry =>
      o <- gets (λ s, sw_owners s !! sig) ;;
      when_ (bool_decide (o = Some me)) (signal_signal sig (default_handler sig)) ;;
      hs' <- handlers me ;;
      when_ (bool_decide (hs' !! sig = Some entry))
        (loop_upd (with_handlers (delete sig)) me ;;
         o' <- gets (λ s, sw_owners s !! sig) ;;
         when_ (bool_decide (o' = Some me)) (modify (upd_owners (delete sig)))) ;;
      _detach_wakeup_fd me ;;
      ret true
  end.
Definition remove_signal_handler (valid : gset Z) (me : nat) (sig : pynum) : M sworld bool :=
  n <- of_res (_check_signal valid sig) ;; remove_entry me n.

(** ** Closing a loop *)

(** The first failure is raised once every signal has been tried; the descriptor is closed
    in any case. *)
Definition reset_signals (owner : nat) (signals : list Z) : M sworld (option exn) :=
  foldl (λ acc sig,
    failure <- acc ;;
    o <- gets (λ s, sw_owners s !! sig) ;;
    if bool_decide (o = Some owner) then
      catch_else (signal_signal sig (default_handler sig))
        (λ e, if isinstance e OSError || isinstance e ValueError
              then ret (Some (default e failure)) else raise e)
        (λ _, o' <- gets (λ s, sw_owners s !! sig) ;;
              when_ (bool_decide (o' = Some owner)) (modify (upd_owners (delete sig))) ;;
              ret failure)
    else ret failure) (ret None) signals.

Definition _finish_deferred_signal_cleanup (signals : list Z) (wakeup_fd : nat) (owner : nat) : M sworld unit :=
  loop_upd with_finalized owner ;;
  o <- gets sw_wowner ;;
  when_ (bool_decide (o = Some owner)) (set_wakeup_fd None ;; modify (set_wowner None)) ;;
  finally
    (failure <- reset_signals owner signals ;;
     match failure with Some e => raise e | None => ret tt end)
    (modify (upd_sfds (delete wakeup_fd))).

Definition _teardown_self_pipe (me : nat) : M sworld unit :=
  loop_upd (with_watch false) me ;;
  c <- csock me ;;
  match c with
  | Some f => loop_upd (with_csock None) me ;; modify (upd_sfds (delete f))
  | None => ret tt
  end.

(** [self._csock.detach()], [self._signal_handlers.clear()] and the flag. *)
Definition forget (l : sloop) : sloop := with_attached false (with_handlers (λ _, ∅) (with_csock None l)).

(** [close] on a loop that is not running. *)
Definition close_loop (me : nat) : M sworld unit :=
  closed <- loop_get sl_closed true me ;;
  if closed : bool then ret tt else
  executor <- loop_get sl_executor None me ;;
  loop_upd (with_executor None) me ;;
  loop_upd with_closed me ;;                                  (* [self._close()] *)
  loop_upd with_finalized me ;;
  hs <- handlers me ;;
  finally
    (for_each (map_to_list hs).*1 (λ sig, remove_entry me sig ;; ret tt))
    (finally
      (hs' <- handlers me ;; at_ <- attached me ;; c <- csock me ;;
       match c with
       | Some f =>
           if negb (bool_decide (hs' = ∅)) || at_ then
             loop_upd forget me ;;
             if on_main then _finish_deferred_signal_cleanup (map_to_list hs').*1 f me
             else modify (upd_deferred (λ d, d ++ [((map_to_list hs').*1, f, me)]))
           else ret tt
       | None => ret tt
       end)
      (finally (_teardown_self_pipe me)
         match executor with Some e => modify (upd_shutdown (λ l, l ++ [e])) | None => ret tt end)).

(** A deferred cleanup running on the main thread. *)
Definition run_deferred : M sworld unit :=
  d <- gets sw_deferred ;;
  match d with
  | (sigs, f, owner) :: rest =>
      modify (upd_deferred (λ _, rest)) ;; _finish_deferred_signal_cleanup sigs f owner
  | [] => ret tt
  end.

(** [__init__] and [_setup_self_pipe]. *)
Definition new_loop (me : nat) : M sworld unit :=
  f <- gets (λ s, fresh (dom (sw_fds s))) ;;
  modify (upd_sfds (<[f := me]>)) ;;
  modify (upd_loops (<[me := SLoop ∅ false false false (Some f) true None]>)).
End ops.

(** ** Delivery *)

(** What [_ssock.recv] gives: bytes, the end of the stream, or nothing yet. *)
Inductive recvd := RBytes (l : list Z) | REof | RAgain.

(** [_drain_self_pipe]: the callbacks scheduled, in order, and whether the reader stays. *)
Definition _dispatch_signal (hs : gmap Z nat) (signum : Z) : list nat :=
  match hs !! signum with Some cb => [cb] | None => [] end.
Fixpoint _drain_self_pipe (hs : gmap Z nat) (reads : list recvd) : list nat * bool :=
  match reads with
  | [] | RAgain :: _ => ([], true)
  | REof :: _ => ([], false)
  | RBytes l :: reads' =>
      match l with
      | [] => ([], false)
      | _ => let '(cbs, w) := _drain_self_pipe hs reads' in (concat (map (_dispatch_signal hs) l) ++ cbs, w)
      end
  end.

(** ** Delivery *)

(** However the kernel cuts the bytes up, every signal that has a handler is dispatched, in
    the order of arrival, and the others are ignored; the reader stays unless the stream has
    ended. *)
Theorem drain_dispatches hs chunks last more :
  Forall (λ c, c ≠ []) chunks → last = RAgain ∨ last = REof →
  _drain_self_pipe hs (map RBytes chunks ++ last :: more) =
    (omap (λ n, hs !! n) (concat chunks), match last with REof => false | _ => true end).
Proof.
  intros Hc Hl. assert (Hd : ∀ l : list Z, concat (map (_dispatch_signal hs) l) = omap (λ n, hs !! n) l).
  { intros l. induction l as [|n l IH]; [done|]. cbn. rewrite IH. unfold _dispatch_signal. by destruct (hs !! n). }
  induction Hc as [|c cs Hne _ IH]; cbn.
  - by destruct Hl as [-> | ->].
  - rewrite IH. destruct c as [|n c]; [done|]. by rewrite Hd, omap_app.
Qed.
Lemma drain_dispatches_witness :
  _drain_self_pipe {[15 := 7%nat]} [RBytes [15; 2]; RBytes [15]; REof] = ([7%nat; 7%nat], false).
Proof.
  refine (drain_dispatches {[15 := 7%nat]} [[15; 2]; [15]] REof [] _ (or_intror eq_refl)).
  repeat constructor; discriminate.
Defined.

(** ** The rollback *)

Section rollback.
Context (failing : nat → option Z) (me : nat) (l : sloop).
#[local] Instance env : SigEnv :=
  {| on_main := true; sig_fails := failing; sig_intf := λ _ s, s |}.

Lemma wp_quiet_yield (Q : unit → sworld → Prop) E s : Q tt (upd_tick S s) → wp yield_ Q E s.
Proof. done. Qed.
Lemma wp_quiet_sys (Q : unit → sworld → Prop) (E : exn → sworld → Prop) s :
  Q tt (upd_tick S s) → (∀ n, E (oserror n "Invalid argument") (upd_tick S s)) → wp sig_sys Q E s.
Proof.
  intros HQ HE. unfold sig_sys. do 3 wp_step. apply wp_quiet_yield. destruct (sig_fails _); wp_step; [apply HE|done].
Qed.
Lemma wp_quiet_signal sig h (Q : unit → sworld → Prop) (E : exn → sworld → Prop) s :
  Q tt (upd_tick S (upd_disp (<[sig := h]>) (upd_tick S s))) →
  (∀ n, E (oserror n "Invalid argument") (upd_tick S s)) → wp (signal_signal sig h) Q E s.
Proof.
  intros HQ HE. unfold signal_signal. cbn [on_main env]. wp_step. apply wp_quiet_sys; [|done]. do 2 wp_step.
  by apply wp_quiet_yield.
Qed.
Lemma wp_quiet_wakeup f (Q : option nat → sworld → Prop) (E : exn → sworld → Prop) s :
  Q (sw_wfd s) (upd_tick S (set_wfd (Some f) (upd_tick S s))) →
  (∀ n m, E (oserror n m) (upd_tick S s)) → wp (set_wakeup_fd (Some f)) Q E s.
Proof.
  intros HQ HE. unfold set_wakeup_fd. cbn [on_main env]. do 2 wp_step. apply wp_quiet_sys; [|done].
  do 2 wp_step. cbn beta. destruct (bool_decide _); wp_step; [|done].
  do 5 wp_step. apply wp_quiet_yield. by wp_step.
Qed.
Lemma wp_quiet_nowakeup (Q : option nat → sworld → Prop) (E : exn → sworld → Prop) s :
  Q (sw_wfd s) (upd_tick S (set_wfd None (upd_tick S s))) → wp (set_wakeup_fd None) Q E s.
Proof.
  intros HQ. unfold set_wakeup_fd. cbn [on_main env]. wp_step. apply wp_quiet_yield.
  do 5 wp_step. apply wp_quiet_yield. by wp_step.
Qed.

Definition token_finalized (o : nat) (s : sworld) : bool :=
  match sw_loops s !! o with Some l => sl_finalized l | None => false end.
Lemma wp_quiet_finalized o (Q : bool → sworld → Prop) E s :
  (∀ q, o = Some q → token_finalized q s = false) → (∀ t, Q false (upd_tick t s)) → wp (finalized_opt o) Q E s.
Proof.
  intros Ho HQ. unfold finalized_opt, is_finalized, loop_get. destruct o as [q|].
  - wp_step. apply wp_quiet_yield. wp_step. specialize (Ho q eq_refl). unfold token_finalized in Ho.
    cbn [sw_loops upd_tick]. rewrite Ho. apply HQ.
  - wp_step. specialize (HQ (λ n, n)). by destruct s.
Qed.

(** What the failure of an installation leaves: everything as it was, save that a wakeup
    descriptor the system refuses to take back is not in force any more. *)
Definition restored (s s' : sworld) : Prop :=
  sw_owners s' = sw_owners s ∧ sw_disp s' = sw_disp s ∧ sw_fds s' = sw_fds s ∧
  sw_deferred s' = sw_deferred s ∧
  ((sw_loops s' = sw_loops s ∧ sw_wfd s' = sw_wfd s ∧ sw_wowner s' = sw_wowner s) ∨
   (sw_loops s' = <[me := with_attached false l]> (sw_loops s) ∧ sw_wfd s' = None ∧ sw_wowner s' = None)).
(** And its success. *)
Definition installed (n : Z) (cb : nat) (s s' : sworld) : Prop :=
  sw_owners s' = <[n := me]> (sw_owners s) ∧ sw_disp s' = <[n := DNoop]> (sw_disp s) ∧
  sw_wfd s' = sl_csock l ∧ sw_wowner s' = Some me ∧
  sw_loops s' = <[me := with_attached true (with_handlers (<[n := cb]>) l)]> (sw_loops s).
End rollback.

Section add.
Context (failing : nat → option Z) (me : nat) (l : sloop) (s : sworld) (n : Z) (cb : nat).
Context (Hme : sw_loops s !! me = Some l) (Hfin : sl_finalized l = false).
Context (Howner : ∀ o, sw_owners s !! n = Some o → token_finalized o s = false).
Context (Hwowner : ∀ o, sw_wowner s = Some o → token_finalized o s = false).

(** The loops as they are once the handler is entered. *)
Definition entered : gmap nat sloop := alter (with_handlers (<[n := cb]>)) me (sw_loops s).
Lemma alter_me f (m : gmap nat sloop) l' : m !! me = Some l' → alter f me m = <[me := f l']> m.
Proof.
  intros H. apply map_eq. intros q. destruct (decide (me = q)) as [<-|Hne].
  - by rewrite lookup_alter_eq, lookup_insert_eq, H.
  - by rewrite lookup_alter_ne, lookup_insert_ne.
Qed.
Lemma token_me f o s' :
  sl_finalized (f l) = sl_finalized l → sw_loops s' = <[me := f l]> (sw_loops s) →
  token_finalized o s' = token_finalized o s.
Proof.
  intros Hf Hs. unfold token_finalized. rewrite Hs. destruct (decide (me = o)) as [<-|Hne].
  - by rewrite lookup_insert_eq, Hme, Hf.
  - by rewrite lookup_insert_ne.
Qed.

(** A state of the installation: the loop's attributes are [lt], the rest is as at the
    start but for the parts being installed. *)
Record underway (lt : sloop) (t : sworld) : Prop := {
  u_loops : sw_loops t = <[me := lt]> (sw_loops s);
  u_owners : sw_owners t = <[n := me]> (sw_owners s);
  u_disp : sw_disp t = sw_disp s;
  u_fds : sw_fds t = sw_fds s;
  u_deferred : sw_deferred t = sw_deferred s;
  u_handlers : sl_handlers lt = <[n := cb]> (sl_handlers l);
  u_token : sl_finalized lt = false }.
Lemma underway_token lt t o : underway lt t → token_finalized o t = token_finalized o s.
Proof. intros U. apply (token_me (λ _, lt)); [by rewrite (u_token _ _ U)|apply U]. Qed.

Definition undone (lt : sloop) : sloop := with_handlers (partial_alter (λ _, sl_handlers l !! n) n) lt.
Lemma undone_handlers lt : sl_handlers lt = <[n := cb]> (sl_handlers l) → sl_handlers (undone lt) = sl_handlers l.
Proof.
  intros H. cbn. rewrite H. apply map_eq. intros k. destruct (decide (n = k)) as [<-|Hne].
  - by rewrite lookup_partial_alter_eq.
  - by rewrite lookup_partial_alter_ne, lookup_insert_ne.
Qed.
(** The signal's previous owner, put back. *)
Lemma owners_restored (o : option nat) :
  sw_owners s !! n = o →
  match o with Some q => <[n := q]> (<[n := me]> (sw_owners s)) | None => delete n (<[n := me]> (sw_owners s)) end
  = sw_owners s.
Proof.
  intros Ho. apply map_eq. intros k. destruct o as [q|], (decide (n = k)) as [<-|Hne].
  - by rewrite lookup_insert_eq.
  - by rewrite !lookup_insert_ne.
  - by rewrite lookup_delete_eq.
  - by rewrite lookup_delete_ne, lookup_insert_ne.
Qed.

(** The state once handlers and owners are back, before the wakeup descriptor is. *)
Record half_restored (lt : sloop) (t : sworld) : Prop := {
  h_loops : sw_loops t = <[me := undone lt]> (sw_loops s);
  h_owners : sw_owners t = sw_owners s;
  h_disp : sw_disp t = sw_disp s;
  h_fds : sw_fds t = sw_fds s;
  h_deferred : sw_deferred t = sw_deferred s }.

Lemma wp_quiet_rollback (ws : option wakeup_state) lt t (E : exn → sworld → Prop) :
  underway lt t →
  (∀ t', half_restored lt t' → sw_wfd t' = sw_wfd t → sw_wowner t' = sw_wowner t →
     wp (_restore_wakeup_fd (Env := env failing) me ws ;;
         raise (A:=unit) (mk RuntimeError ("sig " ++ string_of_Z n ++ " cannot be caught"))) (λ _ _, False) E t') →
  wp (roll_back (Env := env failing) me n (sl_handlers l !! n) (sw_owners s !! n) ws) (λ _ _, False) E t.
Proof.
  intros U HE. unfold roll_back, loop_upd. wp_step.
  apply wp_quiet_finalized.
  { intros q Hq. rewrite (underway_token _ _ _ U). by apply Howner. }
  intros ft. wp_step. apply wp_when; [done|]. intros _. wp_step. wp_step. wp_step.
  assert (Hl : alter (with_handlers (partial_alter (λ _, sl_handlers l !! n) n)) me (sw_loops t) =
    <[me := undone lt]> (sw_loops s)).
  { rewrite (u_loops _ _ U), (alter_me _ _ lt); [|by rewrite lookup_insert_eq]. by rewrite insert_insert_eq. }
  pose proof (owners_restored _ eq_refl) as Ho.
  destruct (sw_owners s !! n) as [o|] eqn:Hn.
  - do 3 wp_step. unfold is_finalized, loop_get. wp_step. apply wp_quiet_yield. do 3 wp_step. apply wp_when.
    + intros [Hc _]%andb_prop. exfalso. cbn [sw_loops upd_tick upd_owners upd_loops] in Hc. rewrite Hl in Hc.
      pose proof (Howner o eq_refl) as Hf. unfold token_finalized in Hf.
      destruct (decide (me = o)) as [<-|Hne].
      * rewrite lookup_insert_eq in Hc. cbn in Hc. rewrite (u_token _ _ U) in Hc. done.
      * rewrite lookup_insert_ne in Hc by done. congruence.
    + intros _. apply HE; [|done..]. split; cbn; [done| |apply U..]. by rewrite (u_owners _ _ U).
  - wp_step. apply HE; [|done..]. split; cbn; [done| |apply U..]. by rewrite (u_owners _ _ U).
Qed.

Definition entering (b : bool) : sloop := with_attached b (with_handlers (<[n := cb]>) l).
Lemma undone_entering b : undone (entering b) = with_attached b l.
Proof.
  pose proof (undone_handlers (entering b) eq_refl) as H. unfold undone, with_handlers in *. cbn in *.
  rewrite H. by destruct l.
Qed.
Lemma same_attached : with_attached (sl_attached l) l = l.
Proof. by destruct l. Qed.
Lemma wp_quiet_restore (a c : bool) t (Q : unit → sworld → Prop) E :
  half_restored (entering c) t → sw_wowner t = Some me →
  (∀ t', restored me l s t' → Q tt t') →
  wp (_restore_wakeup_fd (Env := env failing) me (Some (WakeupState (sw_wfd s) (sw_wowner s) (sl_attached l)))) Q E t.
Proof.
  intros [T1 T2 T3 T4 T5] Hw HQ. unfold _restore_wakeup_fd, loop_upd. do 2 wp_step.
  rewrite bool_decide_eq_true_2 by done. wp_step. cbn [ws_owner ws_fd ws_attached].
  assert (Htok : ∀ t' b o, sw_loops t' = <[me := with_attached b l]> (sw_loops s) → sw_wowner s = Some o →
    token_finalized o t' = false).
  { intros t' b o Hl Ho. rewrite (token_me (with_attached b) o t'); [by apply Hwowner|done|done]. }
  rewrite undone_entering in T1.
  apply wp_quiet_finalized; [intros q; by apply (Htok t c)|]. intros f1. wp_step. cbn [upd_tick].
  (* both ways of ending *)
  assert (Hend : ∀ (b : bool) t', sw_loops t' = <[me := with_attached c l]> (sw_loops s) →
    sw_owners t' = sw_owners s → sw_disp t' = sw_disp s → sw_fds t' = sw_fds s → sw_deferred t' = sw_deferred s →
    sw_wfd t' = (if b then None else sw_wfd s) →
    wp (modify (set_wowner (if b then None else sw_wowner s)) ;;
        modify (upd_loops (alter (with_attached (if b then false else sl_attached l)) me)) ;;
        gone' <- finalized_opt (Env := env failing) (sw_wowner s) ;; o' <- gets sw_wowner ;;
        when_ ((gone' : bool) && bool_decide (o' = sw_wowner s))
          (set_wakeup_fd (Env := env failing) None ;; modify (set_wowner None) ;;
           modify (upd_loops (alter (with_attached false) me)))) Q E t').
  { intros b t' L1 L2 L3 L4 L5 L6. do 4 wp_step.
    assert (Hl : alter (with_attached (if b then false else sl_attached l)) me (sw_loops t') =
      <[me := with_attached (if b then false else sl_attached l) l]> (sw_loops s)).
    { rewrite L1, (alter_me _ _ (with_attached c l)); [|by rewrite lookup_insert_eq]. by rewrite insert_insert_eq. }
    wp_step. apply wp_quiet_finalized.
    { intros q. apply (Htok _ (if b then false else sl_attached l)). exact Hl. }
    intros f2. do 2 wp_step. apply wp_when; [done|]. intros _. apply HQ.
    split; [done|split; [done|split; [done|split; [done|]]]]. cbn. destruct b; [right; by rewrite Hl|left].
    rewrite Hl, same_attached. split; [|done]. by apply insert_id. }
  apply wp_catch_cls. wp_step. destruct (sw_wfd s) as [g|] eqn:Hg.
  - apply wp_quiet_wakeup.
    + wp_step. by apply (Hend false).
    + intros k1 k2. split; [|done]. intros _. wp_step. apply wp_quiet_nowakeup. wp_step. by apply (Hend true).
  - apply wp_quiet_nowakeup. wp_step. by apply (Hend false).
Qed.

Lemma restored_half t :
  half_restored (entering (sl_attached l)) t → sw_wfd t = sw_wfd s → sw_wowner t = sw_wowner s → restored me l s t.
Proof.
  intros [T1 T2 T3 T4 T5] Hf Hw. split; [done|split; [done|split; [done|split; [done|left]]]].
  split; [|done]. rewrite T1, undone_entering, same_attached. by apply insert_id.
Qed.

(** C30: [add_signal_handler] on the main thread, with nothing else going on: either the signal is
    hooked, owned by this loop, dispatched to the callback, and the loop's own descriptor is
    the installed one; or a [RuntimeError] says the signal cannot be caught, and handlers,
    owners, dispositions and the wakeup descriptor are what they were - save that a previous
    descriptor the system would not take back is left uninstalled and unowned. *)
Theorem add_signal_spec valid f :
  sl_closed l = false → n ∈ valid → sl_csock l = Some f →
  wp (add_signal_handler (Env := env failing) valid me (PInt n) (Some cb))
    (λ _, installed me l n cb s) (λ e s', exn_cls e = RuntimeError ∧ restored me l s s') s.
Proof.
  intros Hc Hv Hf. unfold add_signal_handler, handlers, loop_get, loop_upd. do 3 wp_step. rewrite Hme, Hc.
  apply wp_when; [done|]. intros _. wp_step. apply wp_of_res.
  2:{ intros e. cbn. by rewrite bool_decide_eq_true_2. }
  intros n'. unfold _check_signal. rewrite bool_decide_eq_true_2 by done. intros [= <-]. wp_step. apply wp_when; [done|].
  intros _. do 9 wp_step. rewrite Hme.
  set (t := upd_owners _ _). assert (U : underway (entering (sl_attached l)) t).
  { split; [|done..]. cbn. rewrite (alter_me _ _ l Hme). by f_equal. }
  assert (Hwf : sw_wfd t = sw_wfd s ∧ sw_wowner t = sw_wowner s) by done. destruct Hwf as [Hwf Hwo]. clearbody t.
  assert (Hl : sw_loops t !! me = Some (entering (sl_attached l))) by (rewrite (u_loops _ _ U); by rewrite lookup_insert_eq).
  unfold install. apply wp_catch_else. unfold _attach_wakeup_fd, handlers, attached, csock, loop_get, loop_upd.
  do 2 wp_step. rewrite Hl, bool_decide_eq_false_2; cbn [on_main env andb negb].
  2:{ cbn. apply insert_non_empty. }
  do 6 wp_step. rewrite Hl. do 2 wp_step. cbn [sw_loops set_wowner]. rewrite Hl, Hwo. cbn [sl_csock entering with_attached with_handlers].
  rewrite Hf. wp_step. apply wp_catch_cls, wp_quiet_wakeup.
  - do 4 wp_step. cbn [upd_tick set_wfd set_wowner sw_wfd]. rewrite Hwf.
    assert (Hl2 : alter (with_attached true) me (sw_loops t) = <[me := entering true]> (sw_loops s)).
    { rewrite (u_loops _ _ U), (alter_me _ _ (entering (sl_attached l))); [|by rewrite lookup_insert_eq].
      by rewrite insert_insert_eq. }
    wp_step. apply wp_quiet_signal.
    + do 2 wp_step. split; [apply U|]. cbn. rewrite (u_disp _ _ U). split; [done|]. by rewrite Hf.
    + intros k. split; [|done]. intros _. wp_step.
      apply (wp_mono _ (λ _ _, False) _ (λ e s', exn_cls e = RuntimeError ∧ restored me l s s')); [|done|done].
      apply (wp_quiet_rollback _ (entering true)).
      * split; cbn; [done|apply U..|done|done].
      * intros t' T Hwf' Hwo'. wp_step. apply (wp_quiet_restore (sl_attached l) true); [exact T|exact Hwo'|].
        intros t'' R. apply wp_raise. split; [reflexivity|exact R].
  - intros k1 k2. split; [|done]. intros _. wp_step. apply wp_quiet_finalized.
    { intros q Hq. change (token_finalized q t = false). rewrite (underway_token _ _ _ U). by apply Hwowner. }
    intros f1. do 3 wp_step. change (isinstance (oserror k1 k2) OSError) with true. cbv iota. wp_step.
    apply (wp_mono _ (λ _ _, False) _ (λ e s', exn_cls e = RuntimeError ∧ restored me l s s')); [|done|done].
    apply (wp_quiet_rollback _ (entering (sl_attached l))).
    + split; cbn; apply U.
    + intros t' T Hwf' Hwo'. unfold _restore_wakeup_fd. do 3 wp_step. split; [reflexivity|].
      apply restored_half; [exact T|by rewrite Hwf'|exact Hwo'].
Qed.
End add.

Definition one_loop : sloop := SLoop ∅ false false false (Some 5%nat) true None.
Definition one_loop_world : sworld :=
  SWorld 0 {[0%nat := one_loop]} ∅ None None ∅ {[5%nat := 0%nat]} [] [].
Lemma add_signal_spec_witness :
  wp (add_signal_handler (Env := env (λ t, if Nat.eqb t 2 then Some 22 else None)) {[9]} 0 (PInt 9) (Some 7%nat))
    (λ _, installed 0 one_loop 9 7 one_loop_world)
    (λ e s', exn_cls e = RuntimeError ∧ restored 0 one_loop one_loop_world s') one_loop_world.
Proof.
  apply (add_signal_spec _ 0 one_loop one_loop_world 9 7) with (f := 5%nat).
  - reflexivity.
  - reflexivity.
  - intros o H. discriminate H.
  - intros o H. discriminate H.
  - reflexivity.
  - vm_compute. reflexivity.
  - reflexivity.
Defined.

(** ** Adding and removing *)
Section roundtrip.
#[local] Instance calm_env : SigEnv := env (λ _, None).

Lemma wp_calm_signal sig h (Q : unit → sworld → Prop) E s :
  Q tt (upd_tick S (upd_disp (<[sig := h]>) (upd_tick S s))) → wp (signal_signal sig h) Q E s.
Proof. done. Qed.
Lemma wp_calm_wakeup f (Q : option nat → sworld → Prop) E s :
  is_Some (sw_fds s !! f) → Q (sw_wfd s) (upd_tick S (set_wfd (Some f) (upd_tick S s))) → wp (set_wakeup_fd (Some f)) Q E s.
Proof.
  intros Hf HQ. unfold wp, set_wakeup_fd, sig_sys, yield_, bind, gets, modify, ret. cbn.
  by rewrite bool_decide_eq_true_2.
Qed.
Lemma wp_calm_nowakeup (Q : option nat → sworld → Prop) E s :
  Q (sw_wfd s) (upd_tick S (set_wfd None (upd_tick S s))) → wp (set_wakeup_fd None) Q E s.
Proof. done. Qed.

(** The loop [me] of [s] is now [l]; owners, dispositions and wakeup descriptor as given. *)
Record now_at (s : sworld) (me : nat) (l : sloop) owners disps wowner wfd (t : sworld) : Prop := {
  now_loops : sw_loops t = <[me := l]> (sw_loops s);
  now_owners : sw_owners t = owners;
  now_disp : sw_disp t = disps;
  now_wowner : sw_wowner t = wowner;
  now_wfd : sw_wfd t = wfd;
  now_fds : sw_fds t = sw_fds s;
  now_deferred : sw_deferred t = sw_deferred s;
  now_shutdown : sw_shutdown t = sw_shutdown s }.
Lemma now_get s me l ow ds wo wf t : now_at s me l ow ds wo wf t → sw_loops t !! me = Some l.
Proof. intros H. rewrite (now_loops _ _ _ _ _ _ _ _ H). apply lookup_insert_eq. Qed.
Lemma wp_now_upd s me l ow ds wo wf f t (Q : unit → sworld → Prop) E :
  now_at s me l ow ds wo wf t → (∀ t', now_at s me (f l) ow ds wo wf t' → Q tt t') → wp (loop_upd f me) Q E t.
Proof.
  intros H HQ. unfold loop_upd. wp_step. apply HQ. destruct H as [H1 H2 H3 H4 H5 H6 H7 H8]. split; cbn; try done.
  rewrite H1, (alter_me me _ _ l) by apply lookup_insert_eq. by rewrite insert_insert_eq.
Qed.
Lemma now_tick f s me l ow ds wo wf t : now_at s me l ow ds wo wf t → now_at s me l ow ds wo wf (upd_tick f t).
Proof. intros []. by split. Qed.

(** What hooking a signal on a loop without handlers gives. *)
Lemma wp_calm_add valid me l n cb f s (Q : unit → sworld → Prop) E :
  sw_loops s !! me = Some l → sl_closed l = false → n ∈ valid → sl_csock l = Some f → is_Some (sw_fds s !! f) →
  (∀ t, now_at s me (with_attached true (with_handlers (<[n := cb]>) l)) (<[n := me]> (sw_owners s))
          (<[n := DNoop]> (sw_disp s)) (Some me) (Some f) t → Q tt t) →
  wp (add_signal_handler valid me (PInt n) (Some cb)) Q E s.
Proof.
  intros Hl Hc Hv Hf Hfd HQ. unfold add_signal_handler, handlers, loop_get. do 3 wp_step. rewrite Hl, Hc.
  apply wp_when; [done|]. intros _. wp_step. apply wp_of_res; unfold _check_signal; rewrite bool_decide_eq_true_2 by done; [|done].
  intros n' [= <-]. wp_step. apply wp_when; [done|]. intros _. do 5 wp_step.
  assert (H0 : now_at s me l (sw_owners s) (sw_disp s) (sw_wowner s) (sw_wfd s) s) by (split; try done; by rewrite insert_id).
  eapply wp_now_upd; [exact H0|]. intros t1 H1. do 2 wp_step.
  assert (H2 : now_at s me (with_handlers (<[n := cb]>) l) (<[n := me]> (sw_owners s)) (sw_disp s) (sw_wowner s) (sw_wfd s)
    (upd_owners (<[n := me]>) t1)) by (destruct H1 as [? Ho]; split; cbn; try done; by rewrite Ho).
  set (t2 := upd_owners _ t1) in *. clearbody t2. clear H1 t1. wp_step.
  unfold install, _attach_wakeup_fd, handlers, attached, csock, loop_get. apply wp_catch_else. do 2 wp_step.
  rewrite (now_get _ _ _ _ _ _ _ _ H2), bool_decide_eq_false_2 by (cbn; apply insert_non_empty). cbn [on_main calm_env env andb negb].
  do 6 wp_step. set (t3 := set_wowner _ t2).
  assert (H3 : now_at s me (with_handlers (<[n := cb]>) l) (<[n := me]> (sw_owners s)) (sw_disp s) (Some me) (sw_wfd s) t3)
    by (destruct H2; by split).
  clearbody t3. do 2 wp_step. rewrite (now_get _ _ _ _ _ _ _ _ H3). cbn [sl_csock with_handlers]. rewrite Hf. wp_step.
  apply wp_catch_cls, wp_calm_wakeup; [by rewrite (now_fds _ _ _ _ _ _ _ _ H3)|]. wp_step.
  eapply wp_now_upd. { eapply now_tick. split; cbn; [apply H3|apply H3|apply H3|apply H3|reflexivity|apply H3|apply H3|apply H3]. }
  intros t4 H4. wp_step. apply wp_catch_cls. wp_step. apply wp_calm_signal. do 2 wp_step. apply HQ.
  destruct H4 as [E1 E2 E3 E4 E5 E6 E7 E8]. split; cbn; try done. by rewrite E3.
Qed.

(** C38: Adding a handler to a loop that has none and removing it again leaves the process as it
    was - handlers, owners, dispositions, wakeup descriptor and its owner - provided the
    signal had its default disposition and no other wakeup descriptor was installed. *)
Theorem signal_roundtrip valid me l n cb f s :
  sw_loops s !! me = Some l → sl_closed l = false → sl_handlers l = ∅ → sl_attached l = false →
  n ∈ valid → sl_csock l = Some f → is_Some (sw_fds s !! f) →
  sw_owners s !! n = None → sw_disp s !! n = Some (default_handler n) → sw_wowner s = None → sw_wfd s = None →
  wp (add_signal_handler valid me (PInt n) (Some cb) ;; remove_signal_handler valid me (PInt n))
    (λ removed t, removed = true ∧ t = upd_tick (λ _, sw_tick t) s) (λ _ _, False) s.
Proof.
  intros Hl Hc Hh Ha Hv Hf Hfd Ho Hd Hwo Hwf. wp_step. eapply wp_calm_add; [done..|]. intros t1 H1.
  unfold remove_signal_handler. wp_step. apply wp_of_res; unfold _check_signal; rewrite bool_decide_eq_true_2 by done; [|done].
  intros n' [= <-]. unfold remove_entry, handlers, loop_get. do 2 wp_step. rewrite (now_get _ _ _ _ _ _ _ _ H1).
  cbn [sl_handlers with_attached with_handlers]. rewrite Hh, lookup_insert_eq. do 3 wp_step.
  rewrite (now_owners _ _ _ _ _ _ _ _ H1), lookup_insert_eq, bool_decide_eq_true_2 by done. unfold when_ at 1.
  apply wp_calm_signal. set (t2 := upd_tick S (upd_disp _ _)).
  assert (H2 : now_at s me (with_attached true (with_handlers (<[n := cb]>) l)) (<[n := me]> (sw_owners s)) (sw_disp s) (Some me) (Some f) t2).
  { destruct H1 as [E1 E2 E3 E4 E5 E6 E7 E8]. split; cbn; try done. rewrite E3, insert_insert_eq. by rewrite insert_id. }
  clearbody t2. clear H1 t1. do 2 wp_step. rewrite (now_get _ _ _ _ _ _ _ _ H2). cbn [sl_handlers with_attached with_handlers].
  rewrite Hh, lookup_insert_eq, bool_decide_eq_true_2 by done. wp_step. unfold when_ at 1. wp_step.
  eapply wp_now_upd; [exact H2|]. intros t3 H3. do 2 wp_step.
  rewrite (now_owners _ _ _ _ _ _ _ _ H3), lookup_insert_eq, bool_decide_eq_true_2 by done. unfold when_ at 1. wp_step.
  set (t4 := upd_owners _ t3). set (l4 := with_handlers (delete n) _) in H3.
  assert (H4 : now_at s me l4 (sw_owners s) (sw_disp s) (Some me) (Some f) t4).
  { destruct H3 as [E1 E2 E3 E4 E5 E6 E7 E8]. split; cbn; try done. by rewrite E2, delete_insert_id. }
  assert (Hl4 : sl_handlers l4 = ∅ ∧ sl_attached l4 = true).
  { split; [|done]. unfold l4. cbn. rewrite Hh. by rewrite delete_insert_id. }
  assert (Hback : with_attached false l4 = l).
  { unfold l4, with_attached, with_handlers. cbn. rewrite Hh, delete_insert_id by done. destruct l. cbn in *. by subst. }
  clearbody t4 l4. clear H2 H3 t2 t3. destruct Hl4 as [Hh4 Ha4].
  wp_step. unfold _detach_wakeup_fd, attached, handlers, loop_get. do 2 wp_step. rewrite (now_get _ _ _ _ _ _ _ _ H4), Ha4.
  do 2 wp_step. rewrite (now_get _ _ _ _ _ _ _ _ H4), Hh4, bool_decide_eq_true_2 by done. cbn [on_main calm_env env andb].
  unfold when_ at 1. do 2 wp_step. rewrite (now_wowner _ _ _ _ _ _ _ _ H4), bool_decide_eq_true_2 by done. unfold when_ at 1.
  do 2 wp_step. apply wp_calm_nowakeup. wp_step. eapply wp_now_upd.
  { split; cbn; [apply H4|apply H4|apply H4|reflexivity|reflexivity|apply H4|apply H4|apply H4]. }
  rewrite Hback. intros t5 H5. wp_step. split; [done|]. destruct H5 as [E1 E2 E3 E4 E5 E6 E7 E8].
  rewrite insert_id in E1 by done. destruct s, t5. cbn in *. by subst.
Qed.
End roundtrip.

Definition default_world : sworld :=
  SWorld 0 {[0%nat := one_loop]} ∅ None None {[15 := DDefault]} {[5%nat := 0%nat]} [] [].
Lemma signal_roundtrip_witness :
  wp (add_signal_handler (Env := env (λ _, None)) {[15]} 0 (PInt 15) (Some 7%nat) ;;
      remove_signal_handler (Env := env (λ _, None)) {[15]} 0 (PInt 15))
    (λ removed t, removed = true ∧ t = upd_tick (λ _, sw_tick t) default_world) (λ _ _, False) default_world.
Proof.
  apply (signal_roundtrip {[15]} 0 one_loop 15 7 5 default_world); try reflexivity.
  eexists. reflexivity.
Defined.
