(* ===== verification/Wakeup.v ===== *)
(** * The process-wide wakeup descriptor (zuvloop/_base.py, zuvloop/_loop.py)

    While the main thread installs, restores or removes the descriptor signals are written
    to, other threads close loops and the interpreter runs deferred cleanups in between.  This
    file states what may happen in between and proves that at the end of every operation the
    installed descriptor is open. *)
From S2P Require Import Prelude Checks Signals.

(** ** What may happen in between

    While the main thread is inside an operation on loop [me], other threads may close other
    loops, entirely or only as far as marking their token, and at any call the interpreter may
    run a deferred cleanup. *)
Definition quiet_env (main : bool) (failing : nat → option Z) : SigEnv :=
  {| on_main := main; sig_fails := failing; sig_intf := λ _ s, s |}.
Inductive interferes (me : nat) : sworld → sworld → Prop :=
  | int_finalize s o : o ≠ me → interferes me s (upd_loops (alter with_finalized o) s)
  | int_close s o failing :
      o ≠ me → interferes me s (close_loop (Env := quiet_env false failing) o s).2
  | int_cleanup s failing : interferes me s (run_deferred (Env := quiet_env true failing) s).2.
Class SigOk (Env : SigEnv) (me : nat) :=
  sig_intf_ok : ∀ n s, rtc (interferes me) s (sig_intf n s).

(** ** The installed descriptor

    [p] is the loop whose descriptor is installed, [x] the cleanups running now, [e] the loop
    that is just installing its own and has not noted so yet. *)
Record wok (e : option nat) (x : list (list Z * nat * nat)) (p : option nat) (s : sworld) : Prop := {
  k_open : ∀ f, sw_wfd s = Some f → is_Some (sw_fds s !! f) ∨
    ∃ o l, p = Some o ∧ sw_loops s !! o = Some l ∧ sl_finalized l = true;
  k_who : ∀ f o, sw_wfd s = Some f → sw_fds s !! f = Some o →
    p = Some o ∧ ∀ l, sw_loops s !! o = Some l → sl_csock l = Some f → e ≠ Some o → sl_attached l = true;
  k_csock : ∀ o l f, sw_loops s !! o = Some l → sl_csock l = Some f → sw_fds s !! f = Some o;
  k_def : ∀ sigs f o, (sigs, f, o) ∈ x ++ sw_deferred s → sw_fds s !! f = Some o ∧
    ∃ l, sw_loops s !! o = Some l ∧ sl_csock l = None ∧ sl_finalized l = true;
  k_nodup : NoDup (x ++ sw_deferred s).*2 }.
Definition strict (s : sworld) : Prop := ∀ f, sw_wfd s = Some f → is_Some (sw_fds s !! f).
(** Preserving an invariant is a preorder, so [stable] applies. *)
Definition keeping (I : sworld → Prop) : relation sworld := λ s s', I s → I s'.
#[local] Instance keeping_preorder I : PreOrder (keeping I).
Proof. split; [intros s H; exact H|intros s1 s2 s3 H1 H2 H; by apply H2, H1]. Qed.

Lemma wok_upd_loop e x p s o f :
  (∀ l, sw_loops s !! o = Some l → (sl_csock (f l) = sl_csock l ∨ sl_csock (f l) = None) ∧
        (sl_csock (f l) ≠ None → sl_attached l = true → sl_attached (f l) = true) ∧
        (sl_finalized l = true → sl_finalized (f l) = true)) →
  wok e x p s → wok e x p (upd_loops (alter f o) s).
Proof.
  intros Hf [H1 H2 H3 H4 H5].
  assert (Hl : ∀ q l', alter f o (sw_loops s) !! q = Some l' → ∃ l, sw_loops s !! q = Some l ∧
    (sl_csock l' ≠ None → sl_csock l' = sl_csock l ∧ (sl_attached l = true → sl_attached l' = true))).
  { intros q l'. destruct (decide (o = q)) as [<-|Hne].
    - rewrite lookup_alter_eq. intros (l & Hl & ->)%fmap_Some. exists l. split; [done|].
      destruct (Hf l Hl) as ([?|?] & ? & ?); [auto|congruence].
    - rewrite lookup_alter_ne by done. exists l'. auto. }
  assert (Hl' : ∀ q l, sw_loops s !! q = Some l → ∃ l', alter f o (sw_loops s) !! q = Some l' ∧
    (sl_csock l = None → sl_csock l' = None) ∧ (sl_finalized l = true → sl_finalized l' = true)).
  { intros q l Hq. destruct (decide (o = q)) as [<-|Hne].
    - exists (f l). rewrite lookup_alter_eq, Hq. split; [done|].
      destruct (Hf l Hq) as ([?|?] & ? & ?); split; congruence || done.
    - exists l. by rewrite lookup_alter_ne. }
  split; cbn.
  - intros g Hg. destruct (H1 g Hg) as [|(q & l & Hp & Hq & Hfin)]; [by left|right].
    destruct (Hl' q l Hq) as (l' & ? & ? & ?). exists q, l'. auto.
  - intros g q Hg Hq. destruct (H2 g q Hg Hq) as [Hp Ha]. split; [done|]. intros l' Hl1 Hc.
    destruct (Hl q l' Hl1) as (l & Hl2 & E1). destruct E1 as [E1 E2]; [congruence|].
    intros He. apply E2. apply (Ha l Hl2); [congruence|done].
  - intros q l' g Hq Hc. destruct (Hl q l' Hq) as (l & Hl2 & E1). destruct E1 as [E1 E2]; [congruence|].
    apply (H3 q l); [done|congruence].
  - intros sigs g q Hin. destruct (H4 sigs g q Hin) as (Hg & l & Hq & Hc & Hfin). split; [done|].
    destruct (Hl' q l Hq) as (l' & ? & ? & ?). exists l'. auto.
  - done.
Qed.

Lemma keeping_wp {A} (I : sworld → Prop) (m : M sworld A) :
  (∀ s, I s → wp m (λ _, I) (λ _, I) s) → stable (keeping I) m.
Proof.
  intros H s. unfold keeping. specialize (H s). unfold wp in *.
  destruct (m s) as [[a|e] s']; by intros HI; apply H.
Qed.
Lemma keeping_run {A} (I : sworld → Prop) (m : M sworld A) s :
  stable (keeping I) m → I s → wp m (λ _, I) (λ _, I) s.
Proof. intros H HI. eapply wp_mono; [apply H|by auto..]. Qed.

(** With nothing installed it does not matter whose it was. *)
Lemma wok_removed e x p p' s : wok e x p s → wok e x p' (set_wfd None s).
Proof. intros [H1 H2 H3 H4 H5]. by split. Qed.
Lemma wok_none e x p p' s : sw_wfd s = None → wok e x p s → wok e x p' s.
Proof. intros Hn [H1 H2 H3 H4 H5]. by split; rewrite ?Hn. Qed.

(** The record only reads these parts of the world. *)
Lemma wok_same e x p s s' :
  sw_loops s' = sw_loops s → sw_wfd s' = sw_wfd s → sw_fds s' = sw_fds s →
  sw_deferred s' = sw_deferred s → wok e x p s → wok e x p s'.
Proof. intros E1 E2 E3 E4 [H1 H2 H3 H4 H5]. by split; rewrite ?E1, ?E2, ?E3, ?E4. Qed.

(** Closing a descriptor nobody refers to any more. *)
Lemma wok_delete e x p s f o :
  sw_fds s !! f = Some o →
  (sw_wfd s = Some f → ∃ l, sw_loops s !! o = Some l ∧ sl_finalized l = true) →
  (∀ l, sw_loops s !! o = Some l → sl_csock l ≠ Some f) →
  (∀ sigs, (sigs, f, o) ∉ x ++ sw_deferred s) →
  wok e x p s → wok e x p (upd_sfds (delete f) s).
Proof.
  intros Hf Hw Hc Hd [H1 H2 H3 H4 H5]. split; cbn.
  - intros g Hg. destruct (decide (f = g)) as [<-|Hne].
    + right. destruct (Hw Hg) as (l & ? & ?). exists o, l. by destruct (H2 f o Hg Hf).
    + rewrite lookup_delete_ne by done. by apply H1.
  - intros g q Hg [Hne Hq]%lookup_delete_Some. by apply H2.
  - intros q l' g Hq Hg. apply lookup_delete_Some. split; [|by apply (H3 q l')].
    intros <-. pose proof (H3 q l' f Hq Hg). apply (Hc l'); congruence.
  - intros sigs' g q Hin. destruct (H4 sigs' g q) as (Hg & l' & ?); [done|].
    split; [|by exists l']. apply lookup_delete_Some. split; [|done]. intros <-.
    apply (Hd sigs'). congruence.
  - done.
Qed.

(** Closing the descriptor of a cleanup that is running. *)
Lemma wok_drop e y x p s : wok e (y :: x) p s → wok e x p s.
Proof.
  intros [H1 H2 H3 H4 H5]. split; [done..| |by apply NoDup_cons in H5 as []].
  intros sigs f o Hin. apply (H4 sigs f o). by right.
Qed.
Lemma wok_finish e sigs f o x p s :
  wok e ((sigs, f, o) :: x) p s → wok e x p (upd_sfds (delete f) s).
Proof.
  intros H. destruct (k_def _ _ _ _ H sigs f o) as (Hf & l & Hl & Hc & Hfin); [left|].
  apply (wok_delete _ _ _ _ _ o); [done|by exists l|congruence| |by eapply wok_drop].
  intros sigs' Hin. pose proof (k_nodup _ _ _ _ H) as Hn. cbn in Hn. apply NoDup_cons in Hn as [Hn _].
  apply Hn, list_elem_of_fmap. by exists (sigs', f, o).
Qed.
Lemma strict_finish e sigs f o x s :
  wok e ((sigs, f, o) :: x) (sw_wowner s) s → strict s → sw_wowner s ≠ Some o →
  strict (upd_sfds (delete f) s).
Proof.
  intros [_ H2 _ H4 _] Hs Hn g Hg. destruct (H4 sigs f o) as (Hf & _); [left|]. cbn in *.
  rewrite lookup_delete_ne; [by apply Hs|]. intros <-. by destruct (H2 f o Hg Hf).
Qed.

(** Detaching a loop's descriptor for its cleanup. *)
Lemma wok_detach e x p s o l f sigs :
  sw_loops s !! o = Some l → sl_csock l = Some f → sl_finalized l = true → wok e x p s →
  wok e ((sigs, f, o) :: x) p (upd_loops (alter (with_csock None) o) s).
Proof.
  intros Hl Hc Hfin [H1 H2 H3 H4 H5].
  assert (Hno : o ∉ (x ++ sw_deferred s).*2).
  { intros [[[sigs' g] q] [E Hin]]%list_elem_of_fmap. cbn in E. subst q.
    destruct (H4 sigs' g o Hin) as (_ & l' & Hl' & Hc' & _). congruence. }
  assert (Hat : ∀ q l', alter (with_csock None) o (sw_loops s) !! q = Some l' →
    (q = o ∧ l' = with_csock None l) ∨ (q ≠ o ∧ sw_loops s !! q = Some l')).
  { intros q l'. destruct (decide (o = q)) as [<-|Hne].
    - rewrite lookup_alter_eq, Hl. intros [= <-]. by left.
    - rewrite lookup_alter_ne by done. by right. }
  assert (Ho : alter (with_csock None) o (sw_loops s) !! o = Some (with_csock None l)) by by rewrite lookup_alter_eq, Hl.
  split; cbn.
  - intros g Hg. destruct (H1 g Hg) as [|(q & lq & Hp & Hq & Hf)]; [by left|right]. exists q.
    destruct (decide (q = o)) as [->|Hne]; [exists (with_csock None l); split; [done|split; [done|by cbn]]|].
    exists lq. by rewrite lookup_alter_ne.
  - intros g q Hg Hq. destruct (H2 g q Hg Hq) as [Hp Ha]. split; [done|].
    intros l' [[-> ->]|[Hne Hl']]%Hat Hc'; [done|by apply Ha].
  - intros q l' g [[-> ->]|[Hne Hl']]%Hat Hc'; [done|by apply (H3 q l')].
  - intros sigs' g q [[= -> -> ->]|Hin]%elem_of_cons.
    + split; [by apply (H3 o l)|]. by exists (with_csock None l).
    + destruct (H4 sigs' g q Hin) as (Hg & l' & Hl' & ?). split; [done|]. exists l'.
      rewrite lookup_alter_ne; [done|]. intros <-. apply Hno, list_elem_of_fmap. by exists (sigs', g, o).
  - apply NoDup_cons. done.
Qed.
Lemma wok_detach_forget e x p s o l f sigs :
  sw_loops s !! o = Some l → sl_csock l = Some f → sl_finalized l = true → wok e x p s →
  wok e ((sigs, f, o) :: x) p (upd_loops (alter forget o) s).
Proof.
  intros Hl Hc Hf Hk. set (s1 := upd_loops (alter (with_csock None) o) s).
  assert (Hk1 : wok e ((sigs, f, o) :: x) p s1) by by apply (wok_detach _ _ _ _ _ l).
  apply (wok_same _ _ _ (upd_loops (alter forget o) s1)); try done.
  - apply map_eq. intros q. cbn. destruct (decide (o = q)) as [<-|Hne].
    + by rewrite !lookup_alter_eq, Hl.
    + by rewrite !lookup_alter_ne.
  - apply wok_upd_loop; [|done]. intros l'. cbn. rewrite lookup_alter_eq, Hl. intros [= <-].
    split; [by right|]. by split.
Qed.
(** Closing a descriptor that is not installed and needs no cleanup. *)
Lemma wok_shut e x p s o l f :
  sw_loops s !! o = Some l → sl_csock l = Some f → sw_wfd s ≠ Some f → wok e x p s →
  wok e x p (upd_sfds (delete f) (upd_loops (alter (with_csock None) o) s)).
Proof.
  intros Hl Hc Hw Hk. apply (wok_delete _ _ _ _ _ o); cbn.
  - by apply (k_csock _ _ _ _ Hk o l).
  - done.
  - rewrite lookup_alter_eq, Hl. by intros l' [= <-].
  - intros sigs Hin. destruct (k_def _ _ _ _ Hk sigs f o Hin) as (_ & l' & ? & ? & _). congruence.
  - apply wok_upd_loop; [|done]. intros l' _. split; [by right|]. by split.
Qed.

(** Where the main thread stands: outside any operation on a particular loop, or in one on
    loop [me], whose attributes are [l] and which is in use; in the latter case it may be
    inside the installation of the loop's descriptor, when the one installed is still
    [p]'s, or have just put back the descriptor of a previous owner, which may be closing. *)
Inductive phase := Idle | Installing (p : option nat) | Restored.
Abbreviation mode := (option (nat * sloop * phase)).
Inductive kind := KSettled | KInstalling (me : nat) (p : option nat) | KRestored.
Definition kind_of (m : mode) : kind :=
  match m with
  | Some (me, _, Installing p) => KInstalling me p
  | Some (_, _, Restored) => KRestored
  | _ => KSettled
  end.
Definition pinned (m : mode) (s : sworld) : Prop :=
  match m with
  | Some (me, l, _) => sw_loops s !! me = Some l ∧ sl_finalized l = false
  | None => True
  end.
Definition core (t : kind) x (s : sworld) : Prop :=
  match t with
  | KSettled => wok None x (sw_wowner s) s ∧ strict s
  | KInstalling me p => wok (Some me) x p s ∧ sw_wowner s = Some me
  | KRestored => wok None x (sw_wowner s) s ∧ True
  end.
Definition exempt (t : kind) : option nat := match t with KInstalling me _ => Some me | _ => None end.
Definition J (m : mode) x (s : sworld) : Prop := core (kind_of m) x s ∧ pinned m s.
Definition apart (m : mode) (o : nat) : Prop := match m with Some (me, _, _) => o ≠ me | None => True end.
Lemma apart_exempt m o : apart m o → exempt (kind_of m) ≠ Some o.
Proof. destruct m as [[[me l] [|p|]]|]; cbn; congruence. Qed.
Definition installing (m : mode) : bool := match kind_of m with KInstalling _ _ => true | _ => false end.

Lemma core_wok t x s : core t x s → ∃ p, wok (exempt t) x p s.
Proof. destruct t; intros [? _]; by eexists. Qed.
Lemma J_wok m x s : J m x s → ∃ p, wok (exempt (kind_of m)) x p s.

Proof. intros [H _]. by eapply core_wok. Qed.
Lemma pinned_loop m o f s : apart m o → pinned m s → pinned m (upd_loops (alter f o) s).
Proof. destruct m as [[[me l] p]|]; [|done]. cbn. intros Hne [? ?]. by rewrite lookup_alter_ne. Qed.
Lemma J_same m x s s' :
  sw_loops s' = sw_loops s → sw_wfd s' = sw_wfd s → sw_fds s' = sw_fds s →
  sw_deferred s' = sw_deferred s → sw_wowner s' = sw_wowner s → J m x s → J m x s'.
Proof.
  intros E1 E2 E3 E4 E5 [H0 Hp]. split.
  - revert H0. destruct (kind_of m) as [|me p|]; intros [H1 H2].
    + split; [rewrite E5; by eapply wok_same|]. intros f. rewrite E2, E3. apply H2.
    + split; [by eapply wok_same|congruence].
    + split; [rewrite E5; by eapply wok_same|done].
  - revert Hp. unfold pinned. by rewrite E1.
Qed.
Lemma J_loop m x s o f :
  apart m o →
  (∀ l, sw_loops s !! o = Some l → (sl_csock (f l) = sl_csock l ∨ sl_csock (f l) = None) ∧
        (sl_csock (f l) ≠ None → sl_attached l = true → sl_attached (f l) = true) ∧
        (sl_finalized l = true → sl_finalized (f l) = true)) →
  J m x s → J m x (upd_loops (alter f o) s).
Proof.
  intros Ha Hf [H0 Hp]. split; [|by apply pinned_loop].
  destruct (kind_of m); destruct H0 as [H1 H2]; (split; [by apply wok_upd_loop|done]).
Qed.
(** Removing the installed descriptor, then its owner. *)
Lemma core_removed m x s : core (kind_of m) x s → core (kind_of m) x (set_wfd None s).
Proof. destruct (kind_of m); intros [H1 H2]; (split; [by eapply wok_removed|done]). Qed.
Lemma core_no_owner m x s :
  installing m = false → sw_wfd s = None → core (kind_of m) x s → core (kind_of m) x (set_wowner None s).
Proof.
  assert (Hk : ∀ e p, sw_wfd s = None → wok e x p s → wok e x None (set_wowner None s)).
  { intros e p Hn H. apply (wok_same e x None s); [done..|]. by eapply wok_none. }
  unfold installing. destruct (kind_of m); [|done|]; intros _ Hn [H1 H2]; (split; [by eapply Hk|done]).
Qed.
(** Forgetting that the descriptor is attached, once it is not the installed one. *)
Lemma wok_detached e x s o :
  sw_wowner s ≠ Some o → wok e x (sw_wowner s) s → wok e x (sw_wowner s) (upd_loops (alter (with_attached false) o) s).
Proof.
  intros Hn [H1 H2 H3 H4 H5].
  assert (Hl : ∀ q l', alter (with_attached false) o (sw_loops s) !! q = Some l' →
    ∃ l, sw_loops s !! q = Some l ∧ sl_csock l' = sl_csock l ∧ (q ≠ o → l' = l)).
  { intros q l'. destruct (decide (o = q)) as [<-|Hne].
    - rewrite lookup_alter_eq. intros (l & Hl & ->)%fmap_Some. by exists l.
    - rewrite lookup_alter_ne by done. by exists l'. }
  assert (Hl' : ∀ q l, sw_loops s !! q = Some l → ∃ l', alter (with_attached false) o (sw_loops s) !! q = Some l' ∧
    sl_csock l' = sl_csock l ∧ sl_finalized l' = sl_finalized l).
  { intros q l Hq. destruct (decide (o = q)) as [<-|Hne].
    - eexists. by rewrite lookup_alter_eq, Hq.
    - exists l. by rewrite lookup_alter_ne. }
  split; cbn.
  - intros f Hf. destruct (H1 f Hf) as [|(q & l & Hp & Hq & Hfin)]; [by left|right].
    destruct (Hl' q l Hq) as (l' & ? & ? & ?). exists q, l'. split; [done|split; congruence].
  - intros f q Hf Hq. destruct (H2 f q Hf Hq) as [Hp Ha]. split; [done|]. intros l' Hl1 Hc.
    destruct (Hl q l' Hl1) as (l & Hl2 & E & E'). intros He. rewrite E' by congruence. apply (Ha l Hl2); [congruence|done].
  - intros q l' f Hq Hc. destruct (Hl q l' Hq) as (l & Hl2 & E & _). apply (H3 q l); [done|congruence].
  - intros sigs f q Hin. destruct (H4 sigs f q Hin) as (Hf & l & Hq & Hc & Hfin). split; [done|].
    destruct (Hl' q l Hq) as (l' & ? & ? & ?). exists l'. split; [done|split; congruence].
  - done.
Qed.
Lemma core_detached m x s o :
  installing m = false → sw_wowner s ≠ Some o → core (kind_of m) x s →
  core (kind_of m) x (upd_loops (alter (with_attached false) o) s).
Proof.
  unfold installing. destruct (kind_of m); [|done|]; intros _ Hn [H1 H2]; (split; [exact (wok_detached None x s o Hn H1)|done]).
Qed.

(** Resetting dispositions and owners moves nothing else. *)
Section frame.
Context `{Env : SigEnv} (I : sworld → Prop) (Iy : ∀ s, I s → I (jump s)).
Context (Id : ∀ f s, I s → I (upd_disp f s)) (Io : ∀ f s, I s → I (upd_owners f s)).

Lemma frame_modify f : (∀ s, I s → I (f s)) → stable (keeping I) (modify f).
Proof. intros H. apply stable_modify. intros s. exact (H s). Qed.
Lemma frame_yield : stable (keeping I) yield_.
Proof. apply frame_modify, Iy. Qed.
Lemma frame_owners f : stable (keeping I) (modify (upd_owners f)).
Proof. apply frame_modify, Io. Qed.
Lemma frame_disp f : stable (keeping I) (modify (upd_disp f)).
Proof. apply frame_modify, Id. Qed.
Lemma frame_signal sig h : stable (keeping I) (signal_signal sig h).
Proof.
  pose proof frame_yield. pose proof frame_disp. unfold signal_signal, sig_sys.
  destruct on_main; [|apply stable_raise; apply _].
  repeat first [apply stable_bind; [apply _|..]; [|intros ?]|eauto 3 with stable typeclass_instances].
  destruct (sig_fails _); eauto 3 with stable typeclass_instances.
Qed.
Lemma frame_reset o sigs : stable (keeping I) (reset_signals o sigs).
Proof.
  unfold reset_signals. pose proof frame_signal. pose proof frame_owners.
  assert (H1 : stable (keeping I) (ret (None : option exn))) by eauto with stable typeclass_instances. revert H1.
  generalize (ret (W:=sworld) (None : option exn)). induction sigs as [|sig sigs IH]; intros acc H1; [exact H1|].
  cbn. apply IH. solve_stable. exact (Io _ _).
Qed.
End frame.

(** A loop stays known, its token stays finalized and its descriptor stays gone. *)
Definition mono (o : nat) (s s' : sworld) : Prop :=
  ∀ l, sw_loops s !! o = Some l → ∃ l', sw_loops s' !! o = Some l' ∧
    (sl_finalized l = true → sl_finalized l' = true) ∧ (sl_csock l = None → sl_csock l' = None).
#[local] Instance mono_preorder o : PreOrder (mono o).
Proof.
  split; [intros s l Hl; by exists l|]. intros s1 s2 s3 H1 H2 l Hl.
  destruct (H1 l Hl) as (l2 & Hl2 & ? & ?). destruct (H2 l2 Hl2) as (l3 & Hl3 & ? & ?). exists l3. auto.
Qed.
Lemma mono_same o s s' : sw_loops s' = sw_loops s → mono o s s'.
Proof. intros E l Hl. exists l. by rewrite E. Qed.
Lemma mono_loop o q f s :
  (∀ l, (sl_finalized l = true → sl_finalized (f l) = true) ∧ (sl_csock l = None → sl_csock (f l) = None)) →
  mono o s (upd_loops (alter f q) s).
Proof.
  intros Hf l Hl. cbn. destruct (decide (q = o)) as [->|Hne].
  - exists (f l). rewrite lookup_alter_eq, Hl. split; [done|apply Hf].
  - exists l. by rewrite lookup_alter_ne.
Qed.
#[local] Hint Resolve mono_same : stable.
Section monotone.
Context `{Env : SigEnv} (o : nat) (Hf : ∀ s, mono o s (jump s)).
Lemma mono_yield : stable (mono o) yield_.
Proof. by apply stable_modify. Qed.
Lemma mono_loop_upd q f :
  (∀ l, (sl_finalized l = true → sl_finalized (f l) = true) ∧ (sl_csock l = None → sl_csock (f l) = None)) →
  stable (mono o) (loop_upd f q).
Proof. intros H. apply stable_modify. intros s. by apply mono_loop. Qed.
Lemma mono_signal sig h : stable (mono o) (signal_signal sig h).
Proof. pose proof mono_yield. unfold signal_signal, sig_sys. solve_stable; by apply mono_same. Qed.
Lemma mono_set_wakeup f : stable (mono o) (set_wakeup_fd f).
Proof. pose proof mono_yield. unfold set_wakeup_fd, sig_sys. solve_stable; by apply mono_same. Qed.
Lemma mono_detach q : stable (mono o) (_detach_wakeup_fd q).
Proof.
  pose proof mono_set_wakeup. pose proof (mono_loop_upd q (with_attached false)).
  unfold _detach_wakeup_fd, attached, handlers, loop_get. solve_stable; by first [apply mono_same|apply H0].
Qed.
Lemma mono_remove q sig : stable (mono o) (remove_entry q sig).
Proof.
  pose proof mono_signal. pose proof mono_detach. pose proof (mono_loop_upd q (with_handlers (delete sig))).
  unfold remove_entry, handlers, loop_get. solve_stable; by first [apply mono_same|apply H1].
Qed.
Lemma mono_reset q sigs : stable (mono o) (reset_signals q sigs).
Proof.
  unfold reset_signals. pose proof mono_signal.
  assert (H1 : stable (mono o) (ret (None : option exn))) by eauto with stable typeclass_instances. revert H1.
  generalize (ret (W:=sworld) (None : option exn)). induction sigs as [|sig sigs IH]; intros acc H1; [exact H1|].
  cbn. apply IH. solve_stable.
Qed.
Lemma mono_cleanup sigs f q : stable (mono o) (_finish_deferred_signal_cleanup sigs f q).
Proof.
  pose proof mono_set_wakeup. pose proof mono_reset. pose proof (mono_loop_upd q with_finalized).
  unfold _finish_deferred_signal_cleanup. solve_stable; by first [apply mono_same|apply H1].
Qed.
End monotone.

Section keeping.
Context `{Env : SigEnv} (m : mode) (Hm : installing m = false ∨ on_main = false).
Context (Hy : ∀ x s, J m x s → J m x (jump s)).
Context (Hz : ∀ s, sw_wfd s = None → sw_wfd (jump s) = None).
Context (Hw : ∀ s o, sw_wowner (jump s) = Some o → sw_wowner s = Some o).

Lemma keep_modify x f : (∀ s, J m x s → J m x (f s)) → stable (keeping (J m x)) (modify f).
Proof. intros H. apply stable_modify. intros s. exact (H s). Qed.
Lemma keep_yield x : stable (keeping (J m x)) yield_.
Proof. apply keep_modify, Hy. Qed.
Lemma keep_signal x sig h : stable (keeping (J m x)) (signal_signal sig h).
Proof. apply frame_signal; [apply Hy|..]; intros f s; by apply (J_same _ _ s). Qed.
Lemma keep_loop x o f :
  apart m o →
  (∀ l, (sl_csock (f l) = sl_csock l ∨ sl_csock (f l) = None) ∧
        (sl_csock (f l) ≠ None → sl_attached l = true → sl_attached (f l) = true) ∧
        (sl_finalized l = true → sl_finalized (f l) = true)) →
  stable (keeping (J m x)) (loop_upd f o).
Proof. intros Ha Hf. apply keep_modify. intros s. apply J_loop; [done|]. intros l _. apply Hf. Qed.
Lemma keep_owners x f : stable (keeping (J m x)) (modify (upd_owners f)).
Proof. apply keep_modify. intros s. by apply (J_same _ _ s). Qed.

(** Removing the installed descriptor, then its owner. *)
Lemma wp_clear_wakeup x (Q : unit → sworld → Prop) E s :
  installing m = false → on_main = true → J m x s →
  (∀ s', J m x s' → sw_wowner s' = None → sw_wfd s' = None → Q tt s') →
  wp (set_wakeup_fd None ;; modify (set_wowner None)) Q E s.
Proof.
  intros Ht Hon H HQ. unfold set_wakeup_fd, yield_. rewrite Hon. wp_go.
  set (s1 := jump s). assert (H1 : J m x s1) by by apply Hy.
  assert (H2 : J m x (set_wfd None s1)).
  { destruct H1 as [H1 Hp]. split; [|done]. by apply core_removed. }
  assert (Hn : sw_wfd (jump (set_wfd None s1)) = None) by by apply Hz. apply HQ; [|done|exact Hn].
  apply Hy in H2 as [H2 Hp]. split; [|done]. by apply core_no_owner.
Qed.

Lemma wp_detach_wakeup x o (Q : unit → sworld → Prop) E s :
  apart m o → J m x s → (∀ s', J m x s' → Q tt s') → wp (_detach_wakeup_fd o) Q E s.
Proof.
  intros Ha H HQ. unfold _detach_wakeup_fd, attached, handlers, loop_get. do 4 wp_step.
  apply wp_when; intros Hc; [|by apply HQ].
  apply andb_prop in Hc as [[Hon _]%andb_prop _].
  assert (Ht : installing m = false) by (destruct Hm; congruence).
  assert (Hd : ∀ s', sw_wowner s' ≠ Some o → J m x s' → J m x (upd_loops (alter (with_attached false) o) s')).
  { intros s' Hn [H0 Hp]. split; [|by apply pinned_loop]. by apply core_detached. }
  wp_step. wp_step. wp_step. apply wp_when; intros Ho.
  - apply (wp_clear_wakeup x); [done..|]. intros s1 H1 Hw1 _. unfold loop_upd. wp_step. apply HQ.
    apply Hd; [|done]. by rewrite Hw1.
  - unfold loop_upd. wp_step. apply HQ. apply Hd; [|done]. by apply bool_decide_eq_false in Ho.
Qed.

Lemma keep_detach x o : apart m o → stable (keeping (J m x)) (_detach_wakeup_fd o).
Proof.
  intros Ha. apply keeping_wp. intros s H. by apply (wp_detach_wakeup x).
Qed.

Lemma handlers_loop x o f : apart m o → stable (keeping (J m x)) (loop_upd (with_handlers f) o).
Proof. intros Ha. apply keep_loop; [done|]. intros l. by split; [left|]. Qed.
Lemma keep_remove x o sig : apart m o → stable (keeping (J m x)) (remove_entry o sig).
Proof.
  intros Ha. unfold remove_entry, handlers, loop_get.
  pose proof (keep_signal x). pose proof (keep_detach x o Ha). pose proof (keep_owners x).
  pose proof (handlers_loop x o (delete sig) Ha). solve_stable. unfold keeping. by apply J_same.
Qed.
(** A cleanup, from the moment its descriptor is out of the loop's hands. *)
Lemma wp_run_cleanup sigs f o x s :
  (installing m = false → on_main = true) →
  J m ((sigs, f, o) :: x) s →
  wp (_finish_deferred_signal_cleanup sigs f o) (λ _, J m x) (λ _, J m x) s.
Proof.
  intros Hon H. destruct (J_wok _ _ _ H) as (p & Hp).
  destruct (k_def _ _ _ _ Hp sigs f o) as (_ & l & Hl & _ & Hfin); [left|].
  assert (Ha : apart m o).
  { destruct H as [_ H]. clear -H Hl Hfin. revert H. destruct m as [[[me l'] q]|]; [|done]. intros [Hl' Hf'] ->. congruence. }
  unfold _finish_deferred_signal_cleanup, loop_upd. do 2 wp_step.
  apply (J_loop _ _ _ o with_finalized Ha) in H; [|by split; [left|]].
  set (s1 := upd_loops _ s) in *. clearbody s1. clear Hp Hl p.
  assert (Hend : ∀ s', J m ((sigs, f, o) :: x) s' → sw_wowner s' ≠ Some o →
    wp (finally (failure <- reset_signals o sigs ;;
                 match failure with Some e => raise e | None => ret tt end)
          (modify (upd_sfds (delete f)))) (λ _, J m x) (λ _, J m x) s').
  { intros s' H' Hn'. apply wp_finally.
    assert (Hdel : ∀ s2, J m ((sigs, f, o) :: x) s2 ∧ sw_wowner s2 ≠ Some o → J m x (upd_sfds (delete f) s2)).
    { clear. intros s2 [[H2 Hp] Hn2]. split; [|done].
      destruct (kind_of m); destruct H2 as [H1 H2]; (split; [exact (wok_finish _ _ _ _ _ _ _ H1)|try done]).
      by apply (strict_finish None sigs f o x). }
    pose proof (frame_reset (λ s, J m ((sigs, f, o) :: x) s ∧ sw_wowner s ≠ Some o)) as Hr.
    assert (Hr' : stable (keeping (λ s, J m ((sigs, f, o) :: x) s ∧ sw_wowner s ≠ Some o)) (reset_signals o sigs)).
    { apply Hr.
      - intros s2 [? Hn2]. split; [by apply Hy|]. intros ?%Hw. done.
      - intros g s2 [? ?]. split; [by apply (J_same _ _ s2)|done].
      - intros g s2 [? ?]. split; [by apply (J_same _ _ s2)|done]. }
    apply wp_bind. eapply wp_mono; [apply (keeping_run _ _ _ Hr'); done| |].
    - intros [e|] s2 H2; cbn; unfold wp; cbn; by apply Hdel.
    - intros e s2 H2. unfold wp. cbn. by apply Hdel. }
  do 3 wp_step. apply wp_when; intros Ho.
  - apply bool_decide_eq_true in Ho. assert (Ht : installing m = false).
    { destruct H as [H _]. revert H Ha. clear -Ho. destruct m as [[[me l'] [|q|]]|]; [done| |done..]. cbn.
      intros [_ Hx]. congruence. }
    apply (wp_clear_wakeup ((sigs, f, o) :: x)); [done|by apply Hon|done|].
    intros s2 H2 Hn2 _. apply Hend; [done|congruence].
  - apply bool_decide_eq_false in Ho. by apply Hend.
Qed.

Lemma J_perm x x' g s :
  x ++ sw_deferred s ≡ₚ x' ++ g (sw_deferred s) → J m x s → J m x' (upd_deferred g s).
Proof.
  intros Hp.
  assert (Hk : ∀ e p, wok e x p s → wok e x' p (upd_deferred g s)).
  { intros e p [H1 H2 H3 H4 H5]. split; cbn; [done..| |].
    - intros sigs f o Hin. apply (H4 sigs f o). by rewrite Hp.
    - rewrite fmap_app. rewrite <-fmap_app, <-Hp. done. }
  clear -Hk. intros [H Hp]. split; [|done].
  destruct (kind_of m); destruct H as [H1 H2]; (split; [by apply Hk|done]).
Qed.

Lemma keep_deferred x : (installing m = false → on_main = true) → stable (keeping (J m x)) run_deferred.
Proof.
  intros Hon. apply keeping_wp. intros s H. unfold run_deferred. do 2 wp_step.
  destruct (sw_deferred s) as [|[[sigs f] o] rest] eqn:Hd; [by apply wp_ret|].
  do 2 wp_step. apply wp_run_cleanup; [done|].
  apply (J_perm x); [|done]. rewrite Hd. by rewrite <-Permutation_middle.
Qed.

(** The self-pipe of a loop whose descriptor is not installed. *)
Lemma wp_teardown x o s (Q : unit → sworld → Prop) E :
  apart m o →
  (∀ l, sw_loops s !! o = Some l → sl_csock l = None ∨ sl_attached l = false) →
  J m x s → (∀ s', J m x s' → Q tt s') → wp (_teardown_self_pipe o) Q E s.
Proof.
  intros Ha Hl H HQ. unfold _teardown_self_pipe, loop_upd, csock, loop_get. do 3 wp_step.
  apply (J_loop _ _ _ o (with_watch false) Ha) in H; [|by split; [left|]].
  assert (Hl' : ∀ l, sw_loops (upd_loops (alter (with_watch false) o) s) !! o = Some l →
    sl_csock l = None ∨ sl_attached l = false).
  { cbn. rewrite lookup_alter_eq. intros l (l0 & Hl0 & ->)%fmap_Some. exact (Hl l0 Hl0). }
  set (s1 := upd_loops _ s) in *. clearbody s1. clear Hl. wp_step.
  destruct (sw_loops s1 !! o) as [l|] eqn:Ho; [|by apply wp_ret, HQ]. cbv beta iota.
  destruct (sl_csock l) as [f|] eqn:Hc; [|by apply wp_ret, HQ].
  do 3 wp_step. apply HQ. destruct (Hl' l eq_refl) as [?|Hna]; [congruence|].
  assert (Hne : ∀ p, wok (exempt (kind_of m)) x p s1 → sw_wfd s1 ≠ Some f).
  { intros p Hk Hwf. destruct (k_who _ _ _ _ Hk f o Hwf) as [_ Hat]; [by apply (k_csock _ _ _ _ Hk o l)|].
    specialize (Hat l Ho Hc (apart_exempt m o Ha)). congruence. }
  clear -Ho Hc Hne H Ha. destruct H as [H Hp]. split; [|exact (pinned_loop m o _ _ Ha Hp)].
  assert (Hk : ∀ p, wok (exempt (kind_of m)) x p s1 →
    wok (exempt (kind_of m)) x p (upd_sfds (delete f) (upd_loops (alter (with_csock None) o) s1))).
  { intros p Hk. apply (wok_shut _ _ _ _ _ l); [done|done|by apply (Hne _ Hk)|done]. }
  destruct (kind_of m); destruct H as [H1 H2]; cbn in Hk, Hne; (split; [by apply Hk|]); [|done..].
  intros g Hg. cbn in *. rewrite lookup_delete_ne; [by apply H2|]. intros <-. by apply (Hne _ H1).
Qed.

(** The descriptor of a loop being closed is detached for its cleanup, or not installed. *)
Definition released (o : nat) (s : sworld) : Prop :=
  ∀ l, sw_loops s !! o = Some l → sl_csock l = None ∨ sl_attached l = false.
Definition dead (o : nat) (s : sworld) : Prop :=
  ∃ l, sw_loops s !! o = Some l ∧ sl_finalized l = true.
Lemma dead_mono o s s' : mono o s s' → dead o s → dead o s'.
Proof. intros H (l & Hl & Hf). destruct (H l Hl) as (l' & ? & ? & _). exists l'. auto. Qed.

Definition close_wakeup (o : nat) : M sworld unit :=
  hs' <- handlers o ;; at_ <- attached o ;; c <- csock o ;;
  match c with
  | Some f =>
      if negb (bool_decide (hs' = ∅)) || at_ then
        loop_upd forget o ;;
        if on_main then _finish_deferred_signal_cleanup (map_to_list hs').*1 f o
        else modify (upd_deferred (λ d, d ++ [((map_to_list hs').*1, f, o)]))
      else ret tt
  | None => ret tt
  end.

Lemma J_detach x o l f sigs s :
  apart m o → sw_loops s !! o = Some l → sl_csock l = Some f → sl_finalized l = true →
  J m x s → J m ((sigs, f, o) :: x) (upd_loops (alter forget o) s).
Proof.
  clear. intros Ha Hl Hc Hf [H Hp]. split; [|by apply pinned_loop].
  destruct (kind_of m); destruct H as [H1 H2]; (split; [by apply (wok_detach_forget _ _ _ _ _ l)|done]).
Qed.

Lemma wp_close_wakeup x o s :
  (∀ s, mono o s (jump s)) → apart m o → dead o s → J m x s →
  wp (close_wakeup o) (λ _ s', J m x s' ∧ released o s') (λ _ s', J m x s' ∧ released o s') s.
Proof.
  intros Hj Ha (l & Ho & Hfin) H. unfold close_wakeup, handlers, attached, csock, loop_get.
  do 6 wp_step. rewrite Ho. destruct (sl_csock l) as [f|] eqn:Hc.
  2:{ apply wp_ret. split; [done|]. intros l'. rewrite Ho. intros [= <-]. by left. }
  destruct (negb _ || sl_attached l) eqn:Hb.
  2:{ apply wp_ret. split; [done|]. intros l'. rewrite Ho. intros [= <-]. right. by apply orb_false_iff in Hb as []. }
  set (sigs := (map_to_list (sl_handlers l)).*1). unfold loop_upd. do 2 wp_step.
  set (s1 := upd_loops (alter forget o) _).
  assert (H1 : J m ((sigs, f, o) :: x) s1) by by apply (J_detach _ _ l).
  assert (Hn : ∃ l', sw_loops s1 !! o = Some l' ∧ sl_csock l' = None).
  { subst s1. cbn. rewrite lookup_alter_eq, Ho. cbn. by eexists. }
  clearbody s1. assert (Hon : on_main = true ∨ on_main = false) by (destruct on_main; auto).
  destruct Hon as [Hon|Hon]; rewrite Hon.
  - eapply wp_mono; [apply (wp_and _ _ _ _ _ _ (wp_run_cleanup sigs f o x s1 (λ _, Hon) H1) (mono_cleanup o Hj sigs f o s1))| |].
    all: intros ? s2 [H2 Hm2]; split; [done|].
    all: destruct Hn as (l' & Hl' & Hc'); destruct (Hm2 l' Hl') as (l2 & E2 & _ & Hc2).
    all: intros l3; rewrite E2; intros [= <-]; left; auto.
  - wp_step. split; [|].
    + apply (J_perm ((sigs, f, o) :: x)); [|done]. rewrite app_assoc. rewrite <-Permutation_cons_append. done.
    + destruct Hn as (l' & Hl' & Hc'). intros l3. cbn. rewrite Hl'. intros [= <-]. by left.
Qed.

Lemma keep_close x o :
  (∀ s, mono o s (jump s)) → apart m o → stable (keeping (J m x)) (close_loop o).
Proof.
  intros Hj Ha. apply keeping_wp. intros s H. unfold close_loop. fold (close_wakeup o).
  unfold loop_upd, handlers, loop_get. do 2 wp_step. destruct (sw_loops s !! o) as [l|] eqn:Ho; [|by apply wp_ret].
  destruct (sl_closed l); [by apply wp_ret|]. do 10 wp_step. rewrite Ho.
  set (s1 := upd_loops (alter with_finalized o) _).
  assert (H1 : J m x s1 ∧ dead o s1).
  { subst s1. split; [do 3 (apply J_loop; [done|by split; [left|]|]); done|].
    eexists. cbn. rewrite !lookup_alter_eq, Ho. by split. }
  clearbody s1. destruct H1 as [H1 Hd]. apply wp_finally.
  set (tail := finally (close_wakeup o) _).
  assert (Ht : ∀ s2, J m x s2 → dead o s2 → wp tail (λ _, J m x) (λ _, J m x) s2).
  { intros s2 H2 Hd2. subst tail. apply wp_finally. eapply wp_mono; [by apply wp_close_wakeup|..].
    all: cbn; intros ? s3 [H3 Hr3]; apply wp_finally; eapply (wp_teardown x o); [done|exact Hr3|done|].
    all: intros s4 H4; destruct (sl_executor l); wp_step; try done; by apply (J_same _ _ s4). }
  assert (Hloop : ∀ sigs, stable (keeping (λ s, J m x s ∧ dead o s)) (for_each sigs (λ sig, remove_entry o sig ;; ret tt))).
  { intros sigs. apply stable_for_each; [apply _|]. intros sig. apply keeping_wp. intros s2 [H2 Hd2].
    apply wp_bind. eapply wp_mono; [apply (wp_and _ _ _ _ _ _ (keeping_run _ _ _ (keep_remove x o sig Ha) H2) (mono_remove o Hj o sig s2))|..].
    - intros b s3 [? ?]. apply wp_ret. split; [done|by eapply dead_mono].
    - intros e s3 [? ?]. split; [done|by eapply dead_mono]. }
  eapply wp_mono; [apply (keeping_run _ _ _ (Hloop _)); by split|..].
  - intros _ s2 [? ?]. by apply Ht.
  - intros _ s2 [? ?]. by apply Ht.
Qed.
End keeping.

(** Nothing but the main thread's own operation installs a descriptor. *)
Definition shrinks (s s' : sworld) : Prop :=
  (sw_wfd s' = sw_wfd s ∨ sw_wfd s' = None) ∧ (sw_wowner s' = sw_wowner s ∨ sw_wowner s' = None).
#[local] Instance shrinks_preorder : PreOrder shrinks.
Proof.
  split; [by intros s; split; left|]. intros s1 s2 s3 [A1 A2] [B1 B2].
  split; [destruct A1, B1|destruct A2, B2]; first [left; congruence|right; congruence].
Qed.
Lemma shrinks_same s s' : sw_wfd s' = sw_wfd s → sw_wowner s' = sw_wowner s → shrinks s s'.
Proof. by split; left. Qed.
#[local] Hint Resolve shrinks_same : stable.
Section shrinking.
Context `{Env : SigEnv} (Hs : ∀ s, shrinks s (jump s)).
Lemma shrinks_signal sig h : stable shrinks (signal_signal sig h).
Proof.
  assert (stable shrinks yield_) by by apply stable_modify.
  unfold signal_signal, sig_sys. solve_stable.
Qed.
Lemma shrinks_remove_wakeup : stable shrinks (set_wakeup_fd None).
Proof.
  assert (stable shrinks yield_) by by apply stable_modify.
  unfold set_wakeup_fd. solve_stable. by split; [right|left].
Qed.
Lemma shrinks_loop f o : stable shrinks (loop_upd f o).
Proof. apply stable_modify. intros s. by apply shrinks_same. Qed.
Lemma shrinks_no_owner : stable shrinks (modify (set_wowner None)).
Proof. apply stable_modify. intros s. by split; [left|right]. Qed.
Lemma shrinks_detach o : stable shrinks (_detach_wakeup_fd o).
Proof.
  pose proof shrinks_remove_wakeup. pose proof shrinks_loop.
  unfold _detach_wakeup_fd, attached, handlers, loop_get. solve_stable. by split; [left|right].
Qed.
Lemma shrinks_remove o sig : stable shrinks (remove_entry o sig).
Proof.
  pose proof shrinks_signal. pose proof shrinks_detach. pose proof shrinks_loop.
  unfold remove_entry, handlers, loop_get. solve_stable.
Qed.
Lemma shrinks_reset o sigs : stable shrinks (reset_signals o sigs).
Proof.
  unfold reset_signals. pose proof shrinks_signal.
  assert (H1 : stable shrinks (ret (None : option exn))) by eauto with stable typeclass_instances. revert H1.
  generalize (ret (W:=sworld) (None : option exn)). induction sigs as [|sig sigs IH]; intros acc H1; [exact H1|].
  cbn. apply IH. solve_stable.
Qed.
Lemma shrinks_cleanup sigs f o : stable shrinks (_finish_deferred_signal_cleanup sigs f o).
Proof.
  pose proof shrinks_remove_wakeup. pose proof shrinks_reset. pose proof shrinks_loop.
  unfold _finish_deferred_signal_cleanup. solve_stable. by split; [left|right].
Qed.
Lemma shrinks_deferred : stable shrinks run_deferred.
Proof. pose proof shrinks_cleanup. unfold run_deferred. solve_stable. Qed.
Lemma shrinks_close o : stable shrinks (close_loop o).
Proof.
  pose proof shrinks_cleanup. pose proof shrinks_loop. pose proof shrinks_remove.
  unfold close_loop, _teardown_self_pipe, handlers, attached, csock, loop_get. solve_stable.
Qed.
End shrinking.

(** Every other loop of the process, too, only moves on. *)
Section others.
Context `{Env : SigEnv} (o : nat) (Hf : ∀ s, mono o s (jump s)).
Lemma mono_deferred : stable (mono o) run_deferred.
Proof. pose proof (mono_cleanup o Hf). unfold run_deferred. solve_stable. Qed.
Lemma mono_close q : stable (mono o) (close_loop q).
Proof.
  pose proof (mono_cleanup o Hf). pose proof (mono_remove o Hf).
  assert (Hl : ∀ f, (∀ l, (sl_finalized l = true → sl_finalized (f l) = true) ∧ (sl_csock l = None → sl_csock (f l) = None)) →
    stable (mono o) (loop_upd f q)) by (intros f; by apply mono_loop_upd).
  unfold close_loop, _teardown_self_pipe, handlers, attached, csock, loop_get.
  solve_stable; by first [apply mono_same|apply Hl].
Qed.
End others.

(** ** Interference keeps every invariant *)
Lemma quiet_J main failing m x s :
  J m x s → J m x (jump (Env := quiet_env main failing) s).
Proof. by apply J_same. Qed.
Lemma quiet_mono main failing o s : mono o s (jump (Env := quiet_env main failing) s).
Proof. by apply mono_same. Qed.
Lemma quiet_shrinks main failing s : shrinks s (jump (Env := quiet_env main failing) s).
Proof. by apply shrinks_same. Qed.

Lemma stable_snd {A} (R : relation sworld) (c : M sworld A) s : stable R c → R s (c s).2.
Proof. intros H. specialize (H s). unfold wp in H. by destruct (c s) as [[a|e] s']. Qed.

Lemma interferes_keeps me m x s s' :
  (∀ o, o ≠ me → apart m o) → interferes me s s' → J m x s → J m x s'.
Proof.
  intros Ha Hi. destruct Hi as [s o Hne|s o failing Hne|s failing].
  - apply J_loop; [by apply Ha|by split; [left|]].
  - refine (stable_snd (keeping (J m x)) _ s _).
    apply (keep_close (Env := quiet_env false failing)).
    all: first [by right|by apply Ha|by (intros; apply quiet_J)|by (intros; apply quiet_mono)|by intros].
  - refine (stable_snd (keeping (J m x)) _ s _). apply (keep_deferred (Env := quiet_env true failing)).
    all: first [by (intros; apply quiet_J)|by intros].
Qed.
Lemma interferes_shrinks me s s' : interferes me s s' → shrinks s s'.
Proof.
  intros [s0 o Hne|s0 o failing Hne|s0 failing].
  - by apply shrinks_same.
  - apply stable_snd, shrinks_close. apply quiet_shrinks.
  - apply stable_snd, shrinks_deferred. apply quiet_shrinks.
Qed.
Lemma interferes_mono me q s s' : interferes me s s' → mono q s s'.
Proof.
  intros [s0 o Hne|s0 o failing Hne|s0 failing].
  - by apply mono_loop.
  - apply stable_snd, mono_close. apply quiet_mono.
  - apply stable_snd, mono_deferred. apply quiet_mono.
Qed.

Section lawful.
Context `{Env : SigEnv} (me : nat) {EOk : SigOk Env me}.

Lemma jump_keeps m x s : (∀ o, o ≠ me → apart m o) → J m x s → J m x (jump s).
Proof.
  intros Ha H. apply (J_same m x (sig_intf (sw_tick s) s)); try done.
  pose proof (sig_intf_ok (sw_tick s) s) as Hr. revert H Hr. generalize (sig_intf (sw_tick s) s).
  intros s' H Hr. induction Hr as [|s1 s2 s3 H12 _ IH]; [done|]. by eapply IH, interferes_keeps.
Qed.
Lemma jump_rel (R : relation sworld) s :
  PreOrder R → (∀ s s', interferes me s s' → R s s') → (∀ f s, R s (upd_tick f s)) → R s (jump s).
Proof.
  intros HR Hi Ht. unfold jump. etrans; [|apply Ht].
  pose proof (sig_intf_ok (sw_tick s) s) as Hr. induction Hr as [|s1 s2 s3 H12 _ IH]; [done|].
  etrans; [by apply Hi|done].
Qed.
Lemma jump_shrinks s : shrinks s (jump s).
Proof. apply jump_rel; [apply _|apply interferes_shrinks|intros f s0; by apply shrinks_same]. Qed.
Lemma jump_mono o s : mono o s (jump s).
Proof. apply jump_rel; [apply _|intros s1 s2; apply interferes_mono|intros f s0; by apply mono_same]. Qed.
Lemma jump_none s : sw_wfd s = None → sw_wfd (jump s) = None.
Proof. destruct (jump_shrinks s) as [[]_]; congruence. Qed.
Lemma jump_wowner s o : sw_wowner (jump s) = Some o → sw_wowner s = Some o.
Proof. destruct (jump_shrinks s) as [_ []]; congruence. Qed.

End lawful.

(** ** What a snapshot of the wakeup state stays good for

    Nothing in between opens a descriptor, and a loop whose descriptor is still its own has
    not forgotten that it is attached. *)
Definition older (s s' : sworld) : Prop :=
  (∀ f o, sw_fds s' !! f = Some o → sw_fds s !! f = Some o) ∧
  (∀ o l' f, sw_loops s' !! o = Some l' → sl_csock l' = Some f →
     ∃ l, sw_loops s !! o = Some l ∧ sl_csock l = Some f ∧ (sl_attached l = true → sl_attached l' = true)).
#[local] Instance older_preorder : PreOrder older.
Proof.
  split; [intros s; split; [done|]; intros o l' f ? ?; by exists l'|].
  intros s1 s2 s3 [A1 A2] [B1 B2]. split; [auto|]. intros o l' f Hl Hc.
  destruct (B2 o l' f Hl Hc) as (l2 & Hl2 & Hc2 & ?). destruct (A2 o l2 f Hl2 Hc2) as (l1 & ? & ? & ?).
  exists l1. auto.
Qed.
Lemma older_same s s' : sw_loops s' = sw_loops s → sw_fds s' = sw_fds s → older s s'.
Proof. intros E1 E2. split; [by rewrite E2|]. intros o l' f. rewrite E1. intros ? ?. by exists l'. Qed.
Lemma older_delete f s : older s (upd_sfds (delete f) s).
Proof.
  split; [|intros o l' g ? ?; by exists l'].
  intros g o. cbn. by intros [_ ?]%lookup_delete_Some.
Qed.
Definition growing (f : sloop → sloop) : Prop :=
  ∀ l, sl_csock (f l) ≠ None → sl_csock (f l) = sl_csock l ∧ (sl_attached l = true → sl_attached (f l) = true).
Lemma older_loop o f s : growing f → older s (upd_loops (alter f o) s).
Proof.
  intros Hf. split; [done|]. intros q l' g. cbn. destruct (decide (o = q)) as [<-|Hne].
  - rewrite lookup_alter_eq. intros (l & Hl & ->)%fmap_Some Hc. exists l.
    destruct (Hf l) as [E ?]; [congruence|]. split; [done|split; [congruence|done]].
  - rewrite lookup_alter_ne by done. intros Hl Hc. by exists l'.
Qed.
#[local] Hint Resolve older_same older_delete : stable.
Section olders.
Context `{Env : SigEnv} (Hs : ∀ s, older s (jump s)).
Lemma older_yield : stable older yield_.
Proof. by apply stable_modify. Qed.
Lemma older_loop_upd f o : growing f → stable older (loop_upd f o).
Proof. intros Hf. apply stable_modify. intros s. by apply older_loop. Qed.
Lemma older_signal sig h : stable older (signal_signal sig h).
Proof. pose proof older_yield. unfold signal_signal, sig_sys. solve_stable. Qed.
Lemma older_set_wakeup f : stable older (set_wakeup_fd f).
Proof. pose proof older_yield. unfold set_wakeup_fd, sig_sys. solve_stable. Qed.
Lemma older_reset o sigs : stable older (reset_signals o sigs).
Proof.
  unfold reset_signals. pose proof older_signal.
  assert (H1 : stable older (ret (None : option exn))) by eauto with stable typeclass_instances. revert H1.
  generalize (ret (W:=sworld) (None : option exn)). induction sigs as [|sig sigs IH]; intros acc H1; [exact H1|].
  cbn. apply IH. solve_stable.
Qed.
Lemma older_cleanup sigs f o : stable older (_finish_deferred_signal_cleanup sigs f o).
Proof.
  pose proof older_set_wakeup. pose proof older_reset. pose proof (older_loop_upd with_finalized o).
  unfold _finish_deferred_signal_cleanup. solve_stable. by apply H1.
Qed.
Lemma older_deferred : stable older run_deferred.
Proof. pose proof older_cleanup. unfold run_deferred. solve_stable. Qed.
Lemma older_remove o sig : on_main = false → stable older (remove_entry o sig).
Proof.
  intros Hm. pose proof older_signal. pose proof (older_loop_upd (with_handlers (delete sig)) o).
  assert (stable older (_detach_wakeup_fd o)).
  { unfold _detach_wakeup_fd. rewrite Hm. unfold attached, handlers, loop_get, when_. cbn. solve_stable. }
  unfold remove_entry, handlers, loop_get. solve_stable. by apply H0.
Qed.
Lemma older_close o : on_main = false → stable older (close_loop o).
Proof.
  intros Hm. pose proof older_cleanup. pose proof (λ sig, older_remove o sig Hm).
  assert (Hl : ∀ f, growing f → stable older (loop_upd f o)) by (intros f; apply older_loop_upd).
  unfold close_loop, _teardown_self_pipe, handlers, attached, csock, loop_get. solve_stable; by apply Hl.
Qed.
End olders.

Lemma quiet_older main failing s : older s (jump (Env := quiet_env main failing) s).
Proof. by apply older_same. Qed.
Lemma interferes_older me s s' : interferes me s s' → older s s'.
Proof.
  intros [s0 o Hne|s0 o failing Hne|s0 failing].
  - apply older_loop. by intros l.
  - apply stable_snd, (older_close (Env := quiet_env false failing)); [apply quiet_older|done].
  - apply stable_snd, older_deferred. apply quiet_older.
Qed.

(** [f0] may be put back as [p0]'s. *)
Definition snapshot (f0 p0 : option nat) (s : sworld) : Prop :=
  ∀ f o, f0 = Some f → sw_fds s !! f = Some o →
    p0 = Some o ∧ ∀ l, sw_loops s !! o = Some l → sl_csock l = Some f → sl_attached l = true.
Lemma snapshot_older f0 p0 s s' : older s s' → snapshot f0 p0 s → snapshot f0 p0 s'.
Proof.
  intros [O1 O2] H f o Hf Ho. destruct (H f o Hf (O1 f o Ho)) as [Hp Ha]. split; [done|].
  intros l Hl Hc. destruct (O2 o l f Hl Hc) as (l0 & Hl0 & Hc0 & Hat). by apply Hat, (Ha l0).
Qed.

(** ** Installing and restoring the descriptor *)
Section installation.
Context `{Env : SigEnv} (me : nat) {EOk : SigOk Env me}.
Definition in_use (l : sloop) (ph : phase) : mode := Some (me, l, ph).

Lemma jump_older s : older s (jump s).
Proof. apply (jump_rel me); [apply _|apply interferes_older|intros f s0; by apply older_same]. Qed.
(** What a stretch of the operation, or what happens in between, does to the rest. *)
Definition onward (s s' : sworld) : Prop := older s s' ∧ shrinks s s'.
#[local] Instance onward_preorder : PreOrder onward.
Proof. split; [intros s; by split|]. intros s1 s2 s3 [] []. split; by etrans. Qed.

Lemma wp_yield l ph x (Q : unit → sworld → Prop) E s :
  J (in_use l ph) x s → (∀ s', J (in_use l ph) x s' → onward s s' → Q tt s') → wp yield_ Q E s.
Proof.
  intros H HQ. unfold yield_. wp_step. apply HQ; [by apply (jump_keeps me)|].
  split; [apply jump_older|apply (jump_shrinks me)].
Qed.
Lemma wp_sig_sys l ph x (Q : unit → sworld → Prop) (E : exn → sworld → Prop) s :
  J (in_use l ph) x s → (∀ s', J (in_use l ph) x s' → onward s s' → Q tt s') →
  (∀ n s', J (in_use l ph) x s' → onward s s' → E (oserror n "Invalid argument") s') → wp sig_sys Q E s.
Proof.
  intros H HQ HE. unfold sig_sys. do 3 wp_step. eapply wp_yield; [done|]. intros s' H' Ho.
  destruct (sig_fails _); wp_step; [by apply HE|by apply HQ].
Qed.

Lemma wp_finalized_opt l ph x o (Q : bool → sworld → Prop) E s :
  J (in_use l ph) x s →
  (∀ b s', J (in_use l ph) x s' → onward s s' →
     (b = false → ∀ q lq, o = Some q → sw_loops s' !! q = Some lq → sl_finalized lq = false) → Q b s') →
  wp (finalized_opt o) Q E s.
Proof.
  intros H HQ. unfold finalized_opt, is_finalized, loop_get. destruct o as [q|].
  - wp_step. eapply wp_yield; [done|]. intros s' H' Hs. wp_step. apply HQ; [done|done|].
    intros Hf q' lq [= <-] Hq. by rewrite Hq in Hf.
  - wp_step. by apply HQ.
Qed.

(** Changing the loop's own attributes. *)
Lemma J_own l ph x s f :
  sl_csock (f l) = sl_csock l → sl_finalized (f l) = sl_finalized l →
  (sl_attached l = true → sl_attached (f l) = true) →
  J (in_use l ph) x s → J (in_use (f l) ph) x (upd_loops (alter f me) s).
Proof.
  intros Hc Hf Ha [H [Hl Hn]]. split; [|split; [cbn; by rewrite lookup_alter_eq, Hl|congruence]].
  assert (Hk : ∀ e p, wok e x p s → wok e x p (upd_loops (alter f me) s)).
  { intros e p. apply wok_upd_loop. intros l'. rewrite Hl. intros [= <-]. split; [by left|].
    split; [done|congruence]. }
  destruct ph; destruct H as [H1 H2]; (split; [by apply Hk|done]).
Qed.
Lemma wp_own l ph x f (Q : unit → sworld → Prop) E s :
  sl_csock (f l) = sl_csock l → sl_finalized (f l) = sl_finalized l →
  (sl_attached l = true → sl_attached (f l) = true) →
  J (in_use l ph) x s → (∀ s', J (in_use (f l) ph) x s' → sw_wfd s' = sw_wfd s ∧ sw_wowner s' = sw_wowner s ∧
     sw_fds s' = sw_fds s ∧ (∀ q, q ≠ me → sw_loops s' !! q = sw_loops s !! q) → Q tt s') →
  wp (loop_upd f me) Q E s.
Proof.
  intros Hc Hf Ha H HQ. unfold loop_upd. wp_step. apply HQ; [by apply J_own|].
  split; [done|split; [done|split; [done|]]]. intros q Hq. cbn. by rewrite lookup_alter_ne.
Qed.

(** Which owner [f] may be installed for. *)
Definition owned_by (f : nat) (q : option nat) (s : sworld) : Prop :=
  ∀ o, sw_fds s !! f = Some o → q = Some o ∧
    ∀ l, sw_loops s !! o = Some l → sl_csock l = Some f → o ≠ me → sl_attached l = true.
Lemma owned_older f q s s' : older s s' → owned_by f q s → owned_by f q s'.
Proof.
  intros [O1 O2] H o Ho. destruct (H o (O1 f o Ho)) as [Hp Ha]. split; [done|].
  intros l Hl Hc Hne. destruct (O2 o l f Hl Hc) as (l0 & Hl0 & Hc0 & Hat). by apply Hat, (Ha l0).
Qed.

Lemma J_install l p q f s :
  owned_by f q s → is_Some (sw_fds s !! f) → J (in_use l (Installing p)) [] s →
  J (in_use l (Installing q)) [] (set_wfd (Some f) s).
Proof.
  intros Ho Hf [[[H1 H2 H3 H4 H5] Hw] Hp]. split; [|done]. split; [|done]. split; cbn; try done.
  - intros g [= <-]. by left.
  - intros g o [= <-] Hg. destruct (Ho o Hg) as [-> Ha]. split; [done|]. intros l' Hl' Hc He.
    apply Ha; congruence.
Qed.

Lemma wp_set_wakeup l p q c (Q : option nat → sworld → Prop) (E : exn → sworld → Prop) s :
  on_main = true → J (in_use l (Installing p)) [] s →
  (∀ f, c = Some f → owned_by f q s) →
  (∀ old s', J (in_use l (Installing q)) [] s' → older s s' → (old = sw_wfd s ∨ old = None) →
     (sw_wfd s' = c ∨ sw_wfd s' = None) → Q old s') →
  (∀ e s', c ≠ None → isinstance e OSError = true → J (in_use l (Installing p)) [] s' → onward s s' → E e s') →
  wp (set_wakeup_fd c) Q E s.
Proof.
  intros Hon H Hc HQ HE. unfold set_wakeup_fd. rewrite Hon.
  assert (Hend : ∀ s1, J (in_use l (Installing p)) [] s1 → onward s s1 →
    (∀ f, c = Some f → is_Some (sw_fds s1 !! f)) →
    wp (old <- gets sw_wfd ;; modify (set_wfd c) ;; yield_ ;; ret old) Q E s1).
  { intros s1 H1 [O1 S1] Hopen. do 5 wp_step.
    assert (H2 : J (in_use l (Installing q)) [] (set_wfd c s1)).
    { destruct c as [f|].
      - apply (J_install l p); [|by apply Hopen|done]. eapply owned_older, Hc; done.
      - destruct H1 as [[H1 H2] Hp]. split; [|done]. split; [by eapply wok_removed|done]. }
    eapply wp_yield; [done|]. intros s3 H3 [O3 S3]. wp_step. apply HQ; [done|..].
    - etrans; [exact O1|]. etrans; [|exact O3]. by apply older_same.
    - apply S1.
    - apply S3. }
  wp_step. destruct c as [f|].
  - wp_step. eapply wp_sig_sys; [done|..].
    + intros s1 H1 O1. do 2 wp_step. cbn beta. destruct (bool_decide _) eqn:Hb; wp_step.
      * apply Hend; [done..|]. intros f' [= <-]. by apply bool_decide_eq_true in Hb.
      * by apply HE.
    + intros n s1 H1 O1. by apply HE.
  - eapply wp_yield; [done|]. intros s1 H1 O1. by apply Hend.
Qed.

(** What the rollback may rely on. *)
Record restorable (st : wakeup_state) (l : sloop) (s : sworld) : Prop := {
  rs_owned : ∀ f, ws_fd st = Some f → owned_by f (ws_owner st) s;
  rs_attached : ∀ f, ws_fd st = Some f → ws_owner st = Some me → sl_csock l = Some f → ws_attached st = true }.
Lemma restorable_older st l l' s s' :
  sl_csock l' = sl_csock l → older s s' → restorable st l s → restorable st l' s'.
Proof.
  intros E O [H1 H2]. split; [|intros f; rewrite E; apply H2]. intros f Hf. eapply owned_older; [done|by apply H1].
Qed.

Lemma commit l s :
  sl_attached l = true → J (in_use l (Installing (Some me))) [] s → J (in_use l Idle) [] s.
Proof.
  intros Ha [[[H1 H2 H3 H4 H5] Hw] [Hl Hf]]. split; [|done]. split.
  - rewrite Hw. split; [done| |done..]. intros f o Hwf Ho. destruct (H2 f o Hwf Ho) as [Hp Hat].
    split; [done|]. intros l' Hl' Hc _. destruct (decide (o = me)) as [->|Hne]; [congruence|].
    apply (Hat l'); congruence.
  - intros f Hwf. destruct (H1 f Hwf) as [|(q & lq & [= <-] & Hq & Hfin)]; [done|congruence].
Qed.

(** Giving up: nothing is installed, or what was installed is still somebody's. *)
Lemma settle_removed l p o s :
  sw_wfd s = None → J (in_use l (Installing p)) [] s → J (in_use l Idle) [] (set_wowner o s).
Proof.
  intros Hn [[H1 _] Hp]. split; [|done]. destruct H1 as [K1 K2 K3 K4 K5].
  split; [split; cbn; try done; rewrite Hn; done|]. intros f. cbn. congruence.
Qed.
Lemma settle_previous l p s :
  J (in_use l (Installing p)) [] s →
  (∀ q lq, p = Some q → sw_loops s !! q = Some lq → sl_finalized lq = false) →
  (∀ f, sw_wfd s = Some f → p = Some me → sl_csock l = Some f → sl_attached l = true) →
  J (in_use l Idle) [] (set_wowner p s).
Proof.
  intros [[[K1 K2 K3 K4 K5] _] [Hl Hfin]] Hn Ha. split; [|done]. split.
  - split; cbn; try done. intros f o Hf Ho. destruct (K2 f o Hf Ho) as [Hp Hat].
    split; [done|]. intros l' Hl' Hc _. destruct (decide (o = me)) as [->|Hne].
    + assert (l' = l) as -> by congruence. by apply (Ha f).
    + apply (Hat l'); congruence.
  - intros f Hf. destruct (K1 f Hf) as [|(q & lq & Hp & Hq & Hd)]; [done|].
    specialize (Hn q lq Hp Hq). congruence.
Qed.

Lemma wp_attach l (Q : option wakeup_state → sworld → Prop) (E : exn → sworld → Prop) s :
  on_main = true → J (in_use l Idle) [] s →
  (∀ s', J (in_use l Idle) [] s' → Q None s') →
  (∀ st s', J (in_use (with_attached true l) (Installing (Some me))) [] s' → restorable st l s' → Q (Some st) s') →
  (∀ e s', J (in_use l Idle) [] s' → E e s') →
  wp (_attach_wakeup_fd me) Q E s.
Proof.
  intros Hon H HN HS HE. unfold _attach_wakeup_fd, handlers, attached, csock, loop_get. do 2 wp_step.
  rewrite Hon. cbn [andb]. destruct (negb _); [|wp_step; by apply HN]. do 6 wp_step.
  assert (Hl : sw_loops s !! me = Some l) by apply H. do 2 wp_step. cbn [sw_loops set_wowner]. rewrite Hl.
  set (p := sw_wowner s). set (s1 := set_wowner (Some me) s).
  assert (H1 : J (in_use l (Installing p)) [] s1).
  { destruct H as [[H1 Hs] Hp]. split; [|done]. split; [|done]. subst s1.
    destruct H1 as [K1 K2 K3 K4 K5]. split; cbn; try done. intros f o Hf Ho.
    destruct (K2 f o Hf Ho) as [? Ka]. split; [done|]. intros l' Hl' Hc _. by apply (Ka l'). }
  wp_step. apply wp_catch_cls. apply (wp_set_wakeup l p (Some me)); [done|done|..].
  - intros f Hc o Ho. assert (Hme : sw_fds s !! f = Some me).
    { destruct H as [[Hk _] _]. by apply (k_csock _ _ _ _ Hk me l). }
    cbn in Ho. rewrite Hme in Ho. injection Ho as <-. split; [done|]. congruence.
  - intros old s2 H2 O2 Hold _. wp_step. eapply wp_own; [..|exact H2|]; [done..|].
    intros s3 H3 (_ & _ & F3 & L3). wp_step. apply HS; [done|]. split; cbn.
    + intros f -> o Ho. destruct Hold as [Hold|]; [|done]. rewrite F3 in Ho.
      destruct H as [[Hk _] _]. destruct (k_who _ _ _ _ Hk f o) as [Hp Ha]; [done|by apply (proj1 O2)|].
      split; [done|]. intros l' Hl' Hc Hne. rewrite L3 in Hl' by done.
      destruct (proj2 O2 o l' f Hl' Hc) as (l0 & Hl0 & Hc0 & Hat). by apply Hat, (Ha l0).
    + intros f -> Hp Hc. destruct Hold as [Hold|]; [|done].
      destruct H as [[Hk _] _]. destruct (k_who _ _ _ _ Hk f me) as [_ Ha]; [done|by apply (k_csock _ _ _ _ Hk me l)|].
      by apply (Ha l).
  - intros e s2 _ Hos H2 O2. split; [|congruence]. intros _. wp_step.
    eapply wp_finalized_opt; [done|]. intros gone s3 H3 O3 Hgone. wp_step. destruct gone.
    + wp_step. apply (wp_set_wakeup l p (Some me) None); [done|done|done|..].
      * intros old s4 H4 _ _ Hn. do 2 wp_step. apply HE. eapply settle_removed; [by destruct Hn|done].
      * done.
    + do 2 wp_step. apply HE. apply settle_previous; [done|by apply Hgone|].
      intros f Hf Hp Hc. destruct H as [[Hk _] _].
      assert (Hw : sw_wfd s = Some f).
      { destruct O2 as [_ [O2 _]], O3 as [_ [O3 _]]. destruct O3 as [O3|O3]; [|congruence].
        destruct O2 as [O2|O2]; cbn in O2; congruence. }
      destruct (k_who _ _ _ _ Hk f me) as [_ Ha]; [done|by apply (k_csock _ _ _ _ Hk me l)|].
      by apply (Ha l).
Qed.

(** Putting a descriptor back under its owner's name. *)
Lemma put_back l o b s :
  J (in_use l (Installing o)) [] s →
  (∀ f, sw_wfd s = Some f → o = Some me → sl_csock l = Some f → b = true) →
  J (in_use (with_attached b l) Restored) [] (upd_loops (alter (with_attached b) me) (set_wowner o s)).
Proof.
  intros [[[K1 K2 K3 K4 K5] _] [Hl Hf]] Hb.
  set (s' := upd_loops (alter (with_attached b) me) (set_wowner o s)).
  assert (Hown : sw_loops s' !! me = Some (with_attached b l)) by (cbn; by rewrite lookup_alter_eq, Hl).
  assert (Hoth : ∀ q, q ≠ me → sw_loops s' !! q = sw_loops s !! q) by (intros q Hq; cbn; by rewrite lookup_alter_ne).
  split; [|by split]. split; [|done]. split; try done.
  - intros f Hw. destruct (K1 f Hw) as [|(q & lq & Ho & Hq & Hd)]; [by left|right].
    exists q, lq. rewrite Hoth; [done|]. intros ->. congruence.
  - intros f q Hw Hq. destruct (K2 f q Hw Hq) as [Ho Ha]. split; [done|]. intros l' Hl' Hc _.
    destruct (decide (q = me)) as [->|Hne].
    + rewrite Hown in Hl'. injection Hl' as <-. cbn in *. by apply (Hb f).
    + rewrite Hoth in Hl' by done. apply (Ha l'); congruence.
  - intros q l' f Hl' Hc. destruct (decide (q = me)) as [->|Hne].
    + rewrite Hown in Hl'. injection Hl' as <-. by apply (K3 me l).
    + rewrite Hoth in Hl' by done. by apply (K3 q l').
  - intros sigs f q Hin. destruct (K4 sigs f q Hin) as (Hq & lq & Hlq & ? & ?). split; [done|].
    exists lq. rewrite Hoth; [done|]. intros ->. congruence.
Qed.

Lemma wp_assoc {A B} (m1 : M sworld A) (m2 : M sworld B) (m3 : M sworld unit) (Q : unit → sworld → Prop) E s :
  wp ((m1 ;; m2) ;; m3) Q E s → wp (m1 ;; m2 ;; m3) Q E s.
Proof. by rewrite bind_assoc. Qed.

(** The end of the restoration: the owner's token is looked at once more. *)
Lemma wp_restored l o b p0 (Q : unit → sworld → Prop) (E : exn → sworld → Prop) s :
  on_main = true → J (in_use l (Installing o)) [] s →
  (∀ f, sw_wfd s = Some f → o = Some me → sl_csock l = Some f → b = true) → (o = p0 ∨ o = None) →
  (∀ s', J None [] s' → Q tt s') →
  wp (modify (set_wowner o) ;; loop_upd (with_attached b) me ;;
      gone' <- finalized_opt p0 ;; o' <- gets sw_wowner ;;
      when_ ((gone' : bool) && bool_decide (o' = p0))
        (set_wakeup_fd None ;; modify (set_wowner None) ;; loop_upd (with_attached false) me)) Q E s.
Proof.
  intros Hon H Hb Hop HQ. unfold loop_upd at 1. do 4 wp_step.
  apply (put_back l o b) in H; [|done]. set (s1 := upd_loops _ _) in *.
  assert (Ho1 : sw_wowner s1 = o) by done. clearbody s1. wp_step.
  eapply wp_finalized_opt; [done|]. intros gone s2 H2 [_ [_ S2]] Hgone. do 2 wp_step.
  apply wp_when; intros Hc.
  - apply wp_assoc, wp_bind.
    apply (wp_clear_wakeup (in_use (with_attached b l) Restored)) with (x := []); try done.
    { intros x s0. apply (jump_keeps me). done. }
    { apply (jump_none me). }
    intros s3 H3 Hw3 Hn3. unfold loop_upd. wp_step. apply HQ. split; [|done].
    destruct H3 as [[H3 _] _]. split; [|intros f; cbn; congruence].
    apply (wok_detached None [] s3 me); [by rewrite Hw3|done].
  - apply HQ. destruct H2 as [[H2 _] _]. split; [|done]. split; [done|]. intros f Hf.
    destruct (k_open _ _ _ _ H2 f Hf) as [|(q & lq & Hq & Hlq & Hd)]; [done|].
    assert (Hp : p0 = Some q) by (destruct S2, Hop; congruence).
    apply andb_false_iff in Hc as [->|Hc]; [|apply bool_decide_eq_false in Hc; congruence].
    specialize (Hgone eq_refl q lq Hp Hlq). congruence.
Qed.

Lemma wp_restore l st (Q : unit → sworld → Prop) (E : exn → sworld → Prop) s :
  on_main = true → J (in_use l (Installing (Some me))) [] s → restorable st l s →
  (∀ s', J None [] s' → Q tt s') → wp (_restore_wakeup_fd me (Some st)) Q E s.
Proof.
  intros Hon H Hr HQ. unfold _restore_wakeup_fd. do 2 wp_step.
  rewrite bool_decide_eq_true_2 by apply H. wp_step.
  eapply wp_finalized_opt; [done|]. intros gone s1 H1 [O1 S1] _. wp_step.
  assert (Hr1 : restorable st l s1) by by eapply restorable_older.
  assert (Hgiveup : ∀ p s2, J (in_use l (Installing p)) [] s2 → sw_wfd s2 = None →
    J (in_use l (Installing None)) [] s2).
  { intros p s2 [[H2 Hw2] Hp2] Hn. split; [|done]. split; [by eapply wok_none|done]. }
  apply wp_catch_cls. wp_step.
  apply (wp_set_wakeup l (Some me) (ws_owner st)); [done|done|..].
  - intros f Hc. destruct gone; [done|]. by apply (rs_owned _ _ _ Hr1).
  - intros old s2 H2 _ _ Hw. wp_step. destruct gone.
    + apply (wp_restored l None false); [done| |done|by right|done]. destruct Hw; by eapply Hgiveup.
    + apply (wp_restored l (ws_owner st) (ws_attached st)); [done|done| |by left|done].
      intros f Hf Hp Hc. apply (rs_attached _ _ _ Hr1 f); [destruct Hw; congruence|done..].
  - intros e s2 _ Hos H2 O2. split; [|congruence]. intros _. wp_step.
    apply (wp_set_wakeup l (Some me) (Some me) None); [done|done|done| |done].
    intros old s3 H3 _ _ Hn. wp_step.
    apply (wp_restored l None false); [done| |done|by right|done]. destruct Hn; by eapply Hgiveup.
Qed.

(** ** The operations of the main thread *)
Definition ready (ph : phase) (l : sloop) : Prop :=
  ph = Idle ∨ (ph = Installing (Some me) ∧ sl_attached l = true).
Lemma ready_done ph l s : ready ph l → J (in_use l ph) [] s → J None [] s.
Proof.
  intros [->|[-> Ha]] H; [by split; [apply H|]|]. apply commit in H; [|done]. by split; [apply H|].
Qed.
Lemma ready_handlers ph l f : ready ph l → ready ph (with_handlers f l).
Proof. done. Qed.

Lemma wp_signal l ph sig h (Q : unit → sworld → Prop) (E : exn → sworld → Prop) s :
  J (in_use l ph) [] s → (∀ s', J (in_use l ph) [] s' → older s s' → Q tt s') →
  (∀ e s', J (in_use l ph) [] s' → older s s' → E e s') → wp (signal_signal sig h) Q E s.
Proof.
  intros H HQ HE.
  assert (H1 : wp (signal_signal sig h) (λ _, J (in_use l ph) []) (λ _, J (in_use l ph) []) s).
  { apply (keeping_run (J (in_use l ph) [])); [|done]. apply frame_signal.
    - intros s0. by apply (jump_keeps me).
    - intros f s0. by apply (J_same _ _ s0). }
  eapply wp_mono; [apply (wp_and _ _ _ _ _ _ H1 (older_signal jump_older sig h s))|..].
  - intros [] s' []. by apply HQ.
  - intros e s' []. by apply HE.
Qed.
Lemma J_owners l ph f s : J (in_use l ph) [] s → J (in_use l ph) [] (upd_owners f s).
Proof. by apply (J_same _ _ s). Qed.
Lemma older_handlers f s : older s (upd_loops (alter (with_handlers f) me) s).
Proof. apply older_loop. by intros l. Qed.

(** What the rollback needs to know of the attachment it undoes. *)
Definition undoable (ws : option wakeup_state) (ph : phase) (l : sloop) (s : sworld) : Prop :=
  match ws with
  | None => ph = Idle
  | Some st => ph = Installing (Some me) ∧ sl_attached l = true ∧ restorable st l s
  end.
Lemma undoable_ready ws ph l s : undoable ws ph l s → ready ph l.
Proof. destruct ws; [intros (? & ? & _); by right|by left]. Qed.
Lemma undoable_older ws ph l l' s s' :
  sl_csock l' = sl_csock l → sl_attached l' = sl_attached l → older s s' → undoable ws ph l s → undoable ws ph l' s'.
Proof.
  intros E1 E2 O. destruct ws as [st|]; [|done]. intros (? & ? & ?).
  split; [done|split; [congruence|by eapply restorable_older]].
Qed.

Lemma wp_restore_any ws ph l e s :
  on_main = true → undoable ws ph l s → J (in_use l ph) [] s →
  wp (_restore_wakeup_fd me ws ;; raise (A:=unit) e) (λ _, J None []) (λ _, J None []) s.
Proof.
  intros Hon Hu H. apply wp_bind. destruct ws as [st|].
  - destruct Hu as (-> & _ & Hr). eapply wp_restore; [done|exact H|exact Hr|]. intros s' H'. by wp_step.
  - cbn in Hu. subst ph. unfold _restore_wakeup_fd. do 2 wp_step. by split; [apply H|].
Qed.

Lemma wp_rollback sig pe po ws ph l s :
  on_main = true → undoable ws ph l s → J (in_use l ph) [] s →
  wp (roll_back me sig pe po ws) (λ _, J None []) (λ _, J None []) s.
Proof.
  intros Hon Hu H. assert (Hrd := undoable_ready _ _ _ _ Hu). unfold roll_back. wp_step.
  eapply wp_finalized_opt; [done|]. intros gone s1 H1 [O1 _] _. wp_step.
  assert (Hrest : ∀ s2, J (in_use l ph) [] s2 → older s s2 →
    wp (loop_upd (with_handlers (partial_alter (λ _, pe) sig)) me ;;
        match po with
        | Some o => if gone then modify (upd_owners (delete sig)) else
            modify (upd_owners (<[sig:=o]>)) ;; gone' <- is_finalized o ;;
            now <- gets (λ s, sw_owners s !! sig) ;;
            when_ ((gone' : bool) && bool_decide (now = Some o))
              (modify (upd_owners (delete sig)) ;; signal_signal sig (default_handler sig))
        | None => modify (upd_owners (delete sig))
        end ;; _restore_wakeup_fd me ws ;;
        raise (A:=unit) (mk RuntimeError ("sig " ++ string_of_Z sig ++ " cannot be caught")))
      (λ _, J None []) (λ _, J None []) s2).
  { intros s2 H2 O2. wp_step. unfold loop_upd. wp_step.
    set (l' := with_handlers (partial_alter (λ _, pe) sig) l).
    apply (J_own l ph [] s2 (with_handlers (partial_alter (λ _, pe) sig))) in H2; [|done..].
    set (s3 := upd_loops _ s2) in *.
    assert (Hu3 : undoable ws ph l' s3).
    { eapply undoable_older; [| |by etrans; [exact O2|apply older_handlers]|exact Hu]; done. }
    assert (Hfin : ∀ s4, J (in_use l' ph) [] s4 → older s3 s4 →
      wp (_restore_wakeup_fd me ws ;; raise (A:=unit) (mk RuntimeError ("sig " ++ string_of_Z sig ++ " cannot be caught")))
        (λ _, J None []) (λ _, J None []) s4).
    { intros s4 H4 O4. apply (wp_restore_any ws ph l'); [done| |done]. by eapply undoable_older. }
    clearbody s3. wp_step. destruct po as [o|]; [|wp_step; apply Hfin; [by apply J_owners|by apply older_same]].
    destruct gone; [wp_step; apply Hfin; [by apply J_owners|by apply older_same]|].
    do 2 wp_step. assert (H4 := J_owners l' ph (<[sig:=o]>) s3 H2).
    assert (O4 : older s3 (upd_owners (<[sig:=o]>) s3)) by by apply older_same.
    set (s4 := upd_owners _ s3) in *. clearbody s4. unfold is_finalized, loop_get. do 2 wp_step.
    eapply wp_yield; [done|]. intros s5 H5 [O5 _]. do 3 wp_step. apply wp_when; intros _.
    - do 2 wp_step. eapply wp_signal; [by apply J_owners|..].
      + intros s6 H6 O6. apply Hfin; [done|]. etrans; [exact O4|]. etrans; [exact O5|].
        etrans; [|exact O6]. by apply older_same.
      + intros e s6 H6 _. by eapply (ready_done ph l').
    - apply Hfin; [done|by etrans]. }
  apply wp_when; intros _; [|by apply Hrest].
  eapply wp_signal; [done|..].
  - intros s2 H2 O2. apply Hrest; [done|by etrans].
  - intros e s2 H2 _. by eapply (ready_done ph l).
Qed.

Lemma wp_add valid sig cb s :
  (∀ l, sw_loops s !! me = Some l → sl_closed l = false → sl_finalized l = false) → J None [] s →
  wp (add_signal_handler valid me sig cb) (λ _, J None []) (λ _, J None []) s.
Proof.
  intros Hlive H. unfold add_signal_handler, handlers, loop_get, loop_upd. destruct cb as [cb|]; [|by wp_step].
  do 3 wp_step. destruct (sw_loops s !! me) as [l|] eqn:Hl; [|by wp_step].
  apply wp_when; intros Hc; [by wp_step|]. wp_step. apply wp_of_res; [|by intros e _].
  intros n _. wp_step. apply wp_when; intros Hon; [by wp_step|]. apply negb_false_iff in Hon.
  do 6 wp_step.
  assert (H0 : J (in_use l Idle) [] s) by (split; [apply H|split; [done|by apply (Hlive l)]]).
  apply (J_own l Idle [] s (with_handlers (<[n:=cb]>))) in H0; [|done..].
  do 2 wp_step. set (l' := with_handlers (<[n:=cb]>) l). 
  assert (H1 := J_owners l' Idle (<[n:=me]>) _ H0). set (s1 := upd_owners _ _) in *. clearbody s1.
  unfold install. wp_step. apply wp_catch_else.
  apply (wp_attach l'); [done|done|..].
  - intros s2 H2. apply wp_catch_cls. wp_step. eapply wp_signal; [done|..].
    + intros s3 H3 _. do 2 wp_step. by apply (ready_done Idle l'); [left|].
    + intros e s3 H3 _. split; intros _; [|by apply (ready_done Idle l'); [left|]]. wp_step.
      by apply (wp_rollback _ _ _ None Idle l').
  - intros st s2 H2 Hr. set (l2 := with_attached true l').
    apply wp_catch_cls. wp_step. eapply wp_signal; [done|..].
    + intros s3 H3 _. do 2 wp_step. by apply (ready_done (Installing (Some me)) l2); [right|].
    + intros e s3 H3 O3. split; intros _; [|by apply (ready_done (Installing (Some me)) l2); [right|]]. wp_step.
      apply (wp_rollback _ _ _ (Some st) (Installing (Some me)) l2); [done| |done].
      split; [done|split; [done|]]. eapply restorable_older; [done|exact O3|].
      eapply restorable_older; [|reflexivity|exact Hr]. done.
  - intros e s2 H2. destruct (isinstance e OSError); wp_step; [|by apply (ready_done Idle l'); [left|]].
    by apply (wp_rollback _ _ _ None Idle l').
Qed.
End installation.

(** ** Any sequence of operations *)

(** One operation on loop [me], from whatever thread the environment says; a token is only
    marked on a closed loop, so a loop that is not closed is in use. *)
Inductive operation :=
  | OpNew | OpAdd (valid : gset Z) (sig : pynum) (cb : option nat)
  | OpRemove (valid : gset Z) (sig : pynum) | OpClose | OpDeferred | OpRunStart | OpRunEnd.
Definition perform `{Env : SigEnv} (me : nat) (op : operation) : M sworld unit :=
  match op with
  | OpNew => new_loop me
  | OpAdd valid sig cb => add_signal_handler valid me sig cb
  | OpRemove valid sig => remove_signal_handler valid me sig ;; ret tt
  | OpClose => close_loop me
  | OpDeferred => run_deferred
  | OpRunStart => _attach_wakeup_fd me ;; ret tt
  | OpRunEnd => _detach_wakeup_fd me
  end.
Definition allowed `{Env : SigEnv} (me : nat) (op : operation) (s : sworld) : Prop :=
  match op with
  | OpNew => sw_loops s !! me = None
  | OpAdd _ _ _ | OpRunStart => ∀ l, sw_loops s !! me = Some l → sl_closed l = false → sl_finalized l = false
  | OpDeferred => on_main = true
  | _ => True
  end ∧
  match op with
  | OpRunStart => ∃ l, sw_loops s !! me = Some l ∧ sl_closed l = false
  | _ => True
  end.
Inductive performed : sworld → sworld → Prop :=
  | perform_one (Env : SigEnv) me op s :
      SigOk Env me → allowed me op s → performed s (perform me op s).2.
Definition sworld0 : sworld := SWorld 0 ∅ ∅ None None ∅ ∅ [] [].

Lemma J0 : J None [] sworld0.
Proof.
  split; [|done]. split; [split; cbn; try done|done].
  - intros sigs f o Hin. by apply elem_of_nil in Hin.
  - constructor.
Qed.

Lemma wp_new me s `{Env : SigEnv} :
  sw_loops s !! me = None → J None [] s → wp (new_loop me) (λ _, J None []) (λ _, J None []) s.
Proof.
  intros Hl [[[K1 K2 K3 K4 K5] Hs] _]. unfold new_loop. do 5 wp_step.
  set (f := fresh _). assert (Hf : sw_fds s !! f = None) by apply not_elem_of_dom, is_fresh. clearbody f.
  assert (Hw : sw_wfd s ≠ Some f) by (intros Hw; destruct (Hs f Hw); congruence).
  assert (Hg : ∀ g o, sw_fds s !! g = Some o → (<[f:=me]> (sw_fds s)) !! g = Some o).
  { intros g o Hgo. rewrite lookup_insert_ne; [done|congruence]. }
  split; [|done]. split; [split; cbn|].
  - intros g Hwg. left. destruct (Hs g Hwg) as [o ?]. exists o. by apply Hg.
  - intros g o Hwg. rewrite lookup_insert_ne by congruence. intros Hgo. destruct (K2 g o Hwg Hgo) as [? Ha].
    split; [done|]. intros l [[<- <-]|[Hne Hl']]%lookup_insert_Some Hc He; [cbn in Hc; congruence|by apply Ha].
  - intros o l g [[<- <-]|[Hne Hl']]%lookup_insert_Some; [intros [= <-]; by rewrite lookup_insert_eq|].
    intros Hc. apply Hg. by apply (K3 o l).
  - intros sigs g o Hin. destruct (K4 sigs g o Hin) as (Hgo & l & Hlo & ?). split; [by apply Hg|].
    exists l. rewrite lookup_insert_ne; [done|congruence].
  - done.
  - intros g Hwg. destruct (Hs g Hwg) as [o ?]. exists o. by apply Hg.
Qed.

Lemma performed_keeps s s' : performed s s' → J None [] s → J None [] s'.
Proof.
  intros [Env me op s0 HOk [Ha Hb]] H.
  assert (Hw : wp (perform me op) (λ _, J None []) (λ _, J None []) s0).
  2:{ unfold wp in Hw. by destruct (perform me op s0) as [[]]. }
  assert (Hy : ∀ x s, J None x s → J None x (jump s)) by (intros x s1; by apply (jump_keeps me)).
  assert (Hz := jump_none me). assert (Hwo := jump_wowner me). assert (Hm := jump_mono me me).
  destruct op as [|valid sig cb|valid sig| | | |]; cbn [perform].
  - by apply wp_new.
  - by apply wp_add.
  - apply keeping_run; [|done]. unfold remove_signal_handler.
    assert (∀ n, stable (keeping (J None [])) (remove_entry me n)).
    { intros n. apply keep_remove; try done. by left. }
    solve_stable.
  - apply keeping_run; [|done]. apply keep_close; try done. by left.
  - apply keeping_run; [|done]. by apply keep_deferred.
  - apply wp_bind. destruct Hb as (l & Hl & Hc).
    destruct (on_main) eqn:Hon.
    + assert (H0 : J (in_use me l Idle) [] s0) by (split; [apply H|split; [done|by apply Ha]]).
      apply (wp_attach me l); [done|done|..].
      * intros s1 H1. wp_step. by split; [apply H1|].
      * intros st s1 H1 _. wp_step. apply commit in H1; [|done]. by split; [apply H1|].
      * intros e s1 H1. by split; [apply H1|].
    + unfold _attach_wakeup_fd, handlers, loop_get. do 2 wp_step. rewrite Hon. cbn [andb]. by do 2 wp_step.
  - apply keeping_run; [|done]. apply keep_detach; try done. by left.
Qed.

(** C9: Whatever operations the process performs, on whatever threads, with other threads closing
    loops and deferred cleanups running at any call inside them: after each of them the
    installed wakeup descriptor is open, and it is the one of the loop recorded as its owner,
    which still counts as attached. *)
Theorem wakeup_fd_open s f :
  rtc performed sworld0 s → sw_wfd s = Some f →
  ∃ o, sw_fds s !! f = Some o ∧ sw_wowner s = Some o ∧
    ∀ l, sw_loops s !! o = Some l → sl_csock l = Some f → sl_attached l = true.
Proof.
  intros H Hf. assert (Hj : J None [] s).
  { revert H. generalize J0. generalize sworld0. intros s0 H0 H. clear Hf.
    induction H as [|s1 s2 s3 H12 _ IH]; [done|]. by eapply IH, performed_keeps. }
  destruct Hj as [[Hk Hs] _]. destruct (Hs f Hf) as [o Ho]. exists o.
  destruct (k_who _ _ _ _ Hk f o Hf Ho) as [Hw Ha]. split; [done|split; [done|]].
  intros l Hl Hc. by apply (Ha l).
Qed.

#[local] Instance quiet_ok main failing me : SigOk (quiet_env main failing) me.
Proof. intros n s. apply rtc_refl. Qed.
Definition loop_made : sworld := (perform (Env := quiet_env true (λ _, None)) 0 OpNew sworld0).2.
Definition handler_added : sworld :=
  (perform (Env := quiet_env true (λ _, None)) 0 (OpAdd {[15]} (PInt 15) (Some 7%nat)) loop_made).2.
Lemma handler_added_performed : rtc performed sworld0 handler_added.
Proof.
  eapply rtc_l; [apply (perform_one (quiet_env true (λ _, None)) 0 OpNew sworld0 _); by split|].
  eapply rtc_l; [|apply rtc_refl].
  apply (perform_one (quiet_env true (λ _, None)) 0 (OpAdd {[15]} (PInt 15) (Some 7%nat)) loop_made _).
  split; [|done]. intros l Hl _. vm_compute in Hl. by injection Hl as <-.
Qed.
Lemma wakeup_fd_open_witness :
  ∃ f o, sw_wfd handler_added = Some f ∧ sw_fds handler_added !! f = Some o ∧ sw_wowner handler_added = Some o.
Proof.
  exists 0%nat. assert (Hf : sw_wfd handler_added = Some 0%nat) by (vm_compute; reflexivity).
  destruct (wakeup_fd_open handler_added 0 handler_added_performed Hf) as (o & H1 & H2 & _).
  exists o. split; [exact Hf|split; [exact H1|exact H2]].
Defined.
