(* ===== verification/Flow.v ===== *)
(** * Sending files through a transport (zuvloop/_sendfile.py, zig/transport.zig)

    [sendfile()] on a stream transport: [_SendfileProtocol] takes the place of the transport's
    protocol and waits on the flow-control callbacks the native transport makes.  The native
    side is the flow control of zig/transport.zig as a step relation: the socket takes bytes,
    the protocol is paused and resumed, the connection is lost. *)
From S2P Require Import Prelude World Checks Sockets Server Attach Pipes Sendfile.

(** ** The native transport's flow control *)
Definition with_protocol (p : proto) (f : flow) : flow :=
  Flow p (fl_reading f) (fl_paused f) (fl_low f) (fl_high f) (fl_buf f) (fl_told f).
Definition with_reading (b : bool) (f : flow) : flow :=
  Flow (fl_protocol f) b (fl_paused f) (fl_low f) (fl_high f) (fl_buf f) (fl_told f).
Definition with_paused (b : bool) (f : flow) : flow :=
  Flow (fl_protocol f) (fl_reading f) b (fl_low f) (fl_high f) (fl_buf f) (fl_told f).
Definition with_marks (low high : nat) (f : flow) : flow :=
  Flow (fl_protocol f) (fl_reading f) (fl_paused f) low high (fl_buf f) (fl_told f).
Definition with_buf (g : list Byte.byte → list Byte.byte) (f : flow) : flow :=
  Flow (fl_protocol f) (fl_reading f) (fl_paused f) (fl_low f) (fl_high f) (g (fl_buf f)) (fl_told f).
Definition with_told (b : bool) (f : flow) : flow :=
  Flow (fl_protocol f) (fl_reading f) (fl_paused f) (fl_low f) (fl_high f) (fl_buf f) b.
Definition with_waiter (x : option oid) (s : sendproto) : sendproto :=
  SendProto (sp_transport s) (sp_protocol s) (_should_resume_reading s) (_should_resume_writing s) x.

(** Whether a write finds the batch of pending buffers full, and flushes it on the spot. *)
Class NativeIO := { batch_full : nat → bool }.

(** What [sendfile] is called on: a native stream transport, with the socket object it answers
    [get_extra_info] with, or another transport with its [_sendfile_compatible] attribute and
    whether it has the methods of [_SendfileTransport]. *)
Inductive sendfile_mode := UNSUPPORTED | TRY_NATIVE | FALLBACK.
Inductive target := TNative (sock : option oid) | TOther (mode : sendfile_mode) (conforms : bool).

Section flow.
Context `{K : Kernel} `{IO : SockIO} `{FIO : FileIO} `{NIO : NativeIO}.

Definition get_flow (t : oid) : M world flow :=
  f <- gets (λ w, w_flows w !! t) ;;
  match f with Some f => ret f | None => raise (mk AttributeError "no such transport") end.
Definition upd_flow (t : oid) (f : flow → flow) : M world unit := modify (set_flows (alter f t)).
Definition get_sp (sp : oid) : M world sendproto :=
  s <- gets (λ w, w_sps w !! sp) ;;
  match s with Some s => ret s | None => raise (mk AttributeError "no such protocol") end.
Definition upd_sp (sp : oid) (f : sendproto → sendproto) : M world unit :=
  modify (set_sps (alter f sp)).

(** [is_closing]: a transport that is gone counts as closing. *)
Definition is_closing (t : oid) : M world bool :=
  gets (λ w, match w_trans w !! t with Some tr => tr_closing tr | None => true end).

(** ** The callbacks of [_SendfileProtocol] *)
Definition sp_pause_writing (sp : oid) : M world unit :=
  s <- get_sp sp ;;
  match sp_waiter s with
  | None => f <- create_future ;; upd_sp sp (with_waiter (Some f))
  | Some _ => ret tt
  end.
Definition sp_resume_writing (sp : oid) : M world unit :=
  s <- get_sp sp ;;
  match sp_waiter s with
  | Some f => set_result f ;; upd_sp sp (with_waiter None)
  | None => ret tt
  end.
Definition closed_by_peer : exn := mk ConnectionError "Connection is closed by peer".
(** The part of [connection_lost] before the call is passed on. *)
Definition sp_connection_lost (sp : oid) (e : option exn) : M world unit :=
  s <- get_sp sp ;;
  match sp_waiter s with
  | Some f => d <- fut_done f ;; when_ (negb d) (fut_settle f (Failed (default closed_by_peer e)))
  | None => ret tt
  end.

(** A transport calls its protocol; the application's protocol just learns what it is told. *)
Definition pause_writing (t : oid) (p : proto) : M world unit :=
  match p with PApp => upd_flow t (with_told true) | PSend sp => sp_pause_writing sp end.
Definition resume_writing (t : oid) (p : proto) : M world unit :=
  match p with PApp => upd_flow t (with_told false) | PSend sp => sp_resume_writing sp end.
Definition connection_lost (p : proto) (e : option exn) : M world unit :=
  match p with PApp => ret tt | PSend sp => sp_connection_lost sp e end.

(** [callProtocol]: what a callback raises is reported. *)
Definition call_protocol (m : M world unit) : M world unit :=
  catch m (λ e, log (EvHandler "Exception in protocol callback" e)).

(** [maybePauseProtocol], [maybeResumeProtocol]. *)
Definition maybe_pause (t : oid) : M world unit :=
  f <- get_flow t ;;
  if Nat.leb (length (fl_buf f)) (fl_high f) || fl_paused f then ret tt
  else upd_flow t (with_paused true) ;; call_protocol (pause_writing t (fl_protocol f)).
Definition maybe_resume (t : oid) : M world unit :=
  c <- is_closing t ;; f <- get_flow t ;;
  if (c : bool) || negb (fl_paused f) || Nat.ltb (fl_low f) (length (fl_buf f)) then ret tt
  else upd_flow t (with_paused false) ;; call_protocol (resume_writing t (fl_protocol f)).

(** [pause_reading], [resume_reading] ([startReading]), [set_protocol]. *)
Definition pause_reading (t : oid) : M world unit :=
  f <- get_flow t ;; when_ (fl_reading f) (sys ;; upd_flow t (with_reading false)).
Definition resume_reading (t : oid) : M world unit :=
  c <- is_closing t ;; f <- get_flow t ;;
  if fl_reading f || (c : bool) then ret tt else sys ;; upd_flow t (with_reading true).
Definition set_protocol (t : oid) (p : proto) : M world unit := upd_flow t (with_protocol p).

Definition set_write_buffer_limits (t : oid) (high low : nat) : M world unit :=
  if Nat.ltb high low then raise (mk ValueError "high water mark must be >= low water mark")
  else upd_flow t (with_marks low high) ;; maybe_pause t.

(** [write]: a closing transport drops the data. *)
Definition write (t : oid) (d : list Byte.byte) : M world unit :=
  sys ;; n <- tick ;; c <- is_closing t ;;
  if (c : bool) then ret tt
  else when_ (batch_full n) (maybe_pause t) ;; upd_flow t (with_buf (λ b, b ++ d)).

(** ** [_SendfileProtocol] *)
Definition new_sendfile_protocol (t : oid) (paused : bool) : M world oid :=
  f <- get_flow t ;;
  waiter <- (if paused then x <- create_future ;; ret (Some x) else ret None) ;;
  sp <- alloc ;;
  modify (set_sps (<[sp := SendProto t (fl_protocol f) (fl_reading f) paused waiter]>)) ;;
  pause_reading t ;; set_protocol t (PSend sp) ;; ret sp.

(** [await self._waiter]: everybody else moves until the future is done; a cancelled task
    cancels it, and resumes a turn later. *)
Fixpoint await_waiter (f : oid) (ws : list wake) : M world unit :=
  match ws with
  | [] | WCancel :: _ => fut_cancel f ;; yield_ ;; raise cancelled
  | WReady :: ws' =>
      yield_ ;; s <- gets (λ w, w_futs w !! f) ;;
      match s with
      | Some Resolved => await_
      | Some (Failed e) => await_ ;; raise e
      | Some Cancelled => await_ ;; raise cancelled
      | _ => await_waiter f ws'
      end
  end.

Definition drain (sp : oid) : M world unit :=
  s <- get_sp sp ;; c <- is_closing (sp_transport s) ;;
  if (c : bool) then raise (mk ConnectionError "Connection closed by peer")
  else match sp_waiter s with Some f => t <- tick ;; await_waiter f (wakes t) | None => ret tt end.

Definition restore (sp : oid) : M world unit :=
  s <- get_sp sp ;;
  set_protocol (sp_transport s) (sp_protocol s) ;;
  when_ (_should_resume_reading s) (resume_reading (sp_transport s)) ;;
  match sp_waiter s with
  | Some f => fut_cancel f ;; upd_sp sp (with_waiter None)
  | None => ret tt
  end ;;
  f <- get_flow (sp_transport s) ;;
  when_ (_should_resume_writing s && negb (fl_paused f))
    (resume_writing (sp_transport s) (sp_protocol s)).

(** ** The two ways of sending *)
Definition _transport_sendfile_native (t o : oid) (src : source) (offset : nat) (count : option nat)
    : M world nat :=
  if is_win32 plat then raise (unavailable "os.sendfile is not available on Windows") else
  _regular_fileno src ;;
  f <- get_flow t ;; sp <- new_sendfile_protocol t (fl_paused f) ;;
  marks <- get_flow t ;;
  set_write_buffer_limits t 0 0 ;;
  finally
    (f <- get_flow t ;;
     when_ (Nat.ltb 0 (length (fl_buf f))) (drain sp) ;;
     fno <- need_fd o ;; d <- os_dup fno ;;
     finally (_sendfile_to_fd o (Some d) src offset count true) (os_close d))
    (set_write_buffer_limits t (fl_high marks) (fl_low marks) ;; restore sp).

Definition _sendfile_fallback (t : oid) (src : source) (offset : nat) (count : option nat)
    : M world nat :=
  seek_start src offset ;;
  f <- get_flow t ;; sp <- new_sendfile_protocol t (fl_paused f) ;;
  r <- copy_loop (sendfile_fuel src) (λ d, drain sp ;; write t d) src _TRANSPORT_CHUNK count 0 ;;
  let '(r, total) := r in
  seek_end src offset total ;;
  (restore sp ;; match r with Ok _ => ret total | Raise e => raise e end).

Definition sendfile (tgt : target) (t : oid) (src : source) (offset : pynum) (count : option pynum)
    (fallback : bool) : M world nat :=
  c <- is_closing t ;;
  if (c : bool) then raise (mk RuntimeError "Transport is closing") else
  of_res (_check_file_params (src_mode src) offset count) ;;
  let off := pynum_nat offset in let cnt := pynum_nat <$> count in
  match tgt with
  | TNative (Some o) =>
      r <- catch (n <- _transport_sendfile_native t o src off cnt ;; ret (Some n))
             (λ e, if isinstance e SendfileNotAvailableError then
                     if fallback then ret None else raise e
                   else raise e) ;;
      match r with Some n => ret n | None => _sendfile_fallback t src off cnt end
  | TNative None =>
      if negb fallback then raise (unavailable "native sendfile is not supported for transport")
      else _sendfile_fallback t src off cnt
  | TOther UNSUPPORTED _ => raise (mk RuntimeError "sendfile is not supported for transport")
  | TOther mode conforms =>
      if negb fallback && negb (match mode with TRY_NATIVE => true | _ => false end) then
        raise (mk RuntimeError "fallback is disabled and native sendfile is not supported for transport")
      else if negb fallback then raise (unavailable "native sendfile is not supported for transport")
      else if negb conforms then raise (mk RuntimeError "sendfile is not supported for transport")
      else _sendfile_fallback t src off cnt
  end.
End flow.

(** ** Everybody else's steps, as far as one transport goes

    The transport [t] works on the socket [o]; the file [p] is being sent.  Others do not
    write to the transport, replace its protocol or change its marks meanwhile. *)
Section native_steps.
Context `{K : Kernel} (t o p : nat).

(** A future that is done stays as it is, and nobody else settles a waiter of [t]. *)
Definition futures_kept (w w' : world) : Prop :=
  (w_next w ≤ w_next w')%nat ∧
  (∀ f x, w_futs w !! f = Some x → x ≠ Pending → w_futs w' !! f = Some x) ∧
  (∀ sp s f, w_sps w !! sp = Some s → sp_transport s = t → sp_waiter s = Some f →
     w_futs w' !! f = w_futs w !! f).

Inductive native_step (may_close : bool) : relation world :=
  | ns_other w w' :
      w_flows w' !! t = w_flows w !! t → w_trans w' !! t = w_trans w !! t →
      (∀ sp s, w_sps w !! sp = Some s → sp_transport s = t → w_sps w' !! sp = Some s) →
      futures_kept w w' → w_pos w' !! p = w_pos w !! p → sent o w' = sent o w →
      native_step may_close w w'
  | ns_send w f k :                       (* the socket takes some of what is buffered *)
      w_flows w !! t = Some f →
      native_step may_close w (log_event (EvSend o (take k (fl_buf f))) (set_flows (alter (with_buf (drop k)) t) w))
  | ns_pause w : native_step may_close w (maybe_pause t w).2
  | ns_resume w : native_step may_close w (maybe_resume t w).2
  | ns_close w dropped :                  (* closed, with or without what is buffered *)
      may_close = true →
      native_step may_close w (set_trans (alter (with_closing (λ _, true)) t)
        (set_flows (alter (with_buf (λ b, if (dropped : bool) then [] else b)) t) w))
  | ns_lost w f tr e :                    (* the protocol hears of it *)
      w_flows w !! t = Some f → w_trans w !! t = Some tr → tr_closing tr = true →
      native_step may_close w (connection_lost (fl_protocol f) e w).2.

Class StreamEnv (may_close : bool) := {
  intf_stream : ∀ n w, rtc (native_step may_close) w (intf n w) }.
End native_steps.

(** ** While a [_SendfileProtocol] is installed *)
Section installed.
Context `{K : Kernel} (t o sp : nat) (b rd : bool) (low high : nat).

(** The transport's protocol is [sp], the marks are [low] and [high], the application's
    protocol was told [b] before; [sp] will reinstate it, and resume reading if [rd]. *)
Record installed (w : world) (f : flow) (tr : transport) (s : sendproto) : Prop := {
  in_flow : w_flows w !! t = Some f;
  in_trans : w_trans w !! t = Some tr;
  in_sp : w_sps w !! sp = Some s;
  in_protocol : fl_protocol f = PSend sp;
  in_marks : fl_low f = low ∧ fl_high f = high;
  in_told : fl_told f = b;
  in_fields : sp_transport s = t ∧ sp_protocol s = PApp ∧ _should_resume_reading s = rd ∧
              _should_resume_writing s = b;
  in_waiter : ∀ x, sp_waiter s = Some x → (x < w_next w)%nat }.

Definition has_protocol (w : world) : Prop := ∃ f tr s, installed w f tr s.

(** How the flow, the waiter and the futures may change under the native callbacks. *)
Lemma installed_futs w f tr s w' :
  w_flows w' = w_flows w → w_trans w' = w_trans w → w_sps w' = w_sps w →
  (w_next w ≤ w_next w')%nat → installed w f tr s → installed w' f tr s.
Proof.
  intros H1 H2 H3 H4 H. split; try rewrite ?H1, ?H2, ?H3; try apply H.
  intros x Hx. pose proof (in_waiter _ _ _ _ H x Hx). lia.
Qed.
Lemma installed_flow w f tr s g :
  installed w f tr s →
  fl_protocol (g f) = fl_protocol f → fl_low (g f) = fl_low f → fl_high (g f) = fl_high f →
  fl_told (g f) = fl_told f → installed (set_flows (alter g t) w) (g f) tr s.
Proof.
  intros H H1 H2 H3 H4. split; cbn; rewrite ?H1, ?H2, ?H3, ?H4; try apply H.
  by rewrite lookup_alter_eq, (in_flow _ _ _ _ H).
Qed.
Lemma installed_waiter w f tr s x :
  installed w f tr s → (∀ y, x = Some y → (y < w_next w)%nat) →
  installed (set_sps (alter (with_waiter x) sp) w) f tr (with_waiter x s).
Proof.
  intros H Hx. split; cbn; try apply H; [|done].
  by rewrite lookup_alter_eq, (in_sp _ _ _ _ H).
Qed.

(** What two states have in common when only flow control moved. *)
Definition flow_only (w w' : world) : Prop :=
  w_pos w' !! t = w_pos w !! t ∧ w_trans w' = w_trans w.

(** [maybePauseProtocol] and [maybeResumeProtocol] while [sp] is installed. *)
Lemma maybe_pause_cases w f tr s :
  installed w f tr s →
  wp (maybe_pause t) (λ _ w',
      w' = w ∧ ((length (fl_buf f) ≤ high)%nat ∨ fl_paused f = true) ∨
      (high < length (fl_buf f))%nat ∧ fl_paused f = false ∧ sent o w' = sent o w ∧ w_pos w' = w_pos w ∧
      (w_next w ≤ w_next w')%nat ∧
      ∃ s', installed w' (with_paused true f) tr s' ∧
        (sp_waiter s ≠ None ∧ s' = s ∧ w_futs w' = w_futs w ∨
         sp_waiter s = None ∧ sp_waiter s' = Some (w_next w) ∧
         w_futs w' = <[w_next w := Pending]> (w_futs w)))
    (λ _ _, False) w.
Proof.
  intros H. unfold maybe_pause, get_flow. destruct (in_marks _ _ _ _ H) as [Hlo Hhi].
  apply wp_bind, wp_bind, wp_gets. rewrite (in_flow _ _ _ _ H). apply wp_ret. rewrite Hhi.
  destruct (Nat.leb_spec (length (fl_buf f)) high); cbn [orb negb]; [apply wp_ret; by left; auto|].
  destruct (fl_paused f) eqn:Hp; cbn [orb negb]; [apply wp_ret; by left; auto|]. unfold upd_flow.
  apply wp_bind, wp_modify. rewrite (in_protocol _ _ _ _ H). unfold call_protocol. cbn [pause_writing].
  apply wp_catch. unfold sp_pause_writing, get_sp, create_future, alloc, upd_sp.
  apply wp_bind, wp_bind, wp_gets. cbn [w_sps set_flows]. rewrite (in_sp _ _ _ _ H). apply wp_ret.
  assert (H' : installed (set_flows (alter (with_paused true) t) w) (with_paused true f) tr s)
    by (by apply installed_flow).
  destruct (sp_waiter s) as [x|] eqn:Hx.
  - apply wp_ret. right. do 5 (split; [done|]). exists s. split; [done|]. by left.
  - wp_go. right. do 4 (split; [done|]). split; [cbn; lia|].
    exists (with_waiter (Some (w_next w)) s). split; [|by right].
    apply installed_waiter; [|intros y [= <-]; cbn; lia].
    eapply installed_futs; [..|exact H']; try done. cbn. lia.
Qed.

Lemma maybe_resume_cases w f tr s :
  installed w f tr s →
  wp (maybe_resume t) (λ _ w',
      w' = w ∧ (tr_closing tr = true ∨ fl_paused f = false ∨ (low < length (fl_buf f))%nat) ∨
      tr_closing tr = false ∧ (length (fl_buf f) ≤ low)%nat ∧
      sent o w' = sent o w ∧ w_pos w' = w_pos w ∧ w_next w' = w_next w ∧
      ∃ s', installed w' (with_paused false f) tr s' ∧
        (s' = s ∧ w_futs w' = w_futs w ∧ (∀ x, sp_waiter s = Some x → w_futs w !! x ≠ Some Pending) ∨
         ∃ x, sp_waiter s = Some x ∧ w_futs w !! x = Some Pending ∧ s' = with_waiter None s ∧
         w_futs w' = <[x := Resolved]> (w_futs w)))
    (λ _ _, False) w.
Proof.
  intros H. unfold maybe_resume, is_closing, get_flow. destruct (in_marks _ _ _ _ H) as [Hlo Hhi].
  apply wp_bind, wp_gets, wp_bind, wp_bind, wp_gets. rewrite (in_flow _ _ _ _ H), (in_trans _ _ _ _ H).
  apply wp_ret. rewrite Hlo. destruct (tr_closing tr) eqn:Hc; cbn [orb negb]; [apply wp_ret; by left; auto|].
  destruct (fl_paused f) eqn:Hp; cbn [orb negb]; [|apply wp_ret; left; by auto].
  destruct (Nat.ltb_spec low (length (fl_buf f))); [apply wp_ret; left; by auto|]. unfold upd_flow.
  apply wp_bind, wp_modify. rewrite (in_protocol _ _ _ _ H). unfold call_protocol. cbn [resume_writing].
  apply wp_catch. unfold sp_resume_writing, get_sp, set_result, fut_done, fut_settle, upd_sp.
  apply wp_bind, wp_bind, wp_gets. cbn [w_sps set_flows]. rewrite (in_sp _ _ _ _ H). apply wp_ret.
  assert (H' : installed (set_flows (alter (with_paused false) t) w) (with_paused false f) tr s)
    by (by apply installed_flow).
  destruct (sp_waiter s) as [x|] eqn:Hx.
  2:{ apply wp_ret. right. do 5 (split; [done|]). exists s. split; [done|]. by left. }
  apply wp_bind, wp_bind, wp_gets. cbn [w_futs set_flows]. destruct (bool_decide_reflect (w_futs w !! x = Some Pending)) as [Hf|Hf]; cbn [negb when_].
  - wp_go. right. do 5 (split; [done|]). exists (with_waiter None s). split.
    + apply installed_waiter; [|done]. eapply installed_futs; [..|exact H']; done.
    + right. exists x. done.
  - apply wp_raise. unfold log. apply wp_modify. right. split; [done|]. split; [done|].
    split; [rewrite sent_log; cbn; by rewrite app_nil_r|]. split; [done|]. split; [done|].
    exists s. split; [eapply installed_futs; [..|exact H']; done|]. left. split; [done|]. split; [done|].
    by intros y [= <-].
Qed.

Lemma connection_lost_cases w f tr s e :
  installed w f tr s →
  wp (connection_lost (fl_protocol f) e) (λ _ w',
      sent o w' = sent o w ∧ w_pos w' = w_pos w ∧ w_next w' = w_next w ∧ installed w' f tr s ∧
      (w_futs w' = w_futs w ∨ ∃ x y, sp_waiter s = Some x ∧ w_futs w !! x = Some Pending ∧
         w_futs w' = <[x := Failed y]> (w_futs w)))
    (λ _ _, False) w.
Proof.
  intros H. rewrite (in_protocol _ _ _ _ H). cbn [connection_lost].
  unfold sp_connection_lost, get_sp, fut_done, fut_settle.
  apply wp_bind, wp_bind, wp_gets. rewrite (in_sp _ _ _ _ H). apply wp_ret.
  destruct (sp_waiter s) as [x|] eqn:Hx; [|apply wp_ret; by auto 10].
  apply wp_bind, wp_gets. destruct (bool_decide_reflect (w_futs w !! x = Some Pending)) as [Hf|Hf]; cbn [negb when_].
  - apply wp_modify. do 3 (split; [done|]). split; [eapply installed_futs; [..|exact H]; done|].
    right. by eexists x, _.
  - apply wp_ret. by auto 10.
Qed.
End installed.

(** A statement that only returns, read as a run. *)
Lemma wp_step_to {A} (m : M world A) (Q : A → world → Prop) w :
  wp m Q (λ _ _, False) w → ∃ a, Q a (m w).2.
Proof. unfold wp. destruct (m w) as [[a|e] w']; [by exists a|done]. Qed.

(** ** Nothing buffered, and what waiting for that guarantees *)
Section invariants.
Context `{K : Kernel} (t o sp p : nat) (b rd : bool).
Abbreviation installed0 := (installed t sp b rd 0 0).

(** Everything written has reached the socket, and flow control says so. *)
Definition drained (w : world) : Prop := ∃ f tr s, installed0 w f tr s ∧ fl_buf f = [] ∧
  (tr_closing tr = false → b = false → fl_paused f = false).

(** Of the bytes [S] sent or buffered at first, some may be lost when the connection closes;
    when the waiter [x] is told to go on, all of them have been sent. *)
Definition awaiting (S : list Byte.byte) (x : oid) (w : world) : Prop := ∃ f tr s,
  installed0 w f tr s ∧ ((x < w_next w)%nat ∧ is_Some (w_futs w !! x)) ∧ sent o w `prefix_of` S ∧
  (sent o w ++ fl_buf f = S ∨ tr_closing tr = true ∧ fl_buf f = []) ∧
  (∀ y, sp_waiter s = Some y → w_futs w !! y ≠ Some Resolved) ∧
  (w_futs w !! x = Some Pending → sp_waiter s = Some x) ∧
  (w_futs w !! x = Some Resolved → sent o w = S ∧ fl_buf f = [] ∧
     (tr_closing tr = false → fl_paused f = false)).

Lemma awaiting_drained S x w : awaiting S x w → w_futs w !! x = Some Resolved →
  drained w ∧ sent o w = S.
Proof. intros (f & tr & s & H & _ & _ & _ & _ & _ & Hr) Hx. destruct (Hr Hx) as (? & ? & ?). split; [|done]. by exists f, tr, s; auto. Qed.

(** A step of others that does not concern the transport. *)
Lemma installed_other lo hi w w' f tr s :
  w_flows w' !! t = w_flows w !! t → w_trans w' !! t = w_trans w !! t →
  (∀ sp s, w_sps w !! sp = Some s → sp_transport s = t → w_sps w' !! sp = Some s) →
  futures_kept t w w' → installed t sp b rd lo hi w f tr s → installed t sp b rd lo hi w' f tr s.
Proof.
  intros H1 H2 H3 [Hn _] H. split; rewrite ?H1, ?H2; try apply H.
  - apply H3; [apply H|]. by destruct (in_fields _ _ _ _ _ _ _ _ _ _ H).
  - intros x Hx. pose proof (in_waiter _ _ _ _ _ _ _ _ _ _ H x Hx). lia.
Qed.
Lemma installed_close lo hi w f tr s dropped :
  installed t sp b rd lo hi w f tr s →
  installed t sp b rd lo hi
    (set_trans (alter (with_closing (λ _, true)) t)
       (set_flows (alter (with_buf (λ b, if (dropped : bool) then [] else b)) t) w))
    (with_buf (λ b, if dropped then [] else b) f) (with_closing (λ _, true) tr) s.
Proof.
  intros H. split; cbn; try apply H; by rewrite lookup_alter_eq, ?(in_flow _ _ _ _ _ _ _ _ _ _ H), ?(in_trans _ _ _ _ _ _ _ _ _ _ H).
Qed.
Lemma installed_send lo hi w f tr s d k :
  installed t sp b rd lo hi w f tr s →
  installed t sp b rd lo hi (log_event (EvSend o d) (set_flows (alter (with_buf (drop k)) t) w))
    (with_buf (drop k) f) tr s.
Proof. intros H. eapply installed_futs; [..|by apply installed_flow]; done. Qed.

Lemma drained_step mc w w' : native_step t o p mc w w' → drained w →
  drained w' ∧ sent o w' = sent o w ∧ w_pos w' !! p = w_pos w !! p.
Proof.
  intros Hst (f & tr & s & H & Hb & Hp). destruct Hst as [w w' H1 H2 H3 H4 H5 H6|w f0 k Hf|w|w|w d Hmc|w f0 tr0 e Hf Ht Hc].
  - split; [|done]. exists f, tr, s. split; [by eapply installed_other|done].
  - assert (f0 = f) as -> by (rewrite (in_flow _ _ _ _ _ _ _ _ _ _ H) in Hf; congruence).
    split; [|by rewrite sent_log; cbn; rewrite decide_True, Hb, take_nil, app_nil_r].
    exists (with_buf (drop k) f), tr, s. split; [by apply installed_send|]. cbn. by rewrite Hb, drop_nil.
  - destruct (wp_step_to _ _ _ (maybe_pause_cases t o sp b rd 0 0 w f tr s H)) as [_ [[-> _]|[Hl _]]].
    + split; [by exists f, tr, s|done].
    + rewrite Hb in Hl. cbn in Hl. lia.
  - destruct (wp_step_to _ _ _ (maybe_resume_cases t o sp b rd 0 0 w f tr s H)) as [_ [[-> _]|Hr]].
    + split; [by exists f, tr, s|done].
    + destruct Hr as (_ & _ & Hs & Hpos & _ & s' & H' & _). rewrite Hpos. split; [|done].
      by exists (with_paused false f), tr, s'.
  - split; [|done]. eexists _, _, s. split; [by apply installed_close|]. cbn. rewrite Hb. by destruct d.
  - assert (f0 = f) as -> by (rewrite (in_flow _ _ _ _ _ _ _ _ _ _ H) in Hf; congruence).
    destruct (wp_step_to _ _ _ (connection_lost_cases t o sp b rd 0 0 w f tr s e H)) as [_ (Hs & Hpos & _ & H' & _)].
    rewrite Hpos. split; [|done]. by exists f, tr, s.
Qed.

(** Others leave a waiter, and a future that is done, as it is. *)
Lemma kept_future w w' s x :
  futures_kept t w w' → w_sps w !! sp = Some s → sp_transport s = t → is_Some (w_futs w !! x) →
  (w_futs w !! x = Some Pending → sp_waiter s = Some x) → w_futs w' !! x = w_futs w !! x.
Proof.
  intros (_ & Hdone & Hmine) Hs Ht [v Hv] Hp. destruct v; try (rewrite Hv; by apply Hdone).
  by eapply Hmine; eauto.
Qed.

(** The flow itself moved, and the futures as little as possible. *)
Lemma awaiting_flow S x w w' f tr s f' tr' s' :
  installed0 w' f' tr' s' → (w_next w ≤ w_next w')%nat →
  (x < w_next w)%nat ∧ is_Some (w_futs w !! x) → w_futs w' !! x = w_futs w !! x →
  sent o w' `prefix_of` S → (sent o w' ++ fl_buf f' = S ∨ tr_closing tr' = true ∧ fl_buf f' = []) →
  (∀ y, sp_waiter s' = Some y → w_futs w' !! y ≠ Some Resolved) →
  (w_futs w !! x = Some Pending → sp_waiter s' = Some x) →
  (w_futs w !! x = Some Resolved → sent o w' = S ∧ fl_buf f' = [] ∧
     (tr_closing tr' = false → fl_paused f' = false)) →
  installed0 w f tr s → awaiting S x w'.
Proof.
  intros H Hn [Hx1 Hx2] Hf Hpre Hall Hw Hpend Hres _. exists f', tr', s'. rewrite Hf.
  repeat (split; [done || (split; [lia|done])|]). done.
Qed.

Lemma send_prefix (a b' S : list Byte.byte) k : a ++ b' = S → a ++ take k b' `prefix_of` S.
Proof. intros <-. apply prefix_app. exists (drop k b'). by rewrite take_drop. Qed.

Lemma awaiting_step mc S x w w' : native_step t o p mc w w' → awaiting S x w → awaiting S x w'.
Proof.
  intros Hst (f & tr & s & H & Hx & Hpre & Hall & Hw & Hpend & Hres).
  destruct (in_fields _ _ _ _ _ _ _ _ _ _ H) as (Htr & _).
  destruct Hst as [w w' H1 H2 H3 H4 H5 H6|w f0 k Hf|w|w|w d Hmc|w f0 tr0 e Hf Ht Hc].
  - assert (Hk : ∀ y, is_Some (w_futs w !! y) → (w_futs w !! y = Some Pending → sp_waiter s = Some y) →
      w_futs w' !! y = w_futs w !! y) by (intros y; by apply kept_future; [done|apply H|]).
    eapply (awaiting_flow S x w w' f tr s f tr s); [by eapply installed_other|apply H4|done|by apply Hk; [apply Hx|]|..];
      rewrite ?H6; try done.
    intros y Hy. destruct H4 as (_ & _ & Hmine). erewrite Hmine; [by apply Hw|apply H|done|done].
  - assert (f0 = f) as -> by (rewrite (in_flow _ _ _ _ _ _ _ _ _ _ H) in Hf; congruence).
    assert (Hs : sent o (log_event (EvSend o (take k (fl_buf f))) (set_flows (alter (with_buf (drop k)) t) w))
      = sent o w ++ take k (fl_buf f)) by (rewrite sent_log; cbn; by rewrite decide_True).
    eapply (awaiting_flow S x w _ f tr s (with_buf (drop k) f) tr s); [by apply installed_send|done|done|done| | |done|done| |done];
      rewrite Hs; cbn.
    + destruct Hall as [Hall|[_ Hb]]; [by apply send_prefix|by rewrite Hb, take_nil, app_nil_r].
    + destruct Hall as [Hall|[Hc Hb]]; [left; by rewrite <-app_assoc, take_drop|right; by rewrite Hb, drop_nil].
    + intros Hr. destruct (Hres Hr) as (HS & Hb & Hp). by rewrite Hb, take_nil, drop_nil, app_nil_r.
  - destruct (wp_step_to _ _ _ (maybe_pause_cases t o sp b rd 0 0 w f tr s H)) as [_ [[-> _]|Hr]];
      [by exists f, tr, s|].
    destruct Hr as (Hl & Hpa & Hs & _ & Hn & s' & H' & Hcase).
    assert (Hne : fl_buf f ≠ []) by (intros E; rewrite E in Hl; cbn in Hl; lia).
    eapply (awaiting_flow S x w _ f tr s _ tr s'); [exact H'|done|done| | | | | | |done]; rewrite ?Hs; try done.
    + destruct Hcase as [(_ & _ & ->)|(_ & _ & ->)]; [done|]. rewrite lookup_insert_ne by lia. done.
    + destruct Hcase as [(_ & -> & ->)|(_ & Hy & ->)]; [done|]. intros y. rewrite Hy. intros [= <-].
      by rewrite lookup_insert_eq.
    + destruct Hcase as [(_ & -> & _)|(Hno & _)]; [done|]. intros Hr. specialize (Hpend Hr). congruence.
    + intros Hr. by destruct (Hres Hr) as (_ & ? & _).
  - destruct (wp_step_to _ _ _ (maybe_resume_cases t o sp b rd 0 0 w f tr s H)) as [_ [[-> _]|Hr]];
      [by exists f, tr, s|].
    destruct Hr as (Hc & Hl & Hs & _ & Hn & s' & H' & Hcase).
    assert (Hb : fl_buf f = []) by (destruct (fl_buf f); [done|cbn in Hl; lia]).
    assert (HS : sent o w = S).
    { destruct Hall as [Hall|[? _]]; [by rewrite Hb, app_nil_r in Hall|congruence]. }
    destruct Hcase as [(-> & Hf & Hnp)|(y & Hy & Hyp & -> & Hf)].
    + eapply (awaiting_flow S x w _ f tr s _ tr s); [exact H'|lia|done|by rewrite Hf|..]; rewrite ?Hs, ?Hf; try done.
    + eexists _, tr, _. rewrite Hs, Hf. split; [exact H'|]. split; [split; [lia|]|].
      { destruct (decide (x = y)) as [->|]; [by rewrite lookup_insert_eq; eauto|by rewrite lookup_insert_ne; [apply Hx|]]. }
      split; [done|]. cbn. split; [left; by rewrite Hb, app_nil_r|]. split; [done|]. split; [|done].
      destruct (decide (x = y)) as [->|]; [by rewrite lookup_insert_eq|]. rewrite lookup_insert_ne by done.
      intros Hr. specialize (Hpend Hr). congruence.
  - eapply (awaiting_flow S x w _ f tr s _ _ s); [by apply installed_close|done|done|done|done| |done|done| |done]; cbn.
    + destruct d; [by right|]. destruct Hall as [Hall|[_ Hb]]; [by left|by right].
    + intros Hr. destruct (Hres Hr) as (HS & Hb & _). split; [done|]. split; [by destruct d|done].
  - assert (f0 = f) as -> by (rewrite (in_flow _ _ _ _ _ _ _ _ _ _ H) in Hf; congruence).
    destruct (wp_step_to _ _ _ (connection_lost_cases t o sp b rd 0 0 w f tr s e H))
      as [_ (Hs & _ & Hn & H' & Hcase)].
    eexists f, tr, s. rewrite Hs, Hn. split; [done|]. destruct Hcase as [->|(y & v & Hy & Hyp & ->)].
    + repeat (split; [done|]). done.
    + split; [split; [apply Hx|]|].
      { destruct (decide (x = y)) as [->|]; [by rewrite lookup_insert_eq; eauto|by rewrite lookup_insert_ne; [apply Hx|]]. }
      repeat (split; [done|]). split; [|split].
      * intros z Hz. destruct (decide (y = z)) as [->|]; [by rewrite lookup_insert_eq|by rewrite lookup_insert_ne; [apply Hw|]].
      * destruct (decide (y = x)) as [->|]; [by rewrite lookup_insert_eq|by rewrite lookup_insert_ne].
      * destruct (decide (y = x)) as [->|]; [by rewrite lookup_insert_eq|by rewrite lookup_insert_ne].
Qed.
End invariants.

(** ** Runs of the native path *)
Section native.
Context `{KR : KernelReal} `{IO : SockIO} `{FIO : FileIO} `{NIO : NativeIO}.
Context (t o : oid) (src : source) (mc : bool) `{SE : !StreamEnv t o (src_id src) mc}.

(** Each system call of the descriptor path makes progress and raises its own errors. *)
Class NativeFile := {
  nf_fileno : ∀ e, src_fileno src = FilenoRaises e → exn_cls e ≠ ModelFuel;
  nf_send : ∀ n d, d ≠ [] → (0 < tx n d)%nat;
  nf_read : ∀ n k, (0 < rd n k)%nat;
  nf_fails : ∀ n e, fails n = Some e → exn_cls e ≠ SendfileNotAvailableError }.
Context `{NF : !NativeFile}.

Section with_protocol.
Context (sp : oid) (b rd_ : bool).
Abbreviation drained_ := (drained t sp b rd_).
Abbreviation awaiting_ := (awaiting t o sp b rd_).

Lemma drained_rtc w w' : rtc (native_step t o (src_id src) mc) w w' → drained_ w →
  drained_ w' ∧ sent o w' = sent o w ∧ pos src w' = pos src w.
Proof.
  induction 1 as [w|w w1 w' Hst _ IH]; [done|]. intros Hd.
  destruct (drained_step _ _ _ _ _ _ _ _ _ Hst Hd) as (Hd1 & Hs1 & Hp1).
  destruct (IH Hd1) as (Hd2 & Hs2 & Hp2). split; [done|].
  split; [congruence|]. rewrite Hp2. unfold pos. by rewrite Hp1.
Qed.

#[export] Instance drained_sendfile_ok : SendfileOk o src drained_.
Proof.
  split; [apply nf_fileno| |..|apply nf_send|apply nf_read|apply nf_fails].
  - intros n w Hd. apply drained_rtc; [apply (intf_stream t o (src_id src))|done].
  - intros w w' H1 H2 H3 H4 Hn (f & tr & s & H & Hb). exists f, tr, s. split; [|done].
    by eapply installed_futs.
Qed.

Lemma awaiting_frame B x w w' :
  w_flows w' = w_flows w → w_trans w' = w_trans w → w_sps w' = w_sps w → w_futs w' = w_futs w →
  (w_next w ≤ w_next w')%nat → sent o w' = sent o w → awaiting_ B x w → awaiting_ B x w'.
Proof.
  intros H1 H2 H3 H4 Hn Hs (f & tr & s & H & [Hx1 Hx2] & H'). exists f, tr, s. rewrite H4, Hs.
  split; [by eapply installed_futs|]. split; [split; [lia|done]|done].
Qed.

Lemma wp_yield_awaiting B x w (Q : unit → world → Prop) E :
  awaiting_ B x w → (∀ w', awaiting_ B x w' → Q tt w') → wp yield_ Q E w.
Proof.
  intros Hw HQ. unfold yield_, tick. wp_go. apply HQ.
  set (w1 := set_tick S w). assert (Hw1 : awaiting_ B x w1) by (eapply awaiting_frame; [..|exact Hw]; done).
  assert (Hr := intf_stream t o (src_id src) (w_tick w) w1).
  revert Hw1. induction Hr as [|w1 w2 w3 Hst _ IH]; [done|]. intros Hw1. apply IH.
  by eapply awaiting_step.
Qed.

(** A future that is done and was never told to go on is no danger. *)
Lemma awaiting_settle B x w v : v ≠ Pending → v ≠ Resolved → awaiting_ B x w →
  awaiting_ B x (set_futs (<[x := v]>) w).
Proof.
  intros Hv1 Hv2 (f & tr & s & H & [Hx1 Hx2] & Hpre & Hall & Hw & Hp & Hr). exists f, tr, s.
  split; [by eapply installed_futs; [..|exact H]|]. cbn. rewrite lookup_insert_eq.
  split; [by eauto|]. split; [done|]. split; [done|]. split; [|split; congruence].
  intros y Hy. rewrite lookup_insert. case_decide; [congruence|by apply Hw].
Qed.

Lemma wp_await_turn B w (Q : unit → world → Prop) (E : exn → world → Prop) :
  drained_ w → sent o w = B →
  (∀ w', drained_ w' → sent o w' = B → Q tt w') →
  (∀ w', drained_ w' → sent o w' = B → E cancelled w') → wp await_ Q E w.
Proof.
  intros Hd Hs HQ HE.
  eapply wp_mono; [apply wp_and; [apply (plumb_await_stable (still o src drained_))|apply await_cancels]|..].
  - intros [] w' [H _]. destruct (H Hd) as (Hd' & Hs' & _). apply HQ; congruence.
  - intros e w' [H ->]. destruct (H Hd) as (Hd' & Hs' & _). apply HE; congruence.
Qed.

Lemma wp_await_awaiting B x w : awaiting_ B x w →
  wp await_ (λ _, awaiting_ B x) (λ _, awaiting_ B x) w.
Proof.
  intros Hw. unfold await_, tick. apply wp_bind. eapply wp_yield_awaiting; [done|]. intros w2 H2.
  assert (H2' : awaiting_ B x (set_tick Datatypes.S w2)) by (by eapply awaiting_frame; [..|exact H2]).
  wp_go; done.
Qed.

(** Waiting for the waiter: told to go on, everything written has been sent. *)
Lemma wp_await_waiter B x ws w : awaiting_ B x w →
  wp (await_waiter x ws) (λ _ w', drained_ w' ∧ sent o w' = B)
    (λ _ w', awaiting_ B x w' ∨ drained_ w' ∧ sent o w' = B) w.
Proof.
  revert w. induction ws as [|[] ws IH]; intros w Hw; cbn [await_waiter].
  2:{ apply wp_bind. eapply wp_yield_awaiting; [done|]. intros w1 H1. apply wp_bind, wp_gets.
      destruct (w_futs w1 !! x) as [[| | |e]|] eqn:Hf; [by apply IH|..|by apply IH].
      - destruct (awaiting_drained _ _ _ _ _ _ _ _ H1 Hf) as [Hd Hs].
        eapply wp_await_turn; [done|done|by auto|by auto].
      - apply wp_bind. eapply wp_mono; [by apply wp_await_awaiting|intros u w2 H2; apply wp_raise; by left|by left].
      - apply wp_bind. eapply wp_mono; [by apply wp_await_awaiting|intros u w2 H2; apply wp_raise; by left|by left]. }
  all: unfold fut_cancel, fut_done, fut_settle; apply wp_bind, wp_bind, wp_gets, wp_when; intros Hb.
  all: try apply wp_modify; apply wp_bind; eapply wp_yield_awaiting; [|intros w1 H1; apply wp_raise; by left].
  all: done || (by apply awaiting_settle).
Qed.

(** [drain] with something to wait for. *)
Lemma wp_drain B x w f tr s :
  awaiting_ B x w → installed t sp b rd_ 0 0 w f tr s → sp_waiter s = Some x →
  wp (drain sp) (λ _ w', drained_ w' ∧ sent o w' = B)
    (λ _ w', awaiting_ B x w' ∨ drained_ w' ∧ sent o w' = B) w.
Proof.
  intros Hw H Hx. unfold drain, get_sp, is_closing, tick. apply wp_bind, wp_bind, wp_gets.
  rewrite (in_sp _ _ _ _ _ _ _ _ _ _ H). apply wp_ret, wp_bind, wp_gets.
  destruct (in_fields _ _ _ _ _ _ _ _ _ _ H) as (-> & _).
  rewrite (in_trans _ _ _ _ _ _ _ _ _ _ H), Hx.
  destruct (tr_closing tr); [apply wp_raise; by left|]. wp_step. wp_step. wp_step. wp_step. wp_step. wp_step.
  apply wp_await_waiter. by eapply awaiting_frame; [..|exact Hw].
Qed.
End with_protocol.

(** The transport as the application left it, before [sendfile]. *)
Record idle (w : world) (f : flow) (tr : transport) : Prop := {
  id_flow : w_flows w !! t = Some f;
  id_trans : w_trans w !! t = Some tr;
  id_open : tr_closing tr = false;
  id_protocol : fl_protocol f = PApp;
  id_told : fl_told f = fl_paused f;
  id_marks : (fl_low f ≤ fl_high f)%nat }.

(** Given back: the application's protocol and marks, and nothing sent since. *)
Definition given_back (f0 : flow) (w : world) : Prop := ∃ f, w_flows w !! t = Some f ∧
  fl_protocol f = PApp ∧ fl_low f = fl_low f0 ∧ fl_high f = fl_high f0.
(** While it is open, its protocol has been told what flow control says. *)
Definition in_sync (w : world) : Prop := ∀ f tr, w_flows w !! t = Some f → w_trans w !! t = Some tr →
  tr_closing tr = false → fl_told f = fl_paused f.

Lemma sent_frame w w' : w_log w' = w_log w → sent o w' = sent o w.
Proof. intros H. unfold sent. by rewrite H. Qed.

Lemma sys_log (Q : unit → world → Prop) (E : exn → world → Prop) w :
  Q tt (set_tick Datatypes.S w) → (∀ e, plain e → E e (set_tick Datatypes.S w)) → wp sys Q E w.
Proof.
  intros HQ HE. unfold sys, tick. wp_step. wp_step. wp_step. wp_step. wp_step. wp_step.
  destruct (fails (w_tick w)) as [e|] eqn:Hf; [apply wp_raise, HE; split; [by eapply fails_real|by eapply nf_fails]|by apply wp_ret].
Qed.

(** [_SendfileProtocol(...)]: installed, with a future to wait on if writing is paused. *)
Lemma wp_new_sendfile_protocol w f0 tr : idle w f0 tr →
  wp (new_sendfile_protocol t (fl_paused f0))
    (λ sp w', ∃ f s, installed t sp (fl_paused f0) (fl_reading f0) (fl_low f0) (fl_high f0) w' f tr s ∧
       fl_buf f = fl_buf f0 ∧ fl_paused f = fl_paused f0 ∧
       match sp_waiter s with
       | Some x => fl_paused f0 = true ∧ w_futs w' !! x = Some Pending
       | None => fl_paused f0 = false
       end ∧ w_log w' = w_log w ∧ w_pos w' = w_pos w)
    (λ e w', plain e ∧ w_flows w' !! t = Some f0 ∧ w_log w' = w_log w) w.
Proof.
  intros [Hf Ht _ Hp Htold Hm]. unfold new_sendfile_protocol, get_flow.
  apply wp_bind, wp_bind, wp_gets. rewrite Hf. apply wp_ret, wp_bind.
  apply (wp_mono _ (λ x w', w_flows w' = w_flows w ∧ w_trans w' = w_trans w ∧ w_log w' = w_log w ∧
      w_pos w' = w_pos w ∧
      match x with
      | Some y => fl_paused f0 = true ∧ w_futs w' !! y = Some Pending ∧ (y < w_next w')%nat
      | None => fl_paused f0 = false
      end) _ (λ _ _, False)); [|intros wt w1 (H1 & H2 & H3 & H4 & Hwt)|done].
  { destruct (fl_paused f0) eqn:Hb; [|by apply wp_ret]. unfold create_future, alloc. wp_go.
    cbn. rewrite lookup_insert_eq. repeat (split; [done|]). lia. }
  unfold alloc. apply wp_bind. wp_step. wp_step. wp_step. wp_step. wp_step. apply wp_bind, wp_modify.
  set (sp := w_next w1). set (s := SendProto t (fl_protocol f0) (fl_reading f0) (fl_paused f0) wt).
  set (w2 := set_sps _ _). apply wp_bind.
  apply (wp_mono _ (λ _ w', w_flows w' !! t = Some (with_reading false f0) ∧ w_sps w' !! sp = Some s ∧
      w_trans w' = w_trans w ∧ w_log w' = w_log w ∧ w_pos w' = w_pos w ∧ w_futs w' = w_futs w1 ∧
      w_next w' = Datatypes.S (w_next w1)) _
    (λ e w', plain e ∧ w_flows w' !! t = Some f0 ∧ w_log w' = w_log w));
    [|intros _ w3 (H5 & H6 & H7 & H8 & H9 & H10 & H11)|done].
  { unfold pause_reading, get_flow, upd_flow. apply wp_bind, wp_bind, wp_gets.
    assert (Hf2 : w_flows w2 !! t = Some f0) by (cbn; by rewrite H1). rewrite Hf2. apply wp_ret, wp_when.
    - intros Hr. apply wp_bind, sys_log.
      + apply wp_modify. cbn. rewrite lookup_alter_eq, H1, Hf, lookup_insert_eq. done.
      + intros e He. done.
    - intros Hr. cbn. rewrite H1, Hf, lookup_insert_eq. repeat (split; [|done]).
      f_equal. destruct f0; cbn in *; by rewrite Hr. }
  apply wp_bind. unfold set_protocol, upd_flow. apply wp_modify, wp_ret.
  exists (with_protocol (PSend sp) (with_reading false f0)), s. split.
  - split; cbn; try done.
    + by rewrite lookup_alter_eq, H5.
    + by rewrite H7.
    + intros x Hx. destruct wt; [|done]. injection Hx as <-. destruct Hwt as (_ & _ & ?). lia.
  - cbn. split; [done|]. split; [done|]. split; [|done].
    destruct wt; [|done]. rewrite H10. by destruct Hwt as (? & ? & _).
Qed.

Lemma wp_set_limits sp b rd_ lo hi high low f tr s w (Q : unit → world → Prop) E :
  installed t sp b rd_ lo hi w f tr s → (low ≤ high)%nat →
  (∀ f' s' w', installed t sp b rd_ low high w' f' tr s' → fl_buf f' = fl_buf f →
     sent o w' = sent o w → w_pos w' = w_pos w → (w_next w ≤ w_next w')%nat →
     ((length (fl_buf f) ≤ high)%nat ∨ fl_paused f = true) ∧ fl_paused f' = fl_paused f ∧ s' = s ∧
        w_futs w' = w_futs w ∨
     (high < length (fl_buf f))%nat ∧ fl_paused f = false ∧ fl_paused f' = true ∧
        (sp_waiter s ≠ None ∧ s' = s ∧ w_futs w' = w_futs w ∨
         sp_waiter s = None ∧ sp_waiter s' = Some (w_next w) ∧
         w_futs w' = <[w_next w := Pending]> (w_futs w)) →
     Q tt w') →
  wp (set_write_buffer_limits t high low) Q E w.
Proof.
  intros H Hle HQ. unfold set_write_buffer_limits, upd_flow.
  rewrite (proj2 (Nat.ltb_ge high low) Hle). apply wp_bind, wp_modify.
  set (w1 := set_flows _ w).
  assert (H1 : installed t sp b rd_ low high w1 (with_marks low high f) tr s).
  { split; try apply H; cbn; [|done]. by rewrite lookup_alter_eq, (in_flow _ _ _ _ _ _ _ _ _ _ H). }
  eapply wp_mono; [apply (maybe_pause_cases t o sp b rd_ low high w1 _ tr s H1)| |done].
  intros [] w2 [[-> Hc]|(Hl & Hp & Hs & Hpos & Hn & s' & H' & Hcase)].
  - apply (HQ (with_marks low high f) s w1); [done..|]. by left.
  - apply (HQ _ s' w2 H'); [done..|]. by right.
Qed.

(** The end of both ways: the marks and the protocol are put back. *)
Lemma wp_restore_protocol sp f0 lo hi f tr s w :
  installed t sp (fl_paused f0) (fl_reading f0) lo hi w f tr s →
  lo = fl_low f0 → hi = fl_high f0 →
  wp (restore sp)
    (λ _ w', given_back f0 w' ∧ sent o w' = sent o w ∧
       (∃ f', w_flows w' !! t = Some f' ∧ fl_buf f' = fl_buf f) ∧
       ((tr_closing tr = false → fl_paused f0 = false → fl_paused f = false) → in_sync w'))
    (λ e w', plain e ∧ given_back f0 w' ∧ sent o w' = sent o w ∧
       (∃ f', w_flows w' !! t = Some f' ∧ fl_buf f' = fl_buf f)) w.
Proof.
  intros H -> ->. destruct H as [Hf Ht Hs Hp [Hlo Hhi] Htold (Et & Ep & Er & Ew) Hx].
  unfold restore, get_sp, set_protocol, upd_flow. apply wp_bind, wp_bind, wp_gets. rewrite Hs.
  apply wp_ret. rewrite Et, Ep, Er, Ew. apply wp_bind, wp_modify, wp_bind. set (f1 := with_protocol PApp f). set (w1 := set_flows _ w).
  assert (Hf1 : w_flows w1 !! t = Some f1) by (cbn; by rewrite lookup_alter_eq, Hf).
  apply (wp_mono _ (λ _ w', ∃ r, w_flows w' !! t = Some (with_reading r f1) ∧ w_trans w' = w_trans w ∧
      w_sps w' = w_sps w ∧ w_log w' = w_log w) _
    (λ e w', plain e ∧ w_flows w' !! t = Some f1 ∧ w_log w' = w_log w));
    [|intros _ w2 (r & H2 & H3 & H4 & H5)|intros e w2 (He & H2 & H3)].
  { apply wp_when; [intros _|intros _; exists (fl_reading f1); split; [|done]; rewrite Hf1; by destruct f].
    unfold resume_reading, is_closing, get_flow, upd_flow.
    apply wp_bind, wp_gets, wp_bind, wp_bind, wp_gets. rewrite Hf1. apply wp_ret. destruct (_ || _).
    - apply wp_ret. exists (fl_reading f1). split; [|done]. rewrite Hf1. by destruct f.
    - apply wp_bind, sys_log; [|by intros e He]. apply wp_modify. exists true. split; [|done].
      cbn. by rewrite !lookup_alter_eq, Hf. }
  2:{ split; [done|]. rewrite (sent_frame w w2) by done. split; [by exists f1|]. split; [done|]. by exists f1. }
  apply wp_bind.
  apply (wp_mono _ (λ _ w', w_flows w' = w_flows w2 ∧ w_trans w' = w_trans w2 ∧ w_log w' = w_log w2) _ (λ _ _, False));
    [|intros _ w3 (H6 & H7 & H8)|done].
  { destruct (sp_waiter s); [|by apply wp_ret]. unfold fut_cancel, fut_done, fut_settle, upd_sp. wp_go; done. }
  unfold get_flow. apply wp_bind, wp_bind, wp_gets. rewrite H6, H2. apply wp_ret. cbn [fl_paused with_reading with_protocol f1].
  assert (Hsent : sent o w3 = sent o w) by (apply sent_frame; congruence).
  apply wp_when; intros Hb.
  - cbn [resume_writing]. unfold upd_flow. apply wp_modify.
    set (f2 := with_told false (with_reading r f1)).
    assert (Hf2 : w_flows (set_flows (alter (with_told false) t) w3) !! t = Some f2) by (cbn; by rewrite lookup_alter_eq, H6, H2).
    split; [by exists f2|]. split; [done|]. split; [by exists f2|].
    intros _ f' tr' Hf' _ _. rewrite Hf2 in Hf'. injection Hf' as <-. cbn.
    apply andb_true_iff in Hb as [_ Hb%negb_true_iff]. by rewrite Hb.
  - assert (Hf2 : w_flows w3 !! t = Some (with_reading r f1)) by (by rewrite H6).
    split; [by eexists|]. split; [done|]. split; [by eexists|].
    intros Hd f' tr' Hf' Ht' Hc. rewrite Hf2 in Hf'. injection Hf' as <-. cbn. rewrite Htold.
    assert (tr' = tr) as -> by (rewrite H7, H3 in Ht'; congruence).
    destruct (fl_paused f0) eqn:Hb0; [by apply negb_false_iff in Hb|by rewrite Hd].
Qed.

(** The marks are at zero: either nothing is buffered, or the protocol waits for that. *)
Lemma wp_zero_marks sp f0 f tr s w (Q : unit → world → Prop) E :
  installed t sp (fl_paused f0) (fl_reading f0) (fl_low f0) (fl_high f0) w f tr s →
  tr_closing tr = false → fl_paused f = fl_paused f0 →
  match sp_waiter s with
  | Some x => fl_paused f0 = true ∧ w_futs w !! x = Some Pending
  | None => fl_paused f0 = false
  end →
  (∀ w' f' s', installed t sp (fl_paused f0) (fl_reading f0) 0 0 w' f' tr s' →
     fl_buf f' = fl_buf f → sent o w' = sent o w → w_pos w' = w_pos w →
     (fl_buf f = [] → drained t sp (fl_paused f0) (fl_reading f0) w') →
     (fl_buf f ≠ [] → ∃ x, sp_waiter s' = Some x ∧
        awaiting t o sp (fl_paused f0) (fl_reading f0) (sent o w ++ fl_buf f) x w') → Q tt w') →
  wp (set_write_buffer_limits t 0 0) Q E w.
Proof.
  intros H Hc Hp Hw HQ. eapply wp_set_limits; [exact H|lia|].
  intros f' s' w' H' Hb Hs Hpos Hn Hcase. apply (HQ w' f' s'); try done.
  - intros Hnil. exists f', tr, s'. split; [done|]. rewrite Hb. split; [done|]. intros _ Hb0.
    destruct Hcase as [(_ & -> & _)|(Hl & _)]; [congruence|]. rewrite Hnil in Hl. cbn in Hl. lia.
  - intros Hne. assert (Hl : (0 < length (fl_buf f))%nat) by (destruct (fl_buf f); [done|cbn; lia]).
    assert (Haw : ∀ x, sp_waiter s' = Some x → w_futs w' !! x = Some Pending → 
      awaiting t o sp (fl_paused f0) (fl_reading f0) (sent o w ++ fl_buf f) x w').
    { intros x Hx Hf. exists f', tr, s'. rewrite Hs, Hb, Hf. split; [done|].
      split; [split; [by eapply in_waiter|done]|]. split; [by exists (fl_buf f)|]. split; [by left|].
      split; [intros y Hy; congruence|done]. }
    destruct Hcase as [(Hor & _ & -> & Hf)|(_ & Hpf & _ & Hcase)].
    + destruct Hor as [|Hpt]; [lia|]. destruct (sp_waiter s) as [x|] eqn:Hx; [|congruence].
      destruct Hw as [_ Hw]. exists x. split; [done|]. apply Haw; [done|congruence].
    + destruct (sp_waiter s) as [x|] eqn:Hx; [destruct Hw as [Hw _]; congruence|].
      destruct Hcase as [(? & _)|(_ & Hx' & Hf)]; [done|].
      exists (w_next w). split; [done|]. apply Haw; [done|]. by rewrite Hf, lookup_insert_eq.
Qed.

(** What a failure between installing and giving back leaves: what has been sent is a first
    part of what was written and is due, and of what was written only if a fallback is asked. *)
Definition sent_part (B d : list Byte.byte) (e : exn) (w : world) : Prop :=
  sent o w `prefix_of` B ++ d ∧ (exn_cls e = SendfileNotAvailableError → sent o w `prefix_of` B).

Section body.
Context (sp : oid) (b rd_ : bool) (offset : nat) (count : option nat).
Abbreviation at0 := (at_ o src (drained t sp b rd_)).
Hypothesis Hsz : count = None → src_size src = length (src_bytes src).
Let d := due src count offset 0.
Definition still_installed (w : world) : Prop := ∃ f tr s, installed t sp b rd_ 0 0 w f tr s.

Lemma drained_installed w : drained t sp b rd_ w → still_installed w.
Proof. intros (f & tr & s & H & _). by exists f, tr, s. Qed.
Lemma awaiting_installed B x w : awaiting t o sp b rd_ B x w → still_installed w ∧ sent o w `prefix_of` B.
Proof. intros (f & tr & s & H & _ & Hp & _). split; [by exists f, tr, s|done]. Qed.

Lemma at0_fds B p g w : at0 B p w → at0 B p (set_fds g w).
Proof. intros (Hd & Hs & Hp). split; [|done]. by eapply guard_frame; [..|exact Hd]. Qed.

(** Once drained: the duplicate is sent to, and closed again. *)
Lemma wp_native_direct B p w : at0 B p w →
  wp (fno <- need_fd o ;; dd <- os_dup fno ;;
      finally (_sendfile_to_fd o (Some dd) src offset count true) (os_close dd))
    (λ n w', n = length d ∧ ∃ q, at0 (B ++ d) q w')
    (λ e w', still_installed w' ∧ sent_part B d e w') w.
Proof.
  intros Hw. pose proof (plain_clean o src (drained t sp b rd_)) as HC.
  assert (HE : ∀ e w', plain e → at0 B p w' → still_installed w' ∧ sent_part B d e w').
  { intros e w' _ (Hd & Hs & _). split; [by apply drained_installed|]. unfold sent_part. rewrite Hs.
    split; [by apply prefix_app_r|done]. }
  apply wp_bind. eapply (wp_quiet o src (drained t sp b rd_)); [apply plumb_need_fd_stable, _|by apply need_fd_clean|exact Hw| |done].
  intros fno w1 H1. apply wp_bind. unfold os_dup. apply wp_bind.
  eapply (wp_still_sys o src (drained t sp b rd_)); [exact H1| |done]. intros w2 H2. wp_step. wp_step. apply wp_bind, wp_modify, wp_ret.
  apply wp_finally. unfold os_close. eapply wp_mono.
  - apply (wp_sendfile_to_fd o src (drained t sp b rd_)); [exact Hsz|by apply at0_fds].
  - intros n w3 [-> H3]. apply wp_modify. split; [done|]. eexists. apply at0_fds. exact H3.
  - intros e w3 (_ & Hf & m & q & Hm & Hd & Hs & _). apply wp_modify.
    split; [by apply drained_installed, (at0_fds (sent o w3) (pos src w3))|].
    assert (Hsent : sent o (set_fds (delete (fresh (dom (w_fds w2)))) w3) = sent o w3) by done.
    split; rewrite Hsent.
    + rewrite Hs. apply prefix_app. apply prefix_take.
    + intros Hc. destruct (Hf Hc) as (_ & -> & _). done.
Qed.
End body.

Lemma prefix_given B d (w w' : world) e : sent o w' = sent o w → sent_part B d e w → sent_part B d e w'.
Proof. unfold sent_part. by intros ->. Qed.

(** The part between the [try] and its [finally]. *)
Lemma wp_native_body sp f0 f tr s offset count B p w :
  (count = None → src_size src = length (src_bytes src)) →
  installed t sp (fl_paused f0) (fl_reading f0) 0 0 w f tr s → sent o w = sent o w → pos src w = p →
  B = sent o w ++ fl_buf f →
  (fl_buf f = [] → drained t sp (fl_paused f0) (fl_reading f0) w) →
  (fl_buf f ≠ [] → ∃ x, sp_waiter s = Some x ∧ awaiting t o sp (fl_paused f0) (fl_reading f0) B x w) →
  let d := due src count offset 0 in
  wp (f <- get_flow t ;;
      when_ (Nat.ltb 0 (length (fl_buf f))) (drain sp) ;;
      fno <- need_fd o ;; dd <- os_dup fno ;;
      finally (_sendfile_to_fd o (Some dd) src offset count true) (os_close dd))
    (λ n w', n = length d ∧ drained t sp (fl_paused f0) (fl_reading f0) w' ∧ sent o w' = B ++ d)
    (λ e w', still_installed sp (fl_paused f0) (fl_reading f0) w' ∧ sent_part B d e w') w.
Proof.
  intros Hsz H _ Hp HB Hdr Haw d. unfold get_flow. apply wp_bind, wp_bind, wp_gets.
  rewrite (in_flow _ _ _ _ _ _ _ _ _ _ H). apply wp_ret, wp_bind.
  assert (Hend : ∀ w', drained t sp (fl_paused f0) (fl_reading f0) w' → sent o w' = B →
    wp (fno <- need_fd o ;; dd <- os_dup fno ;;
        finally (_sendfile_to_fd o (Some dd) src offset count true) (os_close dd))
      (λ n w', n = length d ∧ drained t sp (fl_paused f0) (fl_reading f0) w' ∧ sent o w' = B ++ d)
      (λ e w', still_installed sp (fl_paused f0) (fl_reading f0) w' ∧ sent_part B d e w') w').
  { intros w' Hd Hs. eapply wp_mono; [apply (wp_native_direct sp (fl_paused f0) (fl_reading f0) offset count Hsz B (pos src w')); done| |done].
    intros n w2 [-> (q & Hd2 & Hs2 & _)]. done. }
  apply wp_when; intros Hl.
  - apply Nat.ltb_lt in Hl. assert (Hne : fl_buf f ≠ []) by (intros E; rewrite E in Hl; cbn in Hl; lia).
    destruct (Haw Hne) as (x & Hx & Hax). eapply wp_mono; [by eapply wp_drain|..].
    + intros u w1 [Hd Hs]. by apply Hend.
    + intros e w1 [H1|[Hd Hs]].
      * destruct (awaiting_installed _ _ _ _ _ _ H1) as [H2 H3]. split; [done|].
        split; [by apply prefix_app_r|done].
      * split; [by apply drained_installed|]. unfold sent_part. rewrite Hs. split; [by apply prefix_app_r|done].
  - apply Nat.ltb_ge in Hl. assert (Hnil : fl_buf f = []) by (destruct (fl_buf f); [done|cbn in Hl; lia]).
    apply Hend; [by apply Hdr|]. by rewrite HB, Hnil, app_nil_r.
Qed.

Lemma wp_native_sendfile f0 tr0 offset count w :
  idle w f0 tr0 → (count = None → src_size src = length (src_bytes src)) →
  let B := sent o w ++ fl_buf f0 in let d := due src count offset 0 in
  wp (_transport_sendfile_native t o src offset count)
    (λ n w', n = length d ∧ sent o w' = B ++ d ∧ given_back f0 w' ∧
       (∃ f, w_flows w' !! t = Some f ∧ fl_buf f = []) ∧ in_sync w')
    (λ e w', given_back f0 w' ∧ sent_part B d e w') w.
Proof.
  intros Hid Hsz B d. unfold _transport_sendfile_native.
  assert (Hgb : ∀ e w', w_flows w' = w_flows w → sent o w' = sent o w → given_back f0 w' ∧ sent_part B d e w').
  { intros e w' Hf Hs. destruct Hid as [H1 H2 H3 H4 H5 H6]. split; [exists f0; by rewrite Hf|].
    unfold sent_part. rewrite Hs. unfold B; split; [rewrite <-app_assoc|intros _]; by apply prefix_app_r. }
  destruct (is_win32 plat); [by apply wp_raise, Hgb|]. apply wp_bind.
  apply (wp_mono _ (λ _ w', w_flows w' = w_flows w ∧ w_trans w' = w_trans w ∧ w_log w' = w_log w) _
    (λ _ w', w_flows w' = w_flows w ∧ w_log w' = w_log w));
    [|intros _ w1 (Hf1 & Ht1 & Hl1)|intros e w1 [Hf1 Hl1]; apply Hgb; [done|by apply sent_frame]].
  { unfold _regular_fileno, sys, tick. wp_go; done. }
  assert (Hid1 : idle w1 f0 tr0) by (destruct Hid; split; congruence).
  assert (Hs1 : sent o w1 = sent o w) by (by apply sent_frame).
  unfold get_flow at 1. apply wp_bind, wp_bind, wp_gets. rewrite (id_flow _ _ _ Hid1). apply wp_ret, wp_bind.
  eapply wp_mono; [by apply wp_new_sendfile_protocol|..].
  2:{ intros e w2 (_ & Hg & Hl2). split; [exists f0; split; [done|split; [apply Hid|done]]|]. unfold sent_part.
      rewrite (sent_frame w1 w2), Hs1 by done. unfold B; split; [rewrite <-app_assoc|intros _]; by apply prefix_app_r. }
  intros sp w2 (f & s & H2 & Hb2 & Hp2 & Hw2 & Hl2 & Hpos2). cbn beta.
  assert (Hs2 : sent o w2 = sent o w) by (rewrite (sent_frame w1 w2) by done; done).
  unfold get_flow at 1. apply wp_bind, wp_bind, wp_gets. rewrite (in_flow _ _ _ _ _ _ _ _ _ _ H2).
  apply wp_ret, wp_bind. destruct (in_marks _ _ _ _ _ _ _ _ _ _ H2) as [Hlo Hhi].
  eapply wp_zero_marks; [exact H2|apply Hid1|done|done|]. intros w3 f3 s3 H3 Hb3 Hs3 Hpos3 Hdr Haw.
  apply wp_finally. eapply wp_mono.
  - apply (wp_native_body sp f0 f3 tr0 s3 offset count B (pos src w3)); [done|exact H3|done|done| | |].
    + by rewrite Hs3, Hs2, Hb3, Hb2.
    + rewrite Hb3. exact Hdr.
    + rewrite Hb3. intros Hne. destruct (Haw Hne) as (x & Hx & Ha). exists x. split; [done|].
      by rewrite Hb2, Hs2 in Ha.
  - intros n w4 (-> & (f4 & tr4 & s4 & H4 & Hb4 & Hp4) & Hs4). apply wp_bind.
    eapply wp_set_limits; [exact H4|rewrite Hlo, Hhi; apply Hid|].
    intros f5 s5 w5 H5 Hb5 Hs5 Hpos5 Hn5 Hcase. eapply wp_mono.
    + by apply (wp_restore_protocol sp f0 (fl_low f) (fl_high f) f5 tr4 s5 w5).
    + intros [] w6 (Hg & Hs6 & (f6 & Hf6 & Hb6) & Hsync). split; [done|].
      split; [by rewrite Hs6, Hs5|]. split; [done|]. split; [exists f6; by rewrite Hb6, Hb5|].
      apply Hsync. intros Hc Hb0. destruct Hcase as [(_ & -> & _)|(Hl & _)]; [by apply Hp4|].
      rewrite Hb4 in Hl. cbn in Hl. lia.
    + intros e w6 ([_ He] & Hg & Hs6 & _). split; [done|]. by split; [rewrite Hs6, Hs5, Hs4|].
  - intros e w4 [(f4 & tr4 & s4 & H4) Hp4]. apply wp_bind.
    eapply wp_set_limits; [exact H4|rewrite Hlo, Hhi; apply Hid|].
    intros f5 s5 w5 H5 Hb5 Hs5 Hpos5 Hn5 _. eapply wp_mono.
    + by apply (wp_restore_protocol sp f0 (fl_low f) (fl_high f) f5 tr4 s5 w5).
    + intros [] w6 (Hg & Hs6 & _). split; [done|]. eapply prefix_given; [|exact Hp4]. congruence.
    + intros e' w6 ([_ He] & Hg & Hs6 & _). split; [done|].
      split; [|done]. rewrite Hs6, Hs5. apply Hp4.
Qed.
End native.

(** ** Runs of the copying path, on a connection that stays open *)

(** What was written to the transport, sent or still buffered. *)
Definition stream (t o : oid) (w : world) : list Byte.byte :=
  sent o w ++ match w_flows w !! t with Some f => fl_buf f | None => [] end.

Section copying.
Context `{KR : KernelReal} `{IO : SockIO} `{FIO : FileIO} `{NIO : NativeIO}.
Context (t o : oid) (src : source) `{SE : !StreamEnv t o (src_id src) false} `{NF : !NativeFile src}.

Section with_protocol.
Context (sp : oid) (b rd_ : bool) (lo hi : nat).

(** A waiter that no lost connection has failed. *)
Definition unfailed (w : world) (y : oid) : Prop :=
  ∃ v, w_futs w !! y = Some v ∧ ∀ e, v ≠ Failed e.
(** The transport is open, and its waiter - and the one [x] stands for - are in order. *)
Definition opened (x : option oid) (w : world) : Prop := ∃ f tr s,
  installed t sp b rd_ lo hi w f tr s ∧ tr_closing tr = false ∧
  (∀ y, sp_waiter s = Some y → unfailed w y) ∧
  (∀ y, x = Some y → (y < w_next w)%nat ∧ unfailed w y ∧
     (w_futs w !! y = Some Pending → sp_waiter s = Some y)).
Definition same_stream (x : option oid) (w w' : world) : Prop :=
  opened x w → opened x w' ∧ stream t o w' = stream t o w ∧ pos src w' = pos src w.
#[export] Instance same_stream_preorder x : PreOrder (same_stream x).
Proof.
  split; [done|]. intros w1 w2 w3 H1 H2 Hw. destruct (H1 Hw) as (Hw2 & H3 & H4).
  destruct (H2 Hw2) as (Hw3 & H5 & H6). split; [done|]. split; congruence.
Qed.

Lemma stream_at w f : w_flows w !! t = Some f → stream t o w = sent o w ++ fl_buf f.
Proof. unfold stream. by intros ->. Qed.

Lemma opened_frame x w w' :
  w_flows w' = w_flows w → w_trans w' = w_trans w → w_sps w' = w_sps w → w_futs w' = w_futs w →
  (w_next w ≤ w_next w')%nat → w_pos w' = w_pos w → sent o w' = sent o w → same_stream x w w'.
Proof.
  intros H1 H2 H3 H4 Hn Hp Hs (f & tr & s & H & Hc & Hw & Hx). unfold stream, pos.
  rewrite H1, Hp, Hs. split; [|done]. exists f, tr, s. unfold unfailed in *. rewrite H4.
  split; [by eapply installed_futs|]. split; [done|]. split; [done|].
  intros y Hy. destruct (Hx y Hy) as (? & ? & ?). split; [lia|done].
Qed.

Lemma opened_step x w w' : native_step t o (src_id src) false w w' → same_stream x w w'.
Proof.
  intros Hst (f & tr & s & H & Hc & Hw & Hx).
  pose proof (in_flow _ _ _ _ _ _ _ _ _ _ H) as Hf. rewrite (stream_at w f Hf).
  destruct (in_fields _ _ _ _ _ _ _ _ _ _ H) as (Htr & _).
  destruct Hst as [w w' H1 H2 H3 H4 H5 H6|w f0 k Hf0|w|w|w d Hmc|w f0 tr0 e Hf0 Ht0 Hc0].
  - assert (Hk : ∀ y, unfailed w y → (w_futs w !! y = Some Pending → sp_waiter s = Some y) →
      w_futs w' !! y = w_futs w !! y).
    { intros y [v [Hv _]]. eapply kept_future; [done|by eapply in_sp|done|by exists v]. }
    assert (H' : installed t sp b rd_ lo hi w' f tr s) by (by eapply installed_other).
    rewrite (stream_at w' f) by by eapply in_flow. unfold pos. rewrite H5, H6. split; [|done].
    exists f, tr, s. split; [done|]. split; [done|]. unfold unfailed in *. split.
    + intros y Hy. rewrite Hk; [by apply Hw|by apply Hw|done].
    + intros y Hy. destruct (Hx y Hy) as (Hn & Hu & Hp). rewrite Hk by done.
      destruct H4 as [Hn' _]. split; [lia|done].
  - assert (f0 = f) as -> by congruence.
    rewrite (stream_at _ (with_buf (drop k) f)) by (cbn; by rewrite lookup_alter_eq, Hf).
    rewrite sent_log. cbn. rewrite decide_True by done. rewrite <-app_assoc, take_drop.
    change (sent o (set_flows _ w)) with (sent o w). split; [|done].
    exists (with_buf (drop k) f), tr, s. split; [by apply installed_send|done].
  - destruct (wp_step_to _ _ _ (maybe_pause_cases t o sp b rd_ lo hi w f tr s H)) as [_ [[-> _]|Hr]].
    + rewrite (stream_at w f Hf). split; [by exists f, tr, s|done].
    + destruct Hr as (_ & _ & Hs & Hpos & Hn & s' & H' & Hcase).
      rewrite (stream_at _ _ (in_flow _ _ _ _ _ _ _ _ _ _ H')), Hs. unfold pos. rewrite Hpos. split; [|done].
      exists (with_paused true f), tr, s'. split; [done|]. split; [done|]. unfold unfailed in *.
      destruct Hcase as [(_ & -> & ->)|(Hno & Hy & Hfu)].
      * split; [done|]. intros y Hy. destruct (Hx y Hy) as (? & ? & ?). split; [lia|done].
      * rewrite Hfu, Hy. split; [intros y [= <-]; rewrite lookup_insert_eq; by eexists|].
        intros y Hxy. destruct (Hx y Hxy) as (Hlt & Hu & Hp). rewrite lookup_insert_ne by lia.
        split; [lia|]. split; [done|]. intros Hpd. specialize (Hp Hpd). congruence.
  - destruct (wp_step_to _ _ _ (maybe_resume_cases t o sp b rd_ lo hi w f tr s H)) as [_ [[-> _]|Hr]].
    + rewrite (stream_at w f Hf). split; [by exists f, tr, s|done].
    + destruct Hr as (_ & _ & Hs & Hpos & Hn & s' & H' & Hcase).
      rewrite (stream_at _ _ (in_flow _ _ _ _ _ _ _ _ _ _ H')), Hs. unfold pos. rewrite Hpos. split; [|done].
      exists (with_paused false f), tr, s'. split; [done|]. split; [done|]. unfold unfailed in *. rewrite Hn.
      destruct Hcase as [(-> & -> & _)|(z & Hz & Hzp & -> & ->)]; [done|]. split; [done|].
      intros y Hxy. destruct (Hx y Hxy) as (Hlt & Hu & Hp). split; [done|].
      destruct (decide (z = y)) as [->|Hne]; [rewrite lookup_insert_eq; split; [by eexists|done]|].
      rewrite lookup_insert_ne by done. split; [done|]. intros Hpd. specialize (Hp Hpd). congruence.
  - done.
  - pose proof (in_trans _ _ _ _ _ _ _ _ _ _ H). congruence.
Qed.

#[export] Instance same_stream_plumbing x : Plumbing (same_stream x).
Proof.
  split; try (intros; by (apply opened_frame; try done; cbn; lia)); try apply _.
  - intros [] f w; by apply opened_frame.
  - intros m e w. apply opened_frame; try done. rewrite sent_log. cbn. apply app_nil_r.
  - intros m w. apply opened_frame; try done. rewrite sent_log. cbn. apply app_nil_r.
  - intros n w. assert (Hr := intf_stream t o (src_id src) n w).
    induction Hr as [|w1 w2 w3 Hst _ IH]; [done|]. etrans; [by eapply opened_step|done].
Qed.

Abbreviation at_stream x := (out_at src (opened x) (stream t o)).
Lemma same_stream_at x s p w w' : same_stream x w w' → at_stream x s p w → at_stream x s p w'.
Proof. intros H (Hg & <- & <-). by apply H. Qed.

(** A step of the plumbing, in front of the rest. *)
Lemma wp_open {A} (m : M world A) x s p (Q : A → world → Prop) E w :
  stable (same_stream x) m → raises real m → at_stream x s p w →
  (∀ a w', at_stream x s p w' → Q a w') → (∀ e w', real e → at_stream x s p w' → E e w') → wp m Q E w.
Proof.
  intros H1 H2 Hw HQ HE. eapply wp_mono; [apply (wp_and _ _ _ _ _ _ (H1 w) (H2 w))|..];
    [intros a w' [? _]|intros e w' [? ?]]; eauto using same_stream_at.
Qed.

Lemma forget_waiter x s p w : at_stream x s p w → at_stream None s p w.
Proof. intros [(f & tr & s' & H & Hc & Hw & _) H']. split; [|done]. by exists f, tr, s'. Qed.

Lemma wp_await_open x ws s p w : at_stream (Some x) s p w →
  wp (await_waiter x ws) (λ _, at_stream None s p) (λ e w', real e ∧ at_stream None s p w') w.
Proof.
  revert w. induction ws as [|[] ws IH]; intros w Hw; cbn [await_waiter].
  2:{ apply wp_bind. eapply wp_open; [apply plumb_yield_stable, _|apply total_raises, yield_total|exact Hw| |].
      2:{ intros e w1 He H1. by split; [|by eapply forget_waiter]. }
      intros _ w1 H1. apply wp_bind, wp_gets.
      assert (Hturn : ∀ r : res unit, (∀ e, r = Raise e → real e) →
        wp (await_ ;; of_res r) (λ _, at_stream None s p) (λ e w', real e ∧ at_stream None s p w') w1).
      { intros r Hr. apply wp_bind.
        eapply wp_open; [apply plumb_await_stable, _|by apply (await_clean real)|exact H1|..].
        - intros _ w2 H2. apply wp_of_res; [intros _ _|intros e ->; split; [by apply Hr|]]; by eapply forget_waiter.
        - intros e w2 He H2. by split; [|by eapply forget_waiter]. }
      destruct H1 as [(f & tr & s' & H & Hc & Hwt & Hx) H1].
      destruct (Hx x eq_refl) as (Hlt & (v & Hv & Hnf) & Hp). rewrite Hv.
      destruct v as [| | |e]; [|..|by destruct (Hnf e)].
      - apply IH. split; [|done]. by exists f, tr, s'.
      - assert (Hok := Hturn (Ok tt) ltac:(done)). unfold wp, bind in *. by destruct (await_ w1) as [[]].
      - apply (Hturn (Raise cancelled)). by intros ? [= <-]. }
  all: assert (Hset : at_stream None s p (set_futs (<[x:=Cancelled]>) w)).
  1,3: destruct Hw as [(f & tr & s' & H & Hc & Hwt & Hx) Hw]; split; [|exact Hw]; exists f, tr, s';
    (split; [by eapply installed_futs; [..|exact H]|]; split; [done|]; split; [|done]; intros y Hy;
     destruct (Hwt y Hy) as [v Hv]; unfold unfailed; cbn; rewrite lookup_insert; case_decide; by eexists).
  all: unfold fut_cancel, fut_done, fut_settle; apply wp_bind, wp_bind, wp_gets, wp_when; intros Hb.
  all: try apply wp_modify; apply wp_bind; eapply (wp_open _ None);
    [apply plumb_yield_stable, _|apply total_raises, yield_total|by first [exact Hset|eapply forget_waiter]|
     intros _ w1 H1; by apply wp_raise|done].
Qed.

Lemma wp_drain_open s p w : at_stream None s p w →
  wp (drain sp) (λ _, at_stream None s p) (λ e w', real e ∧ at_stream None s p w') w.
Proof.
  intros Hw. pose proof Hw as Hw0. destruct Hw as [(f & tr & s' & H & Hc & Hwt & _) Hw].
  unfold drain, get_sp, is_closing, tick. apply wp_bind, wp_bind, wp_gets.
  rewrite (in_sp _ _ _ _ _ _ _ _ _ _ H). apply wp_ret, wp_bind, wp_gets.
  destruct (in_fields _ _ _ _ _ _ _ _ _ _ H) as (-> & _).
  rewrite (in_trans _ _ _ _ _ _ _ _ _ _ H), Hc. destruct (sp_waiter s') as [x|] eqn:Hx; [|by apply wp_ret].
  wp_step. wp_step. wp_step. wp_step. wp_step. wp_step. apply wp_await_open.
  apply (same_stream_at (Some x) s p w); [by apply opened_frame|]. split; [|exact Hw].
  exists f, tr, s'. split; [done|]. split; [done|]. split; [by rewrite Hx|]. intros y [= <-].
  split; [by eapply in_waiter|]. split; [by apply Hwt|done].
Qed.

(** One piece: written, all of it, once there is room. *)
Lemma wp_put d s p w : at_stream None s p w →
  wp (drain sp ;; write t d) (λ _, at_stream None (s ++ d) p)
    (λ e w', real e ∧ ∃ m q, (m ≤ length d)%nat ∧ at_stream None (s ++ take m d) q w') w.
Proof.
  intros Hw.
  assert (HE : ∀ e w', real e → at_stream None s p w' →
    real e ∧ ∃ m q, (m ≤ length d)%nat ∧ at_stream None (s ++ take m d) q w').
  { intros e w' He H'. split; [done|]. exists 0%nat, p. rewrite take_0, app_nil_r. split; [lia|done]. }
  apply wp_bind. eapply wp_mono; [by apply wp_drain_open| |by intros e w1 [He H1]; apply HE].
  intros u w1 H1. unfold write. apply wp_bind.
  eapply wp_open; [apply plumb_sys_stable, _|apply sys_clean, _|exact H1| |done]. intros _ w2 H2. apply wp_bind.
  eapply wp_open; [apply plumb_tick_stable, _|apply total_raises, tick_total|exact H2| |done]. intros n w3 H3.
  unfold is_closing. apply wp_bind, wp_gets.
  assert (Hc : match w_trans w3 !! t with Some tr => tr_closing tr | None => true end = false).
  { destruct H3 as [(f & tr & s' & H & Hc & _) _]. by rewrite (in_trans _ _ _ _ _ _ _ _ _ _ H). }
  rewrite Hc. apply wp_bind. eapply (wp_mono _ (λ _, at_stream None s p) _ (λ _ _, False)); [|intros u' w4 H4|done].
  { apply wp_when; [intros _|done]. destruct H3 as [(f & tr & s' & H & Hc' & Hr) H3].
    assert (Hst : same_stream None w3 (maybe_pause t w3).2) by (apply opened_step, ns_pause).
    pose proof (maybe_pause_cases t o sp b rd_ lo hi w3 f tr s' H) as Hwp. unfold wp in Hwp |- *.
    destruct (maybe_pause t w3) as [[a|e] w4]; [|done]. eapply same_stream_at; [exact Hst|].
    split; [by exists f, tr, s'|done]. }
  unfold upd_flow. apply wp_modify. destruct H4 as [(f & tr & s' & H & Hc' & Hr) [Hs Hp]].
  pose proof (in_flow _ _ _ _ _ _ _ _ _ _ H) as Hf. split; [|split; [|exact Hp]].
  - eexists _, tr, s'. split; [by apply installed_flow|]. split; [done|exact Hr].
  - rewrite (stream_at _ (with_buf (λ b, b ++ d) f)) by (cbn; by rewrite lookup_alter_eq, Hf).
    rewrite <-Hs, (stream_at w4 f Hf), <-app_assoc. done.
Qed.
End with_protocol.

Lemma opened_move sp b rd_ lo hi f w : opened sp b rd_ lo hi None w →
  opened sp b rd_ lo hi None (set_pos f w) ∧ stream t o (set_pos f w) = stream t o w.
Proof. intros (fl & tr & s & H & H'). split; [|done]. exists fl, tr, s. by split; [eapply installed_futs; [..|exact H]|]. Qed.

(** The protocol was not given back. *)
Definition kept (w : world) : Prop := ∃ f sp, w_flows w !! t = Some f ∧ fl_protocol f = PSend sp.

Lemma wp_fallback f0 tr0 offset count w :
  idle t w f0 tr0 →
  let d := due src count (starts_at offset (pos src w)) 0 in
  wp (_sendfile_fallback t src offset count)
    (λ n w', n = length d ∧ stream t o w' = stream t o w ++ d ∧ given_back t f0 w')
    (λ e w', real e ∧ (∃ m, (m ≤ length d)%nat ∧ stream t o w' = stream t o w ++ take m d) ∧
       (given_back t f0 w' ∨ src_seekable src = true ∧ kept w')) w.
Proof.
  intros Hid d. unfold _sendfile_fallback.
  assert (HE : ∀ e w', real e → given_back t f0 w' → stream t o w' = stream t o w → real e ∧
    (∃ m, (m ≤ length d)%nat ∧ stream t o w' = stream t o w ++ take m d) ∧
    (given_back t f0 w' ∨ src_seekable src = true ∧ kept w')).
  { intros e w' He Hg Hs. split; [done|]. split; [|by left]. exists 0%nat. rewrite take_0, app_nil_r. split; [lia|done]. }
  assert (Hsame : ∀ w', w_flows w' = w_flows w → w_log w' = w_log w →
    given_back t f0 w' ∧ stream t o w' = stream t o w).
  { intros w' Hf Hl. destruct Hid as [H1 _ _ H4 _ _]. split; [by exists f0; rewrite Hf|].
    unfold stream. by rewrite Hf, (sent_frame o w w'). }
  apply wp_bind.
  apply (wp_mono _ (λ _ w', w_flows w' = w_flows w ∧ w_trans w' = w_trans w ∧ w_log w' = w_log w ∧
      pos src w' = starts_at offset (pos src w)) _
    (λ e w', real e ∧ w_flows w' = w_flows w ∧ w_log w' = w_log w));
    [|intros _ w1 (Hf1 & Ht1 & Hl1 & Hp1)|intros e w1 (He & Hf1 & Hl1); destruct (Hsame w1 Hf1 Hl1); by apply HE].
  { unfold seek_start, starts_at, seek, move.
    destruct (Nat.eqb_spec offset 0); (apply wp_when; [intros Hb|intros Hb; by try done]); [done|].
    destruct (src_seekable src); [|by apply wp_raise]. apply wp_bind.
    apply (sys_log src); [apply wp_modify; repeat (split; [done|])|by intros e [He _]].
    unfold pos. cbn. by rewrite lookup_insert_eq. }
  assert (Hid1 : idle t w1 f0 tr0) by (destruct Hid; split; congruence).
  unfold get_flow at 1. apply wp_bind, wp_bind, wp_gets. rewrite (id_flow _ _ _ _ Hid1). apply wp_ret, wp_bind.
  eapply wp_mono; [by apply (wp_new_sendfile_protocol t src)|..].
  2:{ intros e w2 ([He _] & Hg & Hl2). apply HE; [done|exists f0; split; [done|split; [apply Hid|done]]|].
      rewrite (stream_at w2 f0), (stream_at w f0), (sent_frame o w1 w2), (sent_frame o w w1) by (done || apply Hid). done. }
  intros sp w2 (f & s & H2 & Hb2 & Hp2 & Hw2 & Hl2 & Hpos2). cbn beta.
  assert (Hat : out_at src (opened sp (fl_paused f0) (fl_reading f0) (fl_low f0) (fl_high f0) None)
    (stream t o) (stream t o w) (starts_at offset (pos src w)) w2).
  { split; [|split].
    - exists f, tr0, s. split; [done|]. split; [apply Hid1|]. split; [|done]. intros y Hy.
      rewrite Hy in Hw2. destruct Hw2 as [_ Hw2]. by exists Pending.
    - unfold stream. rewrite (in_flow _ _ _ _ _ _ _ _ _ _ H2), (id_flow _ _ _ _ Hid), Hb2, (sent_frame o w1 w2), (sent_frame o w w1) by done. done.
    - rewrite <-Hp1. unfold pos. by rewrite Hpos2. }
  set (G := opened sp (fl_paused f0) (fl_reading f0) (fl_low f0) (fl_high f0)) in *.
  eapply (wp_copy src (nf_read src) (G None) (stream t o) (λ d, drain sp ;; write t d)
    (same_stream sp (fl_paused f0) (fl_reading f0) (fl_low f0) (fl_high f0) None)
    (same_stream_at sp _ _ _ _ None) (opened_move sp _ _ _ _) (wp_put sp _ _ _ _));
    [unfold _TRANSPORT_CHUNK; lia|exact Hat|..].
  - intros r total w3 Hend. apply wp_bind.
    assert (Hr : G None w3 ∧ match r with Ok _ => total = length d ∧ stream t o w3 = stream t o w ++ d
      | Raise e => real e ∧ ∃ m, (m ≤ length d)%nat ∧ stream t o w3 = stream t o w ++ take m d end).
    { destruct r as [[]|e]; cbn in Hend.
      - by destruct Hend as (-> & HG & Hs & _).
      - destruct Hend as (He & m & q & Hm & HG & Hs & _). by eauto. }
    destruct Hr as [(f3 & tr3 & s3 & H3 & _) Hr].
    pose proof (in_flow _ _ _ _ _ _ _ _ _ _ H3) as Hf3.
    assert (Hst : ∀ w', sent o w' = sent o w3 → (∃ f', w_flows w' !! t = Some f' ∧ fl_buf f' = fl_buf f3) →
      stream t o w' = stream t o w3).
    { intros w' Hs (f' & Hf' & Hb'). rewrite (stream_at w' f'), (stream_at w3 f3) by done. congruence. }
    eapply wp_mono; [by apply (wp_restore_protocol t o src sp f0 _ _ f3 tr3 s3 w3 H3)|..].
    + intros u w4 (Hg & Hs4 & Hf4 & _). specialize (Hst w4 Hs4 Hf4). destruct r as [[]|e]; rewrite <-Hst in Hr.
      * apply wp_ret. destruct Hr as [-> Hr]. done.
      * apply wp_raise. destruct Hr as (He & Hr). by auto.
    + intros e w4 ([He _] & Hg & Hs4 & Hf4). specialize (Hst w4 Hs4 Hf4). split; [done|]. split; [|by left].
      rewrite Hst. destruct r as [[]|e']; [destruct Hr as [_ Hr]|by destruct Hr].
      exists (length d). by rewrite take_ge.
  - intros e w3 Hsk (He & m & q & Hm & (f3 & tr3 & s3 & H3 & _) & Hs & _). split; [done|]. split; [by eauto|].
    right. split; [done|]. exists f3, sp. split; [by eapply in_flow|by eapply in_protocol].
Qed.
End copying.

(** C18: Native [sendfile] keeps the stream in order: on return the socket has been sent what it
    had been sent, then everything still buffered, then exactly the requested part of the file;
    the protocol and the marks are the application's again, and it knows whether to write.
    When it raises, what was sent is a first part of that - of the buffered bytes alone if it
    asks for the fallback - and the protocol and the marks are given back all the same. *)
Theorem native_sendfile_ordered `{KR : KernelReal} `{IO : SockIO} `{FIO : FileIO} `{NIO : NativeIO}
    t o src mc `{SE : !StreamEnv t o (src_id src) mc} `{NF : !NativeFile src} f0 tr0 offset count w :
  idle t w f0 tr0 → (count = None → src_size src = length (src_bytes src)) →
  let B := sent o w ++ fl_buf f0 in let d := due src count offset 0 in
  wp (_transport_sendfile_native t o src offset count)
    (λ n w', n = length d ∧ sent o w' = B ++ d ∧ given_back t f0 w' ∧ in_sync t w')
    (λ e w', sent o w' `prefix_of` B ++ d ∧
       (exn_cls e = SendfileNotAvailableError → sent o w' `prefix_of` B) ∧ given_back t f0 w') w.
Proof.
  intros Hid Hsz B d. eapply wp_mono; [by apply (wp_native_sendfile t o src mc f0 tr0)|..].
  - intros n w' (H1 & H2 & H3 & _ & H4). done.
  - intros e w' (H1 & H2 & H3). done.
Qed.

(** The copying [sendfile]: on a connection that stays open, what was written to the transport
    is what had been written and then exactly the requested part of the file, and the
    application's protocol is back.  When it raises, a first part has been written; and the
    protocol is back unless the last seek of the file failed. *)
Theorem fallback_sendfile_exact `{KR : KernelReal} `{IO : SockIO} `{FIO : FileIO} `{NIO : NativeIO}
    t o src `{SE : !StreamEnv t o (src_id src) false} `{NF : !NativeFile src} f0 tr0 offset count w :
  idle t w f0 tr0 → (offset = 0%nat → pos src w = 0%nat) →
  let d := due src count offset 0 in
  wp (_sendfile_fallback t src offset count)
    (λ n w', n = length d ∧ stream t o w' = stream t o w ++ d ∧ given_back t f0 w')
    (λ e w', real e ∧ (∃ m, (m ≤ length d)%nat ∧ stream t o w' = stream t o w ++ take m d) ∧
       (given_back t f0 w' ∨ src_seekable src = true ∧ kept t w')) w.
Proof.
  intros Hid Hst d. assert (Heq : starts_at offset (pos src w) = offset).
  { unfold starts_at. destruct (Nat.eqb_spec offset 0); [|done]. by rewrite Hst. }
  pose proof (wp_fallback t o src f0 tr0 offset count w Hid) as H. by rewrite Heq in H.
Qed.

(** ** The theorems above at concrete inputs *)

(** A loop whose every turn hands all that is buffered on transport 7 to socket 0. *)
Definition pump (w : world) : world :=
  match w_flows w !! 7%nat with
  | Some f => (maybe_resume 7
                 (log_event (EvSend 0 (take (length (fl_buf f)) (fl_buf f)))
                    (set_flows (alter (with_buf (drop (length (fl_buf f)))) 7%nat) w))).2
  | None => w
  end.
Definition pumping : Kernel := scenario (λ _, None) pump [WReady; WReady] [].
Lemma pumping_real : KernelReal pumping.
Proof. by split. Qed.
Lemma pumping_stream mc : StreamEnv (K := pumping) 7 0 0 mc.
Proof.
  split. intros n w. cbn. unfold pump. destruct (w_flows w !! 7%nat) as [f|] eqn:Hf; [|done].
  eapply rtc_l; [by apply (ns_send 7 0 0 mc w f (length (fl_buf f)))|].
  eapply rtc_l; [apply (ns_resume 7 0 0 mc)|]. done.
Qed.
Lemma small_native : NativeFile (K := pumping) (IO := byte_io) (FIO := two_bytes) small_file.
Proof. split; [done|cbn; lia|cbn; lia|done]. Qed.
#[export] Instance batches : NativeIO := {| batch_full := λ _, true |}.

(** Transport 7 on socket 0, with two bytes buffered. *)
Definition app_flow (high : nat) (buf : list Byte.byte) : flow := Flow PApp true false 0 high buf false.
Definition app_trans : transport := Transport 3 KIND_TCP true false 2 None (Extra None None 0 0 0 None) None.
Definition with_app (high : nat) (buf : list Byte.byte) : world :=
  set_trans (<[7%nat := app_trans]>) (set_flows (<[7%nat := app_flow high buf]>) (one_socket AF_INET false)).
Lemma app_idle high buf : idle 7 (with_app high buf) (app_flow high buf) app_trans.
Proof. split; cbn; try done; lia. Qed.

Example native_run :
  let r := _transport_sendfile_native (K := pumping) (IO := byte_io) 7 0 small_file 1 (Some 3%nat)
             (with_app 9 [Byte.x78; Byte.x79]) in
  r.1 = Ok 3%nat ∧ sent 0 r.2 = [Byte.x78; Byte.x79; Byte.x62; Byte.x63; Byte.x64].
Proof. vm_compute. split; reflexivity. Qed.

Lemma native_sendfile_ordered_witness :
  let w := with_app 9 [Byte.x78; Byte.x79] in let d := due small_file (Some 3%nat) 1 0 in
  let B := sent 0 w ++ [Byte.x78; Byte.x79] in
  wp (_transport_sendfile_native (K := pumping) (IO := byte_io) 7 0 small_file 1 (Some 3%nat))
    (λ n w', n = length d ∧ sent 0 w' = B ++ d ∧ given_back 7 (app_flow 9 [Byte.x78; Byte.x79]) w' ∧
       in_sync 7 w')
    (λ e w', sent 0 w' `prefix_of` B ++ d ∧
       (exn_cls e = SendfileNotAvailableError → sent 0 w' `prefix_of` B) ∧
       given_back 7 (app_flow 9 [Byte.x78; Byte.x79]) w') w.
Proof.
  apply (native_sendfile_ordered (KR := pumping_real) (FIO := two_bytes) (NIO := batches) 7 0 small_file true
    (SE := pumping_stream true) (NF := small_native) (app_flow 9 [Byte.x78; Byte.x79]) app_trans 1 (Some 3%nat)).
  - apply app_idle.
  - discriminate.
Defined.

Lemma fallback_sendfile_exact_witness :
  let w := with_app 9 [Byte.x78] in let d := due small_file None 0 0 in
  wp (_sendfile_fallback (K := pumping) (FIO := two_bytes) 7 small_file 0 None)
    (λ n w', n = length d ∧ stream 7 0 w' = stream 7 0 w ++ d ∧ given_back 7 (app_flow 9 [Byte.x78]) w')
    (λ e w', real e ∧ (∃ m, (m ≤ length d)%nat ∧ stream 7 0 w' = stream 7 0 w ++ take m d) ∧
       (given_back 7 (app_flow 9 [Byte.x78]) w' ∨ src_seekable small_file = true ∧ kept 7 w')) w.
Proof.
  apply (fallback_sendfile_exact (KR := pumping_real) (IO := byte_io) (NIO := batches) 7 0 small_file
    (SE := pumping_stream false) (NF := small_native) (app_flow 9 [Byte.x78]) app_trans 0 None).
  - apply app_idle.
  - reflexivity.
Defined.

Definition even_file : source :=
  Source 0 None Fileno true [Byte.x61; Byte.x62; Byte.x63; Byte.x64] 4.
(** [restore] replays the flow control of before, not that of now: when the last piece copied
    took the buffer over the high mark, the transport is paused, and the application's
    protocol, which will be told to resume, was never told to pause. *)
Theorem fallback_leaves_paused :
  let w := with_app 1 [] in
  let r := _sendfile_fallback (K := steady [] []) (FIO := two_bytes) 7 even_file 0 None w in
  in_sync 7 w ∧ r.1 = Ok 4%nat ∧
  w_flows r.2 !! 7%nat = Some (Flow PApp true true 0 1 (src_bytes even_file) false) ∧ ¬ in_sync 7 r.2.
Proof.
  cbn zeta. set (w := with_app 1 []).
  assert (Hr : let r := _sendfile_fallback (K := steady [] []) (FIO := two_bytes) 7 even_file 0 None w in
    r.1 = Ok 4%nat ∧ w_flows r.2 !! 7%nat = Some (Flow PApp true true 0 1 (src_bytes even_file) false) ∧
    w_trans r.2 !! 7%nat = Some app_trans) by (vm_compute; repeat split).
  destruct Hr as (H1 & H2 & H3). split; [|split; [done|split; [done|]]].
  - intros f tr Hf _ _. cbn in Hf. injection Hf as <-. done.
  - intros H. by specialize (H _ _ H2 H3 eq_refl).
Qed.
