(* ===== verification/ServerSpec.v ===== *)
(** * What a server promises (zuvloop/_server.py)

    The contract of [asyncio.Server] as an abstract machine - open or closed, a number of
    live connections, the callers blocked in [wait_closed] - and a simulation: every step the
    server of Server can take is one of the machine's. *)
From S2P Require Import Prelude World Server.

(** ** The contract *)
Record aserver := AServer { a_closed : bool; a_live : Z; a_blocked : gset oid }.

(** Closed and without connections, nobody is kept waiting. *)
Definition woken (closed : bool) (live : Z) (blocked : gset oid) : gset oid :=
  if closed && (live =? 0) then ∅ else blocked.

Inductive astep : aserver → aserver → Prop :=
  | a_idle a : astep a a
  | a_accept n B : astep (AServer false n B) (AServer false (n + 1) B)
  | a_release c n B : 0 < n → astep (AServer c n B) (AServer c (n - 1) (woken c (n - 1) B))
  | a_close c n B : astep (AServer c n B) (AServer true n (woken true n B))
  | a_wait c n B f : f ∉ B → c = false ∨ n ≠ 0 → astep (AServer c n B) (AServer c n ({[f]} ∪ B)).
(** A caller giving up. *)
Definition a_cancel (f : oid) (a : aserver) : aserver := AServer (a_closed a) (a_live a) (a_blocked a ∖ {[f]}).

(** ** The server as one *)
Section refinement.
Context `{K : Kernel} `{FS : FileSystem} (sid : oid).

Definition is_closed (w : world) : bool := bool_decide ((w_servers w !! sid ≫= _sockets) = None).
Definition blocked (G : gset oid) (w : world) : gset oid := filter (λ f, w_futs w !! f = Some Pending) G.
Definition abs (st : state) : aserver :=
  AServer (is_closed (st_world st)) (st_live st) (blocked (st_waiting st) (st_world st)).

(** The future of [serve_forever] is never one of [wait_closed]. *)
Definition separate (st : state) : Prop :=
  ∀ s f, w_servers (st_world st) !! sid = Some s → _serving_forever s = Some f →
    (f ∉ st_waiting st) ∧ (f < w_next (st_world st))%nat.

Lemma blocked_eq G w w' : (∀ f, f ∈ G → w_futs w' !! f = w_futs w !! f) → blocked G w' = blocked G w.
Proof. intros H. apply set_eq. intros f. unfold blocked. rewrite !elem_of_filter. split; intros [Hp Hf]; rewrite (H f Hf) in *; done. Qed.
Lemma idle_blocked c n G w w' :
  (∀ f, f ∈ G → w_futs w' !! f = w_futs w !! f) → astep (AServer c n (blocked G w)) (AServer c n (blocked G w')).
Proof. intros H. rewrite (blocked_eq G w w') by done. apply a_idle. Qed.
Lemma is_closed_some w s : w_servers w !! sid = Some s → is_closed w = bool_decide (_sockets s = None).
Proof. intros H. unfold is_closed. by rewrite H. Qed.
(** From the invariant: a drained server has nobody blocked. *)
Lemma drained_blocked st s :
  inv sid st → w_servers (st_world st) !! sid = Some s → _sockets s = None → st_live st = 0 →
  blocked (st_waiting st) (st_world st) = ∅.
Proof.
  intros [_ (s' & [H1 H2 H3 _] & Hd)] Hs Hc Hn. assert (s' = s) as -> by congruence.
  unfold waiting_ok in H3. rewrite (Hd Hc Hn) in H3. destruct H3 as [_ H3].
  apply set_eq. intros f. unfold blocked. rewrite elem_of_filter. set_solver.
Qed.

(** Steps that keep sockets, the [serve_forever] future and every existing future. *)
Record still (w w' : world) : Prop := {
  sl_next : (w_next w ≤ w_next w')%nat;
  sl_srv : ∀ s, w_servers w !! sid = Some s → ∃ s', w_servers w' !! sid = Some s' ∧
    _sockets s' = _sockets s ∧ _serving_forever s' = _serving_forever s ∧ _active s' = _active s;
  sl_futs : ∀ f, (f < w_next w)%nat → w_futs w' !! f = w_futs w !! f }.
#[local] Instance still_preorder : PreOrder still.
Proof.
  split; [split; eauto|]. intros w1 w2 w3 [N1 S1 F1] [N2 S2 F2]. split; [lia| |].
  - intros s Hs. destruct (S1 s Hs) as (s2 & H2 & A2 & B2 & C2). destruct (S2 s2 H2) as (s3 & H3 & A3 & B3 & C3).
    exists s3. repeat split; congruence.
  - intros f Hf. rewrite F2 by lia. by apply F1.
Qed.
Lemma idle_frame w w' :
  w_next w' = w_next w → w_servers w' = w_servers w → w_futs w' = w_futs w → still w w'.
Proof. intros H1 H2 H3. split; [lia|rewrite H2; by eauto|by rewrite H3]. Qed.
#[local] Hint Extern 2 (still _ _) => (by apply idle_frame) : stable.
Lemma still_upd f :
  (∀ s, _sockets (f s) = _sockets s ∧ _serving_forever (f s) = _serving_forever s ∧ _active (f s) = _active s) →
  stable still (upd_server sid f).
Proof.
  intros H. apply stable_modify. intros w. split; [done| |done]. intros s Hs. exists (f s). cbn.
  by rewrite lookup_alter_eq, Hs.
Qed.
#[local] Hint Extern 3 (stable still (upd_server _ _)) => (by apply still_upd) : stable.
Lemma still_tick : stable still tick.
Proof. unfold tick. solve_stable. Qed.
#[local] Hint Resolve still_tick : stable.
Lemma still_sys : stable still sys.
Proof. unfold sys. solve_stable. Qed.
#[local] Hint Resolve still_sys : stable.
Lemma still_get : stable still (get_server sid).
Proof. unfold get_server. solve_stable. Qed.
#[local] Hint Resolve still_get : stable.
Lemma still_attach t : stable still (_attach sid t).
Proof. unfold _attach. solve_stable. Qed.
Lemma still_start : stable still (_start_serving sid).
Proof. unfold _start_serving, sock_listen, log, add_watch, need_fd, fileno, set_slot. solve_stable. Qed.
Lemma still_close_sockets l : stable still (close_sockets l).
Proof. unfold close_sockets, fileno, remove_watch, set_slot, sock_close, fileno. solve_stable. Qed.
Lemma still_unlink p i : stable still (unlink_path p i).
Proof. unfold unlink_path, log. solve_stable. Qed.

Lemma still_abs st w' :
  inv sid st → still (st_world st) w' →
  abs (State w' (st_waiting st) (st_live st)) = abs st ∧
  (separate st → separate (State w' (st_waiting st) (st_live st))).
Proof.
  intros [_ (s & [H1 _ _ H4] & _)] [N S F]. destruct (S s H1) as (s' & Hs' & A & B & _). split.
  - unfold abs. cbn. rewrite (is_closed_some _ s'), (is_closed_some _ s), A by done. f_equal.
    apply blocked_eq. intros f Hf. apply F. by apply H4.
  - intros Hsep s2 f H2 Hf. cbn in *. assert (s2 = s') as -> by congruence. rewrite B in Hf.
    destruct (Hsep s f H1 Hf). split; [done|lia].
Qed.
Lemma still_run {A} (m : M world A) w : stable still m → still w (m w).2.
Proof. intros H. specialize (H w). unfold wp in H. by destruct (m w) as [[]]. Qed.

(** ** Releasing and closing

    Where an operation that began in [w0], on the server [s0], has got to: the server's
    sockets are [k], its count [n]; unless it [woke] the waiters, no future but the one of
    [serve_forever] has changed. *)
Record effect (s0 : server) (w0 : world) (k : option (list oid)) (n : Z) (woke : Prop) (w : world) : Prop := {
  ef_next : (w_next w0 ≤ w_next w)%nat;
  ef_srv : ∃ s, w_servers w !! sid = Some s ∧ _sockets s = k ∧ _active s = n ∧
    (_serving_forever s = None ∨ _serving_forever s = _serving_forever s0);
  ef_futs : woke ∨ ∀ f, _serving_forever s0 ≠ Some f → (f < w_next w0)%nat → w_futs w !! f = w_futs w0 !! f }.

Lemma effect_refl s0 w0 : w_servers w0 !! sid = Some s0 → effect s0 w0 (_sockets s0) (_active s0) False w0.
Proof. intros H. split; [done|exists s0; auto|by right]. Qed.
Lemma effect_still s0 w0 k n woke w w' : effect s0 w0 k n woke w → still w w' → effect s0 w0 k n woke w'.
Proof.
  intros [N (s & Hs & A & B & C) F] [N' S' F']. destruct (S' s Hs) as (s' & Hs' & A' & B' & C'). split; [lia| |].
  - exists s'. rewrite A', B', C'. auto.
  - destruct F as [?|F]; [by left|right]. intros f Hf Hn. rewrite F' by lia. by apply F.
Qed.
Lemma wp_effect_upd s0 w0 k n woke f k' n' w (Q : unit → world → Prop) E :
  effect s0 w0 k n woke w →
  (∀ s, _sockets s = k → _active s = n → _sockets (f s) = k' ∧ _active (f s) = n' ∧
     (_serving_forever (f s) = None ∨ _serving_forever (f s) = _serving_forever s)) →
  (∀ w', effect s0 w0 k' n' woke w' → Q tt w') → wp (upd_server sid f) Q E w.
Proof.
  intros [N (s & Hs & A & B & C) F] Hf HQ. unfold upd_server. wp_step. apply HQ.
  destruct (Hf s A B) as (A' & B' & C'). split; [done| |done]. exists (f s). cbn.
  rewrite lookup_alter_eq, Hs. split; [done|split; [done|split; [done|]]]. destruct C' as [->| ->]; [by left|done].
Qed.
Lemma wp_effect_get s0 w0 k n woke w (Q : server → world → Prop) E :
  effect s0 w0 k n woke w → (∀ s, _sockets s = k → _active s = n → Q s w) → wp (get_server sid) Q E w.
Proof. intros [_ (s & Hs & A & B & _) _] HQ. eapply wp_get_server; [done|by apply HQ]. Qed.

(** The wakeup of whoever waits. *)
Lemma wp_effect_wake s0 w0 k n woke w :
  effect s0 w0 k n woke w → wp (_wakeup sid) (λ _, effect s0 w0 k n True) (λ _ _, False) w.
Proof.
  intros H. unfold _wakeup. wp_step. eapply wp_effect_get; [done|]. intros s _ _. wp_step.
  eapply (wp_effect_upd _ _ _ _ _ _ k n); [done|intros s' A B; cbn; auto|]. intros w1 [N1 S1 _].
  eapply wp_mono; [apply wp_resolve_all| |done]. intros u w2 (E1 & E2 & _). split; [by rewrite E2|by rewrite E1|by left].
Qed.
Lemma wp_effect_wake_when s0 w0 k n w :
  effect s0 w0 k n False w →
  wp (s <- get_server sid ;; when_ (_active s =? 0) (_wakeup sid)) (λ _, effect s0 w0 k n (n = 0)) (λ _ _, False) w.
Proof.
  intros H. wp_step. eapply wp_effect_get; [done|]. intros s _ Hn. apply wp_when; intros Hz.
  - apply Z.eqb_eq in Hz. eapply wp_mono; [by eapply wp_effect_wake| |done]. intros u w' [N S _]. split; [done|done|left; congruence].
  - destruct H as [N S F]. split; [done|done|]. right. by destruct F.
Qed.

Lemma wp_effect_detach s t w :
  w_servers w !! sid = Some s →
  wp (_detach sid t) (λ _, effect s w (_sockets s) (_active s - 1) (_sockets s = None ∧ _active s - 1 = 0)) (λ _ _, False) w.
Proof.
  intros Hs. assert (H := effect_refl s w Hs). unfold _detach, log. do 2 wp_step.
  assert (H1 : effect s w (_sockets s) (_active s) False (log_event (EvDetach sid) w)).
  { eapply effect_still; [exact H|]. by apply idle_frame. }
  wp_step. apply (wp_mono _ (λ _, effect s w (_sockets s) (_active s) False) _ (λ _ _, False)); [| |done].
  { destruct t as [t|]; [|by wp_step]. eapply (wp_effect_upd _ _ _ _ _ _ (_sockets s) (_active s)); [exact H1|intros s' A B; cbn; auto|done]. }
  intros u w1 H2. wp_step. eapply (wp_effect_upd _ _ _ _ _ _ (_sockets s) (_active s - 1)); [exact H2| |].
  { intros s' A B. cbn. rewrite B. auto. }
  intros w2 H3. wp_step. eapply wp_effect_get; [done|]. intros s' A B. apply wp_when.
  - intros [Hz Hc]%andb_prop. apply Z.eqb_eq in Hz. apply bool_decide_eq_true_1 in Hc.
    eapply wp_mono; [by eapply wp_effect_wake| |done]. intros u2 w3 [N S _]. split; [done|done|left]. split; congruence.
  - intros Hz. destruct H3 as [N S F]. split; [done|done|]. right. by destruct F.
Qed.

Lemma wp_effect_close s w :
  w_servers w !! sid = Some s →
  let P := λ w', ∃ woke, effect s w None (_active s) woke w' ∧ (woke → _active s = 0) in
  wp (close sid) (λ _, P) (λ _, P) w.
Proof.
  intros Hs P. assert (H := effect_refl s w Hs). unfold close. wp_step. eapply wp_get_server; [done|]. wp_step.
  apply (wp_mono _ (λ _, effect s w (_sockets s) (_active s) False) _ (λ _ _, False)); [| |done].
  { destruct (_serving_forever s) as [f|] eqn:Hf; [|by wp_step]. unfold fut_done. do 2 wp_step.
    apply wp_when; intros _; [|done]. wp_step. eapply (wp_effect_upd _ _ _ _ _ _ (_sockets s) (_active s)); [exact H|intros s' A B; cbn; auto|].
    intros w1 [N S F]. unfold fut_cancel, fut_done, fut_settle. do 2 wp_step. apply wp_when; intros _; [|by split].
    wp_step. split; [done|done|]. right. destruct F as [?|F]; [done|]. intros g Hg Hn. cbn.
    rewrite lookup_insert_ne by congruence. by apply F. }
  intros u w1 H1. destruct (_sockets s) as [l|] eqn:Hl; [|wp_step; by exists False].
  wp_step. eapply (wp_effect_upd _ _ _ _ _ _ None (_active s)); [exact H1|intros s' A B; cbn; auto|]. intros w2 H2.
  wp_step. eapply (wp_effect_upd _ _ _ _ _ _ None (_active s)); [exact H2|intros s' A B; cbn; auto|]. intros w3 H3.
  wp_step. apply (wp_stable_total still); [apply still_close_sockets|apply close_sockets_total|]. intros u2 w4 H4.
  assert (H5 : effect s w None (_active s) False w4) by by eapply effect_still.
  wp_step. eapply (wp_effect_upd _ _ _ _ _ _ None (_active s)); [exact H5|intros s' A B; cbn; auto|]. intros w5 H6.
  wp_step. eapply (wp_effect_upd _ _ _ _ _ _ None (_active s)); [exact H6|intros s' A B; cbn; auto|]. intros w6 H7.
  apply wp_finally, (wp_stable still); [apply still_unlink|intros u3 w7 H8..|intros e w7 H8].
  all: (eapply wp_mono; [eapply wp_effect_wake_when; by eapply effect_still| |done]); intros u4 w8 H9; by exists (_active s = 0).
Qed.

(** ** The simulation *)
Definition simulated (st st' : state) : Prop :=
  (astep (abs st) (abs st') ∨
   ∃ f, f ∈ st_waiting st ∧ st' = State (fut_cancel f (st_world st)).2 (st_waiting st) (st_live st) ∧
     abs st' = a_cancel f (abs st)) ∧ separate st'.

Lemma effect_separate s w k n woke w' G m :
  w_servers w !! sid = Some s → separate (State w G m) → effect s w k n woke w' → ∀ m', separate (State w' G m').
Proof.
  intros Hs Hsep [N (s' & Hs' & _ & _ & C) _] m' s2 f H2 Hf. cbn in *. assert (s2 = s') as -> by congruence.
  destruct C as [C|C]; [congruence|]. rewrite C in Hf. destruct (Hsep s f Hs Hf). split; [done|cbn in *; lia].
Qed.
(** The blocked callers after a release or a close. *)
Lemma effect_blocked s w G n k n' woke w' :
  inv sid (State w G n) → separate (State w G n) → w_servers w !! sid = Some s →
  inv sid (State w' G n') → effect s w k n' woke w' → (woke → k = None ∧ n' = 0) →
  abs (State w' G n') = AServer (bool_decide (k = None)) n' (woken (bool_decide (k = None)) n' (blocked G w)).
Proof.
  intros [_ (s1 & [H1 _ _ H4] & _)] Hsep Hs Hinv [N (s' & Hs' & Hk & _) F] Hw.
  unfold abs. cbn [st_world st_live st_waiting]. rewrite (is_closed_some _ s'), Hk by done. f_equal. unfold woken.
  destruct (bool_decide_reflect (k = None)) as [Hkn|Hkn]; cbn [andb].
  - destruct (n' =? 0) eqn:Hn; [apply Z.eqb_eq in Hn; by apply (drained_blocked (State w' G n') s'); [..|congruence|]|].
    apply Z.eqb_neq in Hn. destruct F as [F|F]; [by destruct (Hw F)|]. apply blocked_eq. intros f Hf. apply F; [|by apply H4].
    intros Hsf. by destruct (Hsep s f Hs Hsf).
  - destruct F as [F|F]; [by destruct (Hw F)|]. apply blocked_eq. intros f Hf. apply F; [|by apply H4].
    intros Hsf. by destruct (Hsep s f Hs Hsf).
Qed.

Lemma still_simulated {A} (m : M world A) w G n :
  stable still m → inv sid (State w G n) → separate (State w G n) → simulated (State w G n) (State (m w).2 G n).
Proof.
  intros Hm Hinv Hsep. destruct (still_abs (State w G n) _ Hinv (still_run m w Hm)) as [E Hs].
  split; [left|by apply Hs]. cbn in E. rewrite E. apply a_idle.
Qed.
Lemma still_exit f : stable still (wait_closed_exit sid f).
Proof. unfold wait_closed_exit. solve_stable. Qed.

Lemma wait_simulated w G n r w' :
  inv sid (State w G n) → separate (State w G n) → wait_closed_enter sid w = (Ok r, w') →
  simulated (State w G n) (State w' (match r with Some f => {[f]} ∪ G | None => G end) n).
Proof.
  intros [Hn (s & [H1 H2 H3 H4] & Hd)] Hsep Hr. cbn in *.
  assert (Hw : wp (wait_closed_enter sid)
    (λ r w', simulated (State w G n) (State w' (match r with Some f => {[f]} ∪ G | None => G end) n)) (λ _ _, True) w).
  2:{ unfold wp in Hw. by rewrite Hr in Hw. }
  assert (Hidle : simulated (State w G n) (State w G n)) by (split; [left; apply a_idle|done]).
  unfold wait_closed_enter. wp_step. eapply wp_get_server; [done|]. destruct (_waiters s) as [l|] eqn:El; [|by wp_step].
  destruct (_ && _) eqn:Hc; [by wp_step|]. unfold create_future, alloc, upd_server. do 12 wp_step.
  assert (Hf : w_next w ∉ G) by (intros Hin; specialize (H4 _ Hin); lia). split.
  - left. unfold abs. cbn [st_world st_live st_waiting].
    rewrite (is_closed_some w s) by done.
    rewrite (is_closed_some _ (with_waiters (fmap (λ l, l ++ [w_next w])) s)) by (cbn; by rewrite lookup_alter_eq, H1).
    cbn [_sockets with_waiters].
    replace (blocked ({[w_next w]} ∪ G) _) with ({[w_next w]} ∪ blocked G w).
    + apply a_wait; [unfold blocked; rewrite elem_of_filter; by intros [_ ?]|].
      apply andb_false_iff in Hc as [Hc|Hc]; [by left|right]. apply Z.eqb_neq in Hc. congruence.
    + apply set_eq. intros f. unfold blocked. rewrite elem_of_union, !elem_of_filter, elem_of_union, elem_of_singleton. cbn.
      destruct (decide (f = w_next w)) as [->|Hne]; [rewrite lookup_insert_eq; naive_solver|].
      rewrite lookup_insert_ne by done. naive_solver.
  - intros s2 f Hs2 Hsf. cbn in *. rewrite lookup_alter_eq, H1 in Hs2. injection Hs2 as <-. cbn in Hsf.
    destruct (Hsep s f H1 Hsf). cbn in *. split; [|lia]. apply not_elem_of_union. split; [|done].
    rewrite elem_of_singleton. lia.
Qed.

Lemma step_simulated st st' : step sid st st' → inv sid st → separate st → simulated st st'.
Proof.
  intros Hstep Hinv Hsep. assert (Hinv' := step_inv sid _ _ Hstep Hinv). destruct Hstep as
    [w w' G n Ho|w s G n Hs Hk|w G n t|w G n t Hn|w G n|w G n|w G n r w' Hr|w G n f Hf|w G n f Hf Hd|w G n|w G n].
  - destruct Ho as (E1 & E2 & E3). split.
    + left. unfold abs, is_closed. cbn. rewrite E1, (blocked_eq G w w') by done. apply a_idle.
    + intros s f Hs Hsf. cbn in *. rewrite E1 in Hs. destruct (Hsep s f Hs Hsf). cbn in *. split; [done|lia].
  - split.
    + left. unfold abs. cbn [st_world st_live st_waiting].
      rewrite (is_closed_some w s), (is_closed_some _ (with_active (λ k, k + 1) s)) by (cbn; rewrite ?lookup_alter_eq; by rewrite Hs).
      cbn [_sockets with_active]. rewrite bool_decide_eq_false_2 by done. apply a_accept.
    + intros s2 f Hs2 Hsf. cbn in *. rewrite lookup_alter_eq, Hs in Hs2. injection Hs2 as <-. by apply (Hsep s).
  - by apply still_simulated; [apply still_attach|..].
  - destruct (Hinv) as [_ (s & [H1 H2 H3 H4] & _)]. cbn in H1, H2.
    assert (Hw := wp_effect_detach s t w H1). rewrite H2 in Hw. unfold wp in Hw.
    destruct (_detach sid t w) as [[u|e] w'] eqn:Hd; [|done]. cbn in Hinv' |- *.
    split; [left|by eapply effect_separate].
    rewrite (effect_blocked s w G n (_sockets s) (n - 1) _ w' Hinv Hsep H1 Hinv' Hw) by done.
    unfold abs. cbn [st_world st_live st_waiting]. rewrite (is_closed_some _ s) by done. by apply a_release.
  - by apply still_simulated; [apply still_start|..].
  - destruct (Hinv) as [_ (s & [H1 H2 H3 H4] & _)]. cbn in H1, H2.
    assert (Hw := wp_effect_close s w H1). cbn in Hw. unfold wp in Hw. rewrite H2 in Hw.
    assert (Hw' : ∃ woke, effect s w None n woke (close sid w).2 ∧ (woke → n = 0)) by by destruct (close sid w) as [[]].
    destruct Hw' as (woke & He & Hwoke). cbn in Hinv' |- *. split; [left|by eapply effect_separate].
    rewrite (effect_blocked s w G n None n woke _ Hinv Hsep H1 Hinv' He) by auto.
    unfold abs. cbn [st_world st_live st_waiting]. apply a_close.
  - by apply wait_simulated.
  - destruct (Hinv) as [_ (s & [H1 _ _ H4] & _)]. cbn in H1. split.
    + right. exists f. split; [done|split; [done|]]. unfold abs, a_cancel. cbn [st_world st_live st_waiting a_closed a_live a_blocked].
      unfold fut_cancel, fut_done, fut_settle, bind, gets. rewrite negb_involutive. unfold is_closed.
      destruct (bool_decide_reflect (w_futs w !! f = Some Pending)) as [Hp|Hp]; cbn; f_equal;
        apply set_eq; intros g; unfold blocked; rewrite elem_of_difference, !elem_of_filter, elem_of_singleton; cbn.
      * destruct (decide (f = g)) as [<-|Hne]; [rewrite lookup_insert_eq; naive_solver|]. rewrite lookup_insert_ne by done. naive_solver.
      * naive_solver.
    + intros s2 g Hs2 Hsf. cbn in *. revert Hs2 Hsf. unfold fut_cancel, fut_done, fut_settle, bind, gets.
      destruct (negb _); cbn; apply (Hsep s2).
  - destruct (still_abs (State w G n) _ Hinv (still_run _ w (still_exit f))) as [E Hs]. split.
    + left. replace (abs (State (wait_closed_exit sid f w).2 (G ∖ {[f]}) n)) with (abs (State w G n)); [apply a_idle|].
      rewrite <-E. unfold abs. cbn [st_world st_live st_waiting]. f_equal. apply set_eq. intros g. unfold blocked.
      rewrite !elem_of_filter, elem_of_difference, elem_of_singleton. split; [|naive_solver]. intros [Hp Hg].
      split; [done|split; [done|]]. intros ->. apply Hd. destruct Hinv as [_ (s & [H1 _ _ H4] & _)].
      destruct (still_run _ w (still_exit f)) as [_ _ F]. pose proof (F f (H4 f Hf)). cbn in *. congruence.
    + intros s g Hs2 Hsf. destruct (Hs Hsep s g Hs2 Hsf). cbn in *. split; [set_solver|done].
  - destruct (Hinv) as [_ (s & [H1 _ _ H4] & _)]. cbn in H1. split.
    + left. unfold abs. cbn [st_world st_live st_waiting].
      rewrite (is_closed_some w s), (is_closed_some _ (with_serving_forever (λ _, Some (w_next w)) s)) by (cbn; rewrite ?lookup_alter_eq; by rewrite H1).
      cbn [_sockets with_serving_forever]. apply idle_blocked. intros f Hf. cbn.
      specialize (H4 f Hf). cbn in H4. rewrite lookup_insert_ne by lia. done.
    + intros s2 g Hs2 Hsf. cbn in *. rewrite lookup_alter_eq, H1 in Hs2. injection Hs2 as <-. cbn in Hsf. injection Hsf as <-.
      split; [|lia]. intros Hin. specialize (H4 _ Hin). cbn in H4. lia.
  - destruct (Hinv) as [_ (s & [H1 _ _ H4] & _)]. cbn in H1. split.
    + left. unfold abs. cbn [st_world st_live st_waiting].
      rewrite (is_closed_some w s), (is_closed_some _ (with_serving_forever (λ _, None) s)) by (cbn; rewrite ?lookup_alter_eq; by rewrite H1).
      cbn [_sockets with_serving_forever]. by apply idle_blocked.
    + intros s2 g Hs2 Hsf. cbn in *. rewrite lookup_alter_eq, H1 in Hs2. injection Hs2 as <-. done.
Qed.

Lemma reachable_separate st0 st : initial sid st0 → rtc (step sid) st0 st → inv sid st ∧ separate st.
Proof.
  intros Hi. apply (rtc_ind_r (λ st, inv sid st ∧ separate st) st0).
  - split; [by apply initial_inv|]. destruct Hi as [w socks ssl b h d sid' w' Hn ->]. intros s f Hs Hf.
    unfold new_server, alloc, bind, gets, modify, ret in Hn. cbn in Hn. injection Hn as Esid Ew. subst.
    cbn in Hs. rewrite lookup_insert_eq in Hs. by injection Hs as <-.
  - intros y z _ Hst [H1 H2]. split; [by eapply step_inv|by eapply step_simulated].
Qed.
End refinement.

(** The machine's own safety: closed and without connections, it blocks nobody, and a closed
    one stays closed. *)
Lemma contract_wakes a a' :
  astep a a' → (a_closed a = true → a_live a = 0 → a_blocked a = ∅) →
  (a_closed a' = true → a_live a' = 0 → a_blocked a' = ∅) ∧ (a_closed a = true → a_closed a' = true).
Proof.
  intros [a0|n B|c n B Hn|c n B|c n B f Hf Hc] H; cbn in *; (split; [|done]).
  - done.
  - done.
  - unfold woken. by intros -> ->.
  - unfold woken. by intros _ ->.
  - intros -> ->. by destruct Hc.
Qed.

(** C12: The server implements the contract of [asyncio.Server]: it starts open, without
    connections and with nobody blocked, and from every state it can reach - whatever is
    accepted, attached, released, started, closed, however often and in any order - each of
    its steps is one of the contract's, or a caller giving up its own [wait_closed]. *)
Theorem server_refines `{K : Kernel} `{FS : FileSystem} sid st0 st :
  initial sid st0 → rtc (step sid) st0 st →
  abs sid st0 = AServer false 0 ∅ ∧
  ∀ st', step sid st st' → astep (abs sid st) (abs sid st') ∨
    ∃ f, f ∈ st_waiting st ∧ abs sid st' = a_cancel f (abs sid st).
Proof.
  intros Hi Hr. split.
  - destruct Hi as [w socks ssl b h d sid' w' Hn ->].
    unfold new_server, alloc, bind, gets, modify, ret in Hn. cbn in Hn. injection Hn as Esid Ew. subst.
    unfold abs, is_closed, blocked. cbn. by rewrite lookup_insert_eq.
  - destruct (reachable_separate sid _ _ Hi Hr) as [H1 H2]. intros st' Hst.
    destruct (step_simulated sid _ _ Hst H1 H2) as [[?|(f & ? & _ & ?)] _]; eauto.
Qed.
Lemma server_refines_witness :
  abs 0 (State fresh_server ∅ 0) = AServer false 0 ∅ ∧
  (astep (abs 0 (State fresh_server ∅ 0)) (abs 0 (State closed_server ∅ 0)) ∨
    ∃ f, f ∈ (∅ : gset oid) ∧ abs 0 (State closed_server ∅ 0) = a_cancel f (abs 0 (State fresh_server ∅ 0))) ∧
  abs 0 (State closed_server ∅ 0) = AServer true 0 ∅.
Proof.
  destruct (server_refines (K := steady [] []) (FS := no_disk) 0 (State fresh_server ∅ 0) (State fresh_server ∅ 0)
    fresh_initial (rtc_refl _ _)) as [H1 H2].
  split; [exact H1|split; [|vm_compute; reflexivity]].
  apply (H2 (State closed_server ∅ 0)). apply (step_close (K := steady [] []) (FS := no_disk)).
Defined.
