(* ===== verification/Lifecycle.v ===== *)
(** * Running a loop (zuvloop/_base.py)

    [run_forever], [run_until_complete], the finalizer, the default executor and the
    asynchronous generators a loop keeps track of.  What the loop does while it runs - the
    native [_run] and every callback - is the environment's; proved: what running leaves
    behind in the thread, what [run_until_complete] returns, that a loop is closed by its
    finalizer, and that a shut down executor takes no more work. *)
From S2P Require Import Prelude Checks Signals.

(** ** The state *)

(** [sys.get_asyncgen_hooks()]: nobody's, a loop's, or the application's. *)
Inductive hooks := HNone | HLoop (me : nat) | HUser (n : nat).
#[export] Instance hooks_eq_dec : EqDecision hooks.
Proof. solve_decision. Defined.

(** A future or task: its outcome, how often [_stop_when_done] is among its callbacks,
    whether its exception was retrieved, [_log_destroy_pending]. *)
Inductive outcome := OPending | OResult (v : Z) | OCancelled | OFailed (e : exn).
Record task := Task { tk_out : outcome; tk_stop : nat; tk_retrieved : bool; tk_warn : bool }.

Inductive levent :=
  | LWarn (message : string)
  | LReport (agen : nat) (e : exn)      (* [call_exception_handler] *)
  | LClosing (agen : nat)               (* [agen.aclose()] was scheduled *)
  | LThread (f ex : nat)                (* a thread running [_shutdown_executor] *)
  | LJoin (f ex : nat)                  (* and waiting for its end *)
  | LResult (f : nat).                  (* [_set_result_unless_cancelled] was scheduled *)

(** One thread and its loops: the signal state of the process, the loops that run, asyncio's
    running loop of the thread, its asyncgen hooks; of the loop: whether it watches for slow
    callbacks and samples, [_monitoring_armed] and [_metrics_armed],
    [_executor_shutdown_called], [_asyncgens] and [_asyncgens_shutdown_called]; and the
    futures, what was submitted to each executor, and what was reported.  Which executors
    were told to shut down is in the signal state, where [close_loop] tells them. *)
Record life := Life {
  lf_sig : sworld; lf_tick : nat; lf_running : gset nat; lf_thread : option nat; lf_hooks : hooks;
  lf_slow : bool; lf_sampler : bool; lf_armed : bool * bool; lf_called : bool; lf_agens : list nat;
  lf_agens_called : bool; lf_tasks : gmap nat task; lf_execs : gmap nat (list nat); lf_log : list levent }.

Definition upd_sig f s := Life (f (lf_sig s)) (lf_tick s) (lf_running s) (lf_thread s) (lf_hooks s) (lf_slow s) (lf_sampler s) (lf_armed s) (lf_called s) (lf_agens s) (lf_agens_called s) (lf_tasks s) (lf_execs s) (lf_log s).
Definition upd_ltick f s := Life (lf_sig s) (f (lf_tick s)) (lf_running s) (lf_thread s) (lf_hooks s) (lf_slow s) (lf_sampler s) (lf_armed s) (lf_called s) (lf_agens s) (lf_agens_called s) (lf_tasks s) (lf_execs s) (lf_log s).
Definition upd_running f s := Life (lf_sig s) (lf_tick s) (f (lf_running s)) (lf_thread s) (lf_hooks s) (lf_slow s) (lf_sampler s) (lf_armed s) (lf_called s) (lf_agens s) (lf_agens_called s) (lf_tasks s) (lf_execs s) (lf_log s).
Definition upd_thread f s := Life (lf_sig s) (lf_tick s) (lf_running s) (f (lf_thread s)) (lf_hooks s) (lf_slow s) (lf_sampler s) (lf_armed s) (lf_called s) (lf_agens s) (lf_agens_called s) (lf_tasks s) (lf_execs s) (lf_log s).
Definition upd_hooks f s := Life (lf_sig s) (lf_tick s) (lf_running s) (lf_thread s) (f (lf_hooks s)) (lf_slow s) (lf_sampler s) (lf_armed s) (lf_called s) (lf_agens s) (lf_agens_called s) (lf_tasks s) (lf_execs s) (lf_log s).
Definition upd_slow f s := Life (lf_sig s) (lf_tick s) (lf_running s) (lf_thread s) (lf_hooks s) (f (lf_slow s)) (lf_sampler s) (lf_armed s) (lf_called s) (lf_agens s) (lf_agens_called s) (lf_tasks s) (lf_execs s) (lf_log s).
Definition upd_sampler f s := Life (lf_sig s) (lf_tick s) (lf_running s) (lf_thread s) (lf_hooks s) (lf_slow s) (f (lf_sampler s)) (lf_armed s) (lf_called s) (lf_agens s) (lf_agens_called s) (lf_tasks s) (lf_execs s) (lf_log s).
Definition upd_armed f s := Life (lf_sig s) (lf_tick s) (lf_running s) (lf_thread s) (lf_hooks s) (lf_slow s) (lf_sampler s) (f (lf_armed s)) (lf_called s) (lf_agens s) (lf_agens_called s) (lf_tasks s) (lf_execs s) (lf_log s).
Definition upd_called f s := Life (lf_sig s) (lf_tick s) (lf_running s) (lf_thread s) (lf_hooks s) (lf_slow s) (lf_sampler s) (lf_armed s) (f (lf_called s)) (lf_agens s) (lf_agens_called s) (lf_tasks s) (lf_execs s) (lf_log s).
Definition upd_agens f s := Life (lf_sig s) (lf_tick s) (lf_running s) (lf_thread s) (lf_hooks s) (lf_slow s) (lf_sampler s) (lf_armed s) (lf_called s) (f (lf_agens s)) (lf_agens_called s) (lf_tasks s) (lf_execs s) (lf_log s).
Definition upd_agens_called f s := Life (lf_sig s) (lf_tick s) (lf_running s) (lf_thread s) (lf_hooks s) (lf_slow s) (lf_sampler s) (lf_armed s) (lf_called s) (lf_agens s) (f (lf_agens_called s)) (lf_tasks s) (lf_execs s) (lf_log s).
Definition upd_tasks f s := Life (lf_sig s) (lf_tick s) (lf_running s) (lf_thread s) (lf_hooks s) (lf_slow s) (lf_sampler s) (lf_armed s) (lf_called s) (lf_agens s) (lf_agens_called s) (f (lf_tasks s)) (lf_execs s) (lf_log s).
Definition upd_execs f s := Life (lf_sig s) (lf_tick s) (lf_running s) (lf_thread s) (lf_hooks s) (lf_slow s) (lf_sampler s) (lf_armed s) (lf_called s) (lf_agens s) (lf_agens_called s) (lf_tasks s) (f (lf_execs s)) (lf_log s).
Definition upd_llog f s := Life (lf_sig s) (lf_tick s) (lf_running s) (lf_thread s) (lf_hooks s) (lf_slow s) (lf_sampler s) (lf_armed s) (lf_called s) (lf_agens s) (lf_agens_called s) (lf_tasks s) (lf_execs s) (f (lf_log s)).

(** What the loop does while it runs, which checks and calls fail, what the telemetry
    providers are, how closing a generator ends, and what waiting is ended by. *)
Inductive waited := WDone | WTimeout | WCancelled.
Class LifeEnv := {
  run_loop : life → res unit * life;
  provider_fails : nat → option exn;
  providers : nat → bool * bool;               (* tracing, metrics *)
  call_fails : nat → option exn;
  life_intf : nat → life → life;
  aclose_result : nat → nat → option exn;
  waiting : nat → waited;
  interval : Z }.

Section lifecycle.
Context `{Env : SigEnv} `{LE : LifeEnv} (me : nat).

(** The signal operations, on the part of the state they work on. *)
Definition in_sig {A} (m : M sworld A) : M life A := λ w,
  let '(r, s) := m (lf_sig w) in (r, upd_sig (λ _, s) w).

Definition llog (e : levent) : M life unit := modify (upd_llog (λ l, l ++ [e])).
(** A call that may raise. *)
Definition call : M life unit :=
  t <- gets lf_tick ;; modify (upd_ltick S) ;;
  match call_fails t with Some e => raise e | None => ret tt end.
(** A suspension, or another thread's turn. *)
Definition turn : M life nat :=
  t <- gets lf_tick ;; modify (λ w, life_intf t (upd_ltick S w)) ;; ret t.

Definition is_closed : M life bool := in_sig (loop_get sl_closed true me).
Definition is_running : M life bool := gets (λ w, bool_decide (me ∈ lf_running w)).
Definition _check_closed : M life unit :=
  c <- is_closed ;; if (c : bool) then raise (mk RuntimeError "Event loop is closed") else ret tt.
Definition _check_runnable : M life unit :=
  r <- is_running ;;
  if (r : bool) then raise (mk RuntimeError "This event loop is already running") else
  t <- gets lf_thread ;;
  match t with
  | Some _ => raise (mk RuntimeError "Cannot run the event loop while another loop is running")
  | None => ret tt
  end.

(** ** The native side of running *)

(** [_start_metrics]: the interval must be positive. *)
Definition _start_metrics : M life unit :=
  _check_closed ;;
  if interval <=? 0 then raise (mk ValueError "the sampling interval must be positive")
  else call ;; modify (upd_sampler (λ _, true)).
Definition _stop_metrics : M life unit := modify (upd_sampler (λ _, false)).
Definition _set_slow_callback_monitoring (b : bool) : M life unit := modify (upd_slow (λ _, b)).
(** [_run]. *)
Definition _run : M life unit :=
  _check_closed ;; r <- is_running ;;
  if (r : bool) then raise (mk RuntimeError "This event loop is already running") else
  modify (upd_running (λ x, {[me]} ∪ x)) ;;
  r <- (λ w, let '(r, w') := run_loop w in (Ok r, w')) ;;
  modify (upd_running (λ x, x ∖ {[me]})) ;; of_res r.

(** The provider checks of zuvloop/_instrumentation.py. *)
Definition provider : M life (bool * bool) :=
  t <- gets lf_tick ;; modify (upd_ltick S) ;;
  match provider_fails t with Some e => raise e | None => ret (providers t) end.
Definition instrumentation_provider_installed : M life bool :=
  p <- provider ;; ret (p.1 || p.2).
Definition metrics_provider_installed : M life bool := p <- provider ;; ret p.2.

(** ** [run_forever] *)
Definition run_forever : M life unit :=
  _check_closed ;; _check_runnable ;;
  old_hooks <- gets lf_hooks ;;
  in_sig (_attach_wakeup_fd me) ;;
  modify (upd_thread (λ _, Some me)) ;;
  modify (upd_hooks (λ _, HLoop me)) ;;
  monitoring <- instrumentation_provider_installed ;;
  modify (upd_armed (λ a, (monitoring, a.2))) ;;
  metrics <- metrics_provider_installed ;;
  modify (upd_armed (λ a, (a.1, metrics))) ;;
  finally
    (_set_slow_callback_monitoring monitoring ;; _start_metrics ;; _run)
    (_set_slow_callback_monitoring false ;; _stop_metrics ;;
     modify (upd_hooks (λ _, old_hooks)) ;;
     modify (upd_thread (λ _, None)) ;;
     in_sig (_detach_wakeup_fd me)).

(** ** [run_until_complete] *)

(** What it is given: a future of this loop, of another one, a coroutine, or none of these. *)
Inductive awaitable := AFuture (f : nat) | AForeign (f : nat) | ACoroutine | ANot.

Definition get_task (f : nat) : M life task :=
  t <- gets (λ w, lf_tasks w !! f) ;;
  match t with Some t => ret t | None => raise (mk AttributeError "no such future") end.
Definition upd_task (f : nat) (g : task → task) : M life unit := modify (upd_tasks (alter g f)).
Definition with_out (o : outcome) (t : task) : task := Task o (tk_stop t) (tk_retrieved t) (tk_warn t).
Definition with_stop (g : nat → nat) (t : task) : task := Task (tk_out t) (g (tk_stop t)) (tk_retrieved t) (tk_warn t).
Definition with_retrieved (t : task) : task := Task (tk_out t) (tk_stop t) true (tk_warn t).
Definition without_warn (t : task) : task := Task (tk_out t) (tk_stop t) (tk_retrieved t) false.

Definition create_future : M life nat :=
  f <- gets (λ w, fresh (dom (lf_tasks w))) ;;
  modify (upd_tasks (<[f := Task OPending 0 false true]>)) ;; ret f.

(** [asyncio.ensure_future(future, loop=self)]. *)
Definition ensure_future (a : awaitable) : M life nat :=
  match a with
  | AFuture f => ret f
  | AForeign f => raise (mk ValueError "The future belongs to a different loop than the one specified as the loop argument")
  | ACoroutine => create_future
  | ANot => raise (mk TypeError "An asyncio.Future, a coroutine or an awaitable is required")
  end.
Definition is_future (a : awaitable) : bool :=
  match a with AFuture _ | AForeign _ => true | _ => false end.

(** [future.result()]. *)
Definition result (f : nat) : M life Z :=
  t <- get_task f ;;
  match tk_out t with
  | OResult v => ret v
  | OFailed e => upd_task f with_retrieved ;; raise e
  | OCancelled => raise (mk CancelledError "")
  | OPending => raise (mk InvalidStateError "Result is not set.")
  end.

Definition run_until_complete (a : awaitable) : M life Z :=
  _check_closed ;; _check_runnable ;;
  let new_task := negb (is_future a) in
  f <- ensure_future a ;;
  when_ new_task (upd_task f without_warn) ;;
  upd_task f (with_stop S) ;;
  finally
    (catch run_forever (λ e,
       when_ new_task
         (t <- get_task f ;;
          match tk_out t with
          | OPending | OCancelled => ret tt
          | _ => upd_task f with_retrieved
          end) ;;
       raise e))
    (upd_task f (with_stop (λ _, 0%nat))) ;;
  t <- get_task f ;;
  match tk_out t with
  | OPending => raise (mk RuntimeError "Event loop stopped before Future completed.")
  | _ => result f
  end.

(** ** Closing, and the finalizer *)
Definition close_ : M life unit :=
  r <- is_running ;;
  if (r : bool) then raise (mk RuntimeError "Cannot close a running event loop")
  else in_sig (close_loop me).

(** [try: m except BaseException: pass]. *)
Definition swallow (m : M life unit) : M life unit := catch m (λ _, ret tt).
Definition __del__ : M life unit :=
  c <- is_closed ;;
  when_ (negb c)
    (swallow (llog (LWarn "unclosed event loop") ;; call) ;;
     r <- is_running ;; when_ (negb r) (swallow close_)).

(** ** Executors *)
Definition default_executor : M life (option nat) := in_sig (loop_get sl_executor None me).
Definition set_default_executor (ex : nat) : M life unit := in_sig (loop_upd (with_executor (Some ex)) me).
Definition executor_is_shut (ex : nat) : M life bool :=
  gets (λ w, bool_decide (ex ∈ sw_shutdown (lf_sig w))).
(** [executor.submit] and [executor.shutdown]; the latter, told to wait, takes its time. *)
Definition submit (ex func : nat) : M life unit :=
  shut <- executor_is_shut ex ;;
  if (shut : bool) then raise (mk RuntimeError "cannot schedule new futures after shutdown")
  else call ;; modify (upd_execs (alter (λ l, l ++ [func]) ex)).
Definition executor_shutdown (wait : bool) (ex : nat) : M life unit :=
  in_sig (modify (upd_shutdown (λ l, l ++ [ex]))) ;;
  when_ wait (turn ;; ret tt) ;; call.
Definition new_executor : M life nat :=
  ex <- gets (λ w, fresh (dom (lf_execs w))) ;;
  modify (upd_execs (<[ex := []]>)) ;; ret ex.

Definition run_in_executor (executor : option nat) (func : nat) : M life nat :=
  _check_closed ;;
  ex <- match executor with
        | Some ex => ret ex
        | None =>
            called <- gets lf_called ;;
            if (called : bool) then raise (mk RuntimeError "Executor shutdown has been called") else
            d <- default_executor ;;
            match d with
            | Some ex => ret ex
            | None => ex <- new_executor ;; set_default_executor ex ;; ret ex
            end
        end ;;
  submit ex func ;; create_future.

(** [call_soon_threadsafe]: a loop that is closed by then refuses. *)
Definition call_soon_threadsafe (e : levent) : M life unit := turn ;; _check_closed ;; llog e.
Definition _shutdown_executor (f ex : nat) : M life unit :=
  finally (executor_shutdown true ex)
    (catch_cls (call_soon_threadsafe (LResult f)) RuntimeError
       (λ e, turn ;; c <- is_closed ;; if (c : bool) then ret tt else raise e)).

(** [async with asyncio.timeout(timeout): await future]. *)
Definition await_within (f : nat) : M life unit :=
  t <- turn ;;
  match waiting t with
  | WDone => ret tt
  | WTimeout => raise (mk TimeoutError "")
  | WCancelled => raise (mk CancelledError "")
  end.
Definition shutdown_default_executor : M life unit :=
  modify (upd_called (λ _, true)) ;;
  d <- default_executor ;;
  match d with
  | None => ret tt
  | Some ex =>
      f <- create_future ;; call ;; llog (LThread f ex) ;;
      catch_else (await_within f)
        (λ e, if isinstance e TimeoutError then
                llog (LWarn "The executor did not finish joining its threads within the timeout") ;;
                call ;; executor_shutdown false ex
              else raise e)
        (λ _, turn ;; llog (LJoin f ex))
  end.

(** ** Asynchronous generators *)
Definition _asyncgen_firstiter (agen : nat) : M life unit :=
  called <- gets lf_agens_called ;;
  when_ called (llog (LWarn "asynchronous generator was scheduled after loop.shutdown_asyncgens() call") ;; call) ;;
  modify (upd_agens (λ l, if bool_decide (agen ∈ l) then l else l ++ [agen])).
Definition discard (agen : nat) : list nat → list nat := filter (λ x, x ≠ agen).
Definition _asyncgen_finalizer (agen : nat) : M life unit :=
  modify (upd_agens (discard agen)) ;;
  c <- is_closed ;; when_ (negb c) (call_soon_threadsafe (LClosing agen)).

(** [results], in the order of [closing]. *)
Definition report_closed (t : nat) (agen : nat) : M life unit :=
  match aclose_result t agen with
  | Some e => llog (LReport agen e) ;; call
  | None => ret tt
  end.
Definition shutdown_asyncgens : M life unit :=
  modify (upd_agens_called (λ _, true)) ;;
  closing <- gets lf_agens ;;
  if bool_decide (closing = []) then ret tt else
  modify (upd_agens (λ _, [])) ;;
  for_each closing (λ agen, llog (LClosing agen)) ;;
  t <- turn ;;
  match waiting t with
  | WCancelled => raise (mk CancelledError "")
  | _ => for_each closing (report_closed t)
  end.
End lifecycle.

(** ** Lifting the signal operations *)
Lemma wp_in_sig {A} (m : M sworld A) (Q : A → life → Prop) E w :
  wp m (λ a s, Q a (upd_sig (λ _, s) w)) (λ e s, E e (upd_sig (λ _, s) w)) (lf_sig w) → wp (in_sig m) Q E w.
Proof. unfold wp, in_sig. by destruct (m (lf_sig w)) as [[a|e] s]. Qed.
Lemma wp_any {A} (m : M sworld A) (Q : A → life → Prop) E w :
  (∀ a s, Q a (upd_sig (λ _, s) w)) → (∀ e s, E e (upd_sig (λ _, s) w)) → wp (in_sig m) Q E w.
Proof. intros HQ HE. apply wp_in_sig. unfold wp. by destruct (m (lf_sig w)) as [[a|e] s]. Qed.
Lemma wp_any_total {A} (m : M sworld A) (Q : A → life → Prop) E w :
  total m → (∀ a s, Q a (upd_sig (λ _, s) w)) → wp (in_sig m) Q E w.
Proof.
  intros Hm HQ. apply wp_in_sig. eapply wp_mono; [apply Hm|intros a s _; apply HQ|done].
Qed.

Lemma detach_total `{Env : SigEnv} me : total (_detach_wakeup_fd me).
Proof.
  unfold _detach_wakeup_fd, attached, handlers, loop_get, loop_upd, set_wakeup_fd, yield_.
  apply raises_bind; [solve_raises|intros at_]. apply raises_bind; [solve_raises|intros hs].
  destruct on_main eqn:Hm; cbn [andb]; [|apply raises_ret]. solve_raises.
Qed.

Section running.
Context `{Env : SigEnv} `{LE : LifeEnv} (me : nat).

(** What running the loop leaves of the thread and of the loop's own watching. *)
Record unwound (w w' : life) : Prop := {
  un_thread : lf_thread w' = lf_thread w;
  un_hooks : lf_hooks w' = lf_hooks w;
  un_running : me ∉ lf_running w → me ∉ lf_running w';
  un_slow : lf_slow w' = false ∨ lf_slow w' = lf_slow w;
  un_sampler : lf_sampler w' = false ∨ lf_sampler w' = lf_sampler w }.
Lemma unwound_refl w s : unwound w (upd_sig (λ _, s) w).
Proof. split; cbn; auto. Qed.

(** Left between [_set_running_loop(self)] and the [try]. *)
Definition wedged (e : exn) (w' : life) : Prop :=
  (∃ t, provider_fails t = Some e) ∧ lf_thread w' = Some me ∧ lf_hooks w' = HLoop me.

Lemma wp_is_closed (Q : bool → life → Prop) E w :
  Q (match sw_loops (lf_sig w) !! me with Some l => sl_closed l | None => true end) w → wp (is_closed me) Q E w.
Proof. intros H. apply wp_in_sig. unfold loop_get. wp_step. by destruct w. Qed.
Lemma wp_check_closed (Q : unit → life → Prop) (E : exn → life → Prop) w :
  Q tt w → E (mk RuntimeError "Event loop is closed") w → wp (_check_closed me) Q E w.
Proof. intros HQ HE. unfold _check_closed. wp_step. apply wp_is_closed. by destruct (match _ with Some _ => _ | None => _ end). Qed.
Lemma wp_opened l (Q : unit → life → Prop) E w :
  sw_loops (lf_sig w) !! me = Some l → sl_closed l = false → Q tt w → wp (_check_closed me) Q E w.
Proof. intros Hl Hc HQ. unfold _check_closed. wp_step. apply wp_is_closed. by rewrite Hl, Hc. Qed.
Lemma wp_check_runnable (Q : unit → life → Prop) (E : exn → life → Prop) w :
  (me ∉ lf_running w → lf_thread w = None → Q tt w) → (∀ e, E e w) → wp (_check_runnable me) Q E w.
Proof.
  intros HQ HE. unfold _check_runnable, is_running. do 2 wp_step. case_bool_decide; wp_step; [apply HE|].
  wp_step. destruct (lf_thread w); wp_step; auto.
Qed.

(** The [finally] of [run_forever]. *)
Lemma wp_unwind w0 w (Q : life → Prop) E :
  lf_thread w0 = None → me ∉ lf_running w → (∀ w', unwound w0 w' → Q w') →
  wp (_set_slow_callback_monitoring false ;; _stop_metrics ;; modify (upd_hooks (λ _, lf_hooks w0)) ;;
      modify (upd_thread (λ _, None)) ;; in_sig (_detach_wakeup_fd me)) (λ _, Q) E w.
Proof.
  intros Ht Hr HQ. unfold _set_slow_callback_monitoring, _stop_metrics. do 8 wp_step.
  apply wp_any_total; [apply detach_total|]. intros _ s. apply HQ. split; cbn; auto.
Qed.
Lemma wp_provider (Q : bool * bool → life → Prop) (E : exn → life → Prop) w :
  (∀ b, Q b (upd_ltick Datatypes.S w)) → (∀ t e, provider_fails t = Some e → E e (upd_ltick Datatypes.S w)) →
  wp provider Q E w.
Proof. intros HQ HE. unfold provider. do 4 wp_step. destruct (provider_fails _) eqn:Hf; wp_step; eauto. Qed.

(** C25: However a run ends - refused, stopped, by an exception of a callback - the thread's
    running loop and its asyncgen hooks are back to what they were, the loop does not count
    as running, and neither watches for slow callbacks nor samples; the one exception is a
    telemetry provider check that raises, which leaves the thread with this loop as its
    running one and with its hooks. *)
Theorem run_forever_unwinds w :
  wp (run_forever me) (λ _, unwound w) (λ e w', unwound w w' ∨ wedged e w') w.
Proof.
  assert (H0 : unwound w w) by (split; auto). unfold run_forever. wp_step. apply wp_check_closed; [|by left].
  wp_step. apply wp_check_runnable; [|by left]. intros Hr Ht. do 3 wp_step.
  apply wp_any; [|intros; left; apply unwound_refl]. intros _ s. do 5 wp_step.
  unfold instrumentation_provider_installed, metrics_provider_installed.
  wp_step. apply wp_provider; [|intros t e He; right; split; [by exists t|done]]. intros b1.
  do 5 wp_step. apply wp_provider; [|intros t e He; right; split; [by exists t|done]]. intros b2.
  do 3 wp_step.
  assert (Hu : ∀ w1, me ∉ lf_running w1 → wp (_set_slow_callback_monitoring false ;; _stop_metrics ;;
    modify (upd_hooks (λ _, lf_hooks w)) ;; modify (upd_thread (λ _, None)) ;; in_sig (_detach_wakeup_fd me))
    (λ _ w', unwound w w') (λ _ _, False) w1) by (intros w1 Hr1; by apply wp_unwind).
  apply wp_finally.
  apply (wp_mono _ (λ _ w1, me ∉ lf_running w1) _ (λ _ w1, me ∉ lf_running w1)).
  - unfold _set_slow_callback_monitoring, _start_metrics, call. do 2 wp_step.
    wp_step. wp_step. apply wp_check_closed; [|exact Hr]. destruct (interval <=? 0); [wp_step; exact Hr|].
    do 5 wp_step. destruct (call_fails _); wp_step; [exact Hr|]. wp_step.
    unfold _run, is_running. wp_step. apply wp_check_closed; [|exact Hr].
    do 2 wp_step. destruct (bool_decide _); [wp_step; exact Hr|]. do 3 wp_step. unfold wp.
    destruct (run_loop _) as [[a|e] w2]; cbn; set_solver.
  - intros a w1 Hr1. eapply wp_mono; [by apply Hu|by intros [] w2|done].
  - intros e w1 Hr1. eapply wp_mono; [by apply Hu|by left|done].
Qed.
End running.

Section until_complete.
Context `{Env : SigEnv} `{LE : LifeEnv} (me : nat).
(** A future somebody holds on to does not go away while the loop runs. *)
Context (run_keeps : ∀ w f, is_Some (lf_tasks w !! f) → is_Some (lf_tasks (run_loop w).2 !! f)).

Definition held (w w' : life) : Prop := ∀ f, is_Some (lf_tasks w !! f) → is_Some (lf_tasks w' !! f).
#[local] Instance held_preorder : PreOrder held.
Proof. split; [by intros w f|]. intros w1 w2 w3 H1 H2 f Hf. by apply H2, H1. Qed.
Lemma held_same w w' : lf_tasks w' = lf_tasks w → held w w'.
Proof. intros E f. by rewrite E. Qed.
#[local] Hint Resolve held_same : stable.
Lemma held_sig {A} (m : M sworld A) : stable held (in_sig m).
Proof. intros w. apply wp_any; intros; by apply held_same. Qed.
Lemma held_run : stable held (run_forever me).
Proof.
  pose proof @held_sig.
  assert (stable held (λ w, let '(r, w') := run_loop w in (Ok r, w'))).
  { intros w. unfold wp. pose proof (run_keeps w) as Hk. by destruct (run_loop w). }
  unfold run_forever, _start_metrics, _run, _check_closed, _check_runnable, is_closed, is_running,
    instrumentation_provider_installed, metrics_provider_installed, provider,
    _set_slow_callback_monitoring, _stop_metrics, call.
  solve_stable.
Qed.

(** The future that is waited for: the one given, or a new task. *)
Definition waits_for (a : awaitable) (f : nat) (w : life) : Prop :=
  match a with AFuture g => f = g | ACoroutine => lf_tasks w !! f = None | _ => False end.
(** How an unsuccessful future is reported. *)
Definition reported (t : task) (e : exn) : Prop :=
  match tk_out t with
  | OPending => e = mk RuntimeError "Event loop stopped before Future completed."
  | OCancelled => e = mk CancelledError ""
  | OFailed e' => e = e' ∧ tk_retrieved t = true
  | OResult _ => False
  end.
Definition failure_seen (t : task) : Prop := ∀ e, tk_out t = OFailed e → tk_retrieved t = true.

Lemma wp_upd_task f t g (Q : unit → life → Prop) E w :
  lf_tasks w !! f = Some t → (∀ w', lf_tasks w' = <[f := g t]> (lf_tasks w) → lf_thread w' = lf_thread w → Q tt w') →
  wp (upd_task f g) Q E w.
Proof.
  intros Ht HQ. unfold upd_task. wp_step. apply HQ; [|done]. cbn. apply map_eq. intros k.
  destruct (decide (f = k)) as [<-|Hne]; [by rewrite lookup_alter_eq, lookup_insert_eq, Ht|by rewrite lookup_alter_ne, lookup_insert_ne].
Qed.
Lemma wp_get_task f t (Q : task → life → Prop) E w :
  lf_tasks w !! f = Some t → Q t w → wp (get_task f) Q E w.
Proof. intros Ht HQ. unfold get_task. do 2 wp_step. rewrite Ht. by wp_step. Qed.

(** [task.remove_done_callback(_stop_when_done)]. *)
Lemma wp_remove_stop f (Q : unit → life → Prop) E w :
  is_Some (lf_tasks w !! f) →
  (∀ t w', lf_tasks w !! f = Some t → lf_tasks w' !! f = Some (with_stop (λ _, 0%nat) t) → Q tt w') →
  wp (upd_task f (with_stop (λ _, 0%nat))) Q E w.
Proof.
  intros [t Ht] HQ. eapply wp_upd_task; [done|]. intros w' E' _. apply (HQ t); [done|]. by rewrite E', lookup_insert_eq.
Qed.

(** The outcome found at the end, with the loop's callback gone: the result, or why not. *)
Definition got (f : nat) (v : Z) (w' : life) : Prop :=
  ∃ t, lf_tasks w' !! f = Some t ∧ tk_stop t = 0%nat ∧ tk_out t = OResult v.
Definition missed (new_task : bool) (f : nat) (e : exn) (w' : life) : Prop :=
  ∃ t, lf_tasks w' !! f = Some t ∧ tk_stop t = 0%nat ∧
    (reported t e ∨ (∃ w1 w2, run_forever me w1 = (Raise e, w2)) ∧ (new_task = true → failure_seen t)).

(** [if not task.done(): raise ...; return task.result()]. *)
Definition outcome_of (f : nat) : M life Z :=
  t <- get_task f ;;
  match tk_out t with
  | OPending => raise (mk RuntimeError "Event loop stopped before Future completed.")
  | _ => result f
  end.
Lemma wp_outcome_of new_task f t w :
  lf_tasks w !! f = Some t → tk_stop t = 0%nat → wp (outcome_of f) (got f) (missed new_task f) w.
Proof.
  intros Ht Hs. unfold outcome_of, result. wp_step. eapply wp_get_task; [done|].
  assert (Hm : ∀ e, reported t e → missed new_task f e w) by (intros e He; exists t; auto).
  unfold reported in Hm. destruct (tk_out t) eqn:Ho; [wp_step; by apply Hm|..];
    (wp_step; eapply wp_get_task; [done|]; rewrite Ho; wp_step).
  - by exists t.
  - by apply Hm.
  - eapply wp_upd_task; [done|]. intros w3 E3 _. wp_step. eexists. split; [by rewrite E3, lookup_insert_eq|].
    split; [done|left]. unfold reported. cbn. by rewrite Ho.
Qed.

(** The run, for the future [f]. *)
Definition await_run (new_task : bool) (f : nat) : M life Z :=
  finally
    (catch (run_forever me) (λ e,
       when_ new_task
         (t <- get_task f ;;
          match tk_out t with OPending | OCancelled => ret tt | _ => upd_task f with_retrieved end) ;;
       raise e))
    (upd_task f (with_stop (λ _, 0%nat))) ;;
  outcome_of f.
Lemma wp_interrupted new_task f t e w0 w' w :
  run_forever me w0 = (Raise e, w') → lf_tasks w !! f = Some t → (new_task = true → failure_seen t) →
  wp (raise (A:=unit) e)
    (λ _, wp (upd_task f (with_stop (λ _, 0%nat))) (λ _, wp (outcome_of f) (got f) (missed new_task f)) (missed new_task f))
    (λ e, wp (upd_task f (with_stop (λ _, 0%nat))) (λ _, missed new_task f e) (missed new_task f)) w.
Proof.
  intros Hrun Ht Hs. wp_step. apply wp_remove_stop; [by exists t|]. intros t' w1 Ht' Ht1.
  eexists. split; [done|split; [done|right]]. split; [by exists w0, w'|].
  intros Hn. assert (t' = t) as -> by congruence. by apply Hs.
Qed.
Lemma wp_await_run new_task f w :
  is_Some (lf_tasks w !! f) → wp (await_run new_task f) (got f) (missed new_task f) w.
Proof.
  intros Hf. unfold await_run. wp_step. apply wp_finally, wp_catch.
  pose proof (held_run w) as Hh. unfold wp in Hh |- * at 1.
  destruct (run_forever me w) as [[[]|e] w1] eqn:Hrun; specialize (Hh f Hf).
  - apply wp_remove_stop; [done|]. intros t w2 _ Ht. by apply (wp_outcome_of _ _ (with_stop (λ _, 0%nat) t)).
  - destruct Hh as [t Ht]. wp_step. apply wp_when; intros Hn; [|eapply wp_interrupted; [done..|congruence]].
    wp_step. eapply wp_get_task; [done|]. destruct (tk_out t) eqn:Ho.
    1, 3: wp_step; eapply wp_interrupted; [done..|]; intros _ e'; congruence.
    all: eapply wp_upd_task; [done|]; intros w2 E2 _; eapply wp_interrupted; [done|by rewrite E2, lookup_insert_eq|done].
Qed.

(** C26: [run_until_complete] returns exactly the result of the future it waited for; otherwise it
    raises what the future says - its exception, which then counts as retrieved, its
    cancellation, or that the loop stopped first - or what stopped the run, and then the
    exception of a task of its own making counts as retrieved too.  In every case the loop's
    stopping callback is gone from the future. *)
Theorem run_until_complete_outcome a w :
  (∀ f, a = AFuture f → is_Some (lf_tasks w !! f)) →
  wp (run_until_complete me a)
    (λ v w', ∃ f, waits_for a f w ∧ got f v w')
    (λ e w', lf_tasks w' = lf_tasks w ∨ ∃ f, waits_for a f w ∧ missed (negb (is_future a)) f e w') w.
Proof.
  intros Ha. change (run_until_complete me a) with
    (_check_closed me ;; _check_runnable me ;; f <- ensure_future a ;;
     when_ (negb (is_future a)) (upd_task f without_warn) ;; upd_task f (with_stop Datatypes.S) ;;
     await_run (negb (is_future a)) f).
  wp_step. apply wp_check_closed; [|by left]. wp_step. apply wp_check_runnable; [|by left]. intros _ _.
  assert (Hgo : ∀ f w1, waits_for a f w → is_Some (lf_tasks w1 !! f) →
    wp (upd_task f (with_stop Datatypes.S) ;; await_run (negb (is_future a)) f)
      (λ v w', ∃ f, waits_for a f w ∧ got f v w')
      (λ e w', lf_tasks w' = lf_tasks w ∨ ∃ f, waits_for a f w ∧ missed (negb (is_future a)) f e w') w1).
  { intros f w1 Hw [t Ht]. wp_step. eapply wp_upd_task; [done|]. intros w2 E2 _.
    eapply wp_mono; [apply wp_await_run; rewrite E2, lookup_insert_eq; by eexists|..]; eauto. }
  destruct a as [f|f| |]; cbn [ensure_future is_future negb]; wp_step.
  - wp_step. unfold when_. do 2 wp_step. apply Hgo; [done|by apply Ha].
  - wp_step. by left.
  - unfold create_future. do 5 wp_step. wp_step. unfold when_.
    set (f := fresh _). assert (Hf : lf_tasks w !! f = None) by apply not_elem_of_dom, is_fresh. clearbody f.
    eapply wp_upd_task; [cbn; by rewrite lookup_insert_eq|]. intros w1 E1 _.
    apply Hgo; [done|]. rewrite E1. cbn. rewrite lookup_insert_eq. by eexists.
  - wp_step. by left.
Qed.
End until_complete.

(** ** A closed loop stays closed *)
Definition closes (me : nat) (s s' : sworld) : Prop :=
  ∀ l, sw_loops s !! me = Some l → ∃ l', sw_loops s' !! me = Some l' ∧ (sl_closed l = true → sl_closed l' = true).
Definition shut (me : nat) (s : sworld) : Prop := ∃ l, sw_loops s !! me = Some l ∧ sl_closed l = true.
#[export] Instance closes_preorder me : PreOrder (closes me).
Proof.
  split; [intros s l Hl; by exists l|]. intros s1 s2 s3 H1 H2 l Hl. destruct (H1 l Hl) as (l2 & Hl2 & E2).
  destruct (H2 l2 Hl2) as (l3 & ? & ?). exists l3. auto.
Qed.
Lemma closes_shut me s s' : closes me s s' → shut me s → shut me s'.
Proof. intros H (l & Hl & Hc). destruct (H l Hl) as (l' & ? & E). exists l'. auto. Qed.
Lemma closes_same me s s' : sw_loops s' = sw_loops s → closes me s s'.
Proof. intros E l Hl. exists l. by rewrite E. Qed.
Lemma closes_loop me o f s :
  (∀ l, sl_closed l = true → sl_closed (f l) = true) → closes me s (upd_loops (alter f o) s).
Proof.
  intros Hf l Hl. cbn. destruct (decide (o = me)) as [->|Hne].
  - exists (f l). rewrite lookup_alter_eq, Hl. auto.
  - exists l. by rewrite lookup_alter_ne.
Qed.
#[local] Hint Resolve closes_same : stable.

Section closing.
Context `{Env : SigEnv} (me : nat) (Hs : ∀ s, closes me s (jump s)).

Lemma closes_yield : stable (closes me) yield_.
Proof. by apply stable_modify. Qed.
Lemma closes_loop_upd f o : (∀ l, sl_closed l = true → sl_closed (f l) = true) → stable (closes me) (loop_upd f o).
Proof. intros Hf. apply stable_modify. intros s. by apply closes_loop. Qed.
Lemma closes_signal sig h : stable (closes me) (signal_signal sig h).
Proof. pose proof closes_yield. unfold signal_signal, sig_sys. solve_stable. Qed.
Lemma closes_wakeup f : stable (closes me) (set_wakeup_fd f).
Proof. pose proof closes_yield. unfold set_wakeup_fd, sig_sys. solve_stable. Qed.
Lemma closes_reset o sigs : stable (closes me) (reset_signals o sigs).
Proof.
  unfold reset_signals. pose proof closes_signal.
  assert (H1 : stable (closes me) (ret (None : option exn))) by eauto with stable typeclass_instances. revert H1.
  generalize (ret (W:=sworld) (None : option exn)). induction sigs as [|sig sigs IH]; intros acc H1; [exact H1|].
  cbn. apply IH. solve_stable.
Qed.
Lemma closes_cleanup sigs f o : stable (closes me) (_finish_deferred_signal_cleanup sigs f o).
Proof.
  pose proof closes_wakeup. pose proof closes_reset.
  assert (stable (closes me) (loop_upd with_finalized o)) by by apply closes_loop_upd.
  unfold _finish_deferred_signal_cleanup. solve_stable.
Qed.
Lemma closes_detach o : stable (closes me) (_detach_wakeup_fd o).
Proof.
  pose proof closes_wakeup.
  assert (stable (closes me) (loop_upd (with_attached false) o)) by by apply closes_loop_upd.
  unfold _detach_wakeup_fd, attached, handlers, loop_get. solve_stable.
Qed.
Lemma closes_remove o sig : stable (closes me) (remove_entry o sig).
Proof.
  pose proof closes_signal. pose proof closes_detach.
  assert (stable (closes me) (loop_upd (with_handlers (delete sig)) o)) by by apply closes_loop_upd.
  unfold remove_entry, handlers, loop_get. solve_stable.
Qed.

(** Whatever fails on the way, a loop that is there is closed afterwards. *)
Lemma wp_close_loop s :
  is_Some (sw_loops s !! me) → wp (close_loop me) (λ _, shut me) (λ _, shut me) s.
Proof.
  intros [l Hl]. unfold close_loop, loop_get at 1 2. do 2 wp_step. rewrite Hl.
  destruct (sl_closed l) eqn:Hc; [wp_step; by exists l|]. do 2 wp_step. rewrite Hl. unfold loop_upd at 1 2.
  do 4 wp_step.
  set (s1 := upd_loops (alter with_closed me) _).
  assert (H1 : shut me s1) by (exists (with_closed (with_executor None l)); unfold s1; cbn; by rewrite !lookup_alter_eq, Hl).
  clearbody s1. apply (wp_stable (closes me)); [|intros; by eapply closes_shut..].
  pose proof closes_remove. pose proof closes_cleanup.
  assert (Hu : ∀ f, (∀ l, sl_closed l = true → sl_closed (f l) = true) → stable (closes me) (loop_upd f me))
    by (intros; by apply closes_loop_upd).
  assert (stable (closes me) (loop_upd with_finalized me)) by by apply Hu.
  assert (stable (closes me) (loop_upd forget me)) by by apply Hu.
  assert (∀ b, stable (closes me) (loop_upd (with_watch b) me)) by by intros; apply Hu.
  assert (∀ c, stable (closes me) (loop_upd (with_csock c) me)) by by intros; apply Hu.
  unfold _teardown_self_pipe, handlers, attached, csock, loop_get. solve_stable.
Qed.
End closing.

Section finalizer.
Context `{Env : SigEnv} `{LE : LifeEnv} (me : nat) (Hs : ∀ s, closes me s (jump s)).

(** The finalizer raises nothing, whatever warning filters and the cleanup do, and leaves a
    loop that does not run closed. *)
Theorem del_closes w :
  is_Some (sw_loops (lf_sig w) !! me) →
  wp (__del__ me) (λ _ w', me ∉ lf_running w → shut me (lf_sig w')) (λ _ _, False) w.
Proof.
  intros [l Hl]. unfold __del__. wp_step. apply wp_is_closed. rewrite Hl.
  apply wp_when; intros Hc; [|intros _; exists l; by destruct (sl_closed l)]. wp_step.
  assert (Hrest : ∀ w1, lf_sig w1 = lf_sig w → lf_running w1 = lf_running w →
    wp (r <- is_running me ;; when_ (negb r) (swallow (close_ me)))
      (λ _ w', me ∉ lf_running w → shut me (lf_sig w')) (λ _ _, False) w1).
  { intros w1 E1 E2. unfold is_running. do 2 wp_step. rewrite E2. apply wp_when; intros Hr.
    2:{ intros Hn. by rewrite bool_decide_eq_false_2 in Hr. }
    unfold swallow. wp_step. unfold close_, is_running. do 2 wp_step. rewrite E2.
    destruct (bool_decide _); [done|]. apply wp_in_sig.
    assert (Hsh := wp_close_loop me Hs (lf_sig w1)). rewrite E1, Hl in Hsh. specialize (Hsh (ltac:(by eexists))).
    rewrite E1. eapply wp_mono; [exact Hsh|..].
    - done.
    - intros e s' ?. wp_step. by intros _. }
  unfold swallow at 1. wp_step. unfold llog, call. do 6 wp_step. destruct (call_fails _); wp_step; [wp_step|]; by apply Hrest.
Qed.
End finalizer.

(** ** Executors and generators, with others at work *)
Section others.
Context `{Env : SigEnv} `{LE : LifeEnv} (me : nat).
(** Others close the loop for good, and, below, never take back a shutdown. *)
Context (others_close : ∀ n w, closes me (lf_sig w) (lf_sig (life_intf n w))).

Lemma wp_turn (Q : nat → life → Prop) E w :
  (∀ t, Q t (life_intf t (upd_ltick Datatypes.S w))) → wp turn Q E w.
Proof. intros HQ. unfold turn. do 5 wp_step. apply HQ. Qed.
Lemma wp_call (Q : unit → life → Prop) (E : exn → life → Prop) w :
  Q tt (upd_ltick Datatypes.S w) → (∀ t e, call_fails t = Some e → E e (upd_ltick Datatypes.S w)) → wp call Q E w.
Proof. intros HQ HE. unfold call. do 4 wp_step. destruct (call_fails _) eqn:Hc; wp_step; eauto. Qed.
Definition known (w : life) : Prop := is_Some (sw_loops (lf_sig w) !! me).
Lemma turn_known t w : known w → known (life_intf t (upd_ltick Datatypes.S w)).
Proof. intros [l Hl]. destruct (others_close t (upd_ltick Datatypes.S w) l Hl) as (l' & ? & _). by exists l'. Qed.
Lemma turn_shut t w : shut me (lf_sig w) → shut me (lf_sig (life_intf t (upd_ltick Datatypes.S w))).
Proof. apply closes_shut. apply (others_close t (upd_ltick Datatypes.S w)). Qed.

(** The thread that shuts an executor down tells the loop it is done unless the loop is
    closed, even when the shutdown itself fails; it raises nothing of its own, in particular
    when the loop is closed at the last moment. *)
Theorem executor_thread_reports f ex w :
  known w →
  wp (_shutdown_executor me f ex)
    (λ _ w', shut me (lf_sig w') ∨ LResult f ∈ lf_log w')
    (λ e w', (∃ t, call_fails t = Some e) ∧ (shut me (lf_sig w') ∨ LResult f ∈ lf_log w')) w.
Proof.
  intros Hk. unfold _shutdown_executor. apply wp_finally.
  assert (Htell : ∀ w1, known w1 → wp (catch_cls (call_soon_threadsafe me (LResult f)) RuntimeError
      (λ e, turn ;; c <- is_closed me ;; if (c : bool) then ret tt else raise e))
    (λ _ w', shut me (lf_sig w') ∨ LResult f ∈ lf_log w') (λ _ _, False) w1).
  { intros w1 H1. apply wp_catch_cls. unfold call_soon_threadsafe. wp_step. apply wp_turn. intros t.
    apply (turn_known t) in H1. set (w2 := life_intf _ _) in *. clearbody w2. destruct H1 as [l Hl].
    unfold _check_closed. do 2 wp_step. apply wp_is_closed. rewrite Hl. destruct (sl_closed l) eqn:Hc; wp_step.
    - split; [|done]. intros _. wp_step. apply wp_turn. intros t'. wp_step. apply wp_is_closed.
      destruct (turn_shut t' w2) as (l' & Hl' & Hc'); [by exists l|]. rewrite Hl', Hc'. wp_step. left. by exists l'.
    - unfold llog. wp_step. right. cbn. set_solver. }
  unfold executor_shutdown, when_. wp_step. apply wp_in_sig. do 2 wp_step. cbn iota. wp_step. apply wp_turn. intros t.
  wp_step. assert (H1 := turn_known t (upd_sig (λ _, upd_shutdown (λ l, l ++ [ex]) (lf_sig w)) w) Hk).
  set (w1 := life_intf _ _) in *. clearbody w1. apply wp_call.
  - eapply wp_mono; [by apply Htell|done|done].
  - intros t' e He. eapply wp_mono; [by apply Htell| |done]. intros u w' Hw'. split; [by exists t'|done].
Qed.

Definition default_of (w : life) : option nat :=
  match sw_loops (lf_sig w) !! me with Some l => sl_executor l | None => None end.
Lemma wp_default (Q : option nat → life → Prop) E w : Q (default_of w) w → wp (default_executor me) Q E w.
Proof. intros H. apply wp_in_sig. unfold loop_get. wp_step. by destruct w. Qed.

Definition accepted (ex func : nat) (w w' : life) : Prop :=
  (ex ∉ sw_shutdown (lf_sig w)) ∧ lf_execs w' = alter (λ l, l ++ [func]) ex (lf_execs w) ∧
  default_of w' = default_of w ∧ lf_called w' = lf_called w ∧ sw_loops (lf_sig w') = sw_loops (lf_sig w) ∧
  sw_shutdown (lf_sig w') = sw_shutdown (lf_sig w).
Lemma wp_submit ex func (Q : unit → life → Prop) (E : exn → life → Prop) w :
  (∀ w', accepted ex func w w' → Q tt w') →
  (∀ e w', (exn_cls e = RuntimeError ∧ ex ∈ sw_shutdown (lf_sig w)) ∨ (∃ t, call_fails t = Some e) →
     lf_execs w' = lf_execs w → lf_sig w' = lf_sig w → E e w') →
  wp (submit ex func) Q E w.
Proof.
  intros HQ HE. unfold submit, executor_is_shut. do 2 wp_step. case_bool_decide; wp_step; [by apply HE; [left|..]|].
  apply wp_call; [|intros t e He; apply HE; [right; by exists t|done..]]. wp_step. by apply HQ.
Qed.

Context (others_called : ∀ n w, lf_called w = true → lf_called (life_intf n w) = true).
(** Once the shutdown of the default executor has begun - and however it ended, with the
    thread joined, by a timeout, which tells the executor again, or cancelled - the loop
    takes no work without an executor. *)
Theorem shutdown_refuses_work func w :
  wp (r <- capture (shutdown_default_executor me) ;; f <- run_in_executor me None func ;; ret (r, f))
    (λ _ _, False)
    (λ e _, e = mk RuntimeError "Event loop is closed" ∨ e = mk RuntimeError "Executor shutdown has been called") w.
Proof.
  wp_step. apply wp_capture.
  assert (Hrun : ∀ (r : res unit) w1, lf_called w1 = true →
    wp (f <- run_in_executor me None func ;; ret (r, f)) (λ _ _, False)
      (λ e _, e = mk RuntimeError "Event loop is closed" ∨ e = mk RuntimeError "Executor shutdown has been called") w1).
  { intros r w1 H1. unfold run_in_executor. wp_step. wp_step. apply wp_check_closed; [|by left].
    wp_step. cbn iota. do 2 wp_step. rewrite H1. wp_step. by right. }
  apply (wp_mono _ (λ _ w1, lf_called w1 = true) _ (λ _ w1, lf_called w1 = true)); [|by intros; apply Hrun..].
  unfold shutdown_default_executor. do 3 wp_step. apply wp_default.
  set (w1 := upd_called _ w). assert (H1 : lf_called w1 = true) by done. clearbody w1.
  destruct (default_of w1) as [ex|]; [|by wp_step]. unfold create_future, llog, await_within.
  do 6 wp_step.
  set (w2 := upd_tasks (<[fresh (dom (lf_tasks w1)) := Task OPending 0 false true]>) w1).
  assert (H2 : lf_called w2 = true) by done. clearbody w2. cbv beta.
  wp_step. apply wp_call; [|done]. do 4 wp_step. apply wp_turn. intros t.
  match goal with |- wp _ _ _ (life_intf t ?v) => assert (H3 := others_called t v H2) end.
  set (w3 := life_intf _ _) in *. clearbody w3. destruct (waiting t).
  - wp_step. wp_step. apply wp_turn. intros t'. wp_step. by apply (others_called t' (upd_ltick Datatypes.S w3)).
  - wp_step. change (isinstance (mk TimeoutError "") TimeoutError) with true. cbv iota. do 3 wp_step.
    apply wp_call; [|done]. unfold executor_shutdown, when_. wp_step. apply wp_in_sig. wp_step. do 2 wp_step. by apply wp_call.
  - wp_step. by wp_step.
Qed.
End others.

(** Work given to the loop without an executor goes to one executor, in order, as long as
    nothing closes the loop or shuts the executor down. *)
Section sharing.
Context `{Env : SigEnv} `{LE : LifeEnv} (me : nat) (no_failures : ∀ t, call_fails t = None).

(** The executor [ex] is the default one, and got [done] so far. *)
Definition serving (ex : nat) (done : list nat) (w : life) : Prop :=
  (∃ l, sw_loops (lf_sig w) !! me = Some l ∧ sl_closed l = false ∧ sl_executor l = Some ex) ∧
  lf_called w = false ∧ (ex ∉ sw_shutdown (lf_sig w)) ∧ lf_execs w !! ex = Some done.
Lemma serving_default ex done w : serving ex done w → default_of me w = Some ex.
Proof. intros [(l & Hl & _ & He) _]. unfold default_of. by rewrite Hl. Qed.
Lemma wp_work ex done func w :
  serving ex done w → wp (run_in_executor me None func) (λ _, serving ex (done ++ [func])) (λ _ _, False) w.
Proof.
  intros H. assert (Hd := serving_default _ _ _ H). destruct H as [(l & Hl & Hc & He) (Hn & Hs & Hw)].
  unfold run_in_executor. wp_step. apply (wp_opened me l); [done..|]. wp_step. cbn iota. do 2 wp_step.
  rewrite Hn. cbn iota. wp_step. apply (wp_default me). rewrite Hd. do 2 wp_step. apply (wp_submit me).
  - intros w' (_ & E1 & E2 & E3 & E4 & E5). unfold create_future. do 5 wp_step. split; cbn; [|split; [congruence|split]].
    + exists l. by rewrite E4.
    + by rewrite E5.
    + by rewrite E1, lookup_alter_eq, Hw.
  - intros e w' [[_ ?]|[t Ht]]; [done|]. by rewrite no_failures in Ht.
Qed.
Lemma wp_first_work func w l :
  sw_loops (lf_sig w) !! me = Some l → sl_closed l = false → sl_executor l = None → lf_called w = false →
  (∀ ex, lf_execs w !! ex = None → ex ∉ sw_shutdown (lf_sig w)) →
  wp (run_in_executor me None func) (λ _ w', (∃ ex, lf_execs w !! ex = None ∧ serving ex [func] w')) (λ _ _, False) w.
Proof.
  intros Hl Hc He Hn Hf. unfold run_in_executor. wp_step. apply (wp_opened me l); [done..|]. wp_step. cbn iota.
  do 2 wp_step. rewrite Hn. cbn iota. wp_step. apply (wp_default me). unfold default_of. rewrite Hl, He. cbn iota.
  unfold new_executor, set_default_executor, loop_upd. do 7 wp_step. apply wp_in_sig. do 2 wp_step.
  set (ex := fresh _). assert (Hex : lf_execs w !! ex = None) by apply not_elem_of_dom, is_fresh. clearbody ex.
  apply wp_bind, (wp_submit me).
  - intros w' (_ & E1 & E2 & E3 & E4 & E5). unfold create_future. do 5 wp_step. exists ex. split; [done|].
    split; cbn; [|split; [by rewrite E3|split]].
    + exists (with_executor (Some ex) l). rewrite E4. cbn. by rewrite lookup_alter_eq, Hl.
    + rewrite E5. cbn. by apply Hf.
    + rewrite E1. cbn. by rewrite lookup_alter_eq, lookup_insert_eq.
  - intros e w' [[_ Hin]|[t Ht]]; [exfalso; by apply (Hf ex)|]. by rewrite no_failures in Ht.
Qed.

Theorem default_executor_shared func funcs w l :
  sw_loops (lf_sig w) !! me = Some l → sl_closed l = false → sl_executor l = None → lf_called w = false →
  (∀ ex, lf_execs w !! ex = None → ex ∉ sw_shutdown (lf_sig w)) →
  wp (for_each (func :: funcs) (λ f, run_in_executor me None f ;; ret tt))
    (λ _ w', ∃ ex, lf_execs w !! ex = None ∧ serving ex (func :: funcs) w') (λ _ _, False) w.
Proof.
  intros Hl Hc He Hn Hf. cbn. do 2 wp_step. eapply wp_mono; [by eapply wp_first_work| |done].
  intros u w1 (ex & Hex & H1). wp_step.
  apply (wp_for_each (λ rest w', ∃ done, done ++ rest = func :: funcs ∧ serving ex done w')).
  - by exists [func].
  - intros f rest w2 (fs & E & H2). wp_step. eapply wp_mono; [by apply wp_work| |done].
    intros u2 w3 H3. wp_step. exists (fs ++ [f]). by rewrite <-app_assoc.
  - intros w2 (fs & E & H2). rewrite app_nil_r in E. subst. by exists ex.
Qed.
End sharing.

(** ** Closing generators *)
Section generators.
Context `{LE : LifeEnv} (others_log : ∀ n w, lf_log w `prefix_of` lf_log (life_intf n w)).

Definition reports (t : nat) (l : list nat) : list levent :=
  omap (λ a, LReport a <$> aclose_result t a) l.
Lemma wp_reports t l w :
  wp (for_each l (report_closed t)) (λ _ w', lf_log w' = lf_log w ++ reports t l)
    (λ e w', (∃ k, call_fails k = Some e) ∧ ∃ rs, rs `prefix_of` reports t l ∧ lf_log w' = lf_log w ++ rs) w.
Proof.
  revert w. induction l as [|a l IH]; intros w; [apply wp_ret; by rewrite app_nil_r|]. cbn. wp_step. unfold report_closed at 1.
  destruct (aclose_result t a) as [e|] eqn:Ha; [|wp_step; apply IH]. unfold llog. do 2 wp_step. apply wp_call.
  - eapply wp_mono; [apply IH|cbn..].
    + intros _ w' ->. by rewrite <-app_assoc.
    + intros e' w' (? & rs & Hp & ->). split; [done|]. exists (LReport a e :: rs). rewrite <-app_assoc.
      split; [by apply prefix_cons|done].
  - intros k e' Hk. split; [by exists k|]. exists [LReport a e]. split; [by eexists|done].
Qed.

(** Every generator of [w] closed and its failure reported, or some of the reports left out. *)
Definition closed_all (w w' : life) : Prop :=
  lf_agens w = [] ∧ lf_log w' = lf_log w ∨
  ∃ mid t, lf_log w' = lf_log w ++ map LClosing (lf_agens w) ++ mid ++ reports t (lf_agens w).
Definition closed_some (w : life) (e : exn) (w' : life) : Prop :=
  ∃ mid t rs, lf_log w' = lf_log w ++ map LClosing (lf_agens w) ++ mid ++ rs ∧
    rs `prefix_of` reports t (lf_agens w) ∧ (e = mk CancelledError "" ∨ ∃ k, call_fails k = Some e).

(** [shutdown_asyncgens] schedules the closing of every generator that is still open, once
    each, forgets them, and once they are closed reports the failures, each with its own
    generator, in the same order; a handler that raises ends the reports early, and a
    cancellation while waiting leaves them out. *)
Theorem asyncgens_closed w : wp shutdown_asyncgens (λ _, closed_all w) (closed_some w) w.
Proof.
  unfold shutdown_asyncgens. do 4 wp_step. cbn [lf_agens upd_agens_called].
  destruct (bool_decide _) eqn:Hb; [wp_step; left; by apply bool_decide_eq_true_1 in Hb|]. do 3 wp_step.
  apply (wp_mono _ (λ _ w', lf_log w' = lf_log w ++ map LClosing (lf_agens w)) _ (λ _ _, False)); [| |done].
  { apply (wp_for_each (λ rest w', ∃ done, done ++ rest = lf_agens w ∧ lf_log w' = lf_log w ++ map LClosing done)).
    - exists []. split; [done|]. by rewrite app_nil_r.
    - intros a rest w' (fs & E & Hw). unfold llog. wp_step. exists (fs ++ [a]). split; [by rewrite <-app_assoc|].
      cbn. by rewrite Hw, map_app, <-app_assoc.
    - intros w' (fs & E & Hw). rewrite app_nil_r in E. by subst. }
  intros u w1 H1. wp_step. apply wp_turn. intros t. destruct (others_log t (upd_ltick Datatypes.S w1)) as [mid Hmid].
  cbn in Hmid. set (w2 := life_intf _ _) in *. clearbody w2. rewrite H1, <-app_assoc in Hmid.
  assert (Hend : wp (for_each (lf_agens w) (report_closed t)) (λ _, closed_all w) (closed_some w) w2).
  { eapply wp_mono; [apply wp_reports|unfold closed_all, closed_some..].
    - intros _ w' ->. right. exists mid, t. by rewrite Hmid, <-!app_assoc.
    - intros e w' (? & rs & ? & ->). exists mid, t, rs. rewrite Hmid, <-!app_assoc. auto. }
  destruct (waiting t); [done..|]. wp_step. exists mid, t, []. rewrite app_nil_r.
  split; [done|split; [by apply prefix_nil|by left]].
Qed.
End generators.

(** ** Concrete runs *)
Section examples.
#[local] Instance main_thread : SigEnv := env (λ _, None).
(** The loop runs until future 0 is done; generator 1 fails to close. *)
Definition finishing (o : outcome) (w : life) : res unit * life := (Ok tt, upd_tasks (alter (with_out o) 0%nat) w).
#[local] Instance calm : LifeEnv := {|
  run_loop := finishing (OResult 42); provider_fails := λ _, None; providers := λ _, (false, false);
  call_fails := λ _, None; life_intf := λ _ w, w;
  aclose_result := λ _ a, if Nat.eqb a 1 then Some (mk ValueError "x") else None;
  waiting := λ _, WDone; interval := 10 |}.
Definition life1 : life :=
  Life one_loop_world 0 ∅ None HNone false false (false, false) false [2%nat; 1%nat] false
    {[0%nat := Task OPending 0 false true]} ∅ [].

Lemma run_until_complete_outcome_witness :
  wp (run_until_complete 0 (AFuture 0)) (λ v w', ∃ f, waits_for (AFuture 0) f life1 ∧ got f v w')
    (λ e w', lf_tasks w' = lf_tasks life1 ∨ ∃ f, waits_for (AFuture 0) f life1 ∧ missed 0 false f e w') life1 ∧
  (run_until_complete 0 (AFuture 0) life1).1 = Ok 42.
Proof.
  split; [|vm_compute; reflexivity]. apply (run_until_complete_outcome 0) with (a := AFuture 0) (w := life1).
  - intros w f [t Ht]. cbn. destruct (decide (f = 0%nat)) as [->|Hne]; [|rewrite lookup_alter_ne by congruence; by exists t].
    rewrite lookup_alter_eq, Ht. eexists. reflexivity.
  - intros f [= <-]. eexists. reflexivity.
Defined.
Lemma quiet_closes s : closes 0 s (jump s).
Proof. by apply closes_same. Qed.
Lemma del_closes_witness :
  wp (__del__ 0) (λ _ w', 0%nat ∉ lf_running life1 → shut 0 (lf_sig w')) (λ _ _, False) life1.
Proof. apply (del_closes 0 quiet_closes). eexists. reflexivity. Defined.
Lemma executor_thread_reports_witness :
  wp (_shutdown_executor 0 7 3)
    (λ _ w', shut 0 (lf_sig w') ∨ LResult 7 ∈ lf_log w')
    (λ e w', (∃ t, call_fails t = Some e) ∧ (shut 0 (lf_sig w') ∨ LResult 7 ∈ lf_log w')) life1.
Proof. apply (executor_thread_reports (LE := calm) 0 (λ n w, closes_same 0 (lf_sig w) (lf_sig w) eq_refl)). eexists. reflexivity. Defined.
Lemma shutdown_refuses_work_witness :
  wp (r <- capture (shutdown_default_executor 0) ;; f <- run_in_executor 0 None 9 ;; ret (r, f))
    (λ _ _, False)
    (λ e _, e = mk RuntimeError "Event loop is closed" ∨ e = mk RuntimeError "Executor shutdown has been called") life1.
Proof. apply (shutdown_refuses_work (LE := calm) 0 (λ n w H, H)). Defined.
Lemma default_executor_shared_witness :
  wp (for_each [8%nat; 9%nat] (λ f, run_in_executor 0 None f ;; ret tt))
    (λ _ w', ∃ ex, lf_execs life1 !! ex = None ∧ serving 0 ex [8%nat; 9%nat] w') (λ _ _, False) life1.
Proof.
  apply (default_executor_shared 0) with (l := one_loop); try reflexivity. intros ex _ Hin. by apply elem_of_nil in Hin.
Defined.
Lemma asyncgens_closed_witness :
  wp shutdown_asyncgens (λ _, closed_all life1) (closed_some life1) life1 ∧
  lf_log (shutdown_asyncgens life1).2 = [LClosing 2; LClosing 1; LReport 1 (mk ValueError "x")].
Proof. split; [apply asyncgens_closed; intros n w; reflexivity|reflexivity]. Defined.
End examples.
