(* ===== verification/Handlers.v ===== *)
(** * Reporting failures (zuvloop/_base.py, zuvloop/_instrumentation.py)

    The exception handlers of a loop and its telemetry: what is logged, counted, measured
    and traced when a callback fails, is slow, or when the sampler fires.  The logging and
    OpenTelemetry calls, the application's own handler, and every [repr] are calls out that
    may raise; proved: what still gets out of the handlers, that what is logged is complete
    and in order, that values are shown within their bound, and that what the native sampler
    hands over is published. *)
From Stdlib Require Import Sorting.Sorted.
From S2P Require Import Prelude.

(** ** Text

    A Python string as its code points. *)
Definition text := list Z.
Fixpoint txt (s : string) : text :=
  match s with
  | EmptyString => []
  | String a s => Z.of_N (N_of_ascii a) :: txt s
  end.
Definition newline : text := [10].
Fixpoint join (sep : text) (l : list text) : text :=
  match l with
  | [] => []
  | [x] => x
  | x :: l' => x ++ sep ++ join sep l'
  end.
(** The white space [str.rstrip] removes, as far as formatted tracebacks have any. *)
Definition is_space (c : Z) : bool := (c =? 32) || ((9 <=? c) && (c <=? 13)).
Fixpoint lstrip (l : text) : text :=
  match l with c :: l' => if is_space c then lstrip l' else l | [] => [] end.
Definition rstrip (l : text) : text := reverse (lstrip (reverse l)).

Definition _MAX_ATTRIBUTE_LENGTH : nat := 4096.
Definition ellipsis : text := [8230].
Definition _bounded (value : text) : text :=
  if Nat.leb (length value) _MAX_ATTRIBUTE_LENGTH then value
  else take (_MAX_ATTRIBUTE_LENGTH - 1) value ++ ellipsis.

(** ** Contexts

    What a handler is told: values by name. *)
Inductive cval := VNone | VText (s : text) | VExn (e : exn) | VObj (n : nat) | VContext (l : list (string * cval)).
Definition context := list (string * cval).
Fixpoint get (c : context) (k : string) : cval :=
  match c with
  | [] => VNone
  | (k', v) :: c' => if String.eqb k k' then v else get c' k
  end.

(** [sorted(context)]. *)
Fixpoint insert_key (k : string) (l : list string) : list string :=
  match l with
  | [] => [k]
  | k' :: l' => if String.leb k k' then k :: l else k' :: insert_key k l'
  end.
Definition sorted (c : context) : list string := foldr insert_key [] c.*1.

(** ** The outside *)
Inductive instrument := Meter | Tracer | Counter (name : string) | Histogram (name : string) | Gauge (name : string).
#[export] Instance instrument_eq_dec : EqDecision instrument.
Proof. solve_decision. Defined.

Inductive hevent :=
  | HAdd (i : instrument) (attributes : list (string * text))
  | HRecord (i : instrument) (v : Z)
  | HSet (i : instrument) (v : Z)
  | HSpan (start stop : Z) (attributes : list (string * text))
  | HError (message : text) (exc_info : option exn)   (* [logger.error] *)
  | HException (message : string)                     (* [logger.exception] *)
  | HHandled (ctx : option nat) (c : context).        (* the application's handler ran *)

(** The handler set, what is armed, whether slow callbacks are watched for, the instruments
    made so far ([functools.cache]), and what was emitted. *)
Record tel := Tel {
  te_tick : nat; te_handler : option nat; te_monitoring : bool; te_metrics : bool; te_slow : bool;
  te_made : list instrument; te_out : list hevent }.
Definition tel_tick s := Tel (S (te_tick s)) (te_handler s) (te_monitoring s) (te_metrics s) (te_slow s) (te_made s) (te_out s).
Definition tel_handler h s := Tel (te_tick s) h (te_monitoring s) (te_metrics s) (te_slow s) (te_made s) (te_out s).
Definition tel_monitoring s := Tel (te_tick s) (te_handler s) true (te_metrics s) (te_slow s) (te_made s) (te_out s).
Definition tel_metrics b s := Tel (te_tick s) (te_handler s) (te_monitoring s) b (te_slow s) (te_made s) (te_out s).
Definition tel_slow s := Tel (te_tick s) (te_handler s) (te_monitoring s) (te_metrics s) true (te_made s) (te_out s).
Definition tel_made i s := Tel (te_tick s) (te_handler s) (te_monitoring s) (te_metrics s) (te_slow s) (te_made s ++ [i]) (te_out s).
Definition tel_out e s := Tel (te_tick s) (te_handler s) (te_monitoring s) (te_metrics s) (te_slow s) (te_made s) (te_out s ++ [e]).

(** A task a callback belongs to; its coroutine by name, with the file and line of its code
    if it has any. *)
Record taskinfo := TaskInfo { ti_name : text; ti_id : Z; ti_done : bool; ti_qualname : text; ti_code : option (text * Z) }.

(** Tracer and meter providers, by class. *)
Inductive tprovider := NoOpTracer | ProxyTracer | RealTracer.
Inductive mprovider := NoOpMeter | ProxyMeter (real : bool) | RealMeter.

(** What every call out does: the n-th raises or not; how values print; what the telemetry
    API answers; how the application's handler ends. *)
Class Outside := {
  h_fails : nat → option exn;
  last_fails : nat → option exn;                (* [logger.exception] *)
  repr_of : cval → res text;
  str_of : cval → res text;
  type_name : cval → text;
  truthy : nat → bool;
  format_list : cval → res text;
  context_of : cval → res (option nat);
  handler_fails : nat → option exn;
  tracer_provider : nat → res tprovider;
  meter_provider : nat → res mprovider;
  handle_task : cval → option taskinfo;         (* of the handle, or the current one *)
  format_call_graph : taskinfo → res text;
  repr_text : text → text;
  hex : Z → text;
  dec : Z → text;
  now_ns : nat → Z;
  int_ns : Z → Z }.                             (* [int(duration * 1e9)] *)

Section handlers.
Context `{Out : Outside}.

(** A call out, one that leaves a trace, and the logging of last resort. *)
Definition out : M tel nat :=
  n <- gets te_tick ;; modify tel_tick ;;
  match h_fails n with Some e => raise e | None => ret n end.
Definition emit (e : hevent) : M tel unit := out ;; modify (tel_out e).
Definition log_exception (message : string) : M tel unit :=
  n <- gets te_tick ;; modify tel_tick ;;
  match last_fails n with Some e => raise e | None => modify (tel_out (HException message)) end.

(** [except SystemExit, KeyboardInterrupt: raise] [except BaseException as exc: h exc]. *)
Definition fatal (e : exn) : bool := isinstance e SystemExit || isinstance e KeyboardInterrupt.
Definition guarded (m : M tel unit) (h : exn → M tel unit) : M tel unit :=
  catch m (λ e, if fatal e then raise e else h e).

(** ** Instruments *)

(** [functools.cache]: the body runs until it has returned once; the instruments of the
    meter ask for the meter first. *)
Definition once (i : instrument) (first : M tel unit) : M tel unit :=
  made <- gets te_made ;;
  if bool_decide (i ∈ made) then ret tt else first ;; out ;; modify (tel_made i).
Definition _meter : M tel unit := once Meter (ret tt).
Definition _tracer : M tel unit := once Tracer (ret tt).
Definition cached (i : instrument) : M tel unit := once i _meter.

(** ** Providers *)
Definition tracing_provider_installed : M tel bool :=
  n <- gets te_tick ;; modify tel_tick ;; p <- of_res (tracer_provider n) ;;
  ret match p with RealTracer => true | _ => false end.
Definition metrics_provider_installed : M tel bool :=
  n <- gets te_tick ;; modify tel_tick ;; p <- of_res (meter_provider n) ;;
  ret match p with NoOpMeter => false | ProxyMeter real => real | RealMeter => true end.
Definition instrumentation_provider_installed : M tel bool :=
  t <- tracing_provider_installed ;;
  if (t : bool) then ret true else metrics_provider_installed.

(** ** Showing values *)
Definition _safe_repr (value : cval) : M tel text :=
  catch (r <- of_res (repr_of value) ;; ret (_bounded r))
    (λ e, if fatal e then raise e
          else ret (_bounded (txt "<" ++ type_name value ++ txt " repr failed>"))).

Definition capture_call_graph (handle : cval) : M tel (option text) :=
  match handle_task handle with
  | None => ret None
  | Some t =>
      if ti_done t then
        let location :=
          match ti_code t with
          | Some (file, line) =>
              txt "  |   File " ++ repr_text file ++ txt ", line " ++ dec line ++ txt ", in " ++ ti_qualname t ++ txt "()"
          | None => txt "  |   Coroutine " ++ ti_qualname t ++ txt "()"
          end in
        ret (Some (txt "* Task(name=" ++ repr_text (ti_name t) ++ txt ", id=" ++ hex (ti_id t) ++ txt ", state=done)" ++
                   newline ++ txt "  + Call stack (task already finished):" ++ newline ++ location))
      else g <- of_res (format_call_graph t) ;; ret (Some g)
  end.

(** ** Slow callbacks *)
Definition slow_attributes (shown : text) (duration thread : Z) (cpu_time : Z) (graph : option text) : list (string * text) :=
  [("code.callback"%string, shown); ("duration"%string, dec duration); ("thread.id"%string, dec thread);
   ("logfire.level_num"%string, txt "13")] ++
  (if 0 <=? cpu_time then [("cpu_time"%string, dec cpu_time)] else []) ++
  match graph with Some g => [("asyncio.call_graph"%string, _bounded g)] | None => [] end.
Definition report_slow_callback (handle : cval) (duration cpu_time thread : Z) : M tel unit :=
  guarded
    (cached (Counter "slow_callbacks") ;; emit (HAdd (Counter "slow_callbacks") []) ;;
     cached (Histogram "callback_duration") ;; emit (HRecord (Histogram "callback_duration") duration) ;;
     installed <- tracing_provider_installed ;;
     if negb installed then ret tt else
     n <- out ;;
     let ended := now_ns n in
     graph <- capture_call_graph handle ;;
     shown <- _safe_repr handle ;;
     _tracer ;; out ;;
     emit (HSpan (ended - int_ns duration) ended (slow_attributes shown duration thread cpu_time graph)))
    (λ _, ret tt).

Definition report_exception (c : context) : M tel unit :=
  guarded
    (let attributes := match get c "exception" with
                       | VExn e => [("error.type"%string, type_name (VExn e))]
                       | _ => []
                       end in
     cached (Counter "unhandled_exceptions") ;; emit (HAdd (Counter "unhandled_exceptions") attributes))
    (λ _, ret tt).

(** ** The handlers *)
Definition set_exception_handler (h : option nat) : M tel unit := modify (tel_handler h).
Definition get_exception_handler : M tel (option nat) := gets te_handler.

Definition is_truthy (v : cval) : bool :=
  match v with VNone | VText [] | VContext [] => false | VObj n => truthy n | _ => true end.
Definition shown_value (k : string) (v : cval) : M tel text :=
  if String.eqb k "source_traceback" then
    l <- of_res (format_list v) ;; ret (txt "Object created at (most recent call last):" ++ newline ++ rstrip l)
  else if String.eqb k "handle_traceback" then
    l <- of_res (format_list v) ;; ret (txt "Handle created at (most recent call last):" ++ newline ++ rstrip l)
  else _safe_repr v.
Definition other_keys (c : context) : list string :=
  filter (λ k, k ≠ "message"%string ∧ k ≠ "exception"%string) (sorted c).
Fixpoint log_lines (c : context) (keys : list string) : M tel (list text) :=
  match keys with
  | [] => ret []
  | k :: keys' =>
      v <- shown_value k (get c k) ;;
      rest <- log_lines c keys' ;; ret ((txt k ++ txt ": " ++ v) :: rest)
  end.
Definition default_exception_handler (c : context) : M tel unit :=
  let message := if is_truthy (get c "message") then get c "message"
                 else VText (txt "Unhandled exception in event loop") in
  let exc_info := match get c "exception" with VExn e => Some e | _ => None end in
  m <- match message with VText s => ret s | v => of_res (str_of v) end ;;
  lines <- log_lines c (other_keys c) ;;
  emit (HError (join newline (m :: lines)) exc_info) ;;
  report_exception c.

(** The context the handler runs in: of the task, the future or the handle concerned. *)
Definition concerned (c : context) : cval :=
  match get c "task" with
  | VNone => match get c "future" with VNone => get c "handle" | v => v end
  | v => v
  end.
(** The application's handler: it runs, and may raise. *)
Definition run_handler (h : nat) (ctx : option nat) (c : context) : M tel unit :=
  n <- gets te_tick ;; modify tel_tick ;; modify (tel_out (HHandled ctx c)) ;;
  match handler_fails n with Some e => raise e | None => ret tt end.
Definition call_exception_handler (c : context) : M tel unit :=
  h <- gets te_handler ;;
  match h with
  | None =>
      guarded (default_exception_handler c)
        (λ _, log_exception "Exception in default exception handler")
  | Some h =>
      guarded
        (ctx <- match concerned c with VNone => ret None | v => of_res (context_of v) end ;;
         run_handler h ctx c)
        (λ e,
          guarded
            (default_exception_handler
               [("message"%string, VText (txt "Unhandled error in exception handler"));
                ("exception"%string, VExn e); ("context"%string, VContext c)])
            (λ _, log_exception "Exception in default exception handler while handling an unexpected error in custom exception handler"))
  end.

(** ** Sampling *)
Definition _GAUGES : list (string * string) :=
  [("loop_count", "libuv loop iterations"); ("events", "Events libuv processed");
   ("events_waiting", "Events pending when libuv last polled"); ("idle_time_ns", "Nanoseconds libuv spent idle");
   ("callbacks_run", "Callbacks the loop has executed"); ("ready", "Callbacks queued for the next iteration");
   ("timers", "Scheduled timers"); ("watchers", "Descriptors watched via add_reader/add_writer")]%string.
(** A name without a description is a [KeyError]. *)
Definition publish_metrics (snapshot : list (string * Z)) : M tel unit :=
  for_each snapshot (λ '(name, value),
    if bool_decide (name ∈ _GAUGES.*1) then cached (Gauge name) ;; emit (HSet (Gauge name) value)
    else raise (mk KeyError name)).
Definition _on_sample (snapshot : list (string * Z)) : M tel unit :=
  armed <- gets te_monitoring ;;
  when_ (negb armed)
    (i <- instrumentation_provider_installed ;; when_ i (modify tel_monitoring ;; modify tel_slow)) ;;
  m <- gets te_metrics ;;
  when_ (negb m) (i <- metrics_provider_installed ;; modify (tel_metrics i)) ;;
  m' <- gets te_metrics ;;
  when_ m' (publish_metrics snapshot).
(** What the native sampler hands over (zig/loop.zig, [buildMetrics]). *)
Definition native_snapshot (v : string → Z) : list (string * Z) :=
  map (λ k, (k, v k)) ["loop_count"; "events"; "events_waiting"; "idle_time_ns"; "callbacks_run"; "ready"; "timers"; "watchers"]%string.
End handlers.

(** ** Bounds *)
Lemma bounded_length v : (length (_bounded v) ≤ _MAX_ATTRIBUTE_LENGTH)%nat.
Proof.
  unfold _bounded. destruct (Nat.leb _ _) eqn:H; [by apply Nat.leb_le|].
  rewrite length_app, length_take. unfold _MAX_ATTRIBUTE_LENGTH. cbn [length ellipsis]. lia.
Qed.

(** ** What gets out *)
Section out.
Context `{Out : Outside}.

Lemma raises_fatal (m : M tel unit) h (P : exn → Prop) :
  (∀ e, fatal e = true → P e) → (∀ e, raises P (h e)) → raises P (guarded m h).
Proof.
  intros HP Hh. unfold guarded. apply (raises_catch P m _ (λ _, True)).
  - intros w. unfold wp. by destruct (m w) as [[]].
  - intros e _. destruct (fatal e) eqn:Hf; [apply raises_raise; auto|apply Hh].
Qed.

(** [_safe_repr] shows any value within the bound, whatever its [repr] does: as it prints if
    that fits, cut and marked if it does not; only [SystemExit] and [KeyboardInterrupt] get
    out. *)
Theorem safe_repr_bounded v w :
  wp (_safe_repr v)
    (λ r w', w' = w ∧ (length r ≤ _MAX_ATTRIBUTE_LENGTH)%nat ∧
       ∀ s, repr_of v = Ok s →
         if Nat.leb (length s) _MAX_ATTRIBUTE_LENGTH then r = s
         else ∃ p, p `prefix_of` s ∧ r = p ++ ellipsis ∧ length r = _MAX_ATTRIBUTE_LENGTH)
    (λ e w', w' = w ∧ fatal e = true ∧ repr_of v = Raise e) w.
Proof.
  unfold _safe_repr. do 2 wp_step. apply wp_of_res.
  - intros s Hr. rewrite Hr. wp_step. split; [done|split; [apply bounded_length|]]. intros s' [= <-].
    unfold _bounded. destruct (Nat.leb _ _) eqn:Hl; [done|]. eexists.
    split; [apply (prefix_take _ (_MAX_ATTRIBUTE_LENGTH - 1))|split; [done|]]. apply Nat.leb_gt in Hl.
    rewrite length_app, length_take. cbn [length ellipsis]. revert Hl. unfold _MAX_ATTRIBUTE_LENGTH. lia.
  - intros e Hr. destruct (fatal e) eqn:Hf; wp_step; [done|].
    split; [done|split; [apply bounded_length|]]. intros s. by rewrite Hr.
Qed.

Lemma raises_any {A} (m : M tel A) : raises (λ _, True) m.
Proof. intros w. unfold wp. by destruct (m w) as [[]]. Qed.
Definition last_resort (e : exn) : Prop := fatal e = true ∨ ∃ n, last_fails n = Some e.
Lemma log_exception_raises m : raises last_resort (log_exception m).
Proof.
  intros w. unfold log_exception. do 4 wp_step. destruct (last_fails _) eqn:Hl; wp_step; [right; by eexists|done].
Qed.

(** C37: [call_exception_handler] raises nothing but [SystemExit] and [KeyboardInterrupt],
    whatever the application's handler, the values in the context, the logging and the
    telemetry do - unless the logging of last resort itself fails. *)
Theorem exception_handler_contains c : raises last_resort (call_exception_handler c).
Proof.
  unfold call_exception_handler. apply raises_bind; [apply raises_gets|]. intros [h|].
  - apply raises_fatal; [by left|]. intros e. apply raises_fatal; [by left|]. intros e'. apply log_exception_raises.
  - apply raises_fatal; [by left|]. intros e. apply log_exception_raises.
Qed.
(** Telemetry never replaces the failure that led to it. *)
Lemma telemetry_silent c handle d cpu t :
  raises (λ e, fatal e = true) (report_exception c) ∧
  raises (λ e, fatal e = true) (report_slow_callback handle d cpu t).
Proof. split; apply raises_fatal; intros; try apply raises_ret; done. Qed.

(** ** What is logged *)
Definition leb_string (a b : string) : Prop := String.leb a b = true.
Lemma insert_key_perm k l : insert_key k l ≡ₚ k :: l.
Proof.
  induction l as [|k' l IH]; [done|]. cbn. destruct (String.leb k k'); [done|].
  rewrite IH. apply Permutation_swap.
Qed.
Lemma insert_key_sorted k l : Sorted leb_string l → Sorted leb_string (insert_key k l).
Proof.
  induction 1 as [|k' l Hs IH Hd]; [by repeat constructor|]. cbn. destruct (String.leb k k') eqn:Hk.
  - constructor; [by constructor|by constructor].
  - assert (Hk' : String.leb k' k = true) by (destruct (String.leb_total k k'); congruence).
    constructor; [done|]. destruct Hd as [|k2 l Hd]; cbn; [by constructor|].
    destruct (String.leb k k2); by constructor.
Qed.
Lemma sorted_spec c : Sorted leb_string (sorted c) ∧ sorted c ≡ₚ c.*1.
Proof.
  unfold sorted. induction c.*1 as [|k l [IH1 IH2]]; [by split|]. cbn. split; [by apply insert_key_sorted|].
  by rewrite insert_key_perm, IH2.
Qed.

(** How one value is shown. *)
Definition repr_shown (v : cval) : text :=
  match repr_of v with Ok s => _bounded s | Raise _ => _bounded (txt "<" ++ type_name v ++ txt " repr failed>") end.
Definition shows (k : string) (v : cval) (s : text) : Prop :=
  if String.eqb k "source_traceback" then
    ∃ l, format_list v = Ok l ∧ s = txt "Object created at (most recent call last):" ++ newline ++ rstrip l
  else if String.eqb k "handle_traceback" then
    ∃ l, format_list v = Ok l ∧ s = txt "Handle created at (most recent call last):" ++ newline ++ rstrip l
  else s = repr_shown v.
Definition line_of (c : context) (k : string) (line : text) : Prop :=
  ∃ s, shows k (get c k) s ∧ line = txt k ++ txt ": " ++ s.

Lemma wp_shown k v w : wp (shown_value k v) (λ s w', w' = w ∧ shows k v s) (λ _ w', w' = w) w.
Proof.
  unfold shown_value, shows. destruct (String.eqb k _); [|destruct (String.eqb k _)].
  1, 2: wp_step; apply wp_of_res; [intros l Hl; wp_step; by eauto|done].
  unfold _safe_repr, repr_shown. do 2 wp_step. apply wp_of_res.
  - intros s ->. by wp_step.
  - intros e ->. by destruct (fatal e); wp_step.
Qed.
Lemma wp_log_lines c keys w :
  wp (log_lines c keys) (λ lines w', w' = w ∧ Forall2 (line_of c) keys lines) (λ _ w', w' = w) w.
Proof.
  induction keys as [|k keys IH]; [by apply wp_ret|]. cbn. wp_step.
  eapply wp_mono; [apply wp_shown| |done]. intros s w' [-> Hs]. wp_step.
  eapply wp_mono; [apply IH| |done]. intros lines w' [-> Hl]. wp_step. split; [done|].
  constructor; [by exists s|done].
Qed.
(** What comes before the lines. *)
Definition message_of (c : context) (m : text) : Prop :=
  if is_truthy (get c "message")
  then match get c "message" with VText s => m = s | v => str_of v = Ok m end
  else m = txt "Unhandled exception in event loop".
Definition exception_of (c : context) : option exn := match get c "exception" with VExn e => Some e | _ => None end.

Definition adds (w w' : tel) (P : list hevent → Prop) : Prop := ∃ l, te_out w' = te_out w ++ l ∧ P l.
Lemma wp_emit ev (Q : unit → tel → Prop) (E : exn → tel → Prop) w :
  (∀ w', te_out w' = te_out w ++ [ev] → te_made w' = te_made w → te_metrics w' = te_metrics w →
     te_monitoring w' = te_monitoring w → te_slow w' = te_slow w → Q tt w') →
  (∀ n e w', h_fails n = Some e → te_out w' = te_out w → E e w') → wp (emit ev) Q E w.
Proof.
  intros HQ HE. unfold emit, out. do 5 wp_step. destruct (h_fails _) eqn:Hf; wp_step; [by eapply HE|].
  wp_step. by apply HQ.
Qed.
(** Making an instrument changes nothing that was emitted or armed. *)
Definition same_out (w w' : tel) : Prop :=
  te_out w' = te_out w ∧ te_metrics w' = te_metrics w ∧ te_monitoring w' = te_monitoring w ∧ te_slow w' = te_slow w.
Lemma same_out_trans w1 w2 w3 : same_out w1 w2 → same_out w2 w3 → same_out w1 w3.
Proof. intros (? & ? & ? & ?) (? & ? & ? & ?). repeat split; congruence. Qed.
Definition from_outside (e : exn) : Prop := ∃ n, h_fails n = Some e.
Lemma wp_once i first (Q : unit → tel → Prop) (E : exn → tel → Prop) w :
  (∀ w, wp first (λ _, same_out w) (λ e w', same_out w w' ∧ from_outside e) w) →
  (∀ w', same_out w w' → Q tt w') → (∀ e w', same_out w w' → from_outside e → E e w') →
  wp (once i first) Q E w.
Proof.
  intros Hf HQ HE. unfold once, out. do 2 wp_step. destruct (bool_decide _); [wp_step; by apply HQ|]. wp_step.
  eapply wp_mono; [apply Hf| |intros e w' [? ?]; by apply HE]. intros u w1 H1. do 5 wp_step.
  destruct (h_fails _) eqn:Hn; wp_step; [apply HE; [|by eexists]|wp_step; apply HQ]; by eapply same_out_trans.
Qed.
Lemma wp_cached i (Q : unit → tel → Prop) (E : exn → tel → Prop) w :
  (∀ w', same_out w w' → Q tt w') → (∀ e w', same_out w w' → from_outside e → E e w') → wp (cached i) Q E w.
Proof.
  intros HQ HE. apply wp_once; [|done|done]. intros w1. apply wp_once.
  - intros w2. by apply wp_ret.
  - by intros w2.
  - by intros e w2.
Qed.

Lemma wp_report c w :
  wp (report_exception c)
    (λ _ w', adds w w' (λ l, l = [] ∨ ∃ a, l = [HAdd (Counter "unhandled_exceptions") a]))
    (λ e w', fatal e = true ∧ te_out w' = te_out w) w.
Proof.
  unfold report_exception, guarded. wp_step. wp_step. apply wp_cached.
  - intros w1 (E1 & _). apply wp_emit.
    + intros w2 E2 _ _ _ _. eexists. rewrite E2, E1. split; [done|]. right. by eexists.
    + intros n e w2 _ E2. destruct (fatal e) eqn:Hf; wp_step; [by rewrite E2|].
      exists []. rewrite app_nil_r, E2. by split; [|left].
  - intros e w1 (E1 & _) _. destruct (fatal e) eqn:Hf; wp_step; [done|]. exists []. rewrite app_nil_r. by split; [|left].
Qed.

(** The default handler logs one error: the message, then one line for every other key of the
    context, in sorted order, with its value shown as far as that is possible; the exception
    goes along, and is then counted.  When it raises instead, at most that error was logged. *)
Theorem default_handler_logs c w :
  Sorted leb_string (sorted c) ∧ sorted c ≡ₚ c.*1 ∧
  wp (default_exception_handler c)
    (λ _ w', ∃ m lines, message_of c m ∧ Forall2 (line_of c) (other_keys c) lines ∧
       adds w w' (λ l, ∃ more, l = HError (join newline (m :: lines)) (exception_of c) :: more ∧
         (more = [] ∨ ∃ a, more = [HAdd (Counter "unhandled_exceptions") a])))
    (λ e w', adds w w' (λ l, l = [] ∨ fatal e = true ∧ ∃ m, l = [HError m (exception_of c)])) w.
Proof.
  destruct (sorted_spec c) as [H1 H2]. split; [done|split; [done|]]. unfold default_exception_handler. wp_step.
  assert (Hnil : ∀ e w', te_out w' = te_out w → adds w w' (λ l, l = [] ∨ fatal e = true ∧ ∃ m, l = [HError m (exception_of c)])).
  { intros e w' E'. exists []. rewrite app_nil_r. by split; [|left]. }
  apply (wp_mono _ (λ m w', w' = w ∧ message_of c m) _ (λ _ w', w' = w)).
  - unfold message_of. destruct (is_truthy _) eqn:Ht; [|by wp_step].
    destruct (get c "message"); try (apply wp_of_res; [by intros m Hm|done]). by wp_step.
  - intros m w' [-> Hm]. wp_step. eapply wp_mono; [apply wp_log_lines| |by intros e w' ->; apply Hnil].
    intros lines w' [-> Hl]. wp_step. apply wp_emit; [|by intros n e w' _ E'; apply Hnil].
    intros w1 E1 _ _ _ _. eapply wp_mono; [apply wp_report|..].
    + intros u w2 (more & E2 & Hmore). exists m, lines. split; [done|split; [done|]].
      eexists. rewrite E2, E1, <-app_assoc. split; [done|]. by exists more.
    + intros e w2 [Hf E2]. eexists. rewrite E2, E1. split; [done|]. right. split; [done|]. by eexists.
  - intros e w' ->. by apply Hnil.
Qed.

(** ** Sampling *)
Definition provider_raises (e : exn) : Prop := ∃ n, tracer_provider n = Raise e ∨ meter_provider n = Raise e.
Lemma wp_publish snapshot w :
  Forall (λ kv, kv.1 ∈ _GAUGES.*1) snapshot →
  wp (publish_metrics snapshot)
    (λ _ w', te_out w' = te_out w ++ map (λ '(k, v), HSet (Gauge k) v) snapshot ∧ te_metrics w' = te_metrics w ∧
       te_monitoring w' = te_monitoring w ∧ te_slow w' = te_slow w)
    (λ e _, from_outside e) w.
Proof.
  unfold publish_metrics. intros H. revert w.
  induction H as [|[k v] l Hk _ IH]; intros w; [apply wp_ret; by rewrite app_nil_r|]. cbn.
  wp_step. cbn in Hk. rewrite bool_decide_eq_true_2 by done. cbn iota. wp_step. apply wp_cached; [|done].
  intros w1 (E1 & E2 & E3 & E4). apply wp_emit; [|intros n e w2 Hn _; by exists n]. intros w2 F1 _ F2 F3 F4.
  eapply wp_mono; [apply IH| |done]. intros u w3 (G1 & G2 & G3 & G4).
  rewrite G1, F1, E1, <-app_assoc. split; [done|repeat split; congruence].
Qed.
Lemma wp_tracing (Q : bool → tel → Prop) (E : exn → tel → Prop) w :
  (∀ b w', same_out w w' → Q b w') → (∀ e w', provider_raises e → E e w') → wp tracing_provider_installed Q E w.
Proof.
  intros HQ HE. unfold tracing_provider_installed. do 5 wp_step. apply wp_of_res.
  - intros p _. wp_step. by apply HQ.
  - intros e He. apply HE. eexists. by left.
Qed.
Lemma wp_metrics (Q : bool → tel → Prop) (E : exn → tel → Prop) w :
  (∀ b w', same_out w w' → Q b w') → (∀ e w', provider_raises e → E e w') → wp metrics_provider_installed Q E w.
Proof.
  intros HQ HE. unfold metrics_provider_installed. do 5 wp_step. apply wp_of_res.
  - intros p _. wp_step. by apply HQ.
  - intros e He. apply HE. eexists. by right.
Qed.
Lemma native_snapshot_known v : Forall (λ kv, kv.1 ∈ _GAUGES.*1) (native_snapshot v).
Proof.
  apply Forall_fmap. unfold compose. cbn [fst].
  apply (bool_decide_eq_true_1 (Forall (λ k, k ∈ _GAUGES.*1) _)). vm_compute. reflexivity.
Qed.

(** Watching for slow callbacks goes with having seen a provider. *)
Definition armed_for (w w' : tel) : Prop :=
  if te_monitoring w then te_monitoring w' = true ∧ te_slow w' = te_slow w
  else if te_monitoring w' then te_slow w' = true else te_slow w' = te_slow w.
Definition sampled (v : string → Z) (w w' : tel) : Prop :=
  te_out w' = te_out w ++ (if te_metrics w' then map (λ '(k, x), HSet (Gauge k) x) (native_snapshot v) else []) ∧
  (te_metrics w = true → te_metrics w' = true) ∧ armed_for w w'.

(** What the native sampler hands over is published as it is, every counter under its own
    name and in order, exactly when a meter provider is there by then; a provider, once seen,
    stays seen, and the loop watches for slow callbacks as soon as it sees one.  The only
    exceptions are the telemetry API's own: every counter has its description. *)
Theorem sample_publishes v w :
  wp (_on_sample (native_snapshot v))
    (λ _, sampled v w) (λ e _, from_outside e ∨ provider_raises e) w.
Proof.
  unfold _on_sample. do 3 wp_step.
  set (Q1 := λ w1 : tel, te_out w1 = te_out w ∧ te_metrics w1 = te_metrics w ∧ armed_for w w1).
  assert (H2 : ∀ w1, Q1 w1 → wp (m <- gets te_metrics ;;
    when_ (negb m) (i <- metrics_provider_installed ;; modify (tel_metrics i)) ;;
    m' <- gets te_metrics ;; when_ m' (publish_metrics (native_snapshot v)))
    (λ _, sampled v w) (λ e _, from_outside e ∨ provider_raises e) w1).
  { intros w1 (A1 & A2 & A3). do 3 wp_step.
    assert (H3 : ∀ w2, te_out w2 = te_out w1 → (te_metrics w1 = true → te_metrics w2 = true) →
      te_monitoring w2 = te_monitoring w1 → te_slow w2 = te_slow w1 →
      wp (m' <- gets te_metrics ;; when_ m' (publish_metrics (native_snapshot v)))
      (λ _, sampled v w) (λ e _, from_outside e ∨ provider_raises e) w2).
    { intros w2 B1 B2 B3 B4. do 2 wp_step. apply wp_when; intros Hm.
      - eapply wp_mono; [apply wp_publish, native_snapshot_known| |by left].
        intros u w3 (C1 & C2 & C3 & C4). unfold sampled, armed_for in *. rewrite C1, C2, C3, C4, Hm, B1, B3, B4, A1. done.
      - unfold sampled, armed_for in *. rewrite Hm, app_nil_r, B3, B4. split; [congruence|split; [rewrite <-A2, <-Hm; done|done]]. }
    apply wp_when; intros Hm; [|by apply H3]. wp_step. apply wp_metrics; [|by right].
    intros b w2 (B1 & B2 & B3 & B4). wp_step. apply H3; [done| |done..].
    intros Ht. by rewrite Ht in Hm. }
  apply wp_when; intros Hm.
  - wp_step. unfold instrumentation_provider_installed. wp_step.
    assert (H4 : ∀ i w1, same_out w w1 → wp (when_ i (modify tel_monitoring ;; modify tel_slow)) (λ _, Q1) (λ _ _, False) w1).
    { intros i w1 (B1 & B2 & B3 & B4). apply negb_true_iff in Hm. apply wp_when; intros Hi.
      - do 3 wp_step. unfold Q1, armed_for. by rewrite Hm.
      - unfold Q1, armed_for. rewrite Hm. split; [done|split; [done|]]. by rewrite B3, Hm. }
    apply wp_tracing; [|by right]. intros b w1 H1. destruct b; [wp_step|apply wp_metrics; [|by right]; intros b w2 H5].
    + eapply wp_mono; [by apply H4| |done]. intros u w2. apply H2.
    + eapply wp_mono; [apply H4; by eapply same_out_trans| |done]. intros u w3. apply H2.
  - apply H2. apply negb_false_iff in Hm. unfold Q1, armed_for. by rewrite Hm.
Qed.
End out.
