(* ===== verification/Subprocess.v ===== *)
(** * Subprocess transports (zuvloop/_connect.py, zuvloop/_process.py)

    [subprocess_shell] and [subprocess_exec], the setup of their transport, and the signals
    sent through it.  The first part follows one transport, with asyncio's base class as far
    as the sources rely on it; the second sets the signals of the loop's thread among the
    reaper thread and the system's reuse of process numbers. *)
From S2P Require Import Prelude World Checks Process.

(** ** One transport *)

(** The wrapper around the child, [Popen]: whether the standard library spawned it, and its
    [returncode].  The transport: its process, its own return code, whether it is closed. *)
Record child := Child { ch_stdlib : bool; ch_code : option Z }.
Inductive sevent :=
  | SSpawn (argv : list ptext) (verbatim : bool)
  | SSignal (stdlib : bool) (sig : Z)
  | SExited (rc : Z)                    (* [_process_exited] *)
  | SClosed | SWaited.
Record sub := Sub {
  su_tick : nat; su_proc : option child; su_code : option Z; su_closed : bool; su_log : list sevent }.
Definition sub0 : sub := Sub 0 None None false [].
Definition su_ticked s := Sub (S (su_tick s)) (su_proc s) (su_code s) (su_closed s) (su_log s).
Definition set_proc p s := Sub (su_tick s) p (su_code s) (su_closed s) (su_log s).
Definition set_code c s := Sub (su_tick s) (su_proc s) c (su_closed s) (su_log s).
Definition set_closed s := Sub (su_tick s) (su_proc s) (su_code s) true (su_log s).
Definition add_log e s := Sub (su_tick s) (su_proc s) (su_code s) (su_closed s) (su_log s ++ [e]).

(** What the system, the other callbacks of the loop and the setup of the pipes do. *)
Class SubEnv := {
  sub_platform : platform;
  fsdecode : string → string;
  comspec : string;
  sub_fstat : Z → option exn;
  spawn_fails : nat → option exn;
  send_fails : nat → option exn;
  sub_intf : nat → sub → sub;
  setup_fails : nat → option exn }.

Section transport.
Context `{SE : SubEnv}.

Definition su_tick_ : M sub nat := t <- gets su_tick ;; modify su_ticked ;; ret t.
Definition suspend : M sub nat := t <- gets su_tick ;; modify (λ s, sub_intf t (su_ticked s)) ;; ret t.
Definition slog (e : sevent) : M sub unit := modify (add_log e).

(** [Popen.exited], with the transport's [_process_exited]. *)
Definition exited (rc : Z) : M sub unit :=
  modify (λ s, set_proc (option_map (λ c, Child (ch_stdlib c) (Some rc)) (su_proc s)) s) ;;
  c <- gets su_code ;;
  match c with
  | Some _ => raise (mk AssertionError "")
  | None => modify (set_code (Some rc)) ;; slog (SExited rc)
  end.
Definition poll (c : child) : option Z := ch_code c.

Definition _SIGKILL : Z := 9.
Definition SIGTERM : Z := 15.
(** [Popen.send_signal]: through the standard library's process or the native handle. *)
Definition popen_send_signal (c : child) (signum : Z) : M sub unit :=
  t <- su_tick_ ;;
  match send_fails t with Some e => raise e | None => slog (SSignal (ch_stdlib c) signum) end.
Definition popen_kill (c : child) : M sub unit := popen_send_signal c _SIGKILL.

Definition send_signal (signal_number : Z) : M sub unit :=
  rc <- gets su_code ;;
  match rc with
  | Some _ => ret tt
  | None =>
      p <- gets su_proc ;;
      match p with
      | None => raise (mk ProcessLookupError "")                      (* [_check_proc] *)
      | Some c => catch_cls (popen_send_signal c signal_number) ProcessLookupError (λ _, ret tt)
      end
  end.
Definition terminate : M sub unit := send_signal SIGTERM.
Definition kill : M sub unit := send_signal _SIGKILL.

(** asyncio's [close]: the pipes, and a child that still runs is killed. *)
Definition base_close : M sub unit :=
  closed <- gets su_closed ;;
  if (closed : bool) then ret tt else
  modify set_closed ;; slog SClosed ;;
  p <- gets su_proc ;; rc <- gets su_code ;;
  match p, rc with
  | Some c, None =>
      match poll c with
      | None => catch_cls (popen_kill c) ProcessLookupError (λ _, ret tt)
      | Some _ => ret tt
      end
  | _, _ => ret tt
  end.
(** asyncio's [_wait]. *)
Definition wait_exit : M sub unit := suspend ;; slog SWaited.

(** ** Starting the child *)
Definition fsdecode_text (t : ptext) : ptext :=
  match t with PStr s => PStr s | PBytes s => PStr (fsdecode s) end.
Definition text_of (t : ptext) : string := match t with PStr s | PBytes s => s end.
Definition _SHELL : list ptext :=
  if is_win32 sub_platform then [PStr comspec; PStr "/c"] else [PStr "/bin/sh"; PStr "-c"].
Definition quoted (s : string) : string := (String "034" (s ++ String "034" ""))%string.

(** A shell command, or a program with its arguments. *)
Inductive command := CShell (cmd : ptext) | CExec (argv : list ptext).
Definition argv_of (c : command) : list ptext * bool :=
  match c with
  | CShell cmd =>
      if is_win32 sub_platform then (_SHELL ++ [PStr (quoted (text_of (fsdecode_text cmd)))], true)
      else (_SHELL ++ [cmd], false)
  | CExec argv => (map fsdecode_text argv, false)
  end.
Definition with_args (argv : list ptext) (p : popen_args) : popen_args :=
  PopenArgs argv (p_executable p) (p_env p) (p_cwd p) (p_startupinfo p) (p_creationflags p) (p_pass_fds p) (p_unsupported p).

(** [_start] on a loop of this kind: [kwargs] are what [Popen] takes besides. *)
Definition _start (c : command) (kwargs : popen_args) : M sub unit :=
  let '(argv, verbatim) := argv_of c in
  let p := with_args argv kwargs in
  _ <- of_res (popen_check sub_fstat p) ;;
  t <- su_tick_ ;;
  match spawn_fails t with
  | Some e => raise e
  | None =>
      slog (SSpawn argv verbatim) ;;
      modify (set_proc (Some (Child (uses_stdlib sub_platform p) None)))
  end.
(** asyncio's [__init__]: a failing start closes the transport. *)
Definition new_transport (c : command) (kwargs : popen_args) : M sub unit :=
  catch (_start c kwargs) (λ e, base_close ;; raise e).

Definition _make_subprocess_transport (is_protocol : bool) (c : command) (kwargs : popen_args) : M sub unit :=
  if negb is_protocol then raise (mk TypeError "protocol_factory must return a subprocess protocol") else
  new_transport c kwargs ;;
  catch
    (t <- suspend ;; match setup_fails t with Some e => raise e | None => ret tt end)
    (λ e,
      if isinstance e SystemExit || isinstance e KeyboardInterrupt then raise e
      else base_close ;; wait_exit ;; raise e).

(** ** The entry points *)

(** An argument: text, or a value of another type. *)
Inductive sarg := AText (t : ptext) | AOther (type_name : string).
Definition to_text (a : sarg) : option ptext := match a with AText t => Some t | AOther _ => None end.

(** The options that only the other APIs know, and what [protocol_factory()] gives. *)
Record text_options := TextOptions {
  o_universal_newlines : bool; o_shell : bool; o_bufsize : Z; o_encoding : option string; o_errors : option string;
  o_text : option bool }.
Definition check_options (o : text_options) (expect_shell : bool) : res unit :=
  _check_subprocess_text (o_universal_newlines o) (o_shell o) (o_bufsize o) (o_encoding o) (o_errors o) (o_text o) expect_shell.

Definition subprocess_shell (cmd : sarg) (o : text_options) (protocol : res bool) (kwargs : popen_args) : M sub unit :=
  match cmd with
  | AOther _ => raise (mk ValueError "cmd must be a string")
  | AText cmd =>
      of_res (check_options o true) ;; p <- of_res protocol ;;
      _make_subprocess_transport p (CShell cmd) kwargs
  end.
Fixpoint texts (l : list sarg) : res (list ptext) :=
  match l with
  | [] => Ok []
  | AText t :: l' => match texts l' with Ok ts => Ok (t :: ts) | Raise e => Raise e end
  | AOther n :: _ => Raise (mk TypeError ("program arguments must be a bytes or text string, not " ++ n))
  end.
Definition subprocess_exec (program : sarg) (args : list sarg) (o : text_options) (protocol : res bool)
    (kwargs : popen_args) : M sub unit :=
  of_res (check_options o false) ;;
  argv <- of_res (texts (program :: args)) ;; p <- of_res protocol ;;
  _make_subprocess_transport p (CExec argv) kwargs.
End transport.

(** ** Setup *)

(** What happens elsewhere keeps the log and a known exit known; nobody else has the
    transport to close it before its setup is over. *)
Record later (s s' : sub) : Prop := {
  lt_log : su_log s `prefix_of` su_log s';
  lt_closed : su_closed s' = su_closed s;
  lt_code : is_Some (su_code s) → is_Some (su_code s');
  lt_proc : ∀ c, su_proc s = Some c → ∃ c', su_proc s' = Some c' ∧ ch_stdlib c' = ch_stdlib c ∧
    (is_Some (ch_code c) → is_Some (ch_code c')) }.
#[export] Instance later_preorder : PreOrder later.
Proof.
  split; [split; eauto|]. intros s1 s2 s3 H H'. split.
  - etrans; [apply H|apply H'].
  - by rewrite (lt_closed _ _ H'), (lt_closed _ _ H).
  - intros Hc. by apply H', H.
  - intros c Hc. destruct (lt_proc _ _ H c Hc) as (c2 & H2 & E2 & F2).
    destruct (lt_proc _ _ H' c2 H2) as (c3 & H3 & E3 & F3). exists c3. split; [done|split; [congruence|auto]].
Qed.

Section setup.
Context `{SE : SubEnv} (others : ∀ n s, later s (sub_intf n s)).

Lemma wp_suspend (Q : nat → sub → Prop) E s : (∀ t s', later s s' → Q t s') → wp suspend Q E s.
Proof.
  intros HQ. unfold suspend. do 5 wp_step. apply HQ. etrans; [|apply others].
  split; cbn; eauto.
Qed.

(** The child has ended or was told to. *)
Definition ended (s : sub) : Prop :=
  is_Some (su_code s) ∨ (∃ c, su_proc s = Some c ∧ is_Some (ch_code c)) ∨ (∃ b, SSignal b _SIGKILL ∈ su_log s) ∨
  ∃ t e, send_fails t = Some e ∧ isinstance e ProcessLookupError = true.
Lemma prefix_in {A} (l l' : list A) x : l `prefix_of` l' → x ∈ l → x ∈ l'.
Proof. intros [k ->]. set_solver. Qed.
Lemma ended_later s s' : later s s' → ended s → ended s'.
Proof.
  intros H [Hc|[(c & Hc & He)|[(b & Hb)|Hf]]].
  - left. by apply H.
  - right; left. destruct (lt_proc _ _ H c Hc) as (c' & ? & _ & Hc'). exists c'. auto.
  - right; right; left. exists b. by eapply prefix_in; [apply H|].
  - by right; right; right.
Qed.
Lemma wp_close_transport s c (Q : unit → sub → Prop) (E : exn → sub → Prop) :
  su_proc s = Some c → su_closed s = false →
  (∀ s', su_closed s' = true → ended s' → su_log s `prefix_of` su_log s' → Q tt s') →
  (∀ t e s', send_fails t = Some e → su_closed s' = true → su_log s `prefix_of` su_log s' → E e s') →
  wp base_close Q E s.
Proof.
  intros Hp Hc HQ HE. unfold base_close, slog. do 2 wp_step. rewrite Hc. do 8 wp_step.
  cbn [su_proc su_code add_log set_closed]. rewrite Hp.
  assert (Hlog : ∀ l, su_log s `prefix_of` (su_log s ++ [SClosed]) ++ l) by (intros l; rewrite <-app_assoc; by eexists).
  destruct (su_code s) as [rc|] eqn:Hrc.
  { wp_step. apply HQ; [done|left; by eexists|by eexists]. }
  unfold poll. destruct (ch_code c) as [rc|] eqn:Hcc.
  { wp_step. apply HQ; [done|right; left; exists c; rewrite Hcc; split; [done|by eexists]|by eexists]. }
  wp_step. unfold popen_kill, popen_send_signal, su_tick_, slog. do 6 wp_step.
  destruct (send_fails _) eqn:Hf; wp_step.
  - split; intros Hl; [wp_step; apply HQ; [done|right; right; right; by eexists _, _|by eexists]|eapply HE; [done|done|by eexists]].
  - apply HQ; [done|right; right; left; exists (ch_stdlib c); cbn; set_solver|apply Hlog].
Qed.

(** How a failed setup ends. *)
Definition spawned (c : command) (s : sub) : Prop := SSpawn (argv_of c).1 (argv_of c).2 ∈ su_log s.
Definition unwound (e : exn) (s : sub) : Prop :=
  isinstance e SystemExit || isinstance e KeyboardInterrupt = true ∨
  su_closed s = true ∧ ((ended s ∧ last (su_log s) = Some SWaited) ∨ ∃ t, send_fails t = Some e).

Lemma wp_make_transport is_protocol c kwargs :
  wp (_make_subprocess_transport is_protocol c kwargs)
    (λ _ s, spawned c s ∧ Forall plain (argv_of c).1)
    (λ e s, (∀ argv v, SSpawn argv v ∉ su_log s) ∨ spawned c s ∧ Forall plain (argv_of c).1 ∧ unwound e s) sub0.
Proof.
  unfold _make_subprocess_transport. destruct is_protocol; cbn [negb]; [|wp_step; left; by intros ? ? ?%elem_of_nil].
  unfold new_transport, _start, spawned. destruct (argv_of c) as [argv verbatim]. cbn [fst snd].
  assert (Hno : ∀ e s, su_proc s = None → su_log s = [] →
    wp (base_close ;; raise (A:=unit) e) (λ _ _, False) (λ _ s, ∀ argv v, SSpawn argv v ∉ su_log s) s).
  { intros e s Hp Hl. unfold base_close, slog. do 3 wp_step. destruct (su_closed s); [do 2 wp_step; rewrite Hl; set_solver|].
    do 7 wp_step. cbn. rewrite Hp. wp_step. wp_step. cbn. rewrite Hl. set_solver. }
  assert (Hfail : ∀ e s, su_proc s = None → su_log s = [] →
    wp (base_close ;; raise (A:=unit) e)
      (λ a s, wp ((λ _ : unit, catch (t <- suspend ;; match setup_fails t with Some e => raise e | None => ret tt end)
        (λ e, if isinstance e SystemExit || isinstance e KeyboardInterrupt then raise e
              else base_close ;; wait_exit ;; raise e)) a)
        (λ _ s, SSpawn argv verbatim ∈ su_log s ∧ Forall plain argv)
        (λ e s, (∀ argv v, SSpawn argv v ∉ su_log s) ∨ SSpawn argv verbatim ∈ su_log s ∧ Forall plain argv ∧ unwound e s) s)
      (λ e s, (∀ argv v, SSpawn argv v ∉ su_log s) ∨ SSpawn argv verbatim ∈ su_log s ∧ Forall plain argv ∧ unwound e s) s).
  { intros e s Hp Hl. eapply wp_mono; [by apply Hno|done|by left]. }
  do 2 wp_step. wp_step. apply wp_of_res; [|by intros e _; apply Hfail].
  intros file Hchk. apply popen_accepts in Hchk as (_ & _ & _ & _ & Hplain & _).
  assert (Hargv : Forall plain argv).
  { unfold popen_texts in Hplain. apply Forall_cons in Hplain as [_ Hplain]. by apply Forall_app in Hplain as [? _]. }
  wp_step. unfold su_tick_. do 5 wp_step. destruct (spawn_fails _); [wp_step; by apply Hfail|]. unfold slog. do 3 wp_step.
  set (s1 := set_proc _ _). set (ch := Child _ _) in s1.
  assert (Hp : su_proc s1 = Some ch ∧ su_closed s1 = false ∧ SSpawn argv verbatim ∈ su_log s1) by (repeat split; cbn; set_solver).
  clearbody s1 ch. destruct Hp as (Hp & Hc & Hl). do 2 wp_step. apply wp_suspend. intros t s2 H2.
  assert (Hl2 : SSpawn argv verbatim ∈ su_log s2) by (eapply prefix_in; [apply H2|done]).
  destruct (setup_fails t) as [e|]; wp_step; [|done].
  destruct (isinstance e SystemExit || isinstance e KeyboardInterrupt) eqn:Hf; wp_step; [right; split; [done|split; [done|by left]]|].
  destruct (lt_proc _ _ H2 _ Hp) as (c2 & Hc2 & _). eapply wp_close_transport; [done|by rewrite (lt_closed _ _ H2)|..].
  - intros s3 Hc3 He3 Hl3. wp_step. unfold wait_exit, slog. wp_step. apply wp_suspend. intros t' s4 H4. do 2 wp_step.
    right. split; [cbn; apply elem_of_app; left; eapply prefix_in; [apply H4|]; by eapply prefix_in|split; [done|]]. right. cbn.
    split; [by rewrite (lt_closed _ _ H4)|]. left. split; [|by rewrite last_snoc].
    apply (ended_later s3); [|done]. etrans; [exact H4|]. split; cbn; eauto. by eexists.
  - intros t' e' s3 He' Hc3 Hl3. right. split; [by eapply prefix_in|split; [done|]]. right. split; [done|]. right. by exists t'.
Qed.



(** On POSIX a command given to [subprocess_shell] runs as the one argument of [/bin/sh -c];
    a command given as [bytes] passes the type check but never spawns anything. *)
Theorem shell_spawns cmd o protocol kwargs :
  is_win32 sub_platform = false →
  wp (subprocess_shell cmd o protocol kwargs)
    (λ _ s, ∃ t, cmd = AText (PStr t) ∧ has_nul t = false ∧
       SSpawn [PStr "/bin/sh"; PStr "-c"; PStr t] false ∈ su_log s)
    (λ _ s, ∀ t, cmd = AText (PBytes t) → ∀ argv v, SSpawn argv v ∉ su_log s) sub0.
Proof.
  intros Hwin. unfold subprocess_shell. destruct cmd as [cmd|n]; [|by wp_step].
  assert (H0 : ∀ t argv v, AText cmd = AText (PBytes t) → SSpawn argv v ∉ su_log sub0) by set_solver.
  wp_step. apply wp_of_res; [intros _ _|intros e _ t Ht argv v; by apply (H0 t)].
  wp_step. apply wp_of_res; [intros p _|intros e _ t Ht argv v; by apply (H0 t)].
  assert (Hargv : argv_of (CShell cmd) = ([PStr "/bin/sh"; PStr "-c"; cmd], false)) by (unfold argv_of, _SHELL; by rewrite Hwin).
  destruct cmd as [t|t].
  - eapply wp_mono; [apply wp_make_transport| |by intros e s _ t' [=]]. unfold spawned. rewrite Hargv. cbn [fst snd].
    intros u s [Hs Hp]. exists t. split; [done|split; [|done]].
    apply Forall_lookup_1 with (i := 2%nat) (x := PStr t) in Hp; [|done]. destruct Hp as (t' & [= <-] & ?). done.
  - assert (Hno : ¬ Forall plain [PStr "/bin/sh"; PStr "-c"; PBytes t]).
    { intros H. apply Forall_lookup_1 with (i := 2%nat) (x := PBytes t) in H; [|done]. by destruct H as (t' & ? & _). }
    eapply wp_mono; [apply wp_make_transport| |]; rewrite Hargv; cbn [fst snd].
    + by intros u s [_ Hp].
    + intros e s [Hs|(_ & Hp & _)]; [by intros t' _|done].
Qed.
End setup.

(** ** Signals and the reaper

    Our children by their process numbers, the processes - ours and others' - that hold a
    number, those that have ended, the return codes the standard library has seen; the
    signal being sent by the loop's thread, and whether its [poll] has found the child
    running; the signals that reached a process. *)
Module Race.
Record race := R {
  holders : gmap nat nat; number : gmap nat nat; gone : gmap nat Z; codes : gmap nat Z;
  sending : option (nat * Z * bool); sent : list (nat * Z * nat) }.
Definition race0 : race := R ∅ ∅ ∅ ∅ None [].

(** [subprocess.Popen.poll]: the first to find the child ended waits for it, which frees its
    number. *)
Definition poll_child (p : nat) (s : race) : race :=
  match codes s !! p, gone s !! p, number s !! p with
  | None, Some rc, Some i => R (delete i (holders s)) (number s) (gone s) (<[p := rc]> (codes s)) (sending s) (sent s)
  | _, _, _ => s
  end.
Definition with_sending x s := R (holders s) (number s) (gone s) (codes s) x (sent s).
(** One step of [Popen.send_signal]: it polls, and if that says the child runs, signals its
    number; a number that nobody holds is a [ProcessLookupError], which is ignored. *)
Definition send_step (s : race) : race :=
  match sending s with
  | Some (p, sig, false) =>
      let s' := poll_child p s in
      with_sending (match codes s' !! p with Some _ => None | None => Some (p, sig, true) end) s'
  | Some (p, sig, true) =>
      let hit := match number s !! p with Some i => holders s !! i | None => None end in
      with_sending None
        (R (holders s) (number s) (gone s) (codes s) (sending s)
           (sent s ++ match hit with Some q => [(p, sig, q)] | None => [] end))
  | None => s
  end.
(** Between the [poll] and the signal. *)
Definition polled (s : race) (p : nat) : Prop := ∃ sig, sending s = Some (p, sig, true).

(** [racy] lets the reaper thread poll a child between the two halves of sending it a signal,
    as nothing prevents. *)
Inductive step (racy : bool) : race → race → Prop :=
  | step_spawn s i p :
      holders s !! i = None → number s !! p = None → gone s !! p = None → codes s !! p = None →
      (∀ j, holders s !! j ≠ Some p) →
      step racy s (R (<[i := p]> (holders s)) (<[p := i]> (number s)) (gone s) (codes s) (sending s) (sent s))
  | step_foreign s i q :
      holders s !! i = None → number s !! q = None →
      step racy s (R (<[i := q]> (holders s)) (number s) (gone s) (codes s) (sending s) (sent s))
  | step_foreign_end s i q :
      holders s !! i = Some q → number s !! q = None →
      step racy s (R (delete i (holders s)) (number s) (gone s) (codes s) (sending s) (sent s))
  | step_exit s p rc :
      is_Some (number s !! p) → gone s !! p = None →
      step racy s (R (holders s) (number s) (<[p := rc]> (gone s)) (codes s) (sending s) (sent s))
  | step_reaper s p : (racy = true ∨ ¬ polled s p) → step racy s (poll_child p s)
  | step_begin s p sig :
      sending s = None → is_Some (number s !! p) → step racy s (with_sending (Some (p, sig, false)) s)
  | step_send s : step racy s (send_step s).
Definition reachable (racy : bool) : race → Prop := rtc (step racy) race0.

(** A child whose code nobody has seen still holds its number. *)
Definition holding (s : race) : Prop :=
  ∀ p i, number s !! p = Some i → codes s !! p = None → holders s !! i = Some p.
Record inv (s : race) : Prop := {
  i_holding : holding s;
  i_polled : ∀ p, polled s p → codes s !! p = None;
  i_sent : ∀ p sig q, (p, sig, q) ∈ sent s → q = p }.

Lemma poll_holding p s : holding s → holding (poll_child p s).
Proof.
  intros H. unfold poll_child. destruct (codes s !! p) eqn:Hc, (gone s !! p), (number s !! p) as [i|] eqn:Hn; try done.
  intros q j Hq. cbn in *. destruct (decide (p = q)) as [<-|Hne]; [by rewrite lookup_insert_eq|].
  rewrite lookup_insert_ne by done. intros Hcq. pose proof (H p i Hn Hc). pose proof (H q j Hq Hcq).
  rewrite lookup_delete_ne; [done|congruence].
Qed.
Lemma poll_sending p s : sending (poll_child p s) = sending s ∧ sent (poll_child p s) = sent s ∧ number (poll_child p s) = number s.
Proof. unfold poll_child. by destruct (codes s !! p), (gone s !! p), (number s !! p). Qed.
Lemma poll_codes p q s : p ≠ q → codes (poll_child p s) !! q = codes s !! q.
Proof.
  intros Hne. unfold poll_child. destruct (codes s !! p), (gone s !! p), (number s !! p); try done.
  cbn. by rewrite lookup_insert_ne.
Qed.

Lemma inv_send s : inv s → inv (send_step s).
Proof.
  intros [H1 H2 H3]. unfold send_step. destruct (sending s) as [[[p sig] [|]]|] eqn:Hs; [..|by split].
  - assert (Hc : codes s !! p = None) by (apply H2; by exists sig). split; [done|by intros q [? ?]|].
    cbn. intros q sg r [?|Hin]%elem_of_app; [by eapply H3|]. destruct (number s !! p) as [i|] eqn:Hn; [|set_solver].
    rewrite (H1 p i Hn Hc) in Hin. apply list_elem_of_singleton in Hin. congruence.
  - destruct (poll_sending p s) as (E1 & E2 & E3). split; [by apply poll_holding| |cbn; rewrite E2; apply H3].
    intros q [sg Hq]. cbn in *. destruct (codes (poll_child p s) !! p) eqn:Hc; [done|]. congruence.
Qed.
Lemma inv_step s s' : step false s s' → inv s → inv s'.
Proof.
  intros Hst H. destruct Hst as [s i p Hi Hn Hg Hc Hnone|s i q Hi Hn|s i q Hi Hn|s p rc Hn Hg|s p Hr|s p sig Hs Hn|s];
    [..|by apply inv_send]; destruct H as [H1 H2 H3].
  - split; [|done|done]. intros q j. cbn. destruct (decide (p = q)) as [<-|Hne].
    + rewrite lookup_insert_eq. intros [= <-] _. apply lookup_insert_eq.
    + rewrite lookup_insert_ne by done. intros Hq Hcq. pose proof (H1 q j Hq Hcq).
      rewrite lookup_insert_ne; [done|congruence].
  - split; [|done|done]. intros p j Hp Hcp. cbn in *. pose proof (H1 p j Hp Hcp).
    rewrite lookup_insert_ne; [done|congruence].
  - split; [|done|done]. intros p j Hp Hcp. cbn in *. pose proof (H1 p j Hp Hcp).
    rewrite lookup_delete_ne; [done|congruence].
  - by split.
  - destruct Hr as [?|Hr]; [done|]. destruct (poll_sending p s) as (E1 & E2 & E3). split.
    + by apply poll_holding.
    + intros q Hq. assert (Hq' : polled s q) by (destruct Hq as [sg Hq]; exists sg; congruence).
      rewrite poll_codes; [by apply H2|]. by intros <-.
    + rewrite E2. apply H3.
  - split; [done|by intros q [sg ?]|done].
Qed.

(** C31: A signal sent to a child reaches that child or nobody, however numbers are reused, as
    long as the reaper does not poll it between [send_signal]'s own poll and the signal. *)
Theorem signals_own_child s p sig q :
  reachable false s → (p, sig, q) ∈ sent s → q = p.
Proof.
  intros Hr. assert (H : inv s).
  { unfold reachable in Hr. assert (H0 : inv race0) by (split; [done|by intros ? [? ?]|by intros ? ? ? ?%elem_of_nil]).
    revert H0. induction Hr as [|s1 s2 s3 H12 _ IH]; [done|]. intros H1. by eapply IH, inv_step. }
  apply H.
Qed.
Lemma signals_own_child_witness : ∃ s, reachable false s ∧ sent s = [(7%nat, 15, 7%nat)] ∧ 7%nat = 7%nat.
Proof.
  exists (R {[5%nat := 7%nat]} {[7%nat := 5%nat]} ∅ ∅ None [(7%nat, 15, 7%nat)]).
  assert (Hr : reachable false (R {[5%nat := 7%nat]} {[7%nat := 5%nat]} ∅ ∅ None [(7%nat, 15, 7%nat)])).
  { unfold reachable.
    eapply rtc_l; [apply (step_spawn false race0 5 7); try reflexivity; intros j H; discriminate H|].
    eapply rtc_l; [apply (step_begin false _ 7 15); [reflexivity|eexists; reflexivity]|].
    eapply rtc_l; [apply step_send|].
    eapply rtc_l; [apply step_send|]. apply rtc_refl. }
  split; [exact Hr|split; [reflexivity|]]. apply (signals_own_child _ 7 15 7 Hr). apply list_elem_of_singleton. reflexivity.
Defined.
(** If it does, the signal can reach another process that got the number in between. *)
Theorem signal_can_hit_another :
  ∃ s p sig q, reachable true s ∧ (p, sig, q) ∈ sent s ∧ q ≠ p.
Proof.
  exists (send_step (R {[5%nat := 8%nat]} {[7%nat := 5%nat]} {[7%nat := 0]} {[7%nat := 0]} (Some (7%nat, 15, true)) [])), 7%nat, 15, 8%nat.
  split; [|by split; [left|]]. unfold reachable.
  eapply rtc_l; [by apply (step_spawn true race0 5 7)|].
  eapply rtc_l; [by apply (step_begin true _ 7 15); [|eexists]|].
  eapply rtc_l; [apply step_send|].
  eapply rtc_l; [by apply (step_exit true _ 7 0); [eexists|]|].
  eapply rtc_l; [apply (step_reaper true _ 7); by left|].
  eapply rtc_l; [by apply (step_foreign true _ 5 8)|].
  eapply rtc_l; [apply step_send|]. apply rtc_refl.
Qed.
End Race.

(** ** Concrete runs *)
Section examples.
Definition sub_env (failing : option exn) : SubEnv := {|
  sub_platform := Linux; fsdecode := λ s, s; comspec := "cmd.exe"; sub_fstat := λ _, None;
  spawn_fails := λ _, None; send_fails := λ _, None; sub_intf := λ _ s, s; setup_fails := λ _, failing |}.
Definition no_kwargs : popen_args := PopenArgs [] None None None false 0 [] [].
Definition no_options : text_options := TextOptions false true 0 None None None.

Lemma shell_spawns_witness :
  wp (subprocess_shell (SE := sub_env None) (AText (PStr "ls")) no_options (Ok true) no_kwargs)
    (λ _ s, ∃ t, AText (PStr "ls") = AText (PStr t) ∧ has_nul t = false ∧
       SSpawn [PStr "/bin/sh"; PStr "-c"; PStr t] false ∈ su_log s)
    (λ _ s, ∀ t, AText (PStr "ls") = AText (PBytes t) → ∀ argv v, SSpawn argv v ∉ su_log s) sub0 ∧
  (subprocess_shell (SE := sub_env None) (AText (PBytes "ls")) no_options (Ok true) no_kwargs sub0).1
    = Raise (mk TypeError "a bytes-like object is required, not 'str'").
Proof.
  split; [|vm_compute; reflexivity].
  apply (shell_spawns (SE := sub_env None)); [intros n s; apply later_preorder|reflexivity].
Defined.
End examples.
