(* ===== verification/Queue.v ===== *)
(** * The ready queue (zig/collections.zig, [Ready])

    The ring buffer behind a loop's callbacks: a power-of-two array indexed modulo its length,
    grown by doubling.  An allocation may fail, which the operation's argument [ok] says.
    Proved: whatever is pushed, popped and reserved, the ring is a first-in first-out queue. *)
From S2P Require Import Prelude.

Module Ready.

(** [items], [head] and [len]; a slot nothing was written to is [None]. *)
Record ready (A : Type) := Ready { items : list (option A); head : nat; len : nat }.
Arguments Ready {A} _ _ _.
Arguments items {A} _.
Arguments head {A} _.
Arguments len {A} _.

Section ring.
Context {A : Type}.
Implicit Types (r : ready A) (q : list A).

Definition empty : ready A := Ready [] 0 0.
Definition mask r (i : nat) : nat := Nat.land i (length (items r) - 1).
Definition slot r (i : nat) : option A := mjoin (items r !! mask r (head r + i)).

Definition grow (new_cap : nat) r : ready A :=
  let new_items := map (slot r) (seq 0 (len r)) ++ replicate (new_cap - len r) None in
  Ready new_items 0 (len r).

(** [while (new_cap < needed) new_cap *= 2]. *)
Fixpoint double_until (fuel new_cap needed : nat) : nat :=
  match fuel with
  | S fuel' => if decide (new_cap < needed)%nat then double_until fuel' (new_cap * 2) needed else new_cap
  | O => new_cap
  end.

(** [None] is [error.OutOfMemory]. *)
Definition ensureUnusedCapacity (ok : bool) (additional : nat) r : option (ready A) :=
  if decide (additional ≤ length (items r) - len r)%nat then Some r else
  let new_cap := if decide (length (items r) = 0)%nat then 64%nat else length (items r) in
  let needed := (len r + additional)%nat in
  if ok then Some (grow (double_until needed new_cap needed) r) else None.

Definition pushAssumeCapacity (item : A) r : ready A :=
  Ready (<[mask r (head r + len r) := Some item]> (items r)) (head r) (S (len r)).
Definition push (ok : bool) (item : A) r : option (ready A) :=
  pushAssumeCapacity item <$> ensureUnusedCapacity ok 1 r.

Definition pop r : option (A * ready A) :=
  if decide (len r = 0)%nat then None else
  item ← mjoin (items r !! head r);
  Some (item, Ready (items r) (mask r (head r + 1)) (len r - 1)).

(** What is queued, oldest first. *)
Definition contents r : list A := omap (slot r) (seq 0 (len r)).

(** ** The ring's own well-formedness *)
Definition capacity_ok r : Prop := length (items r) = 0%nat ∨ ∃ k, length (items r) = (2 ^ k)%nat.
Record wf r : Prop := {
  wf_capacity : capacity_ok r;
  wf_head : (head r < length (items r))%nat ∨ head r = 0%nat;
  wf_len : (len r ≤ length (items r))%nat;
  wf_slots : ∀ i, (i < len r)%nat → is_Some (slot r i) }.

Lemma ring_wf : wf empty.
Proof. split; cbn; [by left|by right|lia|lia]. Qed.

Lemma land_pred_pow n k i : n = (2 ^ k)%nat → Nat.land i (n - 1) = (i mod n)%nat.
Proof. intros ->. rewrite Nat.sub_1_r, <-Nat.ones_equiv. apply Nat.land_ones. Qed.
Lemma mask_mod r i : wf r → (0 < length (items r))%nat → mask r i = (i mod length (items r))%nat.
Proof.
  intros [[H|[k Hk]] _ _ _] Hl; [lia|]. by apply (land_pred_pow _ k).
Qed.
Lemma mask_lt r i : wf r → (0 < length (items r))%nat → (mask r i < length (items r))%nat.
Proof. intros Hw Hl. rewrite mask_mod by done. apply Nat.mod_upper_bound. lia. Qed.

(** Two offsets within the capacity that meet are the same. *)
Lemma mask_inj r i j : wf r → (i < length (items r))%nat → (j < length (items r))%nat →
  mask r (head r + i) = mask r (head r + j) → i = j.
Proof.
  intros Hw Hi Hj. rewrite !mask_mod by (done || lia). destruct (wf_head _ Hw) as [Hh|Hh]; [|rewrite Hh; cbn; rewrite !Nat.mod_small; lia].
  set (n := length (items r)) in *. intros H.
  assert (Hd1 := Nat.div_mod (head r + i) n ltac:(lia)). assert (Hd2 := Nat.div_mod (head r + j) n ltac:(lia)).
  rewrite H in Hd1.
  assert ((head r + i) / n < 2)%nat by (apply Nat.Div0.div_lt_upper_bound; lia).
  assert ((head r + j) / n < 2)%nat by (apply Nat.Div0.div_lt_upper_bound; lia).
  destruct ((head r + i) / n)%nat as [|[|]], ((head r + j) / n)%nat as [|[|]]; lia.
Qed.
Lemma mask_self r : wf r → mask r (head r) = head r.
Proof.
  intros Hw. destruct (wf_head _ Hw) as [H|H].
  - rewrite mask_mod by (done || lia). by apply Nat.mod_small.
  - rewrite H. unfold mask. apply Nat.land_0_l.
Qed.

(** ** The ring as a list *)
Lemma contents_slots r : wf r → Some <$> contents r = slot r <$> seq 0 (len r).
Proof.
  intros Hw. assert (Hall : Forall (λ i, is_Some (slot r i)) (seq 0 (len r))).
  { apply Forall_seq. intros i Hi. apply (wf_slots _ Hw). lia. }
  unfold contents. induction Hall as [|i l [x Hx] _ IH]; [done|]. cbn. rewrite Hx. cbn. by rewrite IH.
Qed.
Lemma contents_length r : wf r → length (contents r) = len r.
Proof. intros Hw. rewrite <-(length_fmap Some), contents_slots, length_fmap, length_seq by done. done. Qed.
Lemma contents_lookup r i : wf r → (i < len r)%nat → contents r !! i = slot r i.
Proof.
  intros Hw Hi. assert (H := f_equal (λ l, mjoin (l !! i)) (contents_slots r Hw)). cbn in H.
  rewrite !list_lookup_fmap, lookup_seq_lt in H by done. cbn in H.
  rewrite <-H. by destruct (contents r !! i).
Qed.
Lemma contents_intro r q : wf r → length q = len r → (∀ i, (i < len r)%nat → q !! i = slot r i) → contents r = q.
Proof.
  intros Hw Hl Hq. apply list_eq. intros i. destruct (decide (i < len r)%nat).
  - by rewrite contents_lookup, Hq.
  - by rewrite !lookup_ge_None_2 by (rewrite ?contents_length by done; lia).
Qed.
Lemma contents_empty : contents empty = [].
Proof. done. Qed.

(** ** Growing *)
Lemma double_until_spec fuel cap needed :
  (0 < cap)%nat → (needed ≤ cap + fuel)%nat →
  (needed ≤ double_until fuel cap needed)%nat ∧ ∃ k, double_until fuel cap needed = (cap * 2 ^ k)%nat.
Proof.
  revert cap. induction fuel as [|fuel IH]; intros cap Hc Hn; cbn [double_until].
  - split; [lia|]. exists 0%nat. cbn. lia.
  - case_decide; [|split; [lia|exists 0%nat; cbn; lia]].
    destruct (IH (cap * 2)%nat ltac:(lia) ltac:(lia)) as [H1 [k Hk]]. split; [done|].
    exists (S k). rewrite Hk. cbn [Nat.pow]. lia.
Qed.

Lemma grow_length r n : (len r ≤ n)%nat → length (items (grow n r)) = n.
Proof. intros H. cbn. rewrite length_app, length_map, length_seq, length_replicate. lia. Qed.
Lemma slot_grow r n k i : (len r ≤ n)%nat → n = (2 ^ k)%nat → (i < len r)%nat → slot (grow n r) i = slot r i.
Proof.
  intros Hn Hk Hi. unfold slot at 1, mask. rewrite grow_length by done.
  rewrite (land_pred_pow _ k) by done. cbn [head grow Nat.add].
  rewrite Nat.mod_small by lia. cbn [items grow]. rewrite lookup_app_l by (rewrite length_map, length_seq; lia).
  rewrite list_lookup_fmap, lookup_seq_lt by done. done.
Qed.
Lemma grow_wf r n k : wf r → (len r ≤ n)%nat → n = (2 ^ k)%nat → wf (grow n r).
Proof.
  intros Hw Hn Hk. split.
  - right. exists k. by rewrite grow_length.
  - by right.
  - rewrite grow_length; done.
  - intros i Hi. rewrite (slot_grow _ _ k) by done. by apply Hw.
Qed.

(** Reserving succeeds when the allocation does, and then there is room. *)
Lemma ensure_spec ok n r : wf r →
  match ensureUnusedCapacity ok n r with
  | Some r' => wf r' ∧ contents r' = contents r ∧ (len r' + n ≤ length (items r'))%nat
  | None => ok = false
  end.
Proof.
  intros Hw. unfold ensureUnusedCapacity. case_decide as Hc; [destruct (wf_len _ Hw); split_and!; lia || done|].
  destruct ok; [|done]. set (cap := if decide _ then 64%nat else _).
  assert (Hcap : (0 < cap)%nat ∧ ∃ k, cap = (2 ^ k)%nat).
  { unfold cap. case_decide as Hl; [split; [lia|by exists 6%nat]|]. split; [lia|].
    destruct (wf_capacity _ Hw) as [?|Hk]; [lia|done]. }
  destruct Hcap as [H0 [k Hk]].
  destruct (double_until_spec (len r + n) cap (len r + n)) as [H1 [j Hj]]; [done|lia|].
  set (m := double_until _ _ _) in *. rewrite Hk, <-Nat.pow_add_r in Hj.
  assert (Hg : wf (grow m r)) by (apply (grow_wf _ _ (k + j)); [done|lia|done]).
  split_and!; [done| |rewrite grow_length by lia; cbn; lia].
  apply contents_intro; [done|by rewrite contents_length|]. intros i Hi.
  rewrite (slot_grow _ _ (k + j)) by (lia || done). by apply contents_lookup.
Qed.

(** ** Pushing and popping *)
Lemma push_assume_spec x r : wf r → (len r < length (items r))%nat →
  wf (pushAssumeCapacity x r) ∧ contents (pushAssumeCapacity x r) = contents r ++ [x].
Proof.
  intros Hw Hl. set (r' := pushAssumeCapacity x r).
  assert (Hn : length (items r') = length (items r)) by (cbn; by rewrite length_insert).
  assert (Hm : ∀ i, mask r' i = mask r i) by (intros i; unfold mask; by rewrite Hn).
  assert (Hnew : slot r' (len r) = Some x).
  { unfold slot. rewrite Hm. cbn. by rewrite list_lookup_insert_eq by (apply mask_lt; lia || done). }
  assert (Hold : ∀ i, (i < len r)%nat → slot r' i = slot r i).
  { intros i Hi. unfold slot. rewrite Hm. cbn. rewrite list_lookup_insert_ne; [done|].
    intros H. apply mask_inj in H; [lia|done|lia|lia]. }
  assert (Hw' : wf r').
  { split; [unfold capacity_ok; rewrite Hn; apply Hw|rewrite Hn; apply Hw|rewrite Hn; cbn; lia|].
    cbn [len r' pushAssumeCapacity]. intros i Hi. destruct (decide (i = len r)) as [->|]; [by eexists|].
    rewrite Hold by lia. apply (wf_slots _ Hw). lia. }
  split; [done|]. apply contents_intro; [done|cbn; rewrite length_app, contents_length by done; cbn; lia|].
  cbn [len r' pushAssumeCapacity]. intros i Hi. destruct (decide (i = len r)) as [->|].
  - rewrite Hnew, lookup_app_r by (rewrite contents_length; done). by rewrite contents_length, Nat.sub_diag.
  - rewrite Hold by lia. rewrite lookup_app_l by (rewrite contents_length by done; lia). apply contents_lookup; [done|lia].
Qed.
Lemma ring_push ok x r : wf r →
  match push ok x r with Some r' => wf r' ∧ contents r' = contents r ++ [x] | None => ok = false end.
Proof.
  intros Hw. unfold push. assert (H := ensure_spec ok 1 r Hw). destruct (ensureUnusedCapacity ok 1 r) as [r'|]; [|done].
  destruct H as (Hw' & <- & Hl). cbn [fmap option_fmap option_map]. apply push_assume_spec; [done|lia].
Qed.
Lemma ring_pop r : wf r →
  match pop r with Some (x, r') => wf r' ∧ contents r = x :: contents r' | None => contents r = [] end.
Proof.
  intros Hw. unfold pop. case_decide as Hl.
  { apply nil_length_inv. by rewrite contents_length. }
  assert (Hlt : (0 < length (items r))%nat) by (destruct (wf_len _ Hw); lia).
  assert (H0 : mjoin (items r !! head r) = slot r 0) by (unfold slot; by rewrite Nat.add_0_r, mask_self).
  destruct (wf_slots _ Hw 0%nat) as [x Hx]; [lia|]. rewrite H0, Hx. cbn [mbind option_bind].
  set (r' := Ready _ _ _).
  assert (Hm : ∀ i, mask r' (head r' + i) = mask r (head r + S i)).
  { intros i. unfold r' at 1 2, mask at 1. cbn [items head]. change (mask r (mask r (head r + 1) + i) = mask r (head r + S i)).
    rewrite !mask_mod by done. rewrite Nat.Div0.add_mod_idemp_l. f_equal. lia. }
  assert (Hs : ∀ i, slot r' i = slot r (S i)) by (intros i; unfold slot; by rewrite Hm).
  assert (Hw' : wf r').
  { split; [apply Hw|left; cbn; by apply mask_lt|cbn; destruct (wf_len _ Hw); lia|].
    cbn [len r']. intros i Hi. rewrite Hs. apply (wf_slots _ Hw). lia. }
  split; [done|]. apply contents_intro; [done|cbn [length]; rewrite contents_length by done; cbn; lia|].
  intros [|i] Hi; [by rewrite Hx|]. cbn. rewrite <-Hs. apply contents_lookup; [done|cbn; lia].
Qed.

(** ** The contract: a first-in first-out queue *)
Inductive op := OPush (ok : bool) (x : A) | OReserve (ok : bool) (n : nat) | OPop.
Inductive answer := Done | OutOfMemory | Item (x : option A).

Definition run_op (o : op) r : answer * ready A :=
  match o with
  | OPush ok x => match push ok x r with Some r' => (Done, r') | None => (OutOfMemory, r) end
  | OReserve ok n => match ensureUnusedCapacity ok n r with Some r' => (Done, r') | None => (OutOfMemory, r) end
  | OPop => match pop r with Some (x, r') => (Item (Some x), r') | None => (Item None, r) end
  end.
Fixpoint run (ops : list op) r : list answer * ready A :=
  match ops with
  | [] => ([], r)
  | o :: ops' => let '(a, r1) := run_op o r in let '(l, r2) := run ops' r1 in (a :: l, r2)
  end.

(** A push appends, unless the allocation fails and nothing changes; a pop takes the oldest. *)
Inductive fifo : op → list A → answer → list A → Prop :=
  | fifo_push ok x q : fifo (OPush ok x) q Done (q ++ [x])
  | fifo_push_oom x q : fifo (OPush false x) q OutOfMemory q
  | fifo_reserve ok n q : fifo (OReserve ok n) q Done q
  | fifo_reserve_oom n q : fifo (OReserve false n) q OutOfMemory q
  | fifo_pop x q : fifo OPop (x :: q) (Item (Some x)) q
  | fifo_pop_empty : fifo OPop [] (Item None) [].
Inductive fifos : list op → list A → list answer → list A → Prop :=
  | fifos_nil q : fifos [] q [] q
  | fifos_cons o ops a l q q1 q2 : fifo o q a q1 → fifos ops q1 l q2 → fifos (o :: ops) q (a :: l) q2.

Lemma run_op_fifo o r : wf r →
  wf (run_op o r).2 ∧ fifo o (contents r) (run_op o r).1 (contents (run_op o r).2).
Proof.
  intros Hw. destruct o as [ok x|ok n|]; cbn.
  - assert (H := ring_push ok x r Hw). destruct (push ok x r); cbn; [destruct H as [? ->]|subst ok]; (split; [done|constructor]).
  - assert (H := ensure_spec ok n r Hw). destruct (ensureUnusedCapacity ok n r); cbn; [destruct H as (? & -> & _)|subst ok];
      (split; [done|constructor]).
  - assert (H := ring_pop r Hw). destruct (pop r) as [[x r']|]; cbn; [destruct H as [? ->]|rewrite H];
      (split; [done|constructor]).
Qed.

(** C32: The ring of a loop that starts empty answers every sequence of pushes, reservations and
    pops as a queue does, growing and wrapping around included; only a failed allocation makes
    a push fail, and then it changes nothing. *)
Theorem ready_refines_fifo ops :
  let '(l, r) := run ops empty in wf r ∧ fifos ops [] l (contents r).
Proof.
  rewrite <-contents_empty. assert (Hw := ring_wf). revert Hw. generalize empty as r.
  induction ops as [|o ops IH]; intros r Hw; cbn [run]; [by split; [|constructor]|].
  destruct (run_op_fifo o r Hw) as [H1 H2]. destruct (run_op o r) as [a r1]. specialize (IH r1 H1).
  destruct (run ops r1) as [l r2]. destruct IH as [? IH]. split; [done|]. by econstructor.
Qed.
End ring.
End Ready.
