(* ===== verification/Clock.v ===== *)
(** * Deadlines (zig/loop.zig, zig/timer.zig)

    The loop's clock and its deadlines are binary64 numbers; libuv's timers take milliseconds
    in 64 bits.  The numbers are those of the Standard Library's [SpecFloat] at 53 bits, so
    infinities and not-a-number are there.  Proved: numbers that are not NaN are totally
    ordered, what the clock and [call_later] compute is never NaN, and converting a delay to
    milliseconds stays within 64 bits whatever the delay. *)
From Stdlib Require Import SpecFloat.
From S2P Require Import Prelude.

Abbreviation f64 := spec_float (only parsing).
Definition f64_of_Z (z : Z) : f64 := binary_normalize 53 1024 z 0 false.
Definition f64_add : f64 → f64 → f64 := SFadd 53 1024.
Definition f64_sub : f64 → f64 → f64 := SFsub 53 1024.
Definition f64_mul : f64 → f64 → f64 := SFmul 53 1024.
Definition f64_div : f64 → f64 → f64 := SFdiv 53 1024.
Definition flt : f64 → f64 → bool := SFltb.
Definition feq : f64 → f64 → bool := SFeqb.
Definition fle : f64 → f64 → bool := SFleb.
Definition fzero : f64 := S754_zero false.

(** [@ceil]. *)
Definition f64_ceil (x : f64) : f64 :=
  match x with
  | S754_finite s m e =>
      if 0 <=? e then x else
      let c := - (- cond_Zopp s (Zpos m) / 2 ^ (- e)) in
      if c =? 0 then S754_zero s else binary_normalize 53 1024 c 0 s
  | _ => x
  end.
Definition isFinite (x : f64) : bool :=
  match x with S754_zero _ | S754_finite _ _ _ => true | _ => false end.
(** [@intFromFloat] to a [u64]; a value that does not fit traps, here [None]. *)
Definition intFromFloat (x : f64) : option Z :=
  match x with
  | S754_zero _ => Some 0
  | S754_finite s m e =>
      let z := cond_Zopp s (if 0 <=? e then Zpos m * 2 ^ e else Zpos m / 2 ^ (- e)) in
      if (0 <=? z) && (z <? 2 ^ 64) then Some z else None
  | _ => None
  end.
(** [@max(delay, 0)]: the other operand if one is NaN. *)
Definition max0 (delay : f64) : f64 :=
  match delay with S754_nan => fzero | _ => if flt delay fzero then fzero else delay end.

(** [now()], from the nanoseconds the system's monotonic clock answers. *)
Definition now_of (ns : Z) : f64 := f64_div (f64_of_Z ns) (f64_of_Z 1000000000).

Definition maxInt : Z := 2 ^ 64 - 1.
Definition timerMilliseconds (seconds guard_ms : f64) : option Z :=
  if negb (flt fzero seconds) then Some 0 else
  let rounded := f64_add (f64_ceil (f64_mul seconds (f64_of_Z 1000))) guard_ms in
  let limit := f64_of_Z maxInt in
  if negb (isFinite rounded) || fle limit rounded then Some maxInt else intFromFloat rounded.

(** ** The order *)
Definition is_nan (x : f64) : bool := match x with S754_nan => true | _ => false end.

(** The rank of a number: sign, exponent, mantissa. *)
Definition rank (x : f64) : Z * Z * Z :=
  match x with
  | S754_nan => (0, 0, 0)
  | S754_infinity s => (if s then -2 else 2, 0, 0)
  | S754_zero _ => (0, 0, 0)
  | S754_finite s m e => if s then (-1, - e, - Zpos m) else (1, e, Zpos m)
  end.
Definition rank_lt (x y : Z * Z * Z) : Prop :=
  let '(a, b, c) := x in let '(a', b', c') := y in
  a < a' ∨ (a = a' ∧ (b < b' ∨ (b = b' ∧ c < c'))).

Lemma pos_compare_cont m n : Pos.compare_cont Eq m n = (Zpos m ?= Zpos n).
Proof. done. Qed.
Lemma flt_rank x y : is_nan x = false → is_nan y = false → flt x y = true ↔ rank_lt (rank x) (rank y).
Proof.
  unfold flt, SFltb, SFcompare.
  destruct x as [s|s| |s m e], y as [s'|s'| |s' m' e']; intros Hx Hy; try done; destruct s, s'; cbn [rank rank_lt];
    rewrite ?pos_compare_cont; try (split; [lia|lia]); try (split; [done|lia]); try (split; [intros; lia|done]).
  - destruct (Z.compare_spec e e'); [|split; [done|lia]|split; [lia|done]].
    destruct (Z.compare_spec (Zpos m) (Zpos m')); cbn; (split; [done || lia|done || lia]).
  - destruct (Z.compare_spec e e'); [|split; [lia|done]|split; [done|lia]].
    destruct (Z.compare_spec (Zpos m) (Zpos m')); cbn; (split; [done || lia|done || lia]).
Qed.
Lemma feq_rank x y : is_nan x = false → is_nan y = false → feq x y = true ↔ rank x = rank y.
Proof.
  unfold feq, SFeqb, SFcompare.
  destruct x as [s|s| |s m e], y as [s'|s'| |s' m' e']; intros Hx Hy; try done; destruct s, s'; cbn [rank];
    rewrite ?pos_compare_cont; try done;
    (destruct (Z.compare_spec e e'); [|split; intros; simplify_eq; lia..]);
    (destruct (Z.compare_spec (Zpos m) (Zpos m')); cbn; (split; [intros; simplify_eq; done || (repeat f_equal; lia)|intros; simplify_eq; done || lia])).
Qed.
Lemma flt_nan_l x y : is_nan x = true → flt x y = false.
Proof. by destruct x. Qed.
Lemma fle_flt x y : is_nan x = false → is_nan y = false → fle x y = negb (flt y x).
Proof.
  intros Hx Hy. destruct (flt y x) eqn:E.
  - apply flt_rank in E; [|done..]. revert E. unfold fle, SFleb, SFcompare.
    destruct x as [s|s| |s m e], y as [s'|s'| |s' m' e']; try done; destruct s, s'; cbn [rank rank_lt negb];
      rewrite ?pos_compare_cont; try done; try (intros; lia);
      (destruct (Z.compare_spec e e'); try done; try (intros; lia));
      (destruct (Z.compare_spec (Zpos m) (Zpos m')); cbn; try done; intros; lia).
  - assert (E' : ¬ rank_lt (rank y) (rank x)) by (rewrite <-flt_rank by done; congruence). revert E'.
    unfold fle, SFleb, SFcompare.
    destruct x as [s|s| |s m e], y as [s'|s'| |s' m' e']; try done; destruct s, s'; cbn [rank rank_lt negb];
      rewrite ?pos_compare_cont; try done; try (intros; lia);
      (destruct (Z.compare_spec e e'); try done; try (intros; lia));
      (destruct (Z.compare_spec (Zpos m) (Zpos m')); cbn; try done; intros; lia).
Qed.

(** ** Sound numbers: not NaN, not negative, and with a mantissa of 53 bits *)
Definition nonneg (x : f64) : Prop :=
  match x with S754_nan => False | S754_zero _ => True | S754_infinity s => s = false
  | S754_finite s m _ => s = false ∧ Zpos m < 2 ^ 53 end.
Lemma nonneg_nan x : nonneg x → is_nan x = false.
Proof. by destruct x. Qed.

Lemma iter_pos_iter {A} (f : A → A) p x : SpecFloat.iter_pos f p x = Nat.iter (Pos.to_nat p) f x.
Proof.
  revert x. induction p as [p IH|p IH|]; intros x; cbn [SpecFloat.iter_pos]; [| |done].
  - rewrite !IH, <-Nat.iter_add, <-Nat.iter_succ_r. f_equal. lia.
  - rewrite !IH, <-Nat.iter_add. f_equal. lia.
Qed.
Lemma shr_1_m r : 0 ≤ shr_m r → shr_m (shr_1 r) = shr_m r / 2.
Proof.
  destruct r as [[|[p|p|]|p] a b]; cbn; intros; try done; try lia.
  - rewrite Pos2Z.inj_xI. apply (Z.div_unique_pos _ _ _ 1); lia.
  - rewrite Pos2Z.inj_xO. apply (Z.div_unique_pos _ _ _ 0); lia.
Qed.
Lemma shr_iter_m n r : 0 ≤ shr_m r → shr_m (Nat.iter n shr_1 r) = shr_m r / 2 ^ Z.of_nat n.
Proof.
  intros Hr. induction n as [|n IH]; [by rewrite Z.div_1_r|].
  change (Nat.iter (S n) shr_1 r) with (shr_1 (Nat.iter n shr_1 r)).
  rewrite shr_1_m, IH by (rewrite IH; apply Z.div_pos; lia).
  rewrite Z.div_div by lia. f_equal. rewrite Nat2Z.inj_succ, Z.pow_succ_r by lia. lia.
Qed.
Lemma shr_m_of_loc m l : shr_m (shr_record_of_loc m l) = m.
Proof. by destruct l as [|[]]. Qed.
Lemma digits2_pos_bound p : Zpos p < 2 ^ Zpos (digits2_pos p).
Proof.
  induction p as [p IH|p IH|]; cbn [digits2_pos]; [| |done];
    rewrite Pos2Z.inj_succ, Z.pow_succ_r by lia; lia.
Qed.
Lemma digits2_bound m : 0 ≤ m → m < 2 ^ Zdigits2 m.
Proof. destruct m; cbn [Zdigits2]; intros; [done|apply digits2_pos_bound|lia]. Qed.
Lemma shr_fexp_bound m e l : 0 ≤ m →
  let r := (shr_fexp 53 1024 m e l).1 in 0 ≤ shr_m r < 2 ^ 53.
Proof.
  intros Hm. unfold shr_fexp, shr. set (n := fexp 53 1024 (Zdigits2 m + e) - e).
  assert (Hd : 0 ≤ Zdigits2 m) by (destruct m; cbn; lia).
  assert (Hn : Zdigits2 m - 53 ≤ n) by (unfold n, fexp; lia).
  assert (Hlt : Zdigits2 m ≤ 53 + Z.max 0 n) by lia.
  assert (Hb := digits2_bound m Hm).
  assert (Hb' : m < 2 ^ (53 + Z.max 0 n)) by (eapply Z.lt_le_trans; [done|]; apply Z.pow_le_mono_r; lia).
  destruct n as [|p|p]; cbn [fst]; rewrite ?iter_pos_iter, ?shr_iter_m, ?shr_m_of_loc by (by rewrite shr_m_of_loc).
  - by rewrite Z.max_id, Z.add_0_r in Hb'.
  - rewrite positive_nat_Z. split; [apply Z.div_pos; lia|]. apply Z.div_lt_upper_bound; [lia|].
    by rewrite <-Z.pow_add_r, Z.add_comm by lia.
  - split; [done|]. by rewrite Z.max_l, Z.add_0_r in Hb' by lia.
Qed.
Lemma round_nearest_nonneg m l : 0 ≤ m → 0 ≤ round_nearest_even m l.
Proof. destruct l as [|[]]; cbn; try destruct (Z.even m); lia. Qed.

Lemma binary_round_aux_nonneg m e l : 0 ≤ m → nonneg (binary_round_aux 53 1024 false m e l).
Proof.
  intros Hm. unfold binary_round_aux.
  assert (H1 := shr_fexp_bound m e l Hm). destruct (shr_fexp 53 1024 m e l) as [r1 e1]. cbn in H1.
  assert (H2 := shr_fexp_bound _ e1 loc_Exact (round_nearest_nonneg (shr_m r1) (loc_of_shr_record r1) ltac:(lia))).
  destruct (shr_fexp 53 1024 _ e1 loc_Exact) as [r2 e2]. cbn in H2.
  destruct (shr_m r2) as [|p|p]; cbn; [done| |lia]. case_match; cbn; lia.
Qed.
Lemma binary_round_nonneg p e : nonneg (binary_round 53 1024 false p e).
Proof. unfold binary_round. destruct (shl_align _ _ _). by apply binary_round_aux_nonneg. Qed.
Lemma binary_normalize_nonneg m e s : 0 ≤ m → nonneg (binary_normalize 53 1024 m e s).
Proof. destruct m; cbn; intros; [done|apply binary_round_nonneg|lia]. Qed.

Lemma f64_add_nonneg x y : nonneg x → nonneg y → nonneg (f64_add x y).
Proof.
  destruct x as [s|s| |s m e], y as [s'|s'| |s' m' e']; cbn; try done;
    try (intros -> ->; done); try (intros -> _; done); try (intros _ ->; done); try (by destruct s, s').
  intros [-> _] [-> _]. by apply binary_normalize_nonneg.
Qed.
Lemma f64_ceil_nonneg x : nonneg x → nonneg (f64_ceil x).
Proof.
  destruct x as [s|s| |s m e]; try done. intros [-> Hm]. unfold f64_ceil. case_match; [done|].
  set (c := - _). assert (0 ≤ c).
  { unfold c. cbn [cond_Zopp]. assert ((- Zpos m) / 2 ^ (- e) ≤ 0); [|lia].
    apply Z.div_le_upper_bound; [apply Z.pow_pos_nonneg; lia|lia]. }
  case_match; [done|]. by apply binary_normalize_nonneg.
Qed.
Lemma f64_mul_1000 x : flt fzero x = true → nonneg (f64_mul x (f64_of_Z 1000)).
Proof.
  assert (H : f64_of_Z 1000 = S754_finite false 8796093022208000 (-43)) by done. rewrite H.
  destruct x as [s|s| |s m e]; try done; destruct s; cbn; try done. intros _. by apply binary_round_aux_nonneg.
Qed.
Lemma limit_value : f64_of_Z maxInt = S754_finite false (2 ^ 52)%positive 12.
Proof. by vm_compute. Qed.
Lemma intFromFloat_nonneg x : nonneg x → isFinite x = true → fle (f64_of_Z maxInt) x = false →
  ∃ z, intFromFloat x = Some z ∧ 0 ≤ z ≤ maxInt.
Proof.
  rewrite limit_value. destruct x as [s|s| |s m e]; cbn [nonneg isFinite]; intros Hn Hf Hle; try done.
  - exists 0. done.
  - destruct Hn as [-> Hm]. unfold intFromFloat. cbn [cond_Zopp]. set (z := if 0 <=? e then _ else _).
    assert (Hz : 0 ≤ z < 2 ^ 64).
    { unfold z. destruct (Z.leb_spec 0 e).
      - revert Hle. unfold fle, SFleb, SFcompare. rewrite pos_compare_cont.
        destruct (Z.compare_spec 12 e); try done.
        + subst e. destruct (Z.compare_spec (Zpos (2 ^ 52)) (Zpos m)); try done. intros _.
          assert (Zpos (2 ^ 52) = 2 ^ 52) by done. lia.
        + intros _. assert (2 ^ e ≤ 2 ^ 11) by (apply Z.pow_le_mono_r; lia).
          assert (0 < 2 ^ e) by (apply Z.pow_pos_nonneg; lia). nia.
      - split; [apply Z.div_pos; [lia|apply Z.pow_pos_nonneg; lia]|].
        apply Z.le_lt_trans with (Zpos m); [|lia]. apply Z.div_le_upper_bound; [apply Z.pow_pos_nonneg; lia|].
        assert (0 < 2 ^ (- e)) by (apply Z.pow_pos_nonneg; lia). nia. }
    exists z. rewrite (proj2 (Z.leb_le 0 z)), (proj2 (Z.ltb_lt z (2 ^ 64))) by lia. unfold maxInt. split; [done|lia].
Qed.

Lemma rounded_nonneg seconds guard : flt fzero seconds = true → guard = f64_of_Z 0 ∨ guard = f64_of_Z 1 →
  nonneg (f64_add (f64_ceil (f64_mul seconds (f64_of_Z 1000))) guard).
Proof.
  intros Hs Hg. apply f64_add_nonneg; [by apply f64_ceil_nonneg, f64_mul_1000|]. by destruct Hg as [-> | ->].
Qed.
(** The cast does not trap. *)
Lemma timer_ms_total seconds guard : guard = f64_of_Z 0 ∨ guard = f64_of_Z 1 → is_Some (timerMilliseconds seconds guard).
Proof.
  intros Hg. unfold timerMilliseconds. destruct (flt fzero seconds) eqn:Hs; cbn [negb]; [|by eexists].
  assert (Hr := rounded_nonneg seconds guard Hs Hg). destruct (isFinite _) eqn:Hf; cbn [negb orb]; [|by eexists].
  destruct (fle _ _) eqn:Hle; [by eexists|]. destruct (intFromFloat_nonneg _ Hr Hf Hle) as (z & -> & _). by eexists.
Qed.

(** C36: Whatever the delay - negative, infinite, not a number, or larger than any libuv timer -
    the conversion to libuv's milliseconds gives a number of 64 bits: the cast to an integer is
    only reached by values it takes. *)
Theorem timer_ms_in_range seconds guard : guard = f64_of_Z 0 ∨ guard = f64_of_Z 1 →
  ∃ ms, timerMilliseconds seconds guard = Some ms ∧ 0 ≤ ms ≤ maxInt ∧
    (flt fzero seconds = false → ms = 0) ∧ (seconds = S754_infinity false → ms = maxInt).
Proof.
  intros Hg. unfold timerMilliseconds. destruct (flt fzero seconds) eqn:Hs; cbn [negb].
  2:{ exists 0. split_and!; [done|done|done|done|]. by intros ->. }
  assert (Hr := rounded_nonneg seconds guard Hs Hg).
  assert (Hi : seconds = S754_infinity false → isFinite (f64_add (f64_ceil (f64_mul seconds (f64_of_Z 1000))) guard) = false).
  { intros ->. by destruct Hg as [-> | ->]. }
  set (rounded := f64_add _ _) in *. clearbody rounded.
  destruct (isFinite rounded) eqn:Hf; cbn [negb orb]; [|by exists maxInt].
  destruct (fle (f64_of_Z maxInt) rounded) eqn:Hle; [by exists maxInt|].
  destruct (intFromFloat_nonneg rounded Hr Hf Hle) as (z & Hz & Hb). exists z. split_and!; try done; try lia.
  intros E. by specialize (Hi E).
Qed.
Lemma timer_ms_in_range_witness :
  ∃ ms, timerMilliseconds (S754_infinity false) (f64_of_Z 1) = Some ms ∧ 0 ≤ ms ≤ maxInt ∧
    (flt fzero (S754_infinity false) = false → ms = 0) ∧ (S754_infinity false = S754_infinity false → ms = maxInt).
Proof. apply timer_ms_in_range. by right. Defined.

(** ** The clock *)
Lemma now_of_nonneg ns : 0 ≤ ns → nonneg (now_of ns).
Proof.
  intros H. assert (Hn : nonneg (f64_of_Z ns)) by (by apply binary_normalize_nonneg).
  unfold now_of. assert (Hd : f64_of_Z 1000000000 = S754_finite false 8388608000000000 (-23)) by (by vm_compute).
  rewrite Hd. destruct (f64_of_Z ns) as [s|s| |s m e]; cbn [nonneg] in Hn; try done; try (by subst s).
  destruct Hn as [-> Hm]. unfold f64_div, SFdiv. destruct (SFdiv_core_binary _ _ _ _ _ _) as [[mz ez] lz] eqn:E.
  cbn [xorb]. apply binary_round_aux_nonneg.
  unfold SFdiv_core_binary in E. set (m' := match _ with Z0 => _ | Zpos _ => _ | Zneg _ => _ end) in E.
  assert (0 ≤ m') by (unfold m'; destruct (_ - _); [lia|by apply Z.shiftl_nonneg|lia]).
  destruct (Z.div_eucl m' 8388608000000000) as [q r] eqn:Eq. injection E as <- _ _.
  assert (Hq : m' / 8388608000000000 = q) by (unfold Z.div; by rewrite Eq). rewrite <-Hq. by apply Z.div_pos.
Qed.
(** A Python float: its mantissa has 53 bits. *)
Definition fits (x : f64) : Prop := match x with S754_finite _ m _ => Zpos m < 2 ^ 53 | _ => True end.
Lemma max0_nonneg delay : fits delay → nonneg (max0 delay).
Proof. destruct delay as [[]|[]| |[] m e]; done. Qed.
