(* ===== verification/Heap.v ===== *)
(** * The timer heap (zig/collections.zig, [Timers])

    An array heap of timers, ordered by deadline and then by insertion; cancelled timers stay
    until they surface or the heap is compacted.  The sifting is generic in the order; it is
    instantiated with the order of [TimerEntry].  Proved: every operation keeps the heap
    ordered and loses nothing, what is popped is the earliest, and popping everything gives
    the timers sorted. *)
From Stdlib Require Import Sorting.Sorted SpecFloat.
From S2P Require Import Prelude Clock.

(** ** Lists as arrays *)
Lemma insert_swap_perm `{!Inhabited A} (l : list A) i j x :
  i ≠ j → (i < length l)%nat → (j < length l)%nat →
  <[j:=x]> (<[i:=l !!! j]> l) ≡ₚ <[i:=x]> l.
Proof.
  intros Hij Hi Hj.
  rewrite <-(list_insert_insert_eq l i (l !!! j) x). apply Permutation_insert_swap.
  - by apply list_lookup_insert_eq.
  - rewrite list_lookup_insert_ne by done. by apply list_lookup_lookup_total_lt.
Qed.

Lemma Forall_sublist {A} (P : A → Prop) (l k : list A) : l `sublist_of` k → Forall P k → Forall P l.
Proof. induction 1; intros Hk; [done|apply Forall_cons in Hk as [? ?]; constructor; auto|apply Forall_cons in Hk as [? ?]; auto]. Qed.

Section sift.
Context {A : Type} `{!Inhabited A} (before : A → A → bool).
Implicit Types (l L : list A) (i j start : nat).

Definition parent i : nat := ((i - 1) / 2)%nat.

Fixpoint up_loop (fuel : nat) l (item : A) i : list A * nat :=
  match fuel with
  | O => (l, i)
  | S fuel' =>
      if decide (i = 0)%nat then (l, i) else
      if negb (before item (l !!! parent i)) then (l, i)
      else up_loop fuel' (<[i := l !!! parent i]> l) item (parent i)
  end.
Definition siftUp l start : list A :=
  let item := l !!! start in
  let '(l', i) := up_loop start l item start in <[i := item]> l'.

(** [const child = ...]: the right child if there is one and it is before the left one. *)
Definition least_child l i : nat :=
  let left := (i * 2 + 1)%nat in
  let right := (left + 1)%nat in
  if bool_decide (right < length l)%nat && before (l !!! right) (l !!! left) then right else left.
Fixpoint down_loop (fuel : nat) l (item : A) i : list A * nat :=
  match fuel with
  | O => (l, i)
  | S fuel' =>
      if decide (length l ≤ i * 2 + 1)%nat then (l, i) else
      let child := least_child l i in
      if negb (before (l !!! child) item) then (l, i)
      else down_loop fuel' (<[i := l !!! child]> l) item child
  end.
Definition siftDown l start : list A :=
  let item := l !!! start in
  let '(l', i) := down_loop (length l) l item start in <[i := item]> l'.

(** The loop of [compact] over the first half, from its last parent to the root. *)
Fixpoint heapify l (i : nat) : list A :=
  match i with O => l | S i' => heapify (siftDown l i') i' end.

(** ** The heap order

    [before] is an order on the elements in [good]; [le] is its complement. *)
Context (good : A → Prop).
Context (before_asym : ∀ a b, good a → good b → before a b = true → before b a = false).
Context (before_neg : ∀ a b c, good a → good b → good c →
  before b a = false → before c b = false → before c a = false).

Definition le (a b : A) : Prop := before b a = false.
(** Every element whose parent is at [s] or behind it is not before its parent. *)
Definition heap_from (s : nat) L : Prop :=
  ∀ j, (0 < j < length L)%nat → (s ≤ parent j)%nat → le (L !!! parent j) (L !!! j).
Definition heap : list A → Prop := heap_from 0.

Lemma parent_spec j c : (0 < j)%nat → parent j = c ↔ (j = 2 * c + 1 ∨ j = 2 * c + 2)%nat.
Proof.
  intros Hj. unfold parent. assert (H := Nat.div_mod_eq (j - 1) 2). assert (H' := Nat.mod_upper_bound (j - 1) 2).
  split; intros; lia.
Qed.
Lemma parent_lt j : (0 < j)%nat → (parent j < j)%nat.
Proof. intros H. assert (Hp := proj1 (parent_spec j (parent j) H) eq_refl). lia. Qed.

Lemma good_at L i : Forall good L → (i < length L)%nat → good (L !!! i).
Proof. intros HL Hi. rewrite Forall_lookup in HL. by eapply HL, list_lookup_lookup_total_lt. Qed.
Lemma le_total a b : good a → good b → before a b = true → le a b.
Proof. intros. by apply before_asym. Qed.
Lemma le_trans a b c : good a → good b → good c → le a b → le b c → le a c.
Proof. intros ? ? ? H1 H2. by apply (before_neg a b c). Qed.

(** *** Upwards *)
Definition almost_up i L : Prop :=
  (∀ j, (0 < j < length L)%nat → j ≠ i → le (L !!! parent j) (L !!! j)) ∧
  (∀ j, (0 < j < length L)%nat → (0 < i)%nat → parent j = i → le (L !!! parent i) (L !!! j)).

Lemma up_loop_spec fuel l item i :
  (i < length l)%nat → (i ≤ fuel)%nat → Forall good (<[i := item]> l) → almost_up i (<[i := item]> l) →
  let '(l', i') := up_loop fuel l item i in
  heap (<[i' := item]> l') ∧ <[i' := item]> l' ≡ₚ <[i := item]> l.
Proof.
  revert l i. induction fuel as [|fuel IH]; intros l i Hi Hf Hg [H1 H2]; cbn [up_loop].
  { split; [|done]. intros j Hj _. apply H1; [done|lia]. }
  case_decide as H0; [split; [|done]; intros j Hj _; apply H1; [done|lia]|].
  assert (Hp := parent_lt i ltac:(lia)). set (p := parent i) in *. set (x := l !!! p).
  set (V := <[i := item]> l) in *.
  assert (HV : length V = length l) by apply length_insert.
  assert (Vi : V !!! i = item) by (by apply list_lookup_total_insert_eq).
  assert (Vp : V !!! p = x) by (apply list_lookup_total_insert_ne; lia).
  assert (Gi : good item) by (rewrite <-Vi; apply good_at; [done|lia]).
  assert (Gx : good x) by (rewrite <-Vp; apply good_at; [done|lia]).
  destruct (before item x) eqn:E; cbn [negb].
  2:{ split; [|done]. intros j Hj _. destruct (decide (j = i)) as [->|]; [|by apply H1].
      change (le (V !!! p) (V !!! i)). by rewrite Vp, Vi. }
  set (l1 := <[i := x]> l). set (V1 := <[p := item]> l1).
  assert (HP : V1 ≡ₚ V) by (apply insert_swap_perm; lia).
  assert (Hl1 : length V1 = length l) by (unfold V1, l1; by rewrite !length_insert).
  assert (V1p : V1 !!! p = item) by (apply list_lookup_total_insert_eq; unfold l1; rewrite length_insert; lia).
  assert (V1i : V1 !!! i = x).
  { unfold V1. rewrite list_lookup_total_insert_ne by lia. by apply list_lookup_total_insert_eq. }
  assert (V1o : ∀ k, k ≠ i → k ≠ p → V1 !!! k = V !!! k).
  { intros k ? ?. unfold V1, l1, V. by rewrite !list_lookup_total_insert_ne by lia. }
  assert (HG1 : Forall good V1) by (by rewrite HP).
  specialize (IH l1 p ltac:(unfold l1; rewrite length_insert; lia) ltac:(lia) HG1).
  destruct (up_loop fuel l1 item p) as [l' i']. destruct IH as [IH IHP].
  { change (almost_up p V1). split.
    - intros j Hj Hjp. rewrite Hl1 in Hj. destruct (decide (j = i)) as [->|Hji].
      { fold p. rewrite V1p, V1i. by apply le_total. }
      rewrite (V1o j) by done. assert (Hjle : le (V !!! parent j) (V !!! j)) by (apply H1; [lia|done]).
      assert (Gj : good (V !!! j)) by (apply good_at; [done|lia]).
      destruct (decide (parent j = p)) as [Hpj|]; [|destruct (decide (parent j = i)) as [Hpj|]].
      + rewrite Hpj in *. rewrite V1p. rewrite Vp in Hjle. eapply le_trans, Hjle; [done..|]. by apply le_total.
      + rewrite Hpj, V1i, <-Vp. by apply H2; [lia|lia|].
      + by rewrite V1o.
    - intros j Hj Hp0 Hpj. rewrite Hl1 in Hj. assert (Hq := parent_lt p Hp0).
      rewrite (V1o (parent p)) by lia.
      assert (Hqp : le (V !!! parent p) x) by (rewrite <-Vp; apply H1; lia).
      destruct (decide (j = i)) as [->|]; [by rewrite V1i|]. assert (parent j < j)%nat by (apply parent_lt; lia).
      rewrite V1o by lia. eapply le_trans; [| | |exact Hqp|].
      + apply good_at; [done|lia].
      + done.
      + apply good_at; [done|lia].
      + rewrite <-Vp, <-Hpj. apply H1; lia. }
  split; [done|]. by rewrite IHP, <-HP.
Qed.

Lemma siftUp_spec l start :
  (start < length l)%nat → Forall good l → almost_up start l → heap (siftUp l start) ∧ siftUp l start ≡ₚ l.
Proof.
  intros Hs Hg Ha. unfold siftUp. assert (Hid : <[start := l !!! start]> l = l).
  { apply list_insert_id. by apply list_lookup_lookup_total_lt. }
  assert (H := up_loop_spec start l (l !!! start) start Hs ltac:(lia)). rewrite Hid in H. specialize (H Hg Ha).
  by destruct (up_loop _ _ _ _).
Qed.

(** *** Downwards *)
Definition almost_down (s i : nat) L : Prop :=
  (∀ j, (0 < j < length L)%nat → (s ≤ parent j)%nat → parent j ≠ i → le (L !!! parent j) (L !!! j)) ∧
  (∀ j, (0 < j < length L)%nat → (0 < i)%nat → (s ≤ parent i)%nat → parent j = i → le (L !!! parent i) (L !!! j)).

(** The smaller child of [i]. *)
Lemma child_spec l i :
  (i * 2 + 1 < length l)%nat → Forall good l →
  let child := least_child l i in
  (child < length l)%nat ∧ parent child = i ∧ (i < child)%nat ∧
  ∀ j, (0 < j < length l)%nat → parent j = i → le (l !!! child) (l !!! j).
Proof.
  intros Hl Hg child.
  assert (Hc : (child < length l)%nat ∧ (child = i * 2 + 1 ∨ child = i * 2 + 2)%nat).
  { unfold child, least_child. case_bool_decide; cbn [andb]; [case_match|]; split; lia. }
  destruct Hc as [Hc Hcs]. split_and!; [done|apply parent_spec; lia|lia|].
  intros j Hj Hp. apply parent_spec in Hp; [|lia].
  assert (Hself : ∀ k, (k < length l)%nat → le (l !!! k) (l !!! k)).
  { intros k Hk. unfold le. destruct (before (l !!! k) (l !!! k)) eqn:E; [|done].
    apply before_asym in E as E'; [congruence|by apply good_at..]. }
  unfold child, least_child in *. case_bool_decide as Hr; cbn [andb] in *.
  - destruct (before (l !!! (i * 2 + 1 + 1)%nat) (l !!! (i * 2 + 1)%nat)) eqn:E.
    + destruct Hp as [Hp|Hp]; subst j.
      * replace (2 * i + 1)%nat with (i * 2 + 1)%nat by lia. apply le_total; [apply good_at; [done|lia]..|done].
      * replace (2 * i + 2)%nat with (i * 2 + 1 + 1)%nat by lia. by apply Hself.
    + destruct Hp as [Hp|Hp]; subst j.
      * replace (2 * i + 1)%nat with (i * 2 + 1)%nat by lia. by apply Hself.
      * by replace (2 * i + 2)%nat with (i * 2 + 1 + 1)%nat by lia.
  - destruct Hp as [Hp|Hp]; subst j; [|lia]. replace (2 * i + 1)%nat with (i * 2 + 1)%nat by lia. by apply Hself.
Qed.

(** The children of [i] are not changed by what is in slot [i]. *)
Lemma child_insert l i item : least_child (<[i := item]> l) i = least_child l i.
Proof. unfold least_child. by rewrite length_insert, !list_lookup_total_insert_ne by lia. Qed.

Lemma down_loop_spec s fuel l item i :
  (i < length l)%nat → (length l ≤ i + fuel)%nat → Forall good (<[i := item]> l) →
  almost_down s i (<[i := item]> l) →
  let '(l', i') := down_loop fuel l item i in
  heap_from s (<[i' := item]> l') ∧ <[i' := item]> l' ≡ₚ <[i := item]> l.
Proof.
  revert l i. induction fuel as [|fuel IH]; intros l i Hi Hf Hg [H1 H2]; [lia|]. cbn [down_loop].
  set (V := <[i := item]> l) in *. assert (HV : length V = length l) by apply length_insert.
  assert (Vi : V !!! i = item) by (by apply list_lookup_total_insert_eq).
  case_decide as H0.
  { split; [|done]. change (heap_from s V). intros j Hj Hs. apply H1; [done|done|].
    intros E. apply parent_spec in E; lia. }
  assert (Hc := child_spec V i ltac:(lia) Hg). unfold V in Hc at 1 3 4 5. rewrite child_insert in Hc. fold V in Hc.
  set (child := least_child l i) in *. clearbody child.
  destruct Hc as (Hc & Hpc & Hic & Hmin). rewrite HV in Hc.
  set (x := l !!! child) in *. assert (Vc : V !!! child = x) by (apply list_lookup_total_insert_ne; lia).
  assert (Gi : good item) by (rewrite <-Vi; apply good_at; [done|lia]).
  assert (Gx : good x) by (rewrite <-Vc; apply good_at; [done|lia]).
  destruct (before x item) eqn:E; cbn [negb].
  2:{ split; [|done]. change (heap_from s V). intros j Hj Hs. destruct (decide (parent j = i)) as [Hp|]; [|by apply H1].
      rewrite Hp, Vi. eapply le_trans; [done|exact Gx|apply good_at; [done|lia]|done|]. rewrite <-Vc. by apply Hmin. }
  set (l1 := <[i := x]> l). set (V1 := <[child := item]> l1).
  assert (HP : V1 ≡ₚ V) by (apply insert_swap_perm; lia).
  assert (Hl1 : length V1 = length l) by (unfold V1, l1; by rewrite !length_insert).
  assert (V1c : V1 !!! child = item) by (apply list_lookup_total_insert_eq; unfold l1; rewrite length_insert; lia).
  assert (V1i : V1 !!! i = x).
  { unfold V1. rewrite list_lookup_total_insert_ne by lia. by apply list_lookup_total_insert_eq. }
  assert (V1o : ∀ k, k ≠ i → k ≠ child → V1 !!! k = V !!! k).
  { intros k ? ?. unfold V1, l1, V. by rewrite !list_lookup_total_insert_ne by lia. }
  assert (HG1 : Forall good V1) by (by rewrite HP).
  assert (Hln : length l1 = length l) by apply length_insert.
  specialize (IH l1 child ltac:(lia) ltac:(lia) HG1).
  destruct (down_loop fuel l1 item child) as [l' i']. destruct IH as [IH IHP].
  { change (almost_down s child V1). split.
    - intros j Hj Hs Hjp. rewrite Hl1 in Hj. assert (Hpj := parent_lt j ltac:(lia)).
      destruct (decide (j = child)) as [->|Hjc]; [rewrite Hpc, V1i, V1c; by apply le_total|].
      destruct (decide (parent j = i)) as [Hp|Hp].
      + rewrite Hp, V1i, <-Vc, V1o by lia. by apply Hmin; [lia|].
      + rewrite (V1o (parent j)) by done. destruct (decide (j = i)) as [->|].
        * rewrite V1i, <-Vc. by apply H2; [lia|lia|lia|].
        * rewrite V1o by done. by apply H1; [lia|..].
    - intros j Hj Hc0 Hs Hpj. rewrite Hl1 in Hj. rewrite Hpc, V1i. assert (Hlt := parent_lt j ltac:(lia)).
      rewrite V1o by lia. rewrite <-Vc, <-Hpj. apply H1; [lia|rewrite Hpj; lia|lia]. }
  split; [done|]. by rewrite IHP, <-HP.
Qed.

Lemma siftDown_spec s l start :
  (start < length l)%nat → Forall good l → almost_down s start l →
  heap_from s (siftDown l start) ∧ siftDown l start ≡ₚ l.
Proof.
  intros Hs Hg Ha. unfold siftDown. assert (Hid : <[start := l !!! start]> l = l).
  { apply list_insert_id. by apply list_lookup_lookup_total_lt. }
  assert (H := down_loop_spec s (length l) l (l !!! start) start Hs ltac:(lia)). rewrite Hid in H. specialize (H Hg Ha).
  by destruct (down_loop _ _ _ _).
Qed.

Lemma heapify_spec l i :
  (i ≤ length l)%nat → Forall good l → heap_from i l → heap (heapify l i) ∧ heapify l i ≡ₚ l.
Proof.
  revert l. induction i as [|i IH]; intros l Hi Hg Hh; cbn [heapify]; [done|].
  destruct (siftDown_spec i l i) as [H1 H2]; [lia|done| |].
  { split; [intros j Hj Hs Hp; apply Hh; [done|lia]|]. intros j _ H0 Hs. assert (H := parent_lt i H0). lia. }
  destruct (IH (siftDown l i)) as [H3 H4]; [rewrite H2; lia|by rewrite H2|done|]. split; [done|]. by rewrite H4.
Qed.
(** From half the length on nothing has a parent to be compared with. *)
Lemma heap_from_half l : heap_from (length l / 2) l.
Proof.
  intros j Hj Hs. assert (Hp := proj1 (parent_spec j (parent j) ltac:(lia)) eq_refl).
  assert (H := Nat.div_mod_eq (length l) 2). assert (H' := Nat.mod_upper_bound (length l) 2). lia.
Qed.

(** The root is not after anything. *)
Lemma heap_root l i : Forall good l → heap l → (i < length l)%nat → le (l !!! 0%nat) (l !!! i).
Proof.
  intros Hg Hh. induction i as [i IH] using lt_wf_ind. intros Hi. destruct (decide (i = 0%nat)) as [->|].
  { unfold le. destruct (before _ _) eqn:E; [|done]. apply before_asym in E as E'; [congruence|by apply good_at..]. }
  assert (Hp := parent_lt i ltac:(lia)). 
  apply (le_trans _ (l !!! parent i)); [apply good_at; [done|lia]..| |apply Hh; lia].
  apply IH; lia.
Qed.
End sift.

Module Timers.

Record entry := Entry { when : f64; seq : nat; handle : nat }.
#[export] Instance entry_inhabited : Inhabited entry := populate (Entry fzero 0 0).

Definition before (a b : entry) : bool :=
  if negb (feq (when a) (when b)) then flt (when a) (when b) else bool_decide (seq a < seq b)%nat.

(** The live part of [items], the capacity behind it, the last sequence number and the count
    of cancelled entries. *)
Record timers := Timers { items : list entry; cap : nat; last : nat; cancelled : nat }.
Definition empty : timers := Timers [] 0 0 0.
Definition with_cancelled (f : nat → nat) (t : timers) : timers := Timers (items t) (cap t) (last t) (f (cancelled t)).

Definition grow (t : timers) : timers :=
  Timers (items t) (if decide (cap t = 0)%nat then 32 else cap t * 2)%nat (last t) (cancelled t).
(** [ok] is whether the allocation succeeds; [None] is [error.OutOfMemory]. *)
Definition push (ok : bool) (w : f64) (h : nat) (t : timers) : option timers :=
  t ← (if decide (length (items t) = cap t) then if ok then Some (grow t) else None else Some t);
  Some (Timers (siftUp before (items t ++ [Entry w (S (last t)) h]) (length (items t))) (cap t) (S (last t)) (cancelled t)).

Definition peek (t : timers) : option entry := head (items t).
Definition pop (t : timers) : option (entry * timers) :=
  match items t with
  | [] => None
  | top :: _ =>
      let n := (length (items t) - 1)%nat in
      let l := take n (items t) in
      let l' := if decide (n = 0)%nat then l else siftDown before (<[0%nat := items t !!! n]> l) 0 in
      Some (top, Timers l' (cap t) (last t) (cancelled t))
  end.

(** The handles dropped, and what is left. *)
Definition compact (ok : bool) (shouldDrop : nat → bool) (t : timers) : list nat * timers :=
  if negb ok then ([], t) else
  let doomed := handle <$> filter (λ e, shouldDrop (handle e) = true) (items t) in
  let kept := filter (λ e, shouldDrop (handle e) = false) (items t) in
  let n := length kept in
  (doomed, Timers (if decide (2 ≤ n)%nat then heapify before kept (n / 2) else kept) (cap t) (last t) 0).

(** ** The order of entries *)
Definition good (e : entry) : Prop := is_nan (when e) = false.
Lemma before_rank a b : good a → good b →
  before a b = true ↔ rank_lt (rank (when a)) (rank (when b)) ∨ (rank (when a) = rank (when b) ∧ seq a < seq b)%nat.
Proof.
  intros Ha Hb. unfold before. assert (Hq := feq_rank _ _ Ha Hb). assert (Hl := flt_rank _ _ Ha Hb).
  destruct (feq (when a) (when b)); cbn [negb].
  - rewrite bool_decide_eq_true. destruct Hq as [Hq _]. rewrite (Hq eq_refl).
    destruct (rank (when b)) as [[x y] z]. cbn. split; [by right|intros [?|[_ ?]]; [lia|done]].
  - rewrite Hl. split; [by left|]. intros [?|[E _]]; [done|]. by apply Hq in E.
Qed.
Lemma before_asym a b : good a → good b → before a b = true → before b a = false.
Proof.
  intros Ha Hb H. apply not_true_is_false. rewrite before_rank in * by done.
  destruct (rank (when a)) as [[x y] z], (rank (when b)) as [[x' y'] z']. cbn in *.
  rewrite !pair_equal_spec in *. lia.
Qed.
Lemma before_neg a b c : good a → good b → good c →
  before b a = false → before c b = false → before c a = false.
Proof.
  intros Ha Hb Hc H1 H2. apply not_true_is_false. apply not_true_iff_false in H1, H2.
  rewrite before_rank in * by done.
  destruct (rank (when a)) as [[x y] z], (rank (when b)) as [[x' y'] z'], (rank (when c)) as [[x'' y''] z''].
  cbn in *. rewrite !pair_equal_spec in *. lia.
Qed.

(** ** The invariant and the operations *)
Record wf (t : timers) : Prop := {
  wf_heap : heap before (items t);
  wf_good : Forall good (items t);
  wf_cap : (length (items t) ≤ cap t)%nat;
  wf_last : Forall (λ e, seq e ≤ last t)%nat (items t);
  wf_nodup : NoDup (seq <$> items t) }.
Lemma empty_wf : wf empty.
Proof. split; cbn; [intros j Hj; cbn in Hj; lia|constructor|lia|constructor|constructor]. Qed.

Lemma push_spec ok w h t : wf t → is_nan w = false →
  match push ok w h t with
  | Some t' => wf t' ∧ items t' ≡ₚ Entry w (S (last t)) h :: items t ∧ last t' = S (last t) ∧ cancelled t' = cancelled t
  | None => ok = false
  end.
Proof.
  intros Hw Hn. set (e := Entry w (S (last t)) h). assert (He : good e) by done.
  set (L := items t ++ [e]). assert (HL : Forall good L) by (apply Forall_app; split; [apply (wf_good _ Hw)|by constructor]).
  assert (Hlen : length L = S (length (items t))) by (unfold L; rewrite length_app; cbn; lia).
  destruct (siftUp_spec before good before_asym before_neg L (length (items t))) as [Hh HP]; [lia|done| |].
  { assert (Hat : ∀ k, (k < length (items t))%nat → L !!! k = items t !!! k) by (intros; by apply lookup_total_app_l).
    split; intros j Hj.
    - intros Hj'. assert (Hp := parent_lt j ltac:(lia)). rewrite !Hat by lia. apply (wf_heap _ Hw); lia.
    - intros _ Hp. assert (Hp' := parent_lt j ltac:(lia)). lia. }
  assert (HP' : siftUp before L (length (items t)) ≡ₚ e :: items t) by (rewrite HP; unfold L; by rewrite Permutation_app_comm).
  assert (Hres : ∀ c, (length (items t) < c)%nat →
    wf (Timers (siftUp before L (length (items t))) c (S (last t)) (cancelled t))).
  { intros c Hc. split; cbn [items cap last].
    - done.
    - by rewrite HP.
    - rewrite HP, Hlen. lia.
    - rewrite HP'. constructor; [done|]. eapply Forall_impl; [apply (wf_last _ Hw)|]. cbn. intros; lia.
    - rewrite HP'. cbn. constructor; [|apply (wf_nodup _ Hw)]. rewrite list_elem_of_fmap. intros (e' & He' & Hin).
      assert (Hl := wf_last _ Hw). rewrite Forall_forall in Hl. apply Hl in Hin. lia. }
  assert (Hc := wf_cap _ Hw). unfold push. case_decide as E; [destruct ok; [|done]|]; cbn [mbind option_bind items grow last cancelled cap];
    (split_and!; [apply Hres; repeat case_decide; lia|done..]).
Qed.

Lemma peek_least t e : wf t → peek t = Some e →
  e ∈ items t ∧ Forall (λ e', before e' e = false) (items t).
Proof.
  intros Hw. unfold peek. destruct (items t) as [|top rest] eqn:E; [done|]. intros [= ->]. split; [apply list_elem_of_here|].
  apply Forall_lookup. intros i e' He'.
  assert (Hr := heap_root before good before_asym before_neg (items t) i (wf_good _ Hw) (wf_heap _ Hw)). rewrite E in Hr.
  rewrite (list_lookup_total_correct _ i e' He') in Hr. apply Hr. by apply lookup_lt_Some in He'.
Qed.

Lemma pop_spec t : wf t →
  match pop t with
  | Some (e, t') => wf t' ∧ items t ≡ₚ e :: items t' ∧ peek t = Some e ∧
      Forall (λ e', before e e' = true) (items t') ∧ last t' = last t ∧ cancelled t' = cancelled t
  | None => items t = []
  end.
Proof.
  intros Hw. unfold pop, peek. destruct (items t) as [|top rest] eqn:E; [done|].
  assert (Hroot : Forall (λ e', before e' top = false) rest).
  { destruct (peek_least t top Hw) as [_ Hl]; [unfold peek; by rewrite E|]. rewrite E in Hl. by apply Forall_cons in Hl as [_ Hl]. }
  assert (Hg := wf_good _ Hw). rewrite E in Hg. apply Forall_cons in Hg as [Hgt Hgr].
  assert (Hnd := wf_nodup _ Hw). rewrite E in Hnd. cbn in Hnd. apply NoDup_cons in Hnd as [Hnt Hnr].
  assert (Hstrict : Forall (λ e', before top e' = true) rest).
  { rewrite Forall_forall in Hroot, Hgr |- *. intros e' He'. specialize (Hroot e' He'). specialize (Hgr e' He').
    assert (Hne : seq top ≠ seq e') by (intros Heq; apply Hnt; rewrite Heq; by apply list_elem_of_fmap_2).
    apply before_rank; [done..|]. apply not_true_iff_false in Hroot. rewrite before_rank in Hroot by done.
    destruct (rank (when top)) as [[x y] z], (rank (when e')) as [[x' y'] z']. cbn in *.
    rewrite !pair_equal_spec in *. lia. }
  set (l' := if decide _ then _ else _).
  assert (Hl' : heap before l' ∧ l' ≡ₚ rest).
  { unfold l'. cbn [length]. rewrite Nat.sub_succ, Nat.sub_0_r. destruct (decide (length rest = 0)%nat) as [H0|H0].
    - destruct rest; [|done]. cbn. split; [intros j Hj; cbn in Hj; lia|done].
    - destruct (exists_last (l := rest)) as (mid & x & ->); [by intros ->|].
      rewrite length_app. cbn [length]. rewrite Nat.add_1_r. cbn [take].
      assert (Htk : take (length mid) (mid ++ [x]) = mid) by apply take_app_length. rewrite Htk.
      assert (Hx : (top :: mid ++ [x]) !!! S (length mid) = x).
      { apply list_lookup_total_correct. change ((mid ++ [x]) !! length mid = Some x).
        by rewrite lookup_app_r, Nat.sub_diag by done. }
      rewrite Hx. cbn [insert list_insert].
      assert (HP : x :: mid ≡ₚ mid ++ [x]) by (by rewrite Permutation_app_comm).
      assert (Hgm : Forall good (x :: mid)) by (by rewrite HP).
      destruct (siftDown_spec before good before_asym before_neg 0 (x :: mid) 0) as [Hh Hp]; [cbn; lia|done| |].
      { split; [|intros; lia]. intros j Hj _ Hpj.
        assert (Hlt := parent_lt j ltac:(lia)).
        assert (Hat : ∀ k, (0 < k < length (x :: mid))%nat → (x :: mid) !!! k = items t !!! k).
        { intros k Hk. rewrite E. destruct k as [|k]; [lia|]. cbn in Hk.
          change (mid !!! k = (mid ++ [x]) !!! k). by rewrite lookup_total_app_l by lia. }
        rewrite !Hat by lia. apply (wf_heap _ Hw); [|lia]. rewrite E. cbn in *. rewrite length_app. cbn. lia. }
      split; [done|]. by rewrite Hp. }
  destruct Hl' as [Hh HP]. clearbody l'. assert (Hcap := wf_cap _ Hw). rewrite E in Hcap. cbn in Hcap.
  assert (Hla := wf_last _ Hw). rewrite E in Hla. apply Forall_cons in Hla as [_ Hla].
  split_and!; cbn [items last cancelled]; [|by rewrite HP|done|by rewrite HP|done|done].
  split; cbn [items cap last]; [done|by rewrite HP|rewrite HP; lia|by rewrite HP|by rewrite HP].
Qed.

Lemma compact_spec ok drop t : wf t →
  let '(doomed, t') := compact ok drop t in
  if ok then wf t' ∧ doomed = handle <$> filter (λ e, drop (handle e) = true) (items t) ∧
      items t' ≡ₚ filter (λ e, drop (handle e) = false) (items t) ∧ last t' = last t ∧ cancelled t' = 0%nat
  else doomed = [] ∧ t' = t.
Proof.
  intros Hw. unfold compact. destruct ok; [|done]. cbn [negb]. set (kept := filter (λ e, drop (handle e) = false) (items t)).
  assert (Hsub : kept `sublist_of` items t) by apply sublist_filter.
  assert (Hg : Forall good kept) by (eapply Forall_sublist; [done|apply (wf_good _ Hw)]).
  assert (Hh : heap before (if decide (2 ≤ length kept)%nat then heapify before kept (length kept / 2) else kept) ∧
    (if decide (2 ≤ length kept)%nat then heapify before kept (length kept / 2) else kept) ≡ₚ kept).
  { case_decide as Hd.
    - apply (heapify_spec before good before_asym before_neg); [|done|apply heap_from_half].
      apply Nat.Div0.div_le_upper_bound. lia.
    - split; [|done]. intros j Hj. lia. }
  destruct Hh as [Hh HP]. split_and!; cbn [items last cancelled]; [|done|done|done|done].
  split; cbn [items cap last]; [done|by rewrite HP| | |].
  - rewrite HP. assert (H1 := sublist_length _ _ Hsub). assert (H2 := wf_cap _ Hw). lia.
  - rewrite HP. eapply Forall_sublist; [done|apply (wf_last _ Hw)].
  - rewrite HP. eapply sublist_NoDup; [apply (wf_nodup _ Hw)|by apply fmap_sublist].
Qed.

(** ** The contract: a priority queue, first in first out among equal deadlines *)
Inductive op := TPush (ok : bool) (w : f64) (h : nat) | TPop | TCompact (ok : bool) (shouldDrop : nat → bool).
Inductive answer := Done | OutOfMemory | Popped (e : option entry) | Dropped (l : list nat).
Definition run_op (o : op) (t : timers) : answer * timers :=
  match o with
  | TPush ok w h => match push ok w h t with Some t' => (Done, t') | None => (OutOfMemory, t) end
  | TPop => match pop t with Some (e, t') => (Popped (Some e), t') | None => (Popped None, t) end
  | TCompact ok d => let '(l, t') := compact ok d t in (Dropped l, t')
  end.
Fixpoint run (ops : list op) (t : timers) : list answer * timers :=
  match ops with
  | [] => ([], t)
  | o :: ops' => let '(a, t1) := run_op o t in let '(l, t2) := run ops' t1 in (a :: l, t2)
  end.

(** [q] and [q'] are bags of entries.  A pushed entry is behind every entry there is with the
    same deadline; what is popped is before everything that stays; compacting drops exactly
    what it is told to, or nothing when there is no memory. *)
Inductive pqueue : op → list entry → answer → list entry → Prop :=
  | pq_push ok w s h q q' : q' ≡ₚ Entry w s h :: q → Forall (λ e, seq e < s)%nat q → pqueue (TPush ok w h) q Done q'
  | pq_push_oom w h q : pqueue (TPush false w h) q OutOfMemory q
  | pq_pop e q q' : q ≡ₚ e :: q' → Forall (λ e', before e e' = true) q' → pqueue TPop q (Popped (Some e)) q'
  | pq_pop_empty : pqueue TPop [] (Popped None) []
  | pq_compact d q q' : q' ≡ₚ filter (λ e, d (handle e) = false) q →
      pqueue (TCompact true d) q (Dropped (handle <$> filter (λ e, d (handle e) = true) q)) q'
  | pq_compact_oom d q : pqueue (TCompact false d) q (Dropped []) q.
Inductive pqueues : list op → list entry → list answer → list entry → Prop :=
  | pqueues_nil q : pqueues [] q [] q
  | pqueues_cons o ops a l q q1 q2 : pqueue o q a q1 → pqueues ops q1 l q2 → pqueues (o :: ops) q (a :: l) q2.

(** No deadline is NaN. *)
Definition sound (o : op) : Prop := match o with TPush _ w _ => is_nan w = false | _ => True end.

Lemma run_op_pqueue o t : wf t → sound o →
  wf (run_op o t).2 ∧ pqueue o (items t) (run_op o t).1 (items (run_op o t).2).
Proof.
  intros Hw Ho. destruct o as [ok w h| |ok d]; cbn [run_op].
  - assert (H := push_spec ok w h t Hw Ho). destruct (push ok w h t); cbn.
    + destruct H as (? & HP & _). split; [done|]. eapply pq_push; [done|].
      eapply Forall_impl; [apply (wf_last _ Hw)|]. cbn. intros; lia.
    + subst ok. split; [done|constructor].
  - assert (H := pop_spec t Hw). destruct (pop t) as [[e t']|]; cbn.
    + destruct H as (? & ? & _ & ? & _). split; [done|]. by constructor.
    + rewrite H. split; [done|constructor].
  - assert (H := compact_spec ok d t Hw). destruct (compact ok d t) as [l t']. cbn. destruct ok.
    + destruct H as (? & -> & ? & _). split; [done|]. by constructor.
    + destruct H as [-> ->]. split; [done|constructor].
Qed.

Lemma run_pqueues ops t : wf t → Forall sound ops →
  wf (run ops t).2 ∧ pqueues ops (items t) (run ops t).1 (items (run ops t).2).
Proof.
  intros Hw Ho. revert t Hw. induction Ho as [|o ops Ho _ IH]; intros t Hw; cbn [run]; [by split; [|constructor]|].
  destruct (run_op_pqueue o t Hw Ho) as [H1 H2]. destruct (run_op o t) as [a t1]. specialize (IH t1 H1).
  destruct (run ops t1) as [l t2]. destruct IH as [? IH]. split; [done|]. by econstructor.
Qed.

(** C27: A loop's heap answers every sequence of insertions, removals and compactions as a priority
    queue does, as long as no deadline is NaN; only a failed allocation makes an insertion or a
    compaction fail, and then it changes nothing. *)
Theorem timers_refine_pqueue ops : Forall sound ops →
  let '(l, t) := run ops empty in wf t ∧ pqueues ops [] l (items t).
Proof.
  intros Ho. assert (H := run_pqueues ops empty empty_wf Ho). by destruct (run ops empty).
Qed.
Lemma timers_refine_pqueue_witness :
  let ops := [TPush true (f64_of_Z 5) 0; TPush true (f64_of_Z 3) 1; TPush true (f64_of_Z 5) 2;
              TCompact true (λ h, bool_decide (h = 0%nat)); TPop; TPop; TPop] in
  Forall sound ops ∧ let '(l, t) := run ops empty in wf t ∧ pqueues ops [] l (items t).
Proof. cbn zeta. split; [repeat constructor|]. apply timers_refine_pqueue. repeat constructor. Defined.

(** Taking everything out. *)
Fixpoint drain (fuel : nat) (t : timers) : list entry :=
  match fuel with
  | O => []
  | S fuel' => match pop t with Some (e, t') => e :: drain fuel' t' | None => [] end
  end.
(** Popping until nothing is left gives every timer once, sorted by deadline and, among equal
    deadlines, in the order they were added. *)
Theorem drain_sorts t : wf t →
  drain (length (items t)) t ≡ₚ items t ∧ StronglySorted (λ a b, before a b = true) (drain (length (items t)) t).
Proof.
  remember (length (items t)) as n eqn:Hn. revert t Hn. induction n as [|n IH]; intros t Hn Hw; cbn [drain].
  { split; [|constructor]. destruct (items t); [done|discriminate]. }
  assert (H := pop_spec t Hw). destruct (pop t) as [[e t']|]; [|by rewrite H in Hn].
  destruct H as (Hw' & HP & _ & Hall & _). assert (Hl : length (items t) = S (length (items t'))) by (by rewrite HP).
  destruct (IH t') as [IH1 IH2]; [lia|done|]. split; [by rewrite IH1|]. constructor; [done|].
  by rewrite IH1.
Qed.
Lemma drain_sorts_witness :
  let t := (run [TPush true (f64_of_Z 5) 0; TPush true (f64_of_Z 3) 1; TPush true (f64_of_Z 5) 2] empty).2 in
  drain (length (items t)) t ≡ₚ items t ∧ StronglySorted (λ a b, before a b = true) (drain (length (items t)) t).
Proof.
  cbn zeta. apply drain_sorts. apply run_pqueues; [apply empty_wf|repeat constructor].
Defined.

(** A deadline that is NaN, which [call_at] takes, breaks the order: what was added under it
    stays behind later timers. *)
Example nan_hides_timer :
  let t := (run [TPush true (f64_of_Z 1) 0; TPush true S754_nan 1; TPush true (f64_of_Z 2) 2;
                 TPush true (f64_of_Z 0) 3] empty).2 in
  handle <$> drain 4 t ≠ [3%nat; 0%nat; 2%nat; 1%nat] ∧ (handle <$> peek t) = Some 0%nat.
Proof. by vm_compute. Qed.
End Timers.
