(* ===== verification/Scheduler.v ===== *)
(** * The scheduler (zig/loop.zig, zig/handle.zig, zig/timer.zig)

    The queue of ready callbacks, the inbox other threads schedule into, the heap of timers,
    and the libuv callbacks that move between them and run what is ready.  What a callback
    does is the environment's: operations on the loop, its own and those of whoever runs
    meanwhile, and how it ends.  Proved: callbacks run once each, in the order they were
    scheduled, whichever thread scheduled them; nothing runs once it is cancelled; a timer is
    never early and never forgotten; nothing is left without a libuv handle that will run it;
    and one turn of the loop is bounded. *)
From Stdlib Require Import SpecFloat.
From S2P Require Import Prelude Clock Queue Heap.

(** ** The state *)
Inductive hkind := HSoon | HTimer | HThreadSafe.
#[export] Instance hkind_eq_dec : EqDecision hkind.
Proof. solve_decision. Defined.

(** A handle: the callback, a timer's deadline, the flags.  [h_pending] is a thread-safe
    handle's run state: not run yet, nor cancelled before it could. *)
Record hnd := Hnd { h_kind : hkind; h_cb : nat; h_when : f64; h_cancelled : bool;
  h_pending : bool; h_in_heap : bool; h_scheduled : bool }.
Definition set_cancelled (x : hnd) : hnd :=
  Hnd (h_kind x) (h_cb x) (h_when x) true (h_pending x) (h_in_heap x) (h_scheduled x).
Definition set_done (x : hnd) : hnd :=
  Hnd (h_kind x) (h_cb x) (h_when x) (h_cancelled x) false (h_in_heap x) (h_scheduled x).
(** [markReady] and [clearScheduled]. *)
Definition markReady (x : hnd) : hnd :=
  Hnd (h_kind x) (h_cb x) (h_when x) (h_cancelled x) (h_pending x) false (h_scheduled x).
Definition clearScheduled (x : hnd) : hnd :=
  Hnd (h_kind x) (h_cb x) (h_when x) (h_cancelled x) (h_pending x) false false.

(** [external_handles], [closing_handles], and whether there are resolver requests and
    unsent writes. *)
Record native_side := NativeSide { external_handles : nat; closing_handles : nat; dns_requests : bool; flush_head : bool }.

(** Scheduled by [call_soon] or [call_soon_threadsafe]; scheduled as a timer; taken off the
    ready queue; called; cancelled; a cancelled timer dropped from the heap; a due timer lost
    for want of memory; a failure reported; a slow callback reported. *)
Inductive event :=
  | EvSched (h : nat) | EvTimer (h : nat) | EvPop (timer : bool) (h : nat) | EvCall (h : nat)
  | EvCancel (h : nat) | EvRetired (h : nat) | EvLost (h : nat) | EvReport (h : nat) (e : exn)
  | EvSlow (h : nat) (elapsed : f64).

Record state := State {
  s_ready : Ready.ready nat;   (* callbacks ready to run *)
  s_inbox : Ready.ready nat;   (* [threadsafe_ready]: scheduled from any thread, not yet taken over *)
  s_timers : Timers.timers;   (* [timers] *)
  s_handles : gmap nat hnd;   (* the handles there are *)
  s_closed : bool;
  s_running : bool;
  s_stopping : bool;
  s_idle : bool;   (* [idle_active] *)
  s_waker : bool;   (* [waker_pending] *)
  s_armed : option (f64 * Z);   (* [timer_active]: the deadline libuv's timer was set for, in milliseconds from then *)
  s_fatal : option exn;
  s_native : native_side;   (* what the drain looks at of the native side *)
  s_monitor : option f64;   (* [slow_callback_duration] while slow callbacks are looked for *)
  s_iterations : nat;
  s_callbacks_run : nat;
  s_tick : nat;   (* environment questions asked so far *)
  s_log : list event   (* what has happened, oldest first *) }.

Definition upd_ready (f : (Ready.ready nat) → (Ready.ready nat)) (s : state) : state :=
  State (f (s_ready s)) (s_inbox s) (s_timers s) (s_handles s) (s_closed s) (s_running s) (s_stopping s) (s_idle s) (s_waker s) (s_armed s) (s_fatal s) (s_native s) (s_monitor s) (s_iterations s) (s_callbacks_run s) (s_tick s) (s_log s).
Definition upd_inbox (f : (Ready.ready nat) → (Ready.ready nat)) (s : state) : state :=
  State (s_ready s) (f (s_inbox s)) (s_timers s) (s_handles s) (s_closed s) (s_running s) (s_stopping s) (s_idle s) (s_waker s) (s_armed s) (s_fatal s) (s_native s) (s_monitor s) (s_iterations s) (s_callbacks_run s) (s_tick s) (s_log s).
Definition upd_timers (f : Timers.timers → Timers.timers) (s : state) : state :=
  State (s_ready s) (s_inbox s) (f (s_timers s)) (s_handles s) (s_closed s) (s_running s) (s_stopping s) (s_idle s) (s_waker s) (s_armed s) (s_fatal s) (s_native s) (s_monitor s) (s_iterations s) (s_callbacks_run s) (s_tick s) (s_log s).
Definition upd_handles (f : (gmap nat hnd) → (gmap nat hnd)) (s : state) : state :=
  State (s_ready s) (s_inbox s) (s_timers s) (f (s_handles s)) (s_closed s) (s_running s) (s_stopping s) (s_idle s) (s_waker s) (s_armed s) (s_fatal s) (s_native s) (s_monitor s) (s_iterations s) (s_callbacks_run s) (s_tick s) (s_log s).
Definition upd_closed (f : bool → bool) (s : state) : state :=
  State (s_ready s) (s_inbox s) (s_timers s) (s_handles s) (f (s_closed s)) (s_running s) (s_stopping s) (s_idle s) (s_waker s) (s_armed s) (s_fatal s) (s_native s) (s_monitor s) (s_iterations s) (s_callbacks_run s) (s_tick s) (s_log s).
Definition upd_running (f : bool → bool) (s : state) : state :=
  State (s_ready s) (s_inbox s) (s_timers s) (s_handles s) (s_closed s) (f (s_running s)) (s_stopping s) (s_idle s) (s_waker s) (s_armed s) (s_fatal s) (s_native s) (s_monitor s) (s_iterations s) (s_callbacks_run s) (s_tick s) (s_log s).
Definition upd_stopping (f : bool → bool) (s : state) : state :=
  State (s_ready s) (s_inbox s) (s_timers s) (s_handles s) (s_closed s) (s_running s) (f (s_stopping s)) (s_idle s) (s_waker s) (s_armed s) (s_fatal s) (s_native s) (s_monitor s) (s_iterations s) (s_callbacks_run s) (s_tick s) (s_log s).
Definition upd_idle (f : bool → bool) (s : state) : state :=
  State (s_ready s) (s_inbox s) (s_timers s) (s_handles s) (s_closed s) (s_running s) (s_stopping s) (f (s_idle s)) (s_waker s) (s_armed s) (s_fatal s) (s_native s) (s_monitor s) (s_iterations s) (s_callbacks_run s) (s_tick s) (s_log s).
Definition upd_waker (f : bool → bool) (s : state) : state :=
  State (s_ready s) (s_inbox s) (s_timers s) (s_handles s) (s_closed s) (s_running s) (s_stopping s) (s_idle s) (f (s_waker s)) (s_armed s) (s_fatal s) (s_native s) (s_monitor s) (s_iterations s) (s_callbacks_run s) (s_tick s) (s_log s).
Definition upd_armed (f : (option (f64 * Z)) → (option (f64 * Z))) (s : state) : state :=
  State (s_ready s) (s_inbox s) (s_timers s) (s_handles s) (s_closed s) (s_running s) (s_stopping s) (s_idle s) (s_waker s) (f (s_armed s)) (s_fatal s) (s_native s) (s_monitor s) (s_iterations s) (s_callbacks_run s) (s_tick s) (s_log s).
Definition upd_fatal (f : (option exn) → (option exn)) (s : state) : state :=
  State (s_ready s) (s_inbox s) (s_timers s) (s_handles s) (s_closed s) (s_running s) (s_stopping s) (s_idle s) (s_waker s) (s_armed s) (f (s_fatal s)) (s_native s) (s_monitor s) (s_iterations s) (s_callbacks_run s) (s_tick s) (s_log s).
Definition upd_native (f : native_side → native_side) (s : state) : state :=
  State (s_ready s) (s_inbox s) (s_timers s) (s_handles s) (s_closed s) (s_running s) (s_stopping s) (s_idle s) (s_waker s) (s_armed s) (s_fatal s) (f (s_native s)) (s_monitor s) (s_iterations s) (s_callbacks_run s) (s_tick s) (s_log s).
Definition upd_monitor (f : (option f64) → (option f64)) (s : state) : state :=
  State (s_ready s) (s_inbox s) (s_timers s) (s_handles s) (s_closed s) (s_running s) (s_stopping s) (s_idle s) (s_waker s) (s_armed s) (s_fatal s) (s_native s) (f (s_monitor s)) (s_iterations s) (s_callbacks_run s) (s_tick s) (s_log s).
Definition upd_iterations (f : nat → nat) (s : state) : state :=
  State (s_ready s) (s_inbox s) (s_timers s) (s_handles s) (s_closed s) (s_running s) (s_stopping s) (s_idle s) (s_waker s) (s_armed s) (s_fatal s) (s_native s) (s_monitor s) (f (s_iterations s)) (s_callbacks_run s) (s_tick s) (s_log s).
Definition upd_callbacks_run (f : nat → nat) (s : state) : state :=
  State (s_ready s) (s_inbox s) (s_timers s) (s_handles s) (s_closed s) (s_running s) (s_stopping s) (s_idle s) (s_waker s) (s_armed s) (s_fatal s) (s_native s) (s_monitor s) (s_iterations s) (f (s_callbacks_run s)) (s_tick s) (s_log s).
Definition upd_tick (f : nat → nat) (s : state) : state :=
  State (s_ready s) (s_inbox s) (s_timers s) (s_handles s) (s_closed s) (s_running s) (s_stopping s) (s_idle s) (s_waker s) (s_armed s) (s_fatal s) (s_native s) (s_monitor s) (s_iterations s) (s_callbacks_run s) (f (s_tick s)) (s_log s).
Definition upd_log (f : (list event) → (list event)) (s : state) : state :=
  State (s_ready s) (s_inbox s) (s_timers s) (s_handles s) (s_closed s) (s_running s) (s_stopping s) (s_idle s) (s_waker s) (s_armed s) (s_fatal s) (s_native s) (s_monitor s) (s_iterations s) (s_callbacks_run s) (s_tick s) (f (s_log s)).

Definition init (n : native_side) (monitor : option f64) : state :=
  State Ready.empty Ready.empty Timers.empty ∅ false false false false false None None n monitor 0 0 0 [].

(** ** The environment *)

(** What Python code does to the loop. *)
Inductive lop :=
  | LSoon (cb : nat) | LThreadsafe (cb : nat) | LLater (delay : f64) (cb : nat) | LAt (w : f64) (cb : nat)
  | LCancel (h : nat) | LStop | LNative (n : native_side).

(** The clocks, the allocator, and the program: what happens while a callback runs and how it
    ends, while [call_exception_handler] runs, and while [_on_slow_callback] does. *)
Class LoopEnv := {
  clock_ns : nat → Z;
  hrtime : nat → Z;
  allocates : nat → bool;
  body : nat → nat → list lop * option exn;
  handler : nat → list lop;
  slow_hook : nat → list lop }.

Section scheduler.
Context `{Env : LoopEnv}.

Definition ask : M state nat := t <- gets s_tick ;; modify (upd_tick S) ;; ret t.
Definition log (e : event) : M state unit := modify (upd_log (λ l, l ++ [e])).
Definition now : M state f64 := t <- ask ;; ret (now_of (clock_ns t)).
Definition alloc : M state bool := t <- ask ;; ret (allocates t).
Definition no_memory : exn := mk MemoryError "".

Definition checkClosed : M state unit :=
  c <- gets s_closed ;; if (c : bool) then raise (mk RuntimeError "Event loop is closed") else ret tt.
Definition startIdle : M state unit :=
  modify (λ s, if negb (s_idle s) && bool_decide (Ready.len (s_ready s) ≠ 0%nat) then upd_idle (λ _, true) s else s).
Definition upd_handle (f : hnd → hnd) (h : nat) : M state unit := modify (upd_handles (alter f h)).
Definition isCancelled (h : nat) : M state bool :=
  gets (λ s, match s_handles s !! h with Some x => h_cancelled x | None => false end).

(** A new handle; one that is not scheduled in the end is freed. *)
Definition create (k : hkind) (cb : nat) (w : f64) : M state nat :=
  ok <- alloc ;; if negb ok then raise no_memory else
  h <- gets (λ s, fresh (dom (s_handles s))) ;;
  let timer := bool_decide (k = HTimer) in
  modify (upd_handles (<[h := Hnd k cb w false true timer timer]>)) ;; ret h.
Definition or_free (h : nat) (m : M state unit) : M state unit :=
  catch m (λ e, modify (upd_handles (delete h)) ;; raise e).

Definition push_ready (h : nat) : M state unit :=
  ok <- alloc ;; r <- gets s_ready ;;
  match Ready.push ok h r with Some r' => modify (upd_ready (λ _, r')) | None => raise no_memory end.

(** [while (threadsafe_ready.pop()) |handle| ready.pushAssumeCapacity(handle)]. *)
Fixpoint move_all (fuel : nat) (from to : Ready.ready nat) : Ready.ready nat * Ready.ready nat :=
  match fuel with
  | O => (from, to)
  | S fuel' =>
      match Ready.pop from with
      | Some (h, from') => move_all fuel' from' (Ready.pushAssumeCapacity h to)
      | None => (from, to)
      end
  end.
Definition drainThreadsafe : M state unit :=
  ok <- alloc ;; r <- gets s_ready ;; i <- gets s_inbox ;;
  match Ready.ensureUnusedCapacity ok (Ready.len i) r with
  | None => raise no_memory
  | Some r' =>
      let '(i', r'') := move_all (Ready.len i) i r' in
      modify (upd_inbox (λ _, i')) ;; modify (upd_ready (λ _, r''))
  end.

Definition scheduleSoon (cb : nat) : M state unit :=
  h <- create HSoon cb fzero ;;
  or_free h (checkClosed ;; drainThreadsafe ;; push_ready h ;; log (EvSched h) ;; startIdle).

Definition callSoonThreadsafe (cb : nat) : M state unit :=
  checkClosed ;;
  h <- create HThreadSafe cb fzero ;;
  or_free h
    (ok <- alloc ;; i <- gets s_inbox ;;
     match Ready.push ok h i with Some i' => modify (upd_inbox (λ _, i')) | None => raise no_memory end) ;;
  log (EvSched h) ;; modify (upd_waker (λ _, true)).

(** ** Timers *)

(** A timer popped off the heap. *)
Definition pop_timer (e : Timers.entry) (t' : Timers.timers) : M state unit :=
  modify (upd_timers (λ _, t')) ;; upd_handle clearScheduled (Timers.handle e).
(** ... that turns out to be cancelled. *)
Definition retire (e : Timers.entry) : M state unit :=
  log (EvRetired (Timers.handle e)) ;;
  modify (upd_timers (Timers.with_cancelled (λ n, if decide (n = 0)%nat then n else n - 1)%nat)).

Fixpoint drop_cancelled (fuel : nat) : M state unit :=
  match fuel with
  | O => ret tt
  | S fuel' =>
      t <- gets s_timers ;;
      match Timers.pop t with
      | None => ret tt
      | Some (e, t') =>
          c <- isCancelled (Timers.handle e) ;;
          if negb c then ret tt else pop_timer e t' ;; retire e ;; drop_cancelled fuel'
      end
  end.
Definition armTimer : M state unit :=
  n <- gets (λ s, length (Timers.items (s_timers s))) ;;
  drop_cancelled n ;;
  t <- gets s_timers ;;
  match Timers.peek t with
  | None => modify (upd_armed (λ _, None))
  | Some e =>
      t0 <- now ;;
      match timerMilliseconds (f64_sub (Timers.when e) t0) (f64_of_Z 1) with
      | Some ms => modify (upd_armed (λ _, Some (Timers.when e, ms)))
      | None => raise (mk ModelFuel "the cast trapped")
      end
  end.

Definition captureFatal (e : exn) : M state unit :=
  modify (upd_fatal (λ f, match f with None => Some e | Some _ => f end)) ;; modify (upd_stopping (λ _, true)).

(** The loop of [collectDueTimers]: whether it ran to its end. *)
Fixpoint collect (fuel : nat) (deadline : f64) : M state bool :=
  match fuel with
  | O => ret true
  | S fuel' =>
      t <- gets s_timers ;;
      match Timers.pop t with
      | None => ret true
      | Some (e, t') =>
          if flt deadline (Timers.when e) then ret true else
          pop_timer e t' ;;
          c <- isCancelled (Timers.handle e) ;;
          if (c : bool) then retire e ;; collect fuel' deadline else
          catch_else (push_ready (Timers.handle e))
            (λ _, captureFatal no_memory ;; log (EvLost (Timers.handle e)) ;; ret false)
            (λ _, collect fuel' deadline)
      end
  end.
Definition collectDueTimers : M state unit :=
  deadline <- now ;; n <- gets (λ s, length (Timers.items (s_timers s))) ;;
  done_ <- collect n deadline ;; when_ done_ startIdle.

Definition scheduleAt (w : f64) (already_due : bool) (cb : nat) : M state unit :=
  checkClosed ;;
  h <- create HTimer cb w ;;
  t <- gets s_timers ;;
  let can_bypass_heap := match Timers.peek t with Some e => flt w (Timers.when e) | None => true end in
  if already_due && can_bypass_heap then
    upd_handle markReady h ;; or_free h (push_ready h) ;; log (EvTimer h) ;; startIdle
  else
    or_free h
      (ok <- alloc ;;
       match Timers.push ok w h t with Some t' => modify (upd_timers (λ _, t')) | None => raise no_memory end) ;;
    log (EvTimer h) ;; armTimer.
Definition callLater (delay : f64) (cb : nat) : M state unit :=
  t <- now ;; scheduleAt (f64_add t (max0 delay)) (fle delay fzero) cb.
Definition callAt (w : f64) (cb : nat) : M state unit :=
  t <- now ;; scheduleAt w (fle w t) cb.

(** ** Cancelling *)
Definition min_cancelled_timers : nat := 100.
(** [retireIfCancelled] on each entry, and what is released. *)
Definition compact_timers : M state unit :=
  ok <- alloc ;; s <- gets id ;;
  let '(doomed, t') := Timers.compact ok (λ h, match s_handles s !! h with Some x => h_cancelled x | None => false end) (s_timers s) in
  modify (upd_timers (λ _, t')) ;;
  for_each doomed (λ h, upd_handle clearScheduled h ;; log (EvRetired h)).
Definition noteTimerCancelled : M state unit :=
  modify (upd_timers (Timers.with_cancelled S)) ;;
  t <- gets s_timers ;;
  when_ (bool_decide (min_cancelled_timers < Timers.cancelled t ∧ length (Timers.items t) < Timers.cancelled t * 2)%nat)
    (compact_timers ;; armTimer).
(** [Handle.cancel], [TimerHandle.cancel] and, on the loop's thread, [ThreadSafeHandle.cancel]. *)
Definition cancel (h : nat) : M state unit :=
  x <- gets (λ s, s_handles s !! h) ;;
  match x with
  | None => ret tt
  | Some x =>
      if h_cancelled x then ret tt else
      upd_handle set_cancelled h ;; log (EvCancel h) ;;
      match h_kind x with
      | HSoon => ret tt
      | HThreadSafe => upd_handle set_done h
      | HTimer => when_ (h_in_heap x) noteTimerCancelled
      end
  end.

Definition stop : M state unit := modify (upd_stopping (λ _, true)).

(** An operation of Python code; what it raises is up to that code. *)
Definition run_lop (o : lop) : M state unit :=
  match o with
  | LSoon cb => scheduleSoon cb
  | LThreadsafe cb => callSoonThreadsafe cb
  | LLater d cb => callLater d cb
  | LAt w cb => callAt w cb
  | LCancel h => cancel h
  | LStop => stop
  | LNative n => modify (upd_native (λ _, n))
  end.
Definition run_lops (l : list lop) : M state unit := for_each l (λ o, capture (run_lop o) ;; ret tt).

(** ** Running callbacks *)
Definition callbackFailed (h : nat) (e : exn) : M state unit :=
  if isinstance e SystemExit || isinstance e KeyboardInterrupt then captureFatal e
  else log (EvReport h e) ;; t <- ask ;; run_lops (handler t).
Definition invoke (h : nat) (cb : nat) : M state unit :=
  log (EvCall h) ;; t <- ask ;;
  let '(ops, out) := body cb t in
  run_lops ops ;;
  match out with Some e => callbackFailed h e | None => ret tt end.
Definition runOne (h : nat) : M state unit :=
  x <- gets (λ s, s_handles s !! h) ;;
  match x with
  | None => ret tt
  | Some x =>
      match h_kind x with
      | HTimer => upd_handle clearScheduled h ;; if h_cancelled x then ret tt else invoke h (h_cb x)
      | HThreadSafe => if negb (h_pending x) then ret tt else upd_handle set_done h ;; invoke h (h_cb x)
      | HSoon => if h_cancelled x then ret tt else invoke h (h_cb x)
      end
  end.
Definition reportSlowCallback (h : nat) (elapsed : f64) : M state unit :=
  log (EvSlow h elapsed) ;; t <- ask ;; run_lops (slow_hook t).
Definition run_timed (h : nat) : M state unit :=
  d <- gets s_monitor ;;
  match d with
  | None => runOne h
  | Some d =>
      t <- ask ;; runOne h ;; t' <- ask ;;
      let elapsed := now_of (hrtime t' - hrtime t) in
      when_ (flt d elapsed) (reportSlowCallback h elapsed)
  end.
(** The kind of a queued handle, for the log. *)
Definition is_timer (s : state) (h : nat) : bool :=
  match s_handles s !! h with Some x => bool_decide (h_kind x = HTimer) | None => false end.
Fixpoint run_batch (remaining : nat) : M state unit :=
  match remaining with
  | O => ret tt
  | S remaining' =>
      r <- gets s_ready ;;
      match Ready.pop r with
      | None => ret tt
      | Some (h, r') =>
          modify (upd_ready (λ _, r')) ;; k <- gets (λ s, is_timer s h) ;; log (EvPop k h) ;;
          run_timed h ;; run_batch remaining'
      end
  end.
Definition runReady : M state unit :=
  modify (upd_iterations S) ;;
  n <- gets (λ s, Ready.len (s_ready s)) ;;
  modify (upd_callbacks_run (λ k, k + n)%nat) ;; run_batch n.

(** ** libuv's callbacks *)
Definition ready_drain_batch_limit : nat := 64.
Definition ready_drain_io_batch_limit : nat := 256.
Definition ready_drain_io_time_limit_ns : Z := 25 * 1000.
Definition ready_drain_callback_limit : nat := Z.to_nat (16 * 1024).

Definition may_drain (s : state) (batches callbacks : nat) : bool :=
  let batch := Ready.len (s_ready s) in
  let has_io := bool_decide (1 < external_handles (s_native s))%nat in
  let batch_limit := if has_io then ready_drain_io_batch_limit else ready_drain_batch_limit in
  bool_decide (batches = 0)%nat ||
  negb (bool_decide (batch_limit ≤ batches)%nat || bool_decide (ready_drain_callback_limit ≤ callbacks)%nat ||
        bool_decide (ready_drain_callback_limit - callbacks < batch)%nat || (has_io && negb (bool_decide (batch = 1)%nat))).
(** After a batch: is there something else to turn to? *)
Definition must_yield (s : state) : bool :=
  s_stopping s || bool_decide (is_Some (s_fatal s)) || bool_decide (Ready.len (s_ready s) = 0)%nat ||
  bool_decide (is_Some (s_armed s)) || dns_requests (s_native s) || flush_head (s_native s) ||
  bool_decide (closing_handles (s_native s) ≠ 0)%nat.
Fixpoint drain_loop (fuel batches callbacks : nat) (started : Z) : M state unit :=
  match fuel with
  | O => raise (mk ModelFuel "")
  | S fuel' =>
      s <- gets id ;;
      let batch := Ready.len (s_ready s) in
      if bool_decide (batch = 0)%nat || negb (may_drain s batches callbacks) then ret tt else
      runReady ;;
      s' <- gets id ;;
      if must_yield s' then ret tt else
      if bool_decide (1 < external_handles (s_native s'))%nat then
        t <- ask ;;
        if negb (bool_decide (batch = 1)%nat) || (ready_drain_io_time_limit_ns <=? hrtime t - started) then ret tt
        else drain_loop fuel' (S batches) (callbacks + batch) started
      else drain_loop fuel' (S batches) (callbacks + batch) started
  end.
Definition onIdle : M state unit :=
  t <- ask ;;
  drain_loop (S ready_drain_io_batch_limit) 0 0 (hrtime t) ;;
  modify (λ s, if bool_decide (Ready.len (s_ready s) = 0%nat) then upd_idle (λ _, false) s else s).

Definition onTimer : M state unit :=
  modify (upd_armed (λ _, None)) ;; collectDueTimers ;; armTimer.
Definition onWake : M state unit :=
  modify (upd_waker (λ _, false)) ;;
  catch_else drainThreadsafe (λ _, captureFatal no_memory) (λ _, startIdle).

(** [_run] up to [uv_run], and from there. *)
Definition run_enter : M state unit :=
  checkClosed ;;
  r <- gets s_running ;;
  if (r : bool) then raise (mk RuntimeError "This event loop is already running") else
  modify (upd_running (λ _, true)) ;; modify (upd_stopping (λ _, false)) ;; startIdle ;; armTimer.
Definition run_leave : M state unit :=
  modify (upd_running (λ _, false)) ;; modify (upd_stopping (λ _, false)) ;;
  f <- gets s_fatal ;;
  match f with Some e => modify (upd_fatal (λ _, None)) ;; raise e | None => ret tt end.
Definition closeLoop : M state unit :=
  r <- gets s_running ;;
  if (r : bool) then raise (mk RuntimeError "Cannot close a running event loop") else
  c <- gets s_closed ;;
  if (c : bool) then ret tt else
  modify (upd_closed (λ _, true)) ;;
  modify (upd_ready (λ _, Ready.empty)) ;; modify (upd_inbox (λ _, Ready.empty)) ;;
  modify (upd_timers (λ _, Timers.empty)) ;; modify (upd_fatal (λ _, None)) ;;
  modify (upd_idle (λ _, false)) ;; modify (upd_armed (λ _, None)).
End scheduler.
