(* ===== verification/SchedInv.v ===== *)
(** * What a loop owes its callbacks (zig/loop.zig)

    The invariant of the scheduler of Scheduler, and that every operation, every libuv
    callback and whatever the callbacks do keeps it. *)
From Stdlib Require Import SpecFloat.
From S2P Require Import Prelude Clock Queue Heap Scheduler.

(** ** Reading the log *)
Definition sched_of (e : event) : option nat := match e with EvSched h => Some h | _ => None end.
Definition timed_of (e : event) : option nat := match e with EvTimer h => Some h | _ => None end.
Definition popped_of (b : bool) (e : event) : option nat :=
  match e with EvPop b' h => if Bool.eqb b b' then Some h else None | _ => None end.
Definition pop_of (e : event) : option nat := match e with EvPop _ h => Some h | _ => None end.
Definition call_of (e : event) : option nat := match e with EvCall h => Some h | _ => None end.
Definition gone_of (e : event) : option nat :=
  match e with EvRetired h | EvLost h => Some h | _ => None end.
Definition retired_of (e : event) : option nat := match e with EvRetired h => Some h | _ => None end.
Abbreviation sched := (omap sched_of).
Abbreviation timed := (omap timed_of).
Abbreviation popped b := (omap (popped_of b)).
Abbreviation pops := (omap pop_of).
Abbreviation calls := (omap call_of).
Abbreviation gone := (omap gone_of).

(** Once cancelled, never called. *)
Definition no_call_after_cancel (l : list event) : Prop :=
  ∀ l1 l2 h, l = l1 ++ EvCancel h :: l2 → EvCall h ∉ l2.

(** Whether a handle is a timer. *)
Definition kind_of (hs : gmap nat hnd) (h : nat) : option bool :=
  (λ x, bool_decide (h_kind x = HTimer)) <$> hs !! h.
Definition is_cancelled (hs : gmap nat hnd) (h : nat) : bool :=
  match hs !! h with Some x => h_cancelled x | None => false end.
Definition in_heap (s : state) : list nat := Timers.handle <$> Timers.items (s_timers s).
Definition queued (b : bool) (s : state) : list nat :=
  filter (λ h, kind_of (s_handles s) h = Some b) (Ready.contents (s_ready s)).

Record inv (s : state) : Prop := {
  iv_ready : Ready.wf (s_ready s);
  iv_inbox : Ready.wf (s_inbox s);
  iv_timers : Timers.wf (s_timers s);
  iv_closed : s_closed s = true →
    Ready.contents (s_ready s) = [] ∧ Ready.contents (s_inbox s) = [] ∧ Timers.items (s_timers s) = [];
  iv_sched : ∀ h, h ∈ sched (s_log s) → kind_of (s_handles s) h = Some false;
  iv_timed : ∀ h, h ∈ timed (s_log s) → kind_of (s_handles s) h = Some true;
  iv_nodup : NoDup (sched (s_log s)) ∧ NoDup (timed (s_log s));
  iv_order : s_closed s = false →
    popped false (s_log s) ++ queued false s ++ Ready.contents (s_inbox s) = sched (s_log s);
  iv_all : s_closed s = false →
    popped true (s_log s) ++ queued true s ++ in_heap s ++ gone (s_log s) ≡ₚ timed (s_log s);
  iv_known : ∀ h, h ∈ Ready.contents (s_ready s) → is_Some (kind_of (s_handles s) h);
  iv_heap : s_closed s = false → ∀ h x, s_handles s !! h = Some x → (h_in_heap x = true ↔ h ∈ in_heap s);
  iv_when : ∀ e, e ∈ Timers.items (s_timers s) → h_when <$> s_handles s !! Timers.handle e = Some (Timers.when e);
  iv_count : s_closed s = false →
    Timers.cancelled (s_timers s) = length (filter (λ h, is_cancelled (s_handles s) h = true) (in_heap s));
  iv_cancelled : ∀ h, EvCancel h ∈ s_log s → is_cancelled (s_handles s) h = true;
  iv_retired : ∀ h, h ∈ omap retired_of (s_log s) → is_cancelled (s_handles s) h = true;
  iv_threadsafe : ∀ h x, s_handles s !! h = Some x → h_kind x = HThreadSafe → h_cancelled x = true → h_pending x = false;
  iv_once : calls (s_log s) `sublist_of` pops (s_log s);
  iv_calls : no_call_after_cancel (s_log s) }.

(** What the invariant is about. *)
Definition core (s : state) :=
  (s_ready s, s_inbox s, s_timers s, s_handles s, s_closed s, s_log s).
Lemma inv_core s s' : core s = core s' → inv s → inv s'.
Proof.
  intros E. injection E as E1 E2 E3 E4 E5 E6. destruct s, s'. cbn in *. subst. intros []. by split.
Qed.

Lemma no_call_snoc l e :
  no_call_after_cancel l → (∀ h, e = EvCall h → EvCancel h ∉ l) → no_call_after_cancel (l ++ [e]).
Proof.
  intros H He l1 l2 h E. destruct l2 as [|e2 l2 _] using rev_ind; [apply not_elem_of_nil|].
  change (l1 ++ EvCancel h :: l2 ++ [e2]) with (l1 ++ (EvCancel h :: l2) ++ [e2]) in E.
  rewrite app_assoc in E. apply app_inj_tail in E as [E ->]. rewrite elem_of_app, list_elem_of_singleton.
  intros [Hc|Hc]; [by apply (H _ _ _ E)|]. symmetry in Hc. apply (He _ Hc). rewrite E. set_solver.
Qed.

Lemma filter_ext_in {A} (P Q : A → Prop) `{!∀ x, Decision (P x), !∀ x, Decision (Q x)} (l : list A) :
  (∀ x, x ∈ l → P x ↔ Q x) → filter P l = filter Q l.
Proof.
  induction l as [|x l IH]; intros Hl; [done|].
  rewrite !filter_cons, IH by (intros; apply Hl; by apply list_elem_of_further).
  assert (Hx := Hl x (list_elem_of_here _ _)). repeat case_decide; tauto.
Qed.
Lemma filter_all {A} (P : A → Prop) `{!∀ x, Decision (P x)} (l : list A) : (∀ x, x ∈ l → P x) → filter P l = l.
Proof.
  induction l as [|x l IH]; intros Hl; [done|]. rewrite filter_cons, decide_True by (apply Hl, list_elem_of_here).
  f_equal. apply IH. intros. by apply Hl, list_elem_of_further.
Qed.
Lemma filter_none {A} (P : A → Prop) `{!∀ x, Decision (P x)} (l : list A) : (∀ x, x ∈ l → ¬ P x) → filter P l = [].
Proof.
  induction l as [|x l IH]; intros Hl; [done|]. rewrite filter_cons, decide_False by (apply Hl, list_elem_of_here).
  apply IH. intros. by apply Hl, list_elem_of_further.
Qed.

(** ** Handles that keep their kind *)
Implicit Types (hs : gmap nat hnd) (h k : nat).
Definition keeps_kind (f : hnd → hnd) : Prop :=
  ∀ x, h_kind (f x) = h_kind x ∧ h_when (f x) = h_when x.
Lemma kind_alter f h hs k : keeps_kind f → kind_of (alter f h hs) k = kind_of hs k.
Proof.
  intros Hf. unfold kind_of. destruct (decide (h = k)) as [-> |]; [|by rewrite lookup_alter_ne].
  rewrite lookup_alter_eq. destruct (hs !! k) as [x|]; cbn; [|done]. by destruct (Hf x) as [-> _].
Qed.
Lemma when_alter f h hs k : keeps_kind f → h_when <$> alter f h hs !! k = h_when <$> hs !! k.
Proof.
  intros Hf. destruct (decide (h = k)) as [-> |]; [|by rewrite lookup_alter_ne].
  rewrite lookup_alter_eq. destruct (hs !! k) as [x|]; cbn; [|done]. by destruct (Hf x) as [_ ->].
Qed.
Lemma cancelled_alter f h hs k : (∀ x, h_cancelled (f x) = h_cancelled x) →
  is_cancelled (alter f h hs) k = is_cancelled hs k.
Proof.
  intros Hf. unfold is_cancelled. destruct (decide (h = k)) as [-> |]; [|by rewrite lookup_alter_ne].
  rewrite lookup_alter_eq. by destruct (hs !! k); cbn; rewrite ?Hf.
Qed.
Lemma alter_twice f g h hs : alter f h (alter g h hs) = alter (f ∘ g) h hs.
Proof.
  apply map_eq. intros k. destruct (decide (k = h)) as [-> |]; [|by rewrite !lookup_alter_ne].
  rewrite !lookup_alter_eq. by destruct (hs !! h).
Qed.
Lemma keeps_cancelled : keeps_kind set_cancelled. Proof. done. Qed.
Lemma keeps_done : keeps_kind set_done. Proof. done. Qed.
Lemma keeps_ready : keeps_kind markReady. Proof. done. Qed.
Lemma keeps_scheduled : keeps_kind clearScheduled. Proof. done. Qed.

(** ** One change at a time *)
Section changes.
Implicit Types (s : state) (x : hnd).

(** A handle nothing knows of yet. *)
Definition loose h s : Prop :=
  (h ∉ sched (s_log s)) ∧ (h ∉ timed (s_log s)) ∧ (h ∉ Ready.contents (s_ready s)) ∧ (h ∉ Ready.contents (s_inbox s)) ∧
  (h ∉ in_heap s) ∧ (EvCancel h ∉ s_log s) ∧ (h ∉ omap retired_of (s_log s)).

Lemma is_cancelled_none hs h : hs !! h = None → is_cancelled hs h = false.
Proof. unfold is_cancelled. by intros ->. Qed.
Lemma kind_is_Some hs h b : kind_of hs h = Some b → hs !! h ≠ None.
Proof. unfold kind_of. by destruct (hs !! h). Qed.

Lemma inbox_sched s h : inv s → h ∈ Ready.contents (s_inbox s) → h ∈ sched (s_log s).
Proof.
  intros I Hh. destruct (s_closed s) eqn:Hc.
  - destruct (iv_closed _ I Hc) as (_ & E & _). rewrite E in Hh. by apply not_elem_of_nil in Hh.
  - rewrite <-(iv_order _ I Hc). set_solver.
Qed.
Lemma heap_timed s h : inv s → h ∈ in_heap s → h ∈ timed (s_log s).
Proof.
  intros I Hh. destruct (s_closed s) eqn:Hc.
  - destruct (iv_closed _ I Hc) as (_ & _ & E). unfold in_heap in Hh. rewrite E in Hh. by apply not_elem_of_nil in Hh.
  - rewrite <-(iv_all _ I Hc). set_solver.
Qed.
Lemma fresh_loose s h : inv s → s_handles s !! h = None → loose h s.
Proof.
  intros I Hh. assert (Hk : kind_of (s_handles s) h = None) by (unfold kind_of; by rewrite Hh).
  assert (Hs : h ∉ sched (s_log s)) by (intros H; apply (iv_sched _ I) in H; congruence).
  assert (Ht : h ∉ timed (s_log s)) by (intros H; apply (iv_timed _ I) in H; congruence).
  split_and!; [done|done| | | | |].
  - intros H. apply (iv_known _ I) in H. rewrite Hk in H. by destruct H.
  - intros H. by apply Hs, inbox_sched.
  - intros H. by apply Ht, heap_timed.
  - intros H. apply (iv_cancelled _ I) in H. by rewrite is_cancelled_none in H.
  - intros H. apply (iv_retired _ I) in H. by rewrite is_cancelled_none in H.
Qed.

End changes.

Section changes.
Implicit Types (s : state) (x : hnd).

Lemma filter_kind_ext b hs hs' (l : list nat) :
  (∀ h, h ∈ l → kind_of hs' h = kind_of hs h) →
  filter (λ h, kind_of hs' h = Some b) l = filter (λ h, kind_of hs h = Some b) l.
Proof. intros H. apply filter_ext_in. intros h Hh. by rewrite H. Qed.
Lemma filter_cancelled_ext hs hs' (l : list nat) :
  (∀ h, h ∈ l → is_cancelled hs' h = is_cancelled hs h) →
  filter (λ h, is_cancelled hs' h = true) l = filter (λ h, is_cancelled hs h = true) l.
Proof. intros H. apply filter_ext_in. intros h Hh. by rewrite H. Qed.

(** A change of handles that the queues, the heap and the log do not notice. *)
Lemma inv_handles s f :
  let hs := s_handles s in let hs' := f hs in
  (∀ h, h ∈ sched (s_log s) ∨ h ∈ timed (s_log s) ∨ h ∈ Ready.contents (s_ready s) ∨ h ∈ Ready.contents (s_inbox s) ∨
        h ∈ in_heap s ∨ EvCancel h ∈ s_log s ∨ h ∈ omap retired_of (s_log s) →
     kind_of hs' h = kind_of hs h ∧ is_cancelled hs' h = is_cancelled hs h ∧ h_when <$> hs' !! h = h_when <$> hs !! h) →
  (∀ h x, hs' !! h = Some x →
     ((h_in_heap x = false ∧ (h ∉ in_heap s)) ∨ ∃ y, hs !! h = Some y ∧ h_in_heap x = h_in_heap y) ∧
     (h_kind x = HThreadSafe → h_cancelled x = true → h_pending x = false)) →
  inv s → inv (upd_handles f s).
Proof.
  cbn zeta. intros Hk Hx I.
  assert (Hq : ∀ b, queued b (upd_handles f s) = queued b s).
  { intros b. apply filter_kind_ext. intros h Hh. apply Hk. cbn in Hh. tauto. }
  split; rewrite ?Hq; cbn; try apply I.
  - intros h Hh. destruct (Hk h) as [-> _]; [tauto|]. by apply I.
  - intros h Hh. destruct (Hk h) as [-> _]; [tauto|]. by apply I.
  - intros h Hh. destruct (Hk h) as [-> _]; [tauto|]. by apply I.
  - intros Hc h x Hh. destruct (Hx h x Hh) as [[[H1 H2]|(y & Hy & ->)] _].
    + rewrite H1. split; [done|]. intros H. by apply H2 in H.
    + by apply (iv_heap _ I).
  - intros e He. destruct (Hk (Timers.handle e)) as (_ & _ & ->); [|by apply (iv_when _ I)].
    do 4 right. left. unfold in_heap. by apply list_elem_of_fmap_2.
  - intros Hc. rewrite (iv_count _ I Hc). f_equal. symmetry. apply filter_cancelled_ext. intros h Hh. apply Hk. tauto.
  - intros h Hh. destruct (Hk h) as (_ & -> & _); [tauto|]. by apply (iv_cancelled _ I).
  - intros h Hh. destruct (Hk h) as (_ & -> & _); [tauto|]. by apply (iv_retired _ I).
  - intros h x Hh. by apply (Hx h x).
Qed.

Lemma inv_insert s h x :
  s_handles s !! h = None → h_in_heap x = false → h_cancelled x = false →
  inv s → inv (upd_handles (<[h:=x]>) s).
Proof.
  intros Hh Hi Hc I. assert (L := fresh_loose s h I Hh). apply inv_handles; [| |done]; cbn.
  - intros k Hk. assert (k ≠ h) by (intros ->; destruct L as (?&?&?&?&?&?&?); tauto).
    unfold kind_of, is_cancelled. by rewrite !lookup_insert_ne.
  - intros k y Hy. destruct (decide (k = h)) as [-> |].
    + rewrite lookup_insert_eq in Hy. injection Hy as <-. split; [left; split; [done|apply L]|]. congruence.
    + rewrite lookup_insert_ne in Hy by done. split; [right; by exists y|]. by apply (iv_threadsafe _ I k).
Qed.
Lemma inv_delete s h : loose h s → inv s → inv (upd_handles (delete h) s).
Proof.
  intros L I. apply inv_handles; [| |done]; cbn.
  - intros k Hk. assert (k ≠ h) by (intros ->; destruct L as (?&?&?&?&?&?&?); tauto).
    unfold kind_of, is_cancelled. by rewrite !lookup_delete_ne.
  - intros k y Hy. apply lookup_delete_Some in Hy as [? Hy]. split; [right; by exists y|]. by apply (iv_threadsafe _ I k).
Qed.
(** An update that keeps kind, deadline and flags but may end the pending state, or the mark
    of a handle that is not in the heap. *)
Lemma inv_alter s h f :
  keeps_kind f → (∀ x, h_cancelled (f x) = h_cancelled x) →
  (∀ x, h_in_heap (f x) = h_in_heap x ∨ (h_in_heap (f x) = false ∧ (h ∉ in_heap s))) →
  (∀ x, h_pending x = false → h_pending (f x) = false) →
  inv s → inv (upd_handles (alter f h) s).
Proof.
  intros Hk Hc Hi Hp I. apply inv_handles; [| |done]; cbn.
  - intros k _. by rewrite kind_alter, cancelled_alter, when_alter.
  - intros k y Hy. destruct (decide (k = h)) as [-> |].
    + rewrite lookup_alter_eq in Hy. destruct (s_handles s !! h) as [x|] eqn:Ex; [|done]. injection Hy as <-.
      destruct (Hk x) as [Hkx _]. rewrite Hkx, Hc. split.
      * destruct (Hi x) as [?|?]; [right; by exists x|by left].
      * intros H1 H2. apply Hp. by apply (iv_threadsafe _ I h).
    + rewrite lookup_alter_ne in Hy by done. split; [right; by exists y|]. by apply (iv_threadsafe _ I k).
Qed.

(** Taking the inbox over. *)
Lemma inv_drained s s' r' i' :
  inv s → core s' = (r', i', s_timers s, s_handles s, s_closed s, s_log s) →
  Ready.wf r' → Ready.wf i' →
  Ready.contents r' = Ready.contents (s_ready s) ++ Ready.contents (s_inbox s) → Ready.contents i' = [] → inv s'.
Proof.
  intros I E Hr Hi Er Ei. injection E as E1 E2 E3 E4 E5 E6.
  assert (Hin : ∀ h, h ∈ Ready.contents (s_inbox s) → kind_of (s_handles s) h = Some false).
  { intros h Hh. apply (iv_sched _ I). by apply inbox_sched. }
  assert (Hqf : queued false s' = queued false s ++ Ready.contents (s_inbox s)).
  { unfold queued. rewrite E1, E4, Er, filter_app. f_equal. apply filter_all. intros h. apply Hin. }
  assert (Hqt : queued true s' = queued true s).
  { unfold queued. rewrite E1, E4, Er, filter_app. rewrite (filter_none _ (Ready.contents (s_inbox s))); [by rewrite app_nil_r|].
    intros h Hh. rewrite (Hin h Hh). congruence. }
  assert (Hh : in_heap s' = in_heap s) by (unfold in_heap; by rewrite E3).
  split; rewrite ?Hqf, ?Hqt, ?Hh, ?E1, ?E2, ?E3, ?E4, ?E5, ?E6, ?Ei, ?app_nil_r; try done; try apply I.
  - intros Hc. destruct (iv_closed _ I Hc) as (H1 & H2 & H3). by rewrite Er, H1, H2.
  - intros h. rewrite Er, elem_of_app. intros [?|?]; [by apply I|]. by rewrite Hin.
Qed.

(** Scheduling: at the end of the ready queue when the inbox is empty, or of the inbox. *)
Lemma inv_sched_queue s s' h r' i' :
  inv s → loose h s → kind_of (s_handles s) h = Some false → s_closed s = false →
  core s' = (r', i', s_timers s, s_handles s, s_closed s, s_log s ++ [EvSched h]) →
  Ready.wf r' → Ready.wf i' →
  (Ready.contents r' = Ready.contents (s_ready s) ++ [h] ∧ i' = s_inbox s ∧ Ready.contents (s_inbox s) = [] ∨
   r' = s_ready s ∧ Ready.contents i' = Ready.contents (s_inbox s) ++ [h]) → inv s'.
Proof.
  intros I (L1 & L2 & L3 & L4 & L5 & L6 & L7) Hk Hc E Hr Hi Hcase. injection E as E1 E2 E3 E4 E5 E6.
  assert (Hq : queued false s' ++ Ready.contents (s_inbox s') = queued false s ++ Ready.contents (s_inbox s) ++ [h] ∧
    queued true s' = queued true s).
  { unfold queued. rewrite E1, E2, E4. destruct Hcase as [(-> & -> & ->)|(-> & ->)]; [|done].
    rewrite !filter_app, !filter_cons, filter_nil, decide_True, decide_False, !app_nil_r by (rewrite Hk; congruence). done. }
  destruct Hq as [Hqf Hqt]. assert (Hh : in_heap s' = in_heap s) by (unfold in_heap; by rewrite E3).
  split; rewrite ?Hqf, ?Hqt, ?Hh, ?E1, ?E3, ?E4, ?E5, ?E6, ?omap_app; cbn; rewrite ?app_nil_r; try done; try apply I.
  - by rewrite E2.
  - congruence.
  - intros k. rewrite elem_of_app, list_elem_of_singleton. intros [?| ->]; [by apply I|done].
  - destruct (iv_nodup _ I). split; [|done]. apply NoDup_app. split_and!; [done|set_solver|by apply NoDup_singleton].
  - intros _. by rewrite (assoc_L (++)), <-(iv_order _ I Hc), !(assoc_L (++)).
  - intros k. destruct Hcase as [(-> & _)|(-> & _)]; [|by apply I].
    rewrite elem_of_app, list_elem_of_singleton. intros [?| ->]; [by apply I|]. by rewrite Hk.
  - intros k. rewrite elem_of_app, list_elem_of_singleton. intros [?|?]; [by apply (iv_cancelled _ I)|done].
  - apply no_call_snoc; [apply I|done].
Qed.
(** A timer that is due on arrival. *)
Lemma inv_sched_due s s' h r' :
  inv s → loose h s → kind_of (s_handles s) h = Some true → s_closed s = false →
  core s' = (r', s_inbox s, s_timers s, s_handles s, s_closed s, s_log s ++ [EvTimer h]) →
  Ready.wf r' → Ready.contents r' = Ready.contents (s_ready s) ++ [h] → inv s'.
Proof.
  intros I (L1 & L2 & L3 & L4 & L5 & L6 & L7) Hk Hc E Hr Hcase. injection E as E1 E2 E3 E4 E5 E6.
  assert (Hqf : queued false s' = queued false s).
  { unfold queued. rewrite E1, E4, Hcase, filter_app, filter_cons, filter_nil, decide_False, app_nil_r by (rewrite Hk; congruence). done. }
  assert (Hqt : queued true s' = queued true s ++ [h]).
  { unfold queued. rewrite E1, E4, Hcase, filter_app, filter_cons, filter_nil, decide_True by done. done. }
  assert (Hh : in_heap s' = in_heap s) by (unfold in_heap; by rewrite E3).
  split; rewrite ?Hqf, ?Hqt, ?Hh, ?E1, ?E2, ?E3, ?E4, ?E5, ?E6, ?omap_app; cbn; rewrite ?app_nil_r; try done; try apply I.
  - congruence.
  - intros k. rewrite elem_of_app, list_elem_of_singleton. intros [?| ->]; [by apply I|done].
  - destruct (iv_nodup _ I). split; [done|]. apply NoDup_app. split_and!; [done|set_solver|by apply NoDup_singleton].
  - intros _. rewrite <-(iv_all _ I Hc). solve_Permutation.
  - intros k. rewrite Hcase, elem_of_app, list_elem_of_singleton. intros [?| ->]; [by apply I|]. by rewrite Hk.
  - intros k. rewrite elem_of_app, list_elem_of_singleton. intros [?|?]; [by apply (iv_cancelled _ I)|done].
  - apply no_call_snoc; [apply I|done].
Qed.

Lemma wf_cancelled f t : Timers.wf t → Timers.wf (Timers.with_cancelled f t).
Proof. intros []. by split. Qed.
Lemma heap_nodup s : inv s → s_closed s = false → NoDup (in_heap s).
Proof.
  intros I Hc. destruct (iv_nodup _ I) as [_ H]. rewrite <-(iv_all _ I Hc) in H.
  apply NoDup_app in H as (_ & _ & H). apply NoDup_app in H as (_ & _ & H). by apply NoDup_app in H as (H & _ & _).
Qed.

(** A timer goes into the heap. *)
Lemma inv_sched_timer s s' h cb w sq t' :
  inv s → s_handles s !! h = None → s_closed s = false →
  core s' = (s_ready s, s_inbox s, t', <[h := Hnd HTimer cb w false true true true]> (s_handles s), s_closed s,
             s_log s ++ [EvTimer h]) →
  Timers.wf t' → Timers.items t' ≡ₚ Timers.Entry w sq h :: Timers.items (s_timers s) →
  Timers.cancelled t' = Timers.cancelled (s_timers s) → inv s'.
Proof.
  intros I Hf Hc E Hw HP Hn. assert (L := fresh_loose s h I Hf). destruct L as (L1 & L2 & L3 & L4 & L5 & L6 & L7).
  injection E as E1 E2 E3 E4 E5 E6. set (x := Hnd HTimer cb w false true true true) in *.
  assert (Hh : in_heap s' ≡ₚ h :: in_heap s) by (unfold in_heap; by rewrite E3, HP).
  assert (Hne : ∀ k, k ≠ h → s_handles s' !! k = s_handles s !! k) by (intros; by rewrite E4, lookup_insert_ne).
  assert (Hk : ∀ k, k ≠ h → kind_of (s_handles s') k = kind_of (s_handles s) k) by (intros; unfold kind_of; by rewrite Hne).
  assert (Hkh : kind_of (s_handles s') h = Some true) by (unfold kind_of; by rewrite E4, lookup_insert_eq).
  assert (Hcn : ∀ k, k ≠ h → is_cancelled (s_handles s') k = is_cancelled (s_handles s) k) by (intros; unfold is_cancelled; by rewrite Hne).
  assert (Hq : ∀ b, queued b s' = queued b s).
  { intros b. unfold queued. rewrite E1. apply filter_kind_ext. intros k Hin. apply Hk. by intros ->. }
  split; rewrite ?Hq, ?E1, ?E2, ?E3, ?E5, ?E6, ?omap_app; cbn; rewrite ?app_nil_r; try done; try apply I.
  - congruence.
  - intros k Hin. rewrite Hk by (by intros ->). by apply I.
  - intros k. rewrite elem_of_app, list_elem_of_singleton. intros [Hin| ->]; [|done].
    rewrite Hk by (by intros ->). by apply I.
  - destruct (iv_nodup _ I). split; [done|]. apply NoDup_app. split_and!; [done|set_solver|by apply NoDup_singleton].
  - intros _. rewrite Hh, <-(iv_all _ I Hc). solve_Permutation.
  - intros k Hin. rewrite Hk by (by intros ->). by apply I.
  - intros _ k y Hy. rewrite Hh. destruct (decide (k = h)) as [-> |Hne'].
    + rewrite E4, lookup_insert_eq in Hy. injection Hy as <-. set_solver.
    + rewrite Hne in Hy by done. rewrite (iv_heap _ I Hc k y Hy). set_solver.
  - intros e. rewrite HP, elem_of_cons. intros [-> |He]; cbn; [by rewrite E4, lookup_insert_eq|].
    rewrite Hne; [by apply (iv_when _ I)|]. intros Heq. apply L5. rewrite <-Heq. by apply list_elem_of_fmap_2.
  - intros _. rewrite Hn, (iv_count _ I Hc), Hh. rewrite filter_cons, decide_False.
    + f_equal. symmetry. apply filter_cancelled_ext. intros k Hin. apply Hcn. by intros ->.
    + unfold is_cancelled. by rewrite E4, lookup_insert_eq.
  - intros k. rewrite elem_of_app, list_elem_of_singleton. intros [Hin|?]; [|done].
    rewrite Hcn by (by intros ->). by apply (iv_cancelled _ I).
  - intros k Hin. rewrite Hcn by (by intros ->). by apply (iv_retired _ I).
  - intros k y Hy. destruct (decide (k = h)) as [-> |Hne'].
    + rewrite E4, lookup_insert_eq in Hy. by injection Hy as <-.
    + rewrite Hne in Hy by done. by apply (iv_threadsafe _ I k).
  - apply no_call_snoc; [apply I|done].
Qed.

(** A timer leaves the heap: it is ready, or it was cancelled, or there is no memory. *)
Lemma inv_timer_out s s' e t1 t' r' ev :
  let h := Timers.handle e in
  inv s → s_closed s = false →
  Timers.wf t1 → Timers.items (s_timers s) ≡ₚ e :: Timers.items t1 →
  core s' = (r', s_inbox s, t', alter clearScheduled h (s_handles s), s_closed s, s_log s ++ ev) →
  Timers.wf t' → Timers.items t' = Timers.items t1 →
  Ready.wf r' →
  (is_cancelled (s_handles s) h = true ∧ r' = s_ready s ∧ ev = [EvRetired h] ∧
     S (Timers.cancelled t') = Timers.cancelled (s_timers s) ∨
   is_cancelled (s_handles s) h = false ∧ Timers.cancelled t' = Timers.cancelled (s_timers s) ∧
     (Ready.contents r' = Ready.contents (s_ready s) ++ [h] ∧ ev = [] ∨ r' = s_ready s ∧ ev = [EvLost h])) →
  inv s'.
Proof.
  cbn zeta. intros I Hc Hw1 HP E Hw' Hi Hr Hcase. set (h := Timers.handle e) in *.
  injection E as E1 E2 E3 E4 E5 E6.
  assert (Hh : in_heap s ≡ₚ h :: in_heap s') by (unfold in_heap; by rewrite E3, Hi, HP).
  assert (Hhin : h ∈ in_heap s) by (rewrite Hh; set_solver).
  assert (Hnd := heap_nodup s I Hc). rewrite Hh in Hnd. apply NoDup_cons in Hnd as [Hnin Hnd].
  assert (Hk : ∀ k, kind_of (s_handles s') k = kind_of (s_handles s) k) by (intros k; rewrite E4; by apply kind_alter).
  assert (Hcn : ∀ k, is_cancelled (s_handles s') k = is_cancelled (s_handles s) k) by (intros k; rewrite E4; by apply cancelled_alter).
  assert (Hkh : kind_of (s_handles s) h = Some true) by (by apply (iv_timed _ I), heap_timed).
  assert (Hqf : queued false s' = queued false s).
  { unfold queued. rewrite E1. rewrite (filter_kind_ext _ (s_handles s)) by (intros; apply Hk).
    destruct Hcase as [(_ & -> & _)|(_ & _ & [[-> _]|[-> _]])]; [done| |done].
    rewrite filter_app, filter_cons, filter_nil, decide_False, app_nil_r by (rewrite Hkh; congruence). done. }
  assert (Hqt : queued true s' ++ gone (s_log s') ≡ₚ queued true s ++ h :: gone (s_log s)).
  { unfold queued. rewrite E1, E6, omap_app. rewrite (filter_kind_ext _ (s_handles s)) by (intros; apply Hk).
    destruct Hcase as [(_ & -> & -> & _)|(_ & _ & [[-> ->]|[-> ->]])]; cbn; [solve_Permutation| |solve_Permutation].
    rewrite filter_app, filter_cons, filter_nil, decide_True by done. solve_Permutation. }
  assert (Hev : sched (s_log s') = sched (s_log s) ∧ timed (s_log s') = timed (s_log s) ∧
    (∀ b, popped b (s_log s') = popped b (s_log s)) ∧ pops (s_log s') = pops (s_log s) ∧ calls (s_log s') = calls (s_log s) ∧
    (∀ k, EvCancel k ∈ s_log s' → EvCancel k ∈ s_log s) ∧
    (∀ k, k ∈ omap retired_of (s_log s') → k ∈ omap retired_of (s_log s) ∨ (k = h ∧ is_cancelled (s_handles s) h = true)) ∧
    no_call_after_cancel (s_log s')).
  { rewrite E6. assert (Hnc := iv_calls _ I).
    destruct Hcase as [(Hx & -> & -> & _)|(_ & _ & [[_ ->]|[_ ->]])]; rewrite ?omap_app; cbn; rewrite ?app_nil_r;
      (split_and!; [done|done|intros b; by rewrite ?omap_app; cbn; rewrite ?app_nil_r|done|done|set_solver|set_solver|]);
      try done; by apply no_call_snoc. }
  destruct Hev as (V1 & V2 & V3 & V4 & V5 & V6 & V7 & V8).
  split; rewrite ?V1, ?V2, ?V3, ?V4, ?V5, ?Hqf, ?E1, ?E2, ?E3, ?E5; try done; try apply I.
  - congruence.
  - intros k Hin. rewrite Hk. by apply I.
  - intros k Hin. rewrite Hk. by apply I.
  - intros _. rewrite <-(iv_all _ I Hc), Hh. f_equiv.
    transitivity ((queued true s' ++ gone (s_log s')) ++ in_heap s'); [solve_Permutation|]. rewrite Hqt. solve_Permutation.
  - intros k. rewrite Hk. destruct Hcase as [(_ & -> & _)|(_ & _ & [[-> _]|[-> _]])]; try apply I.
    rewrite elem_of_app, list_elem_of_singleton. intros [?| ->]; [by apply I|by rewrite Hkh].
  - intros _ k y Hy. rewrite E4 in Hy. destruct (decide (k = h)) as [-> |Hne].
    + rewrite lookup_alter_eq in Hy. destruct (s_handles s !! h); [|done]. injection Hy as <-. cbn. done.
    + rewrite lookup_alter_ne in Hy by done. rewrite (iv_heap _ I Hc k y Hy), Hh. set_solver.
  - intros e'. rewrite Hi. intros He'. rewrite E4, when_alter by done. apply (iv_when _ I). rewrite HP. set_solver.
  - intros _. rewrite (filter_cancelled_ext (s_handles s)) by (intros; apply Hcn).
    assert (Hcnt := iv_count _ I Hc). rewrite Hh, filter_cons in Hcnt.
    destruct Hcase as [(Hx & _ & _ & Hn)|(Hx & Hn & _)].
    + rewrite decide_True in Hcnt by done. cbn [length] in Hcnt. lia.
    + rewrite decide_False in Hcnt by congruence. lia.
  - intros k Hin. rewrite Hcn. apply (iv_cancelled _ I). auto.
  - intros k Hin. rewrite Hcn. destruct (V7 k Hin) as [?|[-> ?]]; [by apply (iv_retired _ I)|done].
  - intros k y Hy. rewrite E4 in Hy. destruct (decide (k = h)) as [-> |Hne].
    + rewrite lookup_alter_eq in Hy. destruct (s_handles s !! h) as [z|] eqn:Ez; [|done]. injection Hy as <-.
      exact (iv_threadsafe _ I h z Ez).
    + rewrite lookup_alter_ne in Hy by done. by apply (iv_threadsafe _ I k).
Qed.

Lemma inv_cancel s s' h x f t' :
  inv s → s_handles s !! h = Some x → h_cancelled x = false →
  keeps_kind f → (∀ y, h_cancelled (f y) = true) → (∀ y, h_in_heap (f y) = h_in_heap y) →
  (h_kind x = HThreadSafe → h_pending (f x) = false) →
  Timers.wf t' → Timers.items t' = Timers.items (s_timers s) →
  (s_closed s = false →
   Timers.cancelled t' = if h_in_heap x then S (Timers.cancelled (s_timers s)) else Timers.cancelled (s_timers s)) →
  core s' = (s_ready s, s_inbox s, t', alter f h (s_handles s), s_closed s, s_log s ++ [EvCancel h]) → inv s'.
Proof.
  intros I Hx Hxc Hkk Hfc Hfi Hfp Hw Hi Hn E. injection E as E1 E2 E3 E4 E5 E6.
  assert (Hh : in_heap s' = in_heap s) by (unfold in_heap; by rewrite E3, Hi).
  assert (Hk : ∀ k, kind_of (s_handles s') k = kind_of (s_handles s) k) by (intros k; rewrite E4; by apply kind_alter).
  assert (Hcn : ∀ k, k ≠ h → is_cancelled (s_handles s') k = is_cancelled (s_handles s) k).
  { intros k Hne. unfold is_cancelled. by rewrite E4, lookup_alter_ne. }
  assert (Hch : is_cancelled (s_handles s') h = true) by (unfold is_cancelled; by rewrite E4, lookup_alter_eq, Hx; cbn).
  assert (Hch0 : is_cancelled (s_handles s) h = false) by (unfold is_cancelled; by rewrite Hx).
  assert (Hmono : ∀ k, is_cancelled (s_handles s) k = true → is_cancelled (s_handles s') k = true).
  { intros k Hkc. destruct (decide (k = h)) as [-> |]; [done|by rewrite Hcn]. }
  assert (Hq : ∀ b, queued b s' = queued b s).
  { intros b. unfold queued. rewrite E1. apply filter_kind_ext. intros; apply Hk. }
  split; rewrite ?Hq, ?Hh, ?E1, ?E2, ?E3, ?E5, ?E6, ?omap_app; cbn; rewrite ?app_nil_r; try done; try apply I.
  - rewrite Hi. apply I.
  - intros k Hin. rewrite Hk. by apply I.
  - intros k Hin. rewrite Hk. by apply I.
  - intros k Hin. rewrite Hk. by apply I.
  - intros Hc k y Hy. rewrite E4 in Hy. destruct (decide (k = h)) as [-> |Hne].
    + rewrite lookup_alter_eq, Hx in Hy. injection Hy as <-. rewrite Hfi. by apply (iv_heap _ I).
    + rewrite lookup_alter_ne in Hy by done. by apply (iv_heap _ I).
  - intros e. rewrite Hi, E4, when_alter by done. apply (iv_when _ I).
  - intros Hc. rewrite (Hn Hc), (iv_count _ I Hc). assert (Hnd := heap_nodup s I Hc). assert (Hin := iv_heap _ I Hc h x Hx).
    destruct (h_in_heap x); [|].
    + destruct Hin as [Hin _]. specialize (Hin eq_refl). apply list_elem_of_split in Hin as (l1 & l2 & El). rewrite El in *.
      apply NoDup_app in Hnd as (_ & Hd & Hnd). apply NoDup_cons in Hnd as [Hnd _].
      assert (h ∉ l1) by (intros Hl; apply (Hd _ Hl); set_solver).
      rewrite !filter_app, !filter_cons, decide_False, decide_True by congruence. rewrite !length_app. cbn [length].
      rewrite !(filter_cancelled_ext (s_handles s) (s_handles s')) by (intros k Hk'; apply Hcn; by intros ->). lia.
    + f_equal. symmetry. apply filter_cancelled_ext. intros k Hk'. apply Hcn. intros ->. by apply Hin in Hk'.
  - intros k. rewrite elem_of_app, list_elem_of_singleton. intros [Hin|[= ->]]; [by apply Hmono, (iv_cancelled _ I)|done].
  - intros k Hin. by apply Hmono, (iv_retired _ I).
  - intros k y Hy. rewrite E4 in Hy. destruct (decide (k = h)) as [-> |Hne].
    + rewrite lookup_alter_eq, Hx in Hy. injection Hy as <-. destruct (Hkk x) as [-> _]. intros ? _. by apply Hfp.
    + rewrite lookup_alter_ne in Hy by done. by apply (iv_threadsafe _ I k).
  - apply no_call_snoc; [apply I|done].
Qed.

Lemma filter_fmap {A B} (g : A → B) (P : B → Prop) `{!∀ b, Decision (P b)} (l : list A) :
  g <$> filter (λ a, P (g a)) l = filter P (g <$> l).
Proof. induction l as [|a l IH]; [done|]. cbn [fmap list_fmap]. rewrite !filter_cons. case_decide; cbn; by rewrite IH. Qed.
Lemma no_call_retired l (d : list nat) : no_call_after_cancel l → no_call_after_cancel (l ++ (EvRetired <$> d)).
Proof.
  intros Hl. induction d as [|h d IH] using rev_ind; [by rewrite app_nil_r|].
  rewrite fmap_app, (assoc_L (++)). by apply no_call_snoc.
Qed.
Lemma omap_retired {B} (g : event → option B) (d : list nat) : (∀ h, g (EvRetired h) = None) → omap g (EvRetired <$> d) = [].
Proof. intros Hg. induction d as [|h d IH]; [done|]. cbn. by rewrite Hg. Qed.
Lemma omap_retired_some (g : event → option nat) (d : list nat) : (∀ h, g (EvRetired h) = Some h) → omap g (EvRetired <$> d) = d.
Proof. intros Hg. induction d as [|h d IH]; [done|]. cbn. rewrite Hg. cbn. by f_equal. Qed.

(** Compacting: the cancelled ones leave together. *)
Lemma inv_compact s s' t' hs' :
  let doomed := Timers.handle <$> filter (λ e, is_cancelled (s_handles s) (Timers.handle e) = true) (Timers.items (s_timers s)) in
  inv s →
  core s' = (s_ready s, s_inbox s, t', hs', s_closed s, s_log s ++ (EvRetired <$> doomed)) →
  (∀ k, hs' !! k = if decide (k ∈ doomed) then clearScheduled <$> s_handles s !! k else s_handles s !! k) →
  Timers.wf t' →
  Timers.items t' ≡ₚ filter (λ e, is_cancelled (s_handles s) (Timers.handle e) = false) (Timers.items (s_timers s)) →
  Timers.cancelled t' = 0%nat → inv s'.
Proof.
  cbn zeta. set (doomed := Timers.handle <$> _). intros I E Hhs Hw HP Hn. injection E as E1 E2 E3 E4 E5 E6.
  assert (Hd : doomed = filter (λ h, is_cancelled (s_handles s) h = true) (in_heap s)).
  { unfold doomed, in_heap. by rewrite <-(filter_fmap Timers.handle (λ h, is_cancelled (s_handles s) h = true)). }
  assert (Hh : in_heap s' ≡ₚ filter (λ h, is_cancelled (s_handles s) h = false) (in_heap s)).
  { unfold in_heap. rewrite E3, HP. by rewrite <-(filter_fmap Timers.handle (λ h, is_cancelled (s_handles s) h = false)). }
  assert (Hsplit : in_heap s ≡ₚ in_heap s' ++ doomed).
  { rewrite Hh, Hd. rewrite <-(filter_app_complement (λ h, is_cancelled (s_handles s) h = false) (in_heap s)) at 1. f_equiv.
    rewrite (filter_ext_in (λ h, ¬ is_cancelled (s_handles s) h = false) (λ h, is_cancelled (s_handles s) h = true)); [done|].
    intros h _. destruct (is_cancelled _ h); split; done || congruence. }
  assert (Hlook : ∀ k x, hs' !! k = Some x → ∃ y, s_handles s !! k = Some y ∧ h_kind x = h_kind y ∧ h_when x = h_when y ∧
    h_cancelled x = h_cancelled y ∧ h_pending x = h_pending y ∧
    h_in_heap x = (if decide (k ∈ doomed) then false else h_in_heap y)).
  { intros k x Hx. rewrite Hhs in Hx. case_decide; [|by exists x].
    destruct (s_handles s !! k) as [y|]; [|done]. injection Hx as <-. by exists y. }
  assert (Hk : ∀ k, kind_of hs' k = kind_of (s_handles s) k).
  { intros k. unfold kind_of. rewrite Hhs. case_decide; [|done]. by destruct (s_handles s !! k). }
  assert (Hcn : ∀ k, is_cancelled hs' k = is_cancelled (s_handles s) k).
  { intros k. unfold is_cancelled. rewrite Hhs. case_decide; [|done]. by destruct (s_handles s !! k). }
  assert (Hwh : ∀ k, h_when <$> hs' !! k = h_when <$> s_handles s !! k).
  { intros k. rewrite Hhs. case_decide; [|done]. by destruct (s_handles s !! k). }
  assert (Hq : ∀ b, queued b s' = queued b s).
  { intros b. unfold queued. rewrite E1, E4. apply filter_kind_ext. intros; apply Hk. }
  assert (Hev : sched (s_log s') = sched (s_log s) ∧ timed (s_log s') = timed (s_log s) ∧
    (∀ b, popped b (s_log s') = popped b (s_log s)) ∧ pops (s_log s') = pops (s_log s) ∧ calls (s_log s') = calls (s_log s) ∧
    gone (s_log s') = gone (s_log s) ++ doomed ∧ omap retired_of (s_log s') = omap retired_of (s_log s) ++ doomed).
  { rewrite E6. split_and!; [..|intros b| | | |]; rewrite omap_app;
      first [rewrite omap_retired by done; by rewrite app_nil_r|by rewrite omap_retired_some by done]. }
  destruct Hev as (V1 & V2 & V3 & V4 & V5 & V6 & V7).
  split; rewrite ?V1, ?V2, ?V3, ?V4, ?V5, ?V6, ?V7, ?Hq, ?E1, ?E2, ?E3, ?E4, ?E5; try done; try apply I.
  - intros Hc. destruct (iv_closed _ I Hc) as (H1 & H2 & H3). split_and!; [done|done|].
    rewrite H3 in HP. by apply Permutation_nil_r in HP.
  - intros k Hin. rewrite Hk. by apply I.
  - intros k Hin. rewrite Hk. by apply I.
  - intros Hc. rewrite <-(iv_all _ I Hc), Hsplit. solve_Permutation.
  - intros k Hin. rewrite Hk. by apply I.
  - intros Hc k x Hx. destruct (Hlook k x Hx) as (y & Hy & _ & _ & _ & _ & ->).
    assert (Hin := iv_heap _ I Hc k y Hy). assert (Hnd := heap_nodup s I Hc). rewrite Hsplit in Hin, Hnd.
    apply NoDup_app in Hnd as (_ & Hdis & _). specialize (Hdis k). rewrite elem_of_app in Hin.
    case_decide; [|rewrite Hin; tauto]. split; [done|]. tauto.
  - intros e. rewrite HP, list_elem_of_filter, Hwh. intros [_ ?]. by apply (iv_when _ I).
  - intros Hc. rewrite Hn. symmetry. apply length_zero_iff_nil. rewrite (filter_cancelled_ext (s_handles s)) by (intros; apply Hcn).
    apply filter_none. intros k. rewrite Hh, list_elem_of_filter. intros [-> _]. done.
  - intros k. rewrite E6, elem_of_app, list_elem_of_fmap, Hcn. intros [?|(? & ? & _)]; [by apply (iv_cancelled _ I)|done].
  - intros k. rewrite elem_of_app, Hcn. intros [?|Hin]; [by apply (iv_retired _ I)|].
    rewrite Hd, list_elem_of_filter in Hin. tauto.
  - intros k x Hx. destruct (Hlook k x Hx) as (y & Hy & -> & _ & -> & -> & _). by apply (iv_threadsafe _ I k).
  - rewrite E6. apply no_call_retired, I.
Qed.

(** The oldest callback leaves the ready queue. *)
Lemma inv_pop s s' h b r' :
  inv s → Ready.wf r' → Ready.contents (s_ready s) = h :: Ready.contents r' → kind_of (s_handles s) h = Some b →
  core s' = (r', s_inbox s, s_timers s, s_handles s, s_closed s, s_log s ++ [EvPop b h]) → inv s'.
Proof.
  intros I Hr Ec Hk E. injection E as E1 E2 E3 E4 E5 E6.
  assert (Hh : in_heap s' = in_heap s) by (unfold in_heap; by rewrite E3).
  assert (Hqs : ∀ c, queued c s = (if Bool.eqb c b then [h] else []) ++ queued c s').
  { intros c. unfold queued. rewrite E1, E4, Ec, filter_cons, Hk. destruct c, b; cbn; done. }
  assert (Hp : ∀ c, popped c (s_log s') = popped c (s_log s) ++ (if Bool.eqb c b then [h] else [])).
  { intros c. rewrite E6, omap_app. cbn. by destruct (Bool.eqb c b). }
  split; rewrite ?Hp, ?Hh, ?E1, ?E2, ?E3, ?E4, ?E5; try done; try apply I; rewrite ?E6, ?omap_app; cbn; rewrite ?app_nil_r; try apply I.
  - intros Hc. destruct (iv_closed _ I Hc) as (H1 & _). congruence.
  - intros Hc. rewrite <-(iv_order _ I Hc), (Hqs false). by rewrite !(assoc_L (++)).
  - intros Hc. rewrite <-(iv_all _ I Hc), (Hqs true). solve_Permutation.
  - intros k Hin. apply I. rewrite Ec. set_solver.
  - intros k. rewrite elem_of_app, list_elem_of_singleton. intros [?|?]; [by apply (iv_cancelled _ I)|done].
  - by apply sublist_inserts_r, I.
  - apply no_call_snoc; [apply I|done].
Qed.

(** A callback is called right after it left the queue. *)
Definition just_popped h s : Prop :=
  ∃ l b, s_log s = l ++ [EvPop b h] ∧ calls l `sublist_of` pops l.
Lemma inv_call s s' h :
  inv s → just_popped h s → is_cancelled (s_handles s) h = false →
  core s' = (s_ready s, s_inbox s, s_timers s, s_handles s, s_closed s, s_log s ++ [EvCall h]) → inv s'.
Proof.
  intros I (l & b & El & Hl) Hc E. injection E as E1 E2 E3 E4 E5 E6.
  assert (Hq : ∀ b, queued b s' = queued b s) by (intros; unfold queued; by rewrite E1, E4).
  assert (Hh : in_heap s' = in_heap s) by (unfold in_heap; by rewrite E3).
  split; rewrite ?Hq, ?Hh, ?E1, ?E2, ?E3, ?E4, ?E5; try done; try apply I; rewrite ?E6, ?omap_app; cbn; rewrite ?app_nil_r; try apply I.
  - intros k. rewrite elem_of_app, list_elem_of_singleton. intros [?|?]; [by apply (iv_cancelled _ I)|done].
  - rewrite El, !omap_app. cbn. rewrite app_nil_r. by apply sublist_app.
  - apply no_call_snoc; [apply I|]. intros k [= <-] Hin. apply (iv_cancelled _ I) in Hin. congruence.
Qed.
Lemma inv_note s s' e :
  inv s → core s' = (s_ready s, s_inbox s, s_timers s, s_handles s, s_closed s, s_log s ++ [e]) →
  (match e with EvReport _ _ | EvSlow _ _ => True | _ => False end) → inv s'.
Proof.
  intros I E He. injection E as E1 E2 E3 E4 E5 E6.
  assert (Hq : ∀ b, queued b s' = queued b s) by (intros; unfold queued; by rewrite E1, E4).
  assert (Hh : in_heap s' = in_heap s) by (unfold in_heap; by rewrite E3).
  destruct e; try done;
  (split; rewrite ?Hq, ?Hh, ?E1, ?E2, ?E3, ?E4, ?E5; try done; try apply I; rewrite ?E6, ?omap_app; cbn; rewrite ?app_nil_r; try apply I;
    [intros k; rewrite elem_of_app, list_elem_of_singleton; intros [?|?]; [by apply (iv_cancelled _ I)|done]|apply no_call_snoc; [apply I|done]]).
Qed.
End changes.

(** ** The operations *)
#[export] Instance preserves_preorder : PreOrder (λ s s' : state, inv s → inv s').
Proof. split; [by intros s|intros s1 s2 s3 H1 H2 ?; auto]. Qed.
Abbreviation preserves := (stable (λ s s', inv s → inv s')).

(** A change the invariant is not about. *)
Ltac inv_frame :=
  match goal with
  | |- inv ?s → inv ?s' => exact (inv_core s s' eq_refl)
  | H : inv ?s |- inv ?s' => exact (inv_core s s' eq_refl H)
  end.

Section operations.
Context `{Env : LoopEnv}.
Implicit Types s : state.

Lemma preserves_modify f : (∀ s, core (f s) = core s) → preserves (modify f).
Proof. intros H s. wp_step. intros I. by apply (inv_core s); [rewrite H|]. Qed.
Lemma preserves_wp {A} (m : M state A) s : preserves m → inv s → wp m (λ _, inv) (λ _, inv) s.
Proof. intros H I. eapply wp_mono; [apply H|intros a w H'; by apply H'|intros e w H'; by apply H']. Qed.
Lemma wp_preserves {A} (m : M state A) : (∀ s, inv s → wp m (λ _, inv) (λ _, inv) s) → preserves m.
Proof.
  intros H s. unfold wp. destruct (m s) as [[a|e] s'] eqn:Em; intros I; assert (Hw := H s I); unfold wp in Hw; by rewrite Em in Hw.
Qed.
Lemma preserves_ask : preserves ask.
Proof. unfold ask. solve_stable. inv_frame. Qed.
Lemma preserves_now : preserves now.
Proof. unfold now. solve_stable. apply preserves_ask. Qed.
Lemma preserves_alloc : preserves alloc.
Proof. unfold alloc. solve_stable. apply preserves_ask. Qed.
Lemma preserves_startIdle : preserves startIdle.
Proof. apply preserves_modify. intros s. by case_match. Qed.
Lemma preserves_log e : (match e with EvReport _ _ | EvSlow _ _ => True | _ => False end) → preserves (log e).
Proof. intros He s. unfold log. wp_step. intros I. by apply (inv_note s _ e). Qed.
Lemma preserves_checkClosed : preserves checkClosed.
Proof. unfold checkClosed. solve_stable. Qed.
Lemma preserves_captureFatal e : preserves (captureFatal e).
Proof. unfold captureFatal. solve_stable; inv_frame. Qed.
Hint Resolve preserves_ask preserves_now preserves_alloc preserves_startIdle preserves_checkClosed
  preserves_captureFatal : stable.

(** What an allocation changes: nothing but the count of questions. *)
Lemma wp_alloc (Q : bool → state → Prop) E s : Q (allocates (s_tick s)) (upd_tick S s) → wp alloc Q E s.
Proof. intros H. unfold alloc, ask. by wp_go. Qed.
Lemma wp_now (Q : f64 → state → Prop) E s : Q (now_of (clock_ns (s_tick s))) (upd_tick S s) → wp now Q E s.
Proof. intros H. unfold now, ask. by wp_go. Qed.

Lemma wp_push_ready h (Q : unit → state → Prop) E s :
  Ready.wf (s_ready s) →
  (∀ r', Ready.wf r' → Ready.contents r' = Ready.contents (s_ready s) ++ [h] →
     Q tt (upd_ready (λ _, r') (upd_tick S s))) →
  (allocates (s_tick s) = false → E no_memory (upd_tick S s)) → wp (push_ready h) Q E s.
Proof.
  intros Hw HQ HE. unfold push_ready. wp_step. apply wp_alloc. do 2 wp_step. cbn [s_ready upd_tick].
  assert (H := Ready.ring_push (allocates (s_tick s)) h (s_ready s) Hw).
  destruct (Ready.push _ h (s_ready s)) as [r'|]; wp_step; [destruct H; by apply HQ|by apply HE].
Qed.

Lemma move_all_spec fuel from to : Ready.wf from → Ready.wf to →
  (Ready.len from ≤ fuel)%nat → (Ready.len to + Ready.len from ≤ length (Ready.items to))%nat →
  let '(from', to') := move_all fuel from to in
  Ready.wf from' ∧ Ready.wf to' ∧ Ready.contents from' = [] ∧ Ready.contents to' = Ready.contents to ++ Ready.contents from.
Proof.
  revert from to. induction fuel as [|fuel IH]; intros from to Hf Ht Hl Hc; cbn [move_all].
  { assert (Hn : Ready.contents from = []) by (apply nil_length_inv; rewrite Ready.contents_length by done; lia).
    rewrite Hn, app_nil_r. done. }
  assert (H := Ready.ring_pop from Hf). destruct (Ready.pop from) as [[h from']|] eqn:Ep.
  2:{ rewrite H, app_nil_r. done. }
  destruct H as [Hf' Ec]. assert (Hlen := f_equal length Ec). cbn in Hlen. rewrite !Ready.contents_length in Hlen by done.
  destruct (Ready.push_assume_spec h to Ht ltac:(lia)) as [Ht' Ec'].
  specialize (IH from' (Ready.pushAssumeCapacity h to) Hf' Ht' ltac:(lia)).
  destruct (move_all fuel from' _) as [from'' to'']. destruct IH as (? & ? & ? & ->).
  { cbn. rewrite length_insert. lia. }
  split_and!; [done..|]. by rewrite Ec', Ec, <-(assoc_L (++)).
Qed.

(** The inbox is taken over, in order, or there is no memory and nothing changes. *)
Lemma wp_drainThreadsafe (Q : unit → state → Prop) E s :
  Ready.wf (s_ready s) → Ready.wf (s_inbox s) →
  (∀ r' i', Ready.wf r' → Ready.wf i' → Ready.contents i' = [] →
     Ready.contents r' = Ready.contents (s_ready s) ++ Ready.contents (s_inbox s) →
     Q tt (upd_ready (λ _, r') (upd_inbox (λ _, i') (upd_tick S s)))) →
  (allocates (s_tick s) = false → E no_memory (upd_tick S s)) → wp drainThreadsafe Q E s.
Proof.
  intros Hr Hi HQ HE. unfold drainThreadsafe. wp_step. apply wp_alloc. do 4 wp_step. cbn [s_ready s_inbox upd_tick].
  assert (H := Ready.ensure_spec (allocates (s_tick s)) (Ready.len (s_inbox s)) (s_ready s) Hr).
  destruct (Ready.ensureUnusedCapacity _ _ _) as [r1|]; [|wp_step; by apply HE].
  destruct H as (Hr1 & Ec & Hl). assert (Hm := move_all_spec (Ready.len (s_inbox s)) (s_inbox s) r1 Hi Hr1 ltac:(lia) Hl).
  destruct (move_all _ _ _) as [i' r'']. destruct Hm as (? & ? & ? & Ec'). do 3 wp_step.
  apply HQ; [done..|]. by rewrite Ec', Ec.
Qed.
Lemma drained_inv s r' i' : inv s → Ready.wf r' → Ready.wf i' → Ready.contents i' = [] →
  Ready.contents r' = Ready.contents (s_ready s) ++ Ready.contents (s_inbox s) →
  inv (upd_ready (λ _, r') (upd_inbox (λ _, i') (upd_tick S s))).
Proof. intros. by apply (inv_drained s _ r' i'). Qed.

Lemma wp_create (kind : hkind) cb w (Q : nat → state → Prop) E s :
  (∀ h, s_handles s !! h = None →
     let timer := bool_decide (kind = HTimer) in
     Q h (upd_handles (<[h := Hnd kind cb w false true timer timer]>) (upd_tick S s))) →
  (allocates (s_tick s) = false → E no_memory (upd_tick S s)) → wp (create kind cb w) Q E s.
Proof.
  intros HQ HE. unfold create. wp_step. apply wp_alloc. destruct (allocates _); cbn [negb]; [|wp_step; by apply HE].
  do 2 wp_step. do 3 wp_step. apply HQ. apply not_elem_of_dom, is_fresh.
Qed.
Lemma wp_or_free h m Q s :
  wp m Q (λ _ s', inv s' ∧ loose h s') s → wp (or_free h m) Q (λ _, inv) s.
Proof.
  intros H. apply wp_catch. eapply wp_mono; [done|done|]. intros e s' [I L]. do 2 wp_step. wp_step. by apply inv_delete.
Qed.

Lemma wp_checkClosed (Q : unit → state → Prop) (E : exn → state → Prop) s :
  (s_closed s = false → Q tt s) → (s_closed s = true → E (mk RuntimeError "Event loop is closed") s) →
  wp checkClosed Q E s.
Proof. intros HQ HE. unfold checkClosed. do 2 wp_step. destruct (s_closed s); wp_step; auto. Qed.
Lemma wp_log e (Q : unit → state → Prop) E s : Q tt (upd_log (λ l, l ++ [e]) s) → wp (log e) Q E s.
Proof. intros H. unfold log. by wp_step. Qed.
Lemma wp_upd_handle f h (Q : unit → state → Prop) E s :
  Q tt (upd_handles (alter f h) s) → wp (upd_handle f h) Q E s.
Proof. intros H. unfold upd_handle. by wp_step. Qed.

Lemma wp_startIdle (Q : unit → state → Prop) E s : (∀ s', core s' = core s → Q tt s') → wp startIdle Q E s.
Proof. intros H. unfold startIdle. wp_step. apply H. by case_match. Qed.

Lemma preserves_scheduleSoon cb : preserves (scheduleSoon cb).
Proof.
  apply wp_preserves. intros s I. unfold scheduleSoon. wp_step. apply wp_create; [|intros _; by inv_frame].
  intros h Hf timer. set (s1 := upd_handles _ _).
  assert (I1 : inv s1) by (apply inv_insert; [done..|]; by inv_frame).
  assert (L1 : loose h s1) by (by apply (fresh_loose s)).
  assert (K1 : kind_of (s_handles s1) h = Some false) by (unfold kind_of, s1; cbn; by rewrite lookup_insert_eq).
  clearbody s1. apply wp_or_free. wp_step. apply wp_checkClosed; [|done]. intros Hc. wp_step.
  apply wp_drainThreadsafe; [apply I1|apply I1| |intros _; split; [by inv_frame|done]].
  intros r' i' Hr Hi Ei Er. set (s2 := upd_ready _ _).
  assert (I2 : inv s2) by (by apply drained_inv).
  assert (L2 : loose h s2).
  { destruct L1 as (?&?&?&?&?&?&?). split_and!; try done; cbn; [rewrite Er|rewrite Ei]; set_solver. }
  change (s_closed s2 = false) in Hc. change (kind_of (s_handles s2) h = Some false) in K1.
  assert (Ei2 : Ready.contents (s_inbox s2) = []) by done. clearbody s2.
  wp_step. apply wp_push_ready; [apply I2| |intros _; split; [by inv_frame|done]].
  intros r3 Hr3 Er3. wp_step. apply wp_log. apply wp_startIdle. intros s' Es'. apply (inv_core _ s' (eq_sym Es')).
  eapply (inv_sched_queue s2); [done|done|done|done|reflexivity|done|apply I2|]. by left.
Qed.

Lemma preserves_callSoonThreadsafe cb : preserves (callSoonThreadsafe cb).
Proof.
  apply wp_preserves. intros s I. unfold callSoonThreadsafe. wp_step. apply wp_checkClosed; [|done]. intros Hc.
  wp_step. apply wp_create; [|intros _; by inv_frame]. intros h Hf timer. set (s1 := upd_handles _ _).
  assert (I1 : inv s1) by (apply inv_insert; [done..|]; by inv_frame).
  assert (L1 : loose h s1) by (by apply (fresh_loose s)).
  assert (K1 : kind_of (s_handles s1) h = Some false) by (unfold kind_of, s1; cbn; by rewrite lookup_insert_eq).
  change (s_closed s1 = false) in Hc. clearbody s1. wp_step. apply wp_or_free. wp_step. apply wp_alloc. do 2 wp_step.
  cbn [s_inbox upd_tick]. assert (H := Ready.ring_push (allocates (s_tick s1)) h (s_inbox s1) (iv_inbox _ I1)).
  destruct (Ready.push _ h (s_inbox s1)) as [i'|]; wp_step; [|split; [by inv_frame|done]].
  destruct H as [Hi Ei]. wp_step. apply wp_log. wp_step.
  eapply (inv_sched_queue s1); [done|done|done|done|reflexivity|apply I1|done|]. by right.
Qed.

(** *** Timers *)
Lemma pop_open s e t' : inv s → Timers.pop (s_timers s) = Some (e, t') → s_closed s = false.
Proof.
  intros I Hp. destruct (s_closed s) eqn:Hc; [|done]. destruct (iv_closed _ I Hc) as (_ & _ & Hn).
  unfold Timers.pop in Hp. by rewrite Hn in Hp.
Qed.
Lemma pop_cancelled s e t' : inv s → Timers.pop (s_timers s) = Some (e, t') →
  is_cancelled (s_handles s) (Timers.handle e) = true → Timers.cancelled (s_timers s) ≠ 0%nat.
Proof.
  intros I Hp Hx. rewrite (iv_count _ I) by (by eapply pop_open). intros H0. apply length_zero_iff_nil in H0.
  assert (HP := Timers.pop_spec _ (iv_timers _ I)). rewrite Hp in HP. destruct HP as (_ & HP & _).
  refine (filter_nil_not_elem_of _ _ _ H0 Hx _). unfold in_heap. rewrite HP. cbn. set_solver.
Qed.
Definition pred_count (n : nat) : nat := if decide (n = 0)%nat then n else (n - 1)%nat.
Lemma retired_inv s e t' : inv s → Timers.pop (s_timers s) = Some (e, t') →
  is_cancelled (s_handles s) (Timers.handle e) = true →
  inv (upd_timers (Timers.with_cancelled pred_count) (upd_log (λ l, l ++ [EvRetired (Timers.handle e)])
        (upd_handles (alter clearScheduled (Timers.handle e)) (upd_timers (λ _, t') s)))).
Proof.
  intros I Hp Hx. assert (Hn := pop_cancelled s e t' I Hp Hx). assert (Hc := pop_open s e t' I Hp).
  assert (HP := Timers.pop_spec _ (iv_timers _ I)). rewrite Hp in HP. destruct HP as (Hw & HP & _ & _ & _ & Hcn).
  eapply (inv_timer_out s _ e t'); [done|done|exact Hw|exact HP|reflexivity|by apply wf_cancelled|done|apply I|].
  left. split_and!; [done..|]. cbn. unfold pred_count. rewrite Hcn, decide_False by done. lia.
Qed.

Lemma preserves_drop_cancelled fuel : preserves (drop_cancelled fuel).
Proof.
  induction fuel as [|fuel IH]; cbn [drop_cancelled]; [solve_stable|]. apply wp_preserves. intros s I.
  do 2 wp_step. destruct (Timers.pop (s_timers s)) as [[e t']|] eqn:Ep; [|by wp_step].
  unfold isCancelled. do 2 wp_step. change (match s_handles s !! Timers.handle e with Some x => h_cancelled x | None => false end)
    with (is_cancelled (s_handles s) (Timers.handle e)).
  destruct (is_cancelled _ _) eqn:Hx; cbn [negb]; [|by wp_step]. unfold pop_timer, retire, upd_handle, log.
  wp_go. apply preserves_wp; [done|]. by apply (retired_inv s e t').
Qed.
Lemma preserves_armTimer : preserves armTimer.
Proof.
  unfold armTimer. solve_stable; try apply preserves_drop_cancelled; inv_frame.
Qed.

Lemma ready_inv s e t' r' n : inv s → Timers.pop (s_timers s) = Some (e, t') →
  is_cancelled (s_handles s) (Timers.handle e) = false →
  Ready.wf r' → Ready.contents r' = Ready.contents (s_ready s) ++ [Timers.handle e] →
  inv (upd_ready (λ _, r') (upd_tick n (upd_handles (alter clearScheduled (Timers.handle e)) (upd_timers (λ _, t') s)))).
Proof.
  intros I Hp Hx Hr Er. assert (Hc := pop_open s e t' I Hp).
  assert (HP := Timers.pop_spec _ (iv_timers _ I)). rewrite Hp in HP. destruct HP as (Hw & HP & _ & _ & _ & Hcn).
  eapply (inv_timer_out s _ e t' t' r' []); [done|done|exact Hw|exact HP|by rewrite app_nil_r|done|done|done|].
  right. split_and!; [done..|]. by left.
Qed.
Lemma lost_inv s e t' f : inv s → Timers.pop (s_timers s) = Some (e, t') →
  is_cancelled (s_handles s) (Timers.handle e) = false → (∀ s, core (f s) = core s) →
  inv (upd_log (λ l, l ++ [EvLost (Timers.handle e)])
        (f (upd_handles (alter clearScheduled (Timers.handle e)) (upd_timers (λ _, t') s)))).
Proof.
  intros I Hp Hx Hf. assert (Hc := pop_open s e t' I Hp).
  assert (HP := Timers.pop_spec _ (iv_timers _ I)). rewrite Hp in HP. destruct HP as (Hw & HP & _ & _ & _ & Hcn).
  set (s1 := upd_handles _ _). specialize (Hf s1). unfold core in Hf. injection Hf as F1 F2 F3 F4 F5 F6.
  eapply (inv_timer_out s _ e t' t' (s_ready s)); [done|done|exact Hw|exact HP| |done|done|apply I|].
  - unfold core. cbn. by rewrite F1, F2, F3, F4, F5, F6.
  - right. split_and!; [done..|]. by right.
Qed.

Lemma preserves_collect fuel deadline : preserves (collect fuel deadline).
Proof.
  induction fuel as [|fuel IH]; cbn [collect]; [solve_stable|]. apply wp_preserves. intros s I.
  do 2 wp_step. destruct (Timers.pop (s_timers s)) as [[e t']|] eqn:Ep; [|by wp_step].
  destruct (flt _ _); [by wp_step|]. unfold pop_timer, upd_handle, isCancelled. wp_step. do 3 wp_step. do 2 wp_step.
  set (s1 := upd_handles _ _).
  assert (Hx1 : is_cancelled (s_handles s1) (Timers.handle e) = is_cancelled (s_handles s) (Timers.handle e)) by (by apply cancelled_alter).
  change (match s_handles s1 !! Timers.handle e with Some x => h_cancelled x | None => false end)
    with (is_cancelled (s_handles s1) (Timers.handle e)). rewrite Hx1.
  destruct (is_cancelled (s_handles s) _) eqn:Hx.
  - unfold retire, log. wp_go. apply preserves_wp; [done|]. by apply (retired_inv s e t').
  - wp_step. apply wp_push_ready.
    + apply I.
    + intros r' Hr Er. apply preserves_wp; [done|]. by apply (ready_inv s e t').
    + intros _. unfold captureFatal, log. wp_go.
      by apply (lost_inv s e t' (λ s, upd_stopping _ (upd_fatal _ (upd_tick S s)))).
Qed.
Lemma preserves_collectDueTimers : preserves collectDueTimers.
Proof.
  unfold collectDueTimers. solve_stable; try apply preserves_collect; eauto with stable.
Qed.
Hint Resolve preserves_armTimer preserves_collectDueTimers preserves_scheduleSoon preserves_callSoonThreadsafe : stable.

Lemma preserves_scheduleAt w due cb : is_nan w = false → preserves (scheduleAt w due cb).
Proof.
  intros Hn. apply wp_preserves. intros s I. unfold scheduleAt. wp_step. apply wp_checkClosed; [|done]. intros Hc.
  wp_step. apply wp_create; [|intros _; by inv_frame]. intros h Hf timer. do 2 wp_step.
  cbn [upd_handles upd_tick s_timers]. set (x := Hnd HTimer cb w false true timer timer).
  set (s0 := upd_tick S s). assert (I0 : inv s0) by (by inv_frame).
  assert (Hf0 : s_handles s0 !! h = None) by done. change (s_closed s0 = false) in Hc.
  change (s_timers s) with (s_timers s0). clearbody s0.
  destruct (due && _).
  - wp_step. apply wp_upd_handle. set (s1 := upd_handles (alter markReady h) _).
    assert (Eh : s_handles s1 = <[h := markReady x]> (s_handles s0)).
    { cbn. apply map_eq. intros k. destruct (decide (k = h)) as [-> |].
      - by rewrite lookup_alter_eq, !lookup_insert_eq.
      - by rewrite lookup_alter_ne, !lookup_insert_ne. }
    assert (I1 : inv s1).
    { apply (inv_core (upd_handles (<[h := markReady x]>) s0)); [unfold core; by rewrite Eh|]. by apply inv_insert. }
    assert (L1 : loose h s1) by (by apply (fresh_loose s0)).
    assert (K1 : kind_of (s_handles s1) h = Some true) by (unfold kind_of; by rewrite Eh, lookup_insert_eq).
    change (s_closed s1 = false) in Hc. clearbody s1. wp_step. apply wp_or_free. apply wp_push_ready.
    + apply I1.
    + intros r' Hr Er. wp_step. apply wp_log. apply wp_startIdle. intros s' Es'. apply (inv_core _ s' (eq_sym Es')).
      by eapply (inv_sched_due s1).
    + intros _. split; [by inv_frame|done].
  - wp_step. apply wp_catch. wp_step. apply wp_alloc. cbn [upd_handles upd_tick s_tick].
    assert (HP := Timers.push_spec (allocates (s_tick s0)) w h (s_timers s0) (iv_timers _ I0) Hn).
    destruct (Timers.push _ w h (s_timers s0)) as [t'|]; wp_step.
    + destruct HP as (Hw & HP & _ & Hcn). wp_step. apply wp_log. apply preserves_wp; [apply preserves_armTimer|].
      by eapply (inv_sched_timer s0).
    + do 3 wp_step. eapply (inv_core s0); [|done]. unfold core. cbn. by rewrite delete_insert_id.
Qed.
Lemma preserves_callLater d cb : (∀ t, 0 ≤ clock_ns t) → fits d → preserves (callLater d cb).
Proof.
  intros Hclk Hd. apply wp_preserves. intros s I. unfold callLater. wp_step. apply wp_now.
  apply preserves_wp; [|by inv_frame]. apply preserves_scheduleAt.
  by apply nonneg_nan, f64_add_nonneg; [apply now_of_nonneg|apply max0_nonneg].
Qed.
Lemma preserves_callAt w cb : is_nan w = false → preserves (callAt w cb).
Proof.
  intros Hn. unfold callAt. solve_stable. by apply preserves_scheduleAt.
Qed.

(** *** Cancelling *)
Lemma for_each_retire doomed s :
  ∃ s', for_each doomed (λ h, upd_handle clearScheduled h ;; log (EvRetired h)) s = (Ok tt, s') ∧
    core s' = (s_ready s, s_inbox s, s_timers s, s_handles s', s_closed s, s_log s ++ (EvRetired <$> doomed)) ∧
    (∀ k, s_handles s' !! k = if decide (k ∈ doomed) then clearScheduled <$> s_handles s !! k else s_handles s !! k).
Proof.
  revert s. induction doomed as [|h doomed IH]; intros s.
  { exists s. split_and!; [done|by unfold core; rewrite app_nil_r|]. intros k. by rewrite decide_False by apply not_elem_of_nil. }
  cbn [for_each]. unfold bind at 1, upd_handle at 1, log at 1, bind at 1, modify. cbn beta iota.
  destruct (IH (upd_log (λ l, l ++ [EvRetired h]) (upd_handles (alter clearScheduled h) s))) as (s' & Hr & Ec & Hh).
  exists s'. split_and!; [exact Hr| |].
  - unfold core in *. cbn in Ec. rewrite <-(assoc_L (++)) in Ec. cbn in Ec. injection Ec as -> -> -> -> ->. done.
  - intros k. rewrite Hh. cbn. destruct (decide (k = h)) as [-> |Hne].
    + rewrite lookup_alter_eq. rewrite (decide_True (P := h ∈ h :: doomed)) by set_solver.
      case_decide; [|done]. by destruct (s_handles s !! h).
    + rewrite lookup_alter_ne by done. destruct (decide (k ∈ doomed)).
      * by rewrite decide_True by set_solver.
      * by rewrite decide_False by set_solver.
Qed.
Lemma preserves_compact : preserves compact_timers.
Proof.
  apply wp_preserves. intros s I. unfold compact_timers. wp_step. apply wp_alloc. do 2 wp_step. cbn [id upd_tick s_handles s_timers].
  assert (HP := Timers.compact_spec (allocates (s_tick s)) (is_cancelled (s_handles s)) (s_timers s) (iv_timers _ I)).
  change (λ h, match s_handles s !! h with Some x => h_cancelled x | None => false end) with (is_cancelled (s_handles s)).
  destruct (Timers.compact _ _ _) as [doomed t']. do 2 wp_step.
  set (s1 := upd_timers _ _). destruct (for_each_retire doomed s1) as (s' & Hr & Ec & Hh). unfold wp. rewrite Hr.
  destruct (allocates (s_tick s)).
  - destruct HP as (Hw & -> & HP & _ & H0). by eapply (inv_compact s).
  - destruct HP as [-> ->]. apply (inv_core s); [|done]. rewrite Ec. cbn. rewrite app_nil_r.
    assert (E : s_handles s' = s_handles s); [|by rewrite E].
    apply map_eq. intros k. rewrite Hh. by rewrite decide_False by apply not_elem_of_nil.
Qed.
Hint Resolve preserves_compact : stable.

Lemma preserves_cancel h : preserves (cancel h).
Proof.
  apply wp_preserves. intros s I. unfold cancel. do 2 wp_step. destruct (s_handles s !! h) as [x|] eqn:Ex; [|by wp_step].
  destruct (h_cancelled x) eqn:Hx; [by wp_step|]. wp_step. apply wp_upd_handle. wp_step. apply wp_log.
  assert (Hin : h_kind x ≠ HTimer → s_closed s = false → h_in_heap x = false).
  { intros Hk Hc. apply not_true_is_false. intros Hi. apply (iv_heap _ I Hc h x Ex) in Hi. apply heap_timed in Hi; [|done].
    apply (iv_timed _ I) in Hi. unfold kind_of in Hi. rewrite Ex in Hi. cbn in Hi. injection Hi as Hi.
    by apply bool_decide_eq_true in Hi. }
  destruct (h_kind x) eqn:Ek.
  - wp_step. eapply (inv_cancel s _ h x set_cancelled (s_timers s)); try done; [by rewrite Ek|apply I|intros; by rewrite Hin].
  - wp_step; [|eapply (inv_cancel s _ h x set_cancelled (s_timers s)); try done; [by rewrite Ek|apply I|intros; by rewrite H]].
    unfold noteTimerCancelled. do 2 wp_step.
    assert (I' : inv (upd_timers (Timers.with_cancelled S) (upd_log (λ l, l ++ [EvCancel h]) (upd_handles (alter set_cancelled h) s)))).
    { eapply (inv_cancel s _ h x set_cancelled (Timers.with_cancelled S (s_timers s))); try done;
        [by rewrite Ek|apply wf_cancelled, I|intros; by rewrite H]. }
    do 2 wp_step. wp_step; [|done]. apply preserves_wp; [|done]. solve_stable.
  - apply wp_upd_handle. eapply (inv_cancel s _ h x (set_done ∘ set_cancelled) (s_timers s)); try done;
      [apply I|intros; by rewrite Hin|]. unfold core. cbn. by rewrite <-alter_twice.
Qed.
Hint Resolve preserves_cancel : stable.

(** ** Whatever Python code does *)
Definition lop_ok (o : lop) : Prop :=
  match o with LLater d _ => fits d | LAt w _ => is_nan w = false | _ => True end.

Lemma preserves_lop o : (∀ t, 0 ≤ clock_ns t) → lop_ok o → preserves (run_lop o).
Proof.
  intros Hc Ho. destruct o; cbn [run_lop]; try (by eauto with stable).
  - by apply preserves_callLater.
  - by apply preserves_callAt.
  - unfold stop. solve_stable. inv_frame.
  - solve_stable. inv_frame.
Qed.
Lemma preserves_lops l : (∀ t, 0 ≤ clock_ns t) → Forall lop_ok l → preserves (run_lops l).
Proof.
  intros Hc Hl. unfold run_lops. induction Hl as [|o l Ho _ IH]; cbn [for_each]; [solve_stable|].
  apply stable_bind; [apply _| |done]. solve_stable. by apply preserves_lop.
Qed.
End operations.

(** An environment whose clock is not negative and whose deadlines and delays are numbers. *)
Class Sane `{Env : LoopEnv} := {
  clock_pos : ∀ t, 0 ≤ clock_ns t;
  body_ok : ∀ cb t, Forall lop_ok (body cb t).1;
  handler_ok : ∀ t, Forall lop_ok (handler t);
  hook_ok : ∀ t, Forall lop_ok (slow_hook t) }.

Section running.
Context `{Env : LoopEnv} {HS : Sane}.
Implicit Types s : state.
#[local] Hint Resolve preserves_ask preserves_now preserves_alloc preserves_startIdle preserves_checkClosed
  preserves_captureFatal preserves_armTimer preserves_collectDueTimers : stable.

Lemma preserves_callbackFailed h e : preserves (callbackFailed h e).
Proof.
  unfold callbackFailed. destruct (_ || _); [apply preserves_captureFatal|].
  apply stable_bind; [apply _|by apply preserves_log|intros _].
  apply stable_bind; [apply _|apply preserves_ask|intros t]. apply preserves_lops; [apply clock_pos|apply handler_ok].
Qed.
Lemma wp_invoke h cb s : inv s → just_popped h s → is_cancelled (s_handles s) h = false →
  wp (invoke h cb) (λ _, inv) (λ _, inv) s.
Proof.
  intros I Hp Hx. unfold invoke. wp_step. apply wp_log.
  assert (I1 : inv (upd_log (λ l, l ++ [EvCall h]) s)) by (by eapply (inv_call s)).
  revert I1. generalize (upd_log (λ l, l ++ [EvCall h]) s). intros s1 I1. apply preserves_wp; [|done].
  apply stable_bind; [apply _|apply preserves_ask|intros t]. assert (Hb := body_ok cb t).
  destruct (body cb t) as [ops out]. apply stable_bind; [apply _|apply preserves_lops; [apply clock_pos|done]|intros _].
  destruct out; [apply preserves_callbackFailed|solve_stable].
Qed.
Lemma wp_runOne h s : inv s → just_popped h s → (h ∉ in_heap s) → wp (runOne h) (λ _, inv) (λ _, inv) s.
Proof.
  intros I Hp Hh. unfold runOne. do 2 wp_step. destruct (s_handles s !! h) as [x|] eqn:Ex; [|by wp_step].
  assert (Hx : is_cancelled (s_handles s) h = h_cancelled x) by (unfold is_cancelled; by rewrite Ex).
  destruct (h_kind x) eqn:Ek.
  - destruct (h_cancelled x); [by wp_step|]. by apply wp_invoke.
  - wp_step. apply wp_upd_handle. set (s1 := upd_handles _ s).
    assert (I1 : inv s1) by (apply inv_alter; [done|done|by right|done|done]).
    destruct (h_cancelled x); [by wp_step|]. apply wp_invoke; [done|done|]. unfold s1. cbn. by rewrite cancelled_alter.
  - destruct (h_pending x) eqn:Ep; cbn [negb]; [|by wp_step]. wp_step. apply wp_upd_handle. set (s1 := upd_handles _ s).
    assert (I1 : inv s1) by (apply inv_alter; [done|done|by left|done|done]).
    apply wp_invoke; [done|done|]. unfold s1. cbn. rewrite cancelled_alter by done. rewrite Hx.
    destruct (h_cancelled x) eqn:Ec; [|done]. by rewrite (iv_threadsafe _ I h x Ex Ek Ec) in Ep.
Qed.
Lemma wp_run_timed h s : inv s → just_popped h s → (h ∉ in_heap s) → wp (run_timed h) (λ _, inv) (λ _, inv) s.
Proof.
  intros I Hp Hh. unfold run_timed. do 2 wp_step. destruct (s_monitor s) as [d|]; [|by apply wp_runOne].
  unfold ask at 1. wp_step. do 3 wp_step. do 2 wp_step. wp_step. eapply wp_mono; [apply wp_runOne| |done]; [by inv_frame|done|done|].
  intros [] s' I'. apply preserves_wp; [|done]. apply stable_bind; [apply _|apply preserves_ask|intros t'].
  apply stable_when; [apply _|]. unfold reportSlowCallback.
  apply stable_bind; [apply _|by apply preserves_log|intros _].
  apply stable_bind; [apply _|apply preserves_ask|intros t2]. apply preserves_lops; [apply clock_pos|apply hook_ok].
Qed.

(** The oldest callback, popped. *)
Lemma popped_inv s h r' :
  inv s → Ready.pop (s_ready s) = Some (h, r') →
  let s1 := upd_log (λ l, l ++ [EvPop (is_timer s h) h]) (upd_ready (λ _, r') s) in
  inv s1 ∧ just_popped h s1 ∧ (h ∉ in_heap s1).
Proof.
  intros I Ep. assert (H := Ready.ring_pop _ (iv_ready _ I)). rewrite Ep in H. destruct H as [Hr Ec].
  destruct (iv_known _ I h) as [b Hk]; [rewrite Ec; set_solver|].
  assert (Hb : is_timer s h = b). { revert Hk. unfold kind_of, is_timer. destruct (s_handles s !! h); [|done]. by intros [= ->]. }
  assert (Hc : s_closed s = false).
  { destruct (s_closed s) eqn:Hc; [|done]. destruct (iv_closed _ I Hc) as [Hn _]. by rewrite Hn in Ec. }
  cbn zeta. rewrite Hb. split_and!.
  - by eapply (inv_pop s).
  - exists (s_log s), b. split; [done|apply I].
  - change (h ∉ in_heap s). intros Hin. assert (Ht := iv_timed _ I h (heap_timed s h I Hin)). rewrite Hk in Ht. injection Ht as ->.
    destruct (iv_nodup _ I) as [_ Hnd]. rewrite <-(iv_all _ I Hc) in Hnd.
    apply NoDup_app in Hnd as (_ & _ & Hnd). apply NoDup_app in Hnd as (_ & Hd & _). apply (Hd h).
    + unfold queued. rewrite Ec, list_elem_of_filter. set_solver.
    + set_solver.
Qed.
Lemma preserves_run_batch n : preserves (run_batch n).
Proof.
  induction n as [|n IH]; cbn [run_batch]; [solve_stable|]. apply wp_preserves. intros s I. do 2 wp_step.
  destruct (Ready.pop (s_ready s)) as [[h r']|] eqn:Ep; [|by wp_step]. do 2 wp_step. do 2 wp_step.
  change (is_timer (upd_ready (λ _, r') s) h) with (is_timer s h). wp_step. apply wp_log.
  destruct (popped_inv s h r' I Ep) as (I1 & J1 & H1). wp_step.
  eapply wp_mono; [by apply wp_run_timed| |done]. intros [] s2 I2. by apply preserves_wp.
Qed.
Lemma preserves_runReady : preserves runReady.
Proof.
  unfold runReady. apply stable_bind; [apply _|apply preserves_modify; done|intros _].
  apply stable_bind; [apply _|apply stable_gets; apply _|intros n].
  apply stable_bind; [apply _|apply preserves_modify; done|intros _]. apply preserves_run_batch.
Qed.
Lemma preserves_drain_loop fuel batches callbacks t0 : preserves (drain_loop fuel batches callbacks t0).
Proof.
  revert batches callbacks. induction fuel as [|fuel IH]; intros batches callbacks; cbn [drain_loop]; [solve_stable|].
  apply stable_bind; [apply _|apply stable_gets; apply _|intros s0]. destruct (_ || _); [solve_stable|].
  apply stable_bind; [apply _|apply preserves_runReady|intros _].
  apply stable_bind; [apply _|apply stable_gets; apply _|intros s1]. destruct (must_yield s1); [solve_stable|].
  case_bool_decide; [|apply IH]. apply stable_bind; [apply _|apply preserves_ask|intros t].
  destruct (_ || _); [solve_stable|apply IH].
Qed.
Lemma preserves_onIdle : preserves onIdle.
Proof.
  unfold onIdle. apply stable_bind; [apply _|apply preserves_ask|intros t].
  apply stable_bind; [apply _|apply preserves_drain_loop|intros _]. apply preserves_modify. intros s. by case_bool_decide.
Qed.
Lemma preserves_onTimer : preserves onTimer.
Proof.
  unfold onTimer. apply stable_bind; [apply _|by apply preserves_modify|intros _].
  apply stable_bind; [apply _|apply preserves_collectDueTimers|intros _]. apply preserves_armTimer.
Qed.
Lemma preserves_onWake : preserves onWake.
Proof.
  apply wp_preserves. intros s I. unfold onWake. wp_step. wp_step. set (s1 := upd_waker _ s). assert (I1 : inv s1) by (by inv_frame).
  clearbody s1. wp_step. apply wp_drainThreadsafe; [apply I1|apply I1| |].
  - intros r' i' ? ? ? ?. apply preserves_wp; [apply preserves_startIdle|]. by apply drained_inv.
  - intros _. apply preserves_wp; [apply preserves_captureFatal|by inv_frame].
Qed.
Lemma preserves_run_enter : preserves run_enter.
Proof. unfold run_enter. solve_stable; inv_frame. Qed.
Lemma preserves_run_leave : preserves run_leave.
Proof. unfold run_leave. solve_stable; inv_frame. Qed.
Lemma preserves_closeLoop : preserves closeLoop.
Proof.
  apply wp_preserves. intros s I. unfold closeLoop. do 2 wp_step. destruct (s_running s); [by wp_step|]. do 2 wp_step.
  destruct (s_closed s); [by wp_step|]. wp_go. set (s' := upd_armed _ _).
  assert (E : core s' = (Ready.empty, Ready.empty, Timers.empty, s_handles s, true, s_log s)) by done.
  clearbody s'. injection E as E1 E2 E3 E4 E5 E6.
  split; unfold queued, in_heap; rewrite ?E1, ?E2, ?E3, ?E4, ?E5, ?E6; try apply I; try done.
  - apply Ready.ring_wf.
  - apply Ready.ring_wf.
  - apply Timers.empty_wf.
  - intros h Hh. by apply not_elem_of_nil in Hh.
  - intros e He. by apply not_elem_of_nil in He.
Qed.

(** ** Every state of a loop

    Between its callbacks Python code and other threads operate on the loop at any time;
    while it runs, libuv calls back those of its handles that are active. *)
Inductive turn (s : state) : state → Prop :=
  | turn_op o : lop_ok o → turn s (run_lop o s).2
  | turn_idle : s_running s = true → s_idle s = true → turn s (onIdle s).2
  | turn_timer : s_running s = true → is_Some (s_armed s) → turn s (onTimer s).2
  | turn_wake : s_running s = true → s_waker s = true → turn s (onWake s).2
  | turn_enter : turn s (run_enter s).2
  | turn_leave : s_running s = true → turn s (run_leave s).2
  | turn_close : turn s (closeLoop s).2.
Inductive reachable : state → Prop :=
  | reach_init n d : reachable (init n d)
  | reach_turn s s' : reachable s → turn s s' → reachable s'.

Lemma inv_init n d : inv (init n d).
Proof.
  split; cbn; try done; try apply Ready.ring_wf; try apply Timers.empty_wf.
  - intros h Hh. by apply not_elem_of_nil in Hh.
  - intros h Hh. by apply not_elem_of_nil in Hh.
  - split; constructor.
  - intros h Hh. by apply not_elem_of_nil in Hh.
  - intros e He. by apply not_elem_of_nil in He.
  - intros h Hh. by apply not_elem_of_nil in Hh.
  - intros h Hh. by apply not_elem_of_nil in Hh.
  - intros [|? l1] l2 h E; discriminate.
Qed.
Lemma preserves_snd {A} (m : M state A) s : preserves m → inv s → inv (m s).2.
Proof. intros H I. assert (Hw := preserves_wp m s H I). revert Hw. unfold wp. by destruct (m s) as [[a|e] s']. Qed.
Lemma turn_inv s s' : turn s s' → inv s → inv s'.
Proof.
  intros [o Ho|_ _|_ _|_ _| |_|] I; apply preserves_snd; try done.
  - apply preserves_lop; [apply clock_pos|done].
  - apply preserves_onIdle.
  - apply preserves_onTimer.
  - apply preserves_onWake.
  - apply preserves_run_enter.
  - apply preserves_run_leave.
  - apply preserves_closeLoop.
Qed.
Lemma turns_inv s : reachable s → inv s.
Proof. induction 1; [apply inv_init|by eapply turn_inv]. Qed.

(** C2: Callbacks scheduled with [call_soon] and, from any thread, with [call_soon_threadsafe] leave
    the queue exactly once each and in the order they were scheduled: those that have left,
    those that are ready and those in the inbox are together what was scheduled, in order.  A
    callback is called only when it leaves, at most once, and never after it was cancelled. *)
Theorem callbacks_in_order s : reachable s → s_closed s = false →
  popped false (s_log s) ++ queued false s ++ Ready.contents (s_inbox s) = sched (s_log s) ∧
  NoDup (sched (s_log s)) ∧ calls (s_log s) `sublist_of` pops (s_log s) ∧ no_call_after_cancel (s_log s).
Proof.
  intros Hs Hc. apply turns_inv in Hs as I. split_and!; [by apply I|apply I|apply I|apply I].
Qed.

(** C23: Every timer is, exactly once, in the heap, among the ready callbacks, or gone: it has
    left the queue, or it was cancelled and dropped, or there was no memory for it when it was
    due.  The count of cancelled timers that decides when the heap is compacted is exact. *)
Theorem timers_accounted s : reachable s → s_closed s = false →
  popped true (s_log s) ++ queued true s ++ in_heap s ++ gone (s_log s) ≡ₚ timed (s_log s) ∧
  NoDup (timed (s_log s)) ∧
  (∀ h, EvRetired h ∈ s_log s → is_cancelled (s_handles s) h = true) ∧
  Timers.cancelled (s_timers s) = length (filter (λ h, is_cancelled (s_handles s) h = true) (in_heap s)).
Proof.
  intros Hs Hc. apply turns_inv in Hs as I. split_and!; [by apply I|apply I| |by apply I].
  intros h Hh. apply (iv_retired _ I). apply list_elem_of_omap. by exists (EvRetired h).
Qed.
End running.

(** ** A program to try it on

    Callback 0 schedules 1, from another thread 2, a timer 3 that is due and a timer 4 that is
    not, cancels the third handle, and raises; callback 1 stops the loop. *)
Definition demo : LoopEnv := {|
  clock_ns t := Z.of_nat t * 1000;
  hrtime t := Z.of_nat t;
  allocates _ := true;
  body cb _ :=
    match cb with
    | 0%nat => ([LSoon 1; LThreadsafe 2; LLater (S754_zero false) 3; LLater (f64_of_Z 1) 4; LCancel 2], Some (mk ValueError "no"))
    | 1%nat => ([LStop], None)
    | _ => ([], None)
    end;
  handler _ := [];
  slow_hook _ := [] |}.
#[export] Instance demo_sane : Sane (Env := demo).
Proof. split; [intros; cbn; lia| |intros; constructor|intros; constructor]. intros [|[|cb]] t; repeat constructor. Qed.
Definition demo_start : state := (run_enter (Env := demo) (run_lop (Env := demo) (LSoon 0) (init (NativeSide 1 0 false false) None)).2).2.
Definition demo_state : state := (onIdle (Env := demo) (onWake (Env := demo) (onIdle (Env := demo) demo_start).2).2).2.
Lemma demo_reachable : reachable (Env := demo) demo_state.
Proof.
  eapply reach_turn; [|apply turn_idle; by vm_compute]. eapply reach_turn; [|apply turn_wake; by vm_compute].
  eapply reach_turn; [|apply turn_idle; by vm_compute].
  eapply reach_turn; [|apply turn_enter]. eapply reach_turn; [apply reach_init|]. by apply turn_op.
Qed.
Lemma callbacks_in_order_witness :
  let s := demo_state in
  (sched (s_log s) = [0%nat; 1%nat; 2%nat] ∧ calls (s_log s) = [0%nat; 1%nat; 3%nat] ∧ timed (s_log s) = [3%nat; 4%nat]) ∧
  popped false (s_log s) ++ queued false s ++ Ready.contents (s_inbox s) = sched (s_log s) ∧
  NoDup (sched (s_log s)) ∧ calls (s_log s) `sublist_of` pops (s_log s) ∧ no_call_after_cancel (s_log s).
Proof.
  cbn zeta. split; [by vm_compute|].
  apply (callbacks_in_order (Env := demo)); [apply demo_reachable|by vm_compute].
Defined.
Lemma timers_accounted_witness :
  let s := demo_state in
  popped true (s_log s) ++ queued true s ++ in_heap s ++ gone (s_log s) ≡ₚ timed (s_log s) ∧
  NoDup (timed (s_log s)) ∧
  (∀ h, EvRetired h ∈ s_log s → is_cancelled (s_handles s) h = true) ∧
  Timers.cancelled (s_timers s) = length (filter (λ h, is_cancelled (s_handles s) h = true) (in_heap s)).
Proof. cbn zeta. apply (timers_accounted (Env := demo)); [apply demo_reachable|by vm_compute]. Defined.
