(* ===== verification/SchedLive.v ===== *)
(** * What a loop does with what is scheduled (zig/loop.zig)

    Over the scheduler and the invariant of Scheduler and SchedInv: nothing that is scheduled
    is without an active libuv handle that will get to it, a turn of the idle handle runs what
    is ready, in order and no more than a bounded number of callbacks, and a turn of the timer
    takes exactly the timers that are due.  There is memory throughout ([Plenty]); what happens
    when there is not is in the invariant. *)
From Stdlib Require Import SpecFloat Sorting.Sorted.
From S2P Require Import Prelude Clock Queue Heap Scheduler SchedInv.

Class Plenty `{Env : LoopEnv} := plenty : ∀ t, allocates t = true.

Implicit Types (h k n : nat) (s : state).

(** ** Nothing is stranded *)

(** Callbacks are ready only while the idle handle is active, callbacks wait in the inbox only
    while a wakeup is on its way, and the libuv timer is set for the earliest deadline in the
    heap, and stopped when there is none. *)
Definition idle_on s : Prop := Ready.len (s_ready s) ≠ 0%nat → s_idle s = true.
Definition wake_on s : Prop := Ready.len (s_inbox s) ≠ 0%nat → s_waker s = true.
Definition armed_on s : Prop := fst <$> s_armed s = Timers.when <$> Timers.peek (s_timers s).
Definition live s : Prop := idle_on s ∧ wake_on s ∧ armed_on s.

#[export] Instance pointwise_preorder (P : state → Prop) : PreOrder (λ s s', P s → P s').
Proof. split; [by intros s|intros s1 s2 s3 H1 H2 ?; auto]. Qed.
Abbreviation keeps P := (stable (λ s s', P s → P s')).

Section keeps.
Context (P : state → Prop).
Lemma keeps_wp {A} (m : M state A) s : keeps P m → P s → wp m (λ _, P) (λ _, P) s.
Proof. intros H Hs. eapply wp_mono; [apply H|intros a w H'; by apply H'|intros e w H'; by apply H']. Qed.
Lemma wp_keeps {A} (m : M state A) : (∀ s, P s → wp m (λ _, P) (λ _, P) s) → keeps P m.
Proof.
  intros H s. unfold wp. destruct (m s) as [[a|e] s'] eqn:Em; intros Hs; assert (Hw := H s Hs); unfold wp in Hw; by rewrite Em in Hw.
Qed.
Lemma keeps_snd {A} (m : M state A) s : keeps P m → P s → P (m s).2.
Proof. intros H Hs. assert (Hw := keeps_wp m s H Hs). revert Hw. unfold wp. by destruct (m s) as [[a|e] s']. Qed.
End keeps.

Section live.
Context `{Env : LoopEnv} {HP : Plenty}.

Lemma push_plenty x (r : Ready.ready nat) : is_Some (Ready.push true x r).
Proof. unfold Ready.push, Ready.ensureUnusedCapacity. case_decide; by eexists. Qed.
Lemma wp_push_ready_plenty h (Q : unit → state → Prop) E s :
  (∀ r', Q tt (upd_ready (λ _, r') (upd_tick S s))) → wp (push_ready h) Q E s.
Proof.
  intros H. unfold push_ready. wp_step. apply wp_alloc. do 2 wp_step. rewrite plenty.
  destruct (push_plenty h (s_ready (upd_tick S s))) as [r' ->]. by wp_step.
Qed.
Lemma pop_len (r : Ready.ready nat) h r' : Ready.pop r = Some (h, r') → Ready.len r ≠ 0%nat.
Proof. unfold Ready.pop. by case_decide. Qed.
Lemma move_all_len fuel from to : Ready.len (move_all fuel from to).1 ≠ 0%nat → Ready.len from ≠ 0%nat.
Proof.
  destruct fuel as [|fuel]; cbn [move_all]; [done|].
  destruct (Ready.pop from) as [[h from']|] eqn:E; [|done]. intros _. by apply pop_len in E.
Qed.
Lemma wp_drain_plenty (Q : unit → state → Prop) E s :
  (∀ r' i', (Ready.len i' ≠ 0 → Ready.len (s_inbox s) ≠ 0)%nat →
     Q tt (upd_ready (λ _, r') (upd_inbox (λ _, i') (upd_tick S s)))) → wp drainThreadsafe Q E s.
Proof.
  intros H. unfold drainThreadsafe. wp_step. apply wp_alloc. do 4 wp_step. rewrite plenty. cbn [s_ready s_inbox upd_tick].
  set (o := Ready.ensureUnusedCapacity _ _ _). assert (Ho : is_Some o) by (unfold o, Ready.ensureUnusedCapacity; case_decide; by eexists).
  destruct Ho as [r1 ->]. assert (Hm := move_all_len (Ready.len (s_inbox s)) (s_inbox s) r1).
  destruct (move_all _ _ _) as [i' r']. do 3 wp_step. by apply H.
Qed.
Lemma wp_startIdle_on (Q : unit → state → Prop) E s :
  (∀ s', idle_on s' → (wake_on s → wake_on s') → (armed_on s → armed_on s') → Q tt s') → wp startIdle Q E s.
Proof.
  intros H. unfold startIdle. wp_step. apply H.
  - unfold idle_on. destruct (s_idle s) eqn:Ei; cbn [negb andb]; [done|]. case_bool_decide as Hl; [done|]. intros H'. congruence.
  - by case_match.
  - by case_match.
Qed.

(** Handles, the log and the clocks do not matter. *)
Definition quiet_core s := (Ready.len (s_ready s), s_idle s, Ready.len (s_inbox s), s_waker s, s_armed s, Timers.peek (s_timers s)).
Lemma live_frame s s' : quiet_core s = quiet_core s' → live s → live s'.
Proof.
  unfold quiet_core, live, idle_on, wake_on, armed_on. intros E. injection E as -> -> -> -> -> ->. done.
Qed.
Lemma live_modify f : (∀ s, quiet_core (f s) = quiet_core s) → keeps live (modify f).
Proof. intros H s. wp_step. by apply live_frame. Qed.
Ltac live_frame := match goal with |- live ?s → live ?s' => exact (live_frame s s' eq_refl) end.

Lemma keeps_ask : keeps live ask.
Proof. unfold ask. solve_stable; live_frame. Qed.
Lemma keeps_now : keeps live now.
Proof. unfold now. solve_stable; apply keeps_ask. Qed.
Lemma live_alloc : keeps live alloc.
Proof. unfold alloc. solve_stable; apply keeps_ask. Qed.
Lemma keeps_log e : keeps live (log e).
Proof. unfold log. solve_stable; live_frame. Qed.
Lemma keeps_handle f h : keeps live (upd_handle f h).
Proof. unfold upd_handle. solve_stable; live_frame. Qed.
Lemma keeps_checkClosed : keeps live checkClosed.
Proof. unfold checkClosed. solve_stable. Qed.
Lemma keeps_captureFatal e : keeps live (captureFatal e).
Proof. unfold captureFatal. solve_stable; live_frame. Qed.
Hint Resolve keeps_ask keeps_now live_alloc keeps_log keeps_handle keeps_checkClosed keeps_captureFatal : stable.
Lemma keeps_create kind cb w : keeps live (create kind cb w).
Proof. unfold create. solve_stable; live_frame. Qed.
Lemma keeps_or_free h m : keeps live m → keeps live (or_free h m).
Proof. intros H. unfold or_free. solve_stable; try done; live_frame. Qed.
Hint Resolve keeps_create : stable.

Lemma keeps_scheduleSoon cb : keeps live (scheduleSoon cb).
Proof.
  unfold scheduleSoon. apply stable_bind; [apply _|apply keeps_create|intros h]. apply keeps_or_free.
  apply wp_keeps. intros s (H1 & H2 & H3). wp_step. apply wp_checkClosed; [intros _|done]. wp_step.
  apply wp_drain_plenty. intros r i Hi. wp_step. apply wp_push_ready_plenty. intros r'. wp_step. apply wp_log.
  apply wp_startIdle_on. intros s' H1' H2' H3'. split_and!; [done|apply H2'|by apply H3'].
  unfold wake_on. cbn. auto.
Qed.
Lemma keeps_threadsafe cb : keeps live (callSoonThreadsafe cb).
Proof.
  unfold callSoonThreadsafe. apply stable_bind; [apply _|apply keeps_checkClosed|intros _].
  apply stable_bind; [apply _|apply keeps_create|intros h]. apply wp_keeps. intros s L. wp_step.
  unfold or_free. apply wp_catch. wp_step. apply wp_alloc. do 2 wp_step. rewrite plenty.
  destruct (push_plenty h (s_inbox (upd_tick S s))) as [i' ->]. wp_step. wp_step. apply wp_log. wp_step.
  destruct L as (H1 & H2 & H3). by split_and!.
Qed.

(** Whatever the heap has become, arming sets the timer right. *)
Lemma drop_queues fuel : stable (λ s s', (idle_on s → idle_on s') ∧ (wake_on s → wake_on s')) (drop_cancelled fuel).
Proof.
  assert (PreOrder (λ s s', (idle_on s → idle_on s') ∧ (wake_on s → wake_on s'))) by (split; [done|intros s1 s2 s3; tauto]).
  induction fuel as [|fuel IH]; cbn [drop_cancelled]; unfold pop_timer, retire, upd_handle, isCancelled, log; solve_stable; done.
Qed.
Lemma total_drop fuel : total (drop_cancelled fuel).
Proof.
  induction fuel as [|fuel IH]; cbn [drop_cancelled]; unfold pop_timer, retire, upd_handle, isCancelled, log; solve_raises; done.
Qed.
Lemma total_armTimer : total armTimer.
Proof.
  unfold armTimer. apply raises_bind; [solve_raises|intros n]. apply raises_bind; [apply total_drop|intros _].
  apply raises_bind; [solve_raises|intros t]. destruct (Timers.peek t) as [e|]; [|solve_raises].
  apply raises_bind; [unfold now, ask; solve_raises|intros t0].
  destruct (timer_ms_total (f64_sub (Timers.when e) t0) (f64_of_Z 1)) as [ms ->]; [by right|solve_raises].
Qed.
Lemma wp_armTimer s : idle_on s → wake_on s → wp armTimer (λ _, live) (λ _ _, False) s.
Proof.
  intros H1 H2. eapply wp_mono; [apply (wp_and _ _ (λ _ s', live s') _ (λ _ _, True) _ (total_armTimer s))|by intros [] s' [_ ?]|by intros e s' [[] _]].
  unfold armTimer. do 3 wp_step. eapply wp_mono; [apply drop_queues| |done]. intros [] s' [H1' H2']. do 2 wp_step.
  specialize (H1' H1). specialize (H2' H2). destruct (Timers.peek (s_timers s')) as [e|] eqn:Ep.
  - wp_step. apply wp_now. case_match; wp_step; [|done]. split_and!; [done|done|]. unfold armed_on. cbn. by rewrite Ep.
  - wp_step. split_and!; [done|done|]. unfold armed_on. cbn. by rewrite Ep.
Qed.
Lemma keeps_armTimer : keeps live armTimer.
Proof. apply wp_keeps. intros s (H1 & H2 & _). eapply wp_mono; [by apply wp_armTimer|done|done]. Qed.

Lemma keeps_scheduleAt w due cb : keeps live (scheduleAt w due cb).
Proof.
  unfold scheduleAt. apply stable_bind; [apply _|apply keeps_checkClosed|intros _].
  apply stable_bind; [apply _|apply keeps_create|intros h]. apply stable_bind; [apply _|apply stable_gets; apply _|intros t0].
  destruct (due && _); apply wp_keeps; intros s (H1 & H2 & H3).
  - wp_step. apply wp_upd_handle. wp_step. unfold or_free. apply wp_catch. apply wp_push_ready_plenty. intros r'. wp_step. apply wp_log.
    apply wp_startIdle_on. intros s' H1' H2' H3'. split_and!; [done|by apply H2'|by apply H3'].
  - wp_step. unfold or_free. apply wp_catch. wp_step. apply wp_alloc. rewrite plenty.
    assert (is_Some (Timers.push true w h t0)) as [t' ->] by (unfold Timers.push; case_decide; by eexists).
    wp_step. wp_step. apply wp_log. eapply wp_mono; [by apply wp_armTimer|done|done].
Qed.
Lemma keeps_compact : keeps (λ s, idle_on s ∧ wake_on s) compact_timers.
Proof.
  unfold compact_timers, alloc, ask, upd_handle, log. solve_stable; done.
Qed.
Lemma keeps_note : keeps live noteTimerCancelled.
Proof.
  unfold noteTimerCancelled. apply stable_bind; [apply _| |intros _].
  { by apply live_modify. }
  apply stable_bind; [apply _|apply stable_gets; apply _|intros t0]. apply wp_keeps. intros s L. wp_step; [|done].
  wp_step. destruct L as (H1 & H2 & H3).
  eapply wp_mono; [apply (wp_and _ _ (λ _ _, True) _ (λ _ _, False) _ (keeps_wp _ _ _ keeps_compact (conj H1 H2)))| |].
  - unfold compact_timers. wp_step. apply wp_alloc. do 2 wp_step. destruct (Timers.compact _ _ _) as [d t']. do 2 wp_step.
    match goal with |- wp _ _ _ ?s1 => destruct (for_each_retire d s1) as (s' & Hr & _) end. unfold wp. by rewrite Hr.
  - intros [] s' [[? ?] _]. eapply wp_mono; [by apply wp_armTimer|done|done].
  - by intros e s' [_ []].
Qed.
Lemma keeps_cancel h : keeps live (cancel h).
Proof. unfold cancel. solve_stable; apply keeps_note. Qed.

Lemma keeps_lop o : keeps live (run_lop o).
Proof.
  destruct o; cbn [run_lop]; unfold callLater, callAt, stop.
  - apply keeps_scheduleSoon.
  - apply keeps_threadsafe.
  - solve_stable. apply keeps_scheduleAt.
  - solve_stable. apply keeps_scheduleAt.
  - apply keeps_cancel.
  - solve_stable; live_frame.
  - solve_stable; live_frame.
Qed.
Lemma keeps_lops l : keeps live (run_lops l).
Proof. unfold run_lops. solve_stable. apply keeps_lop. Qed.
Hint Resolve keeps_lops : stable.

(** Callbacks leave the ready queue only while the idle handle is on, or run in it. *)
Lemma keeps_runOne h : keeps live (runOne h).
Proof. unfold runOne, invoke, callbackFailed. solve_stable. Qed.
Lemma keeps_run_timed h : keeps live (run_timed h).
Proof. unfold run_timed, reportSlowCallback. solve_stable; apply keeps_runOne. Qed.
Lemma keeps_run_batch n : keeps live (run_batch n).
Proof.
  induction n as [|n IH]; cbn [run_batch]; [solve_stable|]. apply wp_keeps. intros s L. do 2 wp_step.
  destruct (Ready.pop (s_ready s)) as [[h r']|] eqn:Ep; [|by wp_step]. apply pop_len in Ep as Hl. do 2 wp_step.
  apply keeps_wp; [|by destruct L as (H1 & H2 & H3); split_and!; [intros _; apply H1|..]].
  apply stable_bind; [apply _|apply stable_gets; apply _|intros k]. apply stable_bind; [apply _|apply keeps_log|intros _].
  apply stable_bind; [apply _|apply keeps_run_timed|done].
Qed.
Lemma keeps_drain_loop fuel batches callbacks t0 : keeps live (drain_loop fuel batches callbacks t0).
Proof.
  revert batches callbacks. induction fuel as [|fuel IH]; intros batches callbacks; cbn [drain_loop]; unfold runReady; solve_stable;
    try apply keeps_run_batch; try apply IH; live_frame.
Qed.
Lemma keeps_onIdle : keeps live onIdle.
Proof.
  unfold onIdle. apply stable_bind; [apply _|apply keeps_ask|intros t]. apply stable_bind; [apply _|apply keeps_drain_loop|intros _].
  apply stable_modify. intros s (H1 & H2 & H3). case_bool_decide; [|done]. split_and!; [|done|done]. by intros Hn.
Qed.
Lemma wp_collect fuel deadline s : wake_on s → wp (collect fuel deadline) (λ b s', b = true ∧ wake_on s') (λ _ _, False) s.
Proof.
  revert s. induction fuel as [|fuel IH]; intros s Hi; cbn [collect]; [done|]. unfold pop_timer, retire, upd_handle, isCancelled, log.
  do 2 wp_step. destruct (Timers.pop _) as [[e t']|]; [|done]. wp_step; [done|]. do 4 wp_step. do 2 wp_step. wp_step.
  - wp_go. by apply IH.
  - wp_step. apply wp_push_ready_plenty. intros r'. by apply IH.
Qed.
Lemma keeps_onTimer : keeps live onTimer.
Proof.
  apply wp_keeps. intros s (_ & H2 & _). unfold onTimer, collectDueTimers. do 4 wp_step. apply wp_now. do 3 wp_step.
  eapply wp_mono; [by apply wp_collect| |done]. intros b s' [-> Hi]. apply wp_startIdle_on. intros s2 Hi2 Hw2 _.
  eapply wp_mono; [apply wp_armTimer; [done|by apply Hw2]|done|done].
Qed.
(** The one place where it matters that the inbox is emptied. *)
Lemma live_onWake s : inv s → live s → live (onWake s).2.
Proof.
  intros I (_ & _ & H3). enough (Hw : wp onWake (λ _, live) (λ _, live) s).
  { revert Hw. unfold wp. by destruct (onWake s) as [[[]|e] s']. }
  unfold onWake. do 3 wp_step. apply wp_drainThreadsafe; [apply I|apply I| |by rewrite plenty].
  intros r i Hr Hi Ei _. apply wp_startIdle_on. intros s2 Hi2 Hw2 Ha2. split_and!; [done| |by apply Ha2].
  apply Hw2. unfold wake_on. cbn. by rewrite <-(Ready.contents_length i), Ei by done.
Qed.
Lemma live_turn s s' : turn s s' → inv s → live s → live s'.
Proof.
  intros [o Ho|_ _|_ _|_ _| |_|] I L; try (by apply live_onWake); apply keeps_snd; try done.
  - apply keeps_lop.
  - apply keeps_onIdle.
  - apply keeps_onTimer.
  - unfold run_enter. apply stable_bind; [apply _|apply keeps_checkClosed|intros _].
    apply stable_bind; [apply _|apply stable_gets; apply _|intros []]; [solve_stable|].
    apply stable_bind; [apply _|by apply live_modify|intros _]. apply stable_bind; [apply _|by apply live_modify|intros _].
    apply stable_bind; [apply _| |intros _; apply keeps_armTimer]. apply wp_keeps. intros s2 (H1 & H2 & H3).
    apply wp_startIdle_on. intros s3 ? ? ?. split_and!; [done|auto|auto].
  - unfold run_leave. solve_stable; live_frame.
  - apply wp_keeps. intros s1 L1. unfold closeLoop. wp_go; try done. split_and!; [by intros []|by intros []|done].
Qed.
Lemma reachable_live `{!Sane} s : reachable s → live s.
Proof.
  intros Hr. induction Hr as [n d|s1 s2 Hr IH Ht]; [split_and!; [by intros []|by intros []|done]|].
  apply turns_inv in Hr as I1. by apply (live_turn s1).
Qed.
End live.

(** C10: In every state a loop can be in: if a callback is ready, the idle handle that runs it is
    active; if one waits in the inbox, the wakeup that moves it is on its way; and the timer is
    set exactly for the earliest deadline of the heap, or stopped when there is none. *)
Theorem nothing_stranded `{Env : LoopEnv, HS : !Sane, HP : !Plenty} s : reachable s →
  (Ready.contents (s_ready s) ≠ [] → s_idle s = true) ∧
  (Ready.contents (s_inbox s) ≠ [] → s_waker s = true) ∧
  match s_armed s with
  | None => Timers.items (s_timers s) = []
  | Some (w, _) => ∃ e, e ∈ Timers.items (s_timers s) ∧ Timers.when e = w ∧
      Forall (λ e', Timers.before e' e = false) (Timers.items (s_timers s))
  end.
Proof.
  intros Hr. apply turns_inv in Hr as I. apply reachable_live in Hr as L.
  destruct L as (H1 & H2 & H3). split_and!.
  - intros Hn. apply H1. rewrite <-Ready.contents_length by apply I. intros E. by apply Hn, nil_length_inv.
  - intros Hn. apply H2. rewrite <-Ready.contents_length by apply I. intros E. by apply Hn, nil_length_inv.
  - unfold armed_on in H3. destruct (s_armed s) as [[w ms]|]; cbn in H3; symmetry in H3.
    + apply fmap_Some in H3 as (e & He & ->). exists e. destruct (Timers.peek_least _ _ (iv_timers _ I) He). by split_and!.
    + apply fmap_None in H3. unfold Timers.peek in H3. by destruct (Timers.items _).
Qed.

(** ** A turn of the idle handle *)

(** What operations do to the ready queue: they add to its end, and nothing else leaves it. *)
Definition queues_wf s : Prop := Ready.wf (s_ready s) ∧ Ready.wf (s_inbox s).
Definition grows s s' : Prop := queues_wf s →
  queues_wf s' ∧ s_iterations s' = s_iterations s ∧ s_callbacks_run s' = s_callbacks_run s ∧
  pops (s_log s') = pops (s_log s) ∧ ∃ l, Ready.contents (s_ready s') = Ready.contents (s_ready s) ++ l.
#[export] Instance grows_preorder : PreOrder grows.
Proof.
  split; [intros s H; split_and!; [done..|exists []; by rewrite app_nil_r]|]. intros s1 s2 s3 H1 H2 H.
  destruct (H1 H) as (Hw & E1 & E2 & E3 & l & E4). destruct (H2 Hw) as (Hw' & F1 & F2 & F3 & l' & F4).
  split_and!; [done|congruence..|]. exists (l ++ l'). by rewrite F4, E4, (assoc_L (++)).
Qed.
Lemma grows_frame s s' :
  (s_ready s, s_inbox s, s_iterations s, s_callbacks_run s, pops (s_log s)) =
  (s_ready s', s_inbox s', s_iterations s', s_callbacks_run s', pops (s_log s')) → grows s s'.
Proof.
  intros E [H1 H2]. injection E as E1 E2 E3 E4 E5. unfold queues_wf. rewrite <-E1, <-E2.
  split_and!; [done..|exists []; by rewrite app_nil_r].
Qed.

Section turns.
Context `{Env : LoopEnv}.
Ltac grows_frame := match goal with |- grows ?s ?s' => exact (grows_frame s s' eq_refl) end.

Lemma wp_grows {A} (m : M state A) : (∀ s, queues_wf s → wp m (λ _, grows s) (λ _, grows s) s) → stable grows m.
Proof.
  intros H s. unfold wp. destruct (m s) as [[a|e] s'] eqn:Em; intros Hs; assert (Hw := H s Hs); unfold wp in Hw; rewrite Em in Hw; by apply Hw.
Qed.
Lemma grows_log e : pop_of e = None → stable grows (log e).
Proof.
  intros He s. unfold log. wp_step. apply grows_frame. cbn. rewrite omap_app. cbn. by rewrite He, app_nil_r.
Qed.
Lemma grows_ask : stable grows ask.
Proof. unfold ask. solve_stable; grows_frame. Qed.
Hint Resolve grows_ask : stable.
Lemma grows_alloc : stable grows alloc.
Proof. unfold alloc. solve_stable. Qed.
Lemma grows_now : stable grows now.
Proof. unfold now. solve_stable. Qed.
Lemma grows_handle f h : stable grows (upd_handle f h).
Proof. unfold upd_handle. solve_stable; grows_frame. Qed.
Lemma grows_startIdle : stable grows startIdle.
Proof. intros s. unfold startIdle. wp_step. case_match; grows_frame. Qed.
Lemma grows_checkClosed : stable grows checkClosed.
Proof. unfold checkClosed. solve_stable. Qed.
Lemma grows_captureFatal e : stable grows (captureFatal e).
Proof. unfold captureFatal. solve_stable; grows_frame. Qed.
Hint Resolve grows_alloc grows_now grows_handle grows_startIdle grows_checkClosed grows_captureFatal : stable.
Hint Extern 3 (stable grows (log _)) => by apply grows_log : stable.
Lemma grows_create kind cb w : stable grows (create kind cb w).
Proof. unfold create. solve_stable; grows_frame. Qed.
Lemma grows_or_free h m : stable grows m → stable grows (or_free h m).
Proof. intros H. unfold or_free. solve_stable; try done; grows_frame. Qed.
Lemma grows_push_ready h : stable grows (push_ready h).
Proof.
  apply wp_grows. intros s H. apply wp_push_ready; [apply H| |intros _; grows_frame].
  intros r' Hr Er _. split_and!; [split; [done|apply H]|done..|by exists [h]].
Qed.
Lemma grows_drain : stable grows drainThreadsafe.
Proof.
  apply wp_grows. intros s H. apply wp_drainThreadsafe; [apply H|apply H| |intros _; grows_frame].
  intros r' i' Hr Hi Ei Er _. split_and!; [by split|done..|by eexists].
Qed.
Hint Resolve grows_create grows_push_ready grows_drain : stable.
Lemma grows_scheduleSoon cb : stable grows (scheduleSoon cb).
Proof. unfold scheduleSoon. solve_stable. apply grows_or_free. solve_stable. Qed.
Lemma grows_threadsafe cb : stable grows (callSoonThreadsafe cb).
Proof.
  unfold callSoonThreadsafe. solve_stable; [|grows_frame]. apply grows_or_free, wp_grows. intros s H. wp_step. apply wp_alloc. do 2 wp_step.
  assert (Hp := Ready.ring_push (allocates (s_tick s)) a0 (s_inbox s) (proj2 H)). cbn [upd_tick s_inbox].
  destruct (Ready.push _ _ _); wp_step; [|grows_frame]. intros _. destruct Hp. split_and!; [split; [apply H|done]|done..|].
  exists []. by rewrite app_nil_r.
Qed.
Lemma grows_drop fuel : stable grows (drop_cancelled fuel).
Proof. induction fuel as [|fuel IH]; cbn [drop_cancelled]; unfold pop_timer, retire, isCancelled; solve_stable; done || grows_frame. Qed.
Hint Resolve grows_drop : stable.
Lemma grows_armTimer : stable grows armTimer.
Proof. unfold armTimer. solve_stable; grows_frame. Qed.
Hint Resolve grows_armTimer : stable.
Lemma grows_scheduleAt w due cb : stable grows (scheduleAt w due cb).
Proof. unfold scheduleAt. solve_stable; apply grows_or_free; solve_stable; grows_frame. Qed.
Lemma grows_compact : stable grows compact_timers.
Proof. unfold compact_timers. solve_stable; grows_frame. Qed.
Hint Resolve grows_scheduleSoon grows_threadsafe grows_scheduleAt grows_compact : stable.
Lemma grows_cancel h : stable grows (cancel h).
Proof. unfold cancel, noteTimerCancelled. solve_stable; grows_frame. Qed.
Hint Resolve grows_cancel : stable.
Lemma grows_lop o : stable grows (run_lop o).
Proof. destruct o; cbn [run_lop]; unfold callLater, callAt, stop; solve_stable; grows_frame. Qed.
Lemma grows_lops l : stable grows (run_lops l).
Proof. unfold run_lops. solve_stable; apply grows_lop. Qed.
Hint Resolve grows_lops : stable.
Lemma grows_run_timed h : stable grows (run_timed h).
Proof. unfold run_timed, reportSlowCallback, runOne, invoke, callbackFailed. solve_stable. Qed.

(** What the operations raise is up to the code that called them; running a callback raises
    nothing. *)
Lemma total_lops l : total (run_lops l).
Proof.
  apply raises_for_each. intros o s. unfold wp, bind, capture. by destruct (run_lop o s) as [[?|?] ?].
Qed.
Hint Resolve total_lops : raises.
Lemma total_run_timed h : total (run_timed h).
Proof. unfold run_timed, reportSlowCallback, runOne, invoke, callbackFailed, captureFatal, upd_handle, log, ask. solve_raises. Qed.

(** A run of callbacks: what was popped, and how the counters have moved. *)
Definition ran (l : list nat) (i c : nat) s s' : Prop :=
  queues_wf s' ∧ pops (s_log s') = pops (s_log s) ++ l ∧
  s_iterations s' = (s_iterations s + i)%nat ∧ s_callbacks_run s' = (s_callbacks_run s + c)%nat.

Lemma wp_run_timed_grows h s : queues_wf s → wp (run_timed h) (λ _ s', grows s s') (λ _ _, False) s.
Proof.
  intros Hs. eapply wp_mono; [apply (wp_and _ _ _ _ _ _ (grows_run_timed h s) (total_run_timed h s))|by intros [] s' [? _]|by intros e s' [_ []]].
Qed.
Lemma wp_run_batch n s : queues_wf s → (n ≤ length (Ready.contents (s_ready s)))%nat →
  wp (run_batch n) (λ _ s', ran (take n (Ready.contents (s_ready s))) 0 0 s s' ∧
    ∃ l, Ready.contents (s_ready s') = drop n (Ready.contents (s_ready s)) ++ l) (λ _ _, False) s.
Proof.
  revert s. induction n as [|n IH]; intros s Hs Hn; cbn [run_batch].
  { wp_step. split; [unfold ran; cbn; split_and!; [apply Hs..|by rewrite app_nil_r|lia|lia]|]. exists []. by rewrite app_nil_r. }
  do 2 wp_step. assert (Hp := Ready.ring_pop (s_ready s) (proj1 Hs)).
  destruct (Ready.pop (s_ready s)) as [[h r']|]; [|rewrite Hp in Hn; cbn in Hn; lia]. destruct Hp as [Hr Ec]. rewrite Ec in *. cbn in Hn.
  do 2 wp_step. do 2 wp_step. set (s1 := upd_ready _ s). wp_step. apply wp_log. set (s2 := upd_log _ s1). wp_step.
  eapply wp_mono; [apply wp_run_timed_grows|intros [] s3 G|done]; [split; [done|apply Hs]|].
  destruct G as (Hs3 & F1 & F2 & F3 & l & F4); [split; [done|apply Hs]|]. cbn in F1, F2, F4.
  eapply wp_mono; [apply IH; [done|rewrite F4, length_app; lia]| |done]. intros [] s4 [(Hs4 & G1 & G2 & G3) [l' G4]].
  rewrite F3 in G1. rewrite F4 in G1, G4. unfold s2 in G1. cbn in G1. rewrite omap_app in G1. cbn in G1.
  rewrite take_app_le in G1 by lia. rewrite drop_app_le in G4 by lia.
  split; [|by exists (l ++ l'); rewrite G4; cbn; rewrite (assoc_L (++))].
  split_and!; [apply Hs4..|by rewrite G1, <-(assoc_L (++))|lia|lia].
Qed.
Lemma wp_runReady s : queues_wf s →
  wp runReady (λ _ s', ran (Ready.contents (s_ready s)) 1 (length (Ready.contents (s_ready s))) s s') (λ _ _, False) s.
Proof.
  intros Hs. unfold runReady. do 6 wp_step. cbn [upd_iterations s_ready]. rewrite <-Ready.contents_length by apply Hs.
  eapply wp_mono; [apply wp_run_batch; [apply Hs|done]| |done]. intros [] s' [(H1 & H2 & H3 & H4) _]. cbn in H2, H3, H4.
  rewrite take_ge in H2 by done. split_and!; [apply H1..|done|lia|lia].
Qed.

(** [limit] is what a drain of the ready queue keeps within. *)
Lemma may_drain_bound s batches callbacks : batches ≠ 0%nat → may_drain s batches callbacks = true →
  (batches < ready_drain_io_batch_limit)%nat ∧ (callbacks + Ready.len (s_ready s) ≤ ready_drain_callback_limit)%nat.
Proof.
  intros Hb. unfold may_drain. rewrite bool_decide_eq_false_2 by done. cbn [orb].
  rewrite negb_true_iff, !orb_false_iff, !bool_decide_eq_false. intros [[[H1 H2] H3] _].
  destruct (bool_decide (1 < external_handles _)%nat); unfold ready_drain_batch_limit, ready_drain_io_batch_limit in *; lia.
Qed.
(** From a point [batches] and [callbacks] into the drain to its end. *)
Definition drained (batches callbacks : nat) s s' : Prop :=
  let q := Ready.contents (s_ready s) in
  ∃ l i, ran l i (length l) s s' ∧ (batches = 0%nat → q `prefix_of` l) ∧ (batches + i ≤ ready_drain_io_batch_limit)%nat ∧
    (callbacks + length l ≤ Nat.max (if decide (batches = 0%nat) then length q else callbacks) ready_drain_callback_limit)%nat.
Definition may_run (batches callbacks : nat) s : Prop :=
  (batches ≠ 0 → batches < ready_drain_io_batch_limit ∧
    callbacks + length (Ready.contents (s_ready s)) ≤ ready_drain_callback_limit)%nat.

Lemma drained_none batches callbacks s : queues_wf s → (batches ≤ ready_drain_io_batch_limit)%nat →
  Ready.contents (s_ready s) = [] ∨ batches ≠ 0%nat → (batches = 0 → callbacks = 0)%nat → drained batches callbacks s s.
Proof.
  intros Hs Hb Hor Hc. exists [], 0%nat. refine (conj _ (conj _ (conj _ _))).
  - split_and!; [apply Hs..|by rewrite app_nil_r|lia|cbn; lia].
  - intros Hz. by destruct Hor as [->|?].
  - lia.
  - cbn. case_decide; lia.
Qed.
Lemma drained_one batches callbacks s s1 : may_run batches callbacks s → (batches = 0 → callbacks = 0)%nat →
  ran (Ready.contents (s_ready s)) 1 (length (Ready.contents (s_ready s))) s s1 → drained batches callbacks s s1.
Proof.
  intros Hm Hc Hr. eexists _, 1%nat. refine (conj Hr (conj _ (conj _ _))); [done|..].
  - destruct (decide (batches = 0%nat)) as [-> |Hz]; [unfold ready_drain_io_batch_limit; lia|]. destruct (Hm Hz). lia.
  - case_decide as Hz; [rewrite Hc by done; lia|]. destruct (Hm Hz). lia.
Qed.
Lemma drained_more batches callbacks s s1 s2 : may_run batches callbacks s → (batches = 0 → callbacks = 0)%nat →
  ran (Ready.contents (s_ready s)) 1 (length (Ready.contents (s_ready s))) s s1 →
  drained (S batches) (callbacks + length (Ready.contents (s_ready s))) s1 s2 → drained batches callbacks s s2.
Proof.
  intros Hm Hc (_ & E1 & E2 & E3) (l & i & (Hs2 & F1 & F2 & F3) & _ & F4 & F5).
  set (q := Ready.contents (s_ready s)) in *. rewrite decide_False in F5 by done.
  exists (q ++ l), (S i). rewrite length_app. refine (conj _ (conj _ (conj _ _))).
  - split_and!; [apply Hs2..|by rewrite F1, E1, (assoc_L (++))|lia|lia].
  - intros _. by eexists.
  - lia.
  - fold q. case_decide as Hz; [rewrite Hc in * by done; lia|]. destruct (Hm Hz) as [_ Hm']. fold q in Hm'. lia.
Qed.

Lemma wp_drain_loop fuel batches callbacks t0 s : queues_wf s →
  (batches + fuel = S ready_drain_io_batch_limit)%nat → (batches ≤ ready_drain_io_batch_limit)%nat → (batches = 0 → callbacks = 0)%nat →
  wp (drain_loop fuel batches callbacks t0) (λ _, drained batches callbacks s) (λ _ _, False) s.
Proof.
  revert s batches callbacks. induction fuel as [|fuel IH]; intros s batches callbacks Hs Hf Hb Hc; cbn [drain_loop]; [lia|].
  do 2 wp_step. cbn [id]. destruct (_ || _) eqn:Hgo.
  { wp_step. apply drained_none; [done..| |done]. apply orb_true_iff in Hgo as [Hz|Hm].
    - left. apply bool_decide_eq_true in Hz. apply nil_length_inv. by rewrite Ready.contents_length by apply Hs.
    - right. intros ->. unfold may_drain in Hm. by rewrite bool_decide_eq_true_2 in Hm. }
  apply orb_false_iff in Hgo as [_ Hm]. apply negb_false_iff in Hm.
  assert (Hrun : may_run batches callbacks s).
  { intros Hn. destruct (may_drain_bound s batches callbacks Hn Hm). by rewrite Ready.contents_length by apply Hs. }
  rewrite <-(Ready.contents_length (s_ready s)) by apply Hs.
  wp_step. eapply wp_mono; [by apply wp_runReady| |done]. intros [] s1 Hr.
  assert (Hmore : ∀ s2, ran (Ready.contents (s_ready s)) 1 (length (Ready.contents (s_ready s))) s s2 →
    wp (drain_loop fuel (S batches) (callbacks + length (Ready.contents (s_ready s))) t0) (λ _, drained batches callbacks s) (λ _ _, False) s2).
  { intros s2 Hr2. assert (S batches ≤ ready_drain_io_batch_limit)%nat.
    { destruct (decide (batches = 0%nat)) as [-> |Hz]; [unfold ready_drain_io_batch_limit; lia|]. destruct (Hrun Hz); lia. }
    eapply wp_mono; [apply IH; [apply Hr2|lia|done|done]| |done]. intros [] s3 Hd. by eapply drained_more. }
  do 2 wp_step. cbn [id]. destruct (must_yield s1); [wp_step; by apply drained_one|]. case_bool_decide; [|by apply Hmore].
  unfold ask. do 6 wp_step. wp_step; [wp_step; by apply drained_one|by apply Hmore].
Qed.
Lemma wp_onIdle s : queues_wf s → wp onIdle (λ _, drained 0 0 s) (λ _ _, False) s.
Proof.
  intros Hs. unfold onIdle, ask. do 5 wp_step. do 2 wp_step.
  eapply wp_mono; [apply wp_drain_loop; [done|unfold ready_drain_io_batch_limit; lia|unfold ready_drain_io_batch_limit; lia|done]| |done].
  intros [] s' H. wp_step. by case_bool_decide.
Qed.
End turns.

(** From [s] to [s'] the callbacks [l] left the ready queue, in this order. *)
Definition took (l : list nat) s s' : Prop := pops (s_log s') = pops (s_log s) ++ l.

(** What is ready when the loop turns to its callbacks runs in that turn, all of it and in
    order, whatever the callbacks schedule, cancel or stop meanwhile; running raises nothing,
    however the callbacks end. *)
Theorem ready_runs_in_turn `{Env : LoopEnv, HS : !Sane} s : reachable s →
  (onIdle s).1 = Ok tt ∧
  ∃ more, took (Ready.contents (s_ready s) ++ more) s (onIdle s).2.
Proof.
  intros Hr. apply turns_inv in Hr as I. assert (Hw := wp_onIdle s (conj (iv_ready _ I) (iv_inbox _ I))).
  revert Hw. unfold wp. destruct (onIdle s) as [[[]|e] s']; [|done]. intros (l & i & (_ & E & _) & Hp & _). split; [done|].
  destruct (Hp eq_refl) as [more ->]. by exists more.
Qed.

(** C33: And the turn ends: after at most 256 batches, and after 16384 callbacks unless more than
    that were ready to begin with.  The counters the metrics report count exactly the batches
    and the callbacks taken off the queue. *)
Theorem turn_bounded `{Env : LoopEnv, HS : !Sane} s : reachable s →
  let s' := (onIdle s).2 in
  ∃ l, took l s s' ∧
    s_callbacks_run s' = (s_callbacks_run s + length l)%nat ∧
    (length l ≤ Nat.max (length (Ready.contents (s_ready s))) ready_drain_callback_limit)%nat ∧
    (s_iterations s ≤ s_iterations s' ≤ s_iterations s + ready_drain_io_batch_limit)%nat.
Proof.
  intros Hr. apply turns_inv in Hr as I. assert (Hw := wp_onIdle s (conj (iv_ready _ I) (iv_inbox _ I))).
  revert Hw. unfold wp. destruct (onIdle s) as [[[]|e] s']; [|done]. cbn [snd].
  intros (l & i & (_ & E1 & E2 & E3) & _ & Hb & Hl). exists l. rewrite decide_True in Hl by done. split_and!; [done|done|lia..].
Qed.

(** ** A turn of the timer *)
Section due.
Context `{Env : LoopEnv} {HP : Plenty}.

(** What a pass over the heap takes: the timers that are due, earliest first; those that are
    not cancelled become ready in that order. *)
Definition taken (deadline : f64) (hs : gmap nat hnd) (due : list Timers.entry) s s' : Prop :=
  Timers.items (s_timers s) ≡ₚ due ++ Timers.items (s_timers s') ∧
  Forall (λ e, flt deadline (Timers.when e) = false) due ∧
  Forall (λ e, flt deadline (Timers.when e) = true) (Timers.items (s_timers s')) ∧
  StronglySorted (λ a b, Timers.before a b = true) due ∧
  Ready.contents (s_ready s') =
    Ready.contents (s_ready s) ++ filter (λ h, is_cancelled hs h = false) (Timers.handle <$> due).

Lemma later_than deadline e l : is_nan deadline = false → Timers.good e → Forall Timers.good l →
  flt deadline (Timers.when e) = true → Forall (λ e', Timers.before e e' = true) l →
  Forall (λ e, flt deadline (Timers.when e) = true) l.
Proof.
  intros Hd Hg Hl He Hb. rewrite !Forall_forall in *. intros e' Hin. specialize (Hb e' Hin). specialize (Hl e' Hin).
  rewrite Timers.before_rank in Hb by done. rewrite flt_rank in He |- * by done.
  destruct (rank deadline) as [[x y] z], (rank (Timers.when e)) as [[x' y'] z'], (rank (Timers.when e')) as [[x'' y''] z''].
  cbn in *. rewrite !pair_equal_spec in *. lia.
Qed.

Lemma wp_collect_due fuel deadline hs s : is_nan deadline = false → Timers.wf (s_timers s) → Ready.wf (s_ready s) →
  length (Timers.items (s_timers s)) = fuel → (∀ h, is_cancelled (s_handles s) h = is_cancelled hs h) →
  wp (collect fuel deadline) (λ _ s', ∃ due, taken deadline hs due s s') (λ _ _, False) s.
Proof.
  intros Hd. revert s. induction fuel as [|fuel IH]; intros s Hw Hq Hl Hc; cbn [collect].
  { wp_step. exists []. apply nil_length_inv in Hl. unfold taken. rewrite Hl. split_and!; try constructor. cbn. by rewrite app_nil_r. }
  do 2 wp_step. assert (HPop := Timers.pop_spec _ Hw). destruct (Timers.pop (s_timers s)) as [[e t']|]; [|by rewrite HPop in Hl].
  destruct HPop as (Hw' & Hperm & _ & Hbefore & _).
  assert (Hg := Timers.wf_good _ Hw). rewrite Hperm in Hg. apply Forall_cons in Hg as [Hge Hgt].
  assert (Hl' : length (Timers.items t') = fuel) by (rewrite Hperm in Hl; cbn in Hl; lia).
  destruct (flt deadline (Timers.when e)) eqn:Hlate.
  { wp_step. exists []. split_and!; [done|constructor| |constructor|cbn; by rewrite app_nil_r].
    rewrite Hperm. constructor; [done|]. by apply (later_than _ e). }
  unfold pop_timer, upd_handle, isCancelled. wp_step. do 3 wp_step. do 2 wp_step. set (s1 := upd_handles _ _).
  change (match s_handles s1 !! Timers.handle e with Some x => h_cancelled x | None => false end)
    with (is_cancelled (s_handles s1) (Timers.handle e)).
  assert (Hc1 : ∀ h, is_cancelled (s_handles s1) h = is_cancelled hs h).
  { intros h. rewrite <-Hc. by apply cancelled_alter. }
  rewrite Hc1.
  (* one more in front *)
  assert (Hcons : ∀ s2 s3 due, Timers.items (s_timers s2) = Timers.items t' →
    Ready.contents (s_ready s2) = Ready.contents (s_ready s) ++ filter (λ h, is_cancelled hs h = false) [Timers.handle e] →
    taken deadline hs due s2 s3 → taken deadline hs (e :: due) s s3).
  { intros s2 s3 due E1 E2 (T1 & T2 & T3 & T4 & T5). rewrite E1 in T1. split_and!.
    - rewrite Hperm, T1. done.
    - by constructor.
    - done.
    - constructor; [done|]. rewrite T1 in Hbefore. by apply Forall_app in Hbefore as [? _].
    - rewrite T5, E2, <-(assoc_L (++)). f_equal. symmetry. exact (filter_app _ [Timers.handle e] (Timers.handle <$> due)). }
  destruct (is_cancelled hs (Timers.handle e)) eqn:Hx.
  - unfold retire, log. do 4 wp_step. eapply wp_mono; [apply IH; [by apply wf_cancelled|done|done|done]| |done].
    intros _ s3 [due T]. exists (e :: due). eapply Hcons; [|..|exact T]; [done|]. cbn. by rewrite decide_False, app_nil_r by congruence.
  - wp_step. apply wp_push_ready; [done| |by rewrite plenty].
    intros r' Hr Er. eapply wp_mono; [apply IH; [done|done|done|done]| |done].
    intros _ s3 [due T]. exists (e :: due). eapply Hcons; [|..|exact T]; [done|]. cbn. by rewrite decide_True by done.
Qed.
Lemma wp_collectDueTimers `{!Sane} s : inv s →
  wp collectDueTimers (λ _ s', ∃ due, taken (now_of (clock_ns (s_tick s))) (s_handles s) due s s') (λ _ _, False) s.
Proof.
  intros I. unfold collectDueTimers. wp_step. apply wp_now. do 3 wp_step.
  eapply wp_mono; [apply wp_collect_due; [by apply nonneg_nan, now_of_nonneg, clock_pos|apply I|apply I|done|done]| |done].
  intros b s' [due T]. wp_step; [|by exists due]. apply wp_startIdle. intros s2 E. exists due. injection E as E1 _ E2 _ _ _.
  unfold taken. by rewrite E1, E2.
Qed.
End due.

(** C11: When the timer fires, the timers whose deadline the clock has reached - never one it has
    not - leave the heap and those not cancelled are ready, behind what was ready before and
    in order of deadline; every timer that stays is due later. *)
Theorem due_timers_ready `{Env : LoopEnv, HS : !Sane, HP : !Plenty} s : reachable s →
  let s' := (collectDueTimers s).2 in let time := now_of (clock_ns (s_tick s)) in
  (collectDueTimers s).1 = Ok tt ∧
  ∃ due, Timers.items (s_timers s) ≡ₚ due ++ Timers.items (s_timers s') ∧
    Forall (λ e, flt time (Timers.when e) = false) due ∧
    Forall (λ e, flt time (Timers.when e) = true) (Timers.items (s_timers s')) ∧
    StronglySorted (λ a b, Timers.before a b = true) due ∧
    Ready.contents (s_ready s') =
      Ready.contents (s_ready s) ++ filter (λ h, is_cancelled (s_handles s) h = false) (Timers.handle <$> due).
Proof.
  intros Hr. apply turns_inv in Hr as I. assert (Hw := wp_collectDueTimers s I). revert Hw. unfold wp.
  by destruct (collectDueTimers s) as [[[]|e] s'].
Qed.

(** ** The demonstration program *)
#[export] Instance demo_plenty : Plenty (Env := demo).
Proof. done. Qed.
Lemma demo_start_reachable : reachable (Env := demo) demo_start.
Proof.
  eapply reach_turn; [|apply turn_enter]. eapply reach_turn; [apply reach_init|]. by apply turn_op.
Qed.
Lemma nothing_stranded_witness :
  let s := demo_state in
  length (Timers.items (s_timers s)) = 1%nat ∧
  (Ready.contents (s_ready s) ≠ [] → s_idle s = true) ∧
  (Ready.contents (s_inbox s) ≠ [] → s_waker s = true) ∧
  match s_armed s with
  | None => Timers.items (s_timers s) = []
  | Some (w, _) => ∃ e, e ∈ Timers.items (s_timers s) ∧ Timers.when e = w ∧
      Forall (λ e', Timers.before e' e = false) (Timers.items (s_timers s))
  end.
Proof. cbn zeta. split; [by vm_compute|]. apply (nothing_stranded (Env := demo)), demo_reachable. Defined.
Lemma ready_runs_in_turn_witness :
  let s := demo_start in
  Ready.contents (s_ready s) = [0%nat] ∧ (onIdle (Env := demo) s).1 = Ok tt ∧
  ∃ more, took (Ready.contents (s_ready s) ++ more) s (onIdle (Env := demo) s).2.
Proof. cbn zeta. split; [by vm_compute|]. apply (ready_runs_in_turn (Env := demo)), demo_start_reachable. Defined.
Lemma turn_bounded_witness :
  let s := demo_start in let s' := (onIdle (Env := demo) s).2 in
  ∃ l, took l s s' ∧
    s_callbacks_run s' = (s_callbacks_run s + length l)%nat ∧
    (length l ≤ Nat.max (length (Ready.contents (s_ready s))) ready_drain_callback_limit)%nat ∧
    (s_iterations s ≤ s_iterations s' ≤ s_iterations s + ready_drain_io_batch_limit)%nat.
Proof. cbn zeta. apply (turn_bounded (Env := demo)), demo_start_reachable. Defined.
Lemma due_timers_ready_witness :
  let s := demo_state in let s' := (collectDueTimers (Env := demo) s).2 in
  let time := now_of (clock_ns (LoopEnv := demo) (s_tick s)) in
  (collectDueTimers (Env := demo) s).1 = Ok tt ∧
  ∃ due, Timers.items (s_timers s) ≡ₚ due ++ Timers.items (s_timers s') ∧
    Forall (λ e, flt time (Timers.when e) = false) due ∧
    Forall (λ e, flt time (Timers.when e) = true) (Timers.items (s_timers s')) ∧
    StronglySorted (λ a b, Timers.before a b = true) due ∧
    Ready.contents (s_ready s') =
      Ready.contents (s_ready s) ++ filter (λ h, is_cancelled (s_handles s) h = false) (Timers.handle <$> due).
Proof. cbn zeta. apply (due_timers_ready (Env := demo)), demo_reachable. Defined.
