(* ===== verification/SchedCalls.v ===== *)
(** * What leaves the queue is called (zig/loop.zig, zig/handle.zig)

    The invariant of SchedInv says that nothing is called that should not be.  This file has
    the other half: a callback that leaves the ready queue is called then and there, unless it
    was cancelled before. *)
From Stdlib Require Import SpecFloat.
From S2P Require Import Prelude Clock Queue Heap Scheduler SchedInv SchedLive.

Implicit Types (h n : nat) (s : state).

(** Every handle taken off the queue is called next, or was cancelled before. *)
Definition popped_called (l : list event) : Prop :=
  ∀ l1 b h l2, l = l1 ++ EvPop b h :: l2 → head l2 = Some (EvCall h) ∨ EvCancel h ∈ l1.
(** What cancels a handle, or ends a thread-safe one's run, is in the log. *)
Record honest s : Prop := {
  ho_cancelled : ∀ h, is_cancelled (s_handles s) h = true → EvCancel h ∈ s_log s;
  ho_done : ∀ h x, s_handles s !! h = Some x → h_kind x = HThreadSafe → h_pending x = false →
    EvCancel h ∈ s_log s ∨ EvCall h ∈ s_log s;
  ho_called : popped_called (s_log s) }.

Lemma called_snoc l e : (∀ b h, e ≠ EvPop b h) → popped_called l → popped_called (l ++ [e]).
Proof.
  intros He H l1 b h l2 E. destruct l2 as [|e2 l2 _] using rev_ind.
  - apply app_inj_tail in E as [_ E]. by apply He in E.
  - change (l ++ [e] = l1 ++ (EvPop b h :: l2) ++ [e2]) in E. rewrite (assoc_L (++)) in E. apply app_inj_tail in E as [E ->].
    destruct (H _ _ _ _ E) as [Hc|Hc]; [left|by right]. by destruct l2.
Qed.
Lemma called_app l (k : list event) : Forall (λ e, ∀ b h, e ≠ EvPop b h) k → popped_called l → popped_called (l ++ k).
Proof.
  intros Hk. revert l. induction Hk as [|e k He _ IH]; intros l Hl; [by rewrite app_nil_r|].
  change (e :: k) with ([e] ++ k). rewrite (assoc_L (++)). apply IH. by apply called_snoc.
Qed.

(** A step of the handles and the log. *)
Lemma honest_step s s' k :
  s_log s' = s_log s ++ k → Forall (λ e, ∀ b h, e ≠ EvPop b h) k →
  (∀ h x, s_handles s' !! h = Some x →
     (h_cancelled x = true → is_cancelled (s_handles s) h = true ∨ EvCancel h ∈ k) ∧
     (h_kind x = HThreadSafe → h_pending x = false →
        (∃ y, s_handles s !! h = Some y ∧ h_kind y = HThreadSafe ∧ h_pending y = false) ∨ EvCancel h ∈ k ∨ EvCall h ∈ k)) →
  honest s → honest s'.
Proof.
  intros El Hk Hh [H1 H2 H3]. split; rewrite El.
  - intros h Hc. unfold is_cancelled in Hc. destruct (s_handles s' !! h) as [x|] eqn:Ex; [|done].
    destruct (Hh h x Ex) as [Hx _]. rewrite elem_of_app. destruct (Hx Hc) as [?|?]; auto.
  - intros h x Ex Hkx Hp. destruct (Hh h x Ex) as [_ Hx]. rewrite !elem_of_app.
    destruct (Hx Hkx Hp) as [(y & Hy & Hky & Hpy)|[?|?]]; [|auto..]. destruct (H2 h y Hy Hky Hpy); auto.
  - by apply called_app.
Qed.
Lemma honest_frame s s' : (s_handles s, s_log s) = (s_handles s', s_log s') → honest s → honest s'.
Proof. intros E. injection E as E1 E2. destruct s, s'. cbn in *. subst. intros []. by split. Qed.

Ltac honest_frame :=
  match goal with
  | |- honest ?s → honest ?s' => exact (honest_frame s s' eq_refl)
  | H : honest ?s |- honest ?s' => exact (honest_frame s s' eq_refl H)
  end.

(** The operations, whatever they do to the queues. *)
Section ops.
Context `{Env : LoopEnv}.

Lemma honest_ask : keeps honest ask.
Proof. unfold ask. solve_stable; honest_frame. Qed.
Hint Resolve honest_ask : stable.
Lemma honest_now : keeps honest now.
Proof. unfold now. solve_stable. Qed.
Lemma honest_alloc : keeps honest alloc.
Proof. unfold alloc. solve_stable. Qed.
Lemma honest_log e : (∀ b h, e ≠ EvPop b h) → keeps honest (log e).
Proof.
  intros He s. unfold log. wp_step. apply (honest_step s _ [e]); [done|by constructor|].
  intros h x Hx. cbn in Hx. split; [intros Hc; left; unfold is_cancelled; by rewrite Hx|intros; left; by exists x].
Qed.
Lemma honest_alter f h s :
  (∀ x, h_kind (f x) = h_kind x ∧ (h_cancelled (f x) = true → h_cancelled x = true) ∧ (h_pending (f x) = false → h_pending x = false)) →
  honest s → honest (upd_handles (alter f h) s).
Proof.
  intros Hf. apply (honest_step s _ []); [by rewrite app_nil_r|done|]. cbn. intros k x Hx.
  destruct (decide (h = k)) as [-> |Hne].
  - rewrite lookup_alter_eq in Hx. destruct (s_handles s !! k) as [y|] eqn:Ey; [|done]. injection Hx as <-.
    destruct (Hf y) as (-> & Hc & Hp). split; [intros H; left; unfold is_cancelled; rewrite Ey; auto|].
    intros Hk H. left. exists y. auto.
  - rewrite lookup_alter_ne in Hx by done. split; [intros Hc; left; unfold is_cancelled; by rewrite Hx|intros; left; by exists x].
Qed.
Lemma honest_ready h : keeps honest (upd_handle markReady h).
Proof. intros s. unfold upd_handle. wp_step. by apply honest_alter. Qed.
Lemma honest_scheduled h : keeps honest (upd_handle clearScheduled h).
Proof. intros s. unfold upd_handle. wp_step. by apply honest_alter. Qed.
Lemma honest_startIdle : keeps honest startIdle.
Proof. intros s. unfold startIdle. wp_step. case_match; honest_frame. Qed.
Lemma honest_checkClosed : keeps honest checkClosed.
Proof. unfold checkClosed. solve_stable. Qed.
Lemma honest_captureFatal e : keeps honest (captureFatal e).
Proof. unfold captureFatal. solve_stable; honest_frame. Qed.
Hint Resolve honest_now honest_alloc honest_ready honest_scheduled honest_startIdle honest_checkClosed honest_captureFatal : stable.
Hint Extern 3 (keeps honest (log _)) => by apply honest_log : stable.
Lemma honest_create kind cb w : keeps honest (create kind cb w).
Proof.
  unfold create. apply stable_bind; [apply _|apply honest_alloc|intros []]; cbn [negb]; [|solve_stable].
  apply stable_bind; [apply _|solve_stable|intros h]. apply stable_bind; [apply _| |solve_stable].
  intros s. wp_step. apply (honest_step s _ []); [by rewrite app_nil_r|done|]. cbn. intros k x Hx.
  destruct (decide (h = k)) as [-> |Hne]; [rewrite lookup_insert_eq in Hx; injection Hx as <-; by split|].
  rewrite lookup_insert_ne in Hx by done. split; [intros Hc; left; unfold is_cancelled; by rewrite Hx|intros; left; by exists x].
Qed.
Lemma honest_or_free h m : keeps honest m → keeps honest (or_free h m).
Proof.
  intros H. unfold or_free. apply stable_catch; [apply _|done|intros e]. apply stable_bind; [apply _| |solve_stable].
  intros s. wp_step. apply (honest_step s _ []); [by rewrite app_nil_r|done|]. cbn. intros k x Hx.
  apply lookup_delete_Some in Hx as [_ Hx].
  split; [intros Hc; left; unfold is_cancelled; by rewrite Hx|intros; left; by exists x].
Qed.
Lemma honest_push_ready h : keeps honest (push_ready h).
Proof. unfold push_ready. solve_stable; honest_frame. Qed.
Lemma honest_drain : keeps honest drainThreadsafe.
Proof. unfold drainThreadsafe. solve_stable; honest_frame. Qed.
Hint Resolve honest_create honest_push_ready honest_drain : stable.
Lemma honest_scheduleSoon cb : keeps honest (scheduleSoon cb).
Proof. unfold scheduleSoon. solve_stable. apply honest_or_free. solve_stable. Qed.
Lemma honest_threadsafe cb : keeps honest (callSoonThreadsafe cb).
Proof. unfold callSoonThreadsafe. solve_stable; [|honest_frame]. apply honest_or_free. solve_stable; honest_frame. Qed.
Lemma honest_drop fuel : keeps honest (drop_cancelled fuel).
Proof. induction fuel as [|fuel IH]; cbn [drop_cancelled]; unfold pop_timer, retire, isCancelled; solve_stable; done || honest_frame. Qed.
Hint Resolve honest_drop : stable.
Lemma honest_armTimer : keeps honest armTimer.
Proof. unfold armTimer. solve_stable; honest_frame. Qed.
Hint Resolve honest_armTimer : stable.
Lemma honest_scheduleAt w due cb : keeps honest (scheduleAt w due cb).
Proof. unfold scheduleAt. solve_stable; apply honest_or_free; solve_stable; honest_frame. Qed.
Lemma honest_compact : keeps honest compact_timers.
Proof. unfold compact_timers. solve_stable; honest_frame. Qed.
Hint Resolve honest_scheduleSoon honest_threadsafe honest_scheduleAt honest_compact : stable.
Lemma honest_note : keeps honest noteTimerCancelled.
Proof. unfold noteTimerCancelled. solve_stable; honest_frame. Qed.
(** Cancelling marks the handle and says so. *)
Lemma honest_set_cancelled h f s : (∀ x, h_kind (f x) = h_kind x) →
  honest s → honest (upd_log (λ l, l ++ [EvCancel h]) (upd_handles (alter f h) s)).
Proof.
  intros Hf. apply (honest_step s _ [EvCancel h]); [done|by constructor|]. cbn. intros k x Hx.
  destruct (decide (h = k)) as [-> |Hne]; [split; intros; right; [|left]; apply list_elem_of_here|].
  rewrite lookup_alter_ne in Hx by done. split; [intros Hc; left; unfold is_cancelled; by rewrite Hx|intros; left; by exists x].
Qed.
Lemma honest_cancel h : keeps honest (cancel h).
Proof.
  unfold cancel. apply stable_bind; [apply _|solve_stable|intros [x|]]; [|solve_stable]. destruct (h_cancelled x); [solve_stable|].
  apply wp_keeps. intros s Hs. wp_step. apply wp_upd_handle. wp_step. apply wp_log.
  assert (Hs1 := honest_set_cancelled h set_cancelled s ltac:(done) Hs).
  destruct (h_kind x); [by wp_step|wp_step; [|done]; by apply keeps_wp; [apply honest_note|]|]. apply wp_upd_handle.
  eapply honest_frame; [|apply (honest_set_cancelled h (set_done ∘ set_cancelled) s); done]. cbn. by rewrite alter_twice.
Qed.
Hint Resolve honest_cancel : stable.
Lemma honest_lop o : keeps honest (run_lop o).
Proof. destruct o; cbn [run_lop]; unfold callLater, callAt, stop; solve_stable; honest_frame. Qed.
Lemma honest_lops l : keeps honest (run_lops l).
Proof. unfold run_lops. solve_stable; apply honest_lop. Qed.
Hint Resolve honest_lops : stable.
Lemma honest_collect fuel deadline : keeps honest (collect fuel deadline).
Proof.
  induction fuel as [|fuel IH]; cbn [collect]; unfold pop_timer, retire, isCancelled; solve_stable; done || honest_frame.
Qed.
Lemma honest_collectDueTimers : keeps honest collectDueTimers.
Proof. unfold collectDueTimers. solve_stable; apply honest_collect. Qed.
Hint Resolve honest_collectDueTimers : stable.
Lemma honest_failed h e : keeps honest (callbackFailed h e).
Proof. unfold callbackFailed. solve_stable. Qed.
Hint Resolve honest_failed : stable.

(** *** A callback that has just left the queue *)
Lemma not_called_yet s h : inv s → h ∈ Ready.contents (s_ready s) → EvCall h ∉ s_log s.
Proof.
  intros I Hq Hc. assert (Hp : h ∈ pops (s_log s)).
  { eapply elem_of_sublist; [|apply (iv_once _ I)]. apply list_elem_of_omap. by exists (EvCall h). }
  apply list_elem_of_omap in Hp as ([| |b h'| | | | | |] & Hin & [= ->]).
  assert (Hpb : h ∈ popped b (s_log s)).
  { apply list_elem_of_omap. exists (EvPop b h). split; [done|]. cbn. by rewrite Bool.eqb_reflx. }
  assert (Ho : s_closed s = false).
  { destruct (s_closed s) eqn:Ec; [|done]. destruct (iv_closed _ I Ec) as [Hn _]. rewrite Hn in Hq. by apply not_elem_of_nil in Hq. }
  destruct (iv_nodup _ I) as [N1 N2]. rewrite <-(iv_order _ I Ho) in N1. rewrite <-(iv_all _ I Ho) in N2. destruct b.
  - assert (Hk : kind_of (s_handles s) h = Some true) by (apply (iv_timed _ I); rewrite <-(iv_all _ I Ho); set_solver).
    apply NoDup_app in N2 as (_ & Hd & _). apply (Hd h Hpb). apply elem_of_app. left. by apply list_elem_of_filter.
  - assert (Hk : kind_of (s_handles s) h = Some false) by (apply (iv_sched _ I); rewrite <-(iv_order _ I Ho); set_solver).
    apply NoDup_app in N1 as (_ & Hd & _). apply (Hd h Hpb). apply elem_of_app. left. by apply list_elem_of_filter.
Qed.
Lemma called_pop l b h k : popped_called l → k = [EvCall h] ∨ (k = [] ∧ EvCancel h ∈ l) → popped_called (l ++ EvPop b h :: k).
Proof.
  intros Hl Hk. assert (H1 : k = [] → EvCancel h ∈ l → popped_called (l ++ [EvPop b h])).
  { intros _ Hc l1 b' h' l2 E. destruct l2 as [|e2 l2 _] using rev_ind.
    - apply app_inj_tail in E as [-> [= -> ->]]. by right.
    - change (l ++ [EvPop b h] = l1 ++ (EvPop b' h' :: l2) ++ [e2]) in E. rewrite (assoc_L (++)) in E. apply app_inj_tail in E as [E _].
      destruct (Hl _ _ _ _ E) as [Hh|?]; [left|by right]. by destruct l2. }
  destruct Hk as [-> |[-> Hc]]; [|by apply H1]. intros l1 b' h' l2 E.
  destruct l2 as [|e2 l2 _] using rev_ind.
  - change (l ++ [EvPop b h] ++ [EvCall h] = l1 ++ [EvPop b' h']) in E. rewrite (assoc_L (++)) in E. by apply app_inj_tail in E as [_ ?].
  - change (l ++ [EvPop b h] ++ [EvCall h] = l1 ++ (EvPop b' h' :: l2) ++ [e2]) in E. rewrite !(assoc_L (++)) in E.
    apply app_inj_tail in E as [E <-]. destruct l2 as [|e3 l2 _] using rev_ind.
    + apply app_inj_tail in E as [-> [= -> ->]]. by left.
    + change (l ++ [EvPop b h] = l1 ++ (EvPop b' h' :: l2) ++ [e3]) in E. rewrite (assoc_L (++)) in E. apply app_inj_tail in E as [E _].
      destruct (Hl _ _ _ _ E) as [Hh|?]; [left|by right]. by destruct l2.
Qed.
(** [s] is the state before the callback left the queue. *)
Lemma honest_popped s s' h b k :
  honest s → s_log s' = s_log s ++ EvPop b h :: k → k = [EvCall h] ∨ (k = [] ∧ EvCancel h ∈ s_log s) →
  (∃ f, s_handles s' = alter f h (s_handles s) ∧ ∀ x, h_kind (f x) = h_kind x ∧ h_cancelled (f x) = h_cancelled x ∧
     (h_pending (f x) = h_pending x ∨ k = [EvCall h])) → honest s'.
Proof.
  intros [H1 H2 H3] El Hk (f & Eh & Hf). split; rewrite El.
  - intros n. rewrite Eh, cancelled_alter by (intros x; apply Hf). intros Hc. apply elem_of_app. left. by apply H1.
  - intros n x Hx Hkx Hp. rewrite !elem_of_app. rewrite Eh in Hx. destruct (decide (h = n)) as [-> |Hne].
    + rewrite lookup_alter_eq in Hx. destruct (s_handles s !! n) as [y|] eqn:Ey; [|done]. injection Hx as <-.
      destruct (Hf y) as (Ek & _ & [Ep| ->]); [|right; right; set_solver]. rewrite Ek in Hkx. rewrite Ep in Hp.
      destruct (H2 n y Ey Hkx Hp); auto.
    + rewrite lookup_alter_ne in Hx by done. destruct (H2 n x Hx Hkx Hp); auto.
  - by apply called_pop.
Qed.
Lemma wp_invoke_honest s s1 h b cb f :
  honest s → s_log s1 = s_log s ++ [EvPop b h] → s_handles s1 = alter f h (s_handles s) →
  (∀ x, h_kind (f x) = h_kind x ∧ h_cancelled (f x) = h_cancelled x) →
  wp (invoke h cb) (λ _, honest) (λ _, honest) s1.
Proof.
  intros Hs El Eh Hf. unfold invoke. wp_step. apply wp_log. apply keeps_wp; [solve_stable|].
  eapply (honest_popped s _ h b [EvCall h]); [done|cbn; by rewrite El, <-(assoc_L (++))|by left|].
  exists f. split; [done|]. intros x. destruct (Hf x). auto.
Qed.
Lemma wp_runOne_honest s s1 h b x :
  honest s → s_log s1 = s_log s ++ [EvPop b h] → s_handles s1 = s_handles s → s_handles s !! h = Some x →
  (EvCall h ∉ s_log s) → wp (runOne h) (λ _, honest) (λ _, honest) s1.
Proof.
  intros Hs El Eh Ex Hn. unfold runOne. do 2 wp_step. rewrite Eh, Ex.
  assert (Hid : s_handles s1 = alter id h (s_handles s)) by (by rewrite alter_id, Eh).
  assert (Hskip : ∀ s2 f, s_log s2 = s_log s1 → s_handles s2 = alter f h (s_handles s) →
    (∀ y, h_kind (f y) = h_kind y ∧ h_cancelled (f y) = h_cancelled y ∧ h_pending (f y) = h_pending y) →
    EvCancel h ∈ s_log s → honest s2).
  { intros s2 f El2 Eh2 Hf Hc. eapply (honest_popped s _ h b []); [done|by rewrite El2, El|by right|].
    exists f. split; [done|]. intros y. destruct (Hf y) as (? & ? & ?). auto. }
  assert (Hcan : h_cancelled x = true → EvCancel h ∈ s_log s).
  { intros Hc. apply (ho_cancelled _ Hs). unfold is_cancelled. by rewrite Ex. }
  destruct (h_kind x) eqn:Ek.
  - destruct (h_cancelled x); [wp_step; by apply (Hskip _ id); auto|]. by eapply wp_invoke_honest.
  - wp_step. apply wp_upd_handle.
    destruct (h_cancelled x); [wp_step; apply (Hskip _ clearScheduled); cbn; [done|by rewrite Eh|done|auto]|].
    eapply (wp_invoke_honest s _ h b _ clearScheduled); cbn; [done|done|by rewrite Eh|done].
  - destruct (h_pending x) eqn:Ep; cbn [negb].
    + wp_step. apply wp_upd_handle. eapply (wp_invoke_honest s _ h b _ set_done); cbn; [done|done|by rewrite Eh|done].
    + wp_step. apply (Hskip _ id); auto. by destruct (ho_done _ Hs h x Ex Ek Ep).
Qed.
Lemma wp_run_timed_honest s s1 h b x :
  honest s → s_log s1 = s_log s ++ [EvPop b h] → s_handles s1 = s_handles s → s_handles s !! h = Some x →
  (EvCall h ∉ s_log s) → wp (run_timed h) (λ _, honest) (λ _, honest) s1.
Proof.
  intros Hs El Eh Ex Hn. unfold run_timed. do 2 wp_step. destruct (s_monitor s1); [|by eapply wp_runOne_honest].
  unfold ask at 1. do 7 wp_step. eapply wp_mono; [by eapply (wp_runOne_honest s)| |done]. intros [] s2 Hs2.
  apply keeps_wp; [|done]. unfold reportSlowCallback. solve_stable.
Qed.
End ops.

Section running.
Context `{Env : LoopEnv} {HS : Sane}.
Definition both s : Prop := inv s ∧ honest s.
Lemma both_intro {A} (m : M state A) : preserves m → keeps honest m → keeps both m.
Proof.
  intros H1 H2. apply wp_keeps. intros s [I Ho]. eapply wp_mono; [apply (wp_and _ _ _ _ _ _ (preserves_wp m s H1 I) (keeps_wp _ m s H2 Ho))|..]; by intros.
Qed.
Lemma both_run_batch n : keeps both (run_batch n).
Proof.
  induction n as [|n IH]; cbn [run_batch]; [solve_stable|]. apply wp_keeps. intros s [I Ho]. do 2 wp_step.
  destruct (Ready.pop (s_ready s)) as [[h r']|] eqn:Ep; [|by wp_step]. do 2 wp_step. do 2 wp_step.
  change (is_timer (upd_ready (λ _, r') s) h) with (is_timer s h). wp_step. apply wp_log.
  destruct (popped_inv s h r' I Ep) as (I1 & J1 & H1). assert (Hp := Ready.ring_pop (s_ready s) (iv_ready _ I)). rewrite Ep in Hp.
  destruct Hp as [_ Ec]. assert (Hin : h ∈ Ready.contents (s_ready s)) by (rewrite Ec; apply list_elem_of_here).
  destruct (iv_known _ I h Hin) as [b Hk]. unfold kind_of in Hk. destruct (s_handles s !! h) as [x|] eqn:Ex; [|done]. wp_step.
  eapply wp_mono; [apply (wp_and _ _ (λ _, honest) _ (λ _, honest) _ (wp_run_timed _ _ I1 J1 H1))| |].
  - eapply (wp_run_timed_honest s); [done|done|done|done|by apply not_called_yet].
  - intros [] s2 Hs2. by apply keeps_wp.
  - done.
Qed.
Lemma both_modify f : (∀ s, core (f s) = core s) → keeps both (modify f).
Proof.
  intros Hf. apply both_intro; [by apply preserves_modify|]. apply stable_modify. intros s.
  assert (E := Hf s). injection E as _ _ _ E1 _ E2. apply honest_frame. by rewrite E1, E2.
Qed.
Lemma both_ask : keeps both ask.
Proof. apply both_intro; [apply preserves_ask|apply honest_ask]. Qed.
Lemma both_runReady : keeps both runReady.
Proof.
  unfold runReady. apply stable_bind; [apply _|by apply both_modify|intros _].
  apply stable_bind; [apply _|solve_stable|intros n]. apply stable_bind; [apply _|by apply both_modify|intros _]. apply both_run_batch.
Qed.
#[local] Hint Resolve both_ask both_runReady : stable.
Lemma both_drain_loop fuel batches callbacks t0 : keeps both (drain_loop fuel batches callbacks t0).
Proof.
  revert batches callbacks. induction fuel as [|fuel IH]; intros batches callbacks; cbn [drain_loop]; solve_stable; apply IH.
Qed.
Lemma both_onIdle : keeps both onIdle.
Proof.
  unfold onIdle. apply stable_bind; [apply _|apply both_ask|intros t]. apply stable_bind; [apply _|apply both_drain_loop|intros _].
  apply both_modify. intros s. by case_bool_decide.
Qed.
#[local] Hint Resolve honest_startIdle honest_checkClosed honest_captureFatal honest_drain honest_armTimer honest_collectDueTimers : stable.
Lemma both_turn s s' : turn s s' → both s → both s'.
Proof.
  intros T [I Ho]. split; [by eapply turn_inv|]. destruct T as [o Hok|_ _|_ _|_ _| |_|].
  - by apply keeps_snd; [apply honest_lop|].
  - by apply (keeps_snd both); [apply both_onIdle|].
  - apply keeps_snd; [|done]. unfold onTimer. solve_stable; honest_frame.
  - apply keeps_snd; [|done]. unfold onWake. solve_stable; honest_frame.
  - apply keeps_snd; [|done]. unfold run_enter. solve_stable; honest_frame.
  - apply keeps_snd; [|done]. unfold run_leave. solve_stable; honest_frame.
  - apply keeps_snd; [|done]. unfold closeLoop. solve_stable; honest_frame.
Qed.

Lemma reachable_both s : reachable s → both s.
Proof.
  induction 1 as [n d|s1 s2 Hr IH Ht]; [|by eapply both_turn]. split; [apply inv_init|]. split; cbn.
  - done.
  - intros h x Hx. done.
  - intros l1 b h l2 E. by destruct l1.
Qed.


(** ** From scheduling to the call *)
Context {HP : Plenty}.

(** libuv calls back a handle that is active, of a loop that runs. *)
Inductive libuv_turn s : state → Prop :=
  | libuv_idle : s_running s = true → s_idle s = true → libuv_turn s (onIdle s).2
  | libuv_timer : s_running s = true → is_Some (s_armed s) → libuv_turn s (onTimer s).2
  | libuv_wake : s_running s = true → s_waker s = true → libuv_turn s (onWake s).2.
Lemma libuv_turn_turn s s' : libuv_turn s s' → turn s s'.
Proof. by intros []; constructor. Qed.
Definition settled h s : Prop := EvCall h ∈ s_log s ∨ EvCancel h ∈ s_log s.

Lemma popped_settled s h : reachable s → h ∈ pops (s_log s) → settled h s.
Proof.
  intros Hr Hp. apply reachable_both in Hr as [_ Ho]. apply list_elem_of_omap in Hp as (e & Hin & He).
  apply list_elem_of_split in Hin as (l1 & l2 & El). destruct e as [| |b h'| | | | | |]; try done. injection He as ->.
  destruct (ho_called _ Ho _ _ _ _ El) as [Hc|Hc]; [left|right]; rewrite El.
  - destruct l2 as [|e l2]; [done|]. injection Hc as ->. set_solver.
  - set_solver.
Qed.
Lemma ready_settles s h : reachable s → s_running s = true → h ∈ Ready.contents (s_ready s) →
  ∃ s', libuv_turn s s' ∧ reachable s' ∧ settled h s'.
Proof.
  intros Hr Hrun Hin. apply turns_inv in Hr as I. destruct (reachable_live s Hr) as (Hi & _).
  assert (Ht : libuv_turn s (onIdle s).2).
  { constructor; [done|]. apply Hi. rewrite <-Ready.contents_length by apply I. intros E. apply nil_length_inv in E. rewrite E in Hin.
    by apply not_elem_of_nil in Hin. }
  assert (Hr' : reachable (onIdle s).2) by (eapply reach_turn; [done|by apply libuv_turn_turn]).
  exists (onIdle s).2. split_and!; [done|done|]. apply popped_settled; [done|].
  assert (Hw := wp_onIdle s (conj (iv_ready _ I) (iv_inbox _ I))). revert Hw. unfold wp.
  destruct (onIdle s) as [[[]|e] s']; [|done]. cbn [snd]. intros (l & i & (_ & -> & _) & Hp & _). destruct (Hp eq_refl) as [more ->]. set_solver.
Qed.
Lemma wake_moves s : reachable s →
  s_running (onWake s).2 = s_running s ∧
  Ready.contents (s_ready (onWake s).2) = Ready.contents (s_ready s) ++ Ready.contents (s_inbox s).
Proof.
  intros Hr. apply turns_inv in Hr as I.
  enough (Hw : wp onWake (λ _ s', s_running s' = s_running s ∧
    Ready.contents (s_ready s') = Ready.contents (s_ready s) ++ Ready.contents (s_inbox s)) (λ _ _, False) s).
  { revert Hw. unfold wp. by destruct (onWake s) as [[[]|e] s']. }
  unfold onWake. do 3 wp_step. apply wp_drainThreadsafe; [apply I|apply I| |by rewrite plenty].
  intros r i Hwr Hwi Ei Er. unfold startIdle. wp_step. by case_match.
Qed.
Lemma timer_moves s e : reachable s → e ∈ Timers.items (s_timers s) →
  flt (now_of (clock_ns (s_tick s))) (Timers.when e) = false → is_cancelled (s_handles s) (Timers.handle e) = false →
  s_running (onTimer s).2 = s_running s ∧ Timers.handle e ∈ Ready.contents (s_ready (onTimer s).2).
Proof.
  intros Hr Hin Hdue Hx. apply turns_inv in Hr as I.
  enough (Hw : wp onTimer (λ _ s', s_running s' = s_running s ∧ Timers.handle e ∈ Ready.contents (s_ready s')) (λ _ _, False) s).
  { revert Hw. unfold wp. by destruct (onTimer s) as [[[]|e'] s']. }
  assert (Hrun : stable (λ s s', s_running s' = s_running s) onTimer).
  { assert (PreOrder (λ s s', s_running s' = s_running s)) by (split; [done|intros s1 s2 s3; congruence]).
    assert (Hd : ∀ n, stable (λ s s', s_running s' = s_running s) (drop_cancelled n)).
    { intros n. induction n; cbn [drop_cancelled]; unfold pop_timer, retire, upd_handle, isCancelled, log; solve_stable; done. }
    assert (Hc : ∀ n d, stable (λ s s', s_running s' = s_running s) (collect n d)).
    { intros n d. induction n; cbn [collect]; unfold pop_timer, retire, upd_handle, isCancelled, log, push_ready, captureFatal, alloc, ask;
        solve_stable; done. }
    unfold onTimer, collectDueTimers, armTimer, startIdle, now, ask. solve_stable; try apply Hd; try apply Hc; try done.
    intros. by case_match. }
  eapply wp_mono; [apply (wp_and _ _ (λ _ s', Timers.handle e ∈ Ready.contents (s_ready s')) _ (λ _ _, False) _ (Hrun s))| |].
  - unfold onTimer. do 3 wp_step. set (s1 := upd_armed _ s). assert (I1 : inv s1) by (by inv_frame).
    eapply wp_mono; [apply (wp_and _ _ _ _ _ _ (wp_collectDueTimers s1 I1) (preserves_wp _ _ preserves_collectDueTimers I1))| |].
    + intros [] s2 [(due & T1 & _ & T3 & _ & T5) I2]. apply wp_stable_total with (R := grows); [apply _|apply grows_armTimer|apply total_armTimer|].
      intros [] s3 G. destruct (G (conj (iv_ready _ I2) (iv_inbox _ I2))) as (_ & _ & _ & _ & l & ->).
      rewrite T5, !elem_of_app. left. right. apply list_elem_of_filter. split; [done|]. apply list_elem_of_fmap_2.
      change (s_timers s1) with (s_timers s) in T1. rewrite T1, elem_of_app in Hin. destruct Hin as [|Hin]; [done|].
      rewrite Forall_forall in T3. apply T3 in Hin. change (s_tick s1) with (s_tick s) in Hin. congruence.
    + by intros ? ? [].
  - intros [] s' [? ?]. done.
  - by intros ? ? [_ []].
Qed.

End running.

