(* ===== verification/ThreadHandle.v ===== *)
(** * Thread-safe handles (zig/tshandle.zig)

    [call_soon_threadsafe] returns a handle that any thread may cancel: [cancel] and
    [cancelled] from another thread wait while the callback runs, parked on a lock the runner
    releases.  The payloads of the handles, the waiters' linked nodes and each thread's stack
    of native calls are the state; what a handle's critical section covers in one stretch is
    one step, so the section itself shows only in the runner's drain of the waiters, which
    releases them one by one.  Proved: a cancellation is final once [cancel] has returned on
    a thread not running the callback, a callback runs at most once and is never taken away
    while it runs, no waiter is left behind; and where a waiter waits for itself. *)
From stdpp Require Import functions.
From S2P Require Import Prelude.

(** ** The state *)
Inductive rstate := PENDING | RUNNING | DONE.
#[export] Instance rstate_eq_dec : EqDecision rstate.
Proof. solve_decision. Defined.

(** [callback] stands for the callback and its arguments, which are set and cleared together;
    [waiters] is the first node, [section] the thread that holds the critical section from one
    step to the next, and [started] counts the runs. *)
Record payload := Payload { run_state : rstate; cancelled_flag : bool; callback : bool;
  waiters : option nat; section : option nat; started : nat }.

Inductive call := CCancel | CCancelled.
#[export] Instance call_eq_dec : EqDecision call.
Proof. solve_decision. Defined.
(** What a thread is in the middle of: running a handle's callback, with what [running_payload]
    was before; releasing the waiters of one, from a node on; waiting in a call, parked on a
    lock or, when none could be allocated, yielding. *)
Inductive frame :=
  | InRun (h : nat) (previous : option nat)
  | Draining (h : nat) (node : option nat)
  | Waiting (h : nat) (c : call) (parked : bool).

(** A call that has returned: who made it, on what, whether its caller was inside the handle's
    own callback, and what [cancelled] answered. *)
Record returned := Returned { r_thread : nat; r_call : call; r_handle : nat; r_inside : bool; r_answer : bool }.

(** [nodes] are the parked threads' nodes, on their own stacks, each with its [next];
    [released] the threads whose lock was released. *)
Record world := World { payloads : nat → payload; stacks : nat → list frame;
  running_payload : nat → option nat; nodes : gmap nat (option nat); released : gset nat;
  returns : list returned }.

Definition new_payload : payload := Payload PENDING false true None None 0.
Definition start : world := World (λ _, new_payload) (λ _, []) (λ _, None) ∅ ∅ [].

Definition set_payload (h : nat) (p : payload) (w : world) : world :=
  World (<[h:=p]> (payloads w)) (stacks w) (running_payload w) (nodes w) (released w) (returns w).
Definition set_stack (t : nat) (l : list frame) (w : world) : world :=
  World (payloads w) (<[t:=l]> (stacks w)) (running_payload w) (nodes w) (released w) (returns w).
Definition set_running (t : nat) (o : option nat) (w : world) : world :=
  World (payloads w) (stacks w) (<[t:=o]> (running_payload w)) (nodes w) (released w) (returns w).
Definition set_nodes (n : gmap nat (option nat)) (w : world) : world :=
  World (payloads w) (stacks w) (running_payload w) n (released w) (returns w).
Definition set_released (r : gset nat) (w : world) : world :=
  World (payloads w) (stacks w) (running_payload w) (nodes w) r (returns w).
Definition set_returns (l : list returned) (w : world) : world :=
  World (payloads w) (stacks w) (running_payload w) (nodes w) (released w) l.

Definition with_state (s : rstate) (p : payload) : payload :=
  Payload s (cancelled_flag p) (callback p) (waiters p) (section p) (started p).
Definition with_waiters (o : option nat) (p : payload) : payload :=
  Payload (run_state p) (cancelled_flag p) (callback p) o (section p) (started p).
Definition with_section (o : option nat) (p : payload) : payload :=
  Payload (run_state p) (cancelled_flag p) (callback p) (waiters p) o (started p).
Definition with_callback (b : bool) (p : payload) : payload :=
  Payload (run_state p) (cancelled_flag p) b (waiters p) (section p) (started p).
Definition with_cancelled (p : payload) : payload :=
  Payload (run_state p) true (callback p) (waiters p) (section p) (started p).

(** ** The operations *)

(** Python code runs in a thread outside all handles or in a callback. *)
Definition in_python (l : list frame) : bool := match l with [] | InRun _ _ :: _ => true | _ => false end.
Definition is_run (h : nat) (f : frame) : bool := match f with InRun k _ => bool_decide (k = h) | _ => false end.
Definition inside (w : world) (t h : nat) : bool := existsb (is_run h) (stacks w t).

(** [run], up to the callback; and from its end, to the release of the first waiter. *)
Definition run_begin (t h : nat) (w : world) : world :=
  let p := payloads w h in
  if decide (run_state p = PENDING) then
    set_running t (Some h) (set_stack t (InRun h (running_payload w t) :: stacks w t)
      (set_payload h (Payload RUNNING (cancelled_flag p) (callback p) (waiters p) (section p) (S (started p))) w))
  else w.
Definition run_end (t h : nat) (previous : option nat) (rest : list frame) (w : world) : world :=
  let p := payloads w h in
  set_running t previous (set_stack t (Draining h (waiters p) :: rest)
    (set_payload h (with_section (Some t) (with_waiters None (with_state DONE p))) w)).
(** [node = w.next; PyThread_release_lock(w.lock)]: [None] would be a dangling node. *)
Definition release_one (t h n : nat) (rest : list frame) (w : world) : option world :=
  next ← nodes w !! n;
  Some (set_released ({[n]} ∪ released w) (set_stack t (Draining h next :: rest) w)).
Definition run_exit (t h : nat) (rest : list frame) (w : world) : world :=
  let p := payloads w h in
  set_stack t rest (set_payload h (with_section None (if cancelled_flag p then with_callback false p else p)) w).

(** [mustWait], and [awaitCompletion] up to where the thread blocks. *)
Definition mustWait (w : world) (t h : nat) : bool :=
  bool_decide (run_state (payloads w h) = RUNNING) && negb (bool_decide (running_payload w t = Some h)).
Definition awaitCompletion (t h : nat) (c : call) (allocated : bool) (w : world) : world :=
  if allocated then
    set_stack t (Waiting h c true :: stacks w t)
      (set_nodes (<[t := waiters (payloads w h)]> (nodes w))
        (set_payload h (with_waiters (Some t) (payloads w h)) w))
  else set_stack t (Waiting h c false :: stacks w t) w.
(** What [cancel] and [cancelled] do once there is nothing to wait for. *)
Definition complete (t h : nat) (c : call) (w : world) : world :=
  let p := payloads w h in
  let w' := match c with
    | CCancelled => w
    | CCancel =>
        if cancelled_flag p then w else
        let p' := with_cancelled p in
        set_payload h (if decide (run_state p' ≠ RUNNING) then with_callback false p' else p') w
    end in
  set_returns (returns w' ++ [Returned t c h (inside w' t h) (cancelled_flag (payloads w' h))]) w'.
Definition cancel (t h : nat) (allocated : bool) (w : world) : world :=
  let p := payloads w h in
  if decide (run_state p = PENDING) then complete t h CCancel (set_payload h (with_state DONE p) w) else
  if mustWait w t h then awaitCompletion t h CCancel allocated w else complete t h CCancel w.
Definition cancelled (t h : nat) (allocated : bool) (w : world) : world :=
  if mustWait w t h then awaitCompletion t h CCancelled allocated w else complete t h CCancelled w.
(** The lock is there, or the state is DONE: the wait is over. *)
Definition resume (t h : nat) (c : call) (parked : bool) (rest : list frame) (w : world) : world :=
  let w1 := set_stack t rest w in
  complete t h c (if parked then set_released (released w ∖ {[t]}) (set_nodes (delete t (nodes w)) w1) else w1).

(** ** The steps of the threads *)
Inductive action :=
  | ARun (t h : nat) | AFinish (t : nat) | ARelease (t : nat) | AExit (t : nat)
  | ACall (t h : nat) (c : call) (allocated : bool) | AWake (t : nat).
Definition free (w : world) (h : nat) : bool := bool_decide (section (payloads w h) = None).

(** [None]: the thread cannot take this step now. *)
Definition step (a : action) (w : world) : option world :=
  match a with
  | ARun t h => if in_python (stacks w t) && free w h then Some (run_begin t h w) else None
  | AFinish t =>
      match stacks w t with
      | InRun h previous :: rest => if free w h then Some (run_end t h previous rest w) else None
      | _ => None
      end
  | ARelease t =>
      match stacks w t with Draining h (Some n) :: rest => release_one t h n rest w | _ => None end
  | AExit t => match stacks w t with Draining h None :: rest => Some (run_exit t h rest w) | _ => None end
  | ACall t h c allocated =>
      if in_python (stacks w t) && free w h then
        Some (match c with CCancel => cancel t h allocated w | CCancelled => cancelled t h allocated w end)
      else None
  | AWake t =>
      match stacks w t with
      | Waiting h c parked :: rest =>
          if free w h && (if parked then bool_decide (t ∈ released w) else bool_decide (run_state (payloads w h) = DONE))
          then Some (resume t h c parked rest w) else None
      | _ => None
      end
  end.
Fixpoint steps (l : list action) (w : world) : option world :=
  match l with [] => Some w | a :: l' => w' ← step a w; steps l' w' end.
Definition stepped (w w' : world) : Prop := ∃ a, step a w = Some w'.
Definition reachable (w : world) : Prop := rtc stepped start w.

(** ** The invariant *)
Implicit Types (w : world) (t h n : nat) (l : list frame) (p : payload).

(** The handles whose callbacks a stack is in, innermost first. *)
Definition runs l : list nat := omap (λ f, match f with InRun h _ => Some h | _ => None end) l.
Fixpoint previous_ok l : Prop :=
  match l with
  | [] => True
  | InRun _ previous :: l' => previous = head (runs l') ∧ previous_ok l'
  | _ :: l' => previous_ok l'
  end.
Definition is_inrun (f : frame) : Prop := match f with InRun _ _ => True | _ => False end.

(** The nodes from [o] on are those of the threads of a list. *)
Fixpoint chain (m : gmap nat (option nat)) (o : option nat) (ts : list nat) : Prop :=
  match ts with
  | [] => o = None
  | t :: ts' => o = Some t ∧ ∃ next, m !! t = Some next ∧ chain m next ts'
  end.
(** The node the drain of a handle's waiters is at. *)
Definition at_node w h : option nat :=
  t ← section (payloads w h); match stacks w t with Draining _ node :: _ => node | _ => None end.
Definition parked w t h : Prop := ∃ c rest, stacks w t = Waiting h c true :: rest.

Definition payload_ok w h : Prop :=
  let p := payloads w h in
  match run_state p with
  | PENDING => callback p = true ∧ waiters p = None ∧ section p = None ∧ started p = 0%nat
  | RUNNING => callback p = true ∧ section p = None ∧ started p = 1%nat ∧ ∃ t, h ∈ runs (stacks w t)
  | DONE => waiters p = None ∧ (started p ≤ 1)%nat
  end.
Record ok w : Prop := {
  ok_shape : ∀ t, Forall is_inrun (tail (stacks w t));
  ok_running : ∀ t, running_payload w t = head (runs (stacks w t)) ∧ previous_ok (stacks w t) ∧ NoDup (runs (stacks w t));
  ok_run : ∀ t h, h ∈ runs (stacks w t) → run_state (payloads w h) = RUNNING;
  ok_one : ∀ t t' h, h ∈ runs (stacks w t) → h ∈ runs (stacks w t') → t = t';
  ok_payload : ∀ h, payload_ok w h;
  ok_section : ∀ t h, section (payloads w h) = Some t ↔ ∃ node rest, stacks w t = Draining h node :: rest;
  ok_chain : ∀ h, ∃ ws ds, chain (nodes w) (waiters (payloads w h)) ws ∧ chain (nodes w) (at_node w h) ds ∧
    NoDup (ws ++ ds) ∧ ∀ t, t ∈ ws ++ ds ↔ parked w t h ∧ (t ∉ released w);
  ok_released : ∀ t, t ∈ released w → ∃ h, parked w t h ∧ run_state (payloads w h) = DONE;
  ok_returns : ∀ r, r ∈ returns w → r_call r = CCancel →
    cancelled_flag (payloads w (r_handle r)) = true ∧ (r_inside r = false → run_state (payloads w (r_handle r)) = DONE) }.

(** *** Stacks and chains *)
Lemma inside_runs w t h : inside w t h = true ↔ h ∈ runs (stacks w t).
Proof.
  unfold inside, runs. induction (stacks w t) as [|f l IH]; cbn; [split; [done|by intros ?%not_elem_of_nil]|].
  rewrite orb_true_iff, IH. destruct f as [k q| |]; cbn; [|naive_solver..].
  rewrite bool_decide_eq_true, elem_of_cons. split; (intros [?|?]; [left; congruence|by right]).
Qed.
Lemma chain_ext m m' o ts : (∀ t, t ∈ ts → m' !! t = m !! t) → chain m o ts → chain m' o ts.
Proof.
  revert o. induction ts as [|t ts IH]; intros o Hm; cbn; [done|]. intros (-> & next & Hn & Hc). split; [done|].
  exists next. rewrite Hm by set_solver. split; [done|]. apply IH; [set_solver|done].
Qed.
Lemma chain_none m ts : chain m None ts → ts = [].
Proof. by destruct ts as [|t ts]; [|intros [? _]]. Qed.
Lemma chain_inj m o ts1 ts2 : chain m o ts1 → chain m o ts2 → ts1 = ts2.
Proof.
  revert o ts2. induction ts1 as [|x ts1 IH]; intros o [|y ts2]; cbn; [done| | |].
  - by intros -> [? _].
  - by intros [-> _] ?.
  - intros (-> & n1 & E1 & C1) ([= <-] & n2 & E2 & C2). rewrite E1 in E2. injection E2 as <-. f_equal. by eapply IH.
Qed.
Lemma runs_python l : in_python l = true → Forall is_inrun (tail l) → Forall is_inrun l.
Proof. by destruct l as [|[] l]; cbn; intros; try constructor. Qed.

Lemma start_ok : ok start.
Proof.
  split; cbn; try done.
  - intros t. split_and!; [done|done|constructor].
  - intros t h H. by apply not_elem_of_nil in H.
  - intros t t' h H. by apply not_elem_of_nil in H.
  - intros t h. split; [done|]. by intros (? & ? & ?).
  - intros h. exists [], []. split_and!; [done|done|constructor|]. intros t. split; [by intros ?%not_elem_of_nil|].
    by intros [(? & ? & ?) _].
  - intros r H. by apply not_elem_of_nil in H.
Qed.

(** *** The steps keep it *)
Lemma runs_inrun h q l : runs (InRun h q :: l) = h :: runs l.
Proof. done. Qed.
Lemma runs_draining h o l : runs (Draining h o :: l) = runs l.
Proof. done. Qed.
Lemma runs_waiting h c b l : runs (Waiting h c b :: l) = runs l.
Proof. done. Qed.
Ltac look := cbn in *; repeat (rewrite runs_inrun in * || rewrite runs_draining in * || rewrite runs_waiting in * || rewrite fn_lookup_insert in * || (rewrite fn_lookup_insert_ne in * by done)); cbn in *.
Ltac at_ a b := let E := fresh in destruct (decide (a = b)) as [E|]; [rewrite <-?E in *; clear E|]; look.

(** A change of a payload that is not about its waiters and its section. *)
Lemma payload_upd w h p' : ok w → let p := payloads w h in
  waiters p' = waiters p → section p' = section p → (cancelled_flag p = true → cancelled_flag p' = true) →
  (run_state p = DONE → run_state p' = DONE) → (run_state p = RUNNING → run_state p' = RUNNING) →
  payload_ok (set_payload h p' w) h → ok (set_payload h p' w).
Proof.
  cbn zeta. intros O Ew Es Hf Hd Hr Hp. split; cbn; try apply O.
  - intros t k Hk. assert (H := ok_run _ O t k Hk). at_ h k; auto.
  - intros k. at_ h k; [done|]. assert (H := ok_payload _ O k). unfold payload_ok in *. by look.
  - intros t k. rewrite <-(ok_section _ O). at_ h k; by rewrite ?Es.
  - intros k. destruct (ok_chain _ O k) as (ws & ds & H1 & H2 & H3). exists ws, ds. refine (conj _ (conj _ H3)).
    + at_ h k; by rewrite ?Ew.
    + assert (E : at_node (set_payload h p' w) k = at_node w k); [|by rewrite E].
      unfold at_node. cbn. at_ h k; by rewrite ?Es.
  - intros t Ht. destruct (ok_released _ O t Ht) as (k & Hk & Hdone). exists k. split; [done|]. at_ h k; auto.
  - intros r Hin Hc. destruct (ok_returns _ O r Hin Hc) as [H1 H2]. at_ h (r_handle r); [|done]. split; auto.
Qed.
Lemma complete_ok t h c w : ok w → (c = CCancel → run_state (payloads w h) ≠ PENDING) →
  (c = CCancel → inside w t h = false → run_state (payloads w h) = DONE) → ok (complete t h c w).
Proof.
  intros O Hp Hd. unfold complete. set (w' := match c with CCancel => _ | CCancelled => w end).
  assert (Hw : ok w' ∧ stacks w' = stacks w ∧ run_state (payloads w' h) = run_state (payloads w h) ∧
    (c = CCancel → cancelled_flag (payloads w' h) = true)).
  { unfold w'. destruct c; [|by split_and!]. specialize (Hp eq_refl). destruct (cancelled_flag (payloads w h)) eqn:Ef; [by split_and!|].
    split_and!; [|done|look; by case_decide|intros _; look; by case_decide]. assert (H := ok_payload _ O h). unfold payload_ok in H.
    apply payload_upd; [done|by case_decide|by case_decide|by case_decide|by case_decide|by case_decide|].
    unfold payload_ok. look. destruct (run_state (payloads w h)) eqn:Es; [done| |]; case_decide; try done; cbn; rewrite Es; [|done].
    destruct H as (? & ? & ? & ?). by split_and!. }
  clearbody w'. destruct Hw as (O' & Est & Ers & Hf). split; cbn; try apply O'.
  intros r. rewrite elem_of_app, list_elem_of_singleton. intros [Hin| ->]; [by apply (ok_returns _ O')|]. cbn. intros Hc.
  split; [by apply Hf|]. unfold inside. rewrite Est, Ers. by apply Hd.
Qed.

Lemma run_begin_ok t h w : ok w → in_python (stacks w t) = true → ok (run_begin t h w).
Proof.
  intros O Hpy. unfold run_begin. case_decide as Hs; [|done].
  assert (Hp := ok_payload _ O h). unfold payload_ok in Hp. rewrite Hs in Hp. destruct Hp as (P1 & P2 & P3 & P4).
  assert (Hfree : ∀ t', h ∉ runs (stacks w t')) by (intros t' H; apply (ok_run _ O) in H; congruence).
  assert (Hall := runs_python _ Hpy (ok_shape _ O t)).
  assert (Hpark : ∀ t' k, parked (run_begin t h w) t' k ↔ parked w t' k).
  { intros t' k. unfold run_begin. rewrite decide_True by done. unfold parked. at_ t t'; [|done].
    destruct (stacks w t) as [|[] l]; naive_solver. }
  unfold run_begin in Hpark. rewrite decide_True in Hpark by done. set (w' := set_running _ _ _) in *.
  assert (Hsec : ∀ k, section (payloads w' k) = section (payloads w k)) by (intros k; unfold w'; at_ h k; done).
  assert (Hwai : ∀ k, waiters (payloads w' k) = waiters (payloads w k)) by (intros k; unfold w'; at_ h k; done).
  assert (Hat : ∀ k, at_node w' k = at_node w k).
  { intros k. unfold at_node. rewrite Hsec. destruct (section (payloads w k)) as [t'|]; [|done]. cbn. at_ t t'; [|done].
    by destruct (stacks w t) as [|[] l]. }
  split.
  - intros t'. cbn. at_ t t'; [done|]. apply O.
  - intros t'. cbn. destruct (ok_running _ O t') as (R1 & R2 & R3). at_ t t'; [|done].
    refine (conj eq_refl (conj (conj R1 R2) _)). constructor; [apply Hfree|done].
  - intros t' k. cbn. at_ t t'.
    + rewrite elem_of_cons. at_ h k; [done|]. intros [?|?]; [congruence|]. by apply (ok_run _ O t).
    + intros H. at_ h k; [done|]. by apply (ok_run _ O t').
  - intros t1 t2 k. cbn. at_ t t1; at_ t t2; try done; rewrite ?elem_of_cons.
    + intros [-> |H1] H2; [by apply Hfree in H2|]. by eapply (ok_one _ O).
    + intros H1 [-> |H2]; [by apply Hfree in H1|]. by eapply (ok_one _ O).
    + apply (ok_one _ O).
  - intros k. unfold payload_ok. cbn. at_ h k.
    + split_and!; [done|done|lia|]. exists t. look. apply elem_of_cons. by left.
    + assert (H := ok_payload _ O k). unfold payload_ok in H. destruct (run_state (payloads w k)); [done| |done].
      destruct H as (? & ? & ? & t' & Ht'). split_and!; [done..|]. exists t'. at_ t t'; [|done]. by apply elem_of_cons; right.
  - intros t' k. rewrite Hsec, (ok_section _ O). cbn. at_ t t'; [|done]. destruct (stacks w t) as [|[] l]; naive_solver.
  - intros k. destruct (ok_chain _ O k) as (ws & ds & H1 & H2 & H3 & H4). exists ws, ds. rewrite Hwai, Hat.
    split_and!; [done..|]. intros t'. by rewrite H4, Hpark.
  - intros t' Ht'. cbn in Ht'. destruct (ok_released _ O t' Ht') as (k & Hk & Hd). exists k. split; [by apply Hpark|].
    cbn. at_ h k; [congruence|done].
  - intros r Hin Hc. cbn in Hin. destruct (ok_returns _ O r Hin Hc) as [H1 H2]. cbn. at_ h (r_handle r); [|done].
    split; [done|]. intros Hi. specialize (H2 Hi). congruence.
Qed.

Lemma parked_frame w w' t l : (∀ t', t' ≠ t → stacks w' t' = stacks w t') → stacks w' t = l →
  (∀ k, ¬ parked w t k) → (∀ h c rest, l ≠ Waiting h c true :: rest) → ∀ t' k, parked w' t' k ↔ parked w t' k.
Proof.
  intros Hs Hl Hn Hw t' k. destruct (decide (t' = t)) as [-> |]; [|unfold parked; by rewrite Hs].
  split; [|intros H; by apply Hn in H]. intros (c & rest & E). rewrite Hl in E. exfalso. by apply (Hw k c rest).
Qed.
Lemma inrun_not_waiting l h c b rest : Forall is_inrun l → l ≠ Waiting h c b :: rest.
Proof. intros H ->. by inversion H. Qed.
Lemma at_node_frame w w' t : (∀ t', t' ≠ t → stacks w' t' = stacks w t') →
  (∀ k, section (payloads w k) ≠ Some t) → (∀ k, section (payloads w' k) = section (payloads w k)) → ∀ k, at_node w' k = at_node w k.
Proof.
  intros Hs Ht He k. unfold at_node. rewrite He. specialize (Ht k). destruct (section (payloads w k)) as [t'|]; [|done]. cbn.
  by rewrite Hs by congruence.
Qed.

Lemma run_end_ok t h q rest w : ok w → stacks w t = InRun h q :: rest → section (payloads w h) = None → ok (run_end t h q rest w).
Proof.
  intros O Est Hfree. set (w' := run_end t h q rest w).
  destruct (ok_running _ O t) as (R1 & R2 & R3). rewrite Est in R1, R2, R3. rewrite runs_inrun in R3. apply NoDup_cons in R3 as [Hnin R3].
  assert (Hsh := ok_shape _ O t). rewrite Est in Hsh. cbn in Hsh.
  assert (Hin : h ∈ runs (stacks w t)) by (rewrite Est, runs_inrun; apply list_elem_of_here).
  assert (Hrun := ok_run _ O t h Hin). assert (Hp := ok_payload _ O h). unfold payload_ok in Hp. rewrite Hrun in Hp.
  assert (Hother : ∀ t' k, k ∈ runs (stacks w' t') → k ≠ h ∧ k ∈ runs (stacks w t')).
  { intros t' k. unfold w'. at_ t t'.
    - intros Hk. split; [by intros ->|]. rewrite Est, runs_inrun. by apply elem_of_cons; right.
    - intros Hk. split; [|done]. intros ->. assert (t = t') by (by eapply (ok_one _ O)). done. }
  assert (Hpark : ∀ t' k, parked w' t' k ↔ parked w t' k).
  { apply (parked_frame w w' t (Draining h (waiters (payloads w h)) :: rest)); [intros t' Ht'; unfold w'; by look|unfold w'; by look| |done].
    intros k (c & r & E). by rewrite Est in E. }
  assert (Hsec : ∀ k, section (payloads w k) ≠ Some t) by (intros k E; apply (ok_section _ O) in E as (? & ? & E); by rewrite Est in E).
  split.
  - intros t'. unfold w'. at_ t t'; [done|apply O].
  - intros t'. unfold w'. at_ t t'; [|apply O]. cbn in R2. by destruct R2.
  - intros t' k Hk. destruct (Hother t' k Hk) as [Hne Hk']. unfold w'. look. by apply (ok_run _ O t').
  - intros t1 t2 k H1 H2. apply Hother in H1 as [_ H1], H2 as [_ H2]. by eapply (ok_one _ O).
  - intros k. unfold payload_ok, w'. at_ h k; [split; [done|lia]|]. assert (H := ok_payload _ O k). unfold payload_ok in H.
    destruct (run_state (payloads w k)); [done| |done]. destruct H as (? & ? & ? & t' & Ht'). split_and!; [done..|].
    exists t'. at_ t t'; [|done]. rewrite Est, runs_inrun, elem_of_cons in Ht'. by destruct Ht'.
  - intros t' k. unfold w'. at_ h k; at_ t t'.
    + split; [|done]. intros _. by eexists _, _.
    + rewrite <-(ok_section _ O), Hfree. split; [intros [= ->]; done|done].
    + rewrite (ok_section _ O), Est. naive_solver.
    + apply (ok_section _ O).
  - intros k. destruct (ok_chain _ O k) as (ws & ds & H1 & H2 & H3 & H4). destruct (decide (k = h)) as [-> |Hne].
    + assert (ds = []) as ->. { unfold at_node in H2. rewrite Hfree in H2. by apply chain_none in H2. }
      exists [], ws. rewrite app_nil_r in H3, H4.
      assert (Ha : at_node w' h = waiters (payloads w h)) by (unfold at_node, w'; look; by look). rewrite Ha.
      split_and!; [unfold w'; by look|done|done|]. intros t'. cbn [app]. by rewrite H4, Hpark.
    + exists ws, ds. assert (Ha : at_node w' k = at_node w k).
      { unfold at_node, w'. look. specialize (Hsec k). destruct (section (payloads w k)) as [t'|]; [|done]. cbn.
        by rewrite fn_lookup_insert_ne by congruence. }
      assert (Hk : payloads w' k = payloads w k) by (unfold w'; by look). rewrite Ha, Hk.
      split_and!; [done|done|done|]. intros t'. by rewrite H4, Hpark.
  - intros t' Ht'. destruct (ok_released _ O t' Ht') as (k & Hk & Hd). exists k. split; [by apply Hpark|]. unfold w'. at_ h k; done.
  - intros r Hr Hc. destruct (ok_returns _ O r Hr Hc) as [H1 H2]. unfold w'. at_ h (r_handle r); done.
Qed.

Lemma drain_facts t h node rest w : ok w → stacks w t = Draining h node :: rest →
  Forall is_inrun rest ∧ section (payloads w h) = Some t ∧ run_state (payloads w h) = DONE ∧ at_node w h = node ∧
  (∀ k, ¬ parked w t k).
Proof.
  intros O Est. assert (Hsh := ok_shape _ O t). rewrite Est in Hsh. assert (Hs : section (payloads w h) = Some t).
  { apply (ok_section _ O). by eexists _, _. }
  split_and!; [done|done| |unfold at_node; rewrite Hs; cbn; by rewrite Est|intros k (? & ? & E); congruence].
  assert (Hp := ok_payload _ O h). unfold payload_ok in Hp. destruct (run_state _); naive_solver.
Qed.
Lemma release_ok t h n rest w : ok w → stacks w t = Draining h (Some n) :: rest →
  ∃ w', release_one t h n rest w = Some w' ∧ ok w' ∧ n ∈ released w' ∧
    (∀ k, run_state (payloads w' k) = run_state (payloads w k)) ∧ released w ⊆ released w'.
Proof.
  intros O Est. destruct (drain_facts _ _ _ _ _ O Est) as (Hsh & Hs & Hd & Ha & Hnp).
  destruct (ok_chain _ O h) as (ws & ds & H1 & H2 & H3 & H4). rewrite Ha in H2. destruct ds as [|n' ds]; [done|].
  destruct H2 as ([= <-] & next & Hn & Hc). unfold release_one. rewrite Hn. cbn [mbind option_bind].
  eexists. split; [done|]. set (w' := set_released _ _).
  assert (Hnpk : parked w n h) by (apply H4; set_solver).
  assert (Hnone : n ∉ ws ++ ds) by (apply NoDup_app in H3 as (_ & Hx & Hy); apply NoDup_cons in Hy as [? _]; set_solver).
  assert (Hpark : ∀ t' k, parked w' t' k ↔ parked w t' k).
  { apply (parked_frame w w' t (Draining h next :: rest)); [intros t' Ht'; unfold w'; by look|unfold w'; by look|done|done]. }
  split; [|split_and!; [unfold w'; cbn; set_solver|done|unfold w'; cbn; set_solver]]. split.
  - intros t'. unfold w'. at_ t t'; [done|apply O].
  - intros t'. assert (H := ok_running _ O t'). unfold w'. at_ t t'; [|done]. by rewrite Est in H.
  - intros t' k. assert (H := ok_run _ O t' k). unfold w'. at_ t t'; [|done]. by rewrite Est in H.
  - intros t1 t2 k. assert (H := ok_one _ O t1 t2 k). unfold w'. at_ t t1; at_ t t2; try done; by rewrite Est in H.
  - intros k. assert (H := ok_payload _ O k). unfold payload_ok in *. change (payloads w' k) with (payloads w k).
    destruct (run_state (payloads w k)); [done| |done].
    destruct H as (? & ? & ? & t' & Ht'). split_and!; [done..|]. exists t'. unfold w'. at_ t t'; [|done]. by rewrite Est in Ht'.
  - intros t' k. change (payloads w' k) with (payloads w k). rewrite (ok_section _ O). unfold w'. at_ t t'; [|done]. rewrite Est. naive_solver.
  - intros k. destruct (decide (k = h)) as [-> |Hne].
    + exists ws, ds. assert (Ha' : at_node w' h = next) by (unfold at_node, w'; cbn; rewrite Hs; cbn; by look). rewrite Ha'.
      split_and!; [done|done| |].
      { apply NoDup_app in H3 as (Hx & Hy & Hz). apply NoDup_cons in Hz as [_ Hz]. apply NoDup_app. split_and!; [done|set_solver|done]. }
      intros t'. rewrite Hpark. specialize (H4 t'). assert (Heq : t' ∈ ws ++ ds ↔ t' ∈ ws ++ n :: ds ∧ t' ≠ n).
      { rewrite !elem_of_app, elem_of_cons. rewrite elem_of_app in Hnone. destruct (decide (t' = n)) as [-> |]; naive_solver. }
      rewrite Heq, H4. unfold w'. cbn. set_solver.
    + destruct (ok_chain _ O k) as (ws' & ds' & G1 & G2 & G3 & G4). exists ws', ds'.
      assert (Ha' : at_node w' k = at_node w k).
      { unfold at_node. change (payloads w' k) with (payloads w k). destruct (section (payloads w k)) as [t'|] eqn:Es'; [|done]. cbn.
        apply (ok_section _ O) in Es' as (? & ? & Es'). at_ t t'; [rewrite Est in Es'; congruence|done]. }
      rewrite Ha'. split_and!; [done|done|done|]. intros t'. rewrite Hpark, G4. unfold w'. cbn.
      destruct (decide (t' = n)) as [-> |]; [|set_solver]. destruct Hnpk as (? & ? & E).
      assert (¬ parked w n k) by (intros (? & ? & E'); rewrite E in E'; congruence). tauto.
  - intros t'. unfold w' at 1. cbn. rewrite elem_of_union, elem_of_singleton. intros [-> |Ht'].
    + exists h. split; [by apply Hpark|done].
    + destruct (ok_released _ O t' Ht') as (k & Hk & Hkd). exists k. by rewrite Hpark.
  - apply O.
Qed.

Lemma run_exit_ok t h rest w : ok w → stacks w t = Draining h None :: rest → ok (run_exit t h rest w).
Proof.
  intros O Est. destruct (drain_facts _ _ _ _ _ O Est) as (Hsh & Hs & Hd & Ha & Hnp). set (w' := run_exit t h rest w).
  assert (Hp : run_state (payloads w' h) = DONE ∧ section (payloads w' h) = None ∧ waiters (payloads w' h) = waiters (payloads w h) ∧
    started (payloads w' h) = started (payloads w h) ∧ cancelled_flag (payloads w' h) = cancelled_flag (payloads w h)).
  { unfold w'. look. by destruct (cancelled_flag _) eqn:E; cbn; rewrite ?E. }
  destruct Hp as (P1 & P2 & P3 & P4 & P5).
  assert (Hk : ∀ k, k ≠ h → payloads w' k = payloads w k) by (intros k Hne; unfold w'; by look).
  assert (Hpark : ∀ t' k, parked w' t' k ↔ parked w t' k).
  { apply (parked_frame w w' t rest); [intros t' Ht'; unfold w'; by look|unfold w'; by look|done|intros; by apply inrun_not_waiting]. }
  assert (Hruns : ∀ t', runs (stacks w' t') = runs (stacks w t')) by (intros t'; unfold w'; at_ t t'; [by rewrite Est|done]).
  split.
  - intros t'. unfold w'. at_ t t'; [|apply O]. by destruct Hsh.
  - intros t'. assert (H := ok_running _ O t'). rewrite Hruns. unfold w'. at_ t t'; [|done]. by rewrite Est in H |- *.
  - intros t' k. rewrite Hruns. intros Hin. apply (ok_run _ O) in Hin. destruct (decide (k = h)) as [-> |]; [congruence|by rewrite Hk].
  - intros t1 t2 k. rewrite !Hruns. apply (ok_one _ O).
  - intros k. assert (H := ok_payload _ O k). unfold payload_ok in *. destruct (decide (k = h)) as [-> |].
    + rewrite Hd in H. by rewrite P1, P3, P4.
    + rewrite Hk by done. destruct (run_state (payloads w k)); [done| |done]. destruct H as (? & ? & ? & t' & Ht').
      split_and!; [done..|]. exists t'. by rewrite Hruns.
  - intros t' k. destruct (decide (k = h)) as [-> |].
    + rewrite P2. split; [done|]. unfold w'. at_ t t'; intros (? & ? & E).
      * rewrite E in Hsh. by inversion Hsh.
      * assert (section (payloads w h) = Some t') by (apply (ok_section _ O); by eexists _, _). congruence.
    + rewrite Hk, (ok_section _ O) by done. unfold w'. at_ t t'; [|done]. rewrite Est. split; [naive_solver|].
      intros (? & ? & E). rewrite E in Hsh. by inversion Hsh.
  - intros k. destruct (ok_chain _ O k) as (ws & ds & H1 & H2 & H3 & H4). exists ws, ds.
    assert (Ha' : at_node w' k = at_node w k).
    { destruct (decide (k = h)) as [-> |]; [unfold at_node at 1; rewrite P2; by rewrite Ha|]. unfold at_node. rewrite Hk by done.
      destruct (section (payloads w k)) as [t'|] eqn:Es'; [|done]. cbn. apply (ok_section _ O) in Es' as (? & ? & Es').
      unfold w'. at_ t t'; [rewrite Est in Es'; congruence|done]. }
    rewrite Ha'. split_and!; [|done|done|intros t'; by rewrite H4, Hpark].
    destruct (decide (k = h)) as [-> |]; [by rewrite P3|by rewrite Hk].
  - intros t' Ht'. destruct (ok_released _ O t' Ht') as (k & Hpk & Hkd). exists k. rewrite Hpark. split; [done|].
    destruct (decide (k = h)) as [-> |]; [done|by rewrite Hk].
  - intros r Hr Hc. destruct (ok_returns _ O r Hr Hc) as [G1 G2].
    destruct (decide (r_handle r = h)) as [E|]; [rewrite E in *; by rewrite P5|by rewrite Hk].
Qed.

Lemma await_ok t h c b w : ok w → in_python (stacks w t) = true → run_state (payloads w h) = RUNNING →
  section (payloads w h) = None → ok (awaitCompletion t h c b w).
Proof.
  intros O Hpy Hrun Hfree. assert (Hall := runs_python _ Hpy (ok_shape _ O t)).
  assert (Hnp : ∀ k, ¬ parked w t k) by (intros k (? & ? & E); rewrite E in Hall; by inversion Hall).
  assert (Hnr : t ∉ released w) by (intros H; apply (ok_released _ O) in H as (k & Hk & _); by apply Hnp in Hk).
  assert (Hnd : ∀ k node rest, stacks w t ≠ Draining k node :: rest) by (intros k node rest E; by rewrite E in Hpy).
  set (w' := awaitCompletion t h c b w).
  assert (Hpay : ∀ k, run_state (payloads w' k) = run_state (payloads w k) ∧ section (payloads w' k) = section (payloads w k) ∧
    started (payloads w' k) = started (payloads w k) ∧ callback (payloads w' k) = callback (payloads w k) ∧
    cancelled_flag (payloads w' k) = cancelled_flag (payloads w k)).
  { intros k. unfold w', awaitCompletion. destruct b; look; [at_ h k; done|done]. }
  assert (Hst : stacks w' t = Waiting h c b :: stacks w t) by (unfold w', awaitCompletion; destruct b; by look).
  assert (Hst' : ∀ t', t' ≠ t → stacks w' t' = stacks w t') by (intros t' Hne; unfold w', awaitCompletion; destruct b; by look).
  assert (Hrel : released w' = released w ∧ returns w' = returns w ∧ running_payload w' = running_payload w)
    by (unfold w', awaitCompletion; by destruct b).
  destruct Hrel as (Hrel & Hret & Hrp).
  assert (Hruns : ∀ t', runs (stacks w' t') = runs (stacks w t')).
  { intros t'. destruct (decide (t' = t)) as [-> |]; [by rewrite Hst|by rewrite Hst']. }
  assert (Hat : ∀ k, at_node w' k = at_node w k).
  { apply (at_node_frame w w' t); [done| |intros k; apply Hpay]. intros k E. apply (ok_section _ O) in E as (? & ? & E). by apply Hnd in E. }
  split.
  - intros t'. destruct (decide (t' = t)) as [-> |]; [by rewrite Hst|rewrite Hst' by done; apply O].
  - intros t'. assert (H := ok_running _ O t'). rewrite Hruns, Hrp. destruct (decide (t' = t)) as [-> |]; [by rewrite Hst|by rewrite Hst'].
  - intros t' k. rewrite Hruns. destruct (Hpay k) as [-> _]. apply (ok_run _ O).
  - intros t1 t2 k. rewrite !Hruns. apply (ok_one _ O).
  - intros k. assert (H := ok_payload _ O k). unfold payload_ok in *. destruct (Hpay k) as (-> & -> & -> & -> & _).
    assert (Hw : run_state (payloads w k) ≠ RUNNING → waiters (payloads w' k) = waiters (payloads w k)).
    { intros Hne. unfold w', awaitCompletion. destruct b; look; [at_ h k; done|done]. }
    destruct (run_state (payloads w k)); [by rewrite Hw| |by rewrite Hw]. destruct H as (? & ? & ? & t' & Ht').
    split_and!; [done..|]. exists t'. by rewrite Hruns.
  - intros t' k. destruct (Hpay k) as (_ & -> & _). rewrite (ok_section _ O).
    destruct (decide (t' = t)) as [-> |]; [rewrite Hst|by rewrite Hst']. split; [|naive_solver]. intros (? & ? & E). by apply Hnd in E.
  - intros k. destruct (ok_chain _ O k) as (ws & ds & H1 & H2 & H3 & H4). rewrite Hat.
    assert (Htn : t ∉ ws ++ ds) by (intros H; apply H4 in H as [H _]; by apply Hnp in H).
    assert (Hother : ∀ t', t' ≠ t → parked w' t' k ↔ parked w t' k) by (intros t' Hne; unfold parked; by rewrite Hst').
    destruct b; [|].
    + assert (Hn : nodes w' = <[t := waiters (payloads w h)]> (nodes w)) by done. rewrite Hn, Hrel.
      assert (Hext : ∀ o ts, (∀ t', t' ∈ ts → t' ∈ ws ++ ds) → chain (nodes w) o ts → chain (<[t := waiters (payloads w h)]> (nodes w)) o ts).
      { intros o l Hl. apply chain_ext. intros t' Ht'. rewrite lookup_insert_ne; [done|]. intros <-. by apply Htn, Hl. }
      destruct (decide (k = h)) as [-> |Hne].
      * exists (t :: ws), ds. split_and!.
        -- split; [unfold w'; by look|]. exists (waiters (payloads w h)). rewrite lookup_insert_eq. split; [done|].
           apply Hext; [set_solver|done].
        -- apply Hext; [set_solver|done].
        -- by constructor.
        -- intros t'. cbn [app]. rewrite elem_of_cons. destruct (decide (t' = t)) as [-> |]; [|rewrite H4, Hother by done; naive_solver].
           split; [|by left]. intros _. split; [by eexists _, _|done].
      * exists ws, ds. split_and!; [..|done|].
        -- assert (payloads w' k = payloads w k) as -> by (unfold w'; by look). apply Hext; [set_solver|done].
        -- apply Hext; [set_solver|done].
        -- intros t'. destruct (decide (t' = t)) as [-> |]; [|by rewrite H4, Hother].
           split; [by intros ?|]. intros [(? & ? & E) _]. rewrite Hst in E. congruence.
    + exists ws, ds. split_and!; [done|done|done|]. rewrite Hrel. intros t'. destruct (decide (t' = t)) as [-> |]; [|by rewrite H4, Hother].
      split; [by intros ?|]. intros [(? & ? & E) _]. rewrite Hst in E. congruence.
  - intros t'. rewrite Hrel. intros Ht'. destruct (ok_released _ O t' Ht') as (k & Hk & Hd). exists k. destruct (Hpay k) as [-> _].
    split; [|done]. unfold parked. rewrite Hst'; [done|]. by intros ->.
  - intros r. rewrite Hret. destruct (Hpay (r_handle r)) as (-> & _ & _ & _ & ->). apply (ok_returns _ O).
Qed.

Lemma resume_ok t h c b rest w : ok w → stacks w t = Waiting h c b :: rest →
  (if b then t ∈ released w else run_state (payloads w h) = DONE) → ok (resume t h c b rest w).
Proof.
  intros O Est Hb. assert (Hsh := ok_shape _ O t). rewrite Est in Hsh. cbn in Hsh.
  assert (Hd : run_state (payloads w h) = DONE).
  { destruct b; [|done]. destruct (ok_released _ O t Hb) as (k & (? & ? & E) & Hk). rewrite Est in E. congruence. }
  unfold resume. set (w1 := set_stack t rest w). set (w' := if b then _ else w1).
  assert (Hpay : payloads w' = payloads w) by (unfold w'; by destruct b).
  assert (Hst : stacks w' t = rest) by (unfold w', w1; destruct b; by look).
  assert (Hst' : ∀ t', t' ≠ t → stacks w' t' = stacks w t') by (intros t' Hne; unfold w', w1; destruct b; by look).
  assert (Hruns : ∀ t', runs (stacks w' t') = runs (stacks w t')).
  { intros t'. destruct (decide (t' = t)) as [-> |]; [by rewrite Hst, Est|by rewrite Hst']. }
  assert (Hat : ∀ k, at_node w' k = at_node w k).
  { apply (at_node_frame w w' t); [done| |intros k; by rewrite Hpay]. intros k E. apply (ok_section _ O) in E as (? & ? & E). by rewrite Est in E. }
  assert (Hnp : ∀ k, ¬ parked w' t k) by (intros k (? & ? & E); rewrite Hst in E; by apply (inrun_not_waiting rest) in E).
  assert (Hrel : ∀ t', t' ≠ t → (t' ∈ released w' ↔ t' ∈ released w)) by (intros t' Hne; unfold w'; destruct b; cbn; set_solver).
  assert (Hnr : t ∉ released w').
  { unfold w'. destruct b; cbn; [set_solver|]. intros H. apply (ok_released _ O) in H as (k & (? & ? & E) & _). by rewrite Est in E. }
  assert (Hout : ∀ k ws ds, (∀ t', t' ∈ ws ++ ds ↔ parked w t' k ∧ (t' ∉ released w)) → t ∉ ws ++ ds).
  { intros k ws ds Hx Hin. apply Hx in Hin as [(? & ? & E) Hin]. rewrite Est in E. destruct b; [done|congruence]. }
  apply complete_ok; [|intros _; rewrite Hpay; congruence|intros _ _; by rewrite Hpay]. split.
  - intros t'. destruct (decide (t' = t)) as [-> |]; [rewrite Hst; by destruct Hsh|rewrite Hst' by done; apply O].
  - intros t'. assert (H := ok_running _ O t'). rewrite Hruns. assert (running_payload w' = running_payload w) as -> by (unfold w'; by destruct b).
    destruct (decide (t' = t)) as [-> |]; [rewrite Hst; by rewrite Est in H |- *|by rewrite Hst'].
  - intros t' k. rewrite Hruns, Hpay. apply (ok_run _ O).
  - intros t1 t2 k. rewrite !Hruns. apply (ok_one _ O).
  - intros k. assert (H := ok_payload _ O k). unfold payload_ok in *. rewrite Hpay.
    destruct (run_state (payloads w k)); [done| |done]. destruct H as (? & ? & ? & t' & Ht'). split_and!; [done..|]. exists t'. by rewrite Hruns.
  - intros t' k. rewrite Hpay, (ok_section _ O). destruct (decide (t' = t)) as [-> |]; [rewrite Hst, Est|by rewrite Hst'].
    split; [naive_solver|]. intros (? & ? & E). rewrite E in Hsh. by inversion Hsh.
  - intros k. destruct (ok_chain _ O k) as (ws & ds & H1 & H2 & H3 & H4). exists ws, ds. rewrite Hat, Hpay. assert (Htn := Hout k ws ds H4).
    assert (Hn : ∀ t', t' ∈ ws ++ ds → nodes w' !! t' = nodes w !! t').
    { intros t' Ht'. unfold w'. destruct b; [|done]. cbn. rewrite lookup_delete_ne; [done|]. by intros <-. }
    split_and!; [eapply chain_ext; [|done]; set_solver..|done|]. intros t'. destruct (decide (t' = t)) as [-> |Hne].
    + split; [done|]. by intros [?%Hnp _].
    + rewrite H4, (Hrel t' Hne). unfold parked. by rewrite Hst'.
  - intros t' Ht'. destruct (decide (t' = t)) as [-> |Hne]; [done|]. apply (Hrel t' Hne) in Ht'.
    destruct (ok_released _ O t' Ht') as (k & Hk & Hkd). exists k. rewrite Hpay. split; [|done]. unfold parked. by rewrite Hst'.
  - intros r. rewrite Hpay. assert (returns w' = returns w) as -> by (unfold w'; by destruct b). apply (ok_returns _ O).
Qed.

Lemma cancel_ok t h b w : ok w → in_python (stacks w t) = true → section (payloads w h) = None → ok (cancel t h b w).
Proof.
  intros O Hpy Hfree. unfold cancel, mustWait. assert (Hp := ok_payload _ O h). unfold payload_ok in Hp.
  case_decide as Hs; [|destruct (_ && _) eqn:Hm].
  - rewrite Hs in Hp. apply complete_ok; [|intros _; by look|intros _ _; by look].
    apply payload_upd; [done|done|done|done|done|by rewrite Hs|]. unfold payload_ok. look. split; [apply Hp|]. destruct Hp as (_ & _ & _ & ->). lia.
  - apply andb_true_iff in Hm as [Hm _]. apply bool_decide_eq_true in Hm. by apply await_ok.
  - apply complete_ok; [done|done|]. intros _ Hin. destruct (run_state (payloads w h)) eqn:E; [done| |done].
    rewrite bool_decide_eq_true_2 in Hm by done. apply negb_false_iff, bool_decide_eq_true in Hm.
    destruct (ok_running _ O t) as (R & _). rewrite Hm in R. assert (inside w t h = true); [|congruence].
    apply inside_runs. destruct (runs (stacks w t)); [done|]. injection R as ->. apply list_elem_of_here.
Qed.
Lemma cancelled_ok t h b w : ok w → in_python (stacks w t) = true → section (payloads w h) = None → ok (cancelled t h b w).
Proof.
  intros O Hpy Hfree. unfold cancelled, mustWait. destruct (_ && _) eqn:Hm; [|by apply complete_ok].
  apply andb_true_iff in Hm as [Hm _]. apply bool_decide_eq_true in Hm. by apply await_ok.
Qed.
Lemma step_ok a w w' : step a w = Some w' → ok w → ok w'.
Proof.
  intros Hs O. unfold step, free in Hs. destruct a as [t h|t|t|t|t h c b|t].
  - destruct (_ && _) eqn:E; [|done]. apply andb_true_iff in E as [E _]. injection Hs as <-. by apply run_begin_ok.
  - destruct (stacks w t) as [|[h q| |] rest] eqn:Est; try done. case_bool_decide; [|done]. injection Hs as <-. by apply run_end_ok.
  - destruct (stacks w t) as [|[|h [n|]|] rest] eqn:Est; try done. destruct (release_ok t h n rest w O Est) as (w2 & Hw2 & O2 & _).
    rewrite Hw2 in Hs. by injection Hs as <-.
  - destruct (stacks w t) as [|[|h [n|]|] rest] eqn:Est; try done. injection Hs as <-. by apply run_exit_ok.
  - destruct (_ && _) eqn:E; [|done]. apply andb_true_iff in E as [E1 E2]. apply bool_decide_eq_true in E2. injection Hs as <-.
    destruct c; [by apply cancel_ok|by apply cancelled_ok].
  - destruct (stacks w t) as [|[| |h c b] rest] eqn:Est; try done. destruct (_ && _) eqn:E; [|done]. injection Hs as <-.
    apply andb_true_iff in E as [_ E]. apply resume_ok; [done|done|]. by destruct b; apply bool_decide_eq_true in E.
Qed.
Lemma reachable_ok w : reachable w → ok w.
Proof.
  revert w. apply (rtc_ind_r (R := stepped) ok start); [apply start_ok|]. intros w1 w2 _ [a Ha] O. by eapply step_ok.
Qed.

(** ** What the handles promise *)

(** What has run, or was cancelled before it could, does not start again. *)
Lemma run_state_complete t h c w k : run_state (payloads (complete t h c w) k) = run_state (payloads w k) ∧
  started (payloads (complete t h c w) k) = started (payloads w k).
Proof.
  unfold complete. destruct c; [|done]. destruct (cancelled_flag (payloads w h)); [done|]. cbn. at_ h k; [|done]. by case_decide.
Qed.
Lemma done_step a w w' h : step a w = Some w' → ok w → run_state (payloads w h) = DONE →
  run_state (payloads w' h) = DONE ∧ started (payloads w' h) = started (payloads w h).
Proof.
  intros Hs O Hd. unfold step in Hs. destruct a as [t k|t|t|t|t k c b|t].
  - destruct (_ && _); [|done]. injection Hs as <-. unfold run_begin. case_decide; [|done]. at_ k h; [congruence|done].
  - destruct (stacks w t) as [|[k q| |] rest] eqn:Est; try done. destruct (free w k); [|done]. injection Hs as <-.
    unfold run_end. at_ k h; done.
  - destruct (stacks w t) as [|[|k [n|]|] rest] eqn:Est; try done. unfold release_one in Hs.
    destruct (nodes w !! n); [|done]. by injection Hs as <-.
  - destruct (stacks w t) as [|[|k [n|]|] rest] eqn:Est; try done. injection Hs as <-. unfold run_exit.
    destruct (cancelled_flag (payloads w k)); at_ k h; done.
  - destruct (_ && _); [|done]. injection Hs as <-.
    assert (Hc : ∀ k c b, run_state (payloads (awaitCompletion t k c b w) h) = DONE ∧
      started (payloads (awaitCompletion t k c b w) h) = started (payloads w h)).
    { intros k' c' []; unfold awaitCompletion; [at_ k' h; done|done]. }
    unfold cancel, cancelled. destruct c; [|destruct (mustWait w t k); [apply Hc|]].
    + case_decide; [|destruct (mustWait w t k); [apply Hc|]].
      * destruct (run_state_complete t k CCancel (set_payload k (with_state DONE (payloads w k)) w) h) as [-> ->]. by at_ k h.
      * by destruct (run_state_complete t k CCancel w h) as [-> ->].
    + by destruct (run_state_complete t k CCancelled w h) as [-> ->].
  - destruct (stacks w t) as [|[| |k c b] rest] eqn:Est; try done. destruct (_ && _); [|done]. injection Hs as <-. unfold resume.
    match goal with |- context [complete t k c ?w2] => destruct (run_state_complete t k c w2 h) as [-> ->] end. by destruct b.
Qed.
Lemma done_forever w w' h : rtc stepped w w' → ok w → run_state (payloads w h) = DONE →
  ok w' ∧ run_state (payloads w' h) = DONE ∧ started (payloads w' h) = started (payloads w h).
Proof.
  induction 1 as [w|w w1 w' [a Ha] _ IH]; intros O Hd; [done|]. destruct (done_step a w w1 h Ha O Hd) as [H1 <-].
  apply IH; [by eapply step_ok|done].
Qed.

Lemma steps_rtc (l : list action) w w' : steps l w = Some w' → rtc stepped w w'.
Proof.
  revert w. induction l as [|a l IH]; cbn; intros w; [by intros [= ->]|].
  destruct (step a w) as [w1|] eqn:Ea; [|done]. intros H. eapply rtc_l; [by exists a|by apply IH].
Qed.
Lemma steps_reachable (l : list action) w : steps l start = Some w → reachable w.
Proof. apply steps_rtc. Qed.

(** C16: Once [cancel] has returned to a thread that was not inside the handle's own callback, the
    callback is not running, on any thread, and never runs again. *)
Theorem cancel_is_final w w' t h b : reachable w → Returned t CCancel h false b ∈ returns w → rtc stepped w w' →
  (started (payloads w' h) = started (payloads w h) ∧ started (payloads w h) ≤ 1)%nat ∧
  (∀ t', inside w t' h = false) ∧ (∀ t', inside w' t' h = false).
Proof.
  intros Hr Hin Hs. apply reachable_ok in Hr as O. destruct (ok_returns _ O _ Hin eq_refl) as [_ Hd]. specialize (Hd eq_refl). cbn in Hd.
  assert (Hno : ∀ w t', ok w → run_state (payloads w h) = DONE → inside w t' h = false).
  { intros w1 t' O1 Hd1. apply not_true_is_false. rewrite inside_runs. intros H. apply (ok_run _ O1) in H. congruence. }
  destruct (done_forever w w' h Hs O Hd) as (O' & Hd' & Hst). assert (Hp := ok_payload _ O h). unfold payload_ok in Hp. rewrite Hd in Hp.
  split; [split; [done|apply Hp]|]. split; intros t'; by apply Hno.
Qed.
Lemma cancel_is_final_witness :
  match steps [ARun 0 5; ACall 1 5 CCancel true; AFinish 0; ARelease 0; AExit 0; AWake 1]%nat start with
  | Some w => (returns w = [Returned 1 CCancel 5 false true] ∧ started (payloads w 5) = 1)%nat ∧
      (started (payloads w 5) = started (payloads w 5) ∧ started (payloads w 5) ≤ 1)%nat ∧
      (∀ t', inside w t' 5%nat = false) ∧ (∀ t', inside w t' 5%nat = false)
  | None => False
  end.
Proof.
  destruct (steps _ start) as [w|] eqn:E; [|by vm_compute in E].
  apply steps_reachable in E as Hr.
  assert (H : returns w = [Returned 1 CCancel 5 false true]%nat ∧ started (payloads w 5%nat) = 1%nat).
  { change (match Some w with Some w => returns w = [Returned 1 CCancel 5 false true]%nat ∧ started (payloads w 5%nat) = 1%nat | None => False end).
    rewrite <-E. by vm_compute. }
  split; [done|]. apply (cancel_is_final w w 1%nat 5%nat true); [done| |done]. destruct H as [-> _]. apply list_elem_of_here.
Defined.

(** While a callback runs it has its callback and its arguments, runs on one thread only, and
    for the first time. *)
Theorem callback_kept w t h : reachable w → inside w t h = true →
  callback (payloads w h) = true ∧ started (payloads w h) = 1%nat ∧ ∀ t', inside w t' h = true → t' = t.
Proof.
  intros Hr Hin. apply reachable_ok in Hr as O. apply inside_runs in Hin. assert (Hrun := ok_run _ O t h Hin).
  assert (Hp := ok_payload _ O h). unfold payload_ok in Hp. rewrite Hrun in Hp. destruct Hp as (? & _ & ? & _).
  split_and!; [done|done|]. intros t' Ht'. apply inside_runs in Ht'. by eapply (ok_one _ O).
Qed.
Lemma callback_kept_witness :
  match steps [ARun 0 5; ACall 0 5 CCancel true; ACall 1 5 CCancelled true]%nat start with
  | Some w => (cancelled_flag (payloads w 5%nat) = true ∧ inside w 0%nat 5%nat = true) ∧
      callback (payloads w 5%nat) = true ∧ started (payloads w 5%nat) = 1%nat ∧ ∀ t', inside w t' 5%nat = true → t' = 0%nat
  | None => False
  end.
Proof.
  destruct (steps _ start) as [w|] eqn:E; [|by vm_compute in E]. apply steps_reachable in E as Hr.
  assert (H : cancelled_flag (payloads w 5%nat) = true ∧ inside w 0%nat 5%nat = true).
  { change (match Some w with Some w => cancelled_flag (payloads w 5%nat) = true ∧ inside w 0%nat 5%nat = true | None => False end).
    rewrite <-E. by vm_compute. }
  split; [done|]. by apply (callback_kept w 0%nat 5%nat); [|apply H].
Defined.

(** The drain of the waiters, left to run, releases every one of them. *)
Lemma drain_finishes w t h node rest ds : ok w → stacks w t = Draining h node :: rest → chain (nodes w) node ds →
  (∀ t', t' ∈ ds ↔ parked w t' h ∧ (t' ∉ released w)) →
  ∃ w', rtc stepped w w' ∧ section (payloads w' h) = None ∧ run_state (payloads w' h) = DONE ∧
    (∀ t', parked w t' h → stacks w' t' = stacks w t' ∧ t' ∈ released w').
Proof.
  revert w node. induction ds as [|n ds IH]; intros w node O Est Hc Hd;
    destruct (drain_facts _ _ _ _ _ O Est) as (Hsh & Hs & Hdone & Ha & Hnp).
  - cbn in Hc. subst node. exists (run_exit t h rest w). split_and!.
    + apply rtc_once. exists (AExit t). cbn. by rewrite Est.
    + unfold run_exit. by look.
    + unfold run_exit. look. by destruct (cancelled_flag _).
    + intros t' Hp. assert (t ≠ t') by (intros ->; by apply Hnp in Hp). split; [unfold run_exit; by look|].
      destruct (decide (t' ∈ released w)) as [|Hn]; [done|]. assert (Hin : t' ∈ []) by (by apply Hd). by apply not_elem_of_nil in Hin.
  - destruct Hc as (-> & next & Hn & Hc). destruct (release_ok t h n rest w O Est) as (w1 & Hw1 & O1 & Hnr & _ & _).
    assert (Hw : w1 = set_released ({[n]} ∪ released w) (set_stack t (Draining h next :: rest) w)).
    { unfold release_one in Hw1. rewrite Hn in Hw1. by injection Hw1. }
    assert (Hpark : ∀ t' k, parked w1 t' k ↔ parked w t' k).
    { apply (parked_frame w w1 t (Draining h next :: rest)); [intros t' Ht'; rewrite Hw; by look|rewrite Hw; by look|done|done]. }
    assert (Hnd : n ∉ ds).
    { destruct (ok_chain _ O h) as (ws & ds' & _ & G2 & G3 & _). rewrite Ha in G2.
      assert (ds' = n :: ds) as -> by (eapply chain_inj; [done|]; split; [done|by exists next]).
      apply NoDup_app in G3 as (_ & _ & G3). by apply NoDup_cons in G3 as [? _]. }
    destruct (IH w1 next O1) as (w' & Hr & H1 & H2 & H3).
    + rewrite Hw. by look.
    + rewrite Hw. done.
    + intros t'. rewrite Hpark, Hw. cbn. specialize (Hd t'). rewrite elem_of_cons in Hd.
      destruct (decide (t' = n)) as [-> |]; [|rewrite not_elem_of_union, not_elem_of_singleton; naive_solver]. set_solver.
    + exists w'. split_and!; [|done|done|].
      * eapply rtc_l; [|done]. exists (ARelease t). cbn. by rewrite Est.
      * intros t' Hp. destruct (H3 t') as [E Hrel]; [by apply Hpark|]. split; [|done]. rewrite E, Hw.
        assert (t ≠ t') by (intros ->; by apply Hnp in Hp). by look.
Qed.

(** C28: No waiter is forgotten: while a call is parked on a handle and has not been released, the
    callback is running, or its runner is at the waiters; and once it has run, the runner
    alone gets to where every parked call can go on. *)
Theorem waiters_released w h : reachable w →
  (∀ t, parked w t h → t ∉ released w →
     (∃ r, inside w r h = true) ∨ ∃ r node rest, stacks w r = Draining h node :: rest) ∧
  (run_state (payloads w h) = DONE →
     ∃ w', rtc stepped w w' ∧ ∀ t, parked w t h → is_Some (step (AWake t) w')).
Proof.
  intros Hr. apply reachable_ok in Hr as O. assert (Hp := ok_payload _ O h). unfold payload_ok in Hp.
  destruct (ok_chain _ O h) as (ws & ds & H1 & H2 & H3 & H4). split.
  - intros t Hpk Hn. destruct (run_state (payloads w h)) eqn:Es.
    + destruct Hp as (_ & Hw & Hse & _). unfold at_node in H2. rewrite Hse in H2. rewrite Hw in H1.
      apply chain_none in H1 as ->, H2 as ->. assert (Hin : t ∈ [] ++ []) by (by apply H4). by apply not_elem_of_nil in Hin.
    + left. destruct Hp as (_ & _ & _ & r & Hrn). exists r. by apply inside_runs.
    + right. destruct Hp as [Hw _]. rewrite Hw in H1. apply chain_none in H1 as ->. unfold at_node in H2.
      destruct (section (payloads w h)) as [r|] eqn:Hse.
      * exists r. by apply (ok_section _ O).
      * cbn in H2. apply chain_none in H2 as ->. assert (Hin : t ∈ [] ++ []) by (by apply H4). by apply not_elem_of_nil in Hin.
  - intros Hd. rewrite Hd in Hp. destruct Hp as [Hw _]. rewrite Hw in H1. apply chain_none in H1 as ->. cbn [app] in H3, H4.
    assert (Hwake : ∀ w' t, section (payloads w' h) = None → parked w t h → stacks w' t = stacks w t → t ∈ released w' →
      is_Some (step (AWake t) w')).
    { intros w' t Hse (c & rest & E) Est Hrel. cbn. rewrite Est, E. unfold free. rewrite Hse, !bool_decide_eq_true_2 by done. by eexists. }
    destruct (section (payloads w h)) as [r|] eqn:Hse.
    + apply (ok_section _ O) in Hse as Hse'. destruct Hse' as (node & rest & Est).
      assert (Ha : at_node w h = node) by (unfold at_node; rewrite Hse; cbn; by rewrite Est). rewrite Ha in H2.
      destruct (drain_finishes w r h node rest ds O Est H2 H4) as (w' & Hrt & G1 & G2 & G3). exists w'. split; [done|].
      intros t Hpk. destruct (G3 t Hpk). by apply Hwake.
    + unfold at_node in H2. rewrite Hse in H2. apply chain_none in H2 as ->. exists w. split; [done|]. intros t Hpk.
      apply Hwake; [done|done|done|]. destruct (decide (t ∈ released w)) as [|Hn]; [done|].
      assert (Hin : t ∈ []) by (by apply H4). by apply not_elem_of_nil in Hin.
Qed.
Lemma waiters_released_witness :
  match steps [ARun 0 5; ACall 1 5 CCancel true; ACall 2 5 CCancelled true; AFinish 0]%nat start with
  | Some w => (run_state (payloads w 5%nat) = DONE ∧ released w = ∅ ∧ parked w 1%nat 5%nat ∧ parked w 2%nat 5%nat) ∧
      (∀ t, parked w t 5%nat → t ∉ released w →
         (∃ r, inside w r 5%nat = true) ∨ ∃ r node rest, stacks w r = Draining 5 node :: rest) ∧
      (run_state (payloads w 5%nat) = DONE → ∃ w', rtc stepped w w' ∧ ∀ t, parked w t 5%nat → is_Some (step (AWake t) w'))
  | None => False
  end.
Proof.
  destruct (steps _ start) as [w|] eqn:E; [|by vm_compute in E]. apply steps_reachable in E as Hr.
  split; [|by apply (waiters_released w 5%nat)].
  change (match Some w with Some w => run_state (payloads w 5%nat) = DONE ∧ released w = ∅ ∧ parked w 1%nat 5%nat ∧ parked w 2%nat 5%nat | None => False end).
  rewrite <-E. vm_compute. split_and!; [done|done|by eexists _, _|by eexists _, _].
Defined.

(** A call waiting for a callback further down its own thread's stack. *)
Definition self_wait w t h : Prop :=
  ∃ c b rest, stacks w t = Waiting h c b :: rest ∧ h ∈ runs rest.
Definition thread_of (a : action) : nat :=
  match a with ARun t _ | AFinish t | ARelease t | AExit t | ACall t _ _ _ | AWake t => t end.
Lemma complete_stacks t h c w : stacks (complete t h c w) = stacks w.
Proof. unfold complete. destruct c; [|done]. by destruct (cancelled_flag _). Qed.
Lemma step_stacks a w w' t : step a w = Some w' → thread_of a ≠ t → stacks w' t = stacks w t.
Proof.
  intros Hs Hne. unfold step in Hs.
  assert (Hawait : ∀ t' k c b, t' ≠ t → stacks (awaitCompletion t' k c b w) t = stacks w t).
  { intros t' k c [] Ht; unfold awaitCompletion; by look. }
  destruct a as [t' k|t'|t'|t'|t' k c b|t']; cbn in Hne.
  - destruct (_ && _); [|done]. injection Hs as <-. unfold run_begin. case_decide; by look.
  - destruct (stacks w t') as [|[k q| |] rest]; try done. destruct (free w k); [|done]. injection Hs as <-. unfold run_end. by look.
  - destruct (stacks w t') as [|[|k [n|]|] rest]; try done. unfold release_one in Hs. destruct (nodes w !! n); [|done]. injection Hs as <-. by look.
  - destruct (stacks w t') as [|[|k [n|]|] rest]; try done. injection Hs as <-. unfold run_exit. by look.
  - destruct (_ && _); [|done]. injection Hs as <-. unfold cancel, cancelled.
    destruct c; [case_decide; [by rewrite complete_stacks|]|]; destruct (mustWait w t' k); rewrite ?complete_stacks; auto.
  - destruct (stacks w t') as [|[| |k c b] rest]; try done. destruct (_ && _); [|done]. injection Hs as <-. unfold resume.
    rewrite complete_stacks. destruct b; by look.
Qed.

(** Such a thread waits for ever.  [mustWait] looks only at the innermost callback, so a
    callback that runs another handle, which cancels the first, gets there: see the witness. *)
Theorem self_wait_for_ever w w' t h : reachable w → self_wait w t h → rtc stepped w w' → self_wait w' t h.
Proof.
  intros Hr Hw Hs. apply reachable_ok in Hr as O. clear Hr. induction Hs as [w|w w1 w' [a Ha] _ IH]; [done|].
  apply IH; [|by eapply step_ok]. clear IH. destruct Hw as (c & b & rest & Est & Hin). exists c, b, rest. split; [|done].
  assert (Hrun : run_state (payloads w h) = RUNNING) by (apply (ok_run _ O t); by rewrite Est).
  destruct (decide (thread_of a = t)) as [Et|Hne]; [|by rewrite (step_stacks a w w1 t Ha Hne)].
  exfalso. destruct a as [t' k|t'|t'|t'|t' k c' b'|t']; cbn in Et; subst t'; cbn in Ha; rewrite Est in Ha; cbn in Ha; try done.
  destruct (_ && _) eqn:E; [|done]. apply andb_true_iff in E as [_ E]. destruct b; apply bool_decide_eq_true in E; [|congruence].
  destruct (ok_released _ O t E) as (k & (? & ? & Ek) & Hd). rewrite Est in Ek. congruence.
Qed.
Lemma self_wait_for_ever_witness :
  match steps [ARun 0 5; ARun 0 6; ACall 0 5 CCancel true]%nat start with
  | Some w => self_wait w 0%nat 5%nat ∧ ∀ w', rtc stepped w w' → self_wait w' 0%nat 5%nat
  | None => False
  end.
Proof.
  destruct (steps _ start) as [w|] eqn:E; [|by vm_compute in E]. apply steps_reachable in E as Hr.
  assert (H : self_wait w 0%nat 5%nat).
  { change (match Some w with Some w => self_wait w 0%nat 5%nat | None => False end).
    rewrite <-E. vm_compute. eexists _, _, _. split; [done|]. apply list_elem_of_further, list_elem_of_here. }
  split; [done|]. intros w'. by apply self_wait_for_ever.
Defined.
