(* ===== verification/Stream.v ===== *)
(** * The stream transport (zig/transport.zig)

    The data path of the native transport: writes gathered into a batch, sent at once as far
    as the socket takes them and queued in libuv for the rest, the marks that pause and resume
    the protocol, half-closing, closing and giving up, and the callbacks of reading.  Python
    code runs inside most of these - the protocol's callbacks, the exception handler, the
    buffers handed to [writelines] - and may call the transport again from there.  libuv's
    queue of write requests is part of the state, and what the socket takes of it and when is
    the environment's. *)
From S2P Require Import Prelude.

Abbreviation data := (list Byte.byte).

(** ** What the transport calls and what calls it *)

(** Python code called: the protocol's methods, the loop's exception handler, and the code that
    runs when the buffers to write are acquired. *)
Inductive callback :=
  | CPause | CResume | CData (d : data) | CUpdated (n : nat) | CEof | CGetBuffer | CAcquire | CHandler (e : exn).

(** What Python code does to a transport. *)
Inductive sop :=
  | SWrite (d : data) | SWritelines (ds : list data) | SWriteEof | SClose | SAbort | SForceClose (e : exn)
  | SLimits (high low : option Z) | SPauseReading | SResumeReading | SStartReading.

(** A callback is made; the transport took [k] bytes before a [write_eof] or a [close] began
    that has now taken effect; [connection_lost] is scheduled; a failure that ends the loop. *)
Inductive event := EvCall (c : callback) | EvEof (k : nat) | EvClosing (k : nat) | EvLost (e : option exn) | EvFatal (e : exn).

(** [uv_try_write]'s answers. *)
Inductive tried := TryWrote (k : nat) | TryAgain | TryFailed (e : exn).
(** What a read gives. *)
Inductive outcome := RData (d : data) | RNothing | REof | RFailed (e : exn).

Record stream := Stream {
  t_reading : bool;   (* [READING] *)
  t_closing : bool;   (* [CLOSING] *)
  t_conn_lost : bool;   (* [CONN_LOST] *)
  t_eof : bool;   (* [EOF_WRITTEN] *)
  t_paused : bool;   (* [PROTOCOL_PAUSED] *)
  t_open : bool;   (* [OPEN] *)
  t_flush_queued : bool;   (* [FLUSH_QUEUED] *)
  t_close_requested : bool;   (* [CLOSE_REQUESTED] *)
  t_allocating : bool;   (* [ALLOCATING_READ_BUFFER] *)
  t_read_pending : bool;   (* [READ_STATE_PENDING] *)
  t_read_full : bool;   (* [previous_read_full_flag] *)
  t_lost_exc : option exn;   (* [conn_lost_exc] *)
  t_read_size : Z;   (* [read_size] *)
  t_wbs : nat;   (* [write_buffer_size] *)
  t_high : nat;   (* [high_water] *)
  t_low : nat;   (* [low_water] *)
  t_pending : list data;   (* [pending_bufs], [pending_count] of them, [pending_size] bytes in all *)
  t_queue : list (nat * data);   (* libuv's outstanding write requests: the size of each, and what of it is not sent yet *)
  t_uv_reading : bool;   (* libuv reads the stream *)
  t_in_alloc : bool;   (* libuv waits for its allocation callback *)
  t_uv_closing : bool;   (* [uv_close] was called *)
  t_fin : option data;   (* what was sent when [uv_shutdown] was called *)
  t_wire : data;   (* what the socket has taken *)
  t_running : bool;   (* the loop's [running] *)
  t_loop_closed : bool;   (* the loop's [closed] *)
  t_accepted : data;   (* history: the bytes accepted from the protocol, in order *)
  t_forced : bool;   (* history: the connection was given up, its data with it *)
  t_misused : bool;   (* history: libuv's handle was stopped or closed inside its allocation callback *)
  t_tick : nat;   (* environment questions asked so far *)
  t_log : list event   (* what has happened, oldest first *)
}.
Definition upd_reading (f : bool → bool) (s : stream) : stream :=
  Stream (f (t_reading s)) (t_closing s) (t_conn_lost s) (t_eof s) (t_paused s) (t_open s) (t_flush_queued s) (t_close_requested s) (t_allocating s) (t_read_pending s) (t_read_full s) (t_lost_exc s) (t_read_size s) (t_wbs s) (t_high s) (t_low s) (t_pending s) (t_queue s) (t_uv_reading s) (t_in_alloc s) (t_uv_closing s) (t_fin s) (t_wire s) (t_running s) (t_loop_closed s) (t_accepted s) (t_forced s) (t_misused s) (t_tick s) (t_log s).
Definition upd_closing (f : bool → bool) (s : stream) : stream :=
  Stream (t_reading s) (f (t_closing s)) (t_conn_lost s) (t_eof s) (t_paused s) (t_open s) (t_flush_queued s) (t_close_requested s) (t_allocating s) (t_read_pending s) (t_read_full s) (t_lost_exc s) (t_read_size s) (t_wbs s) (t_high s) (t_low s) (t_pending s) (t_queue s) (t_uv_reading s) (t_in_alloc s) (t_uv_closing s) (t_fin s) (t_wire s) (t_running s) (t_loop_closed s) (t_accepted s) (t_forced s) (t_misused s) (t_tick s) (t_log s).
Definition upd_conn_lost (f : bool → bool) (s : stream) : stream :=
  Stream (t_reading s) (t_closing s) (f (t_conn_lost s)) (t_eof s) (t_paused s) (t_open s) (t_flush_queued s) (t_close_requested s) (t_allocating s) (t_read_pending s) (t_read_full s) (t_lost_exc s) (t_read_size s) (t_wbs s) (t_high s) (t_low s) (t_pending s) (t_queue s) (t_uv_reading s) (t_in_alloc s) (t_uv_closing s) (t_fin s) (t_wire s) (t_running s) (t_loop_closed s) (t_accepted s) (t_forced s) (t_misused s) (t_tick s) (t_log s).
Definition upd_eof (f : bool → bool) (s : stream) : stream :=
  Stream (t_reading s) (t_closing s) (t_conn_lost s) (f (t_eof s)) (t_paused s) (t_open s) (t_flush_queued s) (t_close_requested s) (t_allocating s) (t_read_pending s) (t_read_full s) (t_lost_exc s) (t_read_size s) (t_wbs s) (t_high s) (t_low s) (t_pending s) (t_queue s) (t_uv_reading s) (t_in_alloc s) (t_uv_closing s) (t_fin s) (t_wire s) (t_running s) (t_loop_closed s) (t_accepted s) (t_forced s) (t_misused s) (t_tick s) (t_log s).
Definition upd_paused (f : bool → bool) (s : stream) : stream :=
  Stream (t_reading s) (t_closing s) (t_conn_lost s) (t_eof s) (f (t_paused s)) (t_open s) (t_flush_queued s) (t_close_requested s) (t_allocating s) (t_read_pending s) (t_read_full s) (t_lost_exc s) (t_read_size s) (t_wbs s) (t_high s) (t_low s) (t_pending s) (t_queue s) (t_uv_reading s) (t_in_alloc s) (t_uv_closing s) (t_fin s) (t_wire s) (t_running s) (t_loop_closed s) (t_accepted s) (t_forced s) (t_misused s) (t_tick s) (t_log s).
Definition upd_open (f : bool → bool) (s : stream) : stream :=
  Stream (t_reading s) (t_closing s) (t_conn_lost s) (t_eof s) (t_paused s) (f (t_open s)) (t_flush_queued s) (t_close_requested s) (t_allocating s) (t_read_pending s) (t_read_full s) (t_lost_exc s) (t_read_size s) (t_wbs s) (t_high s) (t_low s) (t_pending s) (t_queue s) (t_uv_reading s) (t_in_alloc s) (t_uv_closing s) (t_fin s) (t_wire s) (t_running s) (t_loop_closed s) (t_accepted s) (t_forced s) (t_misused s) (t_tick s) (t_log s).
Definition upd_flush_queued (f : bool → bool) (s : stream) : stream :=
  Stream (t_reading s) (t_closing s) (t_conn_lost s) (t_eof s) (t_paused s) (t_open s) (f (t_flush_queued s)) (t_close_requested s) (t_allocating s) (t_read_pending s) (t_read_full s) (t_lost_exc s) (t_read_size s) (t_wbs s) (t_high s) (t_low s) (t_pending s) (t_queue s) (t_uv_reading s) (t_in_alloc s) (t_uv_closing s) (t_fin s) (t_wire s) (t_running s) (t_loop_closed s) (t_accepted s) (t_forced s) (t_misused s) (t_tick s) (t_log s).
Definition upd_close_requested (f : bool → bool) (s : stream) : stream :=
  Stream (t_reading s) (t_closing s) (t_conn_lost s) (t_eof s) (t_paused s) (t_open s) (t_flush_queued s) (f (t_close_requested s)) (t_allocating s) (t_read_pending s) (t_read_full s) (t_lost_exc s) (t_read_size s) (t_wbs s) (t_high s) (t_low s) (t_pending s) (t_queue s) (t_uv_reading s) (t_in_alloc s) (t_uv_closing s) (t_fin s) (t_wire s) (t_running s) (t_loop_closed s) (t_accepted s) (t_forced s) (t_misused s) (t_tick s) (t_log s).
Definition upd_allocating (f : bool → bool) (s : stream) : stream :=
  Stream (t_reading s) (t_closing s) (t_conn_lost s) (t_eof s) (t_paused s) (t_open s) (t_flush_queued s) (t_close_requested s) (f (t_allocating s)) (t_read_pending s) (t_read_full s) (t_lost_exc s) (t_read_size s) (t_wbs s) (t_high s) (t_low s) (t_pending s) (t_queue s) (t_uv_reading s) (t_in_alloc s) (t_uv_closing s) (t_fin s) (t_wire s) (t_running s) (t_loop_closed s) (t_accepted s) (t_forced s) (t_misused s) (t_tick s) (t_log s).
Definition upd_read_pending (f : bool → bool) (s : stream) : stream :=
  Stream (t_reading s) (t_closing s) (t_conn_lost s) (t_eof s) (t_paused s) (t_open s) (t_flush_queued s) (t_close_requested s) (t_allocating s) (f (t_read_pending s)) (t_read_full s) (t_lost_exc s) (t_read_size s) (t_wbs s) (t_high s) (t_low s) (t_pending s) (t_queue s) (t_uv_reading s) (t_in_alloc s) (t_uv_closing s) (t_fin s) (t_wire s) (t_running s) (t_loop_closed s) (t_accepted s) (t_forced s) (t_misused s) (t_tick s) (t_log s).
Definition upd_read_full (f : bool → bool) (s : stream) : stream :=
  Stream (t_reading s) (t_closing s) (t_conn_lost s) (t_eof s) (t_paused s) (t_open s) (t_flush_queued s) (t_close_requested s) (t_allocating s) (t_read_pending s) (f (t_read_full s)) (t_lost_exc s) (t_read_size s) (t_wbs s) (t_high s) (t_low s) (t_pending s) (t_queue s) (t_uv_reading s) (t_in_alloc s) (t_uv_closing s) (t_fin s) (t_wire s) (t_running s) (t_loop_closed s) (t_accepted s) (t_forced s) (t_misused s) (t_tick s) (t_log s).
Definition upd_lost_exc (f : (option exn) → (option exn)) (s : stream) : stream :=
  Stream (t_reading s) (t_closing s) (t_conn_lost s) (t_eof s) (t_paused s) (t_open s) (t_flush_queued s) (t_close_requested s) (t_allocating s) (t_read_pending s) (t_read_full s) (f (t_lost_exc s)) (t_read_size s) (t_wbs s) (t_high s) (t_low s) (t_pending s) (t_queue s) (t_uv_reading s) (t_in_alloc s) (t_uv_closing s) (t_fin s) (t_wire s) (t_running s) (t_loop_closed s) (t_accepted s) (t_forced s) (t_misused s) (t_tick s) (t_log s).
Definition upd_read_size (f : Z → Z) (s : stream) : stream :=
  Stream (t_reading s) (t_closing s) (t_conn_lost s) (t_eof s) (t_paused s) (t_open s) (t_flush_queued s) (t_close_requested s) (t_allocating s) (t_read_pending s) (t_read_full s) (t_lost_exc s) (f (t_read_size s)) (t_wbs s) (t_high s) (t_low s) (t_pending s) (t_queue s) (t_uv_reading s) (t_in_alloc s) (t_uv_closing s) (t_fin s) (t_wire s) (t_running s) (t_loop_closed s) (t_accepted s) (t_forced s) (t_misused s) (t_tick s) (t_log s).
Definition upd_wbs (f : nat → nat) (s : stream) : stream :=
  Stream (t_reading s) (t_closing s) (t_conn_lost s) (t_eof s) (t_paused s) (t_open s) (t_flush_queued s) (t_close_requested s) (t_allocating s) (t_read_pending s) (t_read_full s) (t_lost_exc s) (t_read_size s) (f (t_wbs s)) (t_high s) (t_low s) (t_pending s) (t_queue s) (t_uv_reading s) (t_in_alloc s) (t_uv_closing s) (t_fin s) (t_wire s) (t_running s) (t_loop_closed s) (t_accepted s) (t_forced s) (t_misused s) (t_tick s) (t_log s).
Definition upd_high (f : nat → nat) (s : stream) : stream :=
  Stream (t_reading s) (t_closing s) (t_conn_lost s) (t_eof s) (t_paused s) (t_open s) (t_flush_queued s) (t_close_requested s) (t_allocating s) (t_read_pending s) (t_read_full s) (t_lost_exc s) (t_read_size s) (t_wbs s) (f (t_high s)) (t_low s) (t_pending s) (t_queue s) (t_uv_reading s) (t_in_alloc s) (t_uv_closing s) (t_fin s) (t_wire s) (t_running s) (t_loop_closed s) (t_accepted s) (t_forced s) (t_misused s) (t_tick s) (t_log s).
Definition upd_low (f : nat → nat) (s : stream) : stream :=
  Stream (t_reading s) (t_closing s) (t_conn_lost s) (t_eof s) (t_paused s) (t_open s) (t_flush_queued s) (t_close_requested s) (t_allocating s) (t_read_pending s) (t_read_full s) (t_lost_exc s) (t_read_size s) (t_wbs s) (t_high s) (f (t_low s)) (t_pending s) (t_queue s) (t_uv_reading s) (t_in_alloc s) (t_uv_closing s) (t_fin s) (t_wire s) (t_running s) (t_loop_closed s) (t_accepted s) (t_forced s) (t_misused s) (t_tick s) (t_log s).
Definition upd_pending (f : (list data) → (list data)) (s : stream) : stream :=
  Stream (t_reading s) (t_closing s) (t_conn_lost s) (t_eof s) (t_paused s) (t_open s) (t_flush_queued s) (t_close_requested s) (t_allocating s) (t_read_pending s) (t_read_full s) (t_lost_exc s) (t_read_size s) (t_wbs s) (t_high s) (t_low s) (f (t_pending s)) (t_queue s) (t_uv_reading s) (t_in_alloc s) (t_uv_closing s) (t_fin s) (t_wire s) (t_running s) (t_loop_closed s) (t_accepted s) (t_forced s) (t_misused s) (t_tick s) (t_log s).
Definition upd_queue (f : (list (nat * data)) → (list (nat * data))) (s : stream) : stream :=
  Stream (t_reading s) (t_closing s) (t_conn_lost s) (t_eof s) (t_paused s) (t_open s) (t_flush_queued s) (t_close_requested s) (t_allocating s) (t_read_pending s) (t_read_full s) (t_lost_exc s) (t_read_size s) (t_wbs s) (t_high s) (t_low s) (t_pending s) (f (t_queue s)) (t_uv_reading s) (t_in_alloc s) (t_uv_closing s) (t_fin s) (t_wire s) (t_running s) (t_loop_closed s) (t_accepted s) (t_forced s) (t_misused s) (t_tick s) (t_log s).
Definition upd_uv_reading (f : bool → bool) (s : stream) : stream :=
  Stream (t_reading s) (t_closing s) (t_conn_lost s) (t_eof s) (t_paused s) (t_open s) (t_flush_queued s) (t_close_requested s) (t_allocating s) (t_read_pending s) (t_read_full s) (t_lost_exc s) (t_read_size s) (t_wbs s) (t_high s) (t_low s) (t_pending s) (t_queue s) (f (t_uv_reading s)) (t_in_alloc s) (t_uv_closing s) (t_fin s) (t_wire s) (t_running s) (t_loop_closed s) (t_accepted s) (t_forced s) (t_misused s) (t_tick s) (t_log s).
Definition upd_in_alloc (f : bool → bool) (s : stream) : stream :=
  Stream (t_reading s) (t_closing s) (t_conn_lost s) (t_eof s) (t_paused s) (t_open s) (t_flush_queued s) (t_close_requested s) (t_allocating s) (t_read_pending s) (t_read_full s) (t_lost_exc s) (t_read_size s) (t_wbs s) (t_high s) (t_low s) (t_pending s) (t_queue s) (t_uv_reading s) (f (t_in_alloc s)) (t_uv_closing s) (t_fin s) (t_wire s) (t_running s) (t_loop_closed s) (t_accepted s) (t_forced s) (t_misused s) (t_tick s) (t_log s).
Definition upd_uv_closing (f : bool → bool) (s : stream) : stream :=
  Stream (t_reading s) (t_closing s) (t_conn_lost s) (t_eof s) (t_paused s) (t_open s) (t_flush_queued s) (t_close_requested s) (t_allocating s) (t_read_pending s) (t_read_full s) (t_lost_exc s) (t_read_size s) (t_wbs s) (t_high s) (t_low s) (t_pending s) (t_queue s) (t_uv_reading s) (t_in_alloc s) (f (t_uv_closing s)) (t_fin s) (t_wire s) (t_running s) (t_loop_closed s) (t_accepted s) (t_forced s) (t_misused s) (t_tick s) (t_log s).
Definition upd_fin (f : (option data) → (option data)) (s : stream) : stream :=
  Stream (t_reading s) (t_closing s) (t_conn_lost s) (t_eof s) (t_paused s) (t_open s) (t_flush_queued s) (t_close_requested s) (t_allocating s) (t_read_pending s) (t_read_full s) (t_lost_exc s) (t_read_size s) (t_wbs s) (t_high s) (t_low s) (t_pending s) (t_queue s) (t_uv_reading s) (t_in_alloc s) (t_uv_closing s) (f (t_fin s)) (t_wire s) (t_running s) (t_loop_closed s) (t_accepted s) (t_forced s) (t_misused s) (t_tick s) (t_log s).
Definition upd_wire (f : data → data) (s : stream) : stream :=
  Stream (t_reading s) (t_closing s) (t_conn_lost s) (t_eof s) (t_paused s) (t_open s) (t_flush_queued s) (t_close_requested s) (t_allocating s) (t_read_pending s) (t_read_full s) (t_lost_exc s) (t_read_size s) (t_wbs s) (t_high s) (t_low s) (t_pending s) (t_queue s) (t_uv_reading s) (t_in_alloc s) (t_uv_closing s) (t_fin s) (f (t_wire s)) (t_running s) (t_loop_closed s) (t_accepted s) (t_forced s) (t_misused s) (t_tick s) (t_log s).
Definition upd_running (f : bool → bool) (s : stream) : stream :=
  Stream (t_reading s) (t_closing s) (t_conn_lost s) (t_eof s) (t_paused s) (t_open s) (t_flush_queued s) (t_close_requested s) (t_allocating s) (t_read_pending s) (t_read_full s) (t_lost_exc s) (t_read_size s) (t_wbs s) (t_high s) (t_low s) (t_pending s) (t_queue s) (t_uv_reading s) (t_in_alloc s) (t_uv_closing s) (t_fin s) (t_wire s) (f (t_running s)) (t_loop_closed s) (t_accepted s) (t_forced s) (t_misused s) (t_tick s) (t_log s).
Definition upd_loop_closed (f : bool → bool) (s : stream) : stream :=
  Stream (t_reading s) (t_closing s) (t_conn_lost s) (t_eof s) (t_paused s) (t_open s) (t_flush_queued s) (t_close_requested s) (t_allocating s) (t_read_pending s) (t_read_full s) (t_lost_exc s) (t_read_size s) (t_wbs s) (t_high s) (t_low s) (t_pending s) (t_queue s) (t_uv_reading s) (t_in_alloc s) (t_uv_closing s) (t_fin s) (t_wire s) (t_running s) (f (t_loop_closed s)) (t_accepted s) (t_forced s) (t_misused s) (t_tick s) (t_log s).
Definition upd_accepted (f : data → data) (s : stream) : stream :=
  Stream (t_reading s) (t_closing s) (t_conn_lost s) (t_eof s) (t_paused s) (t_open s) (t_flush_queued s) (t_close_requested s) (t_allocating s) (t_read_pending s) (t_read_full s) (t_lost_exc s) (t_read_size s) (t_wbs s) (t_high s) (t_low s) (t_pending s) (t_queue s) (t_uv_reading s) (t_in_alloc s) (t_uv_closing s) (t_fin s) (t_wire s) (t_running s) (t_loop_closed s) (f (t_accepted s)) (t_forced s) (t_misused s) (t_tick s) (t_log s).
Definition upd_forced (f : bool → bool) (s : stream) : stream :=
  Stream (t_reading s) (t_closing s) (t_conn_lost s) (t_eof s) (t_paused s) (t_open s) (t_flush_queued s) (t_close_requested s) (t_allocating s) (t_read_pending s) (t_read_full s) (t_lost_exc s) (t_read_size s) (t_wbs s) (t_high s) (t_low s) (t_pending s) (t_queue s) (t_uv_reading s) (t_in_alloc s) (t_uv_closing s) (t_fin s) (t_wire s) (t_running s) (t_loop_closed s) (t_accepted s) (f (t_forced s)) (t_misused s) (t_tick s) (t_log s).
Definition upd_misused (f : bool → bool) (s : stream) : stream :=
  Stream (t_reading s) (t_closing s) (t_conn_lost s) (t_eof s) (t_paused s) (t_open s) (t_flush_queued s) (t_close_requested s) (t_allocating s) (t_read_pending s) (t_read_full s) (t_lost_exc s) (t_read_size s) (t_wbs s) (t_high s) (t_low s) (t_pending s) (t_queue s) (t_uv_reading s) (t_in_alloc s) (t_uv_closing s) (t_fin s) (t_wire s) (t_running s) (t_loop_closed s) (t_accepted s) (t_forced s) (f (t_misused s)) (t_tick s) (t_log s).
Definition upd_tick (f : nat → nat) (s : stream) : stream :=
  Stream (t_reading s) (t_closing s) (t_conn_lost s) (t_eof s) (t_paused s) (t_open s) (t_flush_queued s) (t_close_requested s) (t_allocating s) (t_read_pending s) (t_read_full s) (t_lost_exc s) (t_read_size s) (t_wbs s) (t_high s) (t_low s) (t_pending s) (t_queue s) (t_uv_reading s) (t_in_alloc s) (t_uv_closing s) (t_fin s) (t_wire s) (t_running s) (t_loop_closed s) (t_accepted s) (t_forced s) (t_misused s) (f (t_tick s)) (t_log s).
Definition upd_log (f : (list event) → (list event)) (s : stream) : stream :=
  Stream (t_reading s) (t_closing s) (t_conn_lost s) (t_eof s) (t_paused s) (t_open s) (t_flush_queued s) (t_close_requested s) (t_allocating s) (t_read_pending s) (t_read_full s) (t_lost_exc s) (t_read_size s) (t_wbs s) (t_high s) (t_low s) (t_pending s) (t_queue s) (t_uv_reading s) (t_in_alloc s) (t_uv_closing s) (t_fin s) (t_wire s) (t_running s) (t_loop_closed s) (t_accepted s) (t_forced s) (t_misused s) (t_tick s) (f (t_log s)).

(** A transport that has just been made: [_start_reading] is still to come. *)
Definition default_high_water : nat := Z.to_nat (64 * 1024).
Definition read_size_min : Z := 16 * 1024.
Definition read_size_max : Z := 256 * 1024.
Definition copy_threshold : Z := 128 * 1024.
Definition pending_max : nat := 4.
Definition fresh_stream (high low : nat) (running : bool) : stream :=
  Stream false false false false false true false false false false false None read_size_min 0 high low [] []
    false false false None [] running false [] false false 0 [].

(** The marks [setWriteBufferLimits] reads from its arguments: a mark that is left out follows
    from the other. *)
Definition max_isize : Z := 2 ^ 63 - 1.
Definition negative (mark : option Z) : bool := match mark with Some n => n <? 0 | None => false end.
Definition parse_limits (high low : option Z) : res (nat * nat) :=
  if negative high then Raise (mk ValueError "high water mark must be non-negative") else
  if negative low then Raise (mk ValueError "low water mark must be non-negative") else
  let high_water := match high with Some h => h | None => Z.of_nat default_high_water end in
  let low_water := match low with Some l => l | None => high_water / 4 end in
  match high, low with
  | None, Some l => if max_isize / 4 <? l then Raise (mk OverflowError "high water mark is too large") else Ok (Z.to_nat (l * 4), Z.to_nat l)
  | _, _ =>
      if high_water <? low_water then Raise (mk ValueError "high water mark must be >= low water mark")
      else Ok (Z.to_nat high_water, Z.to_nat low_water)
  end.

(** The environment: the kind of protocol and of transport, libuv's answers, the allocator,
    and the program.  [python] says what Python code called back does to the transport and how
    it ends: with a truth value - [eof_received]'s answer, or whether [get_buffer] gave a
    buffer - or an exception. *)
Class TransportEnv := {
  buffered : bool;
  write_pipe : bool;
  uv_try_write : nat → list data → tried;
  uv_write : nat → option exn;
  uv_write_now : nat → nat;
  uv_read_start : nat → option exn;
  allocates : nat → bool;
  python : callback → nat → list sop * res bool }.

(** The bytes of outstanding requests that are not sent yet. *)
Definition unsent (q : list (nat * data)) : data := concat (snd <$> q).
(** libuv sends [k] bytes of its queue, in order; a request that is sent stays in the queue
    until its callback is made. *)
Fixpoint send (k : nat) (q : list (nat * data)) : list (nat * data) :=
  match q with
  | [] => []
  | (n, d) :: q' => (n, drop k d) :: send (k - length d) q'
  end.
Definition progress (k : nat) (s : stream) : stream :=
  if t_uv_closing s then s
  else upd_queue (send k) (upd_wire (λ w, w ++ take k (unsent (t_queue s))) s).

(** [bufferedBytes]. *)
Definition pending_size (s : stream) : nat := length (concat (t_pending s)).
Definition bufferedBytes (s : stream) : nat :=
  ((if decide (t_wbs s = 0) then 0 else length (unsent (t_queue s))) + pending_size s)%nat.

(** The vector [bufs] after [remaining] bytes of it were written. *)
Fixpoint advance (remaining : nat) (bufs : list data) : list data :=
  match bufs with
  | [] => []
  | b :: bufs' => if Nat.leb (length b) remaining then advance (remaining - length b) bufs' else drop remaining b :: bufs'
  end.

Section stream.
Context `{Env : TransportEnv}.

Definition ask : M stream nat := t <- gets t_tick ;; modify (upd_tick S) ;; ret t.
Definition log (e : event) : M stream unit := modify (upd_log (λ l, l ++ [e])).
Definition alloc : M stream bool := t <- ask ;; ret (allocates t).
Definition no_memory : exn := mk MemoryError "".
(** History: bytes accepted, unless they were accounted for when they entered the batch. *)
Definition account (fresh : bool) (d : data) : M stream unit := when_ fresh (modify (upd_accepted (λ a, a ++ d))).

(** libuv's handle. *)
Definition touch : stream → stream := λ s, upd_misused (λ b, b || t_in_alloc s) s.
Definition uv_read_stop : M stream unit := modify touch ;; modify (upd_uv_reading (λ _, false)).
Definition closeExternalHandle : M stream unit :=
  c <- gets t_uv_closing ;;
  if (c : bool) then ret tt
  else modify touch ;; modify (upd_uv_closing (λ _, true)) ;; modify (upd_uv_reading (λ _, false)).
(** An already closing or half-closed stream refuses. *)
Definition uv_shutdown : M stream unit :=
  modify (λ s, if t_uv_closing s || bool_decide (is_Some (t_fin s)) then s else upd_fin (λ _, Some (t_wire s)) s).

(** Python code runs at one of the levels of [ls]: what it calls back runs at the ones below.
    At the last level it does nothing to the transport. *)
Definition runner := list sop → M stream unit.
Definition call (ls : list runner) (c : callback) : M stream (res bool) :=
  log (EvCall c) ;; t <- ask ;;
  let '(ops, r) := python c t in
  match ls with run :: _ => run ops | [] => ret tt end ;; ret r.
Definition reportError (ls : list runner) (e : exn) : M stream unit := call ls (CHandler e) ;; ret tt.
Definition callProtocol (ls : list runner) (c : callback) : M stream unit :=
  r <- call ls c ;; match r with Ok _ => ret tt | Raise e => reportError ls e end.

(** ** Teardown *)
Definition discardPending : M stream unit := modify (upd_pending (λ _, [])).
Definition stopReading : M stream unit :=
  r <- gets t_reading ;; when_ r (uv_read_stop ;; modify (upd_reading (λ _, false))).
Definition shutdownAndClose : M stream unit :=
  o <- gets t_open ;;
  if negb o then ret tt else
  modify (upd_open (λ _, false)) ;; stopReading ;; closeExternalHandle.
Definition forceClose (e : option exn) : M stream unit :=
  modify (upd_close_requested (λ _, true)) ;; discardPending ;;
  match e with Some _ => modify (upd_lost_exc (λ _, e)) | None => ret tt end ;;
  modify (upd_forced (λ _, true)) ;;
  modify (upd_closing (λ _, true)) ;; modify (upd_wbs (λ _, 0%nat)) ;;
  a <- gets t_allocating ;;
  if (a : bool) then modify (upd_read_pending (λ _, true)) else shutdownAndClose.
Definition shutdownWrite : M stream unit :=
  ok <- alloc ;; if negb ok then forceClose None else uv_shutdown.

(** ** Flow control *)
Definition maybePauseProtocol (ls : list runner) : M stream unit :=
  s <- gets id ;;
  if Nat.leb (bufferedBytes s) (t_high s) || t_paused s then ret tt
  else modify (upd_paused (λ _, true)) ;; callProtocol ls CPause.
Definition maybeResumeProtocol (ls : list runner) : M stream unit :=
  s <- gets id ;;
  if (t_closing s || t_conn_lost s) || negb (t_paused s) || Nat.ltb (t_low s) (bufferedBytes s) then ret tt
  else modify (upd_paused (λ _, false)) ;; callProtocol ls CResume.

(** ** Writing *)
Definition acceptsWrite : M stream bool :=
  s <- gets id ;;
  if t_eof s then raise (mk RuntimeError "Cannot write after write_eof()")
  else ret (negb (t_conn_lost s || t_closing s)).

Definition queueWrite (ls : list runner) (fresh : bool) (bufs : list data) : M stream unit :=
  let d := concat bufs in
  if decide (length d = 0%nat) then ret tt else
  ok <- alloc ;;
  if negb ok then raise no_memory else
  t <- ask ;;
  match uv_write t with
  | Some e => raise e
  | None =>
      modify (upd_queue (λ q, q ++ [(length d, d)])) ;; account fresh d ;;
      t' <- ask ;; modify (progress (uv_write_now t')) ;;
      modify (upd_wbs (λ n, n + length d)%nat) ;; maybePauseProtocol ls
  end.
Definition writeBufs (ls : list runner) (fresh : bool) (bufs : list data) : M stream unit :=
  ok <- acceptsWrite ;;
  if negb ok then ret tt else
  n <- gets t_wbs ;;
  if decide (n = 0%nat) then
    t <- ask ;;
    match uv_try_write t bufs with
    | TryWrote (S k) =>
        let d := take (S k) (concat bufs) in
        modify (upd_wire (λ w, w ++ d)) ;; account fresh d ;;
        match advance (S k) bufs with
        | [] => ret tt
        | rest => queueWrite ls fresh rest
        end
    | TryWrote O | TryAgain => queueWrite ls fresh bufs
    | TryFailed e => forceClose (Some e)
    end
  else queueWrite ls fresh bufs.

Definition flushPending (ls : list runner) : M stream unit :=
  p <- gets t_pending ;;
  match p with
  | [] => ret tt
  | _ =>
      discardPending ;;
      catch_else (writeBufs ls false p) (λ e, forceClose (Some e)) (λ _, maybeResumeProtocol ls)
  end.

(** [scheduleFlush] of zig/loop.zig. *)
Definition scheduleFlush : M stream unit :=
  c <- gets t_loop_closed ;;
  if (c : bool) then discardPending else modify (upd_flush_queued (λ _, true)).

(** The loop of [appendPending]: whether there is room, and the write may go on.  A flush whose
    callbacks do nothing leaves the batch empty. *)
Fixpoint make_room (ls : list runner) : M stream bool :=
  p <- gets t_pending ;;
  if decide (length p ≠ pending_max) then ret true else
  flushPending ls ;;
  s <- gets id ;;
  if t_conn_lost s || t_closing s || t_eof s then ret false
  else match ls with [] => ret true | _ :: ls' => make_room ls' end.
Fixpoint appendPending (ls : list runner) (bufs : list data) : M stream unit :=
  match bufs with
  | [] => scheduleFlush
  | b :: bufs' =>
      ok <- make_room ls ;;
      if (ok : bool) then
        modify (upd_pending (λ p, p ++ [b])) ;; account true b ;; appendPending ls bufs'
      else ret tt
  end.

Definition submitWrite (ls : list runner) (bufs : list data) : M stream unit :=
  p <- gets t_pending ;;
  if decide (p = [] ∧ pending_max < length bufs)%nat then writeBufs ls true bufs ;; maybeResumeProtocol ls else
  ok <- acceptsWrite ;;
  if negb ok then ret tt else
  appendPending ls bufs ;;
  r <- gets t_running ;; when_ (negb r) (flushPending ls).

(** [acquireWriteView]: for anything but bytes this is Python code. *)
Definition acquire (ls : list runner) : M stream unit := r <- call ls CAcquire ;; match r with Ok _ => ret tt | Raise e => raise e end.
Definition write (ls : list runner) (d : data) : M stream unit :=
  acquire ls ;;
  e <- gets t_eof ;;
  if (e : bool) then raise (mk RuntimeError "Cannot call write() after write_eof()") else
  if decide (d = []) then ret tt else submitWrite ls [d].
Definition writelines (ls : list runner) (ds : list data) : M stream unit :=
  e <- gets t_eof ;;
  if (e : bool) then raise (mk RuntimeError "Cannot call writelines() after write_eof()") else
  acquire ls ;; if decide (ds = []) then ret tt else submitWrite ls ds.
Definition writeEof (ls : list runner) : M stream unit :=
  s <- gets id ;;
  if t_conn_lost s || t_eof s || t_closing s then ret tt else
  flushPending ls ;;
  modify (upd_eof (λ _, true)) ;; log (EvEof (length (t_accepted s))) ;;
  n <- gets t_wbs ;; when_ (bool_decide (n = 0%nat)) shutdownWrite.

Definition closeTransport (ls : list runner) : M stream unit :=
  modify (upd_close_requested (λ _, true)) ;;
  s <- gets id ;;
  if t_closing s then ret tt else
  flushPending ls ;;
  modify (upd_closing (λ _, true)) ;; log (EvClosing (length (t_accepted s))) ;;
  a <- gets t_allocating ;;
  if (a : bool) then modify (upd_read_pending (λ _, true)) else
  stopReading ;; n <- gets t_wbs ;; when_ (bool_decide (n = 0%nat)) shutdownAndClose.

Definition setWriteBufferLimits (ls : list runner) (high low : option Z) : M stream unit :=
  marks <- of_res (parse_limits high low) ;;
  modify (upd_high (λ _, marks.1)) ;; modify (upd_low (λ _, marks.2)) ;; maybePauseProtocol ls.

(** ** Reading *)
Definition startReading : M stream unit :=
  s <- gets id ;;
  if t_reading s || t_closing s || t_conn_lost s then ret tt else
  t <- ask ;;
  match uv_read_start t with
  | Some e => raise e
  | None => modify (upd_uv_reading (λ _, true)) ;; modify (upd_reading (λ _, true))
  end.
Definition startReadingMethod : M stream unit := catch startReading (λ e, forceClose (Some e)).
Definition pauseReading : M stream unit :=
  s <- gets id ;;
  if negb (t_reading s) then ret tt else
  if t_allocating s then modify (upd_read_pending (λ _, true))
  else uv_read_stop ;; modify (upd_reading (λ _, false)).

(** An operation Python code makes, with the callbacks it leads to at the levels [ls]; what it
    raises is up to that code. *)
Definition op (ls : list runner) (o : sop) : M stream unit :=
  match o with
  | SWrite d => write ls d
  | SWritelines ds => writelines ls ds
  | SWriteEof => writeEof ls
  | SClose => closeTransport ls
  | SAbort => forceClose None
  | SForceClose e => forceClose (Some e)
  | SLimits high low => setWriteBufferLimits ls high low
  | SPauseReading => pauseReading
  | SResumeReading => startReading
  | SStartReading => startReadingMethod
  end.
Definition run_sops (ls : list runner) : runner := λ ops, for_each ops (λ o, capture (op ls o) ;; ret tt).
Fixpoint levels (n : nat) : list runner :=
  match n with O => [] | S n' => let ls := levels n' in run_sops ls :: ls end.

(** [callInContext]. *)
Definition callInContext (ls : list runner) (c : callback) : M stream unit :=
  r <- call ls c ;;
  match r with
  | Ok _ => ret tt
  | Raise e =>
      if isinstance e SystemExit || isinstance e KeyboardInterrupt then log (EvFatal e) ;; forceClose None
      else reportError ls e ;; forceClose (Some e)
  end.
Definition handleEof (ls : list runner) : M stream unit :=
  uv_read_stop ;; modify (upd_reading (λ _, false)) ;;
  r <- call ls CEof ;;
  match r with
  | Ok keep => if (keep : bool) then ret tt else closeTransport ls
  | Raise e => reportError ls e ;; closeTransport ls
  end.
Definition adjustReadSize (nread : Z) : M stream unit :=
  modify (λ s,
    if t_read_size s <=? nread then upd_read_full (λ _, true) (upd_read_size (λ n, Z.min (n * 2) read_size_max) s)
    else if t_read_full s then upd_read_full (λ _, false) s
    else if nread * 4 <=? t_read_size s then upd_read_size (λ n, Z.max (n / 2) read_size_min) s
    else s).

(** Whether libuv gets a buffer to read into. *)
Definition onAlloc (ls : list runner) : M stream bool :=
  if buffered then
    modify (upd_allocating (λ _, true)) ;;
    r <- call ls CGetBuffer ;;
    match r with
    | Ok got =>
        if (got : bool) then p <- gets t_read_pending ;; ret (negb p)
        else reportError ls (mk TypeError "a bytes-like object is required") ;; ret false
    | Raise e => reportError ls e ;; ret false
    end
  else
    n <- gets t_read_size ;;
    scratch <- (if n <=? copy_threshold then alloc else ret false) ;;
    if (scratch : bool) then ret true else alloc.
Definition EPIPE : exn := oserror 32 "broken pipe".
Definition ENOBUFS : exn := oserror 105 "no buffer space available".
Definition onRead (ls : list runner) (o : outcome) : M stream unit :=
  s <- gets id ;;
  modify (upd_allocating (λ _, false)) ;;
  if t_allocating s && t_read_pending s then
    modify (upd_read_pending (λ _, false)) ;; stopReading ;;
    s' <- gets id ;; when_ (t_closing s' && bool_decide (t_wbs s' = 0%nat)) shutdownAndClose
  else if write_pipe then
    match o with
    | RNothing => ret tt
    | _ =>
        n <- gets bufferedBytes ;;
        if decide (n = 0%nat) then closeTransport ls else forceClose (Some EPIPE)
    end
  else
    match o with
    | RData d =>
        when_ (negb buffered) (adjustReadSize (Z.of_nat (length d))) ;;
        ok <- alloc ;;
        if negb ok then forceClose (Some no_memory)
        else callInContext ls (if buffered then CUpdated (length d) else CData d)
    | RNothing => ret tt
    | REof => handleEof ls
    | RFailed e => forceClose (Some e)
    end.
(** A readable stream: libuv asks for a buffer, reads into it and reports. *)
Definition read_event (ls : list runner) (o : outcome) : M stream unit :=
  modify (upd_in_alloc (λ _, true)) ;;
  got <- onAlloc ls ;;
  modify (upd_in_alloc (λ _, false)) ;;
  onRead ls (if (got : bool) then o else RFailed ENOBUFS).

(** ** libuv's other callbacks *)
Definition onWritten (ls : list runner) (status : option exn) : M stream unit :=
  q <- gets t_queue ;;
  match q with
  | [] => ret tt
  | (size, _) :: q' =>
      modify (upd_queue (λ _, q')) ;;
      modify (upd_wbs (λ n, n - Nat.min size n)%nat) ;;
      match status with
      | Some e => o <- gets t_open ;; when_ o (forceClose (Some e))
      | None =>
          maybeResumeProtocol ls ;;
          s <- gets id ;;
          if decide (t_wbs s = 0%nat) then
            if t_closing s then shutdownAndClose else when_ (t_eof s) shutdownWrite
          else ret tt
      end
  end.
(** [scheduleCall]: nothing is scheduled on a closed loop. *)
Definition onClosed : M stream unit :=
  modify (upd_conn_lost (λ _, true)) ;;
  s <- gets id ;; when_ (negb (t_loop_closed s)) (log (EvLost (t_lost_exc s))).
(** [drainFlushList] of zig/loop.zig, for this transport. *)
Definition onFlush (ls : list runner) : M stream unit :=
  modify (upd_flush_queued (λ _, false)) ;; flushPending ls.
Definition closeFromLoop : M stream unit :=
  modify (upd_forced (λ _, true)) ;;
  modify (upd_closing (λ _, true)) ;; modify (upd_open (λ _, false)) ;; stopReading ;; closeExternalHandle.
(** [dropFlushList] and [walkClose] of zig/loop.zig, for this transport. *)
Definition loop_close : M stream unit :=
  modify (upd_loop_closed (λ _, true)) ;;
  modify (upd_flush_queued (λ _, false)) ;; discardPending ;;
  c <- gets t_uv_closing ;; if (c : bool) then ret tt else closeFromLoop.

(** ** Steps

    Python code calls the transport; the flusher runs; the socket takes bytes of the queue;
    the first outstanding request is done, sent or failed; the stream is readable; the handle
    is closed; the loop starts or stops running; the loop closes. *)
Inductive label :=
  | LOp (o : sop) | LFlush | LSent (k : nat) | LWritten (status : option exn) | LRead (o : outcome) | LClosed
  | LRunning (b : bool) | LLoopClose.
Definition enabled (l : label) (s : stream) : bool :=
  match l with
  | LOp _ => true
  | LFlush => t_flush_queued s
  | LSent _ => negb (t_uv_closing s)
  | LWritten None => match t_queue s with (_, []) :: _ => true | _ => false end
  | LWritten (Some _) => match t_queue s with _ :: _ => true | [] => false end
  | LRead o => t_uv_reading s && negb (t_uv_closing s) && match o with RData [] => false | _ => true end
  | LClosed => t_uv_closing s && negb (t_conn_lost s) && match t_queue s with [] => true | _ => false end
  | LRunning b => negb (t_loop_closed s)
  | LLoopClose => negb (t_running s) && negb (t_loop_closed s)
  end.
Definition act (n : nat) (l : label) : M stream unit :=
  match l with
  | LOp o => op (levels n) o
  | LFlush => onFlush (levels n)
  | LSent k => modify (progress k)
  | LWritten st => onWritten (levels n) st
  | LRead o => read_event (levels n) o
  | LClosed => onClosed
  | LRunning b => modify (upd_running (λ _, b))
  | LLoopClose => loop_close
  end.
Inductive step (s : stream) : stream → Prop :=
  | step_act n l : enabled l s = true → step s (act n l s).2.
Inductive reachable : stream → Prop :=
  | reach_start high low run : reachable (fresh_stream high low run)
  | reach_step s s' : reachable s → step s s' → reachable s'.
End stream.
