(* ===== verification/StreamInv.v ===== *)
(** * What the stream transport keeps to (zig/transport.zig)

    The invariant of the transport of Stream, and that every operation, every libuv callback and
    whatever Python code does inside them keeps it. *)
From S2P Require Import Prelude Stream.

(** ** The queue and the vectors *)
Implicit Types (q : list (nat * data)) (bufs : list data) (s : stream) (e : exn).
Lemma unsent_app q q' : unsent (q ++ q') = unsent q ++ unsent q'.
Proof. unfold unsent. by rewrite fmap_app, concat_app. Qed.
Lemma unsent_one n d : unsent [(n, d)] = d.
Proof. apply app_nil_r. Qed.
Lemma unsent_nil : unsent [] = [].
Proof. done. Qed.
Lemma unsent_send k q : unsent (send k q) = drop k (unsent q).
Proof.
  revert k. induction q as [|[n d] q IH]; intros k; [by destruct k|].
  change (drop k d ++ unsent (send (k - length d) q) = drop k (d ++ unsent q)). by rewrite IH, drop_app.
Qed.
Lemma sizes_send k q : fst <$> send k q = fst <$> q.
Proof. revert k. induction q as [|[n d] q IH]; intros k; [done|]. cbn. by rewrite IH. Qed.
Lemma send_nil k q : send k q = [] ↔ q = [].
Proof. by destruct q as [|[??]]. Qed.
Lemma concat_advance k bufs : concat (advance k bufs) = drop k (concat bufs).
Proof.
  revert k. induction bufs as [|b bufs IH]; intros k; cbn; [by rewrite drop_nil|].
  destruct (Nat.leb_spec (length b) k); rewrite drop_app; [by rewrite IH, (drop_ge b) by done|].
  cbn. by replace (k - length b)%nat with 0%nat by lia.
Qed.

(** A request holds no more than its size, and is not empty. *)
Definition sound_req (r : nat * data) : Prop := (length r.2 ≤ r.1 ∧ 0 < r.1)%nat.
Lemma sound_send k q : Forall sound_req q → Forall sound_req (send k q).
Proof.
  intros H. revert k. induction H as [|[n d] q [H1 H2] _ IH]; intros k; [constructor|].
  constructor; [|done]. split; [cbn in *; rewrite length_drop; lia|done].
Qed.
Lemma sizes_nil q : Forall sound_req q → sum_list (fst <$> q) = 0%nat → q = [].
Proof. intros [|[n d] q' [_ H]]; [done|]. cbn in *. lia. Qed.

#[local] Arguments unsent : simpl never.
#[local] Arguments send : simpl never.
#[local] Arguments take : simpl never.

(** ** Reading the log *)
Definition lost_of (x : event) : option (option exn) := match x with EvLost e => Some e | _ => None end.
Definition eof_of (x : event) : option nat := match x with EvEof k => Some k | _ => None end.
Definition closing_of (x : event) : option nat := match x with EvClosing k => Some k | _ => None end.
(** Whether the protocol is paused, from the calls made to it; [None] when a call came out of
    turn. *)
Definition turn (p : option bool) (x : event) : option bool :=
  match x, p with
  | EvCall CPause, Some false => Some true
  | EvCall CResume, Some true => Some false
  | EvCall CPause, _ | EvCall CResume, _ => None
  | _, _ => p
  end.
Definition phase (l : list event) : option bool := foldl turn (Some false) l.
Lemma phase_snoc l x : phase (l ++ [x]) = turn (phase l) x.
Proof. unfold phase. by rewrite foldl_app. Qed.

(** What has been handed to libuv. *)
Definition moved s : data := t_wire s ++ unsent (t_queue s).

(** ** The invariant *)
(** [hand] is what a write holds between the batch and libuv. *)
Record core (hand : data) (s : stream) : Prop := {
  c_order : t_wire s ++ (if t_uv_closing s then [] else unsent (t_queue s)) `prefix_of` t_accepted s;
  c_all : t_forced s = false → ∃ tail,
    t_accepted s = moved s ++ hand ++ concat (t_pending s) ++ tail ∧
    (tail ≠ [] → t_closing s = true ∧ t_pending s = []);
  c_reqs : Forall sound_req (t_queue s);
  c_wbs : t_forced s = false → t_wbs s = sum_list (fst <$> t_queue s);
  c_open : t_open s = negb (t_uv_closing s);
  c_forced : t_forced s = true → t_closing s = true;
  c_uv : t_uv_closing s = true → t_closing s = true ∧ t_uv_reading s = false;
  c_done : t_uv_closing s = true → t_forced s = false → t_queue s = [];
  c_lost : t_conn_lost s = true → t_uv_closing s = true;
  c_once : (length (omap lost_of (t_log s)) ≤ if t_conn_lost s then 1 else 0)%nat;
  c_marks : ∀ k, k ∈ omap eof_of (t_log s) ∨ k ∈ omap closing_of (t_log s) → t_forced s = false →
    (k ≤ length (moved s))%nat;
  c_eof : t_eof s = true → omap eof_of (t_log s) ≠ [];
  c_closed : t_closing s = true → t_forced s = false → omap closing_of (t_log s) ≠ [];
  c_fin : ∀ w, t_fin s = Some w → t_eof s = true ∧ w = t_wire s ∧ (t_forced s = false → t_queue s = []);
  c_batch : (length (t_pending s) ≤ pending_max)%nat;
  c_size : read_size_min ≤ t_read_size s ≤ read_size_max;
  c_reading : t_reading s = t_uv_reading s;
  c_alloc : t_in_alloc s = t_allocating s;
  c_pending : t_read_pending s = true → t_allocating s = true;
  c_misused : t_misused s = false;
  c_loop : t_loop_closed s = true → t_closing s = true;
  c_phase : phase (t_log s) = Some (t_paused s) }.
(** A paused protocol has bytes to wait for; a batch has a flush coming. *)
Definition waits s : Prop := t_paused s = true → t_closing s = false → t_queue s ≠ [] ∨ t_pending s ≠ [].
Definition flushes s : Prop := t_pending s ≠ [] → t_flush_queued s = true.
(** A transport that is closing stops reading, and is closed once it has nothing to send - or
    as soon as libuv is out of its allocation callback. *)
Definition deferred s : Prop := t_allocating s = true ∧ t_read_pending s = true.
Record closes s : Prop := {
  c_stopped : t_closing s = true → t_reading s = false ∨ deferred s;
  c_closing : t_closing s = true → t_wbs s = 0%nat → t_uv_closing s = true ∨ deferred s;
  c_given_up : t_forced s = true → t_uv_closing s = true ∨ (deferred s ∧ t_wbs s = 0%nat) }.
Definition inv s : Prop := (core [] s ∧ closes s) ∧ waits s ∧ flushes s.

(** A half-closed transport with nothing queued has shut its side down. *)
Definition fin_ok s : Prop := t_eof s = true → t_wbs s = 0%nat → t_closing s = false → is_Some (t_fin s).

(** What is never undone. *)
Record grew s s' : Prop := {
  g_forced : t_forced s = true → t_forced s' = true;
  g_closing : t_closing s = true → t_closing s' = true;
  g_eof : t_eof s = true → t_eof s' = true;
  g_uv : t_uv_closing s = true → t_uv_closing s' = true;
  g_moved : t_forced s' = false → (length (moved s) ≤ length (moved s'))%nat;
  g_accepted : t_accepted s `prefix_of` t_accepted s';
  g_wire : t_wire s `prefix_of` t_wire s';
  g_same : (t_in_alloc s, t_allocating s, t_conn_lost s, t_loop_closed s, t_running s) =
           (t_in_alloc s', t_allocating s', t_conn_lost s', t_loop_closed s', t_running s');
  g_wbs : t_eof s = true → (t_wbs s' ≤ t_wbs s)%nat }.
#[export] Instance grew_preorder : PreOrder grew.
Proof.
  split; [by intros s; split|]. intros s1 s2 s3 A B. split.
  - intros H. by apply B, A.
  - intros H. by apply B, A.
  - intros H. by apply B, A.
  - intros H. by apply B, A.
  - intros F. pose proof (g_moved _ _ B F). destruct (t_forced s2) eqn:E; [by rewrite (g_forced _ _ B E) in F|].
    pose proof (g_moved _ _ A E). lia.
  - by etrans; [apply A|apply B].
  - by etrans; [apply A|apply B].
  - by etrans; [apply A|apply B].
  - intros E. pose proof (g_wbs _ _ A E). pose proof (g_wbs _ _ B (g_eof _ _ A E)). lia.
Qed.
Definition grows s s' : Prop := grew s s' ∧ (fin_ok s → fin_ok s').
#[export] Instance grows_preorder : PreOrder grows.
Proof. split; [by intros s; split|]. intros s1 s2 s3 [H1 F1] [H2 F2]. split; [by etrans|auto]. Qed.
Definition stays s0 s : Prop := inv s ∧ grows s0 s.

(** A change of the state that the log records, or that the invariant does not speak of. *)
Ltac same_state :=
  lazymatch goal with |- grows _ _ => split; [split|] | |- _ => split end; cbn; (done || auto).

Section keeps.
Context `{Env : TransportEnv}.
Implicit Types (ls : list runner).

(** Python code at every level of [ls] keeps the invariant, and the transport's callers never
    see what it raises. *)
Definition good_runner (r : runner) : Prop :=
  ∀ ops s0 s, stays s0 s → wp (r ops) (λ _, stays s0) (λ _ _, False) s.
Definition good ls : Prop := Forall good_runner ls.

(** A statement that keeps the invariant, whatever its outcome; one that also never raises. *)
Definition keeps {A} (m : M stream A) : Prop := ∀ s0 s, stays s0 s → wp m (λ _, stays s0) (λ _, stays s0) s.
Definition holds {A} (m : M stream A) : Prop := ∀ s0 s, stays s0 s → wp m (λ _, stays s0) (λ _ _, False) s.

Lemma holds_keeps {A} (m : M stream A) : holds m → keeps m.
Proof. intros H s0 s Hs. eapply wp_mono; [by apply H|done|by intros]. Qed.

(** Callbacks other than those of flow control, and the environment's clock. *)
Lemma inv_tick s f : inv s → inv (upd_tick f s).
Proof. intros (([] & []) & ? & ?). split_and!; [..|done|done]; by same_state. Qed.
Lemma grows_tick s0 s f : grows s0 s → grows s0 (upd_tick f s).
Proof. intros H. etrans; [done|]. by same_state. Qed.
Lemma stays_ask s0 s Q E : stays s0 s → (∀ t s', stays s0 s' → Q t s') → wp ask Q E s.
Proof. intros [] HQ. unfold ask. do 4 wp_step. apply HQ. split; [by apply inv_tick|by apply grows_tick]. Qed.

(** ** Calling Python *)
Definition quiet (c : callback) : Prop := match c with CPause | CResume => False | _ => True end.
Definition logged x s : stream := upd_log (λ l, l ++ [x]) s.
Lemma grows_logged s0 s x : grows s0 s → grows s0 (logged x s).
Proof. intros H. etrans; [done|]. by same_state. Qed.
(** A call is in turn when the protocol's state was set before it. *)
Lemma core_call c s hand : core hand s → quiet c → core hand (logged (EvCall c) s).
Proof.
  intros [] Hc. split; try done; cbn; rewrite ?phase_snoc, ?omap_app; cbn; rewrite ?app_nil_r; try done.
  destruct c; try done; by rewrite c_phase0.
Qed.
Lemma inv_called c s : inv s → quiet c → inv (logged (EvCall c) s).
Proof. intros ((H & []) & ? & ?) Hc. split_and!; [by apply core_call| |done..]. by same_state. Qed.

Lemma wp_callback ls c s0 s Q : good ls → inv (logged (EvCall c) s) → grows s0 s →
  (∀ r s', stays s0 s' → Q r s') → wp (call ls c) Q (λ _ _, False) s.
Proof.
  intros Hls Hi Hg HQ. unfold call, log. do 2 wp_step. apply wp_bind, (stays_ask s0); [by split; [|apply grows_logged]|].
  intros t s1 H1. destruct (python c t) as [ops r]. wp_step.
  destruct Hls as [|run ls' Hr _]; [apply wp_ret; wp_step; by apply HQ|].
  eapply wp_mono; [by apply Hr|intros [] s2 H2; wp_step; by apply HQ|done].
Qed.
Lemma holds_call ls c : good ls → quiet c → holds (call ls c).
Proof. intros Hls Hc s0 s [Hi Hg]. apply (wp_callback _ _ s0); [done|by apply inv_called|done|done]. Qed.
Lemma holds_reportError ls e : good ls → holds (reportError ls e).
Proof.
  intros Hls s0 s Hs. apply wp_bind. eapply wp_mono; [by apply (holds_call ls (CHandler e) Hls I)|intros r s1 H1; by wp_step|done].
Qed.
Lemma wp_callProtocol ls c s0 s : good ls → inv (logged (EvCall c) s) → grows s0 s →
  wp (callProtocol ls c) (λ _, stays s0) (λ _ _, False) s.
Proof.
  intros Hls Hi Hg. unfold callProtocol. apply wp_bind, (wp_callback _ _ s0); [done..|]. intros r s1 H1.
  destruct r; [by wp_step|by apply holds_reportError].
Qed.

(** ** Flow control *)
Lemma buffered_none s : t_queue s = [] → t_pending s = [] → bufferedBytes s = 0%nat.
Proof. intros Hq Hp. unfold bufferedBytes, pending_size. rewrite Hq, Hp. by case_decide. Qed.
Lemma buffered_some s : bufferedBytes s ≠ 0%nat → t_queue s ≠ [] ∨ t_pending s ≠ [].
Proof.
  intros H. destruct (decide (t_queue s = [])); [|by left]. destruct (decide (t_pending s = [])); [|by right].
  by rewrite buffered_none in H.
Qed.
Lemma holds_maybePause ls : good ls → holds (maybePauseProtocol ls).
Proof.
  intros Hls s0 s [((Hc & Hx) & Hw & Hf) Hg]. unfold maybePauseProtocol. wp_step. wp_step. cbn [id].
  destruct (Nat.leb_spec (bufferedBytes s) (t_high s)); [by wp_step|]. destruct (t_paused s) eqn:Hp; cbn [orb]; [by wp_step|].
  do 2 wp_step. assert (Hb := buffered_some s ltac:(lia)).
  apply wp_callProtocol; [done| |etrans; [done|by same_state]]. split_and!; [|by destruct Hx|by intros _ _|done].
  destruct Hc. split; try done; cbn; rewrite ?phase_snoc, ?omap_app; cbn; rewrite ?app_nil_r; try done. by rewrite c_phase0, Hp.
Qed.
(** Resuming makes up for a paused protocol with nothing to wait for. *)
Lemma wp_maybeResume ls s0 s : good ls → core [] s → closes s → flushes s → grows s0 s →
  wp (maybeResumeProtocol ls) (λ _, stays s0) (λ _ _, False) s.
Proof.
  intros Hls Hc Hx Hf Hg. unfold maybeResumeProtocol. wp_step. wp_step. cbn [id].
  assert (Hok : (t_paused s = true → t_closing s = false → t_queue s ≠ [] ∨ t_pending s ≠ []) → stays s0 s) by (intros; by split; [split_and!|]).
  destruct (t_closing s) eqn:Hcl; cbn [orb]; [wp_step; by apply Hok|].
  destruct (t_conn_lost s) eqn:Hl; [by rewrite (proj1 (c_uv _ _ Hc (c_lost _ _ Hc Hl))) in Hcl|]. cbn [orb].
  destruct (t_paused s) eqn:Hp; cbn [negb orb]; [|wp_step; by apply Hok].
  destruct (Nat.ltb_spec (t_low s) (bufferedBytes s)).
  { cbn [orb]. wp_step. apply Hok. intros _ _. apply buffered_some. lia. }
  do 2 wp_step. apply wp_callProtocol; [done| |etrans; [done|by same_state]]. split_and!; [|by destruct Hx|by intros ?|done].
  destruct Hc. split; try done; cbn; rewrite ?phase_snoc, ?omap_app; cbn; rewrite ?app_nil_r; try done. by rewrite c_phase0, Hp.
Qed.
Lemma holds_maybeResume ls : good ls → holds (maybeResumeProtocol ls).
Proof. intros Hls s0 s [((? & ?) & ? & ?) ?]. by apply wp_maybeResume. Qed.

(** ** Teardown *)

(** The state after [uv_close]. *)
Definition shut s : stream :=
  upd_uv_closing (λ _, true) (upd_uv_reading (λ _, false) (upd_reading (λ _, false) (upd_open (λ _, false) s))).
Lemma shutdownAndClose_eq s hand : core hand s → t_allocating s = false →
  shutdownAndClose s = (Ok tt, if t_uv_closing s then s else shut s).
Proof.
  intros Hc Ha. assert (Hi := c_alloc _ _ Hc). assert (Ho := c_open _ _ Hc). assert (Hr := c_reading _ _ Hc). rewrite Ha in Hi.
  unfold shutdownAndClose, stopReading, closeExternalHandle, uv_read_stop, shut, touch, bind, gets, modify, ret.
  destruct s. cbn in *. subst. destruct t_uv_closing; cbn; [done|]. by destruct t_uv_reading, t_misused.
Qed.
Lemma core_shut s hand : core hand s → t_closing s = true → t_forced s = true ∨ t_queue s = [] → core hand (shut s).
Proof.
  intros [] Hcl Hq. split; cbn; try done.
  - rewrite app_nil_r. etrans; [|done]. by eexists.
  - intros _ Hf. destruct Hq; [congruence|done].
Qed.
Lemma grows_shut s : t_closing s = true → grows s (shut s).
Proof. intros Hcl. split; [by split|]. intros _ _ _ ?. cbn in *. congruence. Qed.

(** Once it closes, a transport has nothing left to promise the protocol. *)
Lemma inv_closing s : core [] s → closes s → flushes s → t_closing s = true → inv s.
Proof. intros ? ? ? Hcl. split_and!; [done..| |done]. intros ? ?. congruence. Qed.
Lemma wp_shutdownAndClose s0 s : core [] s → flushes s → grows s0 s → t_closing s = true → t_allocating s = false →
  t_forced s = true ∨ t_queue s = [] → wp shutdownAndClose (λ _, stays s0) (λ _ _, False) s.
Proof.
  intros Hc Hf Hg Hcl Ha Hq. unfold wp. rewrite (shutdownAndClose_eq s []) by done. destruct (t_uv_closing s) eqn:Eu.
  - split; [|done]. apply inv_closing; try done. assert (Hr := c_reading _ _ Hc). destruct (c_uv _ _ Hc Eu) as [_ Hu].
    split; auto. intros _. left. congruence.
  - split; [|etrans; [done|by apply grows_shut]]. apply inv_closing; [by apply core_shut| |done|done]. split; cbn; auto.
Qed.

(** [forceClose] up to the closing of the handle. *)
Definition given_up (o : option exn) s : stream :=
  upd_wbs (λ _, 0%nat) (upd_closing (λ _, true) (upd_forced (λ _, true)
    (upd_lost_exc (λ x, match o with Some _ => o | None => x end) (upd_pending (λ _, []) (upd_close_requested (λ _, true) s))))).
Lemma forceClose_eq o s : forceClose o s =
  (if t_allocating s then modify (upd_read_pending (λ _, true)) else shutdownAndClose) (given_up o s).
Proof. unfold forceClose, discardPending, given_up, bind, gets, modify. destruct s, o; cbn; by destruct t_allocating. Qed.
Lemma core_given_up o s hand : core hand s → core [] (given_up o s).
Proof.
  intros []. split; cbn; try done.
  - intros Hu. split; [done|]. by apply c_uv0.
  - intros w Hw. destruct (c_fin0 w Hw) as (? & ? & ?). done.
  - lia.
Qed.
Lemma grows_given_up o s : grows s (given_up o s).
Proof. split; [by split; cbn; try lia|]. by intros _ _ _ ?. Qed.
Lemma core_read_pending s hand : core hand s → t_allocating s = true → core hand (upd_read_pending (λ _, true) s).
Proof. intros [] ?. by split. Qed.
Lemma wp_forceClose o s0 s hand : core hand s → grows s0 s → wp (forceClose o) (λ _ s', stays s0 s' ∧ t_forced s' = true) (λ _ _, False) s.
Proof.
  intros Hc Hg. unfold wp. rewrite forceClose_eq. assert (Hc' := core_given_up o s hand Hc).
  assert (Hg' : grows s0 (given_up o s)) by (etrans; [done|apply grows_given_up]).
  assert (Hs : t_closing (given_up o s) = true ∧ t_forced (given_up o s) = true ∧ t_pending (given_up o s) = [] ∧
    t_allocating (given_up o s) = t_allocating s ∧ t_wbs (given_up o s) = 0%nat) by done. revert Hc' Hg' Hs. generalize (given_up o s) as s1.
  intros s1 Hc' Hg' (Hcl & Hf & Hp & Ha & Hz). destruct (t_allocating s).
  - cbn. split; [|done]. split; [|etrans; [done|by same_state]].
    apply inv_closing; [by apply core_read_pending|by split; right|by intros []|done].
  - eapply wp_mono; [apply (wp_shutdownAndClose s1); [done|by intros []|done|done|done|by left]| |done].
    intros [] s2 [Hi2 Hg2]. split; [split; [done|by etrans]|by apply (proj1 Hg2)].
Qed.
Lemma holds_forceClose o : holds (forceClose o).
Proof. intros s0 s [((? & ?) & ? & ?) ?]. eapply wp_mono; [by eapply wp_forceClose|by intros ? ? []|done]. Qed.

(** ** What a write does to the bytes *)
Definition took (fresh : bool) (d : data) s : stream := if fresh then upd_accepted (λ a, a ++ d) s else s.
Lemma account_eq fresh d s : account fresh d s = (Ok tt, took fresh d s).
Proof. by destruct fresh. Qed.
(** What a write of [d] holds: a fresh write is not accounted for yet. *)
Definition held (fresh : bool) (d : data) : data := if fresh then [] else d.

Lemma core_open_data s hand : core hand s → t_closing s = false →
  t_forced s = false ∧ t_uv_closing s = false ∧ t_accepted s = moved s ++ hand ++ concat (t_pending s).
Proof.
  intros Hc Hcl. assert (Hf : t_forced s = false).
  { destruct (t_forced s) eqn:E; [|done]. by rewrite (c_forced _ _ Hc E) in Hcl. }
  destruct (c_all _ _ Hc Hf) as (tail & Ha & Ht). split_and!; [done| |].
  - destruct (t_uv_closing s) eqn:E; [|done]. by rewrite (proj1 (c_uv _ _ Hc E)) in Hcl.
  - destruct tail; [by rewrite app_nil_r in Ha|]. destruct (Ht ltac:(done)). congruence.
Qed.
Lemma core_fin_none s hand : core hand s → t_eof s = false → t_fin s = None.
Proof. intros Hc He. destruct (t_fin s) as [w|] eqn:E; [|done]. destruct (c_fin _ _ Hc w E). congruence. Qed.
Lemma core_tick s f hand : core hand s → core hand (upd_tick f s).
Proof. intros []. by same_state. Qed.
Lemma closes_tick s f : closes s → closes (upd_tick f s).
Proof. intros []. by same_state. Qed.
Lemma core_drop s hand : core hand s → t_closing s = true → t_pending s = [] → core [] s.
Proof.
  intros [] Hcl Hp. split; try done. intros Hf. destruct (c_all0 Hf) as (tail & Ha & _). exists (hand ++ tail).
  rewrite Hp in *. by rewrite Ha.
Qed.

(** A fresh write is in hand once it is accounted for. *)
Lemma core_account d s : core [] s → t_closing s = false → t_pending s = [] → core d (upd_accepted (λ a, a ++ d) s).
Proof.
  intros Hc Hcl Hp. destruct (core_open_data _ _ Hc Hcl) as (Hf & Hu & Ha). rewrite Hp in Ha. cbn in Ha. rewrite app_nil_r in Ha.
  destruct Hc. split; try done; cbn.
  - by apply prefix_app_r.
  - intros _. exists []. unfold moved in *. cbn. rewrite Hp, Ha. cbn. by rewrite app_nil_r.
Qed.

(** [uv_try_write]. *)
Lemma core_wrote d d' s : core (d ++ d') s → t_closing s = false → t_eof s = false → t_queue s = [] → t_pending s = [] →
  core d' (upd_wire (λ w, w ++ d) s).
Proof.
  intros Hc Hcl He Hq Hp. destruct (core_open_data _ _ Hc Hcl) as (Hf & Hu & Ha). assert (Hn := core_fin_none _ _ Hc He).
  unfold moved in Ha. rewrite Hq, Hp, unsent_nil in Ha. cbn in Ha. rewrite !app_nil_r in Ha.
  destruct Hc. split; cbn in *; unfold moved in *; cbn in *; rewrite ?Hu, ?Hq, ?Hp, ?unsent_nil in *; cbn in *; rewrite ?app_nil_r in *; try done.
  - rewrite Ha. apply prefix_app, prefix_app_r. done.
  - intros _. exists []. by rewrite Ha, app_nil_r, <-app_assoc.
  - intros k Hk _. specialize (c_marks0 k Hk Hf). rewrite length_app. lia.
  - congruence.
Qed.
Lemma core_tried fresh d d' s : core (held fresh (d ++ d')) s → t_closing s = false → t_eof s = false → t_queue s = [] →
  t_pending s = [] → core (held fresh d') (took fresh d (upd_wire (λ w, w ++ d) s)).
Proof.
  intros Hc Hcl He Hq Hp. destruct fresh; [|by apply core_wrote].
  apply (core_account d) in Hc; [|done..]. apply (core_wrote d [] (upd_accepted (λ a, a ++ d) s)); try done. by rewrite app_nil_r.
Qed.

(** [uv_write]. *)
Lemma core_progress k s hand : core hand s → t_uv_closing s = true ∨ t_fin s = None ∨ t_queue s = [] →
  core hand (progress k s) ∧ length (moved (progress k s)) = length (moved s).
Proof.
  intros Hc Hs. unfold progress. destruct (t_uv_closing s) eqn:Hu; [done|].
  assert (Hm : ∀ x : data, (t_wire s ++ take k (unsent (t_queue s))) ++ unsent (send k (t_queue s)) ++ x = t_wire s ++ unsent (t_queue s) ++ x).
  { intros x. by rewrite unsent_send, <-app_assoc, (app_assoc (take _ _)), take_drop. }
  assert (Hm0 := Hm []). rewrite !app_nil_r in Hm0.
  split; [|unfold moved; cbn; by rewrite Hm0].
  destruct Hc. split; cbn in *; unfold moved in *; cbn in *; rewrite ?Hu, ?sizes_send, ?Hm0 in *; try done.
  - by apply sound_send.
  - intros w Hw. destruct (c_fin0 w Hw) as (He & -> & Hf). destruct Hs as [|[|Hq]]; [done|congruence|].
    by rewrite Hq, unsent_nil, take_nil, app_nil_r.
Qed.
Lemma core_enqueue d s : core d s → t_closing s = false → t_eof s = false → t_pending s = [] → d ≠ [] →
  core [] (upd_wbs (λ n, n + length d)%nat (upd_queue (λ q, q ++ [(length d, d)]) s)).
Proof.
  intros Hc Hcl He Hp Hd. destruct (core_open_data _ _ Hc Hcl) as (Hf & Hu & Ha). assert (Hn := core_fin_none _ _ Hc He).
  unfold moved in Ha. rewrite Hp in Ha. cbn in Ha. rewrite !app_nil_r in Ha.
  assert (Hl : (0 < length d)%nat) by (destruct d; [done|cbn; lia]).
  destruct Hc. split; cbn in *; unfold moved in *; cbn in *;
    rewrite ?Hu, ?Hp, ?unsent_app, ?unsent_one in *; cbn in *; rewrite ?app_nil_r in *; try done.
  - by rewrite Ha, <-app_assoc.
  - intros _. exists []. by rewrite Ha, !app_nil_r, <-!app_assoc.
  - apply Forall_app. split; [done|]. by constructor.
  - intros _. rewrite fmap_app, sum_list_with_app, c_wbs0 by done. cbn. lia.
  - intros k Hk _. specialize (c_marks0 k Hk Hf). rewrite !length_app in *. lia.
  - congruence.
Qed.
(** The whole of [uv_write], with what libuv sends at once. *)
Definition queued fresh d k s : stream :=
  progress k (took fresh d (upd_wbs (λ n, n + length d)%nat (upd_queue (λ q, q ++ [(length d, d)]) s))).
Lemma core_queued fresh d k s : core (held fresh d) s → t_closing s = false → t_eof s = false → t_pending s = [] → d ≠ [] →
  core [] (queued fresh d k s) ∧ t_queue (queued fresh d k s) ≠ [] ∧
  length (moved (queued fresh d k s)) = length (moved s ++ d) ∧ grew s (queued fresh d k s).
Proof.
  intros Hc Hcl He Hp Hd. destruct (core_open_data _ _ Hc Hcl) as (Hf & Hu & Ha). assert (Hn := core_fin_none _ _ Hc He).
  assert (Hk : core [] (took fresh d (upd_wbs (λ n, n + length d)%nat (upd_queue (λ q, q ++ [(length d, d)]) s)))).
  { destruct fresh; [|by apply core_enqueue]. apply (core_account d) in Hc; [|done..]. by apply (core_enqueue d) in Hc. }
  destruct (core_progress k _ _ Hk) as [H1 H2]; [destruct fresh; by right; left|].
  assert (H3 : length (moved (queued fresh d k s)) = length (moved s ++ d)).
  { unfold queued. rewrite H2. destruct fresh; unfold moved; cbn; by rewrite unsent_app, unsent_one, <-app_assoc. }
  split_and!; [done| |done|].
  - unfold queued, progress. destruct fresh; cbn; rewrite Hu; cbn; rewrite send_nil; by destruct (t_queue s).
  - rewrite length_app in H3. unfold queued, progress, moved in *.
    destruct fresh; cbn in *; rewrite Hu in *; split; unfold moved; cbn in *; (done || congruence || (intros; lia) || by eexists).
Qed.

(** ** Writing *)

(** After a write: the protocol may have to be resumed, and all there was to send before it has
    been handed to libuv. *)
Definition written s0 s s' : Prop :=
  (core [] s' ∧ closes s') ∧ flushes s' ∧ grows s0 s' ∧
  (t_closing s = false → t_forced s' = false → (length (t_accepted s) ≤ length (moved s'))%nat).
(** After one that failed: what is in hand is lost. *)
Definition unwritten s0 (fresh : bool) s' : Prop :=
  (∃ hand, core hand s') ∧ grows s0 s' ∧ t_pending s' = [] ∧ (fresh = true → inv s').

Lemma wp_ask Q E s : Q (t_tick s) (upd_tick S s) → wp ask Q E s.
Proof. done. Qed.
Lemma wp_allocates Q E s : Q (allocates (t_tick s)) (upd_tick S s) → wp alloc Q E s.
Proof. done. Qed.
Lemma wp_account fresh d (Q : unit → stream → Prop) E s : Q tt (took fresh d s) → wp (account fresh d) Q E s.
Proof. unfold wp. by rewrite account_eq. Qed.
Lemma closes_frame s s' : (t_closing s, t_reading s, t_allocating s, t_read_pending s, t_uv_closing s, t_forced s) =
  (t_closing s', t_reading s', t_allocating s', t_read_pending s', t_uv_closing s', t_forced s') →
  (t_closing s = true ∨ t_forced s = true → t_wbs s' = t_wbs s) → closes s → closes s'.
Proof.
  intros E Hw []. injection E as E1 E2 E3 E4 E5 E6. unfold deferred in *.
  split; unfold deferred; rewrite <-?E1, <-?E2, <-?E3, <-?E4, <-?E5, <-?E6; try done; intros H; rewrite (Hw ltac:(auto)); auto.
Qed.

Lemma wp_queueWrite ls fresh bufs s0 s : good ls → core (held fresh (concat bufs)) s → closes s → grows s0 s →
  t_pending s = [] → t_closing s = false → t_eof s = false →
  wp (queueWrite ls fresh bufs) (λ _, written s0 s) (λ _ s', ∃ f, s' = upd_tick f s) s.
Proof.
  intros Hls Hc Hx Hg Hp Hcl He. unfold queueWrite. set (d := concat bufs) in *. wp_step.
  { apply wp_ret. assert (Hd : d = []) by by apply nil_length_inv.
    assert (Hc' : core [] s) by (by destruct fresh; [|rewrite Hd in Hc]).
    split_and!; try done; [by intros ?|]. intros _ _. destruct (core_open_data _ _ Hc' Hcl) as (_ & _ & ->). rewrite Hp. cbn. by rewrite app_nil_r. }
  apply wp_bind, wp_allocates. destruct (allocates (t_tick s)); cbn [negb]; [|wp_step; by eexists].
  apply wp_bind, wp_ask. destruct (uv_write _); [wp_step; by exists (S ∘ S)|]. do 2 wp_step.
  apply wp_bind, wp_account. apply wp_bind, wp_ask. do 4 wp_step.
  match goal with |- context [progress ?k] => set (k0 := k) end.
  match goal with |- wp _ _ _ ?s' => replace s' with (upd_tick (S ∘ S ∘ S) (queued fresh d k0 s)) end.
  2: { unfold queued, progress, took. destruct fresh; cbn; by destruct (t_uv_closing s). }
  destruct (core_queued fresh d k0 s) as (H1 & H2 & H3 & H4); try done; [by intros E; apply n; rewrite E|].
  assert (H5 : (t_closing (queued fresh d k0 s), t_eof (queued fresh d k0 s), t_pending (queued fresh d k0 s)) = (false, false, [])).
  { transitivity (t_closing s, t_eof s, t_pending s); [|by rewrite Hcl, He, Hp].
    unfold queued, progress. by destruct fresh; cbn; destruct (t_uv_closing s). }
  assert (H6 : closes (queued fresh d k0 s)).
  { apply (closes_frame s); [|rewrite Hcl, (proj1 (core_open_data _ _ Hc Hcl)); by intros []|done].
    unfold queued, progress. destruct fresh; cbn; destruct (t_uv_closing s) eqn:E; cbn; by rewrite E. }
  revert H1 H2 H3 H4 H5 H6. generalize (queued fresh d k0 s) as s1. intros s1 H1 H2 H3 H4 [= H5 H5' H5''] H6.
  assert (Hi : inv (upd_tick (S ∘ S ∘ S) s1)) by (apply inv_tick; split_and!; try done; [by intros _ _; left|by intros []]).
  assert (Hg' : grows s0 (upd_tick (S ∘ S ∘ S) s1)).
  { apply grows_tick. etrans; [done|]. split; [done|]. intros _ ?. congruence. }
  eapply wp_mono; [by apply (holds_maybePause ls Hls (upd_tick (S ∘ S ∘ S) s1))| |done].
  intros [] s2 [([? ?] & ? & ?) Hg2]. split_and!; try done; [by etrans|]. intros _ Hf.
  destruct Hg2 as [Hg2 _]. pose proof (g_moved _ _ Hg2 Hf) as Hm. unfold moved in Hm at 1. cbn in Hm.
  change (t_wire s1 ++ unsent (t_queue s1)) with (moved s1) in Hm. rewrite H3, length_app in Hm.
  destruct (core_open_data _ _ Hc Hcl) as (_ & _ & ->). rewrite Hp, !length_app. destruct fresh; cbn in *; lia.
Qed.
Lemma tick_id s : upd_tick id s = s.
Proof. by destruct s. Qed.
Lemma wp_writeBufs ls fresh bufs s0 s : good ls → core (held fresh (concat bufs)) s → closes s → grows s0 s →
  t_pending s = [] → (fresh = true → inv s) →
  wp (writeBufs ls fresh bufs) (λ _, written s0 s) (λ _, unwritten s0 fresh) s.
Proof.
  intros Hls Hc Hx Hg Hp Hfr. unfold writeBufs, acceptsWrite. do 3 wp_step. cbn [id].
  destruct (t_eof s) eqn:He; [wp_step; split_and!; try done; by eexists|]. wp_step.
  destruct (t_conn_lost s || t_closing s) eqn:Hcc; cbn [negb].
  { assert (Hcl : t_closing s = true).
    { destruct (t_conn_lost s) eqn:Hl; [|done]. by apply (c_uv _ _ Hc), (c_lost _ _ Hc). }
    wp_step. split_and!; try done; [by eapply core_drop|by intros []|congruence]. }
  apply orb_false_elim in Hcc as [_ Hcl]. destruct (core_open_data _ _ Hc Hcl) as (Hf & Hu & Ha).
  do 2 wp_step.
  assert (Hq : ∀ f, wp (queueWrite ls fresh bufs) (λ _, written s0 s) (λ _, unwritten s0 fresh) (upd_tick f s)).
  { intros f. eapply wp_mono; [apply (wp_queueWrite ls fresh bufs s0); try done|by intros|].
    - by apply core_tick.
    - by apply closes_tick.
    - by apply grows_tick.
    - intros e s' (f' & ->). split_and!; [eexists; by apply core_tick, core_tick|by apply grows_tick, grows_tick|done|].
      intros Hi. by apply inv_tick, inv_tick, Hfr. }
  destruct (decide (t_wbs s = 0%nat)) as [Hw|]; [|by specialize (Hq id); rewrite tick_id in Hq].
  assert (Hq0 : t_queue s = []) by (apply sizes_nil; [apply Hc|]; by rewrite <-(c_wbs _ _ Hc Hf)).
  apply wp_bind, wp_ask. destruct (uv_try_write _ _) as [[|k]| |e]; [apply Hq| |apply Hq|].
  2: { eapply wp_mono; [by eapply wp_forceClose; [apply core_tick|apply grows_tick]| |done].
       intros [] s' [[((? & ?) & ? & ?) ?] Hff]. split_and!; try done. congruence. }
  do 2 wp_step. apply wp_bind, wp_account. set (d := take (S k) (concat bufs)).
  assert (Hd : concat bufs = d ++ concat (advance (S k) bufs)) by (by rewrite concat_advance; unfold d; rewrite take_drop).
  set (s1 := upd_tick S s). set (s2 := took fresh d (upd_wire (λ w, w ++ d) s1)).
  assert (H2 : core (held fresh (concat (advance (S k) bufs))) s2).
  { apply core_tried; try done. rewrite <-Hd. by apply core_tick. }
  assert (Hs : (t_closing s2, t_eof s2, t_pending s2, t_queue s2) = (false, false, [], [])) by
    (by destruct fresh; cbn; rewrite Hcl, He, Hp, Hq0).
  assert (Hx2 : closes s2) by (apply (closes_frame s); [by destruct fresh|by destruct fresh|done]).
  assert (Hg2 : grows s0 s2).
  { etrans; [done|]. split; [|intros _ ?; congruence]. destruct fresh; split; try done; unfold moved; cbn; try congruence; try (by eexists); rewrite !length_app; lia. }
  assert (Hm : (length (t_accepted s) ≤ length (moved s2 ++ concat (advance (S k) bufs)))%nat).
  { rewrite Ha, Hp. unfold moved. destruct fresh; cbn; rewrite Hq0, unsent_nil; cbn; rewrite ?Hd, !length_app; cbn; lia. }
  assert (Hi2 : fresh = true → inv s2).
  { assert (Hp' : t_paused s2 = t_paused s) by by destruct fresh. intros F. destruct (Hfr F) as (_ & Hw' & _). injection Hs as ? ? Hp2 ?.
    unfold held in H2. rewrite F in H2. split_and!; [done|done| |by intros []]. intros Hpa _. rewrite Hp' in Hpa. destruct (Hw' Hpa Hcl); congruence. }
  assert (Hacc : (length (t_accepted s) ≤ length (t_accepted s2))%nat) by (destruct fresh; cbn; rewrite ?length_app; lia).
  revert H2 Hs Hx2 Hg2 Hm Hi2 Hacc. generalize s2. clear s1 s2. intros s2 H2 [= Hcl2 He2 Hp2 Hq2] Hx2 Hg2 Hm Hi2 Hacc.
  destruct (advance (S k) bufs) as [|b rest]; [apply wp_ret; split_and!; try done|].
  - by destruct fresh.
  - by intros [].
  - intros _ _. by rewrite app_nil_r in Hm.
  - eapply wp_mono; [apply (wp_queueWrite ls fresh (b :: rest) s0 s2); try done| |].
    + intros [] s3 ([? ?] & ? & ? & Hb). split_and!; try done. intros _ Hf3. specialize (Hb Hcl2 Hf3).
      lia.
    + intros e s3 (f & ->). split_and!; [eexists; by apply core_tick|by apply grows_tick|done|].
      intros Hfr'. by apply inv_tick, Hi2.
Qed.

(** A flush hands libuv all that was accepted before it, unless the connection is given up or
    closing. *)
Lemma core_discard s : core [] s → core (concat (t_pending s)) (upd_pending (λ _, []) s).
Proof.
  intros []. split; try done; cbn; [|lia]. intros Hf. destruct (c_all0 Hf) as (tail & Ha & Ht). exists tail.
  split; [by rewrite Ha|]. intros H. by destruct (Ht H).
Qed.
Lemma wp_flushPending ls s0 s : good ls → core [] s → closes s → waits s → grows s0 s →
  wp (flushPending ls) (λ _ s', stays s0 s' ∧
    (t_closing s = false → t_forced s' = false → (length (t_accepted s) ≤ length (moved s'))%nat)) (λ _ _, False) s.
Proof.
  intros Hls Hc Hx Hw Hg. unfold flushPending. do 2 wp_step. destruct (t_pending s) as [|b p] eqn:Hp.
  { wp_step. split; [split; [split_and!; [done..|by intros []]|done]|].
    intros Hcl _. destruct (core_open_data _ _ Hc Hcl) as (_ & _ & ->). rewrite Hp. cbn. by rewrite app_nil_r. }
  unfold discardPending. do 2 wp_step. rewrite <-Hp. apply core_discard in Hc as Hc1.
  set (s1 := upd_pending (λ _, []) s) in *.
  assert (Hx1 : closes s1) by (by apply (closes_frame s)).
  assert (Hg1 : grows s0 s1) by (etrans; [done|by same_state]).
  assert (Hs1 : (t_pending s1, t_closing s1, t_accepted s1) = ([], t_closing s, t_accepted s)) by done.
  revert Hc1 Hx1 Hg1 Hs1. generalize s1. clear s1. intros s1 Hc1 Hx1 Hg1 [= Hp1 Hcl1 Ha1].
  apply wp_catch_else. eapply wp_mono; [by apply (wp_writeBufs ls false (t_pending s) s0)| |].
  - intros [] s2 ([? ?] & ? & ? & Hb). eapply wp_mono; [by apply (wp_maybeResume ls s2)| |done].
    intros [] s3 [Hi3 Hg3]. split; [split; [done|by etrans]|]. intros Hcl Hf3. rewrite <-Ha1. rewrite Hcl in Hcl1.
    etrans; [apply Hb; [done|]|by apply Hg3]. destruct (t_forced s2) eqn:E; [|done]. by rewrite (g_forced _ _ (proj1 Hg3) E) in Hf3.
  - intros e s2 ((hand & Hh) & Hg2 & _ & _). eapply wp_mono; [by eapply wp_forceClose| |done].
    intros [] s3 [Hs3 Hf3]. split; [done|]. congruence.
Qed.

(** *** The batch *)
Lemma core_append b s : core [] s → t_closing s = false → (length (t_pending s) < pending_max)%nat →
  core [] (upd_accepted (λ a, a ++ b) (upd_pending (λ p, p ++ [b]) s)).
Proof.
  intros Hc Hcl Hl. destruct (core_open_data _ _ Hc Hcl) as (Hf & Hu & Ha).
  destruct Hc. split; try done; cbn.
  - by apply prefix_app_r.
  - intros _. exists []. unfold moved in *. cbn. rewrite Ha, concat_app. cbn. by rewrite !app_nil_r, <-!app_assoc.
  - rewrite length_app. cbn. lia.
Qed.
(** With no Python code to run, a flush leaves the batch empty. *)
Lemma wp_flush_empties s : wp (flushPending []) (λ _ s', t_pending s' = []) (λ _ s', t_pending s' = []) s.
Proof.
  pose (R := λ s s', t_pending s = [] → t_pending s' = []).
  assert (PreOrder R) by (split; [intros s'; by unfold R|intros s1 s2 s3; unfold R; auto]).
  assert (Hst : ∀ p, stable R (catch_else (writeBufs [] false p) (λ e, forceClose (Some e)) (λ _, maybeResumeProtocol []))).
  { intros p. unfold writeBufs, queueWrite, maybeResumeProtocol, maybePauseProtocol, acceptsWrite, callProtocol, reportError,
      call, forceClose, shutdownAndClose, stopReading, uv_read_stop, closeExternalHandle, discardPending, account, alloc, log, ask.
    solve_stable; intros Hw; unfold progress; try case_match; done. }
  unfold flushPending. do 2 wp_step. destruct (t_pending s) eqn:Hp; [by wp_step|]. unfold discardPending. do 2 wp_step.
  apply (wp_stable R); [apply Hst|intros ? s' HR; by apply HR..].
Qed.

(** Between writes into the batch and its flush. *)
Definition filling s0 s : Prop := (core [] s ∧ closes s) ∧ waits s ∧ grows s0 s.
Definition has_room s : Prop := t_closing s = false ∧ t_eof s = false ∧ (length (t_pending s) < pending_max)%nat.
Lemma wp_make_room ls s0 s : good ls → filling s0 s → t_closing s = false → t_eof s = false →
  wp (make_room ls) (λ ok s', filling s0 s' ∧ if ok then has_room s' else flushes s') (λ _ _, False) s.
Proof.
  intros Hls. revert s. induction Hls as [|r ls Hr Hls IH]; intros s ((Hc & Hx) & Hw & Hg) Hcl He; cbn [make_room]; do 2 wp_step;
    (wp_step; [wp_step; split; [done|]; split_and!; [done..|]; pose proof (c_batch _ _ Hc); lia|]).
  - apply wp_bind. eapply wp_mono; [apply (wp_and _ _ _ _ _ _ (wp_flushPending [] s0 s ltac:(constructor) Hc Hx Hw Hg) (wp_flush_empties s))| |by intros ? ? []].
    intros [] s1 [[[((? & ?) & ? & ?) ?] _] Hp]. do 2 wp_step. cbn [id].
    destruct (t_conn_lost s1 || t_closing s1 || t_eof s1) eqn:Hd; wp_step; [done|].
    apply orb_false_elim in Hd as [[_ ?]%orb_false_elim ?]. split; [done|]. split_and!; [done..|]. rewrite Hp. cbn. unfold pending_max. lia.
  - apply wp_bind. eapply wp_mono; [by apply (wp_flushPending (r :: ls) s0 s); [constructor|..]| |done].
    intros [] s1 [[((? & ?) & ? & ?) ?] _]. do 2 wp_step. cbn [id].
    destruct (t_conn_lost s1 || t_closing s1 || t_eof s1) eqn:Hd; [by wp_step|].
    apply orb_false_elim in Hd as [[_ ?]%orb_false_elim ?]. by apply IH.
Qed.
Lemma wp_appendPending ls bufs s0 s : good ls → filling s0 s → t_closing s = false → t_eof s = false →
  wp (appendPending ls bufs) (λ _, stays s0) (λ _ _, False) s.
Proof.
  intros Hls. revert s. induction bufs as [|b bufs IH]; intros s ((Hc & Hx) & Hw & Hg) Hcl He; cbn [appendPending].
  - unfold scheduleFlush. do 2 wp_step. destruct (t_loop_closed s) eqn:Hl; [by rewrite (c_loop _ _ Hc Hl) in Hcl|]. wp_step.
    split; [|etrans; [done|by same_state]]. destruct Hc, Hx. split_and!; [..|done|done]; by same_state.
  - apply wp_bind. eapply wp_mono; [by apply (wp_make_room ls s0)| |done].
    intros ok s1 (((Hc1 & Hx1) & Hw1 & Hg1) & Hok). destruct ok; [|by wp_step]. destruct Hok as (Hcl1 & He1 & Hp1).
    do 2 wp_step. apply wp_bind, wp_account. cbn [took]. apply IH; [|done..]. split_and!.
    + by apply core_append.
    + by apply (closes_frame s1).
    + intros _ _. right. cbn. by destruct (t_pending s1).
    + etrans; [done|]. split; [|done]. split; try done. cbn. by eexists.
Qed.
Lemma keeps_submitWrite ls bufs : good ls → keeps (submitWrite ls bufs).
Proof.
  intros Hls s0 s Hs. pose proof Hs as [((Hc & Hx) & Hw & Hf) Hg]. unfold submitWrite. do 2 wp_step.
  destruct (decide _) as [[Hp _]|_].
  - apply wp_bind. eapply wp_mono; [by apply (wp_writeBufs ls true bufs s0)| |].
    + intros [] s1 ([? ?] & ? & ? & _). eapply wp_mono; [by apply (wp_maybeResume ls s0)|done|done].
    + intros e s1 (_ & ? & _ & ?). split; auto.
  - unfold acceptsWrite. do 3 wp_step. cbn [id]. destruct (t_eof s) eqn:He; wp_step; [exact Hs|].
    destruct (t_conn_lost s || t_closing s) eqn:Hd; cbn [negb]; [wp_step; exact Hs|]. apply orb_false_elim in Hd as [_ Hcl].
    apply wp_bind. eapply wp_mono; [by apply (wp_appendPending ls bufs s0)| |done]. intros [] s1 [((? & ?) & ? & ?) ?].
    do 2 wp_step. wp_step; [|done]. eapply wp_mono; [by apply (wp_flushPending ls s0)|by intros ? ? []|done].
Qed.

(** ** Operations *)
Lemma keeps_bind {A B} (m : M stream A) (k : A → M stream B) : keeps m → (∀ a, keeps (k a)) → keeps (bind m k).
Proof. intros Hm Hk s0 s Hs. apply wp_bind. eapply wp_mono; [by apply Hm|intros; by apply Hk|done]. Qed.
Lemma keeps_acquire ls : good ls → keeps (acquire ls).
Proof.
  intros Hls s0 s Hs. apply wp_bind. eapply wp_mono; [by apply (holds_call ls CAcquire)| |done]. intros [] s1 H1; by wp_step.
Qed.
Lemma keeps_write ls d : good ls → keeps (write ls d).
Proof.
  intros Hls. apply keeps_bind; [by apply keeps_acquire|]. intros _ s0 s Hs. do 3 wp_step; [by wp_step|].
  wp_step; [by wp_step|]. by apply keeps_submitWrite.
Qed.
Lemma keeps_writelines ls ds : good ls → keeps (writelines ls ds).
Proof.
  intros Hls s0 s Hs. unfold writelines. do 3 wp_step; [by wp_step|].
  apply (keeps_bind (acquire ls) (λ _, if decide (ds = []) then ret tt else submitWrite ls ds)); [by apply keeps_acquire| |done].
  intros _. destruct (decide _); [intros ???; by wp_step|by apply keeps_submitWrite].
Qed.

(** An event that is neither a call nor the end. *)
Definition effect x : Prop := match x with EvEof _ | EvClosing _ => True | _ => False end.
Lemma phase_effect x l : effect x → phase (l ++ [x]) = phase l.
Proof. intros H. rewrite phase_snoc. by destruct x. Qed.

Lemma wp_shutdownWrite s : inv s → t_eof s = true → t_wbs s = 0%nat →
  wp shutdownWrite (λ _ s', inv s' ∧ grew s s' ∧ fin_ok s') (λ _ _, False) s.
Proof.
  intros Hi He Hz. unfold shutdownWrite. apply wp_bind, wp_allocates. destruct (allocates _); cbn [negb].
  - apply wp_modify. destruct (t_uv_closing _ || _) eqn:Hd.
    + split_and!; [by apply inv_tick|by same_state|]. intros _ _ Hcl. destruct Hi as ((Hc & _) & _ & _).
      cbn in *. destruct (t_uv_closing s) eqn:Hu; [by rewrite (proj1 (c_uv _ _ Hc Hu)) in Hcl|]. by apply bool_decide_eq_true in Hd.
    + apply orb_false_elim in Hd as [Hu Hn]. cbn in Hu, Hn. destruct Hi as ((Hc & Hx) & Hw & Hf).
      split_and!; [split|..]; [split_and!|done|split; cbn; done|by intros _ _ _].
      * destruct Hc. split; try done. intros w [= <-]. split_and!; [done|done|]. intros Hff. apply sizes_nil; [done|]. rewrite <-Hz. symmetry. by apply c_wbs0.
      * destruct Hx. by split.
  - eapply wp_mono; [apply (wp_forceClose None (upd_tick S s) (upd_tick S s) []); [apply core_tick, Hi|done]| |done].
    intros [] s1 [[Hi1 [Hg1 _]] Hf1]. split_and!; [done|etrans; [|done]; by split|].
    intros _ _ Hcl. destruct Hi1 as ((Hc1 & _) & _). by rewrite (c_forced _ _ Hc1 Hf1) in Hcl.
Qed.
Lemma wp_writeEof ls s0 s : good ls → stays s0 s → wp (writeEof ls) (λ _, stays s0) (λ _ _, False) s.
Proof.
  intros Hls Hs. pose proof Hs as [((Hc & Hx) & Hw & Hf) Hg]. unfold writeEof. do 2 wp_step. cbn [id].
  destruct (t_conn_lost s || t_eof s || t_closing s) eqn:Hd; [by wp_step|]. apply orb_false_elim in Hd as [_ Hcl].
  apply wp_bind. eapply wp_mono; [by apply (wp_flushPending ls s0 s)| |done]. intros [] s1 [[Hi1 Hg1] Hb].
  unfold log. do 4 wp_step. set (k := length (t_accepted s)) in *.
  set (s2 := upd_log _ _). assert (Hi2 : inv s2).
  { destruct Hi1 as (([] & []) & Hw1 & Hf1). split_and!; [..|done|done]; split; try done; cbn; rewrite ?omap_app, ?phase_effect by done; cbn; rewrite ?app_nil_r; try done.
    - intros k'. rewrite elem_of_app, list_elem_of_singleton. intros [[| ->]|] Hff; [by apply c_marks0; [left|]|by apply Hb|by apply c_marks0; [right|]].
    - intros _. by destruct (omap eof_of (t_log s1)).
    - intros w Hw'. destruct (c_fin0 w Hw') as (? & ? & ?). done. }
  assert (Hg2 : grew s0 s2) by (etrans; [apply Hg1|]; by same_state).
  do 2 wp_step. wp_step.
  - apply bool_decide_eq_true in H. eapply wp_mono; [by apply wp_shutdownWrite| |done].
    intros [] s3 (? & ? & ?). split; [done|]. split; [by etrans|done].
  - apply bool_decide_eq_false in H. split; [done|]. split; [done|]. by intros _ _ ?.
Qed.

Lemma stopReading_eq s hand : core hand s → t_allocating s = false →
  stopReading s = (Ok tt, upd_reading (λ _, false) (upd_uv_reading (λ _, false) s)).
Proof.
  intros Hc Ha. assert (Hi := c_alloc _ _ Hc). assert (Hr := c_reading _ _ Hc). rewrite Ha in Hi.
  unfold stopReading, uv_read_stop, touch, bind, gets, modify, ret, when_.
  destruct s. cbn in *. subst. by destruct t_uv_reading, t_misused.
Qed.
Lemma core_stop s hand : core hand s → core hand (upd_reading (λ _, false) (upd_uv_reading (λ _, false) s)).
Proof. intros []. split; try done. intros Hu. cbn. split; [|done]. by apply c_uv0. Qed.
Lemma core_closing s k : core [] s → (t_forced s = false → (k ≤ length (moved s))%nat) →
  core [] (upd_log (λ l, l ++ [EvClosing k]) (upd_closing (λ _, true) s)).
Proof.
  intros [] Hb. split; try done; cbn; rewrite ?omap_app, ?phase_effect by done; cbn; rewrite ?app_nil_r; try done.
  - intros Hff. destruct (c_all0 Hff) as (tail & ? & Ht). exists tail. split; [done|]. intros Hn. by destruct (Ht Hn).
  - intros Hu. split; [done|]. by apply c_uv0.
  - intros k'. rewrite elem_of_app, list_elem_of_singleton. intros [|[| ->]] Hff; [by apply c_marks0; [left|]|by apply c_marks0; [right|]|by apply Hb].
  - intros _ _. by destruct (omap closing_of (t_log s)).
Qed.
Lemma holds_closeTransport ls : good ls → holds (closeTransport ls).
Proof.
  intros Hls s0 s Hs. unfold closeTransport. do 2 wp_step.
  set (s' := upd_close_requested _ s). assert (Hs' : stays s0 s').
  { destruct Hs as [(([] & []) & ? & ?) ?]. split; [split_and!; [..|done|done]; by split|]. etrans; [done|]. by same_state. }
  revert Hs'. generalize s'. clear s' s Hs. intros s Hs. pose proof Hs as [((Hc & Hx) & Hw & Hf) Hg]. do 2 wp_step. cbn [id].
  destruct (t_closing s) eqn:Hcl; [by wp_step|].
  apply wp_bind. eapply wp_mono; [by apply (wp_flushPending ls s0 s)| |done]. intros [] s1 [[((Hc1 & Hx1) & Hw1 & Hf1) Hg1] Hb].
  unfold log. do 4 wp_step. set (s2 := upd_log _ _). assert (Hc2 : core [] s2) by (apply core_closing; auto).
  assert (Hg2 : grows s0 s2) by (etrans; [done|]; split; [by split|]; by intros _ _ _ ?).
  assert (Hs2 : t_closing s2 = true ∧ flushes s2 ∧ (t_forced s2 = true → t_uv_closing s2 = true ∨ (deferred s2 ∧ t_wbs s2 = 0%nat))) by (split_and!; [done|done|apply Hx1]).
  revert Hc2 Hg2 Hs2. generalize s2. clear s2. intros s2 Hc2 Hg2 (Hcl2 & Hf2 & Hgu). do 2 wp_step.
  destruct (t_allocating s2) eqn:Ha.
  { apply wp_modify. split; [|etrans; [done|]; by same_state]. apply inv_closing; [by apply core_read_pending| |done|done].
    split; [by right|by right|]. intros Hff. destruct (Hgu Hff) as [|[_ ?]]; [by left|by right]. }
  apply wp_bind. unfold wp at 1. rewrite (stopReading_eq s2 []) by done. do 2 wp_step.
  assert (Hc3 := core_stop s2 [] Hc2). set (s3 := upd_reading _ _) in *.
  assert (Hg3 : grows s0 s3) by (etrans; [done|]; by same_state).
  wp_step.
  - apply bool_decide_eq_true in H. apply wp_shutdownAndClose; try done.
    destruct (t_forced s3) eqn:E; [by left|right]. apply sizes_nil; [apply Hc3|]. by rewrite <-(c_wbs _ _ Hc3 E).
  - apply bool_decide_eq_false in H. split; [|done]. apply inv_closing; try done. split; [by left|done|].
    intros Hff. destruct (Hgu Hff) as [|[[? _] _]]; [by left|congruence].
Qed.

Lemma keeps_setWriteBufferLimits ls high low : good ls → keeps (setWriteBufferLimits ls high low).
Proof.
  intros Hls s0 s [Hi Hg]. unfold setWriteBufferLimits. apply wp_bind, wp_of_res; [|done]. intros marks _. do 4 wp_step.
  eapply wp_mono; [apply (holds_maybePause ls Hls s0)|done|done].
  split; [|etrans; [done|]; by same_state]. destruct Hi as (([] & []) & ? & ?). split_and!; [..|done|done]; by split.
Qed.

(** ** Reading *)
Lemma keeps_startReading : keeps startReading.
Proof.
  intros s0 s Hs. unfold startReading. do 2 wp_step. cbn [id].
  destruct (t_reading s || t_closing s || t_conn_lost s) eqn:Hd; [by wp_step|].
  apply orb_false_elim in Hd as [[Hr Hcl]%orb_false_elim _].
  apply wp_bind, wp_ask. destruct Hs as [Hi Hg]. destruct (uv_read_start _).
  { wp_step. split; [by apply inv_tick|by apply grows_tick]. }
  do 3 wp_step. split; [|etrans; [done|]; by same_state]. destruct Hi as ((Hc & []) & ? & ?).
  assert (Hu : t_uv_closing s = false).
  { destruct (t_uv_closing s) eqn:E; [|done]. by rewrite (proj1 (c_uv _ _ Hc E)) in Hcl. }
  destruct Hc. split_and!; [..|done|done]; split; try done; cbn; intros; congruence.
Qed.
Lemma holds_startReadingMethod : holds startReadingMethod.
Proof.
  intros s0 s Hs. apply wp_catch. eapply wp_mono; [by apply keeps_startReading|done|]. intros e s1 Hs1. by apply holds_forceClose.
Qed.
Lemma core_stopping s : inv s → t_allocating s = false → inv (upd_reading (λ _, false) (upd_uv_reading (λ _, false) s)).
Proof.
  intros ((Hc & []) & ? & ?) Ha. split_and!; [by apply core_stop| |done|done]. split; try done. by left.
Qed.
Lemma holds_pauseReading : holds pauseReading.
Proof.
  intros s0 s [Hi Hg]. unfold pauseReading. do 2 wp_step. cbn [id]. destruct (t_reading s) eqn:Hr; cbn [negb]; [|by wp_step].
  destruct (t_allocating s) eqn:Ha.
  - wp_step. split; [|etrans; [done|]; by same_state]. destruct Hi as ((Hc & []) & ? & ?).
    split_and!; [by apply core_read_pending| |done|done]. split; cbn; intros; [by right|..].
    + destruct (c_closing0 ltac:(done) ltac:(done)) as [|[? ?]]; [by left|by right].
    + destruct (c_given_up0 ltac:(done)) as [|[_ ?]]; [by left|by right].
  - unfold uv_read_stop. do 5 wp_step. assert (Hm : touch s = s).
    { destruct Hi as ((Hc & _) & _). assert (Hi' := c_alloc _ _ Hc). rewrite Ha in Hi'. unfold touch. destruct s. cbn in *. subst. by destruct t_misused. }
    rewrite Hm. split; [by apply core_stopping|]. etrans; [done|]. by same_state.
Qed.

(** ** Python code at any level *)
Lemma keeps_op ls o : good ls → keeps (op ls o).
Proof.
  intros Hls. destruct o; cbn [op].
  - by apply keeps_write.
  - by apply keeps_writelines.
  - apply holds_keeps. intros s0 s. by apply wp_writeEof.
  - by apply holds_keeps, holds_closeTransport.
  - apply holds_keeps, holds_forceClose.
  - apply holds_keeps, holds_forceClose.
  - by apply keeps_setWriteBufferLimits.
  - apply holds_keeps, holds_pauseReading.
  - apply keeps_startReading.
  - apply holds_keeps, holds_startReadingMethod.
Qed.
Lemma good_run_sops ls : good ls → good_runner (run_sops ls).
Proof.
  intros Hls ops s0 s Hs. apply (wp_for_each (λ _, stays s0)); [done| |done]. intros o ops' s1 H1.
  apply wp_bind, wp_capture. eapply wp_mono; [by apply keeps_op|intros ???; by wp_step..].
Qed.
Lemma good_levels n : good (levels n).
Proof. induction n; constructor; [by apply good_run_sops|done]. Qed.
End keeps.
