(* ===== verification/StreamRun.v ===== *)
(** * The stream transport's steps (zig/transport.zig)

    Reading, and libuv's other callbacks: they keep the invariant of StreamInv, so it holds
    whatever the transport has gone through. *)
From S2P Require Import Prelude Stream StreamInv.

Section run.
Context `{Env : TransportEnv}.
Implicit Types (s : stream) (e : exn) (ls : list runner).

(** Between steps libuv is not in its allocation callback. *)
Definition steady s : Prop := inv s ∧ fin_ok s ∧ t_in_alloc s = false.
Lemma stays_steady s s' : steady s → stays s s' → steady s'.
Proof. intros (_ & Hf & Ha) [Hi [Hg Hff]]. split_and!; [done|auto|]. injection (g_same _ _ Hg). congruence. Qed.
Lemma steady_alloc s : steady s → t_allocating s = false.
Proof. intros (((Hc & _) & _) & _ & Ha). by rewrite <-(c_alloc _ _ Hc). Qed.
Lemma steady_unread s : steady s → t_read_pending s = false.
Proof.
  intros Hs. destruct (t_read_pending s) eqn:E; [|done].
  destruct Hs as (((Hc & Hx) & Hw) & Hf & Ha). assert (Hp := c_pending _ _ Hc E). rewrite <-(c_alloc _ _ Hc) in Hp. congruence.
Qed.

Lemma keeps_steady {A} (m : M stream A) s : keeps m → steady s → wp m (λ _, steady) (λ _, steady) s.
Proof. intros H Hs. eapply wp_mono; [by apply (H s s); split; [apply Hs|]|intros; by eapply stays_steady..]. Qed.
Lemma holds_steady {A} (m : M stream A) s : holds m → steady s → wp m (λ _, steady) (λ _ _, False) s.
Proof. intros H Hs. eapply wp_mono; [by apply (H s s); split; [apply Hs|]|intros; by eapply stays_steady|done]. Qed.

(** ** Reading *)
Lemma holds_callInContext ls c : good ls → quiet c → holds (callInContext ls c).
Proof.
  intros Hls Hc s0 s Hs. apply wp_bind. eapply wp_mono; [by apply (holds_call ls c)| |done]. intros r s1 H1.
  destruct r as [|e]; [by wp_step|]. destruct (_ || _).
  - unfold Stream.log. do 2 wp_step. apply holds_forceClose. destruct H1 as [(([] & []) & ? & ?) ?].
    split; [split_and!; [..|done|done]; split; try done|by apply grows_logged].
    all: cbn; rewrite ?omap_app, ?phase_snoc; cbn; by rewrite ?app_nil_r.
  - apply wp_bind. eapply wp_mono; [by apply (holds_reportError ls e)| |done]. intros [] s2 H2. by apply holds_forceClose.
Qed.
Lemma wp_handleEof ls s : good ls → steady s → wp (handleEof ls) (λ _, steady) (λ _ _, False) s.
Proof.
  intros Hls Hs. unfold handleEof, uv_read_stop. do 6 wp_step.
  assert (Hm : touch s = s).
  { destruct Hs as (_ & _ & Ha). unfold touch. destruct s. cbn in *. subst. by destruct t_misused. }
  rewrite Hm. assert (Hs1 : steady (upd_reading (λ _, false) (upd_uv_reading (λ _, false) s))).
  { split_and!; [|apply Hs..]. apply core_stopping; [apply Hs|by apply steady_alloc]. }
  revert Hs1. generalize (upd_reading (λ _, false) (upd_uv_reading (λ _, false) s)). intros s1 Hs1.
  apply wp_bind. eapply wp_mono; [by apply holds_steady; [apply holds_call|]| |done].
  intros r s2 Hs2. destruct r as [keep|e]; [destruct keep; [by wp_step|]|].
  - apply holds_steady; [by apply holds_closeTransport|done].
  - apply wp_bind. eapply wp_mono; [by apply holds_steady; [apply holds_reportError|]| |done].
    intros [] s3 Hs3. apply holds_steady; [by apply holds_closeTransport|done].
Qed.
Lemma holds_adjustReadSize n : holds (adjustReadSize n).
Proof.
  intros s0 s [Hi Hg]. apply wp_modify. destruct Hi as ((Hc & Hx) & ? & ?). assert (Hz := c_size _ _ Hc).
  assert (Hk : ∀ f g, read_size_min ≤ f (t_read_size s) ≤ read_size_max → stays s0 (upd_read_full g (upd_read_size f s))).
  { intros f g Hf. split; [|etrans; [done|]; by same_state]. destruct Hc, Hx. split_and!; [..|done|done]; by split. }
  assert (Hs : upd_read_size id s = s) by by destruct s.
  assert (Hl : ∀ x, upd_read_full id x = x) by by intros [].
  pose proof (Z.div_mod (t_read_size s) 2 ltac:(lia)) as Hdm. pose proof (Z.mod_pos_bound (t_read_size s) 2 ltac:(lia)) as Hb.
  unfold read_size_min, read_size_max in *.
  destruct (_ <=? n); [apply Hk; lia|]. destruct (t_read_full s).
  - specialize (Hk id (λ _, false)). rewrite Hs in Hk. by apply Hk.
  - destruct (_ <=? _); [|by specialize (Hk id id); rewrite Hs, Hl in Hk; apply Hk].
    specialize (Hk (λ n, Z.max (n / 2) (16 * 1024)) id). rewrite Hl in Hk. apply Hk. lia.
Qed.

(** What a read leads to once libuv is out of its allocation callback. *)
Lemma wp_onRead_steady ls o s : good ls → steady s → wp (onRead ls o) (λ _, steady) (λ _ _, False) s.
Proof.
  intros Hls Hs. unfold onRead. do 4 wp_step. cbn [id]. rewrite (steady_unread s Hs), andb_false_r.
  assert (E : upd_allocating (λ _, false) s = s).
  { assert (Ha := steady_alloc s Hs). destruct s. cbn in *. by subst. }
  rewrite E. assert (Hfc : ∀ x s', steady s' → wp (forceClose x) (λ _, steady) (λ _ _, False) s') by (intros; by apply holds_steady; [apply holds_forceClose|]).
  destruct write_pipe.
  - assert (Hw : wp (n <- gets bufferedBytes ;; if decide (n = 0%nat) then closeTransport ls else forceClose (Some EPIPE))
      (λ _, steady) (λ _ _, False) s).
    { do 2 wp_step. destruct (decide _); [|by apply Hfc]. by apply holds_steady; [apply holds_closeTransport|]. }
    by destruct o.
  - destruct o as [d| | |e].
    + apply wp_bind. assert (Ha : holds (when_ (negb buffered) (adjustReadSize (Z.of_nat (length d))))).
      { destruct buffered; [by intros ???; wp_step|apply holds_adjustReadSize]. }
      eapply wp_mono; [by apply holds_steady| |done]. intros [] s1 Hs1.
      apply wp_bind, wp_allocates. assert (Hs2 : steady (upd_tick S s1)) by (destruct Hs1 as (? & ? & ?); split_and!; [by apply inv_tick|done..]).
      destruct (allocates _); cbn [negb]; [|by apply Hfc].
      apply holds_steady; [|done]. apply holds_callInContext; [done|by destruct buffered].
    + by wp_step.
    + by apply wp_handleEof.
    + by apply Hfc.
Qed.

(** A change of the reading state that [get_buffer] asked for is made here. *)
Lemma wp_onRead_deferred ls o s : core [] (upd_in_alloc (λ _, true) s) → closes s → flushes s → waits s → fin_ok s → t_in_alloc s = false →
  t_allocating s = true → t_read_pending s = true → wp (onRead ls o) (λ _, steady) (λ _ _, False) s.
Proof.
  intros Hc Hx Hf Hw Hfin Hia Ha Hp. unfold onRead. do 4 wp_step. cbn [id]. rewrite Ha, Hp. cbn [andb]. do 2 wp_step.
  set (s1 := upd_read_pending _ _). assert (Hc1 : core [] s1).
  { destruct Hc. split; try done. }
  assert (Hs1 : t_allocating s1 = false ∧ flushes s1 ∧ waits s1 ∧ fin_ok s1 ∧ t_in_alloc s1 = false ∧
    (t_forced s1 = true → t_uv_closing s1 = true ∨ t_wbs s1 = 0%nat)).
  { split_and!; try done. intros Hff. destruct (c_given_up _ Hx Hff) as [|[_ ?]]; [by left|by right]. }
  revert Hc1 Hs1. generalize s1. clear s1 s Hc Hx Hf Hw Hfin Hia Ha Hp. intros s Hc (Ha & Hf & Hw & Hfin & Hia & Hgu).
  apply wp_bind. unfold wp at 1. rewrite (stopReading_eq s []) by done. set (s1 := upd_reading _ _).
  assert (Hc1 : core [] s1) by by apply core_stop. do 2 wp_step. cbn [id].
  assert (Hs : (t_closing s1 = true → t_wbs s1 = 0%nat → t_uv_closing s1 = true) → steady s1).
  { intros Hcl. split; [split; [split; [done|]|by split]|by split]. split; [by intros _; left|intros; left; by apply Hcl|]. intros Hff.
    destruct (Hgu Hff) as [|Hz]; [by left|left]. apply Hcl; [|done]. by apply (c_forced _ _ Hc1). }
  wp_step.
  - apply andb_true_iff in H as [Hcl Hz%bool_decide_eq_true]. eapply wp_mono; [apply (wp_shutdownAndClose s1 s1); try done| |done].
    + destruct (t_forced s1) eqn:E; [by left|right]. apply sizes_nil; [apply Hc1|]. by rewrite <-(c_wbs _ _ Hc1 E).
    + intros [] s2 [Hi2 [Hg2 Hff2]]. split_and!; [done|by apply Hff2|]. injection (g_same _ _ Hg2). intros. by rewrite <-Hia.
  - apply Hs. intros Hcl Hz. rewrite Hcl, Hz in H. done.
Qed.
Lemma onRead_undeferred ls o s : t_read_pending s = false → onRead ls o s = onRead ls o (upd_allocating (λ _, false) s).
Proof. intros Hp. unfold onRead, bind, gets, modify, id. cbn. by rewrite Hp, !andb_false_r. Qed.

(** A buffer is asked for and the read reported. *)
Lemma in_alloc_inv s : steady s → inv (upd_allocating (λ _, true) (upd_in_alloc (λ _, true) s)).
Proof.
  intros Hs. assert (Hp := steady_unread s Hs). destruct Hs as (((Hc & [Hx1 Hx2 Hx3]) & ? & ?) & _ & _).
  destruct Hc. split_and!; [..|done|done]; split; try done; cbn.
  - intros H1. destruct (Hx1 H1) as [|[]]; [by left|congruence].
  - intros H1 H2. destruct (Hx2 H1 H2) as [|[]]; [by left|congruence].
  - intros H1. destruct (Hx3 H1) as [|[[] ?]]; [by left|congruence].
Qed.
Lemma wp_read_rest ls o (got : bool) s : good ls → inv s → fin_ok s → t_in_alloc s = true → t_allocating s = true →
  wp (modify (upd_in_alloc (λ _, false)) ;; onRead ls (if got then o else RFailed ENOBUFS)) (λ _, steady) (λ _ _, False) s.
Proof.
  intros Hls ((Hc & Hx) & Hw & Hf) Hfin Hia Ha. do 2 wp_step. destruct (t_read_pending s) eqn:Hp.
  - apply wp_onRead_deferred; try done; [|by destruct Hx; split].
    replace (upd_in_alloc _ _) with s; [done|]. destruct s. cbn in *. by subst.
  - unfold wp. rewrite onRead_undeferred by done. apply wp_onRead_steady; [done|]. split; [|done].
    destruct Hc, Hx as [Hx1 Hx2 Hx3]. unfold deferred in *. split_and!; [..|done|done]; split; try done; cbn.
    + congruence.
    + intros H1. destruct (Hx1 H1) as [|[]]; [by left|congruence].
    + intros H1 H2. destruct (Hx2 H1 H2) as [|[]]; [by left|congruence].
    + intros H1. destruct (Hx3 H1) as [|[[] ?]]; [by left|congruence].
Qed.
Lemma wp_read_event ls o s : good ls → steady s → wp (read_event ls o) (λ _, steady) (λ _ _, False) s.
Proof.
  intros Hls Hs. unfold read_event, onAlloc. do 2 wp_step. destruct buffered eqn:Hb.
  - do 4 wp_step. assert (Hi := in_alloc_inv s Hs). assert (Hfin : fin_ok s) by apply Hs.
    set (s1 := upd_allocating _ _) in *. assert (Hj : fin_ok s1 ∧ t_in_alloc s1 = true ∧ t_allocating s1 = true) by done.
    revert Hi Hj. generalize s1. clear s1 Hs Hfin s. intros s Hi (Hfin & Hia & Ha).
    assert (Hgo : ∀ (got : bool) s', stays s s' →
      wp (modify (upd_in_alloc (λ _, false)) ;; onRead ls (if got then o else RFailed ENOBUFS)) (λ _, steady) (λ _ _, False) s').
    { intros got s' [Hi' [Hg Hff]]. injection (g_same _ _ Hg). intros. apply wp_read_rest; try done; [by apply Hff|congruence..]. }
    eapply wp_mono; [by apply (holds_call ls CGetBuffer Hls I s)| |done]. intros r s2 H2.
    assert (Hbad : ∀ e, wp (reportError ls e ;; ret false)
      (λ got, wp (modify (upd_in_alloc (λ _, false)) ;; onRead ls (if got then o else RFailed ENOBUFS)) (λ _, steady) (λ _ _, False))
      (λ _ _, False) s2).
    { intros e. apply wp_bind. eapply wp_mono; [by apply (holds_reportError ls e Hls s)| |done]. intros [] s3 H3. wp_step. by apply (Hgo false). }
    destruct r as [got|e]; [destruct got|]; [|by apply Hbad..]. do 3 wp_step. by apply (Hgo (negb _)).
  - assert (Hgo : ∀ (got : bool) f, wp (modify (upd_in_alloc (λ _, false)) ;; onRead ls (if got then o else RFailed ENOBUFS))
      (λ _, steady) (λ _ _, False) (upd_tick f (upd_in_alloc (λ _, true) s))).
    { intros got f. do 2 wp_step. apply wp_onRead_steady; [done|]. replace (upd_in_alloc _ _) with (upd_tick f s).
      - destruct Hs as (? & ? & ?). split_and!; [by apply inv_tick|done..].
      - destruct Hs as (_ & _ & Ha). destruct s. cbn in *. by subst. }
    do 4 wp_step. destruct (_ <=? copy_threshold).
    + apply wp_allocates. destruct (allocates _); [wp_step; by apply (Hgo true)|]. apply wp_allocates. by apply (Hgo (allocates _) (S ∘ S)).
    + apply wp_ret, wp_allocates. by apply (Hgo (allocates _) S).
Qed.

(** ** libuv's other callbacks *)
Lemma steady_closed s : steady s → t_closing s = true → t_wbs s = 0%nat → t_uv_closing s = true.
Proof.
  intros Hs Hcl Hz. assert (Ha := steady_alloc s Hs). destruct Hs as (((_ & Hx) & _) & _).
  destruct (c_closing _ Hx Hcl Hz) as [|[]]; [done|congruence].
Qed.
Lemma steady_given_up s : steady s → t_forced s = true → t_uv_closing s = true.
Proof.
  intros Hs Hf. assert (Ha := steady_alloc s Hs). destruct Hs as (((_ & Hx) & _) & _).
  destruct (c_given_up _ Hx Hf) as [|[[] _]]; [done|congruence].
Qed.
Lemma steady_progress k s : steady s → steady (progress k s).
Proof.
  intros Hs. pose proof Hs as (((Hc & Hx) & Hw & Hf) & Hfin & Ha).
  assert (H : t_uv_closing s = true ∨ t_fin s = None ∨ t_queue s = []).
  { destruct (t_forced s) eqn:E; [left; by apply steady_given_up|]. destruct (t_fin s) as [w|] eqn:E'; [|by right; left].
    right; right. by apply (c_fin _ _ Hc w E'). }
  destruct (core_progress k s [] Hc H) as [Hc' _]. unfold progress in *. destruct (t_uv_closing s) eqn:Hu; [done|].
  split; [|done]. split; [split; [done|by destruct Hx; split]|]. split; [|done].
  intros H1 H2. destruct (Hw H1 H2); [left|by right]. cbn. by rewrite send_nil.
Qed.

(** A request that failed: the transport is given up, and the request is gone. *)
Lemma shutdown_queue f s : (shutdownAndClose (upd_queue f s)).2 = upd_queue f (shutdownAndClose s).2.
Proof.
  destruct s as [? ? ? ? ? o]. unfold shutdownAndClose, stopReading, closeExternalHandle, uv_read_stop, bind, gets, modify, ret, when_. cbn.
  destruct o; cbn; [|done]. by destruct t_reading, t_uv_closing.
Qed.
Lemma given_up_request x n q' s :
  given_up x (upd_wbs (λ m, m - Nat.min n m)%nat (upd_queue (λ _, q') s)) = upd_queue (λ _, q') (given_up x s).
Proof. by destruct s. Qed.
Lemma forced_request x n q' s : t_allocating s = false →
  (forceClose x (upd_wbs (λ m, m - Nat.min n m)%nat (upd_queue (λ _, q') s))).2 = upd_queue (λ _, q') (forceClose x s).2.
Proof.
  intros Ha. rewrite !forceClose_eq, given_up_request. cbn. rewrite Ha. apply shutdown_queue.
Qed.
Lemma steady_pop q' s x : steady s → t_queue s = x :: q' → t_forced s = true → steady (upd_queue (λ _, q') s).
Proof.
  intros Hs Hq Hff. assert (Hu := steady_given_up s Hs Hff). destruct Hs as (((Hc & Hx) & Hw & Hf) & Hfin & Ha).
  assert (Hcl := c_forced _ _ Hc Hff). split; [|done]. apply inv_closing; [|destruct Hx; by split|done|done].
  destruct Hc. split; try done; cbn; try congruence.
  - by rewrite Hu in *.
  - rewrite Hq in c_reqs. by inversion c_reqs.
  - intros w Hw'. destruct (c_fin w Hw') as (? & ? & ?). split_and!; try done. congruence.
Qed.

Lemma shutdown_keeps_queue s : t_queue (shutdownAndClose s).2 = t_queue s.
Proof.
  destruct s as [? ? ? ? ? o]. unfold shutdownAndClose, stopReading, closeExternalHandle, uv_read_stop, bind, gets, modify, ret, when_. cbn.
  destruct o; cbn; [|done]. by destruct t_reading, t_uv_closing.
Qed.
Lemma shutdown_ok s : (shutdownAndClose s).1 = Ok tt.
Proof.
  destruct s as [? ? ? ? ? o]. unfold shutdownAndClose, stopReading, closeExternalHandle, uv_read_stop, bind, gets, modify, ret, when_. cbn.
  destruct o; cbn; [|done]. by destruct t_reading, t_uv_closing.
Qed.
Lemma forceClose_ok x s : (forceClose x s).1 = Ok tt.
Proof. rewrite forceClose_eq. destruct (t_allocating s); [done|apply shutdown_ok]. Qed.
Lemma steady_wbs f s : steady s → t_forced s = true → steady (upd_wbs f s).
Proof.
  intros Hs Hff. assert (Hu := steady_given_up s Hs Hff). destruct Hs as (((Hc & [Hx _ _]) & Hw & Hf) & Hfin & Ha).
  assert (Hcl := c_forced _ _ Hc Hff). split; [|split; [|done]; intros _ _ ?; cbn in *; congruence].
  apply inv_closing; [|split; [done|by left..]|done|done]. destruct Hc. split; try done; cbn; congruence.
Qed.
(** The state once a request is gone from the queue, however it ended. *)
Definition popped n q' s : stream := upd_wbs (λ m, m - Nat.min n m)%nat (upd_queue (λ _, q') s).
Lemma steady_popped n d q' s : steady s → t_queue s = (n, d) :: q' → t_forced s = true → steady (popped n q' s).
Proof. intros Hs Hq Hf. apply steady_wbs; [|done]. by eapply steady_pop. Qed.
Lemma core_popped n q' s : core [] s → t_queue s = (n, []) :: q' → t_forced s = false → core [] (popped n q' s).
Proof.
  intros Hc Hq Hff. assert (Hu : t_uv_closing s = false).
  { destruct (t_uv_closing s) eqn:E; [|done]. by rewrite (c_done _ _ Hc E Hff) in Hq. }
  assert (Hn : t_fin s = None).
  { destruct (t_fin s) as [w|] eqn:E; [|done]. destruct (c_fin _ _ Hc w E) as (_ & _ & H). by rewrite (H Hff) in Hq. }
  destruct Hc. unfold popped. split; try done; cbn; unfold moved in *; cbn; rewrite ?Hu, ?Hq in *; try done.
  - by inversion c_reqs.
  - intros _. rewrite c_wbs by done. cbn. lia.
  - congruence.
Qed.

Lemma wp_ok {A} (m : M stream A) a Q E s : (m s).1 = Ok a → wp m Q E s ↔ Q a (m s).2.
Proof. unfold wp. destruct (m s) as [r s']. by intros [= ->]. Qed.
Lemma steady_failed e n d q' s : steady s → t_queue s = (n, d) :: q' →
  wp (forceClose (Some e)) (λ _, steady) (λ _ _, False) (popped n q' s).
Proof.
  intros Hs Hq. assert (Hal := steady_alloc s Hs). pose proof Hs as (((Hc & _) & _) & _ & _).
  assert (H1 := wp_forceClose (Some e) s s [] Hc ltac:(done)). apply (wp_ok _ tt) in H1; [|apply forceClose_ok].
  assert (H3 : t_queue (forceClose (Some e) s).2 = (n, d) :: q') by (rewrite forceClose_eq, Hal, shutdown_keeps_queue; exact Hq).
  apply (wp_ok _ tt); [apply forceClose_ok|]. unfold popped. rewrite forced_request by exact Hal.
  destruct H1 as [Hst Hff]. eapply steady_pop; [by eapply stays_steady|exact H3|exact Hff].
Qed.

Lemma wp_onWritten ls st s : good ls → steady s → enabled (LWritten st) s = true →
  wp (onWritten ls st) (λ _, steady) (λ _ _, False) s.
Proof.
  intros Hls Hs Hen. assert (Hal := steady_alloc s Hs). pose proof Hs as (((Hc & Hx) & Hw & Hf) & Hfin & Hia).
  unfold onWritten. do 2 wp_step. cbn in Hen. destruct (t_queue s) as [|[n d] q'] eqn:Hq; [by wp_step|]. do 4 wp_step.
  change (upd_wbs _ _) with (popped n q' s).
  assert (Hend : ∀ s1, inv s1 → t_in_alloc s1 = false →
    wp (s' <- gets id ;; if decide (t_wbs s' = 0%nat) then if t_closing s' then shutdownAndClose else when_ (t_eof s') shutdownWrite else ret tt)
      (λ _, steady) (λ _ _, False) s1).
  { intros s1 Hi1 Ha1. pose proof Hi1 as ((Hc1 & Hx1) & Hw1 & Hf1). do 2 wp_step. cbn [id].
    assert (Hal1 : t_allocating s1 = false) by (by rewrite <-(c_alloc _ _ Hc1)).
    destruct (decide _) as [Hz|Hz]; [|wp_step; split_and!; try done; by intros _ ?].
    destruct (t_closing s1) eqn:Hcl1.
    - eapply wp_mono; [apply (wp_shutdownAndClose s1 s1); try done| |done].
      + destruct (t_forced s1) eqn:E; [by left|right]. apply sizes_nil; [apply Hc1|]. by rewrite <-(c_wbs _ _ Hc1 E).
      + intros [] s2 [Hi2 [Hg2 _]]. split_and!; [done| |injection (g_same _ _ Hg2); congruence].
        intros _ _ ?. assert (t_closing s2 = true) by by apply (g_closing _ _ Hg2). congruence.
    - destruct (t_eof s1) eqn:He1; cbn [when_]; [|apply wp_ret; split_and!; try done; intros ?; congruence].
      eapply wp_mono; [by apply wp_shutdownWrite| |done]. intros [] s2 (? & Hg2 & ?). split_and!; try done.
      injection (g_same _ _ Hg2). congruence. }
  destruct st as [e|].
  - do 2 wp_step. destruct (t_forced s) eqn:Hff.
    { assert (Hp := steady_popped _ _ _ _ Hs Hq Hff). wp_step; [|done]. by apply holds_steady; [apply holds_forceClose|]. }
    assert (Hu : t_uv_closing s = false).
    { destruct (t_uv_closing s) eqn:E; [|done]. by rewrite (c_done _ _ Hc E Hff) in Hq. }
    change (t_open (popped n q' s)) with (t_open s). rewrite (c_open _ _ Hc), Hu. cbn [when_ negb].
    by eapply steady_failed.
  - destruct d; [|done]. destruct (t_forced s) eqn:Hff.
    { assert (Hp := steady_popped _ _ _ _ Hs Hq Hff). apply wp_bind.
      eapply wp_mono; [by apply holds_steady; [apply holds_maybeResume|]| |done]. intros [] s1 Hs1. by apply Hend; apply Hs1. }
    assert (Hc1 := core_popped _ _ _ Hc Hq Hff). destruct (t_closing s) eqn:Hcl.
    + unfold maybeResumeProtocol. do 3 wp_step. cbn. rewrite Hcl. cbn [orb]. do 3 wp_step. cbn [id].
      change (t_closing (popped n q' s)) with (t_closing s). rewrite Hcl.
      assert (Hs1 : t_closing (popped n q' s) = true ∧ t_allocating (popped n q' s) = false ∧ t_in_alloc (popped n q' s) = false ∧
        flushes (popped n q' s) ∧ (t_reading (popped n q' s) = false ∨ deferred (popped n q' s)) ∧ t_forced (popped n q' s) = false).
      { split_and!; try done. by apply Hx. }
      revert Hc1 Hs1. generalize (popped n q' s). intros s1 Hc1 (Hcl1 & Hal1 & Hia1 & Hf1 & Hr1 & Hff1).
      destruct (decide _) as [Hz|Hz].
      * eapply wp_mono; [apply (wp_shutdownAndClose s1 s1); try done| |done].
        { right. apply sizes_nil; [apply Hc1|]. by rewrite <-(c_wbs _ _ Hc1 Hff1). }
        intros [] s2 [Hi2 [Hg2 _]]. split_and!; [done| |injection (g_same _ _ Hg2); congruence].
        intros _ _ ?. assert (t_closing s2 = true) by by apply (g_closing _ _ Hg2). congruence.
      * wp_step. split; [|split; [by intros _ ?|done]]. apply inv_closing; try done. split; try done. intros; congruence.
    + apply wp_bind. eapply wp_mono; [apply (wp_maybeResume ls (popped n q' s)); try done|  |done].
      * split; intros H; cbn in H; congruence.
      * intros [] s1 [Hi1 [Hg1 _]]. apply Hend; [done|]. injection (g_same _ _ Hg1). congruence.
Qed.

(** ** Closing *)
Lemma steady_onClosed s : steady s → enabled LClosed s = true → steady (onClosed s).2.
Proof.
  intros (((Hc & Hx) & Hw & Hf) & Hfin & Ha) Hen. cbn in Hen.
  apply andb_true_iff in Hen as [[Hu Hl%negb_true_iff]%andb_true_iff _].
  assert (Hc1 : core [] (upd_conn_lost (λ _, true) s)).
  { destruct Hc. rewrite Hl in c_once. split; try done. cbn. lia. }
  assert (Hc2 : ∀ x, core [] (upd_log (λ l, l ++ [EvLost x]) (upd_conn_lost (λ _, true) s))).
  { intros x. destruct Hc. rewrite Hl in c_once. split; try done; cbn; rewrite ?omap_app, ?phase_snoc; cbn; rewrite ?app_nil_r; try done.
    rewrite length_app. cbn. lia. }
  unfold onClosed, bind, modify, gets, when_, id. cbn. destruct (t_loop_closed s); cbn; (split; [|done]; split; [split; [done|]|done]; by destruct Hx; split).
Qed.
Lemma closeFromLoop_eq s : t_in_alloc s = false → t_uv_closing s = false → t_reading s = t_uv_reading s →
  closeFromLoop s = (Ok tt, shut (upd_closing (λ _, true) (upd_forced (λ _, true) s))).
Proof.
  intros Ha Hu Hr. unfold closeFromLoop, stopReading, closeExternalHandle, uv_read_stop, shut, touch, bind, gets, modify, ret, when_.
  destruct s. cbn in *. subst. by destruct t_uv_reading, t_misused; vm_compute.
Qed.
Lemma core_dropped s : core [] s → core [] (upd_closing (λ _, true) (upd_forced (λ _, true) s)).
Proof.
  intros []. split; try done; cbn.
  - intros Hu. split; [done|]. by apply c_uv.
  - intros w Hw. destruct (c_fin w Hw) as (? & ? & _). done.
Qed.
Lemma core_loop_closed s : core [] s → t_closing s = true → core [] (upd_pending (λ _, []) (upd_flush_queued (λ _, false) (upd_loop_closed (λ _, true) s))).
Proof.
  intros [] Hcl. split; try done; cbn; [|lia]. intros Hff. destruct (c_all Hff) as (tail & Ha & _).
  exists (concat (t_pending s) ++ tail). by rewrite Ha.
Qed.
Lemma steady_loop_close s : steady s → steady (loop_close s).2.
Proof.
  intros Hs. pose proof Hs as (((Hc & Hx) & Hw & Hf) & Hfin & Ha).
  unfold loop_close, discardPending, bind, modify, gets. cbn. destruct (t_uv_closing s) eqn:Hu.
  - destruct (c_uv _ _ Hc Hu) as [Hcl _]. cbn. split; [|done]. apply inv_closing; [by apply core_loop_closed|by destruct Hx; split|by intros []|done].
  - rewrite closeFromLoop_eq; [|done|done|by apply Hc]. cbn [snd].
    set (s1 := upd_closing (λ _, true) (upd_forced (λ _, true) s)).
    assert (Hc1 : core [] s1) by by apply core_dropped. apply (core_loop_closed s1) in Hc1; [|done].
    change (upd_closing _ _) with (upd_pending (λ _, []) (upd_flush_queued (λ _, false) (upd_loop_closed (λ _, true) s1))).
    assert (Hs1 : t_closing s1 = true ∧ t_forced s1 = true ∧ t_in_alloc s1 = false) by done. revert Hc1 Hs1. generalize s1.
    clear. intros s Hc (Hcl & Hff & Ha). set (s2 := upd_pending _ _) in *.
    assert (Hs2 : t_closing s2 = true ∧ t_forced s2 = true ∧ t_in_alloc s2 = false ∧ t_pending s2 = []) by done. revert Hc Hs2. generalize s2.
    clear. intros s Hc (Hcl & Hff & Ha & Hp). split; [|split; [by intros _ _ ?; cbn in *; congruence|done]].
    apply inv_closing; [by apply core_shut; [..|left]| |by intros []|done]. split; cbn; auto.
Qed.

(** ** Every state a transport gets to *)
Lemma steady_start high low run : steady (fresh_stream high low run).
Proof.
  split; [|split; [by intros ?|done]]. split_and!; [|by split|by intros ?|by intros []].
  split; try done; cbn; try (by intros []); try (intros; set_solver).
  unfold pending_max. lia.
Qed.
Lemma steady_step s s' : steady s → step s s' → steady s'.
Proof.
  intros Hs [n l Hen]. assert (Hls := good_levels n).
  assert (Hwp : ∀ (m : M stream unit) E, wp m (λ _, steady) E s → (∀ e w, E e w → steady w) → steady (m s).2).
  { intros m E H HE. unfold wp in H. destruct (m s) as [[[]|e] w]; [done|by eapply HE]. }
  destruct l as [o| |k|st|o| |b|]; cbn [act].
  - apply (Hwp _ (λ _, steady)); [by apply keeps_steady; [apply keeps_op|]|done].
  - apply (Hwp _ (λ _ _, False)); [|by intros ? ? []]. unfold onFlush. do 2 wp_step. destruct Hs as (((Hc & Hx) & Hw & Hf) & Hfin & Ha).
    set (s1 := upd_flush_queued _ s). assert (Hc1 : core [] s1) by by destruct Hc; split.
    eapply wp_mono; [apply (wp_flushPending (levels n) s1 s1); try done; by destruct Hx; split| |done].
    intros [] s2 [[Hi2 [Hg2 Hf2]] _]. split_and!; [done|by apply Hf2|]. injection (g_same _ _ Hg2). congruence.
  - by apply steady_progress.
  - apply (Hwp _ (λ _ _, False)); [by apply wp_onWritten|by intros ? ? []].
  - apply (Hwp _ (λ _ _, False)); [by apply wp_read_event|by intros ? ? []].
  - by apply steady_onClosed.
  - destruct Hs as (((Hc & Hx) & Hw & Hf) & Hfin & Ha). split; [|done]. destruct Hc, Hx. split_and!; [..|done|done]; by split.
  - by apply steady_loop_close.
Qed.
Lemma reachable_steady s : reachable s → steady s.
Proof. induction 1; [apply steady_start|by eapply steady_step]. Qed.

End run.
