(* ===== verification/StreamEnd.v ===== *)
(** * What the stream transport promises (zig/transport.zig)

    Bytes go out in order, a close or a half-close comes after what was written before it,
    nothing waits for ever, libuv's handle is used only when it may be, and a transport that
    closes gets to [connection_lost] by libuv's doing alone.  Then a demonstration, and what
    Python code meets that calls the transport from inside its callbacks. *)
From S2P Require Import Prelude Stream StreamInv StreamRun.

Section ending.
Context `{Env : TransportEnv}.
Implicit Types (s : stream) (ls : list runner).

(** ** What follows *)

Lemma wire_prefix s : reachable s → t_wire s `prefix_of` t_accepted s.
Proof. intros (((Hc & _) & _) & _)%reachable_steady. etrans; [|by apply (c_order _ _ Hc)]. by eexists. Qed.


(** C6: All that was written before [write_eof] or [close] is sent before the stream is shut down
    or closed, unless the transport was given up; and nothing is sent once it is shut down. *)
Theorem end_after_data s k : reachable s →
  (∀ w, t_fin s = Some w → t_wire s = w ∧ t_eof s = true) ∧
  (t_forced s = false →
   (EvEof k ∈ t_log s ∧ is_Some (t_fin s)) ∨ (EvClosing k ∈ t_log s ∧ t_uv_closing s = true) →
   take k (t_accepted s) `prefix_of` t_wire s).
Proof.
  intros Hr. pose proof (wire_prefix s Hr) as Hp. pose proof (reachable_steady s Hr) as (((Hc & _) & _) & _). split.
  - intros w Hw. by destruct (c_fin _ _ Hc w Hw) as (? & -> & _).
  - intros Hf Hk.
    assert (Hq : t_queue s = [] ∧ (k ∈ omap eof_of (t_log s) ∨ k ∈ omap closing_of (t_log s))).
    { destruct Hk as [[Hk [w Hw]]|[Hk Hu]].
      - split; [by apply (c_fin _ _ Hc w Hw)|left]. apply list_elem_of_omap. by exists (EvEof k).
      - split; [by apply (c_done _ _ Hc)|right]. apply list_elem_of_omap. by exists (EvClosing k). }
    destruct Hq as [Hq Hk']. assert (Hl := c_marks _ _ Hc k Hk' Hf). unfold moved in Hl. rewrite Hq, unsent_nil, app_nil_r in Hl.
    destruct Hp as [x ->]. rewrite take_app_le by done. apply prefix_take.
Qed.

(** The callbacks of flow control alternate, starting with [pause_writing], the last one made
    being the protocol's state; and [connection_lost] is scheduled at most once, when the handle
    is closed. *)
Theorem callbacks_in_turn s : reachable s →
  phase (t_log s) = Some (t_paused s) ∧
  (length (omap lost_of (t_log s)) ≤ 1)%nat ∧
  (omap lost_of (t_log s) ≠ [] → t_conn_lost s = true ∧ t_uv_closing s = true).
Proof.
  intros (((Hc & _) & _) & _)%reachable_steady. assert (Ho := c_once _ _ Hc). assert (Hl := c_lost _ _ Hc).
  split_and!; [apply Hc|by destruct (t_conn_lost s); lia|]. intros H. destruct (t_conn_lost s); [auto|]. by destruct (omap lost_of (t_log s)); cbn in *; [|lia].
Qed.

(** C21: libuv's handle is never stopped or closed inside its allocation callback, whatever
    [get_buffer] does to the transport; what it asked for is done right after. *)
Theorem handle_used_safely s : reachable s →
  t_misused s = false ∧ t_read_pending s = false ∧
  (t_closing s = true → t_reading s = false ∧ t_uv_reading s = false).
Proof.
  intros Hs%reachable_steady. assert (Hp := steady_unread s Hs). pose proof Hs as (((Hc & Hx) & _) & _).
  split_and!; [apply Hc|done|]. intros Hcl. rewrite <-(c_reading _ _ Hc). destruct (c_stopped _ Hx Hcl) as [|[_ ?]]; [done|congruence].
Qed.

(** C35: The batch fits the arrays it is kept in, reads stay within their bounds, and the size of the
    write buffer is that of libuv's outstanding requests. *)
Theorem sizes_bounded s : reachable s →
  (length (t_pending s) ≤ pending_max)%nat ∧ read_size_min ≤ t_read_size s ≤ read_size_max ∧
  (t_forced s = false → t_wbs s = sum_list (fst <$> t_queue s) ∧ (bufferedBytes s ≤ t_wbs s + length (concat (t_pending s)))%nat).
Proof.
  intros (((Hc & _) & _) & _)%reachable_steady. split_and!; [apply Hc|apply Hc|apply Hc|].
  intros Hf. split; [by apply Hc|]. unfold bufferedBytes, pending_size. case_decide as Hz; [lia|].
  rewrite (c_wbs _ _ Hc Hf). assert (Hq := c_reqs _ _ Hc).
  assert (length (unsent (t_queue s)) ≤ sum_list (fst <$> t_queue s))%nat; [|lia].
  induction Hq as [|[n d] q [H _] _ IH]; [done|]. change (unsent ((n, d) :: q)) with (d ++ unsent q).
  rewrite length_app. cbn in *. lia.
Qed.

(** C20: Nothing is left to wait for ever: a batch has its flush coming, bytes that count as buffered
    are in libuv's hands, a paused protocol has bytes on their way, and a transport that closes
    or half-closes with nothing left to send has done so. *)
Theorem nothing_waits s : reachable s →
  (t_pending s ≠ [] → t_flush_queued s = true) ∧
  (t_forced s = false → t_wbs s ≠ 0%nat → t_queue s ≠ []) ∧
  (t_paused s = true → t_closing s = false → t_queue s ≠ [] ∨ t_flush_queued s = true) ∧
  (t_closing s = true → t_wbs s = 0%nat → t_uv_closing s = true) ∧
  (t_eof s = true → t_closing s = false → t_wbs s = 0%nat → is_Some (t_fin s)).
Proof.
  intros Hs%reachable_steady. pose proof Hs as (((Hc & Hx) & Hw & Hf) & Hfin & _). split_and!.
  - exact Hf.
  - intros Hff Hz Hq. apply Hz. by rewrite (c_wbs _ _ Hc Hff), Hq.
  - intros Hp Hcl. destruct (Hw Hp Hcl); [by left|right; by apply Hf].
  - by apply steady_closed.
  - intros. by apply Hfin.
Qed.

(** ** Closing

    The steps libuv makes by itself: the socket takes bytes, requests complete, the handle is
    closed. *)
Definition of_libuv (l : label) : Prop := match l with LSent _ | LWritten _ | LClosed => True | _ => False end.
Definition libuv_step s s' : Prop := ∃ n l, enabled l s = true ∧ of_libuv l ∧ s' = (act n l s).2.
Lemma libuv_step_step s s' : libuv_step s s' → step s s'.
Proof. intros (n & l & He & _ & ->). by constructor. Qed.
Lemma steady_libuv s s' : steady s → rtc libuv_step s s' → steady s'.
Proof. intros Hs H. induction H; [done|]. apply IHrtc. by eapply steady_step, libuv_step_step. Qed.

(** What closing the handle leaves alone. *)
Definition kept s := (t_queue s, t_wire s, t_conn_lost s, t_closing s, t_loop_closed s, t_forced s).
Lemma shutdown_kept s : kept (shutdownAndClose s).2 = kept s.
Proof.
  destruct s as [? ? ? ? ? o]. unfold shutdownAndClose, stopReading, closeExternalHandle, uv_read_stop, bind, gets, modify, ret, when_. cbn.
  destruct o; cbn; [|done]. by destruct t_reading, t_uv_closing.
Qed.

(** In a transport that closes a request that completes just leaves the queue. *)
Lemma written_closing ls n q' s : t_closing s = true → t_queue s = (n, []) :: q' →
  kept (onWritten ls None s).2 = (q', t_wire s, t_conn_lost s, true, t_loop_closed s, t_forced s).
Proof.
  intros Hcl Hq. unfold onWritten, maybeResumeProtocol, bind, gets, modify, ret, id. rewrite Hq. cbn. rewrite Hcl. cbn.
  destruct (decide _); [|unfold kept; cbn; by rewrite Hcl].
  rewrite Hcl, shutdown_kept. unfold kept. cbn. by rewrite Hcl.
Qed.
Lemma failed_closed ls n d q' e s : t_open s = false → t_queue s = (n, d) :: q' →
  (onWritten ls (Some e) s).2 = popped n q' s.
Proof. intros Ho Hq. unfold onWritten, bind, gets, modify, ret, when_. rewrite Hq. cbn. by rewrite Ho. Qed.

Definition cancelled_write : exn := oserror 125 "operation canceled".
Lemma drain_sent q s : steady s → t_closing s = true → t_queue s = q → Forall (λ r, r.2 = []) q →
  ∃ s', rtc libuv_step s s' ∧ kept s' = ([], t_wire s, t_conn_lost s, true, t_loop_closed s, t_forced s).
Proof.
  intros Hs Hcl Hq Hall. revert s Hs Hcl Hq. induction Hall as [|[n d] q Hd _ IH]; intros s Hs Hcl Hq.
  - exists s. split; [done|]. unfold kept. by rewrite Hq, Hcl.
  - cbn in Hd. subst d. assert (Hk := written_closing (levels 0) n q s Hcl Hq).
    assert (H1 : libuv_step s (onWritten (levels 0) None s).2).
    { exists 0%nat, (LWritten None). split_and!; [|done|done]. cbn. by rewrite Hq. }
    assert (Hs1 := steady_step _ _ Hs (libuv_step_step _ _ H1)). revert H1 Hs1 Hk. generalize (onWritten (levels 0) None s).2.
    intros s1 H1 Hs1 [= Hq1 Hw1 Hl1 Hcl1 Hlc1 Hf1]. destruct (IH s1 Hs1 Hcl1 Hq1) as (s' & Hr & Hk).
    exists s'. split; [by eapply rtc_l|]. by rewrite Hk, Hw1, Hl1, Hlc1, Hf1.
Qed.
Lemma drain_closed q s : steady s → t_uv_closing s = true → t_queue s = q →
  ∃ s', rtc libuv_step s s' ∧ t_uv_closing s' = true ∧ kept s' = ([], t_wire s, t_conn_lost s, t_closing s, t_loop_closed s, t_forced s).
Proof.
  revert s. induction q as [|[n d] q IH]; intros s Hs Hu Hq.
  - exists s. split; [done|]. unfold kept. by rewrite Hq.
  - assert (Ho : t_open s = false) by (destruct Hs as (((Hc & _) & _) & _); by rewrite (c_open _ _ Hc), Hu).
    assert (H1 : libuv_step s (popped n q s)).
    { exists 0%nat, (LWritten (Some cancelled_write)). split_and!; [|done|].
      - cbn. by rewrite Hq.
      - cbn [act]. by erewrite failed_closed. }
    destruct (IH (popped n q s)) as (s' & Hr & Hu' & Hk); [by eapply steady_step, libuv_step_step|done|done|].
    exists s'. split; [by eapply rtc_l|done].
Qed.
Lemma send_all q : Forall (λ r, r.2 = []) (send (length (unsent q)) q).
Proof.
  enough (H : ∀ k, (length (unsent q) ≤ k)%nat → Forall (λ r : nat * data, r.2 = []) (send k q)) by by apply H.
  induction q as [|[n d] q IH]; intros k Hk; [constructor|]. change (unsent ((n, d) :: q)) with (d ++ unsent q) in Hk.
  rewrite length_app in Hk. constructor; [apply drop_ge; lia|apply IH; lia].
Qed.

(** C19: A transport that closes is closed by libuv's steps alone, however slow the socket; what it
    has handed to libuv is sent first, unless it was given up, and [connection_lost] is
    scheduled, unless the loop is closed. *)
Theorem close_completes s : reachable s → t_closing s = true → t_conn_lost s = false →
  ∃ s', rtc libuv_step s s' ∧ t_conn_lost s' = true ∧
    (t_loop_closed s = false → omap lost_of (t_log s') ≠ []) ∧
    (t_forced s = false → t_forced s' = false ∧ t_wire s' = t_wire s ++ unsent (t_queue s)).
Proof.
  intros Hs%reachable_steady Hcl Hl.
  assert (Hlast : ∀ s1, rtc libuv_step s s1 → t_uv_closing s1 = true → t_queue s1 = [] → t_conn_lost s1 = false →
    t_loop_closed s1 = t_loop_closed s → t_forced s1 = t_forced s →
    (t_forced s = false → t_wire s1 = t_wire s ++ unsent (t_queue s)) →
    ∃ s', rtc libuv_step s s' ∧ t_conn_lost s' = true ∧ (t_loop_closed s = false → omap lost_of (t_log s') ≠ []) ∧
      (t_forced s = false → t_forced s' = false ∧ t_wire s' = t_wire s ++ unsent (t_queue s))).
  { intros s1 Hr Hu Hq Hl1 Hlc Hf Hw. exists (onClosed s1).2. split.
    - eapply rtc_r; [done|]. exists 0%nat, LClosed. split_and!; [|done|done]. cbn. by rewrite Hu, Hl1, Hq.
    - unfold onClosed, bind, modify, gets, when_, id, ret. cbn. rewrite Hlc.
      destruct (t_loop_closed s); cbn; (split_and!; [done| |intros; split; [congruence|auto]]); [done|].
      intros _. rewrite omap_app. cbn. by destruct (omap lost_of (t_log s1)). }
  destruct (t_uv_closing s) eqn:Hu.
  - destruct (drain_closed (t_queue s) s) as (s1 & Hr & Hu1 & [= Hq1 Hw1 Hl1 _ Hlc1 Hf1]); [done..|].
    apply (Hlast s1); try congruence; try done. intros Hf. destruct Hs as (((Hc & _) & _) & _).
    by rewrite (c_done _ _ Hc Hu Hf), unsent_nil, app_nil_r.
  - assert (Hf : t_forced s = false) by (destruct (t_forced s) eqn:E; [by rewrite (steady_given_up s Hs E) in Hu|done]).
    set (k := length (unsent (t_queue s))).
    assert (H0 : libuv_step s (progress k s)) by (exists 0%nat, (LSent k); split_and!; [cbn; by rewrite Hu|done|done]).
    assert (Hs0 := steady_step _ _ Hs (libuv_step_step _ _ H0)).
    assert (Hk : kept (progress k s) = (send k (t_queue s), t_wire s ++ unsent (t_queue s), false, true, t_loop_closed s, false)).
    { unfold kept, progress. rewrite Hu. cbn. by rewrite Hl, Hcl, Hf, take_ge. }
    revert H0 Hs0 Hk. generalize (progress k s). intros s0 H0 Hs0 [= Hq0 Hw0 Hl0 Hcl0 Hlc0 Hf0].
    destruct (drain_sent (send k (t_queue s)) s0) as (s1 & Hr & [= Hq1 Hw1 Hl1 Hcl1 Hlc1 Hf1]); [done..|apply send_all|].
    assert (Hs1 := steady_libuv _ _ Hs0 Hr).
    apply (Hlast s1); try congruence; [by eapply rtc_l|].
    apply steady_closed; [done..|]. destruct Hs1 as (((Hc & _) & _) & _). rewrite (c_wbs _ _ Hc), Hq1; congruence || done.
Qed.
End ending.

(** ** The marks *)

(** Marks that are accepted fit a signed word, the low one at or below the high one; without
    arguments they are 64 and 16 KiB, and a missing mark is a quarter or four times the other. *)
Lemma limits_sound high low h l : parse_limits high low = Ok (h, l) →
  (∀ n, high = Some n ∨ low = Some n → n ≤ max_isize) →
  (l ≤ h)%nat ∧ Z.of_nat h ≤ max_isize ∧
  (∀ n, high = Some n → Z.of_nat h = n) ∧ (∀ n, low = Some n → Z.of_nat l = n).
Proof.
  unfold parse_limits, negative, max_isize. intros H Hb.
  assert (Hd : Z.of_nat default_high_water = 65536) by by vm_compute. rewrite Hd in H. clear Hd.
  destruct high as [n|], low as [m|]; repeat (case_match; try done); simplify_eq;
    try (assert (n ≤ 2 ^ 63 - 1) by auto); try (assert (m ≤ 2 ^ 63 - 1) by auto);
    repeat match goal with H : (_ <? _) = false |- _ => apply Z.ltb_ge in H end;
    (split_and!; [| |intros ? [=]; subst|intros ? [=]; subst]); try done; try lia.
  pose proof (Z.mul_div_le (2 ^ 63 - 1) 4 ltac:(lia)). lia.
Qed.

(** ** Running a transport *)
Definition perform `{Env : TransportEnv} (ls : list label) (s : stream) : stream := foldl (λ s l, (act 3 l s).2) s ls.
Fixpoint possible `{Env : TransportEnv} (ls : list label) (s : stream) : bool :=
  match ls with [] => true | l :: ls' => enabled l s && possible ls' (act 3 l s).2 end.
Lemma perform_reachable `{Env : TransportEnv} ls s : reachable s → possible ls s = true → reachable (perform ls s).
Proof.
  revert s. induction ls as [|l ls IH]; intros s Hs; [done|]. cbn. intros [He Hp]%andb_true_iff.
  apply IH; [|done]. eapply reach_step; [done|]. by constructor.
Qed.

(** Programs that answer each callback with some calls; [got] is what their methods return. *)
Definition answers (f : callback → list sop) : callback → nat → list sop * res bool := λ c _, (f c, Ok true).
Definition ba : Byte.byte := Byte.x61.
Definition bb : Byte.byte := Byte.x62.
Definition bc : Byte.byte := Byte.x63.
Definition bx : Byte.byte := Byte.x78.

(** A socket that takes a byte at a time, and a protocol that does nothing. *)
Definition slow_socket : TransportEnv := {|
  buffered := false; write_pipe := false; uv_try_write := λ _ _, TryWrote 1; uv_write := λ _, None; uv_write_now := λ _, 0%nat;
  uv_read_start := λ _, None; allocates := λ _, true; python := answers (λ _, []) |}.
(** Two bytes written and flushed, and a third waiting in the batch. *)
Definition halfway : stream :=
  perform (Env := slow_socket) [LRunning true; LOp SStartReading; LOp (SWrite [ba; bb]); LFlush; LOp (SWrite [bc])] (fresh_stream 1 0 false).
(** The same, closed: the third byte is queued behind the second. *)
Definition half_closed : stream := perform (Env := slow_socket) [LOp SWriteEof; LSent 2; LWritten None; LWritten None] halfway.
Definition closing_stream : stream := perform (Env := slow_socket) [LOp SClose] halfway.

Lemma halfway_reachable : reachable (Env := slow_socket) halfway.
Proof. apply (perform_reachable (Env := slow_socket)); [apply reach_start|by vm_compute]. Qed.
Lemma half_closed_reachable : reachable (Env := slow_socket) half_closed.
Proof. apply (perform_reachable (Env := slow_socket)); [apply halfway_reachable|by vm_compute]. Qed.
Lemma closing_reachable : reachable (Env := slow_socket) closing_stream.
Proof. apply (perform_reachable (Env := slow_socket)); [apply halfway_reachable|by vm_compute]. Qed.

Lemma close_completes_witness :
  let s := closing_stream in
  unsent (t_queue s) = [bb; bc] ∧
  ∃ s', rtc (libuv_step (Env := slow_socket)) s s' ∧ t_conn_lost s' = true ∧
    (t_loop_closed s = false → omap lost_of (t_log s') ≠ []) ∧
    (t_forced s = false → t_forced s' = false ∧ t_wire s' = t_wire s ++ unsent (t_queue s)).
Proof. cbn zeta. split; [by vm_compute|]. apply (close_completes (Env := slow_socket)); [apply closing_reachable|by vm_compute..]. Defined.

(** ** Calling the transport from its callbacks *)

(** A protocol that writes when it may again: [resume_writing] comes from inside the flush
    [write_eof] makes, the write is accepted, and the flush that is to send it finds the
    transport half-closed - and gives the whole connection up. *)
Definition writes_on_resume : TransportEnv := {|
  buffered := false; write_pipe := false; uv_try_write := λ _ _, TryWrote 9; uv_write := λ _, None; uv_write_now := λ _, 0%nat;
  uv_read_start := λ _, None; allocates := λ _, true; python := answers (λ c, match c with CResume => [SWrite [bx]] | _ => [] end) |}.
Definition paused_batch : list label := [LRunning true; LOp (SWrite [ba]); LOp (SLimits (Some 0) (Some 0))].
Lemma write_eof_gives_up :
  let s := perform (Env := writes_on_resume) (paused_batch ++ [LOp SWriteEof; LFlush; LClosed]) (fresh_stream 9 9 false) in
  possible (Env := writes_on_resume) (paused_batch ++ [LOp SWriteEof; LFlush; LClosed]) (fresh_stream 9 9 false) = true ∧
  t_accepted s = [ba; bx] ∧ t_wire s = [ba] ∧ t_forced s = true ∧
  omap lost_of (t_log s) = [Some (mk RuntimeError "Cannot write after write_eof()")].
Proof. by vm_compute. Qed.
(** From inside [close] the write is accepted and never sent, and nobody is told. *)
Lemma close_loses_write :
  let s := perform (Env := writes_on_resume) (paused_batch ++ [LOp SClose; LFlush; LClosed]) (fresh_stream 9 9 false) in
  possible (Env := writes_on_resume) (paused_batch ++ [LOp SClose; LFlush; LClosed]) (fresh_stream 9 9 false) = true ∧
  t_accepted s = [ba; bx] ∧ t_wire s = [ba] ∧ t_forced s = false ∧ omap lost_of (t_log s) = [None].
Proof. by vm_compute. Qed.

(** [writelines] on a batch that fills up flushes in the middle: what [pause_writing] writes
    comes out between two of its buffers. *)
Definition writes_on_pause : TransportEnv := {|
  buffered := false; write_pipe := false; uv_try_write := λ _ _, TryAgain; uv_write := λ _, None; uv_write_now := λ _, 0%nat;
  uv_read_start := λ _, None; allocates := λ _, true; python := answers (λ c, match c with CPause => [SWrite [bx]] | _ => [] end) |}.
Lemma writelines_is_split :
  let s := perform (Env := writes_on_pause)
    [LRunning true; LOp (SWrite [ba]); LOp (SWrite [ba]); LOp (SWrite [ba]); LOp (SWritelines [[bb]; [bc]]); LFlush; LSent 9] (fresh_stream 0 0 false) in
  t_wire s = [ba; ba; ba; bb; bx; bc].
Proof. by vm_compute. Qed.

(** [writelines] of more buffers than the batch has room for goes to the socket at once; when
    the rest cannot be queued it raises, and the transport carries on with the next write after
    the part that was sent. *)
Definition no_room : TransportEnv := {|
  buffered := false; write_pipe := false; uv_try_write := λ _ _, TryWrote 1; uv_write := λ _, None; uv_write_now := λ _, 0%nat;
  uv_read_start := λ _, None; allocates := λ t, negb (Nat.eqb t 2); python := answers (λ _, []) |}.
Lemma writelines_fails_midway :
  let s := perform (Env := no_room) [LRunning true] (fresh_stream 9 9 false) in
  let '(r, s1) := writelines (Env := no_room) (levels (Env := no_room) 3) [[ba]; [bb]; [bb]; [bb]; [bb]] s in
  r = Raise no_memory ∧ t_wire s1 = [ba] ∧ t_closing s1 = false ∧
  t_wire (perform (Env := no_room) [LOp (SWrite [bc]); LFlush] s1) = [ba; bc].
Proof. by vm_compute. Qed.

(** A protocol that pauses and resumes reading in [get_buffer]: the pause is put off until the
    callback is over, the resumption finds the transport still reading, and so it stops. *)
Definition toggles : TransportEnv := {|
  buffered := true; write_pipe := false; uv_try_write := λ _ _, TryAgain; uv_write := λ _, None; uv_write_now := λ _, 0%nat;
  uv_read_start := λ _, None; allocates := λ _, true;
  python := answers (λ c, match c with CGetBuffer => [SPauseReading; SResumeReading] | _ => [] end) |}.
Lemma resume_is_forgotten :
  let s := perform (Env := toggles) [LRunning true; LOp SStartReading; LRead (RData [ba])] (fresh_stream 9 9 false) in
  t_reading s = false ∧ t_uv_reading s = false ∧ t_closing s = false.
Proof. by vm_compute. Qed.

Lemma end_after_data_witness :
  let s := half_closed in
  t_fin s = Some [ba; bb; bc] ∧
  (∀ w, t_fin s = Some w → t_wire s = w ∧ t_eof s = true) ∧
  (t_forced s = false →
   (EvEof 3 ∈ t_log s ∧ is_Some (t_fin s)) ∨ (EvClosing 3 ∈ t_log s ∧ t_uv_closing s = true) →
   take 3 (t_accepted s) `prefix_of` t_wire s).
Proof. cbn zeta. split; [by vm_compute|]. apply (end_after_data (Env := slow_socket)), half_closed_reachable. Defined.
Lemma callbacks_in_turn_witness :
  let s := halfway in
  t_paused s = false ∧ phase (t_log s) = Some (t_paused s) ∧ (length (omap lost_of (t_log s)) ≤ 1)%nat ∧
  (omap lost_of (t_log s) ≠ [] → t_conn_lost s = true ∧ t_uv_closing s = true).
Proof. cbn zeta. split; [by vm_compute|]. apply (callbacks_in_turn (Env := slow_socket)), halfway_reachable. Defined.
Definition reading_stream : stream := perform (Env := toggles) [LRunning true; LOp SStartReading; LRead (RData [ba])] (fresh_stream 9 9 false).
Lemma handle_used_safely_witness :
  let s := reading_stream in
  t_misused s = false ∧ t_read_pending s = false ∧ (t_closing s = true → t_reading s = false ∧ t_uv_reading s = false).
Proof.
  apply (handle_used_safely (Env := toggles)), (perform_reachable (Env := toggles)); [apply reach_start|by vm_compute].
Defined.
Lemma sizes_bounded_witness :
  let s := halfway in
  t_wbs s = 1%nat ∧ (length (t_pending s) ≤ pending_max)%nat ∧ read_size_min ≤ t_read_size s ≤ read_size_max ∧
  (t_forced s = false → t_wbs s = sum_list (fst <$> t_queue s) ∧ (bufferedBytes s ≤ t_wbs s + length (concat (t_pending s)))%nat).
Proof. cbn zeta. split; [by vm_compute|]. apply (sizes_bounded (Env := slow_socket)), halfway_reachable. Defined.
Lemma nothing_waits_witness :
  let s := halfway in
  t_pending s = [[bc]] ∧
  (t_pending s ≠ [] → t_flush_queued s = true) ∧
  (t_forced s = false → t_wbs s ≠ 0%nat → t_queue s ≠ []) ∧
  (t_paused s = true → t_closing s = false → t_queue s ≠ [] ∨ t_flush_queued s = true) ∧
  (t_closing s = true → t_wbs s = 0%nat → t_uv_closing s = true) ∧
  (t_eof s = true → t_closing s = false → t_wbs s = 0%nat → is_Some (t_fin s)).
Proof. cbn zeta. split; [by vm_compute|]. apply (nothing_waits (Env := slow_socket)), halfway_reachable. Defined.
