(* ===== verification/Poller.v ===== *)
(** * The descriptor poller (zig/poller.zig)

    [add_reader], [add_writer] and their removal over one libuv poll handle per descriptor,
    shared by its two sides, and the callback that schedules what was registered.  Proved:
    libuv polls exactly what is registered, also after an error; only what is registered is
    scheduled, and never again once it is removed; and the poller is the table of watchers the
    connection layer works with (World). *)
From S2P Require Import Prelude World.

(** ** The state *)
Definition READABLE : Z := 1.
Definition WRITABLE : Z := 2.

(** A poll handle: the handles of the two sides, the events that were asked for, and the events
    libuv polls for. *)
Record poller := Poller { p_reader : option nat; p_writer : option nat; p_events : Z; p_polled : Z }.
Definition side (write : bool) (p : poller) : option nat := if write then p_writer p else p_reader p.
Definition with_side (write : bool) (h : option nat) (p : poller) : poller :=
  if write then Poller (p_reader p) h (p_events p) (p_polled p) else Poller h (p_writer p) (p_events p) (p_polled p).
Definition with_events (e : Z) (p : poller) : poller := Poller (p_reader p) (p_writer p) e (p_polled p).
Definition with_polled (e : Z) (p : poller) : poller := Poller (p_reader p) (p_writer p) (p_events p) e.

(** The loop as the poller sees it: the poll handles by descriptor, the cancelled handles, what
    it put on the ready queue, handles made so far, poll handles that are open, and whether the
    idle handle is active, which runs what is ready.  Whether libuv has ever refused to poll is
    remembered. *)
Record pstate := PState {
  q_pollers : gmap nat poller; q_cancelled : gset nat; q_ready : list nat; q_made : nat; q_open : nat;
  q_closed : bool; q_refused : bool; q_asked : nat; q_idle : bool }.
Definition upd_pollers (f : gmap nat poller → gmap nat poller) (s : pstate) : pstate :=
  PState (f (q_pollers s)) (q_cancelled s) (q_ready s) (q_made s) (q_open s) (q_closed s) (q_refused s) (q_asked s) (q_idle s).
Definition upd_cancelled (f : gset nat → gset nat) (s : pstate) : pstate :=
  PState (q_pollers s) (f (q_cancelled s)) (q_ready s) (q_made s) (q_open s) (q_closed s) (q_refused s) (q_asked s) (q_idle s).
Definition upd_ready (f : list nat → list nat) (s : pstate) : pstate :=
  PState (q_pollers s) (q_cancelled s) (f (q_ready s)) (q_made s) (q_open s) (q_closed s) (q_refused s) (q_asked s) (q_idle s).
Definition upd_made (f : nat → nat) (s : pstate) : pstate :=
  PState (q_pollers s) (q_cancelled s) (q_ready s) (f (q_made s)) (q_open s) (q_closed s) (q_refused s) (q_asked s) (q_idle s).
Definition upd_open (f : nat → nat) (s : pstate) : pstate :=
  PState (q_pollers s) (q_cancelled s) (q_ready s) (q_made s) (f (q_open s)) (q_closed s) (q_refused s) (q_asked s) (q_idle s).
Definition upd_closed (f : bool → bool) (s : pstate) : pstate :=
  PState (q_pollers s) (q_cancelled s) (q_ready s) (q_made s) (q_open s) (f (q_closed s)) (q_refused s) (q_asked s) (q_idle s).
Definition upd_refused (f : bool → bool) (s : pstate) : pstate :=
  PState (q_pollers s) (q_cancelled s) (q_ready s) (q_made s) (q_open s) (q_closed s) (f (q_refused s)) (q_asked s) (q_idle s).
Definition upd_asked (f : nat → nat) (s : pstate) : pstate :=
  PState (q_pollers s) (q_cancelled s) (q_ready s) (q_made s) (q_open s) (q_closed s) (q_refused s) (f (q_asked s)) (q_idle s).
Definition upd_idle (f : bool → bool) (s : pstate) : pstate :=
  PState (q_pollers s) (q_cancelled s) (q_ready s) (q_made s) (q_open s) (q_closed s) (q_refused s) (q_asked s) (f (q_idle s)).
Definition no_pollers : pstate := PState ∅ ∅ [] 0 0 false false 0 false.

(** libuv and the allocator. *)
Class PollEnv := {
  uv_poll_init : nat → option exn;
  uv_poll_start : nat → option exn;
  has_memory : nat → bool }.

Section poller.
Context `{Env : PollEnv}.

Definition ask : M pstate nat := t <- gets q_asked ;; modify (upd_asked S) ;; ret t.
Definition alloc : M pstate bool := t <- ask ;; ret (has_memory t).
Definition no_memory : exn := mk MemoryError "".
Definition checkClosed : M pstate unit :=
  c <- gets q_closed ;; if (c : bool) then raise (mk RuntimeError "Event loop is closed") else ret tt.
Definition cancel (h : option nat) : M pstate unit :=
  match h with Some h => modify (upd_cancelled (λ c, {[h]} ∪ c)) | None => ret tt end.

(** [Handle.create]. *)
Definition create : M pstate nat :=
  ok <- alloc ;; if negb ok then raise no_memory else h <- gets q_made ;; modify (upd_made S) ;; ret h.

(** [destroy]: the sides are emptied and the poll handle closed before anything is released. *)
Definition destroy (p : poller) : M pstate unit :=
  modify (upd_open pred) ;; cancel (p_reader p) ;; cancel (p_writer p).

(** [get]: the poll handle of a descriptor, made on demand. *)
Definition get (fd : nat) : M pstate unit :=
  p <- gets (λ s, q_pollers s !! fd) ;;
  match p with
  | Some _ => ret tt
  | None =>
      ok <- alloc ;; if negb ok then raise no_memory else
      t <- ask ;;
      match uv_poll_init t with
      | Some e => raise e
      | None =>
          modify (upd_open S) ;;
          ok' <- alloc ;;
          if negb ok' then modify (upd_open pred) ;; raise no_memory
          else modify (upd_pollers (<[fd := Poller None None 0 0]>))
      end
  end.

Definition wanted (p : poller) : Z :=
  Z.lor (if p_reader p is Some _ then READABLE else 0) (if p_writer p is Some _ then WRITABLE else 0).
Definition rearm (fd : nat) : M pstate unit :=
  p <- gets (λ s, q_pollers s !! fd) ;;
  match p with
  | None => ret tt
  | Some p =>
      let events := wanted p in
      if events =? p_events p then ret tt else
      modify (upd_pollers (alter (with_events events) fd)) ;;
      if events =? 0 then modify (upd_pollers (delete fd)) ;; destroy p
      else
        t <- ask ;;
        match uv_poll_start t with
        | Some e => modify (upd_refused (λ _, true)) ;; raise e
        | None => modify (upd_pollers (alter (with_polled events) fd))
        end
  end.

(** [addReader], [addWriter]: the new handle is in place before the old one goes. *)
Definition add (write : bool) (fd : nat) : M pstate nat :=
  checkClosed ;;
  h <- create ;;
  checkClosed ;;
  get fd ;;
  p <- gets (λ s, q_pollers s !! fd) ;;
  modify (upd_pollers (alter (with_side write (Some h)) fd)) ;;
  cancel (match p with Some p => side write p | None => None end) ;;
  rearm fd ;; ret h.

(** [removeReader], [removeWriter]. *)
Definition remove (write : bool) (fd : nat) : M pstate bool :=
  p <- gets (λ s, q_pollers s !! fd) ;;
  match p with
  | None => ret false
  | Some p =>
      match side write p with
      | None => ret false
      | Some h =>
          modify (upd_pollers (alter (with_side write None) fd)) ;; cancel (Some h) ;; rearm fd ;; ret true
      end
  end.

(** [schedule]: without memory the turn is skipped. *)
Definition schedule (h : option nat) : M pstate unit :=
  match h with
  | None => ret tt
  | Some h =>
      c <- gets q_cancelled ;;
      if bool_decide (h ∈ c) then ret tt else
      ok <- alloc ;; when_ ok (modify (upd_ready (λ r, r ++ [h])))
  end.

Definition startIdle : M pstate unit :=
  modify (λ s, if negb (q_idle s) && bool_decide (length (q_ready s) ≠ 0%nat) then upd_idle (λ _, true) s else s).

(** [onPoll]; before it reports an error libuv stops polling. *)
Definition onPoll (fd : nat) (status events : Z) : M pstate unit :=
  p <- gets (λ s, q_pollers s !! fd) ;;
  match p with
  | None => ret tt
  | Some p =>
      let fire_read := (status <? 0) || negb (Z.land events READABLE =? 0) in
      let fire_write := (status <? 0) || negb (Z.land events WRITABLE =? 0) in
      when_ fire_read (schedule (p_reader p)) ;;
      when_ fire_write (schedule (p_writer p)) ;;
      when_ (status <? 0)
        (modify (upd_pollers (alter (with_events 0) fd)) ;; catch (rearm fd) (λ _, ret tt)) ;;
      startIdle
  end.
(** What libuv does around it. *)
Definition poll (fd : nat) (status events : Z) : M pstate unit :=
  when_ (status <? 0) (modify (upd_pollers (alter (with_polled 0) fd))) ;; onPoll fd status events.

(** [closeAll]. *)
Definition closeAll : M pstate unit :=
  l <- gets (λ s, (map_to_list (q_pollers s)).*2) ;;
  for_each l destroy ;; modify (upd_pollers (λ _, ∅)).
Definition close_pollers : M pstate unit := modify (upd_closed (λ _, true)) ;; closeAll.

(** ** Steps: Python's calls, and libuv's callback for events it polls for *)
Inductive step (s : pstate) : pstate → Prop :=
  | step_add write fd : step s (add write fd s).2
  | step_remove write fd : step s (remove write fd s).2
  | step_poll fd status events p : q_pollers s !! fd = Some p → p_polled p ≠ 0 → step s (poll fd status events s).2
  | step_close : step s (close_pollers s).2.
Inductive reachable : pstate → Prop :=
  | reach_new : reachable no_pollers
  | reach_step s s' : reachable s → step s s' → reachable s'.

(** ** What is registered *)
Definition registered (write : bool) (s : pstate) : gmap nat nat := omap (side write) (q_pollers s).
Lemma registered_lookup write s fd : registered write s !! fd = q_pollers s !! fd ≫= side write.
Proof. apply lookup_omap. Qed.
Lemma wanted_zero p : wanted p = 0 ↔ p_reader p = None ∧ p_writer p = None.
Proof. unfold wanted. destruct (p_reader p), (p_writer p); vm_compute; naive_solver. Qed.

(** A poll handle in order: somebody is registered, and it is polled for just that - unless
    libuv has refused once. *)
Definition in_order (refused : bool) (p : poller) : Prop :=
  wanted p ≠ 0 ∧ p_events p = wanted p ∧ (refused = false → p_polled p = wanted p).
Definition polled_ok s : Prop := ∀ fd p, q_pollers s !! fd = Some p → in_order (q_refused s) p.
Record handles_ok s : Prop := {
  h_live : ∀ write fd h, registered write s !! fd = Some h → (h ∉ q_cancelled s) ∧ (h < q_made s)%nat;
  h_one : ∀ write write' fd fd' h, registered write s !! fd = Some h → registered write' s !! fd' = Some h → write = write' ∧ fd = fd';
  h_old : ∀ h, h ∈ q_cancelled s → (h < q_made s)%nat }.
Record inv s : Prop := {
  i_polled : polled_ok s;
  i_handles : handles_ok s;
  i_open : q_open s = size (q_pollers s);
  i_closed : q_closed s = true → q_pollers s = ∅ }.

(** What [rearm] leaves alone. *)
Definition same s s' : Prop :=
  (∀ write, registered write s' = registered write s) ∧
  (q_cancelled s', q_ready s', q_made s', q_closed s') = (q_cancelled s, q_ready s, q_made s, q_closed s).
Lemma same_handles s s' : same s s' → handles_ok s → handles_ok s'.
Proof. intros [Hr [= Hc _ Hm _]] []. split; intros *; rewrite ?Hr, ?Hc, ?Hm; [apply h_live0|apply h_one0|apply h_old0]. Qed.

(** All poll handles but that of [fd] are in order, and that one is polled for what was asked. *)
Record almost (fd : nat) (p : poller) s : Prop := {
  a_others : ∀ fd' p', fd' ≠ fd → q_pollers s !! fd' = Some p' → in_order (q_refused s) p';
  a_this : q_pollers s !! fd = Some p;
  a_polled : q_refused s = false → p_polled p = p_events p;
  a_open : q_open s = size (q_pollers s);
  a_closed : q_closed s = false }.

Lemma omap_alter write f fd (m : gmap nat poller) : (∀ p, side write (f p) = side write p) →
  omap (side write) (alter f fd m) = omap (side write) m.
Proof.
  intros Hf. apply map_eq. intros fd'. rewrite !lookup_omap. destruct (decide (fd = fd')) as [-> |].
  - rewrite lookup_alter_eq. destruct (m !! fd'); cbn; [apply Hf|done].
  - by rewrite lookup_alter_ne.
Qed.
Lemma side_with_events write e p : side write (with_events e p) = side write p.
Proof. by destruct write. Qed.
Lemma side_with_polled write e p : side write (with_polled e p) = side write p.
Proof. by destruct write. Qed.
Lemma size_alter (f : poller → poller) fd (m : gmap nat poller) : size (alter f fd m) = size m.
Proof. rewrite <-!(size_dom (D := gset nat)). by rewrite dom_alter_L. Qed.
Lemma omap_delete_empty write fd p (m : gmap nat poller) : m !! fd = Some p → side write p = None →
  omap (side write) (delete fd m) = omap (side write) m.
Proof.
  intros Hp Hs. apply map_eq. intros fd'. rewrite !lookup_omap. destruct (decide (fd = fd')) as [-> |].
  - by rewrite lookup_delete_eq, Hp.
  - by rewrite lookup_delete_ne.
Qed.
Lemma in_order_refused b p : in_order b p → in_order true p.
Proof. by intros (? & ? & ?). Qed.

(** One poll handle changed, the others are as they were. *)
Lemma inv_settle fd s s' : 
  (∀ fd', fd' ≠ fd → q_pollers s' !! fd' = q_pollers s !! fd') →
  (∀ fd' p', fd' ≠ fd → q_pollers s !! fd' = Some p' → in_order (q_refused s) p') →
  (∀ p', q_pollers s' !! fd = Some p' → in_order (q_refused s') p') →
  q_refused s' = q_refused s ∨ q_refused s' = true →
  handles_ok s → same s s' → q_open s' = size (q_pollers s') → q_closed s = false → inv s'.
Proof.
  intros Hoth Hin Hthis Hr Hh Hsame Hopen Hc. split; [|by eapply same_handles|done|].
  - intros fd' p' Hp'. destruct (decide (fd' = fd)) as [-> |Hne]; [by apply Hthis|].
    rewrite Hoth in Hp' by done. specialize (Hin _ _ Hne Hp'). destruct Hr as [-> | ->]; [done|by eapply in_order_refused].
  - destruct Hsame as [_ [= _ _ _ Hcl]]. congruence.
Qed.

Lemma wp_rearm fd p s : almost fd p s → p_events p ≠ 0 ∨ wanted p ≠ 0 → handles_ok s →
  wp (rearm fd) (λ _ s', inv s' ∧ same s s') (λ _ s', inv s' ∧ same s s' ∧ q_refused s' = true) s.
Proof.
  intros [Ho Ht Hp Hs Hc] Ha Hh. unfold rearm. do 2 wp_step. rewrite Ht.
  destruct (Z.eqb_spec (wanted p) (p_events p)) as [E|E].
  { wp_step. split; [|done]. apply (inv_settle fd s s); auto; [|done]. intros p' Hp'. simplify_eq.
    split_and!; [destruct Ha; congruence|done|]. intros. rewrite E. by apply Hp. }
  do 2 wp_step. destruct (Z.eqb_spec (wanted p) 0) as [Ez|Ez].
  - apply wanted_zero in Ez as [Er Ew]. unfold destroy. rewrite Er, Ew. cbn [cancel]. do 6 wp_step.
    assert (Hsame : same s (upd_open Init.Nat.pred (upd_pollers (delete fd) (upd_pollers (alter (with_events (wanted p)) fd) s)))).
    { split; [|done]. intros write. unfold registered. cbn.
      erewrite omap_delete_empty; [|by rewrite lookup_alter_eq, Ht|by destruct write].
      apply omap_alter, side_with_events. }
    split; [|done]. apply (inv_settle fd s); auto; cbn.
    + intros fd' Hne. by rewrite lookup_delete_ne, lookup_alter_ne.
    + intros p'. by rewrite lookup_delete_eq.
    + erewrite map_size_delete_Some by (by rewrite lookup_alter_eq, Ht). by rewrite size_alter, Hs.
  - unfold ask. do 5 wp_step.
    assert (Hsame : ∀ s', q_pollers s' = alter (with_events (wanted p)) fd (q_pollers s) ∨
        q_pollers s' = alter (with_polled (wanted p)) fd (alter (with_events (wanted p)) fd (q_pollers s)) →
        (q_cancelled s', q_ready s', q_made s', q_closed s') = (q_cancelled s, q_ready s, q_made s, q_closed s) → same s s').
    { intros s' Hs' Heq. split; [|done]. intros write. unfold registered.
      destruct Hs' as [-> | ->]; rewrite !omap_alter; auto using side_with_events, side_with_polled. }
    wp_step. wp_step.
    + do 2 wp_step. split_and!; [|by apply Hsame; [left|]|done]. apply (inv_settle fd s); auto; cbn.
      * intros fd' Hne. by rewrite lookup_alter_ne.
      * intros p'. rewrite lookup_alter_eq, Ht. intros [= <-]. by split_and!.
      * by rewrite size_alter.
    + wp_step. split; [|by apply Hsame; [right|]]. apply (inv_settle fd s); auto; cbn.
      * intros fd' Hne. by rewrite !lookup_alter_ne.
      * intros p'. rewrite !lookup_alter_eq, Ht. intros [= <-]. by split_and!.
      * by rewrite !size_alter.
Qed.

Lemma almost_settled s fd p : inv s → q_pollers s !! fd = Some p → q_closed s = false → almost fd p s.
Proof.
  intros [Ho Hh Hs Hc] Hp Hcl. split; auto; [intros ????; by eapply Ho|].
  destruct (Ho fd p Hp) as (_ & -> & H). apply H.
Qed.
Lemma inv_open s fd p : inv s → q_pollers s !! fd = Some p → q_closed s = false.
Proof. intros Hi Hp. destruct (q_closed s) eqn:E; [|done]. rewrite (i_closed _ Hi E) in Hp. done. Qed.

Lemma inv_same_pollers s s' : inv s → same s s' → q_pollers s' = q_pollers s → q_open s' = q_open s →
  q_refused s' = q_refused s → inv s'.
Proof.
  intros [Ho Hh Hs Hc] Hsame Hp Hop Hr. split; [|by eapply same_handles|congruence|].
  - intros fd p. rewrite Hp, Hr. apply Ho.
  - destruct Hsame as [_ [= _ _ _ Hcl]]. rewrite Hp, Hcl. done.
Qed.

Lemma wp_get fd s : inv s → q_closed s = false →
  wp (get fd) (λ _ s', same s s' ∧ ∃ p, almost fd p s') (λ _ s', inv s' ∧ same s s') s.
Proof.
  intros Hi Hc. unfold get. do 2 wp_step. destruct (q_pollers s !! fd) as [p|] eqn:Hp.
  { wp_step. split; [done|]. exists p. by apply almost_settled. }
  unfold alloc, ask. repeat wp_step; simplify_eq.
  all: try (split; [eapply inv_same_pollers; [exact Hi|done..]|done]).
  split.
  - split; [|done]. intros write. unfold registered. cbn. apply map_eq. intros fd'. rewrite !lookup_omap.
    destruct (decide (fd = fd')) as [<- |]; [by rewrite lookup_insert_eq, Hp; destruct write|by rewrite lookup_insert_ne].
  - exists (Poller None None 0 0). split; cbn; auto.
    + intros fd' p' Hne. rewrite lookup_insert_ne by done. apply (i_polled _ Hi).
    + by rewrite lookup_insert_eq.
    + rewrite map_size_insert_None by done. by rewrite (i_open _ Hi).
Qed.

(** ** Registering and removing *)
Definition olds (o : option nat) : gset nat := from_option singleton ∅ o.
Lemma elem_of_olds o h : h ∈ olds o ↔ o = Some h.
Proof. destruct o; cbn; [rewrite elem_of_singleton|]; naive_solver set_solver. Qed.
Lemma wp_cancel o (Q : unit → pstate → Prop) E s : Q tt (upd_cancelled (λ c, olds o ∪ c) s) → wp (cancel o) Q E s.
Proof.
  intros H. destruct o; cbn [cancel]; wp_step; [done|].
  assert ((upd_cancelled (λ c, olds None ∪ c) s) = s) as <-; [|done]. destruct s. unfold upd_cancelled. cbn. by rewrite union_empty_l_L.
Qed.

(** One side of one descriptor changes hands; what it had is cancelled. *)
Record turned (write : bool) (fd : nat) (h : option nat) (s s' : pstate) : Prop := {
  t_this : registered write s' = partial_alter (λ _, h) fd (registered write s);
  t_other : registered (negb write) s' = registered (negb write) s;
  t_cancelled : q_cancelled s' = olds (registered write s !! fd) ∪ q_cancelled s;
  t_rest : (q_ready s', q_closed s') = (q_ready s, q_closed s) }.
Lemma turned_lookup write fd h s s' write' fd' h' : turned write fd h s s' → registered write' s' !! fd' = Some h' →
  (write' = write ∧ fd' = fd ∧ h = Some h') ∨ (registered write' s !! fd' = Some h' ∧ (write', fd') ≠ (write, fd)).
Proof.
  intros [Ht Ho _ _]. destruct (decide (write' = write)) as [-> |Hne].
  - rewrite Ht. destruct (decide (fd' = fd)) as [-> |]; [rewrite lookup_partial_alter_eq; auto|].
    rewrite lookup_partial_alter_ne by done. right. split; [done|congruence].
  - replace write' with (negb write) by (by destruct write, write'). rewrite Ho. right. split; [done|]. by destruct write.
Qed.
Lemma handles_turned write fd h s s' : handles_ok s → turned write fd h s s' → q_made s' = q_made s →
  (∀ h', h = Some h' → (h' ∉ q_cancelled s) ∧ (h' < q_made s)%nat ∧ ∀ write' fd', registered write' s !! fd' ≠ Some h') →
  handles_ok s'.
Proof.
  intros [Hl H1 Ho] Ht Hm Hh. split.
  - intros write' fd' h' Hr. rewrite Hm, (t_cancelled _ _ _ _ _ Ht).
    destruct (turned_lookup _ _ _ _ _ _ _ _ Ht Hr) as [(-> & -> & ->)|[Hr' Hne]].
    + destruct (Hh h') as (? & ? & Hf); [done|]. split; [|done]. apply not_elem_of_union. split; [|done].
      specialize (Hf write fd). destruct (registered write s !! fd); set_solver.
    + destruct (Hl _ _ _ Hr') as [? ?]. split; [|done]. apply not_elem_of_union. split; [|done].
      destruct (registered write s !! fd) as [o|] eqn:E; [|set_solver]. cbn. intros Hin%elem_of_singleton. subst o.
      destruct (H1 _ _ _ _ _ Hr' E) as [-> ->]. done.
  - intros w1 w2 f1 f2 h' R1 R2.
    destruct (turned_lookup _ _ _ _ _ _ _ _ Ht R1) as [(-> & -> & ->)|[R1' N1]],
      (turned_lookup _ _ _ _ _ _ _ _ Ht R2) as [(-> & -> & E2)|[R2' N2]]; eauto.
    + by destruct (Hh h') as (_ & _ & Hf); [done|]; edestruct Hf.
    + by subst h; destruct (Hh h') as (_ & _ & Hf); [done|]; edestruct Hf.
  - intros h'. rewrite Hm, (t_cancelled _ _ _ _ _ Ht), elem_of_union. intros [Hin|]; [|auto].
    destruct (registered write s !! fd) as [o|] eqn:E; [|set_solver]. cbn in Hin. apply elem_of_singleton in Hin as ->. by eapply Hl.
Qed.

Lemma turned_same write fd h s s1 s2 : turned write fd h s s1 → same s1 s2 → turned write fd h s s2.
Proof. intros [] [Hr [= Hc Hy _ Hcl]]. split; rewrite ?Hr, ?Hc, ?Hy, ?Hcl; done. Qed.
Lemma same_turned write fd h s s1 s2 : same s s1 → turned write fd h s1 s2 → turned write fd h s s2.
Proof. intros [Hr [= Hc Hy _ Hcl]] []. split; rewrite <-?Hr, <-?Hc, <-?Hy, <-?Hcl; done. Qed.

Lemma side_with_side write h p : side write (with_side write h p) = h ∧ side (negb write) (with_side write h p) = side (negb write) p.
Proof. by destruct write. Qed.

(** Both start like this: the slot is filled, what it had is cancelled, and libuv is told. *)
Lemma wp_turn_side {A} write fd h p (a : A) s : almost fd p s → handles_ok s → p_events p ≠ 0 ∨ h ≠ None →
  (∀ h', h = Some h' → (h' ∉ q_cancelled s) ∧ (h' < q_made s)%nat ∧ ∀ write' fd', registered write' s !! fd' ≠ Some h') →
  wp (modify (upd_pollers (alter (with_side write h) fd)) ;; cancel (side write p) ;; rearm fd ;; ret a)
    (λ r s', r = a ∧ inv s' ∧ turned write fd h s s' ∧ q_made s' = q_made s)
    (λ _ s', inv s' ∧ turned write fd h s s' ∧ q_made s' = q_made s ∧ q_refused s' = true) s.
Proof.
  intros [Ho Ht Hp Hs Hc] Hh Hev Hfresh. do 3 wp_step. apply wp_cancel.
  set (s2 := upd_cancelled _ _).
  assert (Hturned : turned write fd h s s2).
  { split; [| |unfold registered; by rewrite lookup_omap, Ht|done].
    - unfold registered. apply map_eq. intros fd'. cbn. rewrite lookup_omap. destruct (decide (fd = fd')) as [<- |].
      + rewrite lookup_alter_eq, Ht, lookup_partial_alter_eq. cbn. apply side_with_side.
      + by rewrite lookup_alter_ne, lookup_partial_alter_ne, lookup_omap by done.
    - apply (omap_alter (negb write)). intros. apply side_with_side. }
  assert (Hok : handles_ok s2) by (by eapply handles_turned).
  wp_step. eapply wp_mono; [apply (wp_rearm fd (with_side write h p)); [split| |exact Hok]|..].
  - intros fd' p' Hne. cbn. rewrite lookup_alter_ne by done. by apply Ho.
  - cbn. by rewrite lookup_alter_eq, Ht.
  - intros. destruct write; by apply Hp.
  - cbn. by rewrite size_alter.
  - done.
  - destruct Hev as [Hev|Hev]; [left; by destruct write|right].
    intros [Er Ew]%wanted_zero. destruct write; cbn in *; congruence.
  - intros [] s' [Hi Hsame]. wp_step. split_and!; [done|done|by eapply turned_same|]. by destruct Hsame as [_ [= _ _ ->]].
  - intros e s' (Hi & Hsame & Hr). split_and!; [done|by eapply turned_same| |done]. by destruct Hsame as [_ [= _ _ ->]].
Qed.

Lemma not_registered_new s write fd : handles_ok s → registered write s !! fd ≠ Some (q_made s).
Proof. intros Hh Hr. apply (h_live _ Hh) in Hr as [_ ?]. lia. Qed.
Lemma not_cancelled_new s : handles_ok s → q_made s ∉ q_cancelled s.
Proof. intros Hh Hin. apply (h_old _ Hh) in Hin. lia. Qed.
Lemma inv_made s : inv s → inv (upd_made S s).
Proof.
  intros [Ho [Hl H1 Hd] Hs Hc]. split; try done. split; cbn; [|done|by intros h ?%Hd; lia].
  intros write fd h Hr. destruct (Hl _ _ _ Hr). split; [done|lia].
Qed.
Lemma inv_asked s : inv s → inv (upd_asked S s).
Proof. intros [Ho [Hl H1 Hd] Hs Hc]. by split. Qed.

Lemma wp_add_side write fd s : inv s →
  wp (add write fd) (λ h s', inv s' ∧ h = q_made s ∧ turned write fd (Some h) s s')
    (λ _ s', inv s' ∧ ((∀ write', registered write' s' = registered write' s) ∧ q_cancelled s' = q_cancelled s ∧ q_ready s' = q_ready s
                  ∨ turned write fd (Some (q_made s)) s s' ∧ q_refused s' = true)) s.
Proof.
  intros Hi. unfold add, checkClosed, create, alloc, ask. wp_step. wp_step. wp_step. wp_step.
  { wp_step. auto. }
  do 11 wp_step. { wp_step. split; [by apply inv_asked|auto]. }
  do 8 wp_step. cbn [q_closed upd_made upd_asked]. rewrite Heqb. wp_step.
  set (s1 := upd_made S (upd_asked S s)). set (h := q_made (upd_asked S s)).
  assert (Hi1 : inv s1) by (by apply inv_made, inv_asked).
  wp_step. eapply wp_mono; [apply (wp_get fd s1); [done|exact Heqb]|..]; cycle 1.
  { intros e s' [Hi' [Hr [= Hc Hy _ _]]]. split; [done|left]. split_and!; [|exact Hc|exact Hy]. intros. apply Hr. }
  intros [] s2 (Hsame & p & Hal). wp_step. wp_step. rewrite (a_this _ _ _ Hal).
  assert (Hh2 : handles_ok s2) by (by eapply same_handles; [|apply i_handles]).
  destruct Hsame as [Hr [= Hc Hy Hm Hcl]].
  assert (Hturn : ∀ s', turned write fd (Some h) s2 s' → turned write fd (Some h) s s').
  { intros s' []. split; [by rewrite t_this0, Hr|by rewrite t_other0, Hr|by rewrite t_cancelled0, Hr, Hc|].
    rewrite t_rest0, Hy, Hcl. done. }
  eapply wp_mono; [apply (wp_turn_side write fd (Some h) p h s2 Hal Hh2); [by right|]|..].
  - intros h' [= <-]. rewrite Hc, Hm. split_and!; [apply (not_cancelled_new s), Hi|cbn; lia|].
    intros write' fd'. rewrite Hr. apply (not_registered_new s), Hi.
  - intros ? s' (-> & Hi' & Ht & _). split_and!; auto.
  - intros e s' (Hi' & Ht & _ & Hrf). split; [done|]. right. auto.
Qed.

Lemma wp_remove write fd s : inv s →
  wp (remove write fd) (λ b s', inv s' ∧ b = bool_decide (is_Some (registered write s !! fd)) ∧ turned write fd None s s')
    (λ _ s', inv s' ∧ turned write fd None s s' ∧ q_refused s' = true) s.
Proof.
  intros Hi. unfold remove. wp_step. wp_step.
  assert (Hnone : registered write s !! fd = None → turned write fd None s s).
  { intros E. split; [|done|by rewrite E; cbn; rewrite union_empty_l_L|done]. symmetry. apply map_eq. intros fd'.
    destruct (decide (fd' = fd)) as [-> |]; [by rewrite lookup_partial_alter_eq|by rewrite lookup_partial_alter_ne]. }
  destruct (q_pollers s !! fd) as [p|] eqn:Hp.
  2: { wp_step. rewrite registered_lookup, Hp. split_and!; [done|done|]. apply Hnone. by rewrite registered_lookup, Hp. }
  destruct (side write p) as [h|] eqn:Hsd.
  2: { wp_step. assert (registered write s !! fd = None) as E by (rewrite registered_lookup, Hp; apply Hsd).
       rewrite E. auto. }
  assert (registered write s !! fd = Some h) as E by (rewrite registered_lookup, Hp; apply Hsd). rewrite E.
  pose proof (wp_turn_side write fd None p true s) as Hturn. rewrite Hsd in Hturn. eapply wp_mono; [apply Hturn|..].
  - eapply almost_settled; [done..|]. by eapply inv_open.
  - apply Hi.
  - left. destruct (i_polled _ Hi fd p Hp) as (? & -> & _). done.
  - done.
  - intros b s' (-> & Hi' & Ht & _). auto.
  - intros e s' (Hi' & Ht & _ & Hrf). auto.
Qed.

(** ** Events *)
Definition fires (status events mask : Z) : bool := (status <? 0) || negb (Z.land events mask =? 0).
Definition waiting (status events : Z) (fd : nat) (s : pstate) : list nat :=
  (if fires status events READABLE then option_list (registered false s !! fd) else []) ++
  (if fires status events WRITABLE then option_list (registered true s !! fd) else []).

(** What scheduling changes: the tail of the ready queue. *)
Record scheduled (l : list nat) (s s' : pstate) : Prop := {
  s_pollers : (q_pollers s', q_cancelled s', q_made s', q_open s', q_closed s', q_refused s') =
              (q_pollers s, q_cancelled s, q_made s, q_open s, q_closed s, q_refused s);
  s_ready : ∃ l', q_ready s' = q_ready s ++ l' ∧ sublist l' l ∧ ((∀ t, has_memory t = true) → l' = l) }.
Lemma scheduled_nil s : scheduled [] s s.
Proof. split; [done|]. exists []. by rewrite app_nil_r. Qed.
Lemma scheduled_app l1 l2 s s1 s2 : scheduled l1 s s1 → scheduled l2 s1 s2 → scheduled (l1 ++ l2) s s2.
Proof.
  intros [E1 (k1 & R1 & S1 & M1)] [E2 (k2 & R2 & S2 & M2)]. split; [by rewrite E2|].
  exists (k1 ++ k2). rewrite R2, R1, (assoc_L (++)). split_and!; [done|by apply sublist_app|].
  intros Hm. by rewrite M1, M2.
Qed.
Lemma wp_schedule h s : (∀ h', h = Some h' → h' ∉ q_cancelled s) →
  wp (schedule h) (λ _ s', scheduled (option_list h) s s') (λ _ _, False) s.
Proof.
  intros Hh. destruct h as [h|]; [|apply wp_ret, scheduled_nil]. unfold schedule, alloc, ask. do 2 wp_step.
  rewrite bool_decide_eq_false_2 by by apply Hh. repeat wp_step; split; try done; cbn.
  - exists [h]. done.
  - exists []. rewrite app_nil_r. split_and!; [done|apply sublist_nil_l|congruence].
Qed.
Lemma wp_schedule_when (b : bool) h s : (∀ h', h = Some h' → h' ∉ q_cancelled s) →
  wp (when_ b (schedule h)) (λ _ s', scheduled (if b then option_list h else []) s s') (λ _ _, False) s.
Proof. intros Hh. wp_step; subst; [by apply wp_schedule|apply scheduled_nil]. Qed.

Lemma inv_scheduled l s s' : inv s → scheduled l s s' → inv s'.
Proof.
  intros [Ho [Hl H1 Hd] Hs Hc] [[= Ep Ec Em Eo Ecl Er] _]. split.
  - intros fd p. rewrite Ep, Er. apply Ho.
  - assert (∀ write, registered write s' = registered write s) as E by (intros; unfold registered; by rewrite Ep).
    split; intros *; rewrite ?E, ?Ec, ?Em; [apply Hl|apply H1|apply Hd].
  - by rewrite Eo, Ep.
  - rewrite Ecl, Ep. done.
Qed.

Lemma wp_wake {A} (fr fw : bool) p (k : M pstate A) Q E s :
  (∀ write h', side write p = Some h' → h' ∉ q_cancelled s) →
  (∀ s', scheduled ((if fr then option_list (p_reader p) else []) ++ (if fw then option_list (p_writer p) else [])) s s' → wp k Q E s') →
  wp (when_ fr (schedule (p_reader p)) ;; when_ fw (schedule (p_writer p)) ;; k) Q E s.
Proof.
  intros Hh Hk. wp_step. eapply wp_mono; [apply wp_schedule_when, (Hh false)| |done]. intros [] s1 H1. wp_step.
  eapply wp_mono; [apply wp_schedule_when| |done].
  - destruct H1 as [[= _ -> _ _ _ _] _]. apply (Hh true).
  - intros [] s2 H2. by eapply Hk, scheduled_app.
Qed.

(** After an error libuv has stopped; what is left is polled again. *)
Lemma wp_restart fd p l s s1 : inv s → q_pollers s !! fd = Some p →
  scheduled l (upd_pollers (alter (with_polled 0) fd) s) s1 →
  wp (modify (upd_pollers (alter (with_events 0) fd)) ;; catch (rearm fd) (λ _, ret tt))
    (λ _ s', inv s' ∧ (∀ write, registered write s' = registered write s) ∧
       (q_cancelled s', q_ready s', q_closed s') = (q_cancelled s, q_ready s1, q_closed s)) (λ _ _, False) s1.
Proof.
  intros Hi Hp [[= Ep Ec Em Eo Ecl Er] _]. wp_step. wp_step. wp_step. set (s2 := upd_pollers _ s1).
  assert (Hreg : ∀ write, registered write s2 = registered write s).
  { intros write. unfold registered. cbn. rewrite Ep, !omap_alter; auto using side_with_events, side_with_polled. }
  assert (Hh : handles_ok s2).
  { destruct (i_handles _ Hi) as [Hl H1 Hd]. split; intros *; rewrite ?Hreg; cbn; rewrite ?Ec, ?Em; [apply Hl|apply H1|apply Hd]. }
  eapply wp_mono; [apply (wp_rearm fd (with_events 0 (with_polled 0 p)) s2)|..].
  - split; cbn.
    + intros fd' p' Hne. rewrite lookup_alter_ne, Ep, lookup_alter_ne, Er by done. apply (i_polled _ Hi).
    + by rewrite lookup_alter_eq, Ep, lookup_alter_eq, Hp.
    + done.
    + by rewrite size_alter, Eo, Ep, size_alter, (i_open _ Hi).
    + rewrite Ecl. by eapply inv_open.
  - right. by destruct (i_polled _ Hi fd p Hp).
  - done.
  - intros [] s' [Hi' [Hr [= Hc Hy _ Hcl]]]. split_and!; [done|by intros; rewrite Hr|]. by rewrite Hc, Hy, Hcl, <-Ec, <-Ecl.
  - intros e s' (Hi' & [Hr [= Hc Hy _ Hcl]] & _). wp_step. split_and!; [done|by intros; rewrite Hr|]. by rewrite Hc, Hy, Hcl, <-Ec, <-Ecl.
Qed.

Lemma wp_start_idle (Q : unit → pstate → Prop) E s :
  (∀ b, (q_ready s ≠ [] → b = true) → Q tt (upd_idle (λ _, b) s)) → wp startIdle Q E s.
Proof.
  intros HQ. unfold startIdle. wp_step.
  assert (∀ b, q_idle s = b → upd_idle (λ _, b) s = s) as Hid by (intros b <-; by destruct s).
  destruct (q_idle s) eqn:Hb; cbn [negb andb].
  - specialize (HQ true). rewrite Hid in HQ by done. by apply HQ.
  - case_bool_decide as Hl.
    + by apply (HQ true).
    + specialize (HQ false). rewrite Hid in HQ by done. apply HQ. destruct (q_ready s); [done|cbn in Hl; lia].
Qed.
Lemma inv_idle b s : inv s → inv (upd_idle (λ _, b) s).
Proof. intros [Ho [Hl H1 Hd] Hs Hc]. by split. Qed.

Lemma wp_poll fd p status events s : inv s → q_pollers s !! fd = Some p →
  wp (poll fd status events)
    (λ _ s', inv s' ∧ (∀ write, registered write s' = registered write s) ∧
       (q_cancelled s', q_closed s') = (q_cancelled s, q_closed s) ∧
       (q_ready s' ≠ [] → q_idle s' = true) ∧
       ∃ l, q_ready s' = q_ready s ++ l ∧ sublist l (waiting status events fd s) ∧
            ((∀ t, has_memory t = true) → l = waiting status events fd s))
    (λ _ _, False) s.
Proof.
  intros Hi Hp.
  assert (Hside : ∀ write, registered write s !! fd = side write p) by (intros; by rewrite registered_lookup, Hp).
  assert (Hlive : ∀ write h, side write p = Some h → h ∉ q_cancelled s).
  { intros write h Hs. apply (h_live _ (i_handles _ Hi) write fd h). by rewrite Hside. }
  unfold poll, onPoll, waiting, fires. rewrite !Hside. wp_step. destruct (status <? 0); cbn [orb when_].
  - wp_step. wp_step. wp_step. cbn [q_pollers upd_pollers]. rewrite lookup_alter_eq, Hp. cbn [fmap option_fmap option_map].
    apply (wp_wake true true); [done|]. intros s1 Hs1. wp_step. eapply wp_mono; [by eapply wp_restart| |done].
    intros [] s' (Hi' & Hr & [= Hc Hy Hcl]). apply wp_start_idle. intros b Hb. cbn. rewrite Hc, Hy, Hcl.
    split_and!; [by apply inv_idle|done|done|by rewrite <-Hy|]. apply Hs1.
  - wp_step. wp_step. wp_step. rewrite Hp. apply wp_wake; [done|]. intros s1 Hs1. wp_step. wp_step.
    apply wp_start_idle. intros b Hb. cbn.
    assert (inv s1) by (by eapply inv_scheduled). destruct Hs1 as [[= Ep Ec Em Eo Ecl Er] Hl]. rewrite Ec, Ecl.
    split_and!; [by apply inv_idle| |done|done|done]. intros write. unfold registered. cbn. by rewrite Ep.
Qed.

(** Closing: every poll handle goes, its handles are cancelled. *)
Record shutting (s : pstate) (l : list poller) (s' : pstate) : Prop := {
  d_rest : (q_pollers s', q_ready s', q_made s', q_closed s') = (q_pollers s, q_ready s, q_made s, true);
  d_open : q_open s' = length l;
  d_cancelled : q_cancelled s ⊆ q_cancelled s';
  d_old : ∀ h, h ∈ q_cancelled s' → (h < q_made s)%nat;
  d_done : ∀ fd p write h, q_pollers s !! fd = Some p → side write p = Some h → p ∈ l ∨ h ∈ q_cancelled s';
  d_left : ∀ p, p ∈ l → ∃ fd, q_pollers s !! fd = Some p }.
Lemma wp_destroy s p l s' : handles_ok s → shutting s (p :: l) s' →
  wp (destroy p) (λ _, shutting s l) (λ _ _, False) s'.
Proof.
  intros Hh [[= Ep Ey Em Ecl] Ho Hc Hd Hdn Hlf]. unfold destroy. wp_step. wp_step. wp_step.
  apply wp_cancel, wp_cancel.
  assert (Hin : ∀ h, (∃ write, side write p = Some h) → (h < q_made s)%nat).
  { intros h [write Hs]. destruct (Hlf p) as [fd Hp]; [by left|]. apply (h_live _ Hh write fd).
    by rewrite registered_lookup, Hp. }
  split; cbn.
  - by rewrite Ep, Ey, Em, Ecl.
  - by rewrite Ho.
  - set_solver.
  - intros h. rewrite !elem_of_union. intros [Hr|[Hr|Hr]]; [| |auto].
    + apply Hin. exists true. by apply elem_of_olds.
    + apply Hin. exists false. by apply elem_of_olds.
  - intros fd q write h Hq Hs. destruct (Hdn fd q write h Hq Hs) as [[-> |]%elem_of_cons|]; [|auto|set_solver].
    right. rewrite !elem_of_union, !elem_of_olds. destruct write; auto.
  - intros q Hq. apply Hlf. by right.
Qed.

Lemma wp_close s : inv s → wp close_pollers (λ _ s', inv s' ∧ q_pollers s' = ∅ ∧ q_ready s' = q_ready s ∧
  q_cancelled s ⊆ q_cancelled s' ∧ ∀ write fd h, registered write s !! fd = Some h → h ∈ q_cancelled s') (λ _ _, False) s.
Proof.
  intros [Ho Hh Hs Hc]. unfold close_pollers, closeAll. do 4 wp_step. cbn [q_pollers upd_closed]. wp_step.
  apply (wp_for_each (shutting s)); [split; cbn|intros; by apply wp_destroy|].
  - done.
  - by rewrite length_fmap, length_map_to_list.
  - done.
  - apply Hh.
  - intros fd p write h Hp Hsd. left. apply list_elem_of_fmap. exists (fd, p). split; [done|]. by apply elem_of_map_to_list.
  - intros p ([fd q] & -> & Hin)%list_elem_of_fmap. exists fd. by apply elem_of_map_to_list in Hin.
  - intros s' [[= Ep Ey Em Ecl] Hop Hcn Hd Hdn _]. wp_step. split_and!; [split; cbn; try done|done|done|done|].
    + split.
      * intros write fd h. by rewrite registered_lookup.
      * intros write write' fd fd' h. by rewrite registered_lookup.
      * intros h. cbn. rewrite Em. apply Hd.
    + intros write fd h. rewrite registered_lookup. destruct (q_pollers s !! fd) as [p|] eqn:Hp; [|done]. intros Hsd.
      by destruct (Hdn fd p write h Hp Hsd) as [?%not_elem_of_nil|].
Qed.

(** ** Steps and runs *)
Lemma poller_inv s : reachable s → inv s.
Proof.
  induction 1 as [|s s' _ IH Hstep].
  - split; done.
  - destruct Hstep as [write fd|write fd|fd status events p Hp _|].
    + pose proof (wp_add_side write fd s IH) as H. unfold wp in H. destruct (add write fd s) as [[h|e] s']; apply H.
    + pose proof (wp_remove write fd s IH) as H. unfold wp in H. destruct (remove write fd s) as [[b|e] s']; apply H.
    + pose proof (wp_poll fd p status events s IH Hp) as H. unfold wp in H. destruct (poll fd status events s) as [[[]|e] s']; [apply H|done].
    + pose proof (wp_close s IH) as H. unfold wp in H. destruct (close_pollers s) as [[[]|e] s']; [apply H|done].
Qed.

(** What a step adds to the ready queue was registered, and a cancelled handle stays so. *)
Definition onward (s s' : pstate) : Prop :=
  q_cancelled s ⊆ q_cancelled s' ∧
  ∃ l, q_ready s' = q_ready s ++ l ∧ ∀ h, h ∈ l → h ∉ q_cancelled s.
Lemma onward_turned write fd h s s' : turned write fd h s s' → onward s s'.
Proof. intros [_ _ Hc [= Hy _]]. unfold onward. rewrite Hc, Hy. split; [set_solver|]. exists []. split; [by rewrite app_nil_r|]. set_solver. Qed.
Lemma step_onward s s' : inv s → step s s' → onward s s'.
Proof.
  intros Hi [write fd|write fd|fd status events p Hp _|].
  - pose proof (wp_add_side write fd s Hi) as H. unfold wp in H. destruct (add write fd s) as [[h|e] s'']; cbn.
    + destruct H as (_ & _ & H). by eapply onward_turned.
    + destruct H as (_ & [(_ & Hc & Hy)|[H _]]); [|by eapply onward_turned].
      split; [by rewrite Hc|]. exists []. split; [by rewrite app_nil_r|set_solver].
  - pose proof (wp_remove write fd s Hi) as H. unfold wp in H. destruct (remove write fd s) as [[h|e] s'']; cbn;
      eapply onward_turned; apply H.
  - pose proof (wp_poll fd p status events s Hi Hp) as H. unfold wp in H. destruct (poll fd status events s) as [[[]|e] s'']; [|done].
    destruct H as (_ & _ & [= Hc _] & _ & l & Hy & Hl & _). split; [by rewrite <-Hc|]. exists l. split; [done|].
    intros h Hin. eapply elem_of_sublist in Hin; [|exact Hl]. unfold waiting in Hin.
    apply elem_of_app in Hin as [Hin|Hin]; destruct (fires _ _ _); try by apply not_elem_of_nil in Hin.
    + apply (h_live _ (i_handles _ Hi) false fd). destruct (registered false s !! fd); set_solver.
    + apply (h_live _ (i_handles _ Hi) true fd). destruct (registered true s !! fd); set_solver.
  - pose proof (wp_close s Hi) as H. unfold wp in H. destruct (close_pollers s) as [[[]|e] s'']; [|done].
    destruct H as (_ & _ & Hy & Hc & _). cbn. split; [done|]. exists []. split; [by rewrite Hy, app_nil_r|set_solver].
Qed.

(** What libuv polls a descriptor for, and what is registered for it. *)
Definition polled (s : pstate) (fd : nat) : Z := from_option p_polled 0 (q_pollers s !! fd).
Definition wants (s : pstate) (fd : nat) : Z :=
  Z.lor (if registered false s !! fd is Some _ then READABLE else 0)
        (if registered true s !! fd is Some _ then WRITABLE else 0).
Lemma wants_wanted s fd p : q_pollers s !! fd = Some p → wants s fd = wanted p.
Proof. intros Hp. unfold wants, wanted. by rewrite !registered_lookup, Hp. Qed.
Lemma wants_none s fd : q_pollers s !! fd = None → wants s fd = 0.
Proof. intros Hp. unfold wants. rewrite !registered_lookup, Hp. done. Qed.

(** C22: libuv polls every descriptor for just what is registered for it, also after an error it
    reported, as long as it never refused to; and a poll handle is open just when somebody is
    registered, so that a closed loop has none. *)
Theorem registered_is_polled s : reachable s →
  (q_refused s = false → ∀ fd, polled s fd = wants s fd) ∧
  q_open s = size (dom (registered false s) ∪ dom (registered true s)) ∧
  (q_closed s = true → ∀ write, registered write s = ∅).
Proof.
  intros Hi%poller_inv. split_and!.
  - intros Hr fd. unfold polled. destruct (q_pollers s !! fd) as [p|] eqn:Hp; cbn.
    + rewrite (wants_wanted s fd p) by done. by apply (i_polled _ Hi fd p Hp).
    + by rewrite wants_none.
  - rewrite (i_open _ Hi), <-size_dom. f_equal. apply set_eq. intros fd. rewrite elem_of_union, !elem_of_dom, !registered_lookup.
    destruct (q_pollers s !! fd) as [p|] eqn:Hp; cbn; [|naive_solver].
    destruct (i_polled _ Hi fd p Hp) as [Hw _]. rewrite wanted_zero in Hw.
    destruct (p_reader p), (p_writer p); naive_solver.
  - intros Hc write. unfold registered. rewrite (i_closed _ Hi Hc). apply omap_empty.
Qed.

(** A handle that was removed, superseded or cancelled when the loop closed is never scheduled
    again, whatever happens. *)
Theorem cancelled_not_scheduled s s' h : reachable s → h ∈ q_cancelled s → rtc step s s' →
  h ∈ q_cancelled s' ∧ ∃ l, q_ready s' = q_ready s ++ l ∧ h ∉ l.
Proof.
  intros Hr Hh Hrun. induction Hrun as [s|s s1 s' Hstep _ IH].
  - split; [done|]. exists []. rewrite app_nil_r. split; [done|set_solver].
  - destruct (step_onward s s1) as (Hc & l1 & Hy & Hl); [by apply poller_inv|done|].
    destruct IH as (Hc' & l2 & Hy' & Hl2); [by eapply reach_step|by apply Hc|].
    split; [done|]. exists (l1 ++ l2). rewrite Hy', Hy, (assoc_L (++)). split; [done|]. set_solver.
Qed.

(** An event schedules, once each and the reader first, the handles registered for what
    happened - an error counts as both; without memory some are left out.  The registrations stay,
    and when anything is ready the idle handle is active. *)
Theorem events_schedule s fd status events p r s' : reachable s →
  q_pollers s !! fd = Some p → poll fd status events s = (r, s') →
  r = Ok tt ∧ (∀ write, registered write s' = registered write s) ∧ (q_ready s' ≠ [] → q_idle s' = true) ∧
  ∃ l, q_ready s' = q_ready s ++ l ∧ sublist l (waiting status events fd s) ∧
       ((∀ t, has_memory t = true) → l = waiting status events fd s).
Proof.
  intros Hi%poller_inv Hp Hrun. pose proof (wp_run _ _ _ _ (wp_poll fd p status events s Hi Hp) _ _ Hrun) as H.
  destruct r as [[]|e]; [|done]. by destruct H as (_ & Hr & _ & Hl & Hl').
Qed.

(** The table shown to the connection layer. *)
Definition shows (s : pstate) (w : world) : Prop := ∀ write, registered write s = slot write w.
Lemma slot_set_slot write write' f w :
  slot write' (set_slot write f w) = (if decide (write' = write) then f else id) (slot write' w).
Proof. by destruct write, write'. Qed.
Lemma shows_turned write fd h s s' w : shows s w → turned write fd h s s' →
  shows s' (set_slot write (partial_alter (λ _, h) fd) w).
Proof.
  intros Hs [Ht Ho _ _] write'. rewrite slot_set_slot. case_decide as E.
  - subst. by rewrite Ht, Hs.
  - replace write' with (negb write) by (by destruct write, write'). by rewrite Ho, Hs.
Qed.

(** C15: The poller is the table of watchers the connection layer works with (World): registering
    and removing set and empty one slot, and return what they do there; a call that fails changes
    nothing - unless libuv refused to poll - and events leave the table alone. *)
Theorem poller_refines_watchers write fd s s' w : reachable s → shows s w →
  (∀ h, add write fd s = (Ok h, s') → shows s' (set_slot write (<[fd := h]>) w)) ∧
  (∀ e, add write fd s = (Raise e, s') → q_refused s' = false → shows s' w) ∧
  (∀ b, remove write fd s = (Ok b, s') →
     ∃ w', remove_watch fd write w = (Ok b, w') ∧ shows s' w') ∧
  (∀ e status events p, q_pollers s !! fd = Some p → poll fd status events s = (e, s') → shows s' w).
Proof.
  intros Hi%poller_inv Hs. split_and!.
  - intros h Hrun. pose proof (wp_run _ _ _ _ (wp_add_side write fd s Hi) _ _ Hrun) as (_ & _ & Ht). by apply (shows_turned _ _ (Some h) s).
  - intros e Hrun Hrf. destruct (wp_run _ _ _ _ (wp_add_side write fd s Hi) _ _ Hrun) as (_ & [(Hr & _)|[_ ?]]); [|congruence].
    intros write'. by rewrite Hr.
  - intros b Hrun. pose proof (wp_run _ _ _ _ (wp_remove write fd s Hi) _ _ Hrun) as (_ & -> & Ht).
    exists (set_slot write (delete fd) w). split; [by rewrite (Hs write)|]. by apply (shows_turned _ _ None s).
  - intros e status events p Hp Hrun. pose proof (wp_run _ _ _ _ (wp_poll fd p status events s Hi Hp) _ _ Hrun) as H.
    destruct e as [[]|]; [|done]. destruct H as (_ & Hr & _). intros write'. by rewrite Hr.
Qed.
End poller.

(** ** Concrete runs *)
#[local] Instance willing : PollEnv := {| uv_poll_init _ := None; uv_poll_start _ := None; has_memory _ := true |}.
(** libuv refuses the first poll: another handle watches the descriptor. *)
Definition refusing : PollEnv :=
  {| uv_poll_init _ := None; uv_poll_start t := if (t =? 4)%nat then Some (mk OSError "EEXIST") else None; has_memory _ := true |}.

Definition demo : pstate := (add true 5 (add false 5 no_pollers).2).2.
Lemma polling_reachable : reachable demo.
Proof. repeat (eapply reach_step; [|constructor]). constructor. Qed.
Example demo_error : let s := (poll 5 (-9) 0 demo).2 in (q_ready s, polled s 5) = ([0%nat; 1%nat], 3).
Proof. vm_compute. done. Qed.
Example demo_supersede : let s := (add false 5 demo).2 in
  (registered false s !! 5%nat, bool_decide (0%nat ∈ q_cancelled s), q_open s) = (Some 2%nat, true, 1%nat).
Proof. vm_compute. done. Qed.

Lemma registered_is_polled_witness : polled demo 5 = 3 ∧ q_open demo = 1%nat.
Proof.
  destruct (registered_is_polled demo polling_reachable) as (Hp & Ho & _). split.
  - rewrite Hp by reflexivity. vm_compute. reflexivity.
  - rewrite Ho. vm_compute. reflexivity.
Defined.
Lemma events_schedule_witness : q_ready (poll 5 0 2 demo).2 = [1%nat].
Proof.
  destruct (events_schedule demo 5 0 2 (Poller (Some 0%nat) (Some 1%nat) 3 3) (poll 5 0 2 demo).1 (poll 5 0 2 demo).2
    polling_reachable) as (_ & _ & _ & l & -> & _ & Hl); [by vm_compute|apply surjective_pairing|]. rewrite Hl by done. vm_compute. reflexivity.
Defined.
Lemma cancelled_not_scheduled_witness :
  let s := (remove false 5 demo).2 in 0%nat ∈ q_cancelled (poll 5 (-9) 0 s).2 ∧
  ∃ l, q_ready (poll 5 (-9) 0 s).2 = q_ready s ++ l ∧ 0%nat ∉ l.
Proof.
  apply (cancelled_not_scheduled (remove false 5 demo).2).
  - eapply reach_step; [apply polling_reachable|constructor].
  - vm_compute. reflexivity.
  - apply rtc_once. eapply (step_poll _ 5 _ _ (Poller None (Some 1%nat) 2 2)); vm_compute; congruence.
Defined.
Definition demo_world : world := set_slot true (λ _, registered true demo) (set_slot false (λ _, registered false demo) world0).
Lemma demo_shown : shows demo demo_world.
Proof. by intros []. Qed.
Lemma poller_refines_watchers_witness :
  shows (add false 5 demo).2 (set_slot false (<[5%nat := 2%nat]>) demo_world) ∧
  ∃ w', remove_watch 5 false demo_world = (Ok true, w') ∧ shows (remove false 5 demo).2 w'.
Proof.
  destruct (poller_refines_watchers false 5 demo (add false 5 demo).2 demo_world polling_reachable demo_shown) as (Ha & _).
  destruct (poller_refines_watchers false 5 demo (remove false 5 demo).2 demo_world polling_reachable demo_shown) as (_ & _ & Hr & _).
  split; [apply (Ha 2%nat)|apply (Hr true)]; by vm_compute.
Defined.

(** [add_reader] that raises since libuv refused leaves the handle registered, and noted as
    polled: calling it again succeeds, and nothing is polled. *)
Lemma refused_add_is_kept :
  let r := add (Env := refusing) false 5 no_pollers in let r' := add (Env := refusing) false 5 r.2 in
  (r.1, registered false r.2 !! 5%nat, r'.1, polled r'.2 5, wants r'.2 5) =
  (Raise (mk OSError "EEXIST"), Some 0%nat, Ok 1%nat, 0, 1).
Proof. vm_compute. reflexivity. Qed.
