(* ===== verification/Scripts.v ===== *)
(** * The scripts around the package (src/scripts)

    The parts of the development scripts that compute: finalize_sbom.py adds the compiled
    libuv to a software bill of materials, conformance.py runs CPython's own tests and counts
    what they say, soak.py runs a loop over and over and compares resources.  Reading
    arguments and printing are left out; files, downloads and child processes are arguments. *)
From Stdlib Require Import SpecFloat.
From S2P Require Import Prelude Clock Queue Heap Scheduler SchedInv.

(** ** Texts *)
Definition newline : ascii := "010"%char.
Fixpoint split_on (c : ascii) (s : string) : list string :=
  match s with
  | EmptyString => [EmptyString]
  | String a s' =>
      if decide (a = c) then EmptyString :: split_on c s' else
      match split_on c s' with [] => [String a EmptyString] | w :: l => String a w :: l end
  end.
Definition contains (p s : string) : bool := bool_decide (String.index 0 p s ≠ None).
Definition is_digit (a : ascii) : bool := bool_decide (48 ≤ nat_of_ascii a ≤ 57)%nat.
Fixpoint all_digits (s : string) : bool :=
  match s with EmptyString => true | String a s' => is_digit a && all_digits s' end.

(** ** finalize_sbom.py *)
Module Sbom.

(** What [json.loads] gives; an object's entries are in order and have different keys. *)
Inductive json :=
  | JNull | JBool (b : bool) | JInt (z : Z) | JFloat (x : f64) | JStr (s : string)
  | JArr (l : list json) | JObj (l : list (string * json)).

Abbreviation obj := (list (string * json)).
Fixpoint get (k : string) (o : obj) : option json :=
  match o with [] => None | (k', v) :: o' => if decide (k = k') then Some v else get k o' end.
Fixpoint set (k : string) (v : json) (o : obj) : obj :=
  match o with
  | [] => [(k, v)]
  | (k', v') :: o' => if decide (k = k') then (k, v) :: o' else (k', v') :: set k v o'
  end.

(** [==] between a number of the language and a float is exact. *)
Definition int_eq_float (z : Z) (x : f64) : bool :=
  match x with
  | S754_zero _ => z =? 0
  | S754_finite s m e =>
      let v := if s then Z.neg m else Z.pos m in
      if 0 <=? e then z =? v * 2 ^ e else z * 2 ^ (- e) =? v
  | _ => false
  end.
Fixpoint json_eq (a b : json) {struct a} : bool :=
  match a, b with
  | JNull, JNull => true
  | JBool p, JBool q => Bool.eqb p q
  | JBool p, JInt z => Z.b2z p =? z
  | JInt z, JBool p => Z.b2z p =? z
  | JInt y, JInt z => y =? z
  | JBool p, JFloat x => int_eq_float (Z.b2z p) x
  | JFloat x, JBool p => int_eq_float (Z.b2z p) x
  | JInt z, JFloat x => int_eq_float z x
  | JFloat x, JInt z => int_eq_float z x
  | JFloat x, JFloat y => feq x y
  | JStr s, JStr t => bool_decide (s = t)
  | JArr l, JArr m =>
      (fix arr (l m : list json) : bool :=
         match l, m with [], [] => true | x :: l', y :: m' => json_eq x y && arr l' m' | _, _ => false end) l m
  | JObj o, JObj q =>
      bool_decide (length o = length q) &&
      (fix ents (o : obj) : bool :=
         match o with
         | [] => true
         | (k, x) :: o' => match get k q with Some y => json_eq x y | None => false end && ents o'
         end) o
  | _, _ => false
  end.
(** [a.get(k) == b.get(k')], where a missing key is [None]. *)
Definition or_null (v : option json) : json := match v with Some v => v | None => JNull end.

Definition require_object (value : json) (label : string) : res obj :=
  match value with JObj o => Ok o | _ => Raise (mk ValueError (label ++ " must be a JSON object")) end.
Definition require_array (value : json) (label : string) : res (list json) :=
  match value with JArr l => Ok l | _ => Raise (mk ValueError (label ++ " must be a JSON array")) end.

(** The first line that is [#define macro digits]; the group is what [(\d+)] matched. *)
Definition define_of (macro line : string) : option string :=
  let p := ("#define " ++ macro ++ " ")%string in
  if String.prefix p line then
    let d := String.substring (String.length p) (String.length line - String.length p) line in
    if negb (bool_decide (d = ""%string)) && all_digits d then Some d else None
  else None.
Definition read_macro (header macro : string) : res string :=
  match head (omap (define_of macro) (split_on newline header)) with
  | Some d => Ok d
  | None => Raise (mk ValueError ("could not read " ++ macro ++ " from libuv's version header"))
  end.
Definition rbind {A B} (r : res A) (k : A → res B) : res B := match r with Ok a => k a | Raise e => Raise e end.
Local Notation "x <-? r ;; k" := (rbind r (λ x, k)) (at level 100, r at next level, right associativity).

Definition libuv_version (header : string) : res string :=
  major <-? read_macro header "UV_VERSION_MAJOR" ;;
  minor <-? read_macro header "UV_VERSION_MINOR" ;;
  patch <-? read_macro header "UV_VERSION_PATCH" ;;
  Ok (major ++ "." ++ minor ++ "." ++ patch)%string.
Definition libuv_ref (v : string) : string := ("libuv-" ++ v)%string.
Definition libuv_component (v : string) : json :=
  JObj [("type", JStr "library"); ("bom-ref", JStr (libuv_ref v)); ("name", JStr "libuv"); ("version", JStr v);
        ("purl", JStr ("pkg:github/libuv/libuv@v" ++ v)); ("licenses", JArr [JObj [("license", JObj [("id", JStr "MIT")])]]);
        ("properties", JArr [JObj [("name", JStr "zuvloop:linkage"); ("value", JStr "static")]])]%string.

(** The loop over the dependencies: the index and the entry of the first whose [ref] is the
    component's. *)
Fixpoint find_dependency (i : nat) (l : list json) (ref : json) : res (option (nat * obj)) :=
  match l with
  | [] => Ok None
  | d :: l' =>
      dependency <-? require_object d "dependency" ;;
      if json_eq (or_null (get "ref" dependency)) ref then Ok (Some (i, dependency)) else find_dependency (S i) l' ref
  end.

(** [main] from the parsed document to the one that is written; objects changed in place are
    put back where they were found. *)
Definition finalize (version header : string) (document : json) : res json :=
  root <-? require_object document "SBOM" ;;
  metadata <-? require_object (or_null (get "metadata" root)) "metadata" ;;
  component0 <-? require_object (or_null (get "component" metadata)) "metadata.component" ;;
  let component := set "purl" (JStr ("pkg:pypi/zuvloop@" ++ version)) (set "version" (JStr version) component0) in
  let root := set "metadata" (JObj (set "component" (JObj component) metadata)) root in
  v <-? libuv_version header ;;
  components <-? require_array (or_null (get "components" root)) "components" ;;
  let root := set "components" (JArr (components ++ [libuv_component v])) root in
  dependencies <-? require_array (or_null (get "dependencies" root)) "dependencies" ;;
  found <-? find_dependency 0 dependencies (or_null (get "bom-ref" component)) ;;
  match found with
  | None => Raise (mk ValueError "SBOM has no dependency entry for zuvloop")
  | Some (i, dependency) =>
      depends_on <-? require_array (or_null (get "dependsOn" dependency)) "zuvloop dependsOn" ;;
      let dependency := set "dependsOn" (JArr (depends_on ++ [JStr (libuv_ref v)])) dependency in
      let dependencies := <[i := JObj dependency]> dependencies ++ [JObj [("ref"%string, JStr (libuv_ref v))]] in
      Ok (JObj (set "dependencies" (JArr dependencies) root))
  end.

(** *** What it does *)
Lemma get_set_eq k v (o : obj) : get k (set k v o) = Some v.
Proof.
  induction o as [|[k' v'] o IH]; cbn; [by rewrite decide_True|].
  destruct (decide (k = k')) eqn:E; cbn; [by rewrite decide_True|by rewrite E].
Qed.
Lemma get_set_ne k j v (o : obj) : j ≠ k → get j (set k v o) = get j o.
Proof.
  intros Hne. induction o as [|[k' v'] o IH]; cbn; [by rewrite decide_False|].
  destruct (decide (k = k')) as [<-|]; cbn; [by rewrite !decide_False|]. by rewrite IH.
Qed.
Definition value_error {A} (r : res A) : Prop := match r with Ok _ => True | Raise e => exn_cls e = ValueError end.
Lemma rbind_error {A B} (r : res A) (k : A → res B) : value_error r → (∀ a, r = Ok a → value_error (k a)) → value_error (rbind r k).
Proof. destruct r; cbn; auto. Qed.
Lemma rbind_ok {A B} (r : res A) (k : A → res B) b : rbind r k = Ok b → ∃ a, r = Ok a ∧ k a = Ok b.
Proof. destruct r; cbn; [by eexists|done]. Qed.
Lemma require_object_ok v label o : require_object v label = Ok o → v = JObj o.
Proof. by destruct v; cbn; intros [= <-]. Qed.
Lemma require_array_ok v label l : require_array v label = Ok l → v = JArr l.
Proof. by destruct v; cbn; intros [= <-]. Qed.
Lemma or_null_some v o : or_null v = o → o ≠ JNull → v = Some o.
Proof. by destruct v; cbn; intros <-. Qed.
Lemma require_array_get k o label l : require_array (or_null (get k o)) label = Ok l → get k o = Some (JArr l).
Proof. intros H. apply require_array_ok in H. by apply or_null_some in H. Qed.
Lemma require_object_get k o label q : require_object (or_null (get k o)) label = Ok q → get k o = Some (JObj q).
Proof. intros H. apply require_object_ok in H. by apply or_null_some in H. Qed.

(** The dependency of the component itself: the first whose [ref] is [ref]. *)
Definition is_dependency (ref : json) (deps : list json) (i : nat) (dep : obj) : Prop :=
  deps !! i = Some (JObj dep) ∧ json_eq (or_null (get "ref" dep)) ref = true ∧
  ∀ j d, (j < i)%nat → deps !! j = Some d → ∃ o, d = JObj o ∧ json_eq (or_null (get "ref" o)) ref = false.
Lemma find_dependency_ok k l ref i dep : find_dependency k l ref = Ok (Some (i, dep)) →
  (k ≤ i)%nat ∧ is_dependency ref l (i - k) dep.
Proof.
  revert k. induction l as [|d l IH]; intros k; cbn [find_dependency]; [done|]. intros H. apply rbind_ok in H as (o & Ho & H).
  apply require_object_ok in Ho as ->. destruct (json_eq _ _) eqn:E.
  - injection H as <- <-. split; [lia|]. rewrite Nat.sub_diag. split_and!; [done|done|]. intros j d Hj. lia.
  - apply IH in H as (Hk & H1 & H2 & H3). split; [lia|]. replace (i - k)%nat with (S (i - S k)) by lia. split_and!; [done|done|].
    intros [|j] d' Hj; cbn; [intros [= <-]; by exists o|]. intros Hd. apply (H3 j); [lia|done].
Qed.
Lemma find_dependency_error k l ref : value_error (find_dependency k l ref).
Proof.
  revert k. induction l as [|d l IH]; intros k; cbn [find_dependency]; [done|].
  apply rbind_error; [by destruct d|]. intros o _. destruct (json_eq _ _); [done|apply IH].
Qed.
Lemma libuv_version_error header : value_error (libuv_version header).
Proof. unfold libuv_version, read_macro. repeat (apply rbind_error; [by case_match|intros ? _]). done. Qed.

(** The document that is written has the version of the package, libuv as a component and as
    a dependency of the package's own entry, which is the first with its reference, and is
    otherwise the one that was read; what keeps a document from being finalized is reported as
    a [ValueError]. *)
Theorem finalize_links version header document :
  value_error (finalize version header document) ∧
  ∀ document', finalize version header document = Ok document' →
  ∃ root root' v metadata component components dependencies i dep depends_on,
    document = JObj root ∧ document' = JObj root' ∧ libuv_version header = Ok v ∧
    get "metadata" root = Some (JObj metadata) ∧ get "component" metadata = Some (JObj component) ∧
    get "components" root = Some (JArr components) ∧ get "dependencies" root = Some (JArr dependencies) ∧
    is_dependency (or_null (get "bom-ref" component)) dependencies i dep ∧ get "dependsOn" dep = Some (JArr depends_on) ∧
    get "metadata" root' = Some (JObj (set "component"
      (JObj (set "purl" (JStr ("pkg:pypi/zuvloop@" ++ version)) (set "version" (JStr version) component))) metadata)) ∧
    get "components" root' = Some (JArr (components ++ [libuv_component v])) ∧
    get "dependencies" root' = Some (JArr (<[i := JObj (set "dependsOn" (JArr (depends_on ++ [JStr (libuv_ref v)])) dep)]> dependencies ++
      [JObj [("ref"%string, JStr (libuv_ref v))]])) ∧
    ∀ k, k ≠ "metadata"%string → k ≠ "components"%string → k ≠ "dependencies"%string → get k root' = get k root.
Proof.
  split.
  - unfold finalize. repeat (apply rbind_error;
      [first [apply libuv_version_error|apply find_dependency_error|unfold require_object, require_array; by case_match]|intros ? _; cbv zeta]).
    case_match; [|done]. case_match. apply rbind_error; [unfold require_array; by case_match|done].
  - intros document'. unfold finalize. intros H. apply rbind_ok in H as (root & H1 & H). apply require_object_ok in H1 as ->.
    apply rbind_ok in H as (metadata & H1 & H). apply require_object_get in H1.
    apply rbind_ok in H as (component & H2 & H). apply require_object_get in H2. cbv zeta in H.
    apply rbind_ok in H as (v & H3 & H). apply rbind_ok in H as (components & H4 & H). apply require_array_get in H4.
    rewrite get_set_ne in H4 by done. apply rbind_ok in H as (dependencies & H5 & H). apply require_array_get in H5.
    rewrite !get_set_ne in H5 by done. apply rbind_ok in H as ([[i dep]|] & H6 & H); [|done].
    apply find_dependency_ok in H6 as [_ H6]. rewrite Nat.sub_0_r, !get_set_ne in H6 by done.
    apply rbind_ok in H as (depends_on & H7 & H). apply require_array_get in H7. injection H as <-.
    eexists root, _, v, metadata, component, components, dependencies, i, dep, depends_on.
    split_and!; try done.
    + by rewrite !get_set_ne, get_set_eq by done.
    + by rewrite get_set_ne, get_set_eq by done.
    + by rewrite get_set_eq.
    + intros k K1 K2 K3. by rewrite !get_set_ne.
Qed.

Definition header_demo : string :=
  ("/* libuv */" ++ String newline ("#define UV_VERSION_MAJOR 1" ++ String newline ("#define UV_VERSION_MINOR 51" ++
   String newline ("#define UV_VERSION_PATCH 0" ++ String newline EmptyString))))%string.
Example finalize_demo :
  finalize "0.1" header_demo
    (JObj [("metadata", JObj [("component", JObj [("bom-ref", JStr "zuvloop-1")])]); ("components", JArr []);
           ("dependencies", JArr [JObj [("ref", JStr "zuvloop-1"); ("dependsOn", JArr [])]])]%string) =
  Ok (JObj [("metadata", JObj [("component", JObj [("bom-ref", JStr "zuvloop-1"); ("version", JStr "0.1");
              ("purl", JStr "pkg:pypi/zuvloop@0.1")])]); ("components", JArr [libuv_component "1.51.0"]);
            ("dependencies", JArr [JObj [("ref", JStr "zuvloop-1"); ("dependsOn", JArr [JStr "libuv-1.51.0"])];
              JObj [("ref", JStr "libuv-1.51.0")]])]%string).
Proof. by vm_compute. Qed.
(** The comparison is between what [get] returns, so with no reference on either side the
    first dependency without one is taken for the package's. *)
Example no_reference_matches :
  find_dependency 0 [JObj [("ref", JStr "a")]; JObj [("dependsOn", JArr [])]]%string (or_null (get "bom-ref" [])) =
  Ok (Some (1%nat, [("dependsOn"%string, JArr [])])).
Proof. by vm_compute. Qed.
End Sbom.

(** ** conformance.py *)
Module Conformance.

(** A test is a case with its name or a suite. *)
Inductive test := TCase (id : string) | TSuite (l : list test).
Fixpoint walk (item : test) : list string :=
  match item with
  | TCase id => [id]
  | TSuite l => (fix all (l : list test) : list string := match l with [] => [] | c :: l' => walk c ++ all l' end) l
  end.
Definition collect (suite : test) (pattern : option string) : list string :=
  filter (λ t, match pattern with None => true | Some p => contains p t end = true) (walk suite).

(** [test.rsplit(".", 2)[-2] + "." + test.rsplit(".", 1)[-1]]. *)
Definition test_name (test : string) : res string :=
  match reverse (split_on "." test) with
  | last :: prev :: _ => Ok (prev ++ "." ++ last)%string
  | _ => Raise (mk IndexError "list index out of range")
  end.

(** What became of a test's interpreter. *)
Inductive outcome := TimedOut | Done (returncode : Z) (output : string).

(** [str.splitlines], for the line boundaries that are ASCII. *)
Definition is_boundary (a : ascii) : bool := bool_decide (nat_of_ascii a ∈ [10; 11; 12; 13; 28; 29; 30]%nat).
Fixpoint splitlines (s : string) : list string :=
  match s with
  | EmptyString => []
  | String a s' =>
      if is_boundary a then
        match s' with
        | String b s'' => if bool_decide (a = "013"%char ∧ b = "010"%char) then EmptyString :: splitlines s'' else EmptyString :: splitlines s'
        | EmptyString => [EmptyString]
        end
      else match splitlines s' with [] => [String a EmptyString] | w :: l => String a w :: l end
  end.
Definition reason_of (output : string) : string :=
  match head (filter (λ line, (line ≠ "" ∧ Forall (λ p, String.prefix p line = false) ["-"; "="; "Ran "; "FAILED"; "OK"])%string)
                (reverse (splitlines output))) with
  | Some line => line
  | None => ""
  end.

Record tally := Tally { passed : nat; skipped : nat; failed : list (string * string); hung : list string }.
Definition count (t : tally) (name : string) (o : outcome) : tally :=
  match o with
  | TimedOut => Tally (passed t) (skipped t) (failed t) (hung t ++ [name])
  | Done returncode output =>
      if returncode =? 0 then
        if contains "skipped" output then Tally (passed t) (S (skipped t)) (failed t) (hung t)
        else Tally (S (passed t)) (skipped t) (failed t) (hung t)
      else Tally (passed t) (skipped t) (failed t ++ [(name, reason_of output)]) (hung t)
  end.
(** The loop over the tests; [run] is [subprocess.run] on each. *)
Fixpoint run_tests (run : string → outcome) (tests : list string) (t : tally) : res tally :=
  match tests with
  | [] => Ok t
  | test :: tests' =>
      match test_name test with
      | Raise e => Raise e
      | Ok name => run_tests run tests' (count t name (run test))
      end
  end.
Definition verdict (t : tally) : Z :=
  if decide (failed t = [] ∧ hung t = []) then 0 else 1.
Definition conformance_main (run : string → outcome) (suite : test) (pattern : option string) : res (tally * Z) :=
  match run_tests run (collect suite pattern) (Tally 0 0 [] []) with
  | Ok t => Ok (t, verdict t)
  | Raise e => Raise e
  end.

Definition counted (t : tally) : nat := passed t + skipped t + length (failed t) + length (hung t).
Definition succeeded (o : outcome) : bool := match o with Done 0 _ => true | _ => false end.
Lemma run_tests_spec run tests t t' : run_tests run tests t = Ok t' →
  counted t' = (counted t + length tests)%nat ∧
  (failed t' = [] ∧ hung t' = [] ↔ (failed t = [] ∧ hung t = []) ∧ Forall (λ x, succeeded (run x) = true) tests).
Proof.
  revert t. induction tests as [|x tests IH]; intros t; cbn [run_tests].
  { intros [= <-]. split; [cbn; lia|]. split; [intros ?; split; [done|constructor]|by intros [? _]]. }
  destruct (test_name x) as [name|]; [|done]. intros H. apply IH in H as [H1 H2]. rewrite Forall_cons, H1, H2.
  assert (Hc : counted (count t name (run x)) = S (counted t) ∧
    (failed (count t name (run x)) = [] ∧ hung (count t name (run x)) = [] ↔ (failed t = [] ∧ hung t = []) ∧ succeeded (run x) = true)).
  { unfold counted. destruct (run x) as [|code output]; cbn.
    - rewrite length_app. cbn. split; [lia|]. destruct (hung t); naive_solver.
    - destruct (Z.eqb_spec code 0) as [-> |Hne].
      + destruct (contains _ _); cbn; (split; [lia|]); tauto.
      + cbn. rewrite length_app. cbn. split; [lia|]. destruct (failed t), code; naive_solver. }
  destruct Hc as [Hc1 Hc2]. rewrite Hc1, Hc2. split; [cbn; lia|]. tauto.
Qed.
(** Every selected test is counted once, and the run succeeds exactly if each ended with
    success. *)
Theorem conformance_verdict run suite pattern t code : conformance_main run suite pattern = Ok (t, code) →
  counted t = length (collect suite pattern) ∧
  (code = 0 ↔ Forall (λ x, succeeded (run x) = true) (collect suite pattern)).
Proof.
  unfold conformance_main. destruct (run_tests _ _ _) as [t'|] eqn:E; [|done]. intros [= -> <-].
  apply run_tests_spec in E as [H1 H2]. split; [done|]. unfold verdict. case_decide as Hd; [|split; [done|]]; tauto.
Qed.
Lemma conformance_verdict_witness :
  let run t := if contains "hang" t then TimedOut else Done 0 "OK" in
  let suite := TSuite [TCase "m.C.test_a"; TSuite [TCase "m.C.test_hang"; TCase "m.C.test_b"]] in
  conformance_main run suite None = Ok (Tally 2 0 [] ["C.test_hang"%string], 1) ∧
  counted (Tally 2 0 [] ["C.test_hang"%string]) = length (collect suite None) ∧
  (1 = 0 ↔ Forall (λ x, succeeded (run x) = true) (collect suite None)).
Proof. cbn zeta. split; [by vm_compute|]. apply (conformance_verdict _ _ _ _ 1). by vm_compute. Defined.

(** *** The tree of sources

    What is there of the archive and of the tree unpacked from it: nothing, a part that an
    interruption left, or all. *)
Inductive copy := Missing | Partial | Complete.
#[export] Instance copy_eq_dec : EqDecision copy.
Proof. solve_decision. Defined.
Record cache := Cache { tarball : copy; tree : copy; harness : bool }.
Definition upd_tarball (c : copy) (w : cache) : cache := Cache c (tree w) (harness w).
Definition upd_tree (c : copy) (w : cache) : cache := Cache (tarball w) c (harness w).
Definition upd_harness (b : bool) (w : cache) : cache := Cache (tarball w) (tree w) b.

(** [urlretrieve], [extractall] and [write_text] may each fail, the first two midway. *)
Definition into {A} (set : copy → A → A) (fails : option exn) : M A unit :=
  modify (set Partial) ;; match fails with Some e => raise e | None => modify (set Complete) end.
Definition lib_root (fetch extract write : option exn) : M cache unit :=
  t <- gets tree ;;
  when_ (bool_decide (t = Missing))
    (a <- gets tarball ;; when_ (bool_decide (a = Missing)) (into upd_tarball fetch) ;; into upd_tree extract) ;;
  match write with Some e => raise e | None => modify (upd_harness true) end.

(** A download and an unpacking that nothing interrupts give the whole tree. *)
Theorem lib_root_complete w : tarball w ≠ Partial → tree w ≠ Partial →
  wp (lib_root None None None) (λ _ w', tree w' = Complete ∧ harness w' = true) (λ _ _, False) w.
Proof.
  intros Ha Ht. unfold lib_root, into. wp_go; cbn; try done;
    repeat match goal with H : bool_decide _ = _ |- _ => apply bool_decide_eq_false in H || apply bool_decide_eq_true in H end.
  split; [|done]. by destruct (tree w).
Qed.
Lemma lib_root_complete_witness :
  wp (lib_root None None None) (λ _ w', tree w' = Complete ∧ harness w' = true) (λ _ _, False) (Cache Missing Missing false).
Proof. by apply lib_root_complete. Defined.
(** But what an interruption leaves is taken for the tree by the next run. *)
Example partial_tree_reused e :
  let '(r, w) := lib_root None (Some e) None (Cache Missing Missing false) in
  r = Raise e ∧ lib_root None None None w = (Ok tt, Cache Complete Partial true).
Proof. done. Qed.
End Conformance.

(** ** soak.py *)
Module Soak.

(** [int(line.split()[1]) * 1024] of the first line that starts with [VmRSS:]. *)
Definition is_space (a : ascii) : bool := bool_decide (nat_of_ascii a ∈ [9; 10; 11; 12; 13; 28; 29; 30; 31; 32]%nat).
Fixpoint words (s : string) : list string :=
  match s with
  | EmptyString => []
  | String a s' =>
      if is_space a then words s' else
      match s' with
      | EmptyString => [String a EmptyString]
      | String b _ => if is_space b then String a EmptyString :: words s' else
          match words s' with [] => [String a EmptyString] | w :: l => String a w :: l end
      end
  end.
Fixpoint digits (acc : Z) (s : string) : option Z :=
  match s with
  | EmptyString => Some acc
  | String a s' => if is_digit a then digits (10 * acc + (Z.of_nat (nat_of_ascii a) - 48)) s' else None
  end.
(** [int] of a text of digits, which is what the kernel prints. *)
Definition to_int (s : string) : res Z :=
  match s, digits 0 s with
  | EmptyString, _ | _, None => Raise (mk ValueError "invalid literal for int() with base 10")
  | _, Some z => Ok z
  end.
Definition current_rss_bytes (status : option string) : res (option Z) :=
  match status with
  | None => Ok None
  | Some text =>
      match head (filter (λ line, String.prefix "VmRSS:" line = true) (Conformance.splitlines text)) with
      | None => Ok None
      | Some line =>
          match words line !! 1%nat with
          | None => Raise (mk IndexError "list index out of range")
          | Some w => match to_int w with Ok kb => Ok (Some (kb * 1024)) | Raise e => Raise e end
          end
      end
  end.
Example rss_demo : current_rss_bytes (Some ("VmPeak:	  900 kB" ++ String newline ("VmRSS:	  512 kB" ++ String newline ""))%string) = Ok (Some 524288).
Proof. by vm_compute. Qed.

(** Open descriptors, resident bytes, Python's allocations. *)
Record sample := Sample { fds : option Z; rss : option Z; python : Z }.
Definition check_options (cycles warmup : Z) : res unit :=
  if warmup <? 1 then Raise (mk SystemExit "warmup must be at least one") else
  if cycles <=? warmup then Raise (mk SystemExit "cycles must be greater than warmup") else Ok tt.
(** The loop: [measure n] is what is measured after [n] cycles. *)
Fixpoint run_cycles (measure : Z → sample) (warmup : Z) (left : nat) (cycle : Z) (baseline : option sample) : option sample :=
  match left with
  | O => baseline
  | S left' => run_cycles measure warmup left' (cycle + 1) (if cycle + 1 =? warmup then Some (measure (cycle + 1)) else baseline)
  end.
Definition exceeds (baseline final : option Z) (limit : Z) : bool :=
  match baseline, final with Some b, Some f => limit <? f - b | _, _ => false end.
Definition judge (baseline : option sample) (final : sample) (max_rss max_python : Z) : Z :=
  let b_fds := b ← baseline; fds b in let b_rss := b ← baseline; rss b in
  if bool_decide (b_fds ≠ None) && negb (bool_decide (fds final = b_fds)) then 1 else
  if exceeds b_rss (rss final) max_rss then 1 else
  if exceeds (python <$> baseline) (Some (python final)) max_python then 1 else 0.
Definition soak_main (measure : Z → sample) (cycles warmup max_rss max_python : Z) : res Z :=
  match check_options cycles warmup with
  | Raise e => Raise e
  | Ok _ => Ok (judge (run_cycles measure warmup (Z.to_nat cycles) 0 None) (measure cycles) max_rss max_python)
  end.

Lemma run_cycles_spec measure warmup left cycle baseline :
  run_cycles measure warmup left cycle baseline =
  if decide (cycle < warmup ≤ cycle + Z.of_nat left) then Some (measure warmup) else baseline.
Proof.
  revert cycle baseline. induction left as [|left IH]; intros cycle baseline; cbn [run_cycles]; [by rewrite decide_False by lia|].
  rewrite IH. destruct (Z.eqb_spec (cycle + 1) warmup) as [<-|]; repeat case_decide; done || lia.
Qed.
(** The last measurement is compared with the one after the warmup: descriptors must be as
    many as then, if they can be counted, and memory must not have grown beyond the limits. *)
Theorem soak_verdict measure cycles warmup max_rss max_python code :
  soak_main measure cycles warmup max_rss max_python = Ok code →
  let base := measure warmup in let final := measure cycles in
  code = 0 ↔ (fds base = None ∨ fds final = fds base) ∧
    (∀ b f, rss base = Some b → rss final = Some f → f - b ≤ max_rss) ∧ python final - python base ≤ max_python.
Proof.
  unfold soak_main, check_options. destruct (Z.ltb_spec warmup 1); [done|]. destruct (Z.leb_spec cycles warmup); [done|]. intros [= <-].
  rewrite run_cycles_spec, decide_True by lia. unfold judge. cbn [mbind option_bind fmap option_fmap option_map].
  set (b := measure warmup). set (f := measure cycles). clearbody b f. destruct b as [bf br bp], f as [ff fr fp]. cbn.
  assert (Hr : exceeds br fr max_rss = false ↔ ∀ b f, br = Some b → fr = Some f → f - b ≤ max_rss).
  { destruct br as [x|], fr as [y|]; cbn; try naive_solver. rewrite Z.ltb_ge. naive_solver. }
  destruct (bool_decide (bf ≠ None)) eqn:E1; cbn [andb].
  - apply bool_decide_eq_true in E1. destruct (decide (ff = bf)) as [Hf|Hf].
    + rewrite (bool_decide_eq_true_2 _ Hf). cbn [negb]. destruct (exceeds br fr max_rss).
      * split; [done|]. intros (_ & H' & _). by apply Hr in H'.
      * destruct (Z.ltb_spec max_python (fp - bp)); [split; [done|lia]|]. split; [|done]. intros _. split_and!; [by right|by apply Hr|lia].
    + rewrite (bool_decide_eq_false_2 _ Hf). cbn [negb]. split; [done|]. by intros ([?|?] & _).
  - apply bool_decide_eq_false, dec_stable in E1. destruct (exceeds br fr max_rss).
    + split; [done|]. intros (_ & H' & _). by apply Hr in H'.
    + destruct (Z.ltb_spec max_python (fp - bp)); [split; [done|lia]|]. split; [|done]. intros _. split_and!; [by left|by apply Hr|lia].
Qed.
Lemma soak_verdict_witness :
  let measure n := Sample (Some (if n =? 3 then 8 else 7)) None n in
  soak_main measure 3 1 0 100 = Ok 1 ∧
  let base := measure 1 in let final := measure 3 in
  1 = 0 ↔ (fds base = None ∨ fds final = fds base) ∧
    (∀ b f, rss base = Some b → rss final = Some f → f - b ≤ 0) ∧ python final - python base ≤ 100.
Proof. cbn zeta. split; [by vm_compute|]. apply (soak_verdict (λ n, Sample (Some (if n =? 3 then 8 else 7)) None n) 3 1 0 100 1). by vm_compute. Defined.

(** [handles[::3]]. *)
Fixpoint every_third {A} (l : list A) : list A :=
  match l with x :: _ :: _ :: l' => x :: every_third l' | x :: _ => [x] | [] => [] end.
(** The first part of [exercise_loop], on the scheduler: a hundred callbacks, every third of
    them cancelled, and a turn of the loop. *)
Definition exercise_ready `{Env : LoopEnv} : M state unit :=
  for_each (seq 0 100) scheduleSoon ;;
  s <- gets id ;; for_each (every_third (sched (s_log s))) cancel ;; onIdle.
(** Callbacks that do nothing to the loop, as [ready.append]. *)
Definition appending : LoopEnv := {| clock_ns t := Z.of_nat t; hrtime t := Z.of_nat t; allocates _ := true;
  body _ _ := ([], None); handler _ := []; slow_hook _ := [] |}.
(** The callbacks that run are the sixty-six the script insists on. *)
Example exercise_ready_66 :
  let s := (exercise_ready (Env := appending) (init (NativeSide 1 0 false false) None)).2 in
  length (calls (s_log s)) = 66%nat.
Proof. by vm_compute. Qed.
End Soak.
